(* ===== verification/_CoqProject ===== *)
-Q . S2P
Prelude.v
GoStr.v
Strconv.v
Hash.v
Crc.v
Ring.v
Path.v
Text.v
Time.v
Ec.v
Object.v
Sigv4.v
Chunked.v
Auth.v
Store.v
Etcd.v
Meta.v
Node.v
Cluster.v
Members.v
Listing.v
Multipart.v
Collect.v
Repair.v
Rebalance.v
Passes.v
Loops.v
System.v
S3.v
Reply.v
S3Upload.v
S3Bucket.v
S3Object.v
Kavod.v
