(* ===== verification/Prelude.v ===== *)
(** * kavo: a verification development for a distributed S3 object store

    kavo keeps objects as immutable chunks on the disks of several nodes and one
    manifest per object in etcd. A manifest names the chunks, the nodes that hold them
    and the checksums of the body; it is committed after its chunks are durable, so
    committing it is what makes an object exist. Every node is the same program: it
    coordinates the requests it receives, serves its own chunks to the other nodes, and
    in the background repairs, scrubs, rebalances and collects.

    ** How the parts depend on each other

    - [internal/object] cuts a stream into chunks and puts ranges back together; it
      calls back into whoever stores or fetches a chunk.
    - [internal/store] keeps chunks on one disk; [internal/peer] and [internal/api]
      carry them between nodes.
    - [internal/ring] places a key on nodes; [internal/ec] turns a chunk into shards.
    - [internal/meta] keeps manifests, uploads, parts, writes in flight, members and
      cursors in etcd.
    - [internal/cluster] puts these together: it is the only package that calls all of
      them.
    - [cmd/kavod] starts all of it: it opens the disk and etcd, joins the members, and serves
      once it knows them.
    - [internal/sigv4] decides whether a request may be served at all and checks its body
      as it is read; [internal/s3] parses the request, asks the coordinator and answers.

    ** What each file models

    The definitions keep the names of the code, with a prefix where two would collide
    ([api_put], [ClusterDelete], [heldBack_Write] for a method of [heldBack]).

    - [Prelude]: notation, tactics, the hint databases, machine-width wrap-around, the
      error type, lemmas about lists, maps and integers that several files use.
    - [GoStr], [Strconv], [Path], [Text], [Time], [Hash]: what the code uses of Go's
      [strings], [strconv], [fmt], [path], [net/url], [net/http] headers and dates,
      [time], [encoding/base64], [encoding/hex], [crypto/sha256], [crypto/md5] and
      [crypto/hmac]; executable, the hashes checked on published test vectors.
    - [Crc]: [hash/crc32] and [hash/crc64], and [internal/object/crc.go].
    - [Ring]: [internal/ring/ring.go].
    - [Ec]: [internal/ec/ec.go]. The Reed-Solomon package is third-party: the class
      [ReedSolomon] has its calls, [ReedSolomonLaws] what it documents.
    - [Object]: [internal/object/object.go]. A reader is the bytes it will yield and how
      it ends; a writer is what it was given and how much more it takes; a callback is
      a function on its caller's state.
    - [Store]: [internal/store/store.go], over a file system that has what is visible, what
      is on the disk and every version a name had since its directory was last synced; a
      crash brings each name back as any of these, a file that was not synced with any
      contents, and may take a directory whose parent was not synced. Which system calls
      fail, and at which byte a copy or a read does, is a parameter; a write lists the
      states it passes through, byte by byte, which are where a crash can find it.
    - [Etcd]: the class [Etcd] of calls to etcd and its client, third-party, with the
      laws [EtcdLaws]; every call may fail, and a write that fails may have happened.
    - [Meta]: [internal/meta/meta.go], [writing.go], [upload.go], [members.go]. Records are
      the values that are marshalled, as JSON gives them back: strings with U+FFFD for each
      byte that is no UTF-8 ([json_manifest], [json_upload], [json_completion]).
    - [Node]: [internal/peer/peer.go] and the node side of [internal/api/api.go]. Its
      [world] is every disk, etcd and a script of what goes wrong with each call between
      two nodes. A node holds a chunk ([holds_chunk]) when its name is a synced file of the
      checksum and length, and would come back as one from any crash that leaves its directory.
    - [Cluster]: [internal/cluster/cluster.go] and [erasure.go], and the handlers of
      [internal/api/api.go] that use the coordinator.
    - [Members]: the two goroutines of [internal/meta/members.go], the one that keeps a
      node registered and the one that watches the members, the second together with the
      loop of [main] that receives from it. Each is a machine: a program counter for
      where the goroutine is, and a function from an event (a step of its own, a change
      in etcd, a lease that expires, a channel that closes, the context) to the next state.
    - [Listing]: [internal/cluster/list.go]. [Multipart]: [internal/cluster/upload.go].
    - [Collect]: [internal/cluster/collect.go]. [Repair]: [repair.go] and [scrub.go].
      [Rebalance]: [rebalance.go]. [Passes]: what the walk over the objects promises of any
      visit. [Loops]: the four loops that repeat the passes, and the pacer.
    - [System]: all of these over time. A state is the world, the chunk names written, the
      objects read but not yet visited, and the chunks that requests under way have stored
      or read; [step] is one chunk, one read or write of etcd, one visit, one collection or
      one crash, of any node.
    - [Sigv4] and [Auth]: [internal/sigv4/sigv4.go], first the canonical form of a request
      and the parsing of its headers, then [Verify] and what covers the body. [Chunked]:
      [internal/sigv4/chunked.go], the state machine of one [Read].
    - [S3]: [internal/s3/errors.go] and the functions of [s3.go], [upload.go] and [list.go]
      that read a request (checksums, metadata, conditions, ranges, copy sources, tokens).
      [Reply]: responses and the documents they carry, [fail] and [writeXML]. [S3Upload],
      [S3Bucket], [S3Object]: the handlers of [upload.go]; of [list.go] and [bucket.go]; of
      [s3.go] with [authed] and the router of [New]. A handler takes a request and
      a world and returns a reply (an answer, a redirect, a panic) and a world.
    - [Kavod]: [cmd/kavod/main.go] from the values of its flags to the listeners, the router
      of [internal/api/api.go], and the addresses [internal/peer/peer.go] calls.

    ** What the theorems show

    - The cluster over time (replicating). In every state that the interleaved steps of
      requests and background passes, failures and crashes lead to, every chunk of every
      manifest is held by as many of the manifest's nodes as the write quorum, so any fewer
      may be lost; one name never stands for two chunks. Whole requests and passes are
      sequences of steps. A collection is one step, and begins when what is not committed
      yet is named, covered by a write's record or young.
    - Writing, of a coordinator that replicates. An acknowledged [Put] is committed, and
      every chunk of it is synced, with the right checksum, on a quorum of its owners; a
      [Put] that fails leaves every object as it was, or the answer to its own commit was
      lost and the object is the whole new one; a body that does not match its declared
      checksum and a ring too narrow for the quorum are refused. The same is shown of a
      part, and a completed upload is exactly the recorded parts in order.
    - Reading. Whatever nodes and wires do, a range is handed to a client whole only when
      every chunk it touches was read to its end and checked, and otherwise falls short; an
      erasure-coded chunk is readable from any [Data] of its shards.
    - One disk. A crash at any byte of a verified write leaves the chunk that was there or
      the whole new one; every file that is ever visible is synced, in its place, and the
      whole body of a write that was asked for, under every combination of failing system
      calls; what is read is verified.
    - Metadata. Objects are a map; conditional commits lose no update; records of
      different kinds never share a key, and none but a commit or a delete changes an
      object.
    - Who may ask. A request that does anything at all was signed with the secret, recently,
      in exactly the form it arrived in; a client that signs as the protocol says is let in
      whichever way it covers its body; equal canonical forms mean equal requests.
    - Streamed bodies. Reading a framed body in any pieces yields what the frame means, a
      signed one that ends cleanly is the chain of chunks its signatures vouch for, and
      what a client frames comes out again.
    - S3. A PUT answered with 200 is the durable object of the checked bytes; a GET sends a
      window inside the object with the status, length and range that describe it, and
      never looks complete when it is not; GET and HEAD change nothing; every request is
      redirected, answered in good form or, in one case that is a finding, met with a panic;
      ranges and conditions mean what HTTP says, weak tags apart; the pages of objects and parts
      add up to exactly what there is, and the buckets are the first components of keys.
    - Background work. A collection removes exactly the unreferenced chunks older than
      the grace period, and none that a write, a part and an object name in turn,
      under what other nodes do meanwhile; repair and scrubbing of replicated objects restore
      what they can read; rebalancing, of replicated and coded objects, commits nothing
      before its copies are durable. A pass visits every
      object once and in order and ends; the loops go on until their context is done.
    - Members and start-up. A node that drains renewals of a live lease is listed, and one
      that lost its lease is listed again; a coordinator at rest routes by exactly the
      members etcd lists, and gets there once etcd is quiet, as long as the watch lives; a node opens its listeners
      only when it is configured, registered and has been told the members.
    - Arithmetic. The combination of checksums is exact for the three CRCs; a ring
      names distinct owners, as many as asked for, and a departure moves only what the
      departed node owned.

    The statements that say what the code gets wrong are theorems too: the findings they
    prove are a truncated upload, part or source that is acknowledged, an object lost when
    it is renamed during a collection, a chunk in a new directory that a crash can lose, a
    range whose end overflows, a listing of parts that panics, keys that listings skip,
    an upload listed twice, a parity fetched needlessly, an upload id that reaches out of the
    uploads and deletes a bucket, an upload that ends under another key than its own, and a
    watch that ends for good when etcd closes it.

    ** Bounds and fuel

    Integers are [Z] and keep their width where the code depends on it ([wrap_int],
    [wrap_uint]); lengths, offsets and sizes of what is in memory or on disk are far
    below 2^63 and stay unbounded. A loop of the code that is not structural takes fuel,
    and its theorem says how much is enough: [Listing.List] needs one page per key of
    the bucket, the collector one page per record and a pass one page per object
    ([List_terminates], [Collect_returns], [passes_end]), which is what the loops of [Loops] give
    them; [listBuckets] takes its fuel from [ev_fuel], and one more than there
    are buckets and keys outside one is enough ([listBuckets_exact], [ServeHTTP_wellformed]); reading a framed body takes
    no more reads than it has bytes ([drain_unframes]); the chunk loops of [Object] get their fuel from the length of the
    source or the number of chunks. Outcomes carry an explicit out-of-fuel result, which
    the theorems exclude.

    ** What is a parameter, and what is left out

    Reed-Solomon arithmetic and etcd are parameters with laws, each with a concrete
    instance that satisfies them. [encoding/xml] is a parameter without any: documents
    are the values that are marshalled, and marshalling may fail. A request's query and
    escaped path are as [net/http] parsed them. How much a buffered source returns at a
    time, the offsets of the machine's time zone, random identifiers, the clock, the failures of disks
    and peers, the segments of [io.Copy] and the steps of other nodes during a
    collection are arguments, and the theorems hold for every value of them.

    Calls the code makes in parallel on different nodes are run in order: in [System] the
    copies of one chunk, a visit and a collection are one step each. What a collection and
    other nodes do to each other in the middle of one is in [Collect]. Where a pass waits for its pacer is left out, as waiting changes
    nothing, and so are the settings of HTTP clients. A panic ends its request and nothing
    else. The text of XML documents and the log lines are left out. Not modelled: the [flag]
    package and the listeners of [cmd/kavod], the string in [version], and [test], which
    starts processes for the integration tests. *)

From Stdlib Require Export ZArith Lia Bool Ascii.
From Stdlib Require String.
From stdpp Require Export prelude gmap strings sorting.

#[global] Arguments String.append !s1 s2 : simpl nomatch.
#[global] Open Scope Z_scope.
#[global] Open Scope list_scope.

(** [length] is the list one throughout; a string's length is [slen]. *)
Abbreviation length := List.length.

(** ** Automation

    [kavo] collects the rewriting facts the components share; [zbool] turns the
    boolean integer tests of the code into the propositions they decide. *)

Create HintDb kavo.
Create Rewrite HintDb kavo.
Declare Scope kavo_scope.
Delimit Scope kavo_scope with kavo.
#[global] Open Scope kavo_scope.

Ltac zbool_step :=
  match goal with
  | |- context [Z.ltb ?a ?b] => destruct (Z.ltb_spec a b)
  | |- context [Z.leb ?a ?b] => destruct (Z.leb_spec a b)
  | |- context [Z.eqb ?a ?b] => destruct (Z.eqb_spec a b)
  | H : context [Z.ltb ?a ?b] |- _ => destruct (Z.ltb_spec a b)
  | H : context [Z.leb ?a ?b] |- _ => destruct (Z.leb_spec a b)
  | H : context [Z.eqb ?a ?b] |- _ => destruct (Z.eqb_spec a b)
  end.

(** [lia] and [nia] with division and remainder eliminated first. *)
Ltac dlia := Z.to_euclidean_division_equations; lia.
Ltac dnia := Z.to_euclidean_division_equations; nia.

Ltac zbool := repeat (zbool_step; simpl in *; simplify_eq; try lia).

(** Split a hypothesis or goal [a && b = true] / [negb b = true] into facts. *)
Ltac bool_facts :=
  repeat match goal with
  | H : (_ && _)%bool = true |- _ => apply andb_true_iff in H as [? ?]
  | H : (_ || _)%bool = false |- _ => apply orb_false_iff in H as [? ?]
  | H : negb _ = true |- _ => apply negb_true_iff in H
  | H : negb _ = false |- _ => apply negb_false_iff in H
  | H : bool_decide _ = true |- _ => apply bool_decide_eq_true in H
  | H : bool_decide _ = false |- _ => apply bool_decide_eq_false in H
  | H : Z.ltb _ _ = true |- _ => apply Z.ltb_lt in H
  | H : Z.ltb _ _ = false |- _ => apply Z.ltb_ge in H
  | H : Z.leb _ _ = true |- _ => apply Z.leb_le in H
  | H : Z.leb _ _ = false |- _ => apply Z.leb_gt in H
  | H : Z.eqb _ _ = true |- _ => apply Z.eqb_eq in H
  | H : Z.eqb _ _ = false |- _ => apply Z.eqb_neq in H
  end.

(** ** Machine integers

    Go integers are [Z] with their wrap-around written out. *)

Definition wrap_uint (w : Z) (z : Z) : Z := z mod 2 ^ w.
Definition wrap_int (w : Z) (z : Z) : Z := (z + 2 ^ (w - 1)) mod 2 ^ w - 2 ^ (w - 1).

Abbreviation wrap_uint64 := (wrap_uint 64).
Abbreviation wrap_int64 := (wrap_int 64).

Definition max_int64 : Z := 2 ^ 63 - 1.
Definition min_int64 : Z := - 2 ^ 63.
Definition is_int64 (z : Z) : Prop := min_int64 <= z <= max_int64.

Lemma wrap_int64_id z : is_int64 z -> wrap_int64 z = z.
Proof.
  unfold is_int64, min_int64, max_int64, wrap_int. intros H.
  rewrite Z.mod_small; lia.
Qed.

Lemma wrap_int64_range z : is_int64 (wrap_int64 z).
Proof.
  unfold is_int64, min_int64, max_int64, wrap_int.
  pose proof (Z.mod_pos_bound (z + 2 ^ (64 - 1)) (2 ^ 64)). lia.
Qed.

Lemma wrap_uint_range w z : 0 <= w -> 0 <= wrap_uint w z < 2 ^ w.
Proof. intros. apply Z.mod_pos_bound. lia. Qed.

Lemma wrap_uint_id w z : 0 <= z < 2 ^ w -> wrap_uint w z = z.
Proof. apply Z.mod_small. Qed.

#[export] Hint Rewrite wrap_int64_id wrap_uint_id using lia : kavo.

(** ** Bytes

    A Go [byte] is an [ascii] (eight bits), a Go string is a [string] of them, and
    a [[]byte] is a [list byte]. *)

Abbreviation byte := ascii.
Abbreviation bytes := (list ascii).

Definition byteZ (b : byte) : Z := Z.of_N (N_of_ascii b).
Definition byte_of (z : Z) : byte := ascii_of_N (Z.to_N z).

Lemma byteZ_range b : 0 <= byteZ b < 256.
Proof. unfold byteZ. pose proof (N_ascii_bounded b). lia. Qed.

Lemma byte_of_byteZ b : byte_of (byteZ b) = b.
Proof. unfold byte_of, byteZ. rewrite N2Z.id. apply ascii_N_embedding. Qed.

Lemma byteZ_of z : 0 <= z < 256 -> byteZ (byte_of z) = z.
Proof.
  intros. unfold byte_of, byteZ.
  rewrite N_ascii_embedding by lia. lia.
Qed.

Lemma byteZ_inj a b : byteZ a = byteZ b -> a = b.
Proof. intros H. rewrite <- (byte_of_byteZ a), <- (byte_of_byteZ b). congruence. Qed.

(** The length of a slice as the Go [int] it is. *)
Definition zlen {A} (l : list A) : Z := Z.of_nat (length l).

Lemma zlen_nil {A} : zlen (@nil A) = 0.
Proof. reflexivity. Qed.
Lemma zlen_cons {A} (x : A) l : zlen (x :: l) = 1 + zlen l.
Proof. unfold zlen. simpl. lia. Qed.
Lemma zlen_app {A} (l k : list A) : zlen (l ++ k) = zlen l + zlen k.
Proof. unfold zlen. rewrite length_app. lia. Qed.
Lemma zlen_nonneg {A} (l : list A) : 0 <= zlen l.
Proof. unfold zlen. lia. Qed.
Lemma zlen_zero_nil {A} (l : list A) : zlen l = 0 -> l = [].
Proof. unfold zlen. destruct l; simpl; [done | lia]. Qed.

#[export] Hint Rewrite @zlen_nil @zlen_cons @zlen_app : kavo.

(** [takeZ n l] and [dropZ n l] are Go's [l[:n]] and [l[n:]] for [0 <= n <= len(l)]. *)
Definition takeZ {A} (n : Z) (l : list A) : list A := take (Z.to_nat n) l.
Definition dropZ {A} (n : Z) (l : list A) : list A := drop (Z.to_nat n) l.

Lemma takeZ_dropZ {A} n (l : list A) : takeZ n l ++ dropZ n l = l.
Proof. apply take_drop. Qed.
Lemma zlen_takeZ {A} n (l : list A) : 0 <= n -> zlen (takeZ n l) = Z.min n (zlen l).
Proof. intros. unfold zlen, takeZ. rewrite length_take. lia. Qed.
Lemma zlen_dropZ {A} n (l : list A) : 0 <= n -> zlen (dropZ n l) = Z.max 0 (zlen l - n).
Proof. intros. unfold zlen, dropZ. rewrite length_drop. lia. Qed.
Lemma takeZ_all {A} n (l : list A) : zlen l <= n -> takeZ n l = l.
Proof. intros. unfold takeZ. apply take_ge. unfold zlen in *. lia. Qed.
Lemma dropZ_all {A} n (l : list A) : zlen l <= n -> dropZ n l = [].
Proof. intros. unfold dropZ. apply drop_ge. unfold zlen in *. lia. Qed.
Lemma dropZ_dropZ {A} n m (l : list A) :
  0 <= n -> 0 <= m -> dropZ n (dropZ m l) = dropZ (m + n) l.
Proof. intros. unfold dropZ. rewrite drop_drop. f_equal. lia. Qed.

Lemma takeZ_join {A} a k (l : list A) :
  0 <= a -> 0 <= k -> takeZ a l ++ takeZ k (dropZ a l) = takeZ (a + k) l.
Proof. intros. unfold takeZ, dropZ. rewrite take_take_drop. f_equal. lia. Qed.
Lemma takeZ_app_ge {A} n (l k : list A) : zlen l <= n -> takeZ n (l ++ k) = l ++ takeZ (n - zlen l) k.
Proof. unfold takeZ, zlen. intros H. rewrite take_app_ge by lia. do 2 f_equal. lia. Qed.
Lemma dropZ_app_ge {A} n (l k : list A) : zlen l <= n -> dropZ n (l ++ k) = dropZ (n - zlen l) k.
Proof. unfold dropZ, zlen. intros H. rewrite drop_app_ge by lia. f_equal. lia. Qed.
Lemma takeZ_0 {A} (l : list A) : takeZ 0 l = [].
Proof. done. Qed.
Lemma dropZ_0 {A} (l : list A) : dropZ 0 l = l.
Proof. done. Qed.

(** ** Errors

    A Go error is modelled by the sentinel errors that [errors.Is] finds in its
    [%w] chain; the text of a message is not modelled. An error built with
    [fmt.Errorf] without [%w] wraps nothing, so it is [[]]. *)

Inductive sentinel :=
  (* internal/meta *)
  | MetaErrNotFound | ErrChanged | ErrNotWriting
  (* internal/store *)
  | StoreErrNotFound | ErrChecksumMismatch | ErrInvalidID | ErrVerificationFailed
  (* internal/peer *)
  | PeerErrNotFound
  (* internal/ec *)
  | ErrTooFewShards
  (* internal/cluster *)
  | ErrQuorum | ErrBadDigest | ErrNoSuchPart | ErrPartMismatch | ErrPartOrder
  | ErrUnrepairable | ErrRotUnrecovered
  (* internal/sigv4 *)
  | ErrMissingSignature | ErrMalformed | ErrMissingDate | ErrUnknownKey | ErrMismatch
  | ErrSkew | ErrPayload
  (* internal/s3 *)
  | errRangeSyntax
  (* the standard library *)
  | EOF | ErrUnexpectedEOF | ErrNotExist.

#[global] Instance sentinel_eq_dec : EqDecision sentinel.
Proof. solve_decision. Defined.

Abbreviation error := (list sentinel).

(** [errors.Is(err, s)], [errors.New] or an unwrapped [fmt.Errorf], and [errors.Join]. *)
Definition errors_Is (e : error) (s : sentinel) : bool := bool_decide (s ∈ e).
Definition errors_New : error := [].
Definition errors_Join (es : list (option error)) : option error :=
  match omap id es with
  | [] => None
  | l => Some (concat l)
  end.

(** A Go [(value, error)] pair in which the value is only meaningful without an error. *)
Inductive res (A : Type) :=
  | Ok (a : A)
  | Err (e : error).
Arguments Ok {_} _.
Arguments Err {_} _.

#[global] Instance res_ret : MRet res := fun A a => Ok a.
#[global] Instance res_bind : MBind res := fun A B f r =>
  match r with Ok a => f a | Err e => Err e end.

Definition is_ok {A} (r : res A) : bool := match r with Ok _ => true | Err _ => false end.

Lemma res_bind_Ok {A B} (f : A -> res B) r b :
  (r ≫= f) = Ok b -> exists a, r = Ok a /\ f a = Ok b.
Proof. destruct r; simpl; [eauto | done]. Qed.

(** Run [f] over a list, stopping at the first error, as a Go [for] loop that returns it. *)
Fixpoint res_map {A B} (f : A -> res B) (l : list A) : res (list B) :=
  match l with
  | [] => Ok []
  | x :: l' => match f x with
               | Err e => Err e
               | Ok y => match res_map f l' with Err e => Err e | Ok ys => Ok (y :: ys) end
               end
  end.

Lemma res_map_Ok {A B} (f : A -> res B) l ys :
  res_map f l = Ok ys <-> Forall2 (fun x y => f x = Ok y) l ys.
Proof.
  revert ys. induction l as [|x l IH]; intros ys; simpl.
  - split; [intros [= <-]; constructor | by inversion 1].
  - split.
    + destruct (f x) eqn:Hx; [|done]. destruct (res_map f l) eqn:Hl; [|done].
      intros [= <-]. constructor; [done|]. by apply IH.
    + inversion 1 as [|? y ? ys' Hx Hl]; subst. rewrite Hx.
      apply IH in Hl. by rewrite Hl.
Qed.

(** ** Effects

    A Go function that works on shared state [St] and may fail is a function from the
    state to its result and the state it leaves. *)

Definition st_bind {St A B} (m : St -> res A * St) (f : A -> St -> res B * St) : St -> res B * St :=
  fun s => match m s with (Ok a, s') => f a s' | (Err e, s') => (Err e, s') end.
Definition st_ret {St A} (a : A) : St -> res A * St := fun s => (Ok a, s).
Definition st_fail {St A} (e : error) : St -> res A * St := fun s => (Err e, s).

Notation "'let!' x ':=' m 'in' f" := (st_bind m (fun x => f))
  (at level 10, x binder, m at level 100, f at level 200) : kavo_scope.

Lemma st_bind_Ok {St A B} (m : St -> res A * St) (f : A -> St -> res B * St) s b s'' :
  st_bind m f s = (Ok b, s'') -> exists a s', m s = (Ok a, s') /\ f a s' = (Ok b, s'').
Proof. unfold st_bind. destruct (m s) as [[a|e] s']; [eauto | done]. Qed.

(** ** Generic list facts *)

Lemma Forall2_map_eq {A B C} (f : A -> C) (g : B -> C) l k :
  Forall2 (fun x y => f x = g y) l k <-> map f l = map g k.
Proof.
  revert k. induction l as [|x l IH]; intros [|y k]; simpl; split; try done;
    try (by inversion 1); try (intros; constructor).
  - inversion 1; subst. f_equal; [done|]. by apply IH.
  - by simplify_eq.
  - apply IH. by simplify_eq.
Qed.

Lemma list_snoc_inv {A} (l : list A) : l = [] \/ exists k x, l = k ++ [x].
Proof. destruct l using rev_ind; [by left | right; eauto]. Qed.

Lemma sum_list_zlen_concat {A} (ls : list (list A)) :
  zlen (concat ls) = foldr (fun l acc => zlen l + acc) 0 ls.
Proof. induction ls as [|l ls IH]; simpl; [done|]. rewrite zlen_app, IH. done. Qed.

Section filter_facts.
Context {A : Type} (P : A -> Prop) `{Pdec : !forall x, Decision (P x)}.

Lemma filter_all (l : list A) : Forall P l -> filter P l = l.
Proof. induction 1; [done|]. rewrite filter_cons_True by done. congruence. Qed.

Lemma filter_none (l : list A) : Forall (fun x => ~ P x) l -> filter P l = [].
Proof. induction 1; [done|]. by rewrite filter_cons_False. Qed.

Lemma Forall_filter_keep (Q : A -> Prop) (l : list A) : Forall Q l -> Forall Q (filter P l).
Proof.
  rewrite !Forall_forall. intros H x Hx. apply list_elem_of_filter in Hx as [_ Hx]. auto.
Qed.
End filter_facts.

Lemma NoDup_take {A} n (l : list A) : NoDup l -> NoDup (take n l).
Proof. rewrite <- (take_drop n l) at 1. intros H%NoDup_app. tauto. Qed.

Lemma elem_of_take_1 {A} n (l : list A) x : x ∈ take n l -> x ∈ l.
Proof. rewrite <- (take_drop n l) at 2. rewrite elem_of_app. tauto. Qed.
