(* ===== verification/GoStr.v ===== *)
(** * Go strings

    Byte strings and the functions of Go's [strings], [strconv], [path] and
    [encoding/hex] packages that kavo uses, with the order Go's [<] puts on strings.
    Strings compare byte by byte, which is also the order etcd keeps keys in. *)

From S2P Require Import Prelude.

(** ** Length, concatenation and slices *)

Abbreviation slen := String.length.

Fixpoint sdrop (n : nat) (s : string) : string :=
  match n, s with
  | O, _ => s
  | S n', EmptyString => EmptyString
  | S n', String _ s' => sdrop n' s'
  end.

Fixpoint stake (n : nat) (s : string) : string :=
  match n, s with
  | O, _ => EmptyString
  | S n', EmptyString => EmptyString
  | S n', String c s' => String c (stake n' s')
  end.

Definition of_bytes (b : bytes) : string := String.string_of_list_ascii b.
Definition to_bytes (s : string) : bytes := String.list_ascii_of_string s.

Lemma to_of_bytes b : to_bytes (of_bytes b) = b.
Proof. apply String.list_ascii_of_string_of_list_ascii. Qed.
Lemma of_to_bytes s : of_bytes (to_bytes s) = s.
Proof. apply String.string_of_list_ascii_of_string. Qed.
Lemma to_bytes_app a b : to_bytes (a +:+ b) = to_bytes a ++ to_bytes b.
Proof. unfold to_bytes. induction a; simpl; try done; congruence. Qed.
Lemma to_bytes_inj a b : to_bytes a = to_bytes b -> a = b.
Proof. intros H. rewrite <- (of_to_bytes a), <- (of_to_bytes b). congruence. Qed.
Lemma length_to_bytes s : length (to_bytes s) = slen s.
Proof. unfold to_bytes. induction s; simpl; try done; congruence. Qed.

Lemma sapp_nil_r s : (s +:+ "") = s.
Proof. induction s; simpl; try done; congruence. Qed.
Lemma sapp_assoc a b c : (a +:+ (b +:+ c)) = ((a +:+ b) +:+ c).
Proof. induction a; simpl; try done; congruence. Qed.
Lemma slen_app a b : slen (a +:+ b) = (slen a + slen b)%nat.
Proof. induction a; simpl; try done; congruence. Qed.
Lemma sapp_inj_l p a b : (p +:+ a) = (p +:+ b) -> a = b.
Proof. induction p; simpl; [done|]. intros H. injection H. done. Qed.
Lemma sapp_inj_len a b x y : slen a = slen b -> (a +:+ x) = (b +:+ y) -> a = b /\ x = y.
Proof.
  revert b. induction a as [|c a IH]; intros [|d b] Hl; simpl in *; try done. intros [= -> H].
  by destruct (IH b ltac:(lia) H) as [-> ->].
Qed.
Lemma sapp_nil_inv a b : (a +:+ b) = "" -> a = "" /\ b = "".
Proof. destruct a; simpl; [done|discriminate]. Qed.

#[export] Hint Rewrite slen_app sapp_nil_r : kavo.

(** ** [strings.HasPrefix], [TrimPrefix], [CutPrefix], [HasSuffix], [TrimSuffix] *)

Fixpoint HasPrefix (s p : string) {struct p} : bool :=
  match p, s with
  | EmptyString, _ => true
  | String _ _, EmptyString => false
  | String c p', String d s' => Ascii.eqb c d && HasPrefix s' p'
  end.

Definition CutPrefix (s p : string) : option string :=
  if HasPrefix s p then Some (sdrop (slen p) s) else None.
Definition TrimPrefix (s p : string) : string :=
  if HasPrefix s p then sdrop (slen p) s else s.
Definition HasSuffix (s p : string) : bool :=
  bool_decide (slen p <= slen s)%nat && String.eqb (sdrop (slen s - slen p) s) p.
Definition TrimSuffix (s p : string) : string :=
  if HasSuffix s p then stake (slen s - slen p) s else s.

Lemma HasPrefix_spec s p : HasPrefix s p = true <-> exists t, s = (p +:+ t).
Proof.
  revert s. induction p as [|c p IH]; intros s; simpl.
  - split; [by exists s | done].
  - destruct s as [|d s]; [split; [done | intros [t Ht]; discriminate] |].
    rewrite andb_true_iff, Ascii.eqb_eq, IH. split.
    + intros [-> [t ->]]. eauto.
    + intros [t Ht]. injection Ht. eauto.
Qed.

Lemma HasPrefix_app p t : HasPrefix (p +:+ t) p = true.
Proof. apply HasPrefix_spec. eauto. Qed.

Lemma sdrop_app p t : sdrop (slen p) (p +:+ t) = t.
Proof. induction p; simpl; done. Qed.

Lemma stake_app p t : stake (slen p) (p +:+ t) = p.
Proof. induction p; simpl; [by destruct t | congruence]. Qed.

Lemma stake_sdrop n s : (stake n s +:+ sdrop n s) = s.
Proof. revert s. induction n; intros [|c s]; simpl; try done; congruence. Qed.

Lemma TrimPrefix_app p t : TrimPrefix (p +:+ t) p = t.
Proof. unfold TrimPrefix. by rewrite HasPrefix_app, sdrop_app. Qed.

Lemma CutPrefix_Some s p t : CutPrefix s p = Some t <-> s = (p +:+ t).
Proof.
  unfold CutPrefix. destruct (HasPrefix s p) eqn:H.
  - apply HasPrefix_spec in H as [t' ->]. rewrite sdrop_app.
    split; [by intros [= ->] | intros H%sapp_inj_l; by f_equal].
  - split; [done|]. intros ->. by rewrite HasPrefix_app in H.
Qed.

Lemma HasPrefix_trans a b c :
  HasPrefix a b = true -> HasPrefix b c = true -> HasPrefix a c = true.
Proof.
  rewrite !HasPrefix_spec. intros [t ->] [u ->]. exists (u +:+ t).
  by rewrite sapp_assoc.
Qed.

Lemma HasPrefix_refl s : HasPrefix s s = true.
Proof. apply HasPrefix_spec. exists "". by rewrite sapp_nil_r. Qed.

Lemma HasPrefix_app_iff p s q : HasPrefix (p +:+ s) (p +:+ q) = HasPrefix s q.
Proof. induction p; simpl; [done|]. by rewrite Ascii.eqb_refl. Qed.

#[export] Hint Rewrite HasPrefix_app_iff HasPrefix_app TrimPrefix_app sdrop_app stake_app
  HasPrefix_refl : kavo.

Lemma HasSuffix_app s p : HasSuffix (s +:+ p) p = true.
Proof.
  unfold HasSuffix. rewrite slen_app, bool_decide_true by lia. simpl.
  replace (slen s + slen p - slen p)%nat with (slen s) by lia.
  by rewrite sdrop_app, String.eqb_refl.
Qed.

Lemma HasSuffix_spec s p : HasSuffix s p = true <-> exists t, s = (t +:+ p).
Proof.
  split.
  - unfold HasSuffix. intros H. bool_facts. apply String.eqb_eq in H0.
    exists (stake (slen s - slen p) s). rewrite <- H0 at 2. by rewrite stake_sdrop.
  - intros [t ->]. apply HasSuffix_app.
Qed.

(** ** [strings.Index], [Contains], [IndexByte], [Cut] *)

Fixpoint Index (s sub : string) : option nat :=
  if HasPrefix s sub then Some O
  else match s with
       | EmptyString => None
       | String _ s' => option_map S (Index s' sub)
       end.

Definition Contains (s sub : string) : bool := bool_decide (is_Some (Index s sub)).

Definition IndexByte (s : string) (c : byte) : option nat := Index s (String c "").

(** [strings.Cut(s, sep)]: the text before and after the first [sep], if there is one. *)
Definition Cut (s sep : string) : option (string * string) :=
  match Index s sep with
  | Some i => Some (stake i s, sdrop (i + slen sep) s)
  | None => None
  end.

Lemma Index_Some s sub i :
  Index s sub = Some i -> exists a b, s = (a +:+ sub +:+ b) /\ slen a = i.
Proof.
  revert i. induction s as [|c s IH]; intros i; simpl.
  - destruct (HasPrefix "" sub) eqn:H; [|done]. intros [= <-].
    apply HasPrefix_spec in H as [t H]. exists "", t. done.
  - destruct (HasPrefix (String c s) sub) eqn:H.
    + intros [= <-]. apply HasPrefix_spec in H as [t H]. exists "", t. done.
    + destruct (Index s sub) as [j|] eqn:Hj; [|done]. intros [= <-].
      destruct (IH j) as (a & b & -> & <-); [done|].
      exists (String c a), b. done.
Qed.

Lemma Index_None s sub a b : Index s sub = None -> s <> (a +:+ sub +:+ b).
Proof.
  revert a. induction s as [|c s IH]; intros a; simpl.
  - destruct (HasPrefix "" sub) eqn:H; [done|]. intros _ Hs.
    destruct a; [|discriminate]. simpl in Hs. rewrite Hs, HasPrefix_app in H. done.
  - destruct (HasPrefix (String c s) sub) eqn:H; [done|].
    destruct (Index s sub) eqn:Hs; [done|]. intros _.
    destruct a as [|d a]; simpl; intros He.
    + rewrite He, HasPrefix_app in H. done.
    + injection He as -> He. by eapply IH.
Qed.

(** The first occurrence: nothing before it contains [sub]. *)
Lemma Index_app_le a sub b :
  exists i, Index (a +:+ sub +:+ b) sub = Some i /\ (i <= slen a)%nat.
Proof.
  induction a as [|c a IH]; simpl.
  - destruct (sub +:+ b) eqn:E; simpl; rewrite <- E, HasPrefix_app; eauto.
  - destruct (HasPrefix _ _); [exists O; split; [done|lia]|].
    destruct IH as (i & -> & ?). exists (S i). split; [done|lia].
Qed.

Lemma Contains_spec s sub : Contains s sub = true <-> exists a b, s = (a +:+ sub +:+ b).
Proof.
  unfold Contains. rewrite bool_decide_eq_true. split.
  - intros [i H]. apply Index_Some in H as (a & b & -> & _). eauto.
  - intros (a & b & ->). destruct (Index_app_le a sub b) as (i & -> & _). eauto.
Qed.

Lemma Cut_Some s sep a b :
  Cut s sep = Some (a, b) -> s = (a +:+ sep +:+ b).
Proof.
  unfold Cut. destruct (Index s sep) as [i|] eqn:H; [|done].
  apply Index_Some in H as (x & y & -> & <-). intros [= <- <-].
  rewrite stake_app. f_equal. rewrite sapp_assoc, <- slen_app, sdrop_app. done.
Qed.

(** ** The order on strings

    [slt a b] is Go's [a < b]: the first differing byte decides, and a proper prefix
    comes first. *)

Fixpoint slt (a b : string) {struct a} : bool :=
  match a, b with
  | _, EmptyString => false
  | EmptyString, String _ _ => true
  | String x a', String y b' =>
      if byteZ x <? byteZ y then true
      else if byteZ x =? byteZ y then slt a' b' else false
  end.

Definition sle (a b : string) : bool := negb (slt b a).

Notation "a <s b" := (slt a b = true) (at level 70, no associativity) : kavo_scope.
Notation "a <=s b" := (sle a b = true) (at level 70, no associativity) : kavo_scope.

Lemma slt_irrefl a : slt a a = false.
Proof. induction a as [|c a IH]; simpl; [done|]. rewrite Z.ltb_irrefl, Z.eqb_refl. done. Qed.

Lemma slt_trans a b c : a <s b -> b <s c -> a <s c.
Proof.
  revert b c. induction a as [|x a IH]; intros [|y b] [|z c]; simpl; try done.
  zbool; eauto.
Qed.

Lemma slt_total a b : a <s b \/ a = b \/ b <s a.
Proof.
  revert b. induction a as [|x a IH]; intros [|y b]; simpl; auto.
  destruct (Z.ltb_spec (byteZ x) (byteZ y)); [auto|].
  destruct (Z.eqb_spec (byteZ x) (byteZ y)) as [E|E].
  - rewrite Z.eqb_sym, E, Z.eqb_refl, Z.ltb_irrefl. apply byteZ_inj in E as ->.
    destruct (IH b) as [?|[->|?]]; auto.
  - right. right. destruct (Z.ltb_spec (byteZ y) (byteZ x)); [done|lia].
Qed.

Lemma slt_not_sym a b : a <s b -> slt b a = false.
Proof.
  intros H. destruct (slt b a) eqn:E; [|done].
  pose proof (slt_trans _ _ _ H E) as K. by rewrite slt_irrefl in K.
Qed.

Lemma slt_neq a b : a <s b -> a <> b.
Proof. intros H ->. by rewrite slt_irrefl in H. Qed.

Lemma sle_spec a b : a <=s b <-> a <s b \/ a = b.
Proof.
  unfold sle. rewrite negb_true_iff. split.
  - intros H. destruct (slt_total a b) as [?|[?|?]]; auto; congruence.
  - intros [H| ->]; [by apply slt_not_sym | apply slt_irrefl].
Qed.

Lemma sle_refl a : a <=s a.
Proof. apply sle_spec. by right. Qed.

Lemma slt_false a b : slt a b = false <-> b <=s a.
Proof. unfold sle. by rewrite negb_true_iff. Qed.

Lemma sle_trans a b c : a <=s b -> b <=s c -> a <=s c.
Proof.
  rewrite !sle_spec. intros [?| ->] [?| ->]; auto. left. by eapply slt_trans.
Qed.

Lemma slt_sle_trans a b c : a <s b -> b <=s c -> a <s c.
Proof. rewrite sle_spec. intros H [?| ->]; [by eapply slt_trans | done]. Qed.

Lemma sle_slt_trans a b c : a <=s b -> b <s c -> a <s c.
Proof. rewrite sle_spec. intros [Hab| ->] Hbc; [by eapply slt_trans | done]. Qed.

Lemma sle_antisym a b : a <=s b -> b <=s a -> a = b.
Proof.
  rewrite (sle_spec a b). intros [H| ->] K; [|done].
  unfold sle in K. by rewrite H in K.
Qed.

#[global] Instance sle_po : PreOrder (fun a b => a <=s b).
Proof. split; [intros a; apply sle_refl | intros a b c; apply sle_trans]. Qed.

Lemma slt_app p a b : slt (p +:+ a) (p +:+ b) = slt a b.
Proof. induction p; simpl; [done|]. by rewrite Z.ltb_irrefl, Z.eqb_refl. Qed.

Lemma sle_app p a b : sle (p +:+ a) (p +:+ b) = sle a b.
Proof. unfold sle. by rewrite slt_app. Qed.

Lemma sle_app_prefix p a : p <=s p +:+ a.
Proof. unfold sle. rewrite negb_true_iff. induction p; simpl; [by destruct a|].
  by rewrite Z.ltb_irrefl, Z.eqb_refl. Qed.

Lemma HasPrefix_sle s p : HasPrefix s p = true -> p <=s s.
Proof. rewrite HasPrefix_spec. intros [t ->]. apply sle_app_prefix. Qed.

(** Keys between a prefix and a key that has it also have it. *)
Lemma HasPrefix_convex p a b c :
  HasPrefix a p = true -> HasPrefix c p = true -> a <=s b -> b <=s c -> HasPrefix b p = true.
Proof.
  intros Ha Hc Hab Hbc.
  revert a b c Ha Hc Hab Hbc. induction p as [|x p IH]; intros a b c; [done|].
  destruct a as [|a0 a]; [done|]; destruct c as [|c0 c]; [done|]; simpl.
  rewrite !andb_true_iff, !Ascii.eqb_eq. intros [<- Ha] [<- Hc].
  unfold sle. destruct b as [|b0 b]; [done|]. simpl.
  rewrite !negb_true_iff. intros Hab Hbc.
  assert (byteZ x = byteZ b0) as E by (zbool).
  apply byteZ_inj in E as <-. rewrite Ascii.eqb_refl. simpl.
  rewrite Z.ltb_irrefl, Z.eqb_refl in *.
  apply (IH a b c); unfold sle; try done; by rewrite ?Hab, ?Hbc.
Qed.

#[export] Hint Rewrite slt_app sle_app slt_irrefl : kavo.

(** ** Sorting by a string key

    [sort.Strings], [slices.Sort] and everything that is kept in key order: a stable
    insertion sort. *)

Section sort_by.
Context {A : Type} (key : A -> string).

Fixpoint insert_by (x : A) (l : list A) : list A :=
  match l with
  | [] => [x]
  | y :: l' => if sle (key x) (key y) then x :: l else y :: insert_by x l'
  end.

Definition sort_by (l : list A) : list A := foldr insert_by [] l.

Definition sorted_by (l : list A) : Prop := StronglySorted (fun a b => key a <=s key b) l.

Lemma insert_by_perm x l : insert_by x l ≡ₚ x :: l.
Proof.
  induction l as [|y l IH]; simpl; [done|]. destruct (sle (key x) (key y)); [done|].
  rewrite IH. apply Permutation_swap.
Qed.

Lemma sort_by_perm l : sort_by l ≡ₚ l.
Proof. induction l as [|x l IH]; simpl; [done|]. by rewrite insert_by_perm, IH. Qed.

Lemma elem_of_sort_by x l : x ∈ sort_by l <-> x ∈ l.
Proof. by rewrite sort_by_perm. Qed.

Lemma insert_by_sorted x l : sorted_by l -> sorted_by (insert_by x l).
Proof.
  induction 1 as [|y l Hl IH HF]; simpl; [repeat constructor|].
  destruct (sle (key x) (key y)) eqn:E.
  - constructor; [by constructor|]. constructor; [done|].
    eapply Forall_impl; [done|]. intros z Hz. by eapply sle_trans.
  - constructor; [done|]. unfold sle in E. apply negb_false_iff in E.
    rewrite Forall_forall in *. intros z Hz. rewrite insert_by_perm in Hz.
    apply elem_of_cons in Hz as [->|Hz]; [|auto]. apply sle_spec. by left.
Qed.

Lemma sort_by_sorted l : sorted_by (sort_by l).
Proof. induction l; simpl; [constructor|]. by apply insert_by_sorted. Qed.

Lemma sorted_by_Forall x l : sorted_by (x :: l) -> sorted_by l /\ Forall (fun y => key x <=s key y) l.
Proof. apply StronglySorted_inv. Qed.

(** Two sorted lists with the same elements, and keys that tell them apart, are equal. *)
Lemma sorted_by_unique l k :
  (forall a b, a ∈ l -> b ∈ l -> key a = key b -> a = b) ->
  sorted_by l -> sorted_by k -> l ≡ₚ k -> l = k.
Proof.
  intros Hinj Hl. revert k. induction Hl as [|x l Hl IH HF]; intros k Hk Hp.
  { by apply Permutation_nil in Hp. }
  destruct k as [|y k]; [by apply Permutation_sym, Permutation_nil_cons in Hp|].
  apply sorted_by_Forall in Hk as [Hk HFk].
  assert (x = y) as ->.
  { assert (Hx : x ∈ y :: k) by (rewrite <- Hp; by constructor).
    assert (Hy : y ∈ x :: l) by (rewrite Hp; by constructor).
    apply elem_of_cons in Hx as [->|Hx]; [done|]. apply elem_of_cons in Hy as [->|Hy]; [done|].
    apply Hinj; [by constructor | by constructor|]. apply sle_antisym.
    - rewrite Forall_forall in HF. auto.
    - rewrite Forall_forall in HFk. auto. }
  f_equal. apply IH; [|done|by apply Permutation_cons_inv in Hp].
  intros. apply Hinj; [by constructor | by constructor | done].
Qed.
End sort_by.

#[global] Arguments sort_by : simpl never.

(** ** Case

    [strings.ToLower] on ASCII, which header names are. [strings.EqualFold] folds
    Unicode; one side of every comparison the code makes is ASCII, and the only other
    runes that fold to an ASCII letter are the long s and the Kelvin sign. *)

Definition lower_byte (c : byte) : byte :=
  let z := byteZ c in if (65 <=? z) && (z <=? 90) then byte_of (z + 32) else c.

Fixpoint ToLower (s : string) : string :=
  match s with EmptyString => "" | String c s' => String (lower_byte c) (ToLower s') end.

Fixpoint fold_case (s : string) : string :=
  match s with
  | EmptyString => ""
  | String a s' =>
      match s' with
      | String b s'' =>
          if (byteZ a =? 0xc5) && (byteZ b =? 0xbf) then String "s" (fold_case s'')
          else match s'' with
          | String d s''' =>
              if (byteZ a =? 0xe2) && (byteZ b =? 0x84) && (byteZ d =? 0xaa) then String "k" (fold_case s''')
              else String (lower_byte a) (fold_case s')
          | EmptyString => String (lower_byte a) (fold_case s')
          end
      | EmptyString => String (lower_byte a) (fold_case s')
      end
  end.

Definition EqualFold (a b : string) : bool := String.eqb (fold_case a) (fold_case b).
