(* ===== verification/Strconv.v ===== *)
(** * Numbers as text

    [strconv.FormatInt], [ParseInt], [ParseUint] and [Atoi], the [%d], [%0*d],
    [%08x] and [%02X] verbs of [fmt], and [encoding/hex], as kavo uses them. *)

From S2P Require Import Prelude GoStr.

(** ** Digits *)

Definition digit_char (d : Z) : byte :=
  if d <? 10 then byte_of (48 + d) else byte_of (87 + d).

Definition digit_char_upper (d : Z) : byte :=
  if d <? 10 then byte_of (48 + d) else byte_of (55 + d).

(** The value of a digit in any base up to 36, as [strconv] reads it. *)
Definition digit_val (c : byte) : option Z :=
  let z := byteZ c in
  if (48 <=? z) && (z <=? 57) then Some (z - 48)
  else if (97 <=? z) && (z <=? 122) then Some (z - 87)
  else if (65 <=? z) && (z <=? 90) then Some (z - 55)
  else None.

Lemma digit_val_char d : 0 <= d < 36 -> digit_val (digit_char d) = Some d.
Proof.
  intros H. unfold digit_val, digit_char.
  destruct (Z.ltb_spec d 10); rewrite byteZ_of by lia; zbool; f_equal; lia.
Qed.

Lemma digit_val_char_upper d : 0 <= d < 36 -> digit_val (digit_char_upper d) = Some d.
Proof.
  intros H. unfold digit_val, digit_char_upper.
  destruct (Z.ltb_spec d 10); rewrite byteZ_of by lia; zbool; f_equal; lia.
Qed.

(** ** Formatting *)

Fixpoint format_go (fuel : nat) (base n : Z) (acc : string) : string :=
  match fuel with
  | O => acc
  | S fuel' =>
      let acc' := String (digit_char (n mod base)) acc in
      if n <? base then acc' else format_go fuel' base (n / base) acc'
  end.

(** Fuel [log2 n + 1] is enough: every step at least halves [n]. *)
Definition format_uint (base n : Z) : string :=
  format_go (S (Z.to_nat (Z.log2 n))) base n "".

(** [strconv.FormatInt(n, 10)], [strconv.Itoa], and the [%d] verb. *)
Definition Itoa (n : Z) : string :=
  if n <? 0 then String "-" (format_uint 10 (- n)) else format_uint 10 n.

Fixpoint zeros (k : nat) : string :=
  match k with O => "" | S k' => String "0" (zeros k') end.

(** Left-pad with zeros to a width, as [%0*d] and [%08x] do. *)
Definition pad (width : nat) (s : string) : string :=
  zeros (width - slen s) +:+ s.

Definition pad_dec (width : nat) (n : Z) : string := pad width (format_uint 10 n).
Definition pad_hex (width : nat) (n : Z) : string := pad width (format_uint 16 n).

(** ** Parsing *)

Fixpoint parse_digits (base : Z) (s : string) (acc : Z) : option Z :=
  match s with
  | EmptyString => Some acc
  | String c s' =>
      match digit_val c with
      | Some d => if d <? base then parse_digits base s' (acc * base + d) else None
      | None => None
      end
  end.

(** [strconv.ParseUint(s, base, bits)] for a base given explicitly: no sign, no
    underscores, at least one digit, and in range. *)
Definition ParseUint (s : string) (base bits : Z) : option Z :=
  match s with
  | EmptyString => None
  | _ => match parse_digits base s 0 with
         | Some n => if n <? 2 ^ bits then Some n else None
         | None => None
         end
  end.

(** [strconv.ParseInt(s, base, 64)]: an optional sign, then [ParseUint]'s digits. *)
Definition ParseInt (s : string) (base : Z) : option Z :=
  match s with
  | EmptyString => None
  | String c s' =>
      let neg := Ascii.eqb c "-" in
      let body := if neg || Ascii.eqb c "+" then s' else s in
      match ParseUint body base 64 with
      | Some n =>
          if neg then (if 2 ^ 63 <? n then None else Some (- n))
          else (if 2 ^ 63 <=? n then None else Some n)
      | None => None
      end
  end.

Definition Atoi (s : string) : option Z := ParseInt s 10.

(** ** Round trips *)

Lemma parse_digits_app base s t acc :
  parse_digits base (s +:+ t) acc =
  match parse_digits base s acc with Some a => parse_digits base t a | None => None end.
Proof.
  revert acc. induction s as [|c s IH]; intros acc; simpl; [done|].
  destruct (digit_val c); [|done]. destruct (_ <? _); done.
Qed.

(** What [format_go] puts in front of [acc] reads back as [n]. *)
Lemma parse_format_go fuel base n acc a :
  2 <= base <= 36 -> 0 <= n < 2 ^ Z.of_nat fuel ->
  parse_digits base (format_go fuel base n acc) 0 = Some a <->
  parse_digits base acc n = Some a.
Proof.
  intros Hb. revert n acc. induction fuel as [|fuel IH]; intros n acc Hn.
  - simpl in *. replace n with 0 by lia. done.
  - cbn [format_go].
    assert (0 <= n mod base < base) by (apply Z.mod_pos_bound; lia).
    destruct (Z.ltb_spec n base).
    + cbn [parse_digits]. rewrite digit_val_char by lia.
      rewrite (proj2 (Z.ltb_lt _ _)) by lia. rewrite Z.mod_small by lia. done.
    + rewrite IH.
      * cbn [parse_digits]. rewrite digit_val_char by lia.
        rewrite (proj2 (Z.ltb_lt _ _)) by lia.
        rewrite (Z.mul_comm (n / base)), <- Z.div_mod by lia. done.
      * split; [apply Z.div_pos; lia|].
        apply Z.div_lt_upper_bound; [lia|].
        rewrite Nat2Z.inj_succ, Z.pow_succ_r in Hn by lia. nia.
Qed.

Lemma format_fuel n : 0 <= n -> 0 <= n < 2 ^ Z.of_nat (S (Z.to_nat (Z.log2 n))).
Proof.
  intros H. split; [done|]. rewrite Nat2Z.inj_succ, Z2Nat.id by apply Z.log2_nonneg.
  destruct (Z.eq_dec n 0) as [->|]; [done|]. apply Z.log2_spec. lia.
Qed.

Lemma parse_format base n :
  2 <= base <= 36 -> 0 <= n -> parse_digits base (format_uint base n) 0 = Some n.
Proof. intros. apply parse_format_go; [done| by apply format_fuel | done]. Qed.

Lemma parse_zeros base k s : 2 <= base -> parse_digits base (zeros k +:+ s) 0 = parse_digits base s 0.
Proof.
  intros Hb. induction k as [|k IH]; [done|].
  change (parse_digits base (zeros (S k) +:+ s) 0) with
    (if 0 <? base then parse_digits base (zeros k +:+ s) 0 else None).
  rewrite (proj2 (Z.ltb_lt _ _)) by lia. done.
Qed.

Lemma parse_pad base w n :
  2 <= base <= 36 -> 0 <= n -> parse_digits base (pad w (format_uint base n)) 0 = Some n.
Proof. intros. unfold pad. rewrite parse_zeros by lia. by apply parse_format. Qed.

Lemma pad_dec_inj w n m : 0 <= n -> 0 <= m -> pad_dec w n = pad_dec w m -> n = m.
Proof.
  intros Hn Hm H. unfold pad_dec in H.
  pose proof (parse_pad 10 w n) as P. pose proof (parse_pad 10 w m) as Q.
  rewrite H in P. rewrite P in Q by lia. specialize (Q ltac:(lia) Hm). congruence.
Qed.

Lemma format_go_nonempty fuel base n acc : (0 < fuel)%nat -> format_go fuel base n acc <> "".
Proof.
  revert n acc. induction fuel as [|fuel IH]; intros n acc Hf; [lia|]. cbn [format_go].
  destruct (n <? base); [done|]. destruct fuel; [done|]. apply IH. lia.
Qed.

Lemma pad_nonempty w base n : pad w (format_uint base n) <> "".
Proof.
  unfold pad. intros H%sapp_nil_inv. destruct H as [_ H].
  eapply format_go_nonempty in H; [done|lia].
Qed.

(** [ParseUint] inverts the zero-padded verbs. *)
Lemma ParseUint_pad base w n bits :
  2 <= base <= 36 -> 0 <= n < 2 ^ bits ->
  ParseUint (pad w (format_uint base n)) base bits = Some n.
Proof.
  intros Hb Hn. unfold ParseUint.
  destruct (pad w (format_uint base n)) eqn:E; [by apply pad_nonempty in E|].
  rewrite <- E, parse_pad by lia. by rewrite (proj2 (Z.ltb_lt _ _)) by lia.
Qed.

(** What parses starts with a digit, so no sign is taken off it. *)
Lemma Atoi_pad_dec w n : 0 <= n < 2 ^ 63 -> Atoi (pad_dec w n) = Some n.
Proof.
  intros Hn. unfold Atoi, ParseInt, pad_dec. destruct (pad w (format_uint 10 n)) as [|c s] eqn:E; [by apply pad_nonempty in E|].
  pose proof (parse_pad 10 w n ltac:(lia) ltac:(lia)) as P. rewrite E in P. cbn [parse_digits] in P.
  destruct (Ascii.eqb_spec c "-") as [->|_]; [done|]. destruct (Ascii.eqb_spec c "+") as [->|_]; [done|].
  cbn [orb]. rewrite <- E, ParseUint_pad by lia. by rewrite (proj2 (Z.leb_gt _ _)) by lia.
Qed.

(** What is parsed fits. *)
Lemma digit_val_nonneg c d : digit_val c = Some d -> 0 <= d.
Proof. unfold digit_val. repeat case_match; intros [= <-]; bool_facts; lia. Qed.

Lemma parse_digits_nonneg base s acc n : 0 <= base -> 0 <= acc -> parse_digits base s acc = Some n -> 0 <= n.
Proof.
  intros Hb. revert acc. induction s as [|c s IH]; intros acc Ha; cbn [parse_digits]; [by intros [= <-]|].
  destruct (digit_val c) as [d|] eqn:E; [|done]. apply digit_val_nonneg in E. destruct (_ <? _); [|done]. apply IH. nia.
Qed.

Lemma ParseInt_range s base n : 0 <= base -> ParseInt s base = Some n -> is_int64 n.
Proof.
  intros Hb. unfold ParseInt, is_int64, min_int64, max_int64. destruct s as [|ch s]; [done|].
  destruct (ParseUint _ base 64) as [k|] eqn:E; [|done].
  assert (0 <= k).
  { unfold ParseUint in E. destruct (if Ascii.eqb ch "-" || Ascii.eqb ch "+" then s else String ch s); [done|].
    destruct (parse_digits _ _ _) as [j|] eqn:Ej; [|done]. destruct (_ <? _); [|done]. injection E as <-.
    by eapply parse_digits_nonneg in Ej. }
  destruct (Ascii.eqb ch "-"); [destruct (Z.ltb_spec (2 ^ 63) k) | destruct (Z.leb_spec (2 ^ 63) k)]; intros [= <-]; lia.
Qed.

(** ** Widths *)

Lemma slen_format_go fuel : forall base n acc k,
  2 <= base -> (0 < k)%nat -> 0 <= n < base ^ Z.of_nat k ->
  (slen (format_go fuel base n acc) <= k + slen acc)%nat.
Proof.
  induction fuel as [|fuel IH]; intros base n acc k Hb Hk Hn; cbn [format_go]; [lia|].
  destruct (Z.ltb_spec n base) as [|Hge]; [simpl; lia|].
  destruct k as [|[|k]]; [lia| change (Z.of_nat 1) with 1 in Hn; rewrite Z.pow_1_r in Hn; lia|].
  assert (Hlt : n / base < base ^ Z.of_nat (S k)).
  { apply Z.div_lt_upper_bound; [lia|]. rewrite <- Z.pow_succ_r by lia.
    rewrite <- Nat2Z.inj_succ. apply Hn. }
  specialize (IH base (n / base) (String (digit_char (n mod base)) acc) (S k) Hb ltac:(lia)).
  etransitivity; [apply IH; split; [apply Z.div_pos; lia | done] | simpl; lia].
Qed.

Lemma slen_zeros k : slen (zeros k) = k.
Proof. induction k; simpl; congruence. Qed.

Lemma slen_pad_dec w n : (0 < w)%nat -> 0 <= n < 10 ^ Z.of_nat w -> slen (pad_dec w n) = w.
Proof.
  intros Hw Hn. unfold pad_dec, pad. rewrite slen_app, slen_zeros.
  pose proof (slen_format_go (S (Z.to_nat (Z.log2 n))) 10 n "" w ltac:(lia) Hw Hn) as H.
  change (slen "") with 0%nat in H. fold (format_uint 10 n) in H. lia.
Qed.
