(* ===== verification/Hash.v ===== *)
(** * Digests: [crypto/sha256], [crypto/md5], [crypto/hmac] and big-endian words

    The standard library's hash functions as kavo uses them: placement hashes keys
    with SHA-256, an object's ETag is its MD5, and request signatures are
    HMAC-SHA-256. They are executable and checked against published test vectors;
    no theorem depends on more than the length of a digest. *)

From S2P Require Import Prelude GoStr Strconv.

Definition w32 (z : Z) : Z := wrap_uint 32 z.
Definition rotr (x n : Z) : Z := Z.lor (Z.shiftr x n) (w32 (Z.shiftl x (32 - n))).
Definition rotl (x n : Z) : Z := rotr x (32 - n).
Definition not32 (x : Z) : Z := Z.lxor x 0xffffffff.

(** ** Words and bytes *)

Definition be_word (bs : list byte) : Z := foldl (fun acc b => acc * 256 + byteZ b) 0 bs.

(** The [n] low bytes of [z], most significant first. *)
Fixpoint be_bytes (n : nat) (z : Z) : bytes :=
  match n with
  | O => []
  | S n' => be_bytes n' (z / 256) ++ [byte_of (z mod 256)]
  end.

Definition le_bytes (n : nat) (z : Z) : bytes := rev (be_bytes n z).

Lemma be_word_app a b : be_word (a ++ [b]) = be_word a * 256 + byteZ b.
Proof. unfold be_word. by rewrite foldl_app. Qed.

Lemma be_word_bytes n z : 0 <= z < 256 ^ Z.of_nat n -> be_word (be_bytes n z) = z.
Proof.
  revert z. induction n as [|n IH]; intros z Hz; [simpl in *; unfold be_word; simpl; lia|].
  simpl. rewrite be_word_app, byteZ_of by (apply Z.mod_pos_bound; lia).
  rewrite Nat2Z.inj_succ, Z.pow_succ_r in Hz by lia.
  rewrite IH by (split; [apply Z.div_pos; lia | apply Z.div_lt_upper_bound; lia]). dlia.
Qed.

Lemma length_be_bytes n z : length (be_bytes n z) = n.
Proof. revert z. induction n; intros z; simpl; [done|]. rewrite length_app, IHn. simpl. lia. Qed.

Lemma be_word_range bs : 0 <= be_word bs < 256 ^ Z.of_nat (length bs).
Proof.
  induction bs as [|b bs IH] using rev_ind; [done|].
  rewrite be_word_app, length_app. simpl. pose proof (byteZ_range b).
  rewrite Nat.add_1_r, Nat2Z.inj_succ, Z.pow_succ_r by lia. lia.
Qed.

(** Cut a list into consecutive pieces of [n]. *)
Fixpoint chunks_of {A} (fuel n : nat) (l : list A) : list (list A) :=
  match fuel, l with
  | O, _ | _, [] => []
  | S fuel', _ => take n l :: chunks_of fuel' n (drop n l)
  end.

Definition blocks (bs : bytes) : list bytes := chunks_of (length bs) 64 bs.

(** Padding to a multiple of 64 bytes: a one bit, zeros, and the bit length. *)
Definition padding (len : nat) : bytes :=
  byte_of 128 :: repeat (byte_of 0) (Z.to_nat ((55 - Z.of_nat len) mod 64)).

(** ** SHA-256 *)

(** The constants are defined as the standard does: the first 32 bits of the
    fractional parts of the cube roots of the first 64 primes, and of the square
    roots of the first eight. *)
Definition prime_list (n : nat) : list Z :=
  List.filter (fun p => (2 <=? p) &&
    forallb (fun d => negb (p mod d =? 0)) (map Z.of_nat (seq 2 (Z.to_nat p - 2))))
    (map Z.of_nat (seq 0 n)).

(** The largest [r] below [r + 2 ^ k] whose cube is at most [n], a bit at a time. *)
Fixpoint cbrt_bits (k : nat) (r n : Z) : Z :=
  match k with
  | O => r
  | S k' => let r' := r + 2 ^ Z.of_nat k' in
            cbrt_bits k' (if r' ^ 3 <=? n then r' else r) n
  end.

Definition sha_k : list Z :=
  Eval vm_compute in map (fun p => cbrt_bits 36 0 (p * 2 ^ 96) mod 2 ^ 32) (take 64 (prime_list 312)).

Definition sha_h0 : list Z :=
  Eval vm_compute in map (fun p => Z.sqrt (p * 2 ^ 64) mod 2 ^ 32) (take 8 (prime_list 20)).

(** The message schedule, newest word first. *)
Fixpoint sha_schedule (n : nat) (ws : list Z) : list Z :=
  match n with
  | O => ws
  | S n' =>
      let at_ i := nth i ws 0 in
      let s0 := Z.lxor (Z.lxor (rotr (at_ 14%nat) 7) (rotr (at_ 14%nat) 18)) (Z.shiftr (at_ 14%nat) 3) in
      let s1 := Z.lxor (Z.lxor (rotr (at_ 1%nat) 17) (rotr (at_ 1%nat) 19)) (Z.shiftr (at_ 1%nat) 10) in
      sha_schedule n' (w32 (at_ 15%nat + s0 + at_ 6%nat + s1) :: ws)
  end.

Definition sha_round (st : list Z) (kw : Z * Z) : list Z :=
  match st with
  | [a; b; c; d; e; f; g; h] =>
      let S1 := Z.lxor (Z.lxor (rotr e 6) (rotr e 11)) (rotr e 25) in
      let ch := Z.lxor (Z.land e f) (Z.land (not32 e) g) in
      let t1 := h + S1 + ch + kw.1 + kw.2 in
      let S0 := Z.lxor (Z.lxor (rotr a 2) (rotr a 13)) (rotr a 22) in
      let maj := Z.lxor (Z.lxor (Z.land a b) (Z.land a c)) (Z.land b c) in
      [w32 (t1 + S0 + maj); a; b; c; w32 (d + t1); e; f; g]
  | _ => st
  end.

Definition sha_block (st : list Z) (blk : bytes) : list Z :=
  let ws := rev (map be_word (chunks_of 16 4 blk)) in
  zip_with (fun a b => w32 (a + b)) st
    (foldl sha_round st (zip sha_k (rev (sha_schedule 48 ws)))).

Definition sha256 (m : bytes) : bytes :=
  let padded := m ++ padding (length m) ++ be_bytes 8 (8 * zlen m) in
  concat (map (be_bytes 4) (foldl sha_block sha_h0 (blocks padded))).

(** A digest is 32 bytes. *)
Lemma length_sha_round st kw : length (sha_round st kw) = length st.
Proof. by do 9 (destruct st as [|? st]; [done|]). Qed.

Lemma length_sha_rounds l st : length (foldl sha_round st l) = length st.
Proof. revert st. induction l as [|kw l IH]; intros st; [done|]. simpl. by rewrite IH, length_sha_round. Qed.

Lemma length_sha_blocks l st : length (foldl sha_block st l) = length st.
Proof.
  revert st. induction l as [|b l IH]; intros st; [done|]. simpl. rewrite IH. unfold sha_block.
  rewrite length_zip_with, length_sha_rounds. lia.
Qed.

Lemma length_sha256 m : length (sha256 m) = 32%nat.
Proof.
  unfold sha256. set (ws := foldl _ _ _). assert (H : length ws = 8%nat) by apply length_sha_blocks.
  clearbody ws. do 9 (destruct ws as [|? ws]; [done|]). simpl. done.
Qed.

(** ** MD5 *)

Definition md5_k : list Z :=
 [0xd76aa478; 0xe8c7b756; 0x242070db; 0xc1bdceee; 0xf57c0faf; 0x4787c62a; 0xa8304613; 0xfd469501;
  0x698098d8; 0x8b44f7af; 0xffff5bb1; 0x895cd7be; 0x6b901122; 0xfd987193; 0xa679438e; 0x49b40821;
  0xf61e2562; 0xc040b340; 0x265e5a51; 0xe9b6c7aa; 0xd62f105d; 0x02441453; 0xd8a1e681; 0xe7d3fbc8;
  0x21e1cde6; 0xc33707d6; 0xf4d50d87; 0x455a14ed; 0xa9e3e905; 0xfcefa3f8; 0x676f02d9; 0x8d2a4c8a;
  0xfffa3942; 0x8771f681; 0x6d9d6122; 0xfde5380c; 0xa4beea44; 0x4bdecfa9; 0xf6bb4b60; 0xbebfbc70;
  0x289b7ec6; 0xeaa127fa; 0xd4ef3085; 0x04881d05; 0xd9d4d039; 0xe6db99e5; 0x1fa27cf8; 0xc4ac5665;
  0xf4292244; 0x432aff97; 0xab9423a7; 0xfc93a039; 0x655b59c3; 0x8f0ccc92; 0xffeff47d; 0x85845dd1;
  0x6fa87e4f; 0xfe2ce6e0; 0xa3014314; 0x4e0811a1; 0xf7537e82; 0xbd3af235; 0x2ad7d2bb; 0xeb86d391].

Definition md5_shift : list Z :=
  concat [concat (repeat [7; 12; 17; 22] 4); concat (repeat [5; 9; 14; 20] 4);
          concat (repeat [4; 11; 16; 23] 4); concat (repeat [6; 10; 15; 21] 4)].

Definition md5_round (m : list Z) (st : list Z) (i : nat) : list Z :=
  match st with
  | [a; b; c; d] =>
      let z := Z.of_nat i in
      let fg :=
        if z <? 16 then (Z.lor (Z.land b c) (Z.land (not32 b) d), z)
        else if z <? 32 then (Z.lor (Z.land d b) (Z.land (not32 d) c), (5 * z + 1) mod 16)
        else if z <? 48 then (Z.lxor (Z.lxor b c) d, (3 * z + 5) mod 16)
        else (Z.lxor c (Z.lor b (not32 d)), (7 * z) mod 16) in
      let f := w32 (fg.1 + a + nth i md5_k 0 + nth (Z.to_nat fg.2) m 0) in
      [d; w32 (b + rotl f (nth i md5_shift 0)); b; c]
  | _ => st
  end.

Definition md5_block (st : list Z) (blk : bytes) : list Z :=
  let m := map (fun w => be_word (rev w)) (chunks_of 16 4 blk) in
  zip_with (fun a b => w32 (a + b)) st (foldl (md5_round m) st (seq 0 64)).

Definition md5 (m : bytes) : bytes :=
  let padded := m ++ padding (length m) ++ le_bytes 8 (8 * zlen m) in
  concat (map (le_bytes 4)
    (foldl md5_block [0x67452301; 0xefcdab89; 0x98badcfe; 0x10325476] (blocks padded))).

(** ** HMAC-SHA-256 *)

Definition xor_pad (key : bytes) (p : Z) : bytes :=
  map (fun b => byte_of (Z.lxor (byteZ b) p)) (key ++ repeat (byte_of 0) (64 - length key)).

Definition hmac_sha256 (key data : bytes) : bytes :=
  let k := if bool_decide (64 < length key)%nat then sha256 key else key in
  sha256 (xor_pad k 0x5c ++ sha256 (xor_pad k 0x36 ++ data)).

(** ** [encoding/hex] *)

Fixpoint hex_EncodeToString (bs : bytes) : string :=
  match bs with
  | [] => ""
  | b :: bs' => String (digit_char (byteZ b / 16)) (String (digit_char (byteZ b mod 16)) (hex_EncodeToString bs'))
  end.

Fixpoint hex_DecodeString (s : string) : option bytes :=
  match s with
  | EmptyString => Some []
  | String a (String b s') =>
      match digit_val a, digit_val b, hex_DecodeString s' with
      | Some x, Some y, Some bs =>
          if (x <? 16) && (y <? 16) then Some (byte_of (16 * x + y) :: bs) else None
      | _, _, _ => None
      end
  | _ => None
  end.

Lemma hex_roundtrip bs : hex_DecodeString (hex_EncodeToString bs) = Some bs.
Proof.
  induction bs as [|b bs IH]; [done|]. cbn [hex_EncodeToString hex_DecodeString].
  pose proof (byteZ_range b).
  assert (0 <= byteZ b / 16 < 16) by dlia. assert (0 <= byteZ b mod 16 < 16) by dlia.
  rewrite !digit_val_char by lia. rewrite IH.
  rewrite !(proj2 (Z.ltb_lt _ _)) by lia. simpl.
  do 2 f_equal. rewrite <- (byte_of_byteZ b) at 3. f_equal. dlia.
Qed.

Lemma slen_hex bs : slen (hex_EncodeToString bs) = (2 * length bs)%nat.
Proof. induction bs as [|b bs IH]; [done|]. simpl. rewrite IH. lia. Qed.

(** ** Test vectors *)

Definition ascii_bytes (s : string) : bytes := to_bytes s.

Example sha256_abc : hex_EncodeToString (sha256 (ascii_bytes "abc"))
  = "ba7816bf8f01cfea414140de5dae2223b00361a396177a9cb410ff61f20015ad".
Proof. vm_compute. reflexivity. Qed.
Example sha256_two_blocks :
  hex_EncodeToString (sha256 (ascii_bytes "abcdbcdecdefdefgefghfghighijhijkijkljklmklmnlmnomnopnopq"))
  = "248d6a61d20638b8e5c026930c3e6039a33ce45964ff2167f6ecedd419db06c1".
Proof. vm_compute. reflexivity. Qed.
Example md5_empty : hex_EncodeToString (md5 []) = "d41d8cd98f00b204e9800998ecf8427e".
Proof. vm_compute. reflexivity. Qed.
Example md5_abc : hex_EncodeToString (md5 (ascii_bytes "abc")) = "900150983cd24fb0d6963f7d28e17f72".
Proof. vm_compute. reflexivity. Qed.
Example hmac_case2 :
  hex_EncodeToString (hmac_sha256 (ascii_bytes "Jefe") (ascii_bytes "what do ya want for nothing?"))
  = "5bdcc146bf60754e6a042426089575c75a003f089d2739839dec58b964ec3843".
Proof. vm_compute. reflexivity. Qed.
