(* ===== verification/Crc.v ===== *)
(** * Checksums: [hash/crc32], [hash/crc64] and [internal/object/crc.go]

    The reflected CRCs kavo uses (CRC-32C, CRC-32/IEEE, CRC-64/NVME) and the
    zlib-style combination that gives the checksum of a concatenation from the
    checksums of its halves. The theorems show the combination is exact, which is
    what lets a completed multipart upload carry a checksum nobody recomputed. *)

From S2P Require Import Prelude.
From Stdlib Require Import Btauto.

(** ** The standard library's checksums

    One bit of a reflected CRC: shift right, and fold the polynomial in when a one
    falls off. [Update] complements on the way in and out, as Go's does. *)

Definition shift_bit (poly c : Z) : Z :=
  Z.lxor (Z.shiftr c 1) (if Z.odd c then poly else 0).

Definition update_byte (poly c : Z) (b : byte) : Z :=
  Nat.iter 8 (shift_bit poly) (Z.lxor c (byteZ b)).

Definition raw_update (poly c : Z) (p : bytes) : Z := foldl (update_byte poly) c p.

Definition Update (w poly crc : Z) (p : bytes) : Z :=
  Z.lxor (Z.ones w) (raw_update poly (Z.lxor crc (Z.ones w)) p).

Definition Checksum (w poly : Z) (p : bytes) : Z := Update w poly 0 p.

(** [bits.Reverse64] *)
Definition Reverse64 (x : Z) : Z :=
  foldr (fun i acc => Z.lor acc (if Z.testbit x (Z.of_nat i) then Z.shiftl 1 (63 - Z.of_nat i) else 0))
        0 (seq 0 64).

Definition Castagnoli : Z := 0x82f63b78.
Definition IEEE : Z := 0xedb88320.
Definition crc64NVMEPoly : Z := 0xad93d23594c93659.
Definition nvmePoly : Z := Eval vm_compute in Reverse64 crc64NVMEPoly.

Definition crc32c (p : bytes) : Z := Checksum 32 Castagnoli p.
Definition crc32ieee (p : bytes) : Z := Checksum 32 IEEE p.
Definition CRC64NVME (p : bytes) : Z := Checksum 64 nvmePoly p.

(** ** [gf2Times], [gf2Square] and the combination

    A matrix is the list of its rows. Reading past the last row is Go's
    index-out-of-range panic, which is [None]. *)

Fixpoint gf2TimesLoop (mat : list Z) (vec sum : Z) : option Z :=
  if vec =? 0 then Some sum
  else match mat with
       | [] => None
       | row :: mat' =>
           gf2TimesLoop mat' (Z.shiftr vec 1)
             (if Z.odd vec then Z.lxor sum row else sum)
       end.

Definition gf2Times (mat : list Z) (vec : Z) : option Z := gf2TimesLoop mat vec 0.

Definition gf2Square (mat : list Z) : option (list Z) := mapM (gf2Times mat) mat.

(** The rows after the first of the operator that appends one zero bit:
    [row := 1; odd[i] = row; row <<= 1]. *)
Fixpoint shift_rows (w : Z) (n : nat) (row : Z) : list Z :=
  match n with
  | O => []
  | S n' => row :: shift_rows w n' (wrap_uint w (Z.shiftl row 1))
  end.

Definition odd0 (w poly : Z) : list Z := poly :: shift_rows w (Z.to_nat w - 1) 1.

(** The [for] loop of the three combinations: two squarings per turn, so two bits of
    [n]. [None] is a panic or the fuel running out. *)
Fixpoint combine_loop (fuel : nat) (odd : list Z) (a n : Z) : option Z :=
  match fuel with
  | O => None
  | S fuel' =>
      even ← gf2Square odd;
      a1 ← (if Z.odd n then gf2Times even a else Some a);
      let n1 := Z.shiftr n 1 in
      if n1 =? 0 then Some a1 else
      odd' ← gf2Square even;
      a2 ← (if Z.odd n1 then gf2Times odd' a1 else Some a1);
      let n2 := Z.shiftr n1 1 in
      if n2 =? 0 then Some a2 else combine_loop fuel' odd' a2 n2
  end.

(** 32 turns consume the 63 bits of a positive [int64]. *)
Definition combine (w poly a b n : Z) : option Z :=
  if n <=? 0 then Some a else
  even ← gf2Square (odd0 w poly);
  odd ← gf2Square even;
  r ← combine_loop 32 odd a n;
  Some (Z.lxor r b).

Definition CombineCRC32C (a b n : Z) : option Z := combine 32 Castagnoli a b n.
Definition CombineCRC32 (a b n : Z) : option Z := combine 32 IEEE a b n.
Definition CombineCRC64NVME (a b n : Z) : option Z := combine 64 nvmePoly a b n.

Definition gf2Times64 (mat : list Z) (vec : Z) : option Z := gf2Times mat vec.
Definition gf2Square64 (mat : list Z) : option (list Z) := gf2Square mat.

(** The standard check values, over the ASCII digits 1 to 9. *)
Definition check_input : bytes := String.list_ascii_of_string "123456789".

Example crc32c_check : crc32c check_input = 0xe3069283.
Proof. vm_compute. reflexivity. Qed.
Example crc32_check : crc32ieee check_input = 0xcbf43926.
Proof. vm_compute. reflexivity. Qed.
Example crc64nvme_check : CRC64NVME check_input = 0xae8b14860a799888.
Proof. vm_compute. reflexivity. Qed.

Example combine_example :
  CombineCRC32C (crc32c (take 4 check_input)) (crc32c (drop 4 check_input)) 5
  = Some (crc32c check_input).
Proof. vm_compute. reflexivity. Qed.

(** ** Bits and widths *)

(** Prove an equation between xors bit by bit. *)
Ltac xor_bits :=
  apply Z.bits_inj'; intros ? ?; rewrite ?Z.lxor_spec, ?Z.bits_0;
  repeat match goal with |- context [Z.testbit ?a ?i] => destruct (Z.testbit a i) end;
  reflexivity.

Definition in_width (w z : Z) : Prop := 0 <= z < 2 ^ w.

Lemma in_width_bits w z :
  0 <= w -> in_width w z <-> 0 <= z /\ forall i, w <= i -> Z.testbit z i = false.
Proof.
  intros Hw. unfold in_width. split.
  - intros [H0 H1]. split; [done|]. intros i Hi.
    destruct (Z.eq_dec z 0) as [->|]; [apply Z.bits_0|].
    apply Z.bits_above_log2; [done|].
    apply Z.lt_le_trans with w; [|done]. apply Z.log2_lt_pow2; lia.
  - intros [H0 H]. split; [done|].
    destruct (Z.eq_dec z 0) as [->|]; [apply Z.pow_pos_nonneg; lia|].
    apply Z.log2_lt_pow2; [lia|]. apply Z.nle_gt. intros Hle.
    specialize (H (Z.log2 z) Hle). rewrite Z.bit_log2 in H; [done|lia].
Qed.

Lemma in_width_lxor w a b : 0 <= w -> in_width w a -> in_width w b -> in_width w (Z.lxor a b).
Proof.
  intros Hw. rewrite !in_width_bits by done. intros [? Ha] [? Hb]. split.
  - apply Z.lxor_nonneg. split; done.
  - intros i Hi. by rewrite Z.lxor_spec, Ha, Hb.
Qed.

Lemma in_width_ones w : 0 <= w -> in_width w (Z.ones w).
Proof. intros. unfold in_width. rewrite Z.ones_equiv. pose proof (Z.pow_pos_nonneg 2 w). lia. Qed.

Lemma in_width_shiftr w a : 0 <= w -> in_width (w + 1) a -> in_width w (Z.shiftr a 1).
Proof.
  unfold in_width. intros Hw [? H]. rewrite Z.shiftr_div_pow2 by lia. change (2 ^ 1) with 2.
  rewrite Z.pow_add_r in H by lia. change (2 ^ 1) with 2 in H.
  split; [apply Z.div_pos; lia | apply Z.div_lt_upper_bound; lia].
Qed.

Lemma in_width_mono w v a : w <= v -> in_width w a -> in_width v a.
Proof.
  unfold in_width. intros H [? Ha]. split; [done|].
  eapply Z.lt_le_trans; [done|]. apply Z.pow_le_mono_r; lia.
Qed.

(** ** Linearity of the CRC shift *)

Lemma odd_lxor a b : Z.odd (Z.lxor a b) = xorb (Z.odd a) (Z.odd b).
Proof. rewrite <- !Z.bit0_odd. apply Z.lxor_spec. Qed.

Lemma shift_bit_lxor poly a b :
  shift_bit poly (Z.lxor a b) = Z.lxor (shift_bit poly a) (shift_bit poly b).
Proof.
  unfold shift_bit. rewrite Z.shiftr_lxor, odd_lxor.
  destruct (Z.odd a), (Z.odd b); simpl; xor_bits.
Qed.

Lemma shift_bit_0 poly : shift_bit poly 0 = 0.
Proof. reflexivity. Qed.

Lemma iter_shift_lxor poly k a b :
  Nat.iter k (shift_bit poly) (Z.lxor a b) =
  Z.lxor (Nat.iter k (shift_bit poly) a) (Nat.iter k (shift_bit poly) b).
Proof. induction k as [|k IH]; simpl; [done|]. by rewrite IH, shift_bit_lxor. Qed.

Lemma iter_shift_0 poly k : Nat.iter k (shift_bit poly) 0 = 0.
Proof. induction k as [|k IH]; simpl; [done|]. by rewrite IH. Qed.

Lemma iter_iter {A} (f : A -> A) n m x : Nat.iter n f (Nat.iter m f x) = Nat.iter (n + m) f x.
Proof. induction n as [|n IH]; simpl; [done|]. by rewrite IH. Qed.

Section width.
Context (w poly : Z) (Hw : 8 <= w) (Hpoly : in_width w poly).

Lemma shift_bit_width a : in_width w a -> in_width w (shift_bit poly a).
Proof.
  intros H. unfold shift_bit. apply in_width_lxor; [lia| |].
  - apply in_width_shiftr; [lia|]. eapply in_width_mono; [|done]. lia.
  - destruct (Z.odd a); [done|]. unfold in_width. pose proof (Z.pow_pos_nonneg 2 w). lia.
Qed.

Lemma iter_shift_width k a : in_width w a -> in_width w (Nat.iter k (shift_bit poly) a).
Proof. intros. induction k; simpl; [done|]. by apply shift_bit_width. Qed.

Lemma byteZ_width b : in_width w (byteZ b).
Proof.
  apply (in_width_mono 8); [lia|]. unfold in_width. change (2 ^ 8) with 256.
  apply byteZ_range.
Qed.

Lemma raw_update_width c p : in_width w c -> in_width w (raw_update poly c p).
Proof.
  unfold raw_update. revert c. induction p as [|b p IH]; intros c Hc; simpl; [done|].
  apply IH. unfold update_byte. apply iter_shift_width.
  apply in_width_lxor; [lia|done|apply byteZ_width].
Qed.

Lemma Checksum_width p : in_width w (Checksum w poly p).
Proof.
  unfold Checksum, Update. apply in_width_lxor; [lia|apply in_width_ones; lia|].
  apply raw_update_width. rewrite Z.lxor_0_l. apply in_width_ones. lia.
Qed.

(** The state of a CRC after more bytes: what the bytes give from zero, xored with
    the old state shifted by as many bits. *)
Lemma raw_update_shift c p :
  raw_update poly c p =
  Z.lxor (raw_update poly 0 p) (Nat.iter (8 * length p) (shift_bit poly) c).
Proof.
  revert c. induction p as [|b p IH]; intros c.
  - change (8 * length (@nil byte))%nat with O. cbn. by rewrite Z.lxor_0_l.
  - cbn [raw_update foldl]. fold (raw_update poly (update_byte poly c b) p).
    fold (raw_update poly (update_byte poly 0 b) p).
    assert (update_byte poly c b =
            Z.lxor (update_byte poly 0 b) (Nat.iter 8 (shift_bit poly) c)) as Hc.
    { unfold update_byte. rewrite <- iter_shift_lxor, Z.lxor_0_l. f_equal. apply Z.lxor_comm. }
    rewrite (IH (update_byte poly c b)), (IH (update_byte poly 0 b)), Hc.
    rewrite iter_shift_lxor, iter_iter, Z.lxor_assoc.
    by replace (8 * length (b :: p))%nat with (8 * length p + 8)%nat by (simpl; lia).
Qed.

End width.

(** ** Matrices over GF(2)

    [mat_of f i n] is the matrix of a linear operator: row [j] is the image of bit
    [i + j]. *)

Fixpoint mat_of (f : Z -> Z) (i : Z) (n : nat) : list Z :=
  match n with
  | O => []
  | S n' => f (2 ^ i) :: mat_of f (i + 1) n'
  end.

Definition linear (f : Z -> Z) : Prop :=
  f 0 = 0 /\ forall a b, f (Z.lxor a b) = Z.lxor (f a) (f b).

Lemma iter_linear poly k : linear (Nat.iter k (shift_bit poly)).
Proof. split; [apply iter_shift_0 | apply iter_shift_lxor]. Qed.

(** A number is its low bit plus the rest, also when shifted left. *)
Lemma split_low v i :
  0 <= v -> 0 <= i ->
  Z.shiftl v i = Z.lxor (if Z.odd v then 2 ^ i else 0) (Z.shiftl (Z.shiftr v 1) (i + 1)).
Proof.
  intros Hv Hi. apply Z.bits_inj'. intros n Hn.
  rewrite Z.lxor_spec, !Z.shiftl_spec by lia.
  destruct (Z.lt_trichotomy n i) as [H|[->|H]].
  - rewrite (Z.testbit_neg_r _ (n - i)), (Z.testbit_neg_r _ (n - (i + 1))) by lia.
    destruct (Z.odd v); [|by rewrite Z.bits_0]. by rewrite Z.pow2_bits_false by lia.
  - rewrite Z.sub_diag, Z.bit0_odd, (Z.testbit_neg_r _ (i - (i + 1))) by lia.
    destruct (Z.odd v); [by rewrite Z.pow2_bits_true | by rewrite Z.bits_0].
  - rewrite Z.shiftr_spec by lia. replace (n - (i + 1) + 1) with (n - i) by lia.
    destruct (Z.odd v); rewrite ?Z.bits_0, ?Z.pow2_bits_false by lia; by destruct (Z.testbit v (n - i)).
Qed.

Lemma gf2TimesLoop_mat f n i v sum :
  linear f -> 0 <= i -> in_width (Z.of_nat n) v ->
  gf2TimesLoop (mat_of f i n) v sum = Some (Z.lxor sum (f (Z.shiftl v i))).
Proof.
  intros [F0 F]. revert i v sum. induction n as [|n IH]; intros i v sum Hi Hv.
  - unfold in_width in Hv. simpl in *. assert (v = 0) as -> by lia.
    by rewrite Z.shiftl_0_l, F0, Z.lxor_0_r.
  - cbn [gf2TimesLoop mat_of]. destruct (Z.eqb_spec v 0) as [->|Hne].
    + by rewrite Z.shiftl_0_l, F0, Z.lxor_0_r.
    + rewrite Nat2Z.inj_succ in Hv.
      rewrite IH by (try apply in_width_shiftr; lia || done).
      rewrite (split_low v i), F by (unfold in_width in Hv; lia).
      f_equal. destruct (Z.odd v); [by rewrite Z.lxor_assoc |].
      by rewrite F0, Z.lxor_0_l.
Qed.

Lemma gf2Times_mat f n v :
  linear f -> in_width (Z.of_nat n) v -> gf2Times (mat_of f 0 n) v = Some (f v).
Proof.
  intros. unfold gf2Times. rewrite gf2TimesLoop_mat by (done || lia).
  by rewrite Z.lxor_0_l, Z.shiftl_0_r.
Qed.

(** Squaring the matrix composes the operator with itself. *)
Lemma mapM_mat_of f g (t : Z -> option Z) i n :
  (forall j, 0 <= i -> i <= j < i + Z.of_nat n -> t (f (2 ^ j)) = Some (g (2 ^ j))) ->
  0 <= i -> mapM t (mat_of f i n) = Some (mat_of g i n).
Proof.
  revert i. induction n as [|n IH]; intros i H Hi; [done|]. cbn [mat_of mapM].
  simpl. rewrite H by lia. simpl. rewrite IH by (try lia; intros; apply H; lia). done.
Qed.

Lemma gf2Square_mat f n :
  linear f -> (forall v, in_width (Z.of_nat n) v -> in_width (Z.of_nat n) (f v)) ->
  gf2Square (mat_of f 0 n) = Some (mat_of (fun v => f (f v)) 0 n).
Proof.
  intros Hl Hf. unfold gf2Square. apply (mapM_mat_of f (fun v => f (f v))); [|lia].
  intros j _ Hj. rewrite gf2Times_mat; [done|done|]. apply Hf. unfold in_width. split; [lia|].
  apply Z.pow_lt_mono_r; lia.
Qed.

Lemma mat_of_ext f g i n : (forall v, f v = g v) -> mat_of f i n = mat_of g i n.
Proof. intros H. revert i. induction n; intros i; simpl; [done|]. by rewrite H, IHn. Qed.

Section combine.
Context (w poly : Z) (Hw : 8 <= w) (Hpoly : in_width w poly).

Local Abbreviation step k := (Nat.iter k (shift_bit poly)).
Local Abbreviation mat k := (mat_of (step k) 0 (Z.to_nat w)).

Lemma width_nat : Z.of_nat (Z.to_nat w) = w.
Proof. lia. Qed.

Lemma gf2Times_step k v : in_width w v -> gf2Times (mat k) v = Some (step k v).
Proof. intros. apply gf2Times_mat; [apply iter_linear | by rewrite width_nat]. Qed.

Lemma gf2Square_step k : gf2Square (mat k) = Some (mat (2 * k)).
Proof.
  rewrite gf2Square_mat; [|apply iter_linear|].
  - f_equal. apply mat_of_ext. intros v. rewrite iter_iter. f_equal. lia.
  - rewrite width_nat. intros. by apply iter_shift_width.
Qed.

Lemma shift_rows_mat n i :
  0 <= i -> i + Z.of_nat n <= w - 1 ->
  shift_rows w n (2 ^ i) = mat_of (shift_bit poly) (i + 1) n.
Proof.
  revert i. induction n as [|n IH]; intros i Hi Hn; [done|]. cbn [shift_rows mat_of].
  f_equal.
  - unfold shift_bit. rewrite Z.pow_add_r, Z.shiftr_div_pow2, Z.div_mul by lia.
    by rewrite Z.odd_mul, andb_false_r, Z.lxor_0_r.
  - rewrite Z.shiftl_mul_pow2 by lia. rewrite <- Z.pow_add_r by lia.
    destruct n; [done|]. rewrite wrap_uint_id; [apply IH; lia|].
    split; [lia|]. apply Z.pow_lt_mono_r; lia.
Qed.

Lemma odd0_mat : odd0 w poly = mat 1.
Proof.
  unfold odd0. replace (Z.to_nat w) with (S (Z.to_nat w - 1)) at 2 by lia.
  cbn [mat_of]. f_equal.
  pose proof (shift_rows_mat (Z.to_nat w - 1) 0) as H. rewrite Z.pow_0_r in H.
  rewrite H by lia. by apply mat_of_ext.
Qed.

Lemma low_two_bits n :
  0 <= n ->
  Z.to_nat n =
  (Z.to_nat (n mod 2) + 2 * Z.to_nat (n / 2 mod 2) + 4 * Z.to_nat (n / 2 / 2))%nat.
Proof. intros. dlia. Qed.

(** One turn handles two bits of [n]: with [odd] the operator for [k] bits, the loop
    shifts [a] by [2 k n] bits. *)
Lemma combine_loop_correct fuel k a n :
  in_width w a -> 0 < n < 4 ^ Z.of_nat fuel ->
  combine_loop fuel (mat k) a n = Some (step (2 * k * Z.to_nat n) a).
Proof.
  revert k a n. induction fuel as [|fuel IH]; intros k a n Ha Hn.
  { simpl in Hn. lia. }
  cbn [combine_loop]. rewrite gf2Square_step. cbn [mbind option_bind].
  set (a1 := step (2 * k * Z.to_nat (n mod 2)) a).
  assert ((if Z.odd n then gf2Times (mat (2 * k)) a else Some a) = Some a1) as ->.
  { subst a1. rewrite Zmod_odd. destruct (Z.odd n).
    - rewrite gf2Times_step by done. do 2 f_equal. simpl. lia.
    - by rewrite Nat.mul_0_r. }
  cbn [mbind option_bind].
  rewrite Z.shiftr_div_pow2 by lia. change (2 ^ 1) with 2.
  assert (in_width w a1) by (by apply iter_shift_width).
  destruct (Z.eqb_spec (n / 2) 0) as [E|E].
  { subst a1. by replace (n mod 2) with n by dlia. }
  rewrite gf2Square_step. cbn [mbind option_bind].
  set (a2 := step (2 * (2 * k) * Z.to_nat ((n / 2) mod 2)) a1).
  assert ((if Z.odd (n / 2) then gf2Times (mat (2 * (2 * k))) a1 else Some a1) = Some a2) as ->.
  { subst a2. rewrite Zmod_odd. destruct (Z.odd (n / 2)).
    - rewrite gf2Times_step by done. do 2 f_equal. simpl. lia.
    - by rewrite Nat.mul_0_r. }
  cbn [mbind option_bind].
  rewrite Z.shiftr_div_pow2 by lia. change (2 ^ 1) with 2.
  assert (in_width w a2) by (by apply iter_shift_width).
  destruct (Z.eqb_spec (n / 2 / 2) 0) as [E2|E2].
  - subst a1 a2. rewrite iter_iter. do 2 f_equal.
    rewrite (low_two_bits n) by lia. rewrite E2. lia.
  - rewrite IH; [|done|].
    + subst a1 a2. rewrite !iter_iter. do 2 f_equal.
      rewrite (low_two_bits n) by lia. lia.
    + rewrite Nat2Z.inj_succ, Z.pow_succ_r in Hn by lia. dlia.
Qed.

Lemma combine_correct a b n :
  in_width w a -> 0 < n <= max_int64 ->
  combine w poly a b n = Some (Z.lxor (step (8 * Z.to_nat n) a) b).
Proof.
  intros Ha Hn. unfold combine. rewrite (proj2 (Z.leb_gt _ _)) by lia.
  rewrite odd0_mat, gf2Square_step. cbn [mbind option_bind].
  rewrite gf2Square_step. cbn [mbind option_bind].
  rewrite combine_loop_correct; [done|done|].
  unfold max_int64 in Hn. change (4 ^ Z.of_nat 32) with (2 ^ 64). lia.
Qed.

(** The combination is exact for any width and polynomial. *)
Lemma combine_checksum (p q : bytes) :
  zlen q <= max_int64 ->
  combine w poly (Checksum w poly p) (Checksum w poly q) (zlen q) = Some (Checksum w poly (p ++ q)).
Proof.
  intros Hq. destruct q as [|c q'].
  { unfold combine. simpl. by rewrite app_nil_r. }
  rewrite combine_correct.
  - f_equal. unfold Checksum, Update. rewrite Z.lxor_0_l.
    unfold zlen. rewrite Nat2Z.id.
    unfold raw_update. rewrite foldl_app. fold (raw_update poly (Z.ones w) p).
    fold (raw_update poly (Z.ones w) (c :: q')).
    fold (raw_update poly (raw_update poly (Z.ones w) p) (c :: q')).
    rewrite (raw_update_shift poly (raw_update poly (Z.ones w) p)).
    rewrite (raw_update_shift poly (Z.ones w) (c :: q')).
    rewrite iter_shift_lxor. xor_bits.
  - by apply Checksum_width.
  - rewrite zlen_cons in *. pose proof (zlen_nonneg q'). lia.
Qed.
End combine.

Lemma Castagnoli_width : in_width 32 Castagnoli.
Proof. by vm_compute. Qed.
Lemma IEEE_width : in_width 32 IEEE.
Proof. by vm_compute. Qed.
Lemma nvmePoly_width : in_width 64 nvmePoly.
Proof. by vm_compute. Qed.

(** A combination with a payload of no bytes, or of a negative length, leaves the
    first checksum alone, as the comment on the function says. *)
Lemma combine_nonpositive w poly a b n : n <= 0 -> combine w poly a b n = Some a.
Proof. intros. unfold combine. by rewrite (proj2 (Z.leb_le _ _)). Qed.

(** ** The combination is exact *)

(** C35: joining the stored checksums of two parts with the length of the second
    gives exactly the checksum of their concatenation, for each of the three
    algorithms, without the bytes being read again. *)
Theorem crc_concat_exact (p q : bytes) :
  zlen q <= max_int64 ->
  CombineCRC32C (crc32c p) (crc32c q) (zlen q) = Some (crc32c (p ++ q)) /\
  CombineCRC32 (crc32ieee p) (crc32ieee q) (zlen q) = Some (crc32ieee (p ++ q)) /\
  CombineCRC64NVME (CRC64NVME p) (CRC64NVME q) (zlen q) = Some (CRC64NVME (p ++ q)).
Proof.
  intros Hq. repeat split; apply combine_checksum; try done; lia.
Qed.

Lemma crc_concat_exact_witness :
  CombineCRC32C (crc32c (takeZ 4 check_input)) (crc32c (dropZ 4 check_input))
    (zlen (dropZ 4 check_input)) = Some (crc32c (takeZ 4 check_input ++ dropZ 4 check_input)).
Proof.
  apply (crc_concat_exact (takeZ 4 check_input) (dropZ 4 check_input)).
  vm_compute. discriminate.
Defined.
