(* ===== verification/Ring.v ===== *)
(** * Placement: [internal/ring/ring.go]

    Keys map to 256 partitions and a partition to an ordered list of owners by a
    consistent-hash ring. The theorems show that owners are distinct and as many as
    asked for, that a narrower placement is a prefix of a wider one (which is what
    lets repair and rebalance elect a first owner with [Owners(p, 1)]), and that a
    node leaving moves nothing except what it owned. *)

From S2P Require Import Prelude GoStr Strconv Hash.

Definition Partitions : Z := 256.
Definition DefaultVNodes : Z := 128.
Definition partitionShift : Z := 56.

Record vnode := mk_vnode { pos : Z; vnode_node : string }.
Record Ring := mk_Ring { vnodes : list vnode }.

(** [binary.BigEndian.Uint64(sum[:8])] of the SHA-256. *)
Definition hashPos (s : string) : Z := be_word (take 8 (sha256 (to_bytes s))).

Definition vnodePos (node : string) (i : Z) : Z :=
  hashPos (node +:+ "#" +:+ Itoa i).

(** [slices.SortFunc] by position. Go's sort is not stable, so vnodes that share a
    64-bit position may come out in either order; this one keeps their order. *)
Fixpoint insert_pos (v : vnode) (l : list vnode) : list vnode :=
  match l with
  | [] => [v]
  | u :: l' => if pos v <=? pos u then v :: l else u :: insert_pos v l'
  end.

Definition sort_pos (l : list vnode) : list vnode := foldr insert_pos [] l.

Definition node_vnodes (vnodesPerNode : Z) (node : string) : list vnode :=
  map (fun i => mk_vnode (vnodePos node (Z.of_nat i)) node) (seq 0 (Z.to_nat vnodesPerNode)).

Definition New (nodes : list string) (vnodesPerNode : Z) : Ring :=
  mk_Ring (sort_pos (flat_map (node_vnodes vnodesPerNode) nodes)).

Definition PartitionFor (key : string) : Z := Z.shiftr (hashPos key) partitionShift.

(** [slices.BinarySearchFunc]: the first index whose position is not below [target].
    The interval shrinks on every turn, so its length is fuel enough. *)
Fixpoint bsearch (fuel : nat) (vs : list vnode) (target : Z) (i j : nat) : nat :=
  match fuel with
  | O => i
  | S fuel' =>
      if (i <? j)%nat then
        let h := ((i + j) / 2)%nat in
        match vs !! h with
        | Some v => if pos v <? target then bsearch fuel' vs target (h + 1) j
                    else bsearch fuel' vs target i h
        | None => i
        end
      else i
  end.

Definition BinarySearch (vs : list vnode) (target : Z) : nat :=
  bsearch (S (length vs)) vs target 0 (length vs).

(** The loop of [Owners]: at most one lap around the ring, stopping at [n] owners. *)
Fixpoint owners_loop (vs : list vnode) (start : nat) (idx : list nat)
    (owners : list string) (n : Z) : list string :=
  match idx with
  | [] => owners
  | i :: idx' =>
      match vs !! ((start + i) mod length vs)%nat with
      | None => owners
      | Some v =>
          if bool_decide (vnode_node v ∈ owners) then owners_loop vs start idx' owners n
          else
            let owners' := owners ++ [vnode_node v] in
            if zlen owners' =? n then owners' else owners_loop vs start idx' owners' n
      end
  end.

Definition Owners (r : Ring) (p n : Z) : list string :=
  if (zlen (vnodes r) =? 0) || (n <=? 0) then []
  else
    let start := BinarySearch (vnodes r) (wrap_uint64 (Z.shiftl (wrap_uint64 p) partitionShift)) in
    owners_loop (vnodes r) start (seq 0 (length (vnodes r))) [] n.

Example owners_example :
  Owners (New ["n1"; "n2"; "n3"; "n4"] 4) (PartitionFor "bucket/key") 3 = ["n1"; "n2"; "n4"].
Proof. vm_compute. reflexivity. Qed.

(** ** What a lap of the ring visits *)

(** The distinct elements of a list in the order they first appear. *)
Fixpoint first_seen (seen l : list string) : list string :=
  match l with
  | [] => []
  | x :: l' => if bool_decide (x ∈ seen) then first_seen seen l'
               else x :: first_seen (x :: seen) l'
  end.

(** The nodes a lap visits: from the first vnode at or after the partition's start,
    clockwise. *)
Definition lap (vs : list vnode) (target : Z) : list string :=
  map vnode_node (filter (fun v => target <= pos v) vs ++ filter (fun v => pos v < target) vs).

Definition partition_start (p : Z) : Z := wrap_uint64 (Z.shiftl (wrap_uint64 p) partitionShift).

Definition sorted_pos (l : list vnode) : Prop := StronglySorted (fun a b => pos a <= pos b) l.

Lemma first_seen_ext s1 s2 l : (forall x, x ∈ s1 <-> x ∈ s2) -> first_seen s1 l = first_seen s2 l.
Proof.
  revert s1 s2. induction l as [|x l IH]; intros s1 s2 H; [done|]. simpl.
  rewrite (bool_decide_ext _ _ (H x)). case_bool_decide; [by apply IH|]. f_equal.
  apply IH. set_solver.
Qed.

Lemma first_seen_elem seen l x : x ∈ first_seen seen l <-> x ∈ l /\ x ∉ seen.
Proof.
  revert seen. induction l as [|y l IH]; intros seen; simpl; [set_solver|].
  case_bool_decide; [rewrite IH; set_solver|].
  rewrite elem_of_cons, IH. destruct (decide (x = y)); set_solver.
Qed.

Lemma first_seen_NoDup seen l : NoDup (first_seen seen l).
Proof.
  revert seen. induction l as [|x l IH]; intros seen; simpl; [constructor|].
  case_bool_decide; [done|]. constructor; [|done]. rewrite first_seen_elem. set_solver.
Qed.

Lemma first_seen_skip x seen l : x ∉ l -> first_seen (x :: seen) l = first_seen seen l.
Proof.
  revert seen. induction l as [|y l IH]; intros seen Hx; [done|].
  apply not_elem_of_cons in Hx as [Hne Hx]. simpl.
  rewrite (bool_decide_ext (y ∈ x :: seen) (y ∈ seen)) by set_solver.
  case_bool_decide; [by apply IH|]. f_equal.
  rewrite <- (IH (y :: seen)) by done. apply first_seen_ext. set_solver.
Qed.

Lemma first_seen_filter (P : string -> Prop) `{Pdec : !forall x, Decision (P x)} seen l :
  first_seen seen (filter P l) = filter P (first_seen seen l).
Proof.
  revert seen. induction l as [|x l IH]; intros seen; [done|]. simpl.
  rewrite filter_cons. destruct (decide (P x)) as [Hx|Hx]; simpl.
  - case_bool_decide; [done|]. rewrite filter_cons_True by done. by rewrite IH.
  - case_bool_decide; [done|]. rewrite filter_cons_False by done. rewrite <- IH.
    symmetry. apply first_seen_skip. rewrite list_elem_of_filter. tauto.
Qed.

(** The Go loop keeps the owners found so far; it returns the first [n] distinct
    nodes of its lap. *)
Lemma owners_loop_spec vs start idx owners n nodes :
  Forall2 (fun i x => vnode_node <$> vs !! ((start + i) mod length vs)%nat = Some x) idx nodes ->
  zlen owners < n ->
  owners_loop vs start idx owners n = takeZ n (owners ++ first_seen owners nodes).
Proof.
  intros H. revert owners. induction H as [|i x idx nodes Hi H IH]; intros owners Hn; simpl.
  - rewrite app_nil_r, takeZ_all by lia. done.
  - apply fmap_Some in Hi as (v & -> & ->).
    case_bool_decide as Hin; [by apply IH|].
    assert (first_seen (vnode_node v :: owners) nodes = first_seen (owners ++ [vnode_node v]) nodes)
      as -> by (apply first_seen_ext; set_solver).
    replace (owners ++ vnode_node v :: first_seen (owners ++ [vnode_node v]) nodes)
      with ((owners ++ [vnode_node v]) ++ first_seen (owners ++ [vnode_node v]) nodes)
      by (by rewrite <- app_assoc).
    destruct (Z.eqb_spec (zlen (owners ++ [vnode_node v])) n) as [E|E].
    + unfold takeZ. rewrite take_app_le, take_ge; [done|unfold zlen in E; lia..].
    + apply IH. rewrite zlen_app, zlen_cons, zlen_nil in *. lia.
Qed.

(** ** Binary search *)

Lemma sorted_lookup vs i j u v :
  sorted_pos vs -> (i <= j)%nat -> vs !! i = Some u -> vs !! j = Some v -> pos u <= pos v.
Proof.
  intros Hs. revert i j. induction Hs as [|w vs Hs IH Hw]; intros i j Hij Hi Hj; [done|].
  destruct i, j; simplify_eq/=; [lia| |lia|eapply (IH i j); eauto; lia].
  by eapply (Forall_lookup_1 (fun b => pos u <= pos b)) in Hw.
Qed.

Lemma bsearch_spec fuel vs t i j :
  sorted_pos vs -> (i <= j <= length vs)%nat -> (j - i < fuel)%nat ->
  (forall k v, vs !! k = Some v -> (k < i)%nat -> pos v < t) ->
  (forall k v, vs !! k = Some v -> (j <= k)%nat -> t <= pos v) ->
  let r := bsearch fuel vs t i j in
  (r <= length vs)%nat /\
  (forall k v, vs !! k = Some v -> (k < r)%nat -> pos v < t) /\
  (forall k v, vs !! k = Some v -> (r <= k)%nat -> t <= pos v).
Proof.
  intros Hs. revert i j. induction fuel as [|fuel IH]; intros i j Hij Hf Hlo Hhi; [lia|].
  cbn [bsearch]. destruct (Nat.ltb_spec i j).
  - assert (i <= (i + j) / 2 < j)%nat as Hh by (pose proof (Nat.div_mod_eq (i + j) 2);
      pose proof (Nat.mod_upper_bound (i + j) 2); lia).
    destruct (vs !! ((i + j) / 2)%nat) as [v|] eqn:Hv; [|apply lookup_ge_None in Hv; lia].
    destruct (Z.ltb_spec (pos v) t).
    + apply IH; [lia|lia| |done]. intros k u Hk Hlt.
      assert (pos u <= pos v) by (eapply sorted_lookup; [done| |done|done]; lia). lia.
    + apply IH; [lia|lia|done|]. intros k u Hk Hge.
      assert (pos v <= pos u) by (eapply sorted_lookup; [done| |done|done]; lia). lia.
  - assert (i = j) as -> by lia. split; [lia|]. split; [done|]. done.
Qed.

Lemma split_filter vs t r :
  (r <= length vs)%nat ->
  (forall k v, vs !! k = Some v -> (k < r)%nat -> pos v < t) ->
  (forall k v, vs !! k = Some v -> (r <= k)%nat -> t <= pos v) ->
  take r vs = filter (fun v => pos v < t) vs /\ drop r vs = filter (fun v => t <= pos v) vs.
Proof.
  revert r. induction vs as [|v vs IH]; intros r Hr Hlo Hhi; [by destruct r|].
  destruct r as [|r]; simpl.
  - assert (t <= pos v) by (apply (Hhi O); [done|lia]).
    rewrite filter_cons_False by lia. rewrite filter_cons_True by lia.
    destruct (IH O) as [<- <-]; [lia|by intros; lia| |done].
    intros k u Hk _. apply (Hhi (S k)); [done|lia].
  - assert (pos v < t) by (apply (Hlo O); [done|lia]).
    rewrite filter_cons_True by lia. rewrite filter_cons_False by lia.
    simpl in Hr. destruct (IH r) as [-> ->]; [lia| | |done].
    + intros k u Hk Hlt. apply (Hlo (S k)); [done|lia].
    + intros k u Hk Hge. apply (Hhi (S k)); [done|lia].
Qed.

(** Walking [(start + i) mod len] for [i] from 0 is the rotation at [start]. *)
Lemma rotation vs start :
  (start <= length vs)%nat -> vs <> [] ->
  Forall2 (fun i x => vnode_node <$> vs !! ((start + i) mod length vs)%nat = Some x)
    (seq 0 (length vs)) (map vnode_node (drop start vs ++ take start vs)).
Proof.
  intros Hs Hne. assert (0 < length vs)%nat by (destruct vs; simpl; [done|lia]).
  apply Forall2_same_length_lookup_2.
  { rewrite length_seq, length_map, length_app, length_drop, length_take. lia. }
  intros k i x Hi Hx. apply lookup_seq in Hi as [-> Hk]. simpl in *.
  rewrite list_lookup_fmap in Hx. rewrite <- Hx. f_equal.
  destruct (decide (k < length vs - start)%nat).
  - rewrite lookup_app_l by (rewrite length_drop; lia). rewrite lookup_drop.
    by rewrite Nat.mod_small by lia.
  - rewrite lookup_app_r by (rewrite length_drop; lia). rewrite length_drop.
    rewrite lookup_take_lt by lia. f_equal.
    replace (start + k)%nat with (k - (length vs - start) + 1 * length vs)%nat by lia.
    rewrite Nat.Div0.mod_add. apply Nat.mod_small. lia.
Qed.

Lemma Owners_lap r p n :
  sorted_pos (vnodes r) -> 0 <= n ->
  Owners r p n = takeZ n (first_seen [] (lap (vnodes r) (partition_start p))).
Proof.
  intros Hs Hn. unfold Owners. destruct (Z.eqb_spec (zlen (vnodes r)) 0) as [E|E].
  { apply zlen_zero_nil in E. rewrite E. by destruct (Z.to_nat n) eqn:Z; unfold takeZ; rewrite Z. }
  destruct (Z.leb_spec n 0).
  { assert (n = 0) as -> by lia. done. }
  simpl. fold (partition_start p).
  destruct (bsearch_spec (S (length (vnodes r))) (vnodes r) (partition_start p) 0 (length (vnodes r)))
    as (Hr & Hlo & Hhi); [done|lia|lia|lia| |].
  { intros k v Hk Hge. apply lookup_lt_Some in Hk. lia. }
  fold (BinarySearch (vnodes r) (partition_start p)) in *.
  rewrite (owners_loop_spec _ _ _ _ _ (lap (vnodes r) (partition_start p))); [done| |done].
  destruct (split_filter (vnodes r) (partition_start p) (BinarySearch (vnodes r) (partition_start p)))
    as [Ht Hd]; [done..|].
  unfold lap. rewrite <- Ht, <- Hd. apply rotation; [done|]. intros HH. by rewrite HH in E.
Qed.

(** ** Sorting *)

Lemma insert_pos_elem v l u : u ∈ insert_pos v l <-> u = v \/ u ∈ l.
Proof.
  induction l as [|w l IH]; simpl; [set_solver|]. destruct (_ <=? _); set_solver.
Qed.

Lemma insert_pos_sorted v l : sorted_pos l -> sorted_pos (insert_pos v l).
Proof.
  unfold sorted_pos. induction 1 as [|w l Hs IH Hw]; simpl.
  - repeat constructor.
  - destruct (Z.leb_spec (pos v) (pos w)).
    + constructor; [by constructor|]. constructor; [done|].
      eapply Forall_impl; [exact Hw|]. simpl. lia.
    + constructor; [done|]. rewrite Forall_forall in Hw |- *. intros u Hu.
      apply insert_pos_elem in Hu as [->|Hu]; [lia | by apply Hw].
Qed.

Lemma sort_pos_sorted l : sorted_pos (sort_pos l).
Proof. induction l; simpl; [constructor | by apply insert_pos_sorted]. Qed.

Lemma sort_pos_elem l v : v ∈ sort_pos l <-> v ∈ l.
Proof. induction l as [|w l IH]; simpl; [done|]. rewrite insert_pos_elem, IH. set_solver. Qed.

(** The sort is stable, so it commutes with dropping vnodes. *)
Lemma filter_insert_pos (P : vnode -> Prop) `{Pdec : !forall x, Decision (P x)} v l :
  sorted_pos l ->
  filter P (insert_pos v l) = if decide (P v) then insert_pos v (filter P l) else filter P l.
Proof.
  induction 1 as [|w l Hs IH Hw]; simpl.
  - rewrite filter_cons. case_decide; done.
  - destruct (Z.leb_spec (pos v) (pos w)) as [Hle|Hlt].
    + rewrite filter_cons. case_decide as Hv; [|done].
      assert (Forall (fun u => pos v <= pos u) (filter P (w :: l))) as Hall.
      { apply Forall_filter_keep. constructor; [lia|]. eapply Forall_impl; [exact Hw|]. simpl; lia. }
      destruct (filter P (w :: l)) as [|u k]; [done|]. simpl.
      apply Forall_cons_1 in Hall as [Hu _]. by rewrite (proj2 (Z.leb_le _ _)).
    + rewrite !filter_cons, IH. case_decide; [|done]. case_decide; simpl; [|done].
      by rewrite (proj2 (Z.leb_gt _ _)).
Qed.

Lemma filter_sort_pos (P : vnode -> Prop) `{Pdec : !forall x, Decision (P x)} l :
  filter P (sort_pos l) = sort_pos (filter P l).
Proof.
  induction l as [|v l IH]; [done|]. simpl.
  rewrite filter_insert_pos by apply sort_pos_sorted. rewrite filter_cons, IH.
  by case_decide.
Qed.

Lemma New_sorted nodes k : sorted_pos (vnodes (New nodes k)).
Proof. apply sort_pos_sorted. Qed.

Lemma flat_map_elem {A B} (f : A -> list B) l y : y ∈ flat_map f l <-> exists x, x ∈ l /\ y ∈ f x.
Proof.
  rewrite list_elem_of_In, in_flat_map.
  setoid_rewrite <- list_elem_of_In. done.
Qed.

Lemma node_vnodes_elem k x v : v ∈ node_vnodes k x -> vnode_node v = x.
Proof. unfold node_vnodes. rewrite list_elem_of_fmap. by intros (i & -> & _). Qed.

Lemma lap_elem vs t x : x ∈ lap vs t <-> exists v, v ∈ vs /\ vnode_node v = x.
Proof.
  unfold lap. rewrite list_elem_of_fmap.
  setoid_rewrite elem_of_app. setoid_rewrite list_elem_of_filter. split.
  - intros (v & -> & [[_ ?]|[_ ?]]); eauto.
  - intros (v & Hv & <-). exists v. split; [done|].
    destruct (decide (t <= pos v)); [left|right]; split; auto; lia.
Qed.

Lemma lap_New_elem nodes k t x : 1 <= k -> x ∈ lap (vnodes (New nodes k)) t <-> x ∈ nodes.
Proof.
  intros Hk. rewrite lap_elem. simpl. setoid_rewrite sort_pos_elem.
  setoid_rewrite flat_map_elem. split.
  - intros (v & (y & Hy & Hv) & <-). by apply node_vnodes_elem in Hv as ->.
  - intros Hx. exists (mk_vnode (vnodePos x 0) x). split; [|done]. exists x. split; [done|].
    unfold node_vnodes. apply list_elem_of_fmap. exists O. split; [done|].
    apply elem_of_seq. lia.
Qed.

(** Filtering out a node filters its vnodes out of the ring and its visits out of a lap. *)
Lemma vnodes_New_filter (x : string) nodes k :
  vnodes (New (filter (fun y => y <> x) nodes) k)
  = filter (fun v => vnode_node v <> x) (vnodes (New nodes k)).
Proof.
  simpl. rewrite filter_sort_pos. f_equal.
  induction nodes as [|y nodes IH]; [done|]. simpl. rewrite filter_app, <- IH, filter_cons.
  case_decide as Hy; simpl.
  - f_equal. symmetry. apply filter_all. apply Forall_forall.
    intros v Hv. by rewrite (node_vnodes_elem _ _ _ Hv).
  - assert (filter (fun v => vnode_node v <> x) (node_vnodes k y) = []) as ->; [|done].
    apply filter_none, Forall_forall. intros v Hv. rewrite (node_vnodes_elem _ _ _ Hv).
    tauto.
Qed.

Lemma first_seen_length nodes l :
  (forall x, x ∈ l <-> x ∈ nodes) ->
  zlen (first_seen [] l) = Z.of_nat (size (list_to_set nodes : gset string)).
Proof.
  intros H. unfold zlen. f_equal.
  rewrite <- (size_list_to_set (C := gset string) (first_seen [] l)) by apply first_seen_NoDup.
  f_equal. apply set_eq. intros x. rewrite !elem_of_list_to_set, first_seen_elem, H.
  set_solver.
Qed.

Lemma lap_New_filter x nodes k p :
  lap (vnodes (New (filter (fun y => y <> x) nodes) k)) p
  = filter (fun y => y <> x) (lap (vnodes (New nodes k)) p).
Proof.
  rewrite vnodes_New_filter. unfold lap. generalize (vnodes (New nodes k)). intros vs.
  assert (forall (P : vnode -> Prop) `{!forall v, Decision (P v)},
    map vnode_node (filter P (filter (fun v => vnode_node v <> x) vs))
    = filter (fun y => y <> x) (map vnode_node (filter P vs))) as Hm.
  { intros P ?. induction vs as [|v vs IH]; [done|].
    rewrite (filter_cons _ v). case_decide; rewrite ?(filter_cons P v); case_decide; simpl;
      rewrite ?(filter_cons _ (vnode_node v)), ?decide_True, ?decide_False by (done || tauto);
      simpl; rewrite ?IH; try done. }
  rewrite !map_app, !filter_app. by f_equal; apply Hm.
Qed.

Lemma Owners_New nodes k p n :
  0 <= n ->
  Owners (New nodes k) p n = takeZ n (first_seen [] (lap (vnodes (New nodes k)) (partition_start p))).
Proof. apply Owners_lap, New_sorted. Qed.

(** Dropping [x] from the first [n + 1] distinct nodes leaves the first [n] others. *)
Lemma take_filter_ne (x : string) l n :
  NoDup l -> take n (filter (fun y => y <> x) l) = take n (filter (fun y => y <> x) (take (S n) l)).
Proof.
  revert n. induction l as [|y l IH]; intros n Hnd; [done|].
  apply NoDup_cons in Hnd as [Hy Hnd]. simpl. rewrite !filter_cons. case_decide as E.
  - destruct n as [|n]; [done|]. simpl. f_equal. by apply IH.
  - assert (y = x) as -> by (destruct (decide (y = x)); tauto).
    rewrite !filter_all; [by rewrite take_take, Nat.min_id| |].
    + apply Forall_take, Forall_forall. intros z Hz ->. done.
    + apply Forall_forall. intros z Hz ->. done.
Qed.

Lemma Owners_facts nodes k p n :
  1 <= k -> 0 <= n ->
  let o := Owners (New nodes k) p n in
  NoDup o /\ (forall x, x ∈ o -> x ∈ nodes) /\
  zlen o = Z.min n (Z.of_nat (size (list_to_set nodes : gset string))).
Proof.
  intros Hk Hn o. subst o. rewrite Owners_New by done. split_and!.
  - apply NoDup_take, first_seen_NoDup.
  - intros x Hx%elem_of_take_1. apply first_seen_elem in Hx as [Hx _].
    by apply lap_New_elem in Hx.
  - rewrite zlen_takeZ, (first_seen_length nodes) by (done || intros; by apply lap_New_elem). done.
Qed.

(** [Owners] returns distinct members of the ring, and exactly as many as were
    asked for unless the cluster is smaller, in which case every node is an owner. *)
Theorem Owners_distinct_and_full nodes k p n :
  1 <= k -> 0 <= n ->
  let o := Owners (New nodes k) p n in
  NoDup o /\ (forall x, x ∈ o -> x ∈ nodes) /\
  zlen o = Z.min n (Z.of_nat (size (list_to_set nodes : gset string))).
Proof. apply Owners_facts. Qed.

Lemma Owners_distinct_and_full_witness :
  NoDup (Owners (New ["n1"; "n2"; "n3"; "n4"] 4) 10 3) /\
  (forall x, x ∈ Owners (New ["n1"; "n2"; "n3"; "n4"] 4) 10 3 -> x ∈ ["n1"; "n2"; "n3"; "n4"]) /\
  zlen (Owners (New ["n1"; "n2"; "n3"; "n4"] 4) 10 3) = 3.
Proof. apply (Owners_distinct_and_full ["n1"; "n2"; "n3"; "n4"] 4 10 3); lia. Defined.

(** A narrower placement is a prefix of a wider one: the first of one owner is the
    first of three and of nine, which is the rule repair and rebalance elect the node
    responsible for a partition by. *)
Theorem Owners_prefix nodes k p n m :
  0 <= n <= m -> Owners (New nodes k) p n = takeZ n (Owners (New nodes k) p m).
Proof.
  intros H. rewrite !Owners_New by lia. unfold takeZ. rewrite take_take. f_equal. lia.
Qed.

Lemma Owners_prefix_witness :
  Owners (New ["n1"; "n2"; "n3"; "n4"] 4) 10 1
  = takeZ 1 (Owners (New ["n1"; "n2"; "n3"; "n4"] 4) 10 3).
Proof. apply (Owners_prefix ["n1"; "n2"; "n3"; "n4"] 4 10 1 3). lia. Defined.

(** Consistent hashing. When a node leaves, every partition keeps its other owners
    in their order and gains at most the node that was next in line: the new owners
    are the old [n + 1] without the leaver. *)
Theorem Owners_minimal_movement nodes k p n x :
  0 <= n ->
  Owners (New (filter (fun y => y <> x) nodes) k) p n
  = takeZ n (filter (fun y => y <> x) (Owners (New nodes k) p (n + 1))).
Proof.
  intros Hn. rewrite !Owners_New by lia. rewrite lap_New_filter, first_seen_filter.
  unfold takeZ. replace (Z.to_nat (n + 1)) with (S (Z.to_nat n)) by lia.
  apply take_filter_ne, first_seen_NoDup.
Qed.

Lemma Owners_minimal_movement_witness :
  Owners (New (filter (fun y => y <> "n2") ["n1"; "n2"; "n3"; "n4"]) 4) 10 2
  = takeZ 2 (filter (fun y => y <> "n2") (Owners (New ["n1"; "n2"; "n3"; "n4"] 4) 10 3)).
Proof. apply (Owners_minimal_movement ["n1"; "n2"; "n3"; "n4"] 4 10 2 "n2"). lia. Defined.

(** A key's partition is one of the 256, and the position its partition's owners are
    looked up from is not after the key's own position: both come from the same shift. *)
Theorem PartitionFor_span key :
  0 <= PartitionFor key < Partitions /\
  partition_start (PartitionFor key) <= hashPos key < partition_start (PartitionFor key) + 2 ^ 56.
Proof.
  assert (0 <= hashPos key < 2 ^ 64) as Hh.
  { unfold hashPos. pose proof (be_word_range (take 8 (sha256 (to_bytes key)))) as H.
    rewrite length_take in H. split; [lia|]. eapply Z.lt_le_trans; [apply H|].
    change (2 ^ 64) with (256 ^ 8). apply Z.pow_le_mono_r; lia. }
  unfold PartitionFor, partition_start, Partitions, partitionShift, wrap_uint.
  rewrite Z.shiftr_div_pow2 by lia.
  assert (0 <= hashPos key / 2 ^ 56 < 256) as Hd by dlia.
  rewrite (Z.mod_small (hashPos key / 2 ^ 56)) by lia.
  rewrite Z.shiftl_mul_pow2 by lia. rewrite Z.mod_small by dlia. split; [done|]. dlia.
Qed.
