(* ===== verification/Path.v ===== *)
(** * Slash-separated paths: what the code uses of Go's [path] package

    etcd keys are composed with [path.Join] and taken apart with [path.Base] and
    [path.Dir], so the names of uploads and nodes go through [path.Clean]. *)

From S2P Require Import Prelude GoStr.

(** [strings.Split(s, sep)] for a one-byte separator. *)
Fixpoint splitc (c : byte) (s : string) : list string :=
  match s with
  | EmptyString => [""]
  | String a s' =>
      if Ascii.eqb a c then "" :: splitc c s'
      else match splitc c s' with
           | [] => [String a ""]
           | h :: t => String a h :: t
           end
  end.

(** [strings.Join(l, "/")] *)
Fixpoint join_slash (l : list string) : string :=
  match l with
  | [] => ""
  | [x] => x
  | x :: l' => x +:+ "/" +:+ join_slash l'
  end.

(** One element of a path under [path.Clean]; the stack holds what has been kept, the
    last first. *)
Definition clean_step (rooted : bool) (stack : list string) (e : string) : list string :=
  if String.eqb e "" || String.eqb e "." then stack
  else if String.eqb e ".." then
    match stack with
    | [] => if rooted then [] else [".."]
    | top :: rest => if String.eqb top ".." then ".." :: stack else rest
    end
  else e :: stack.

Definition clean_elems (s : string) : list string :=
  rev (foldl (clean_step (HasPrefix s "/")) [] (splitc "/" s)).

Definition render (rooted : bool) (l : list string) : string :=
  if rooted then "/" +:+ join_slash l
  else match l with [] => "." | _ => join_slash l end.

Definition path_Clean (s : string) : string :=
  if String.eqb s "" then "." else render (HasPrefix s "/") (clean_elems s).

Definition path_Join (l : list string) : string :=
  let l' := filter (fun e => e <> "") l in
  match l' with [] => "" | _ => path_Clean (join_slash l') end.

(** Drop the empty elements at the end, which are trailing slashes. *)
Fixpoint drop_empty (l : list string) : list string :=
  match l with
  | [] => []
  | x :: l' => if String.eqb x "" then drop_empty l' else l
  end.

Definition path_Base (s : string) : string :=
  if String.eqb s "" then "."
  else match drop_empty (rev (splitc "/" s)) with
       | [] => "/"
       | x :: _ => x
       end.

Definition path_Dir (s : string) : string :=
  match rev (splitc "/" s) with
  | _ :: ((_ :: _) as front) => path_Clean (join_slash (rev front) +:+ "/")
  | _ => path_Clean ""
  end.

(** ** Facts *)

Lemma splitc_nonempty c s : splitc c s <> [].
Proof. destruct s as [|a s]; simpl; [done|]. destruct (Ascii.eqb a c); [done|]. by destruct (splitc c s). Qed.

(** A separator splits what is before it from what is after it. *)
Lemma splitc_sep c a b : splitc c (a +:+ String c b) = splitc c a ++ splitc c b.
Proof.
  induction a as [|x a IH]; simpl; [by rewrite Ascii.eqb_refl|].
  destruct (Ascii.eqb x c); simpl; [by rewrite IH|]. rewrite IH.
  by destruct (splitc c a) eqn:E; [apply splitc_nonempty in E|].
Qed.

(** An element of a path that is neither special nor more than one. *)
Fixpoint has_slash (s : string) : bool :=
  match s with EmptyString => false | String c s' => Ascii.eqb c "/" || has_slash s' end.

Definition plain_elem (s : string) : bool :=
  negb (String.eqb s "") && negb (String.eqb s ".") && negb (String.eqb s "..") && negb (has_slash s).

Lemma plain_elem_spec s : plain_elem s = true <-> s <> "" /\ s <> "." /\ s <> ".." /\ has_slash s = false.
Proof.
  unfold plain_elem. rewrite !andb_true_iff, !negb_true_iff.
  rewrite !String.eqb_neq. tauto.
Qed.

Lemma splitc_single s : has_slash s = false -> splitc "/" s = [s].
Proof.
  induction s as [|a s IH]; simpl; [done|]. intros [Ha Hs]%orb_false_iff.
  rewrite Ha. by rewrite IH.
Qed.

Lemma splitc_elem c s x : x ∈ splitc c s -> IndexByte x c = None.
Proof.
  revert x. induction s as [|a s IH]; simpl; intros x.
  - intros ->%list_elem_of_singleton. done.
  - destruct (Ascii.eqb a c) eqn:E; [intros [->|H]%elem_of_cons; [done | auto]|].
    assert (Hc : forall y, IndexByte y c = None -> IndexByte (String a y) c = None).
    { intros y Hy. unfold IndexByte in *. cbn [Index HasPrefix].
      rewrite Ascii.eqb_sym, E. simpl. by rewrite Hy. }
    destruct (splitc c s) as [|h t] eqn:Es; [by apply splitc_nonempty in Es|].
    intros [->|H]%elem_of_cons; [apply Hc, IH; by constructor | apply IH; by constructor].
Qed.

Lemma join_splitc s : join_slash (splitc "/" s) = s.
Proof.
  induction s as [|a s IH]; simpl; [done|].
  destruct (Ascii.eqb a "/") eqn:E.
  - apply Ascii.eqb_eq in E as ->. destruct (splitc "/" s) eqn:Es; [by apply splitc_nonempty in Es|].
    rewrite <- IH. done.
  - destruct (splitc "/" s) as [|h [|h' t]] eqn:Es; [by apply splitc_nonempty in Es| |]; simpl in *; by rewrite IH.
Qed.

Lemma clean_step_plain rooted st e : plain_elem e = true -> clean_step rooted st e = e :: st.
Proof.
  intros (H1 & H2 & H3 & _)%plain_elem_spec. unfold clean_step.
  by rewrite (proj2 (String.eqb_neq e "") H1), (proj2 (String.eqb_neq e ".") H2), (proj2 (String.eqb_neq e "..") H3).
Qed.

Lemma foldl_clean_plain rooted l : forall st,
  Forall (fun e => plain_elem e = true) l -> foldl (clean_step rooted) st l = rev l ++ st.
Proof.
  induction l as [|e l IH]; intros st HF; [done|]. apply Forall_cons in HF as [He HF]. simpl.
  rewrite clean_step_plain, IH by done. by rewrite <- app_assoc.
Qed.

Lemma join_slash_snoc l x : l <> [] -> join_slash (l ++ [x]) = join_slash l +:+ "/" +:+ x.
Proof.
  induction l as [|y l IH]; [done|]. intros _. destruct l as [|z l]; [done|].
  change (join_slash ((y :: z :: l) ++ [x])) with (y +:+ "/" +:+ join_slash ((z :: l) ++ [x])).
  rewrite IH by done. change (join_slash (y :: z :: l)) with (y +:+ "/" +:+ join_slash (z :: l)).
  by rewrite <- !sapp_assoc.
Qed.

Lemma splitc_join l : l <> [] -> Forall (fun e => has_slash e = false) l -> splitc "/" (join_slash l) = l.
Proof.
  induction l as [|x l IH]; [done|]. intros _ [Hx HF]%Forall_cons. destruct l as [|y l]; simpl.
  - by apply splitc_single.
  - rewrite splitc_sep, splitc_single by done. simpl. f_equal. by apply IH.
Qed.

(** [path.Base] undoes appending one element. *)
Lemma path_Base_snoc p x : x <> "" -> has_slash x = false -> path_Base (p +:+ "/" +:+ x) = x.
Proof.
  intros Hx Hs. unfold path_Base. destruct (String.eqb_spec (p +:+ "/" +:+ x) "") as [E|_].
  { apply sapp_nil_inv in E as [_ E]. done. }
  simpl. rewrite splitc_sep, (splitc_single x) by done. rewrite rev_app_distr. simpl.
  by rewrite (proj2 (String.eqb_neq x "") Hx).
Qed.

Lemma path_Base_join l x : x <> "" -> has_slash x = false -> path_Base (join_slash (l ++ [x])) = x.
Proof.
  intros Hx Hs. destruct l as [|y l].
  - simpl. unfold path_Base. rewrite (proj2 (String.eqb_neq x "") Hx), splitc_single by done. simpl.
    by rewrite (proj2 (String.eqb_neq x "") Hx).
  - rewrite join_slash_snoc by done. by apply path_Base_snoc.
Qed.

Lemma path_Base_render rooted l x : x <> "" -> has_slash x = false -> path_Base (render rooted (l ++ [x])) = x.
Proof.
  intros Hx Hs. unfold render. destruct rooted.
  - destruct l as [|y l]; [by apply (path_Base_snoc "" x)|]. rewrite join_slash_snoc by done.
    change ("/" +:+ (join_slash (y :: l) +:+ "/" +:+ x)) with (("/" +:+ join_slash (y :: l)) +:+ "/" +:+ x).
    by apply path_Base_snoc.
  - destruct (l ++ [x]) eqn:E; [by destruct l|]. rewrite <- E. by apply path_Base_join.
Qed.

(** Cleaning keeps a plain last element, whatever comes before it. *)
Lemma clean_elems_snoc p x : plain_elem x = true ->
  exists l, clean_elems (p +:+ "/" +:+ x +:+ "/") = l ++ [x].
Proof.
  intros Hx. pose proof Hx as (_ & _ & _ & Hs)%plain_elem_spec. unfold clean_elems.
  set (rooted := HasPrefix _ _). clearbody rooted.
  change ("/" +:+ x +:+ "/") with (String "/" (x +:+ String "/" "")).
  rewrite splitc_sep, (splitc_sep _ x ""), (splitc_single x) by done. simpl.
  rewrite !foldl_app. simpl. rewrite (clean_step_plain rooted _ x) by done. eexists. reflexivity.
Qed.

(** [path.Base(path.Dir(key))] is the last but one element. *)
Lemma path_Base_Dir p x y : plain_elem x = true -> has_slash y = false ->
  path_Base (path_Dir (p +:+ "/" +:+ x +:+ "/" +:+ y)) = x.
Proof.
  intros Hx Hy. pose proof Hx as (Hne & _ & _ & Hs)%plain_elem_spec.
  assert (Hd : path_Dir (p +:+ "/" +:+ x +:+ "/" +:+ y) = path_Clean (p +:+ "/" +:+ x +:+ "/")).
  { unfold path_Dir.
    change ("/" +:+ x +:+ "/" +:+ y) with (String "/" (x +:+ String "/" y)).
    rewrite splitc_sep, (splitc_sep _ x y), (splitc_single x), (splitc_single y) by done.
    rewrite rev_app_distr. simpl. f_equal.
    rewrite rev_involutive. simpl. rewrite join_slash_snoc by apply splitc_nonempty.
    rewrite join_splitc. by rewrite <- !sapp_assoc. }
  rewrite Hd. unfold path_Clean. destruct (String.eqb_spec (p +:+ "/" +:+ x +:+ "/") "") as [E|_].
  { apply sapp_nil_inv in E as [_ E]. done. }
  destruct (clean_elems_snoc p x Hx) as [l ->]. by apply path_Base_render.
Qed.

(** ** Joining plain elements onto a configured prefix *)

Definition keyroot (prefix : string) : string :=
  match clean_elems prefix with
  | [] => if HasPrefix prefix "/" then "/" else ""
  | cs => (if HasPrefix prefix "/" then "/" else "") +:+ join_slash cs +:+ "/"
  end.

Lemma join_slash_app l k : l <> [] -> k <> [] -> join_slash (l ++ k) = join_slash l +:+ "/" +:+ join_slash k.
Proof.
  induction l as [|x l IH]; [done|]. intros _ Hk. destruct l as [|y l].
  - simpl. by destruct k.
  - change (join_slash ((x :: y :: l) ++ k)) with (x +:+ "/" +:+ join_slash ((y :: l) ++ k)).
    rewrite IH by done. change (join_slash (x :: y :: l)) with (x +:+ "/" +:+ join_slash (y :: l)).
    by rewrite <- !sapp_assoc.
Qed.

Lemma join_slash_nonempty l : l <> [] -> Forall (fun e => e <> "") l -> join_slash l <> "".
Proof.
  intros Hl HF. destruct l as [|x [|y l]]; [done| |]; apply Forall_cons in HF as [Hx _]; simpl; [done|].
  intros [E _]%sapp_nil_inv. done.
Qed.

Lemma path_Join_plain prefix xs : xs <> [] -> Forall (fun e => plain_elem e = true) xs ->
  path_Join (prefix :: xs) = keyroot prefix +:+ join_slash xs.
Proof.
  intros Hne HF.
  assert (Hnon : Forall (fun e => e <> "") xs)
    by (eapply Forall_impl; [exact HF|]; by intros e (? & _)%plain_elem_spec).
  assert (Hns : Forall (fun e => has_slash e = false) xs)
    by (eapply Forall_impl; [exact HF|]; by intros e (_ & _ & _ & ?)%plain_elem_spec).
  assert (Hfil : filter (fun e => e <> "") xs = xs) by (by apply filter_all).
  assert (Hj : join_slash xs <> "") by (by apply join_slash_nonempty).
  assert (Hsl : HasPrefix (join_slash xs) "/" = false).
  { destruct xs as [|x xs]; [done|]. apply Forall_cons in HF as [(Hx & _ & _ & Hs)%plain_elem_spec _].
    destruct x as [|c x]; [done|]. simpl in Hs. apply orb_false_iff in Hs as [Hc _].
    destruct xs; cbn -[Ascii.eqb]; rewrite Ascii.eqb_sym, Hc; done. }
  unfold path_Join. cbv zeta. destruct (String.eqb_spec prefix "") as [->|Hp].
  - rewrite filter_cons_False by (intros H; by apply H). rewrite Hfil.
    assert (Hm : forall (a b : string), match xs with [] => a | _ => b end = b) by (intros; by destruct xs).
    rewrite Hm. unfold path_Clean. rewrite (proj2 (String.eqb_neq _ "") Hj), Hsl. unfold clean_elems.
    rewrite splitc_join by (congruence || done). rewrite Hsl, foldl_clean_plain by done.
    rewrite app_nil_r, rev_involutive. unfold render. by rewrite Hm.
  - rewrite filter_cons_True by done. rewrite Hfil. unfold path_Clean.
    assert (join_slash (prefix :: xs) = prefix +:+ "/" +:+ join_slash xs) as ->
      by (by apply (join_slash_app [prefix] xs)).
    destruct prefix as [|c p]; [done|].
    assert (Hpre : HasPrefix (String c p +:+ "/" +:+ join_slash xs) "/" = HasPrefix (String c p) "/") by done.
    rewrite Hpre.
    change (String.eqb _ "") with false. cbv iota. unfold clean_elems. rewrite Hpre.
    change ("/" +:+ join_slash xs) with (String "/" (join_slash xs)).
    rewrite splitc_sep, foldl_app, splitc_join, foldl_clean_plain, rev_app_distr, rev_involutive by done.
    unfold keyroot. unfold clean_elems. set (R := HasPrefix (String c p) "/").
    destruct (rev (foldl (clean_step R) [] (splitc "/" (String c p)))) as [|y cs] eqn:E; unfold render; destruct R; simpl app.
    + done.
    + by destruct xs.
    + pose proof (join_slash_app (y :: cs) xs ltac:(done) Hne) as Ha. simpl app in Ha.
      rewrite Ha. by rewrite <- !sapp_assoc.
    + pose proof (join_slash_app (y :: cs) xs ltac:(done) Hne) as Ha. simpl app in Ha.
      rewrite Ha. by rewrite <- !sapp_assoc.
Qed.

(** An element that climbs out of the one before it replaces it. *)
Lemma path_Join_up prefix x t : plain_elem x = true -> t <> "" ->
  HasPrefix t "/" = false -> path_Join [prefix; x; "../" +:+ t] = path_Join [prefix; t].
Proof.
  intros Hx Ht Hr. pose proof Hx as (Hne & _ & _ & Hs)%plain_elem_spec.
  assert (Hstep : forall R st, foldl (clean_step R) st (splitc "/" (x +:+ String "/" (".." +:+ String "/" t)))
                             = foldl (clean_step R) st (splitc "/" t)).
  { intros R st. rewrite splitc_sep, splitc_sep, (splitc_single x) by done. cbn [app foldl splitc].
    rewrite clean_step_plain by done. assert (clean_step R (x :: st) ".." = st) as Hup; [|by rewrite <- Hup at 2].
    apply plain_elem_spec in Hx as (_ & _ & Hdots & _). unfold clean_step.
    by rewrite (proj2 (String.eqb_neq x "..") Hdots). }
  assert (Hxs : HasPrefix (x +:+ String "/" (".." +:+ String "/" t)) "/" = false).
  { destruct x as [|c x]; [done|]. simpl in Hs. apply orb_false_iff in Hs as [Hc _]. cbn -[Ascii.eqb]. by rewrite Ascii.eqb_sym, Hc. }
  unfold path_Join. rewrite !(filter_cons _ prefix).
  rewrite (filter_all _ [x; "../" +:+ t]), (filter_all _ [t]) by (repeat constructor; done).
  destruct (decide (prefix <> "")) as [Hp|Hp]; cbn [join_slash].
  - change (x +:+ "/" +:+ "../" +:+ t) with (x +:+ String "/" (".." +:+ String "/" t)).
    unfold path_Clean, clean_elems. destruct prefix as [|c p]; [done|].
    assert (Hpre : forall u, HasPrefix (String c p +:+ "/" +:+ u) "/" = HasPrefix (String c p) "/") by done.
    rewrite !Hpre. change (String.eqb (String c p +:+ _) "") with false. cbv iota.
    change ("/" +:+ (x +:+ String "/" (".." +:+ String "/" t))) with (String "/" (x +:+ String "/" (".." +:+ String "/" t))).
    change ("/" +:+ t) with (String "/" t). 
    rewrite (splitc_sep "/" (String c p) (x +:+ _)), (splitc_sep "/" (String c p) t). by rewrite !foldl_app, Hstep.
  - change (x +:+ "/" +:+ "../" +:+ t) with (x +:+ String "/" (".." +:+ String "/" t)).
    unfold path_Clean, clean_elems. rewrite Hxs, Hr, Hstep, (proj2 (String.eqb_neq t "") Ht).
    destruct (String.eqb_spec (x +:+ String "/" (".." +:+ String "/" t)) "") as [[? _]%sapp_nil_inv|]; [done | reflexivity].
Qed.
