(* ===== verification/Text.v ===== *)
(** * Text on the wire: what the front end uses of [strings], [net/http], [net/url] and [encoding/base64]

    White space, lists of words, header names, percent-encoding and base64, as the
    functions of Go's standard library read and write them, with the round trips the
    S3 and signature code relies on. *)

From S2P Require Import Prelude GoStr Strconv Path Hash.

(** ** Splitting and joining *)

(** [strings.Join(l, sep)] *)
Fixpoint Join (l : list string) (sep : string) : string :=
  match l with
  | [] => ""
  | [x] => x
  | x :: l' => x +:+ sep +:+ Join l' sep
  end.

Fixpoint has_byte (c : byte) (s : string) : bool :=
  match s with EmptyString => false | String a s' => Ascii.eqb a c || has_byte c s' end.

(** ** White space

    [unicode.IsSpace] on the UTF-8 encoding: how many bytes of white space the list
    begins with, 0 when it begins with something else. *)

Definition ascii_space (c : byte) : bool :=
  let z := byteZ c in (z =? 32) || ((9 <=? z) && (z <=? 13)).

Definition wide_space (a b c : Z) : bool :=
  ((a =? 0xe1) && (b =? 0x9a) && (c =? 0x80)) ||
  ((a =? 0xe2) && (b =? 0x80) && (((0x80 <=? c) && (c <=? 0x8a)) || (c =? 0xa8) || (c =? 0xa9) || (c =? 0xaf))) ||
  ((a =? 0xe2) && (b =? 0x81) && (c =? 0x9f)) ||
  ((a =? 0xe3) && (b =? 0x80) && (c =? 0x80)).

Definition pair_space (a b : Z) : bool := (a =? 0xc2) && ((b =? 0x85) || (b =? 0xa0)).

Definition space_front (l : bytes) : nat :=
  match l with
  | a :: _ =>
      if ascii_space a then 1%nat
      else match l with
      | a :: b :: l' =>
          if pair_space (byteZ a) (byteZ b) then 2%nat
          else match l' with
               | c :: _ => if wide_space (byteZ a) (byteZ b) (byteZ c) then 3%nat else 0%nat
               | [] => 0%nat
               end
      | _ => 0%nat
      end
  | [] => 0%nat
  end.

(** The same at the end, of the reversed list. *)
Definition space_back (l : bytes) : nat :=
  match l with
  | a :: _ =>
      if ascii_space a then 1%nat
      else match l with
      | a :: b :: l' =>
          if pair_space (byteZ b) (byteZ a) then 2%nat
          else match l' with
               | c :: _ => if wide_space (byteZ c) (byteZ b) (byteZ a) then 3%nat else 0%nat
               | [] => 0%nat
               end
      | _ => 0%nat
      end
  | [] => 0%nat
  end.

Fixpoint trim_with (front : bytes -> nat) (fuel : nat) (l : bytes) : bytes :=
  match fuel with
  | O => l
  | S fuel' => match front l with O => l | n => trim_with front fuel' (drop n l) end
  end.

Definition trim_bytes (l : bytes) : bytes :=
  let l1 := trim_with space_front (length l) l in
  rev (trim_with space_back (length l1) (rev l1)).

(** [strings.TrimSpace] *)
Definition TrimSpace (s : string) : string := of_bytes (trim_bytes (to_bytes s)).

(** [strings.Fields]; [skip] is what is left of the white space being passed over and
    [word] the word being read, reversed. *)
Fixpoint fields_loop (skip : nat) (l word : bytes) : list bytes :=
  let emit := match word with [] => [] | _ => [rev word] end in
  match l with
  | [] => emit
  | a :: l' =>
      match skip with
      | S k => fields_loop k l' word
      | O => match space_front l with
             | O => fields_loop 0 l' (a :: word)
             | S k => emit ++ fields_loop k l' []
             end
      end
  end.

Definition Fields (s : string) : list string := map of_bytes (fields_loop 0 (to_bytes s) []).

(** ** Header names and maps *)

Definition is_alpha (z : Z) : bool := ((65 <=? z) && (z <=? 90)) || ((97 <=? z) && (z <=? 122)).
Definition is_digit (z : Z) : bool := (48 <=? z) && (z <=? 57).

Definition token_byte (c : byte) : bool :=
  let z := byteZ c in is_alpha z || is_digit z || has_byte c "!#$%&'*+-.^_`|~".

Fixpoint all_bytes (P : byte -> bool) (s : string) : bool :=
  match s with EmptyString => true | String c s' => P c && all_bytes P s' end.

Definition upper_byte (c : byte) : byte :=
  let z := byteZ c in if (97 <=? z) && (z <=? 122) then byte_of (z - 32) else c.

Fixpoint canon_loop (upper : bool) (s : string) : string :=
  match s with
  | EmptyString => ""
  | String c s' => String (if upper then upper_byte c else lower_byte c) (canon_loop (Ascii.eqb c "-") s')
  end.

(** [http.CanonicalHeaderKey] *)
Definition CanonicalHeaderKey (s : string) : string :=
  if all_bytes token_byte s then canon_loop true s else s.

(** [http.Header] and [url.Values]: names to the values given for them, in order. *)
Abbreviation Values := (gmap string (list string)).

Definition first_value (vs : option (list string)) : string :=
  match vs with Some (v :: _) => v | _ => "" end.

Definition header_Values (h : Values) (name : string) : list string := default [] (h !! CanonicalHeaderKey name).
Definition header_Get (h : Values) (name : string) : string := first_value (h !! CanonicalHeaderKey name).
Definition header_Set (h : Values) (name value : string) : Values := <[CanonicalHeaderKey name := [value]]> h.
Definition header_Add (h : Values) (name value : string) : Values :=
  let k := CanonicalHeaderKey name in <[k := default [] (h !! k) ++ [value]]> h.

Definition query_Get (q : Values) (name : string) : string := first_value (q !! name).
Definition query_Has (q : Values) (name : string) : bool := bool_decide (is_Some (q !! name)).

(** ** Percent-encoding *)

Definition percent (c : byte) : string :=
  String "%" (String (digit_char_upper (byteZ c / 16)) (String (digit_char_upper (byteZ c mod 16)) "")).

(** Write every byte outside [unreserved] as [%XX]. *)
Fixpoint percent_encode (unreserved s : string) : string :=
  match s with
  | EmptyString => ""
  | String c s' => (if has_byte c unreserved then String c "" else percent c) +:+ percent_encode unreserved s'
  end.

Definition unhex (c : byte) : option Z :=
  match digit_val c with Some d => if d <? 16 then Some d else None | None => None end.

(** [url.PathUnescape] *)
Fixpoint PathUnescape (s : string) : option string :=
  match s with
  | EmptyString => Some ""
  | String c s' =>
      if Ascii.eqb c "%" then
        match s' with
        | String a (String b s'') =>
            match unhex a, unhex b with
            | Some x, Some y => option_map (String (byte_of (16 * x + y))) (PathUnescape s'')
            | _, _ => None
            end
        | _ => None
        end
      else option_map (String c) (PathUnescape s')
  end.

(** ** Base64, [base64.StdEncoding] *)

Definition b64_alphabet : string := "ABCDEFGHIJKLMNOPQRSTUVWXYZabcdefghijklmnopqrstuvwxyz0123456789+/".

Definition b64_char (z : Z) : byte := default "A"%char (to_bytes b64_alphabet !! Z.to_nat z).

Definition b64_val (c : byte) : option Z := option_map (fun p => Z.of_nat p.1) (list_find (eq c) (to_bytes b64_alphabet)).

Fixpoint b64_encode (l : bytes) : bytes :=
  match l with
  | [] => []
  | [a] => let n := byteZ a * 65536 in [b64_char (n / 262144); b64_char (n / 4096 mod 64); "="; "="]%char
  | [a; b] => let n := byteZ a * 65536 + byteZ b * 256 in
              [b64_char (n / 262144); b64_char (n / 4096 mod 64); b64_char (n / 64 mod 64); "="]%char
  | a :: b :: c :: l' =>
      let n := byteZ a * 65536 + byteZ b * 256 + byteZ c in
      [b64_char (n / 262144); b64_char (n / 4096 mod 64); b64_char (n / 64 mod 64); b64_char (n mod 64)] ++ b64_encode l'
  end.

Definition EncodeToString (l : bytes) : string := of_bytes (b64_encode l).

Definition is_pad (c : byte) : bool := Ascii.eqb c "=".

(** The bytes of the quanta, once the line ends have been dropped. The bits a final
    quantum has too many are ignored, as the decoder is not strict. *)
Fixpoint b64_decode (l : bytes) : option bytes :=
  match l with
  | [] => Some []
  | a :: b :: c :: d :: l' =>
      match b64_val a, b64_val b with
      | Some x, Some y =>
          match b64_val c with
          | Some z =>
              match b64_val d with
              | Some w => let n := x * 262144 + y * 4096 + z * 64 + w in
                          option_map (fun r => byte_of (n / 65536) :: byte_of (n / 256 mod 256) :: byte_of (n mod 256) :: r)
                            (b64_decode l')
              | None => let n := x * 262144 + y * 4096 + z * 64 in
                        if is_pad d && bool_decide (l' = []) then Some [byte_of (n / 65536); byte_of (n / 256 mod 256)] else None
              end
          | None => let n := x * 262144 + y * 4096 in
                    if is_pad c && is_pad d && bool_decide (l' = []) then Some [byte_of (n / 65536)] else None
          end
      | _, _ => None
      end
  | _ => None
  end.

Definition line_end (c : byte) : bool := (byteZ c =? 10) || (byteZ c =? 13).

(** [base64.StdEncoding.DecodeString] *)
Definition DecodeString (s : string) : option bytes :=
  b64_decode (filter (fun c => line_end c = false) (to_bytes s)).

(** ** Facts about splitting and joining *)

Lemma has_byte_app c a b : has_byte c (a +:+ b) = has_byte c a || has_byte c b.
Proof. induction a as [|x a IH]; simpl; [done|]. by rewrite IH, orb_assoc. Qed.

Lemma has_byte_In c s : has_byte c s = true <-> c ∈ to_bytes s.
Proof.
  induction s as [|a s IH]; simpl; [split; [done | intros H; by apply elem_of_nil in H]|].
  rewrite orb_true_iff, IH, Ascii.eqb_eq, elem_of_cons. split; intros [?|?]; auto.
Qed.

Lemma splitc_no c s : has_byte c s = false -> splitc c s = [s].
Proof.
  induction s as [|a s IH]; simpl; [done|]. intros [Ha Hs]%orb_false_iff. rewrite Ha. by rewrite IH.
Qed.

Lemma splitc_elems c s : Forall (fun x => has_byte c x = false) (splitc c s).
Proof.
  induction s as [|a s IH]; simpl; [by repeat constructor|].
  destruct (Ascii.eqb a c) eqn:E; [by constructor|].
  destruct (splitc c s) as [|h t]; [constructor; [by simpl; rewrite E | done]|].
  inversion IH; subst. constructor; [simpl; by rewrite E | done].
Qed.

Lemma splitc_Join c l : l <> [] -> Forall (fun x => has_byte c x = false) l -> splitc c (Join l (String c "")) = l.
Proof.
  induction l as [|x l IH]; intros Hne Hall; [done|]. inversion Hall as [|?? Hx Hl]; subst.
  destruct l as [|y l]; [by apply splitc_no|]. cbn [Join String.append].
  rewrite splitc_sep, splitc_no by done. cbn [app]. f_equal. by apply IH.
Qed.

Lemma Join_cons x y l sep : Join (x :: y :: l) sep = x +:+ sep +:+ Join (y :: l) sep.
Proof. done. Qed.

Lemma Join_splitc c s : Join (splitc c s) (String c "") = s.
Proof.
  induction s as [|a s IH]; [done|]. cbn [splitc].
  destruct (splitc c s) as [|h t] eqn:Es; [by apply splitc_nonempty in Es|].
  destruct (Ascii.eqb_spec a c) as [->|].
  - rewrite Join_cons, <- IH. done.
  - destruct t as [|h' t]; [by rewrite <- IH|]. by rewrite <- IH, !Join_cons.
Qed.

(** Lines that contain no separator can be read back from their concatenation. *)
Lemma Join_inj c l k : l <> [] -> k <> [] ->
  Forall (fun x => has_byte c x = false) l -> Forall (fun x => has_byte c x = false) k ->
  Join l (String c "") = Join k (String c "") -> l = k.
Proof. intros Hl Hk Al Ak H. rewrite <- (splitc_Join c l), <- (splitc_Join c k) by done. by rewrite H. Qed.

Lemma has_byte_Join c sep l : has_byte c sep = false -> Forall (fun x => has_byte c x = false) l ->
  has_byte c (Join l sep) = false.
Proof.
  intros Hs. induction l as [|x l IH]; intros H; [done|]. inversion H; subst.
  destruct l as [|y l]; [done|]. rewrite Join_cons, !has_byte_app, Hs. rewrite orb_false_l.
  apply orb_false_iff. auto.
Qed.

Lemma all_bytes_In P s : all_bytes P s = true <-> forall c, c ∈ to_bytes s -> P c = true.
Proof.
  induction s as [|a s IH]; simpl; [split; [intros _ c H; by apply elem_of_nil in H | done]|].
  rewrite andb_true_iff, IH. setoid_rewrite elem_of_cons. split; [intros [? H] c [->|]; auto | auto].
Qed.

(** [strings.Cut] at a byte that is not in what comes before it. *)
Lemma Index_byte c a b : has_byte c a = false -> Index (a +:+ String c b) (String c "") = Some (slen a).
Proof.
  induction a as [|x a IH]; intros H.
  - cbn [String.append Index HasPrefix]. by rewrite Ascii.eqb_refl.
  - simpl in H. apply orb_false_iff in H as [Hx Ha]. cbn [String.append Index HasPrefix].
    rewrite Ascii.eqb_sym, Hx. cbn [andb]. by rewrite IH.
Qed.

Lemma Cut_byte c a b : has_byte c a = false -> Cut (a +:+ String c b) (String c "") = Some (a, b).
Proof.
  intros H. unfold Cut. rewrite Index_byte by done. rewrite stake_app. do 2 f_equal.
  change (slen (String c "")) with 1%nat. rewrite Nat.add_comm. clear H. induction a as [|x a IH]; [by destruct b|]. apply IH.
Qed.

Lemma Cut_byte_None c a : has_byte c a = false -> Cut a (String c "") = None.
Proof.
  intros H. unfold Cut. assert (Index a (String c "") = None) as ->; [|done].
  induction a as [|x a IH]; [done|]. simpl in H. apply orb_false_iff in H as [Hx Ha]. cbn [Index HasPrefix].
  rewrite Ascii.eqb_sym, Hx. cbn [andb]. by rewrite IH.
Qed.

(** ** Facts about white space *)

(** A byte that is printable ASCII is not white space and not part of any. *)
Definition graphic (c : byte) : bool := (33 <=? byteZ c) && (byteZ c <=? 126).

Lemma graphic_not_space c : graphic c = true -> ascii_space c = false.
Proof. unfold graphic, ascii_space. intros H. bool_facts. apply orb_false_iff. split; [apply Z.eqb_neq; lia|]. zbool; done. Qed.

Lemma space_front_graphic c l : graphic c = true -> space_front (c :: l) = 0%nat.
Proof.
  intros H. cbn [space_front]. rewrite (graphic_not_space c H). destruct l as [|b [|d l]]; [done| |];
    unfold graphic in H; bool_facts; unfold pair_space, wide_space.
  - by rewrite (proj2 (Z.eqb_neq _ _)) by lia.
  - by rewrite !(proj2 (Z.eqb_neq (byteZ c) _)) by lia.
Qed.

Lemma space_back_graphic c l : graphic c = true -> space_back (c :: l) = 0%nat.
Proof.
  intros H. cbn [space_back]. rewrite (graphic_not_space c H). unfold graphic in H. bool_facts.
  destruct l as [|b [|d l]]; [done| |]; unfold pair_space, wide_space.
  - by rewrite !(proj2 (Z.eqb_neq (byteZ c) _)), andb_false_r by lia.
  - rewrite !(proj2 (Z.eqb_neq (byteZ c) _)), ?andb_false_r by lia. cbn [orb].
    rewrite (proj2 (Z.leb_gt 0x80 (byteZ c))) by lia. by rewrite !andb_false_r.
Qed.

Lemma trim_with_0 front n l : front l = 0%nat -> trim_with front n l = l.
Proof. intros H. destruct n; simpl; [done|]. by rewrite H. Qed.

(** Text that starts and ends with something printable is left alone. *)
Lemma trim_bytes_id a l : graphic a = true -> graphic (default a (last (a :: l))) = true -> trim_bytes (a :: l) = a :: l.
Proof.
  intros Ha Hz. unfold trim_bytes. rewrite (trim_with_0 space_front) by (by apply space_front_graphic).
  destruct (list_snoc_inv (a :: l)) as [?|(k & z & Hk)]; [done|]. rewrite Hk in *.
  rewrite last_snoc in Hz. simpl in Hz. rewrite rev_app_distr. simpl rev.
  rewrite trim_with_0 by (by apply space_back_graphic). simpl. by rewrite rev_involutive.
Qed.

Lemma TrimSpace_graphic s : all_bytes graphic s = true -> TrimSpace s = s.
Proof.
  intros H. unfold TrimSpace. rewrite <- (of_to_bytes s) at 2. f_equal.
  pose proof (proj1 (all_bytes_In graphic s) H) as Hin. destruct (to_bytes s) as [|a l]; [done|].
  apply trim_bytes_id; [apply Hin; by constructor|].
  destruct (last (a :: l)) as [z|] eqn:E; [|by apply last_None in E]. simpl. apply Hin.
  by apply last_Some_elem_of in E.
Qed.

(** One space before printable text is trimmed off. *)
Lemma TrimSpace_space s : all_bytes graphic s = true -> TrimSpace (" " +:+ s) = s.
Proof.
  intros H. pose proof (TrimSpace_graphic s H) as Hs. unfold TrimSpace in *. rewrite <- Hs at 2. f_equal.
Qed.

(** No word has white space in it, and in particular no line end. *)
Lemma fields_loop_ok skip l : forall word,
  Forall (fun c => ascii_space c = false) word ->
  Forall (Forall (fun c => ascii_space c = false)) (fields_loop skip l word).
Proof.
  revert skip. induction l as [|a l IH]; intros skip word Hw.
  - cbn [fields_loop]. destruct word; [done|]. repeat constructor. by apply Forall_rev.
  - cbn [fields_loop]. destruct skip as [|k]; [|by apply IH].
    destruct (space_front (a :: l)) as [|k] eqn:E.
    + apply IH. constructor; [|done]. cbn [space_front] in E. by destruct (ascii_space a).
    + apply Forall_app. split; [|by apply IH]. destruct word; [done|]. repeat constructor. by apply Forall_rev.
Qed.

Lemma Fields_no c s : ascii_space c = true -> Forall (fun w => has_byte c w = false) (Fields s).
Proof.
  intros Hc. unfold Fields. apply Forall_map. eapply Forall_impl; [apply fields_loop_ok; constructor|].
  intros w Hw. cbn. destruct (has_byte c (of_bytes w)) eqn:E; [|done].
  apply has_byte_In in E. rewrite to_of_bytes in E. rewrite Forall_forall in Hw. apply Hw in E. congruence.
Qed.

(** ** Round trips *)

Lemma unhex_upper d : 0 <= d < 16 -> unhex (digit_char_upper d) = Some d.
Proof. intros H. unfold unhex. rewrite digit_val_char_upper by lia. by rewrite (proj2 (Z.ltb_lt _ _)) by lia. Qed.

Lemma unescape_percent c s : PathUnescape (percent c +:+ s) = option_map (String c) (PathUnescape s).
Proof.
  unfold percent. cbn [String.append PathUnescape]. rewrite Ascii.eqb_refl. pose proof (byteZ_range c).
  rewrite !unhex_upper by dlia. f_equal. rewrite <- (byte_of_byteZ c) at 3. f_equal. f_equal. dlia.
Qed.

(** What is encoded down to a set without the percent sign is read back exactly. *)
Lemma PathUnescape_encode unreserved s : has_byte "%" unreserved = false ->
  PathUnescape (percent_encode unreserved s) = Some s.
Proof.
  intros Hu. induction s as [|c s IH]; [done|]. cbn [percent_encode].
  destruct (has_byte c unreserved) eqn:E.
  - cbn [String.append PathUnescape]. destruct (Ascii.eqb_spec c "%") as [->|]; [congruence|]. by rewrite IH.
  - by rewrite unescape_percent, IH.
Qed.

(** A byte the encoding leaves alone is one of [unreserved], or one it writes itself. *)
Definition encode_byte (c : byte) : bool := Ascii.eqb c "%" || is_digit (byteZ c) || ((65 <=? byteZ c) && (byteZ c <=? 70)).

Lemma digit_upper_encode d : 0 <= d < 16 -> encode_byte (digit_char_upper d) = true.
Proof.
  intros H. unfold encode_byte, digit_char_upper, is_digit. destruct (Z.ltb_spec d 10); rewrite byteZ_of by lia; apply orb_true_iff.
  - left. apply orb_true_iff. right. apply andb_true_iff. split; apply Z.leb_le; lia.
  - right. apply andb_true_iff. split; apply Z.leb_le; lia.
Qed.

Lemma has_byte_encode unreserved c s : has_byte c unreserved = false -> encode_byte c = false ->
  has_byte c (percent_encode unreserved s) = false.
Proof.
  intros Hu He. induction s as [|a s IH]; [done|]. cbn [percent_encode]. rewrite has_byte_app, IH, orb_false_r.
  destruct (has_byte a unreserved) eqn:Ea; cbn [has_byte percent].
  - destruct (Ascii.eqb_spec a c) as [->|]; [congruence | done].
  - pose proof (byteZ_range a).
    assert (Hd : forall d, 0 <= d < 16 -> Ascii.eqb (digit_char_upper d) c = false).
    { intros d Hd. destruct (Ascii.eqb_spec (digit_char_upper d) c) as [<-|]; [|done].
      rewrite digit_upper_encode in He by done. done. }
    rewrite !Hd by dlia. destruct (Ascii.eqb_spec "%" c) as [<-|]; [by unfold encode_byte in He; rewrite Ascii.eqb_refl in He | done].
Qed.

Lemma b64_val_char z : 0 <= z < 64 -> b64_val (b64_char z) = Some z.
Proof.
  intros H. assert (Hall : forallb (fun n => bool_decide (b64_val (b64_char (Z.of_nat n)) = Some (Z.of_nat n))) (seq 0 64) = true)
    by (vm_compute; reflexivity).
  rewrite forallb_forall in Hall. specialize (Hall (Z.to_nat z)). rewrite in_seq in Hall.
  specialize (Hall ltac:(lia)). apply bool_decide_eq_true in Hall. by rewrite Z2Nat.id in Hall by lia.
Qed.

Lemma b64_pad_val : b64_val "="%char = None.
Proof. vm_compute. reflexivity. Qed.

Lemma byte_of_eq z b : z = byteZ b -> byte_of z = b.
Proof. intros ->. apply byte_of_byteZ. Qed.

Lemma list_ind3 {A} (P : list A -> Prop) : P [] -> (forall a, P [a]) -> (forall a b, P [a; b]) ->
  (forall a b c l, P l -> P (a :: b :: c :: l)) -> forall l, P l.
Proof.
  intros H0 H1 H2 H3. refine (fix go l := match l with
    | [] => H0 | [a] => H1 a | [a; b] => H2 a b | a :: b :: c :: l' => H3 a b c l' (go l') end).
Qed.

Lemma b64_roundtrip l : b64_decode (b64_encode l) = Some l.
Proof.
  induction l as [|a|a b|a b c l IH] using list_ind3; [done| | |]; cbn [b64_encode b64_decode app];
    pose proof (byteZ_range a); try pose proof (byteZ_range b); try pose proof (byteZ_range c);
    rewrite !b64_val_char by dlia; rewrite ?b64_pad_val; cbn [is_pad Ascii.eqb Bool.eqb andb option_map];
    rewrite ?bool_decide_true by done; rewrite ?IH; cbn [option_map andb];
    repeat (f_equal; try (apply byte_of_eq; dlia)).
Qed.

Lemma b64_encode_no_line l : Forall (fun c => line_end c = false) (b64_encode l).
Proof.
  assert (Hc : forall z, line_end (b64_char z) = false).
  { intros z. unfold b64_char. destruct (to_bytes b64_alphabet !! Z.to_nat z) as [c|] eqn:E; [|done].
    apply list_elem_of_lookup_2 in E. revert c E. apply Forall_forall. vm_compute. repeat constructor. }
  induction l as [|a|a b|a b c l IH] using list_ind3; cbn [b64_encode app]; repeat constructor; auto.
Qed.

Lemma DecodeString_Encode l : DecodeString (EncodeToString l) = Some l.
Proof.
  unfold DecodeString, EncodeToString. rewrite to_of_bytes, filter_all by apply b64_encode_no_line. apply b64_roundtrip.
Qed.

(** ** Facts about headers *)

Lemma header_Get_Set h name v : header_Get (header_Set h name v) name = v.
Proof. unfold header_Get, header_Set. by rewrite lookup_insert_eq. Qed.

Lemma header_Get_Set_ne h a b v : CanonicalHeaderKey a <> CanonicalHeaderKey b ->
  header_Get (header_Set h a v) b = header_Get h b.
Proof. intros H. unfold header_Get, header_Set. by rewrite lookup_insert_ne. Qed.

Example canonical_amz : CanonicalHeaderKey "x-amz-content-sha256" = "X-Amz-Content-Sha256".
Proof. reflexivity. Qed.
Example canonical_odd : CanonicalHeaderKey "a b" = "a b".
Proof. reflexivity. Qed.
Example fields_example : Fields ("  a  b" +:+ String (byte_of 9) "c ") = ["a"; "b"; "c"].
Proof. reflexivity. Qed.
Example trim_nbsp : TrimSpace (String (byte_of 0xc2) (String (byte_of 0xa0) "x ")) = "x".
Proof. reflexivity. Qed.
Example b64_example : EncodeToString (to_bytes "light w") = "bGlnaHQgdw==".
Proof. reflexivity. Qed.
Example b64_lines : DecodeString ("bGln" +:+ String (byte_of 10) "aA==") = Some (to_bytes "ligh").
Proof. reflexivity. Qed.
