(* ===== verification/Time.v ===== *)
(** * Time: what the front end uses of Go's [time] and [net/http]

    An instant is a number of nanoseconds since 1970. Layouts are lists of the elements
    Go's [time] package finds in the layout string; reading and writing them follows that
    package, with its leniency: one-digit hours, fractions of a second nobody
    asked for, any number of spaces where there is one. The offsets of zone names come
    from the machine's own zone, which is a parameter. *)

From S2P Require Import Prelude GoStr Strconv Path Hash Text.

(** ** The calendar *)

(** Days since 1970-01-01 of a date in the Gregorian calendar, counting years from March. *)
Definition days_of (y m d : Z) : Z :=
  let y' := if m <=? 2 then y - 1 else y in
  let mp := if m <=? 2 then m + 9 else m - 3 in
  let yoe := y' mod 400 in
  let doy := (153 * mp + 2) / 5 + d - 1 in
  y' / 400 * 146097 + (yoe * 365 + yoe / 4 - yoe / 100 + doy) - 719468.

(** The year and the day of the year, both from March, of a day in its 400 years. *)
Definition year_of (doe : Z) : Z * Z :=
  let c := Z.min 3 (doe / 36524) in
  let r := doe - 36524 * c in
  let q := r / 1461 in
  let r2 := r - 1461 * q in
  let y := Z.min 3 (r2 / 365) in
  (100 * c + 4 * q + y, r2 - 365 * y).

Definition civil_of (days : Z) : Z * Z * Z :=
  let z := days + 719468 in
  let '(yoe, doy) := year_of (z mod 146097) in
  let mp := (5 * doy + 2) / 153 in
  let d := doy - (153 * mp + 2) / 5 + 1 in
  let m := if mp <? 10 then mp + 3 else mp - 9 in
  (yoe + z / 146097 * 400 + (if m <=? 2 then 1 else 0), m, d).

Definition is_leap (y : Z) : bool := (y mod 4 =? 0) && (negb (y mod 100 =? 0) || (y mod 400 =? 0)).

Definition daysIn (m y : Z) : Z :=
  if m =? 2 then (if is_leap y then 29 else 28)
  else if (m =? 4) || (m =? 6) || (m =? 9) || (m =? 11) then 30 else 31.

Record clock := mk_clock { k_year : Z; k_month : Z; k_day : Z; k_hour : Z; k_min : Z; k_sec : Z; k_nsec : Z }.

(** [time.Date(...)] in UTC, of components in range, and the components of an instant. *)
Definition Date (k : clock) : Z :=
  (((days_of (k_year k) (k_month k) (k_day k) * 24 + k_hour k) * 60 + k_min k) * 60 + k_sec k) * 10 ^ 9 + k_nsec k.

Definition clock_of (t : Z) : clock :=
  let s := t / 10 ^ 9 in
  let '(y, m, d) := civil_of (s / 86400) in
  let r := s mod 86400 in
  mk_clock y m d (r / 3600) (r / 60 mod 60) (r mod 60) (t mod 10 ^ 9).

(** [t.Truncate(time.Second)]; the zero time of Go is a whole number of seconds from 1970. *)
Definition TruncateSecond (t : Z) : Z := t / 10 ^ 9 * 10 ^ 9.

(** ** Layouts *)

Inductive elem :=
  | Lit (s : string)
  | LongYear | Year | ZeroMonth | MonthName | ZeroDay | UnderDay | WeekDay | LongWeekDay
  | Hour | ZeroMinute | ZeroSecond | TZ | NumTZ.

Definition hms : list elem := [Hour; Lit ":"; ZeroMinute; Lit ":"; ZeroSecond].

(** ["20060102T150405Z"] *)
Definition amz_layout : list elem := [LongYear; ZeroMonth; ZeroDay; Lit "T"; Hour; ZeroMinute; ZeroSecond; Lit "Z"].
(** ["20060102"] *)
Definition date_layout : list elem := [LongYear; ZeroMonth; ZeroDay].
(** [http.TimeFormat]: ["Mon, 02 Jan 2006 15:04:05 GMT"] *)
Definition TimeFormat : list elem :=
  [WeekDay; Lit ", "; ZeroDay; Lit " "; MonthName; Lit " "; LongYear; Lit " "] ++ hms ++ [Lit " GMT"].
(** [time.RFC850]: ["Monday, 02-Jan-06 15:04:05 MST"] *)
Definition RFC850 : list elem :=
  [LongWeekDay; Lit ", "; ZeroDay; Lit "-"; MonthName; Lit "-"; Year; Lit " "] ++ hms ++ [Lit " "; TZ].
(** [time.ANSIC]: ["Mon Jan _2 15:04:05 2006"] *)
Definition ANSIC : list elem := [WeekDay; Lit " "; MonthName; Lit " "; UnderDay; Lit " "] ++ hms ++ [Lit " "; LongYear].
(** [time.RFC1123] and [time.RFC1123Z] *)
Definition RFC1123 : list elem :=
  [WeekDay; Lit ", "; ZeroDay; Lit " "; MonthName; Lit " "; LongYear; Lit " "] ++ hms ++ [Lit " "; TZ].
Definition RFC1123Z : list elem :=
  [WeekDay; Lit ", "; ZeroDay; Lit " "; MonthName; Lit " "; LongYear; Lit " "] ++ hms ++ [Lit " "; NumTZ].
(** [time.RFC3339] of a time in UTC, whose zone is written [Z] *)
Definition RFC3339 : list elem :=
  [LongYear; Lit "-"; ZeroMonth; Lit "-"; ZeroDay; Lit "T"] ++ hms ++ [Lit "Z"].

Definition shortMonths : list string :=
  ["Jan"; "Feb"; "Mar"; "Apr"; "May"; "Jun"; "Jul"; "Aug"; "Sep"; "Oct"; "Nov"; "Dec"].
Definition shortDays : list string := ["Sun"; "Mon"; "Tue"; "Wed"; "Thu"; "Fri"; "Sat"].
Definition longDays : list string :=
  ["Sunday"; "Monday"; "Tuesday"; "Wednesday"; "Thursday"; "Friday"; "Saturday"].

Definition nth_name (l : list string) (i : Z) : string := default "" (l !! Z.to_nat i).

(** ** Writing *)

Definition year_text (y : Z) : string := if y <? 0 then String "-" (pad_dec 4 (- y)) else pad_dec 4 y.

Definition under_day (d : Z) : string := if d <? 10 then " " +:+ Itoa d else Itoa d.

Definition format_elem (weekday : Z) (k : clock) (e : elem) : string :=
  match e with
  | Lit s => s
  | LongYear => year_text (k_year k)
  | Year => pad_dec 2 (k_year k mod 100)
  | ZeroMonth => pad_dec 2 (k_month k)
  | MonthName => nth_name shortMonths (k_month k - 1)
  | ZeroDay => pad_dec 2 (k_day k)
  | UnderDay => under_day (k_day k)
  | WeekDay => nth_name shortDays weekday
  | LongWeekDay => nth_name longDays weekday
  | Hour => pad_dec 2 (k_hour k)
  | ZeroMinute => pad_dec 2 (k_min k)
  | ZeroSecond => pad_dec 2 (k_sec k)
  | TZ => "UTC"
  | NumTZ => "+0000"
  end.

Definition weekday_of (t : Z) : Z := (t / 10 ^ 9 / 86400 + 4) mod 7.

(** [t.UTC().Format(layout)] *)
Definition Format (layout : list elem) (t : Z) : string :=
  foldr (fun e s => format_elem (weekday_of t) (clock_of t) e +:+ s) "" layout.

(** With [.000] for the milliseconds and then [Z]: ["2006-01-02T15:04:05.000Z"] *)
Definition Format_millis (t : Z) : string :=
  Format ([LongYear; Lit "-"; ZeroMonth; Lit "-"; ZeroDay; Lit "T"] ++ hms) t
    +:+ "." +:+ pad_dec 3 (t mod 10 ^ 9 / 10 ^ 6) +:+ "Z".

(** ** Reading *)

(** What has been read so far; the month and day start at 1. *)
Record parsed := mk_parsed { q_clock : clock; q_offset : option Z; q_zone : string }.

Definition parsed0 : parsed := mk_parsed (mk_clock 0 1 1 0 0 0 0) None "".

Definition digit_of (c : byte) : option Z := if is_digit (byteZ c) then Some (byteZ c - 48) else None.

Definition first_digit (s : string) : option Z := match s with String c _ => digit_of c | _ => None end.

(** [getnum]: one or two digits, two when [fixed]. *)
Definition getnum (s : string) (fixed : bool) : option (Z * string) :=
  match s with
  | String a s' =>
      match digit_of a with
      | None => None
      | Some x =>
          match s' with
          | String b s'' =>
              match digit_of b with
              | Some y => Some (10 * x + y, s'')
              | None => if fixed then None else Some (x, s')
              end
          | EmptyString => if fixed then None else Some (x, s')
          end
      end
  | EmptyString => None
  end.

Fixpoint cutspace (s : string) : string :=
  match s with String c s' => if Ascii.eqb c " " then cutspace s' else s | _ => s end.

(** [skip]: a space of the layout stands for any number of them. [past] says that the
    spaces at this point of the literal have been passed over. *)
Fixpoint skip_lit (past : bool) (lit s : string) : option string :=
  match lit with
  | EmptyString => Some s
  | String p lit' =>
      if Ascii.eqb p " " then
        if past then skip_lit true lit' s
        else match s with
             | String c _ => if Ascii.eqb c " " then skip_lit true lit' (cutspace s) else None
             | EmptyString => skip_lit true lit' s
             end
      else match s with
           | String c s' => if Ascii.eqb c p then skip_lit false lit' s' else None
           | EmptyString => None
           end
  end.

(** [lookup]: the first name the text begins with, whatever the case. *)
Fixpoint lookup_name (names : list string) (i : Z) (s : string) : option (Z * string) :=
  match names with
  | [] => None
  | n :: names' =>
      if bool_decide (slen n <= slen s)%nat && String.eqb (ToLower (stake (slen n) s)) (ToLower n)
      then Some (i, sdrop (slen n) s) else lookup_name names' (i + 1) s
  end.

Fixpoint span_digits (s : string) : string * string :=
  match s with
  | String c s' => if is_digit (byteZ c) then let '(d, r) := span_digits s' in (String c d, r) else ("", s)
  | EmptyString => ("", "")
  end.

(** The fraction of a second that may follow the seconds: at most nine digits count. *)
Definition fraction (s : string) : Z * string :=
  match s with
  | String c s' =>
      if (Ascii.eqb c "." || Ascii.eqb c ",") && bool_decide (is_Some (first_digit s')) then
        let '(ds, rest) := span_digits s' in
        let kept := stake 9 ds in
        (default 0 (parse_digits 10 kept 0) * 10 ^ (9 - Z.of_nat (slen kept)), rest)
      else (0, s)
  | EmptyString => (0, s)
  end.

(** [parseSignedOffset]: how many bytes a sign and up to 23 hours take, or 0. *)
Definition signed_offset_len (s : string) : nat :=
  match s with
  | String c s' =>
      if Ascii.eqb c "-" || Ascii.eqb c "+" then
        let '(ds, rest) := span_digits s' in
        match ParseUint ds 10 63 with
        | Some x => if 23 <? x then 0%nat else S (slen ds)
        | None => 0%nat
        end
      else 0%nat
  | EmptyString => 0%nat
  end.

Definition is_upper (c : byte) : bool := (65 <=? byteZ c) && (byteZ c <=? 90).

Fixpoint count_upper (fuel : nat) (s : string) : nat :=
  match fuel, s with
  | S fuel', String c s' => if is_upper c then S (count_upper fuel' s') else 0%nat
  | _, _ => 0%nat
  end.

(** [parseTimeZone]: how much of the text names a zone. *)
Definition zone_len (s : string) : option nat :=
  if bool_decide (slen s < 3)%nat then None
  else if HasPrefix s "ChST" || HasPrefix s "MeST" then Some 4%nat
  else if HasPrefix s "GMT" then Some (3 + signed_offset_len (sdrop 3 s))%nat
  else if HasPrefix s "+" || HasPrefix s "-" then
    match signed_offset_len s with O => None | n => Some n end
  else match count_upper 6 s with
       | 5%nat => if HasPrefix (sdrop 4 s) "T" then Some 5%nat else None
       | 4%nat => if HasPrefix (sdrop 3 s) "T" || HasPrefix s "WITA" then Some 4%nat else None
       | 3%nat => Some 3%nat
       | _ => None
       end.

Definition with_clock (q : parsed) (k : clock) : parsed := mk_parsed k (q_offset q) (q_zone q).

Definition in_range (lo hi v : Z) : bool := (lo <=? v) && (v <=? hi).

(** Read two digits into a field, if they are in its range. *)
Definition read_num (s : string) (fixed : bool) (lo hi : Z) (f : Z -> parsed) : option (parsed * string) :=
  match getnum s fixed with
  | Some (v, s') => if in_range lo hi v then Some (f v, s') else None
  | None => None
  end.

Definition parse_elem (e : elem) (q : parsed) (s : string) : option (parsed * string) :=
  let k := q_clock q in
  let set_month m := with_clock q (mk_clock (k_year k) m (k_day k) (k_hour k) (k_min k) (k_sec k) (k_nsec k)) in
  let set_day d := with_clock q (mk_clock (k_year k) (k_month k) d (k_hour k) (k_min k) (k_sec k) (k_nsec k)) in
  let set_year y := with_clock q (mk_clock y (k_month k) (k_day k) (k_hour k) (k_min k) (k_sec k) (k_nsec k)) in
  match e with
  | Lit l => option_map (pair q) (skip_lit false l s)
  | LongYear =>
      match ParseUint (stake 4 s) 10 63 with
      | Some y => if bool_decide (4 <= slen s)%nat then Some (set_year y, sdrop 4 s) else None
      | None => None
      end
  | Year =>
      match Atoi (stake 2 s) with
      | Some y => if bool_decide (2 <= slen s)%nat
                  then Some (set_year (if 69 <=? y then y + 1900 else y + 2000), sdrop 2 s) else None
      | None => None
      end
  | ZeroMonth => read_num s true 1 12 set_month
  | MonthName => option_map (fun p => (set_month (p.1 + 1), p.2)) (lookup_name shortMonths 0 s)
  | ZeroDay => read_num s true 0 99 set_day
  | UnderDay =>
      let s' := match s with String c s' => if Ascii.eqb c " " then s' else s | _ => s end in
      read_num s' false 0 99 set_day
  | WeekDay => option_map (fun p => (q, p.2)) (lookup_name shortDays 0 s)
  | LongWeekDay => option_map (fun p => (q, p.2)) (lookup_name longDays 0 s)
  | Hour => read_num s false 0 23
              (fun h => with_clock q (mk_clock (k_year k) (k_month k) (k_day k) h (k_min k) (k_sec k) (k_nsec k)))
  | ZeroMinute => read_num s true 0 59
              (fun m => with_clock q (mk_clock (k_year k) (k_month k) (k_day k) (k_hour k) m (k_sec k) (k_nsec k)))
  | ZeroSecond =>
      match getnum s true with
      | Some (v, s') =>
          if in_range 0 59 v then
            let '(ns, s'') := fraction s' in
            Some (with_clock q (mk_clock (k_year k) (k_month k) (k_day k) (k_hour k) (k_min k) v ns), s'')
          else None
      | None => None
      end
  | TZ =>
      if HasPrefix s "UTC" then Some (mk_parsed k (Some 0) "", sdrop 3 s)
      else match zone_len s with
           | Some n => Some (mk_parsed k (q_offset q) (stake n s), sdrop n s)
           | None => None
           end
  | NumTZ =>
      match s with
      | String sign s' =>
          match getnum (stake 2 s') true, getnum (stake 2 (sdrop 2 s')) true with
          | Some (hr, _), Some (mm, _) =>
              let off := (hr * 60 + mm) * 60 in
              if negb (in_range 0 24 hr && in_range 0 60 mm) then None
              else if Ascii.eqb sign "+" then Some (mk_parsed k (Some off) (q_zone q), sdrop 4 s')
              else if Ascii.eqb sign "-" then Some (mk_parsed k (Some (- off)) (q_zone q), sdrop 4 s')
              else None
          | _, _ => None
          end
      | EmptyString => None
      end
  end.

Fixpoint parse_elems (layout : list elem) (q : parsed) (s : string) : option (parsed * string) :=
  match layout with
  | [] => Some (q, s)
  | e :: layout' => match parse_elem e q s with Some (q', s') => parse_elems layout' q' s' | None => None end
  end.

Section parse.
(** The offset this machine's own zone gives an abbreviation at a time, in seconds. *)
Context (local : string -> Z -> option Z).

(** [time.Parse(layout, value)] *)
Definition Parse (layout : list elem) (value : string) : option Z :=
  match parse_elems layout parsed0 value with
  | Some (q, "") =>
      let k := q_clock q in
      if in_range 1 (daysIn (k_month k) (k_year k)) (k_day k) then
        let t := Date k in
        Some (match q_offset q with
              | Some off => t - off * 10 ^ 9
              | None => if String.eqb (q_zone q) "" then t
                        else match local (q_zone q) (t / 10 ^ 9) with Some off => t - off * 10 ^ 9 | None => t end
              end)
      else None
  | _ => None
  end.

Fixpoint first_parse (layouts : list (list elem)) (value : string) : option Z :=
  match layouts with
  | [] => None
  | l :: layouts' => match Parse l value with Some t => Some t | None => first_parse layouts' value end
  end.

(** [http.ParseTime] *)
Definition ParseTime (value : string) : option Z := first_parse [TimeFormat; RFC850; ANSIC] value.
End parse.

Example amz_example : Parse (fun _ _ => None) amz_layout "20130524T000000Z" = Some (1369353600 * 10 ^ 9).
Proof. vm_compute. reflexivity. Qed.
Example amz_back : Format amz_layout (1369353600 * 10 ^ 9) = "20130524T000000Z".
Proof. vm_compute. reflexivity. Qed.
Example http_example : ParseTime (fun _ _ => None) "Sun, 06 Nov 1994 08:49:37 GMT" = Some (784111777 * 10 ^ 9).
Proof. vm_compute. reflexivity. Qed.
Example rfc850_example : ParseTime (fun _ _ => None) "Sunday, 06-Nov-94 08:49:37 GMT" = Some (784111777 * 10 ^ 9).
Proof. vm_compute. reflexivity. Qed.
Example ansic_example : ParseTime (fun _ _ => None) "Sun Nov  6 08:49:37 1994" = Some (784111777 * 10 ^ 9).
Proof. vm_compute. reflexivity. Qed.
Example rfc1123z_example : Parse (fun _ _ => None) RFC1123Z "Fri, 24 May 2013 02:00:00 +0200" = Some (1369353600 * 10 ^ 9).
Proof. vm_compute. reflexivity. Qed.
Example http_back : Format TimeFormat (784111777 * 10 ^ 9) = "Sun, 06 Nov 1994 08:49:37 GMT".
Proof. vm_compute. reflexivity. Qed.
Example leap_refused : Parse (fun _ _ => None) amz_layout "20130229T000000Z" = None.
Proof. vm_compute. reflexivity. Qed.

(** ** Round trips *)

Lemma year_of_spec doe : 0 <= doe < 146097 ->
  let '(yoe, doy) := year_of doe in
  0 <= yoe < 400 /\ 0 <= doy <= 365 /\ yoe * 365 + yoe / 4 - yoe / 100 + doy = doe /\
  (doy = 365 -> is_leap (yoe + 1) = true).
Proof.
  intros H. unfold year_of.
  set (c := Z.min 3 (doe / 36524)). assert (Hc : 0 <= c <= 3 /\ 36524 * c <= doe /\ (doe < 36524 * (c + 1) \/ c = 3 /\ doe < 146097)).
  { unfold c. dlia. }
  set (r := doe - 36524 * c). assert (Hr : 0 <= r <= 36524 /\ (r = 36524 -> c = 3)) by (unfold r; lia).
  set (q := r / 1461). assert (Hq : 0 <= q <= 24 /\ 0 <= r - 1461 * q < 1461) by (unfold q; dlia).
  set (r2 := r - 1461 * q) in *. set (y := Z.min 3 (r2 / 365)).
  assert (Hy : 0 <= y <= 3 /\ 0 <= r2 - 365 * y <= 365 /\ (r2 - 365 * y = 365 -> y = 3 /\ r2 = 1460)) by (unfold y; dlia).
  assert (H4 : (100 * c + 4 * q + y) / 4 = 25 * c + q) by dlia.
  assert (H100 : (100 * c + 4 * q + y) / 100 = c) by dlia.
  split; [lia|]. split; [lia|]. split; [rewrite H4, H100; lia|].
  intros Hd. destruct Hy as (_ & _ & Hy). destruct (Hy Hd) as [-> Hr2]. unfold is_leap.
  apply andb_true_iff. split; [apply Z.eqb_eq; dlia|]. apply orb_true_iff.
  destruct (Z.eq_dec ((100 * c + 4 * q + 3 + 1) mod 100) 0) as [H0|H0]; [right | left; apply negb_true_iff, Z.eqb_neq; lia].
  assert (q = 24) as -> by dlia. assert (r = 36524) by lia. assert (c = 3) as -> by tauto. reflexivity.
Qed.

Lemma is_leap_period y n : is_leap (y + n * 400) = is_leap y.
Proof.
  unfold is_leap. rewrite (Z.mod_add y n 400) by lia.
  replace (n * 400) with (n * 4 * 100) by lia. rewrite (Z.mod_add _ (n * 4) 100) by lia.
  replace (n * 4 * 100) with (n * 100 * 4) by lia. by rewrite Z.mod_add by lia.
Qed.

(** Every day has a date, and the date gives the day back. *)
Lemma civil_days z : let '(y, m, d) := civil_of z in
  days_of y m d = z /\ 1 <= m <= 12 /\ 1 <= d <= daysIn m y.
Proof.
  unfold civil_of. pose proof (year_of_spec ((z + 719468) mod 146097) ltac:(apply Z.mod_pos_bound; lia)) as H.
  destruct (year_of ((z + 719468) mod 146097)) as [yoe doy]. destruct H as (Hyoe & Hdoy & Hdoe & Hleap).
  set (n := (z + 719468) / 146097). assert (Hz : z = n * 146097 + (yoe * 365 + yoe / 4 - yoe / 100 + doy) - 719468).
  { unfold n. pose proof (Z.div_mod (z + 719468) 146097 ltac:(lia)). lia. }
  clearbody n. set (mp := (5 * doy + 2) / 153). assert (Hmp : 0 <= mp <= 11) by (unfold mp; dlia).
  assert (Hd : 1 <= doy - (153 * mp + 2) / 5 + 1 <= 31) by (unfold mp in *; dlia).
  assert (Hback : forall y m, (if m <=? 2 then y - 1 else y) = yoe + n * 400 -> (if m <=? 2 then m + 9 else m - 3) = mp ->
    days_of y m (doy - (153 * mp + 2) / 5 + 1) = z).
  { intros y m Ey Em. unfold days_of. rewrite Ey, Em.
    rewrite Z.mod_add, (Z.mod_small yoe) by lia. rewrite Z.div_add, (Z.div_small yoe) by lia. lia. }
  destruct (Z.ltb_spec mp 10).
  - rewrite (proj2 (Z.leb_gt (mp + 3) 2)) by lia. split; [apply Hback; rewrite (proj2 (Z.leb_gt (mp + 3) 2)) by lia; lia|].
    split; [lia|]. unfold daysIn. rewrite (proj2 (Z.eqb_neq (mp + 3) 2)) by lia.
    assert (mp = 0 \/ mp = 1 \/ mp = 2 \/ mp = 3 \/ mp = 4 \/ mp = 5 \/ mp = 6 \/ mp = 7 \/ mp = 8 \/ mp = 9) as Hc by lia.
    unfold mp in *. clear -Hc Hd Hdoy. repeat destruct Hc as [Hc|Hc]; rewrite Hc; simpl; dlia.
  - rewrite (proj2 (Z.leb_le (mp - 9) 2)) by lia. split; [apply Hback; rewrite (proj2 (Z.leb_le (mp - 9) 2)) by lia; lia|].
    split; [lia|]. unfold daysIn. assert (mp = 10 \/ mp = 11) as [Hc|Hc] by lia.
    + rewrite Hc. simpl. rewrite Hc in Hd. simpl in Hd. lia.
    + rewrite Hc. simpl Z.eqb. cbv iota. replace (yoe + n * 400 + 1) with (yoe + 1 + n * 400) by lia.
      rewrite is_leap_period. rewrite Hc in Hd. simpl in Hd. change ((153 * 11 + 2) / 5) with 337 in *.
      destruct (Z.eq_dec doy 365) as [E|E]; [rewrite Hleap by done; lia|]. destruct (is_leap _); lia.
Qed.

Lemma Date_clock_of t : Date (clock_of t) = t.
Proof.
  unfold Date, clock_of. pose proof (civil_days (t / 10 ^ 9 / 86400)) as H.
  destruct (civil_of (t / 10 ^ 9 / 86400)) as [[y m] d]. destruct H as (H & _). cbn. rewrite H. clear. dlia.
Qed.

Lemma getnum_pad v fixed s : 0 <= v < 100 -> getnum (pad_dec 2 v +:+ s) fixed = Some (v, s).
Proof.
  intros H. assert (Hall : forallb (fun n => bool_decide (pad_dec 2 (Z.of_nat n) =
    String (byte_of (48 + Z.of_nat n / 10)) (String (byte_of (48 + Z.of_nat n mod 10)) ""))) (seq 0 100) = true)
    by (vm_compute; reflexivity).
  rewrite forallb_forall in Hall. specialize (Hall (Z.to_nat v)). rewrite in_seq in Hall.
  specialize (Hall ltac:(lia)). apply bool_decide_eq_true in Hall. rewrite Z2Nat.id in Hall by lia.
  rewrite Hall. cbn [String.append getnum]. unfold digit_of, is_digit. rewrite !byteZ_of by dlia.
  rewrite !(proj2 (Z.leb_le _ _)) by dlia. cbn [andb]. do 2 f_equal. dlia.
Qed.

Lemma read_num_pad v fixed lo hi f s : 0 <= v < 100 -> lo <= v <= hi ->
  read_num (pad_dec 2 v +:+ s) fixed lo hi f = Some (f v, s).
Proof.
  intros H Hr. unfold read_num. rewrite getnum_pad by done. unfold in_range.
  by rewrite !(proj2 (Z.leb_le _ _)) by lia.
Qed.

Lemma lookup_same n s names : Forall (fun x => slen x = slen n) names -> forall i,
  lookup_name names i (n +:+ s) = option_map (fun p => (p.1, s)) (lookup_name names i n).
Proof.
  induction 1 as [|x names Hx _ IH]; intros i; [done|]. cbn [lookup_name]. rewrite Hx.
  rewrite !bool_decide_true by (rewrite ?slen_app; lia). rewrite stake_app, sdrop_app.
  pose proof (stake_app n "") as Hn. rewrite sapp_nil_r in Hn. rewrite Hn. cbn [andb].
  destruct (String.eqb (ToLower n) (ToLower x)); [done | apply IH].
Qed.

Lemma lookup_month m s : 1 <= m <= 12 -> lookup_name shortMonths 0 (nth_name shortMonths (m - 1) +:+ s) = Some (m - 1, s).
Proof.
  intros H. assert (m = 1 \/ m = 2 \/ m = 3 \/ m = 4 \/ m = 5 \/ m = 6 \/ m = 7 \/ m = 8 \/ m = 9 \/ m = 10 \/ m = 11 \/ m = 12) as Hc by lia.
  repeat destruct Hc as [->|Hc]; try subst m; (rewrite lookup_same; [reflexivity | by repeat constructor]).
Qed.

Lemma lookup_day d s : 0 <= d < 7 -> lookup_name shortDays 0 (nth_name shortDays d +:+ s) = Some (d, s).
Proof.
  intros H. assert (d = 0 \/ d = 1 \/ d = 2 \/ d = 3 \/ d = 4 \/ d = 5 \/ d = 6) as Hc by lia.
  repeat destruct Hc as [->|Hc]; try subst d; (rewrite lookup_same; [reflexivity | by repeat constructor]).
Qed.

(** What a text in the layout starts with reads back as the field it was written from. *)
Section year_text.
Context (y : Z) (s : string) (Hy : 0 <= y < 10000).

Lemma year_shape : exists p, year_text y = p /\ slen p = 4%nat /\ ParseUint p 10 63 = Some y.
Proof using Hy.
  exists (pad_dec 4 y). unfold year_text. rewrite (proj2 (Z.ltb_ge y 0)) by lia. split; [done|].
  split; [apply slen_pad_dec; lia | unfold pad_dec; apply ParseUint_pad; lia].
Qed.

Lemma year_num : ParseUint (stake 4 (year_text y +:+ s)) 10 63 = Some y.
Proof using Hy. destruct year_shape as (p & -> & Hl & Hp). rewrite <- Hl. by rewrite stake_app. Qed.

Lemma year_len : bool_decide (4 <= slen (year_text y +:+ s))%nat = true.
Proof using Hy. destruct year_shape as (p & -> & Hl & Hp). apply bool_decide_eq_true. rewrite slen_app. lia. Qed.

Lemma year_drop : sdrop 4 (year_text y +:+ s) = s.
Proof using Hy. destruct year_shape as (p & -> & Hl & Hp). rewrite <- Hl. by rewrite sdrop_app. Qed.
End year_text.

(** Numbers and names do not begin with a space. *)
Lemma cutspace_number p s v : ParseUint p 10 63 = Some v -> cutspace (p +:+ s) = p +:+ s.
Proof.
  destruct p as [|c p]; [done|]. intros H. cbn [String.append cutspace].
  destruct (Ascii.eqb_spec c " ") as [->|]; [done|]. done.
Qed.

Lemma cutspace_pad v s : 0 <= v < 100 -> cutspace (pad_dec 2 v +:+ s) = pad_dec 2 v +:+ s.
Proof. intros H. apply (cutspace_number _ _ v). unfold pad_dec. apply ParseUint_pad; lia. Qed.

Lemma cutspace_year y s : 0 <= y < 10000 -> cutspace (year_text y +:+ s) = year_text y +:+ s.
Proof. intros H. destruct (year_shape y H) as (p & -> & _ & Hp). by apply (cutspace_number _ _ y). Qed.

Lemma cutspace_month m s : 1 <= m <= 12 ->
  cutspace (nth_name shortMonths (m - 1) +:+ s) = nth_name shortMonths (m - 1) +:+ s.
Proof.
  intros H. assert (m = 1 \/ m = 2 \/ m = 3 \/ m = 4 \/ m = 5 \/ m = 6 \/ m = 7 \/ m = 8 \/ m = 9 \/ m = 10 \/ m = 11 \/ m = 12) as Hc by lia.
  repeat destruct Hc as [->|Hc]; try subst m; reflexivity.
Qed.

Definition years_ok (t : Z) : Prop := 0 <= k_year (clock_of t) < 10000.

Lemma clock_of_ranges t : let k := clock_of t in
  1 <= k_month k <= 12 /\ 1 <= k_day k <= daysIn (k_month k) (k_year k) /\ k_day k < 100 /\
  0 <= k_hour k <= 23 /\ 0 <= k_min k <= 59 /\ 0 <= k_sec k <= 59.
Proof.
  unfold clock_of. pose proof (civil_days (t / 10 ^ 9 / 86400)) as H.
  destruct (civil_of (t / 10 ^ 9 / 86400)) as [[y m] d]. destruct H as (_ & Hm & Hd). cbn.
  assert (daysIn m y <= 31). { unfold daysIn. destruct (m =? 2); [destruct (is_leap y); lia | destruct (_ || _); lia]. }
  split; [lia|]. split; [lia|]. split; [lia|]. dlia.
Qed.

Definition whole_second (k : clock) : clock :=
  mk_clock (k_year k) (k_month k) (k_day k) (k_hour k) (k_min k) (k_sec k) 0.

Lemma Date_whole k : Date (whole_second k) = Date k - k_nsec k.
Proof. unfold Date, whole_second. cbn [k_year k_month k_day k_hour k_min k_sec k_nsec]. lia. Qed.

Lemma clock_of_nsec t : k_nsec (clock_of t) = t mod 10 ^ 9.
Proof. unfold clock_of. by destruct (civil_of (t / 10 ^ 9 / 86400)) as [[? ?] ?]. Qed.

Lemma clock_of_whole t : Date (whole_second (clock_of t)) = TruncateSecond t.
Proof.
  rewrite Date_whole, Date_clock_of, clock_of_nsec. unfold TruncateSecond.
  pose proof (Z.div_mod t (10 ^ 9) ltac:(lia)). lia.
Qed.

(** Rewriting one field of a formatted time at a time. *)
Ltac read_fields :=
  repeat first
    [ rewrite cutspace_pad by lia
    | rewrite cutspace_month by lia
    | rewrite cutspace_year by done
    | rewrite year_num, year_len, year_drop by done
    | rewrite read_num_pad by lia
    | rewrite getnum_pad by lia
    | rewrite lookup_month by lia
    | rewrite lookup_day by (apply Z.mod_pos_bound; lia)
    | progress cbn [parse_elems parse_elem option_map skip_lit String.append Ascii.eqb Bool.eqb fst snd
        q_clock with_clock k_year k_month k_day k_hour k_min k_sec k_nsec parsed0 q_offset q_zone cutspace] ].

Ltac read_seconds :=
  unfold in_range; rewrite !(proj2 (Z.leb_le _ _)) by lia; cbn [andb fraction orb Ascii.eqb Bool.eqb]; read_fields.

(** A time written in the form signatures use is read back, to the second. *)
Lemma Parse_Format_amz local t : years_ok t -> Parse local amz_layout (Format amz_layout t) = Some (TruncateSecond t).
Proof.
  intros Hy. pose proof (clock_of_ranges t) as (Hm & Hd & Hd' & Hh & Hmi & Hs). unfold Parse, Format.
  cbn [foldr amz_layout format_elem parse_elems]. read_fields.
  read_seconds. cbn [String.eqb]. rewrite !(proj2 (Z.leb_le _ _)) by lia. by rewrite <- clock_of_whole.
Qed.

(** The same for the dates HTTP uses. *)
Lemma Parse_Format_http local t : years_ok t -> ParseTime local (Format TimeFormat t) = Some (TruncateSecond t).
Proof.
  intros Hy. pose proof (clock_of_ranges t) as (Hm & Hd & Hd' & Hh & Hmi & Hs). unfold ParseTime. cbn [first_parse].
  assert (H : Parse local TimeFormat (Format TimeFormat t) = Some (TruncateSecond t)); [|by rewrite H].
  unfold Parse, Format. cbn [foldr TimeFormat hms app format_elem]. unfold weekday_of.
  read_fields. read_seconds. cbn [String.eqb]. rewrite Z.sub_simpl_r, !(proj2 (Z.leb_le _ _)) by lia. by rewrite <- clock_of_whole.
Qed.
