(* ===== verification/Ec.v ===== *)
(** * Erasure codes: [internal/ec/ec.go]

    A chunk split into [Data] shards with [Parity] more computed from them. The
    Reed-Solomon arithmetic is the third-party [klauspost/reedsolomon] package, so
    it is a parameter here ([ReedSolomon]) with its documented behaviour as a class
    of laws ([ReedSolomonLaws]); a single-parity XOR code at the end of the file
    satisfies them. *)

From S2P Require Import Prelude GoStr Strconv.

Record Scheme := mk_Scheme { Data : Z; Parity : Z }.

#[global] Instance Scheme_eq_dec : EqDecision Scheme.
Proof. solve_decision. Defined.

(** The zero [Scheme], which means replication. *)
Definition zeroScheme : Scheme := mk_Scheme 0 0.

Definition Shards (s : Scheme) : Z := Data s + Parity s.

Definition Valid (s : Scheme) : bool :=
  (0 <? Data s) && (0 <? Parity s) && (Shards s <=? 256).

Definition Scheme_String (s : Scheme) : string := Itoa (Data s) +:+ "+" +:+ Itoa (Parity s).

(** ** The Reed-Solomon package

    A missing shard is [nil], hence [None]. [rs_New] is [reedsolomon.New], of which
    the code only uses whether it fails. [Encode] and [Reconstruct] work in place,
    so they return the updated slice. *)

Class ReedSolomon := {
  rs_New : Z -> Z -> res unit;
  rs_Split : Scheme -> bytes -> res (list bytes);
  rs_Encode : Scheme -> list bytes -> res (list bytes);
  rs_Reconstruct : Scheme -> list (option bytes) -> res (list (option bytes));
  rs_Join : Scheme -> list (option bytes) -> Z -> res bytes
}.

(** How big each shard is: the chunk split [Data] ways and rounded up. *)
Definition shard_len (s : Scheme) (n : Z) : Z := (n + Data s - 1) / Data s.

(** Some shards of a codeword are missing. *)
Definition erased (full : list bytes) (have : list (option bytes)) : Prop :=
  Forall2 (fun f h => h = None \/ h = Some f) full have.

Definition present (shards : list (option bytes)) : Z :=
  zlen (filter (fun s => is_Some s) shards).

(** What the package documents for one scheme: [Split] pads the data with zeros to
    equal shards and adds empty parity shards; [Encode] fills the parity and leaves
    the data; [Reconstruct] recovers a codeword from any [Data] of its shards; [Join]
    concatenates the data shards up to the size asked for. *)
Class ReedSolomonLaws (rs : ReedSolomon) (s : Scheme) := {
  rs_New_ok : rs_New (Data s) (Parity s) = Ok tt;
  rs_Split_ok : forall d, d <> [] -> exists shards,
    rs_Split s d = Ok shards /\ zlen shards = Shards s /\
    Forall (fun sh => zlen sh = shard_len s (zlen d)) shards /\
    exists pad, concat (takeZ (Data s) shards) = d ++ pad;
  rs_Split_empty : exists e, rs_Split s [] = Err e;
  rs_Encode_ok : forall d shards, rs_Split s d = Ok shards -> exists full,
    rs_Encode s shards = Ok full /\ zlen full = zlen shards /\
    takeZ (Data s) full = takeZ (Data s) shards /\
    Forall (fun sh => zlen sh = shard_len s (zlen d)) full;
  rs_Reconstruct_ok : forall d shards full have,
    rs_Split s d = Ok shards -> rs_Encode s shards = Ok full ->
    erased full have -> Data s <= present have ->
    rs_Reconstruct s have = Ok (map Some full);
  rs_Join_ok : forall full n,
    zlen full = Shards s -> 0 <= n <= zlen (concat (takeZ (Data s) full)) ->
    rs_Join s (map Some full) n = Ok (takeZ n (concat (takeZ (Data s) full)))
}.

(** ** The package's own functions *)

Section ec.
Context {rs : ReedSolomon}.

Definition encoder (s : Scheme) : res unit :=
  if Valid s then match rs_New (Data s) (Parity s) with Ok u => Ok u | Err e => Err e end
  else Err errors_New.

Definition Encode (s : Scheme) (chunk : bytes) : res (list bytes) :=
  _ ← encoder s;
  shards ← rs_Split s chunk;
  rs_Encode s shards.

(** [Reconstruct] also fills the caller's slice in, so the shards come back too. *)
Definition Reconstruct (s : Scheme) (shards : list (option bytes)) (size : Z)
    : res (bytes * list (option bytes)) :=
  if negb (zlen shards =? Shards s) then Err errors_New
  else if present shards <? Data s then Err [ErrTooFewShards]
  else
    _ ← encoder s;
    shards' ← (if present shards <? Shards s then rs_Reconstruct s shards else Ok shards);
    chunk ← rs_Join s shards' size;
    Ok (chunk, shards').
End ec.

(** ** What the package promises *)

Section ec_facts.
Context {rs : ReedSolomon} (s : Scheme) (Hvalid : Valid s = true) `{!ReedSolomonLaws rs s}.

Lemma encoder_ok : encoder s = Ok tt.
Proof. unfold encoder. by rewrite Hvalid, rs_New_ok. Qed.

Lemma Valid_pos : 0 < Data s /\ 0 < Parity s /\ Shards s <= 256.
Proof. unfold Valid in Hvalid. bool_facts. lia. Qed.

(** [Encode] succeeds on every chunk the splitter can hand it, with equal shards,
    the data ones holding the chunk and its padding. *)
Lemma Encode_ok chunk : chunk <> [] -> exists full,
  Encode s chunk = Ok full /\ zlen full = Shards s /\
  Forall (fun sh => zlen sh = shard_len s (zlen chunk)) full /\
  exists pad, concat (takeZ (Data s) full) = chunk ++ pad.
Proof.
  intros Hne. destruct (rs_Split_ok chunk Hne) as (shards & Hs & Hl & _ & pad & Hpad).
  destruct (rs_Encode_ok chunk shards Hs) as (full & He & Hfl & Htake & Hlen).
  exists full. unfold Encode. rewrite encoder_ok. simpl. rewrite Hs. simpl.
  split; [done|]. split; [lia|]. split; [done|]. exists pad. by rewrite Htake.
Qed.

Lemma Encode_empty : exists e, Encode s [] = Err e.
Proof.
  destruct rs_Split_empty as [e He]. exists e. unfold Encode.
  by rewrite encoder_ok; simpl; rewrite He.
Qed.

Lemma erased_length full have : erased full have -> zlen have = zlen full.
Proof. intros H%Forall2_length. unfold zlen. lia. Qed.

Lemma present_le shards : present shards <= zlen shards.
Proof. unfold present, zlen. pose proof (length_filter (fun x => is_Some x) shards). lia. Qed.

Lemma erased_complete full have :
  erased full have -> present have = zlen have -> have = map Some full.
Proof.
  unfold erased, present. induction 1 as [|f h full have [->| ->] HF IH]; [done| |].
  - rewrite filter_cons_False by (intros [? ?]; done). intros Hp.
    pose proof (length_filter (fun x => is_Some x) have). unfold zlen in *. simpl in Hp. lia.
  - rewrite filter_cons_True by eauto. rewrite !zlen_cons. intros Hp. simpl.
    rewrite IH; [done | lia].
Qed.

Lemma Reconstruct_Encode chunk full have :
  chunk <> [] -> Encode s chunk = Ok full -> erased full have -> Data s <= present have ->
  Reconstruct s have (zlen chunk) = Ok (chunk, map Some full).
Proof.
  intros Hne He Her Hp.
  destruct (Encode_ok chunk Hne) as (full' & He' & Hl & Hlen & pad & Hpad). rewrite He in He'. injection He' as <-.
  unfold Reconstruct. pose proof (erased_length _ _ Her) as Hhl.
  rewrite (proj2 (Z.eqb_eq (zlen have) (Shards s))) by lia. simpl.
  rewrite (proj2 (Z.ltb_ge _ _) Hp), encoder_ok. simpl.
  assert (Hrec : (if present have <? Shards s then rs_Reconstruct s have else Ok have)
                 = Ok (map Some full)).
  { destruct (Z.ltb_spec (present have) (Shards s)).
    - unfold Encode in He. rewrite encoder_ok in He. simpl in He.
      apply res_bind_Ok in He as (shards & Hs & He). eapply rs_Reconstruct_ok; eauto.
    - f_equal. apply erased_complete; [done|].
      pose proof (present_le have). pose proof (erased_length _ _ Her). lia. }
  rewrite Hrec. simpl. rewrite rs_Join_ok; [|done|].
  - simpl. rewrite Hpad. unfold takeZ, zlen. rewrite Nat2Z.id, take_app_length. done.
  - rewrite Hpad, zlen_app. pose proof (zlen_nonneg pad). pose proof (zlen_nonneg chunk). lia.
Qed.
End ec_facts.

(** Any [Data] or more of the shards [Encode] made from a chunk, in their
    slots, rebuild exactly that chunk (padding stripped) and every missing shard. *)
Theorem ec_roundtrip {rs : ReedSolomon} (s : Scheme) `{!ReedSolomonLaws rs s} (chunk : bytes) :
  Valid s = true -> chunk <> [] ->
  exists full, Encode s chunk = Ok full /\ zlen full = Shards s /\
    forall have, erased full have -> Data s <= present have ->
      Reconstruct s have (zlen chunk) = Ok (chunk, map Some full).
Proof.
  intros Hv Hne. destruct (Encode_ok s Hv chunk Hne) as (full & He & Hl & _).
  exists full. split; [done|]. split; [done|]. intros. eapply Reconstruct_Encode; eauto.
Qed.

(** [Reconstruct] refuses what it cannot decode, whatever the codec does: a
    wrong number of slots or an unusable scheme is an error, and fewer than [Data]
    shards in the right number of slots is [ErrTooFewShards] and no other. *)
Theorem ec_refusals {rs : ReedSolomon} (s : Scheme) (shards : list (option bytes)) (size : Z) :
  (zlen shards <> Shards s -> Reconstruct s shards size = Err errors_New) /\
  (zlen shards = Shards s -> present shards < Data s ->
     Reconstruct s shards size = Err [ErrTooFewShards]) /\
  (Valid s = false -> forall chunk, Encode s chunk = Err errors_New /\
     exists e, Reconstruct s shards size = Err e).
Proof.
  unfold Reconstruct. split_and!.
  - intros H%Z.eqb_neq. by rewrite H.
  - intros -> Hp. rewrite Z.eqb_refl. simpl. by rewrite (proj2 (Z.ltb_lt _ _) Hp).
  - intros Hv chunk. unfold Encode, encoder. rewrite Hv. split; [done|].
    repeat case_match; simpl; eauto.
Qed.

(** ** A codec that keeps the laws: one parity shard over two data shards *)

Definition xor_bytes (a b : bytes) : bytes :=
  zip_with (fun x y => byte_of (Z.lxor (byteZ x) (byteZ y))) a b.

Definition xor_shard (d : bytes) : nat := Z.to_nat ((zlen d + 1) / 2).
Definition xor_padded (d : bytes) : bytes := d ++ replicate (2 * xor_shard d - length d) Ascii.zero.

Definition xor_codec : ReedSolomon := {|
  rs_New d p := Ok tt;
  rs_Split _ d :=
    if decide (d = []) then Err errors_New
    else Ok [take (xor_shard d) (xor_padded d); drop (xor_shard d) (xor_padded d);
             replicate (xor_shard d) Ascii.zero];
  rs_Encode _ sh :=
    match sh with [a; b; _] => Ok [a; b; xor_bytes a b] | _ => Err errors_New end;
  rs_Reconstruct _ sh :=
    match sh with
    | [Some a; Some b; _] => Ok [Some a; Some b; Some (xor_bytes a b)]
    | [Some a; None; Some c] => Ok [Some a; Some (xor_bytes a c); Some c]
    | [None; Some b; Some c] => Ok [Some (xor_bytes b c); Some b; Some c]
    | _ => Err [ErrTooFewShards]
    end;
  rs_Join _ sh n :=
    match sh with
    | [Some a; Some b; _] => if n <=? zlen (a ++ b) then Ok (takeZ n (a ++ b)) else Err errors_New
    | _ => Err errors_New
    end
|}.

Definition twoOne : Scheme := mk_Scheme 2 1.

Lemma byteZ_lxor_range x y : 0 <= Z.lxor (byteZ x) (byteZ y) < 256.
Proof.
  pose proof (byteZ_range x). pose proof (byteZ_range y). split.
  - apply Z.lxor_nonneg. lia.
  - assert (Z.lxor (byteZ x) (byteZ y) = Z.lxor (byteZ x) (byteZ y) mod 2 ^ 8) as ->;
      [|apply Z.mod_pos_bound; lia].
    rewrite <- Z.land_ones by lia. apply Z.bits_inj'. intros n Hn.
    rewrite Z.land_spec, !Z.lxor_spec.
    destruct (Z.ltb_spec n 8); [by rewrite Z.ones_spec_low, andb_true_r by lia|].
    rewrite Z.ones_spec_high, andb_false_r by lia.
    rewrite <- (Z.mod_small (byteZ x) (2 ^ 8)), <- (Z.mod_small (byteZ y) (2 ^ 8)) by lia.
    by rewrite !Z.mod_pow2_bits_high by lia.
Qed.

Lemma xor_bytes_cancel a b : length a = length b -> xor_bytes a (xor_bytes a b) = b.
Proof.
  revert b. induction a as [|x a IH]; intros [|y b]; simpl; try done. intros [= H].
  rewrite IH by done. f_equal.
  rewrite byteZ_of by apply byteZ_lxor_range.
  by rewrite <- Z.lxor_assoc, Z.lxor_nilpotent, Z.lxor_0_l, byte_of_byteZ.
Qed.

Lemma xor_bytes_comm a b : xor_bytes a b = xor_bytes b a.
Proof.
  revert b. induction a as [|x a IH]; intros [|y b]; simpl; try done.
  by rewrite IH, Z.lxor_comm.
Qed.

Lemma xor_padded_length d : length (xor_padded d) = (2 * xor_shard d)%nat.
Proof.
  unfold xor_padded. rewrite length_app, length_replicate.
  assert (length d <= 2 * xor_shard d)%nat by (unfold xor_shard, zlen; dlia). lia.
Qed.

Lemma xor_shards_len d :
  length (take (xor_shard d) (xor_padded d)) = xor_shard d /\
  length (drop (xor_shard d) (xor_padded d)) = xor_shard d.
Proof. rewrite length_take, length_drop, xor_padded_length. lia. Qed.

Lemma xor_bytes_length a b : length a = length b -> length (xor_bytes a b) = length a.
Proof. intros. unfold xor_bytes. rewrite length_zip_with. lia. Qed.

Lemma shard_len_twoOne d : shard_len twoOne (zlen d) = Z.of_nat (xor_shard d).
Proof.
  unfold shard_len, twoOne, xor_shard. simpl. pose proof (zlen_nonneg d).
  replace (zlen d + 2 - 1) with (zlen d + 1) by lia. dlia.
Qed.

#[global] Instance xor_codec_laws : ReedSolomonLaws xor_codec twoOne.
Proof.
  constructor; simpl.
  - done.
  - intros d Hd. rewrite decide_False by done. eexists. split; [done|]. split; [done|].
    destruct (xor_shards_len d). rewrite shard_len_twoOne. split.
    + unfold zlen. repeat constructor; rewrite ?length_replicate; lia.
    + unfold takeZ. simpl. rewrite app_nil_r, take_drop. unfold xor_padded. eauto.
  - eauto.
  - intros d shards. case_decide; [done|]. intros [= <-].
    destruct (xor_shards_len d). rewrite shard_len_twoOne.
    eexists. split; [done|]. split; [done|]. split; [done|].
    unfold zlen. repeat constructor; rewrite ?xor_bytes_length; lia.
  - intros d shards full have. case_decide; [done|]. intros [= <-] [= <-].
    destruct (xor_shards_len d) as [Ha Hb].
    set (a := take _ _) in *. set (b := drop _ _) in *.
    unfold erased. intros Her Hp.
    repeat match goal with
    | H : Forall2 _ (_ :: _) _ |- _ => inversion H; clear H; subst
    | H : Forall2 _ [] _ |- _ => inversion H; clear H; subst
    | H : _ = None \/ _ = Some _ |- _ => destruct H; subst
    end; try (exfalso; vm_compute in Hp; by apply Hp); simpl; try done.
    + rewrite xor_bytes_cancel by lia. done.
    + rewrite (xor_bytes_comm a b), xor_bytes_cancel by lia. done.
  - intros full n Hl Hn. unfold Shards, twoOne in Hl. simpl in Hl.
    destruct full as [|a [|b [|c [|? ?]]]]; unfold zlen in Hl; simpl in Hl; try lia.
    change (takeZ (Data twoOne) [a; b; c]) with [a; b] in *.
    simpl in Hn |- *. rewrite app_nil_r in *.
    rewrite (proj2 (Z.leb_le _ _)) by lia. done.
Qed.

Lemma ec_roundtrip_witness :
  exists full, @Encode xor_codec twoOne (to_bytes "hello") = Ok full /\ zlen full = Shards twoOne /\
    forall have, erased full have -> Data twoOne <= present have ->
      @Reconstruct xor_codec twoOne have (zlen (to_bytes "hello"))
      = Ok (to_bytes "hello", map Some full).
Proof. apply (@ec_roundtrip xor_codec twoOne _ (to_bytes "hello")); [reflexivity | discriminate]. Defined.

Lemma ec_refusals_witness :
  @Reconstruct xor_codec twoOne [Some []; None; None] 5 = Err [ErrTooFewShards].
Proof.
  apply (proj1 (proj2 (@ec_refusals xor_codec twoOne [Some []; None; None] 5))); reflexivity.
Defined.
