(* ===== verification/Object.v ===== *)
(** * Splitting a stream into chunks and putting it back: [internal/object/object.go]

    An [io.Reader] is the bytes it will yield and how it ends, an [io.Writer] is
    what it has been given and how much more it will take. How [io.Copy] cuts a
    stream into segments is a parameter; the commit and fetch callbacks are
    functions on a caller's state. *)

From S2P Require Import Prelude GoStr Strconv Crc Ec.

Definition DefaultChunkSize : Z := Z.shiftl 32 20.
Definition smallObject : Z := Z.shiftl 1 20.

Record ChunkRef := mk_ChunkRef {
  c_ID : string;
  c_Size : Z;
  c_CRC : Z;
  c_Shards : list Z
}.

#[global] Instance ChunkRef_eq_dec : EqDecision ChunkRef.
Proof. solve_decision. Defined.

(** [fmt.Sprintf("%ss%02d", c.ID, i)] for a shard index, which is never negative. *)
Definition ShardID (c : ChunkRef) (i : Z) : string := c_ID c +:+ "s" +:+ pad_dec 2 i.

Definition indexWidth : nat := 6.

Definition WriteID (chunkID : string) : string :=
  if bool_decide (slen chunkID <= indexWidth)%nat then ""
  else stake (slen chunkID - indexWidth) chunkID.

Record Part := mk_Part {
  p_Number : Z;
  p_Size : Z;
  p_CRC32C : option Z;
  p_CRC32 : option Z;
  p_CRC64NVME : option Z
}.

#[global] Instance Part_eq_dec : EqDecision Part.
Proof. solve_decision. Defined.

(** [Modified] is a [time.Time], as nanoseconds since the epoch. *)
Record Manifest := mk_Manifest {
  m_Size : Z;
  m_ETag : string;
  m_ContentType : string;
  m_Modified : Z;
  m_Meta : gmap string string;
  m_Nodes : list string;
  m_Chunks : list ChunkRef;
  m_Coding : Scheme;
  m_CRC32C : option Z;
  m_CRC32 : option Z;
  m_CRC64NVME : option Z;
  m_Parts : list Part
}.

#[global] Instance Manifest_eq_dec : EqDecision Manifest.
Proof. solve_decision. Defined.

(** The zero [Manifest]. *)
Definition zeroManifest : Manifest :=
  mk_Manifest 0 "" "" 0 ∅ [] [] zeroScheme None None None [].

Definition with_chunks (m : Manifest) (size : Z) (chunks : list ChunkRef) : Manifest :=
  mk_Manifest size (m_ETag m) (m_ContentType m) (m_Modified m) (m_Meta m) (m_Nodes m) chunks
    (m_Coding m) (m_CRC32C m) (m_CRC32 m) (m_CRC64NVME m) (m_Parts m).

(** ** Readers

    [rd_end] is what a read returns once the bytes are gone: [io.EOF] itself
    ([None]) or another error, which may wrap [io.EOF]. *)
Record reader := mk_reader { rd_data : bytes; rd_end : option error }.

Definition io_ReadFull (r : reader) (n : Z) : bytes * option error * reader :=
  if n <=? zlen (rd_data r)
  then (takeZ n (rd_data r), None, mk_reader (dropZ n (rd_data r)) (rd_end r))
  else (rd_data r,
        Some (match rd_end r with
              | Some e => e
              | None => if decide (rd_data r = []) then [EOF] else [ErrUnexpectedEOF]
              end),
        mk_reader [] (rd_end r)).

Definition readOrEnd (r : reader) (n : Z) : bytes * option error * reader :=
  let '(d, err, r') := io_ReadFull r n in
  match err with
  | Some e => (d, if errors_Is e EOF || errors_Is e ErrUnexpectedEOF then None else Some e, r')
  | None => (d, None, r')
  end.

(** [readChunk r b chunkSize] with a buffer of [b] bytes: what was read (the filled
    front of the buffer), the length of the buffer to go on with, the error. *)
Definition readChunk (r : reader) (b chunkSize : Z) : bytes * Z * option error * reader :=
  let '(d, err, r1) := readOrEnd r b in
  if bool_decide (is_Some err) || (zlen d <? b) || (b =? chunkSize) then (d, b, err, r1)
  else
    let '(probe, err, r2) := readOrEnd r1 1 in
    if bool_decide (is_Some err) || (zlen probe =? 0) then (d, b, err, r2)
    else
      let '(rest, err, r3) := readOrEnd r2 (chunkSize - (zlen d + 1)) in
      (d ++ probe ++ rest, chunkSize, err, r3).

(** ** Writing *)

Definition chunk_ref (prefix : string) (i : Z) (data : bytes) : ChunkRef :=
  mk_ChunkRef (prefix +:+ pad_dec indexWidth i) (zlen data) (crc32c data) [].

Section write.
Context {St : Type} (prefix : string) (chunkSize : Z)
  (commit : ChunkRef -> bytes -> St -> res ChunkRef * St).

(** The loop of [Write]; [fuel] bounds its turns, of which there is at most one more
    than there are bytes. *)
Fixpoint write_loop (fuel : nat) (i b : Z) (r : reader) (m : Manifest) (σ : St)
    : option (res Manifest * St) :=
  match fuel with
  | O => None
  | S fuel' =>
      match readChunk r b chunkSize with
      | (_, _, Some e, _) => Some (Err e, σ)
      | (d, b', None, r') =>
          if zlen d =? 0 then Some (Ok m, σ)
          else match commit (chunk_ref prefix i d) d σ with
               | (Err e, σ') => Some (Err e, σ')
               | (Ok ref, σ') =>
                   write_loop fuel' (i + 1) b' r'
                     (with_chunks m (m_Size m + c_Size ref) (m_Chunks m ++ [ref])) σ'
               end
      end
  end.

Definition Write (r : reader) (expect : Z) (σ : St) : option (res Manifest * St) :=
  if chunkSize <=? 0 then Some (Err errors_New, σ)
  else
    let start := if 0 <? expect then Z.min chunkSize expect else Z.min chunkSize smallObject in
    write_loop (S (length (rd_data r))) 0 start r zeroManifest σ.
End write.

(** ** Writers and the held-back byte *)

(** [wr_room]: how many more bytes the destination accepts before it fails; [None]
    for one that never does. *)
Record writer := mk_writer { wr_out : bytes; wr_room : option nat }.

Definition w_write (w : writer) (p : bytes) : option error * writer :=
  match wr_room w with
  | None => (None, mk_writer (wr_out w ++ p) None)
  | Some k => if bool_decide (length p <= k)%nat
              then (None, mk_writer (wr_out w ++ p) (Some (k - length p)%nat))
              else (Some errors_New, mk_writer (wr_out w ++ take k p) (Some 0%nat))
  end.

Record heldBack := mk_heldBack { h_w : writer; h_last : option byte }.

Definition heldBack_release (h : heldBack) : option error * heldBack :=
  match h_last h with
  | None => (None, h)
  | Some c => let '(err, w) := w_write (h_w h) [c] in (err, mk_heldBack w None)
  end.

Definition heldBack_Write (h : heldBack) (p : bytes) : Z * option error * heldBack :=
  match List.rev p with
  | [] => (0, None, h)
  | c :: front =>
      match heldBack_release h with
      | (Some e, h') => (0, Some e, h')
      | (None, h') =>
          match (if 1 <? zlen p then w_write (h_w h') (List.rev front) else (None, h_w h')) with
          | (Some e, w') => (0, Some e, mk_heldBack w' None)
          | (None, w') => (zlen p, None, mk_heldBack w' (Some c))
          end
      end
  end.

(** ** Reading *)

Section read.
Context {St : Type} (seg : bytes -> list bytes) (fetch : ChunkRef -> St -> res reader * St).

(** The loop of [io.Copy] into a [heldBack], a segment at a time. *)
Fixpoint copy_segments (segs : list bytes) (h : heldBack) (written : Z)
    : Z * option error * heldBack :=
  match segs with
  | [] => (written, None, h)
  | p :: segs' =>
      match heldBack_Write h p with
      | (n, Some e, h') => (written + n, Some e, h')
      | (n, None, h') => copy_segments segs' h' (written + n)
      end
  end.

(** [io.CopyN(held, rc, n)]; it also consumes from [rc]. *)
Definition copyN_held (h : heldBack) (rc : reader) (n : Z) : Z * option error * heldBack * reader :=
  let d := takeZ n (rd_data rc) in
  let '(written, err, h') := copy_segments (seg d) h 0 in
  let rc' := mk_reader (dropZ n (rd_data rc)) (rd_end rc) in
  match err with
  | Some e => (written, Some e, h', rc')
  | None => (written,
             (if zlen (rd_data rc) <? n
              then Some (match rd_end rc with None => [EOF] | Some e => e end) else None),
             h', rc')
  end.

(** [io.CopyN(io.Discard, rc, n)] and [io.Copy(io.Discard, rc)]. *)
Definition discardN (rc : reader) (n : Z) : option error * reader :=
  (if zlen (rd_data rc) <? n
   then Some (match rd_end rc with None => [EOF] | Some e => e end) else None,
   mk_reader (dropZ n (rd_data rc)) (rd_end rc)).
Definition drain (rc : reader) : option error := rd_end rc.

Definition readWindow (w : writer) (rc : reader) (skip take : Z) : Z * option error * writer :=
  match discardN rc skip with
  | (Some e, _) => (0, Some e, w)
  | (None, rc1) =>
      let '(n, err, h, rc2) := copyN_held (mk_heldBack w None) rc1 take in
      match err with
      | Some e => (n, Some e, h_w h)
      | None => match drain rc2 with
                | Some e => (n, Some e, h_w h)
                | None => let '(err, h') := heldBack_release h in (n, err, h_w h')
                end
      end
  end.

Fixpoint range_loop (off endp length_ : Z) (cs : list ChunkRef) (at_ total : Z) (w : writer) (σ : St)
    : option error * writer * St :=
  match cs with
  | [] => (if negb (total =? length_) then Some errors_New else None, w, σ)
  | c :: cs' =>
      let next := wrap_int64 (at_ + c_Size c) in
      if (next <=? off) || (endp <=? at_) then range_loop off endp length_ cs' next total w σ
      else match fetch c σ with
           | (Err e, σ') => (Some e, w, σ')
           | (Ok rc, σ') =>
               let skip := Z.max (off - at_) 0 in
               let '(n, err, w') := readWindow w rc skip (Z.min next endp - (at_ + skip)) in
               match err with
               | Some e => (Some e, w', σ')
               | None => range_loop off endp length_ cs' next (total + n) w' σ'
               end
           end
  end.

Definition ReadRange (m : Manifest) (w : writer) (off length_ : Z) (σ : St)
    : option error * writer * St :=
  if (off <? 0) || (length_ <? 0) || (m_Size m <? wrap_int64 (off + length_))
  then (Some errors_New, w, σ)
  else range_loop off (wrap_int64 (off + length_)) length_ (m_Chunks m) 0 0 w σ.

Definition Read (m : Manifest) (w : writer) (σ : St) : option error * writer * St :=
  ReadRange m w 0 (m_Size m) σ.
End read.

(** ** Writing refines plain chunking

    [write_spec] is the same thing without the buffer that grows, the probe for one
    more byte or the caller's guess at the length: cut [chunkSize] bytes at a time,
    commit each, and at the end commit what is left unless the source failed. *)

(** A source that ended as [readOrEnd] sees it: no error, or one that wraps an EOF. *)
Definition source_ended (e : option error) : bool :=
  match e with None => true | Some e => errors_Is e EOF || errors_Is e ErrUnexpectedEOF end.

(** The error a source that did not end that way hands back. *)
Definition source_error (e : option error) : error :=
  match e with None => [] | Some e => e end.

Section write_spec.
Context {St : Type} (prefix : string) (chunkSize : Z)
  (commit : ChunkRef -> bytes -> St -> res ChunkRef * St).

Fixpoint write_spec (fuel : nat) (i : Z) (data : bytes) (end_ : option error) (m : Manifest) (σ : St)
    : option (res Manifest * St) :=
  let commit_then d k :=
    match commit (chunk_ref prefix i d) d σ with
    | (Err e, σ') => Some (Err e, σ')
    | (Ok ref, σ') => k (with_chunks m (m_Size m + c_Size ref) (m_Chunks m ++ [ref])) σ'
    end in
  match fuel with
  | O => None
  | S fuel' =>
      if chunkSize <=? zlen data
      then commit_then (takeZ chunkSize data) (write_spec fuel' (i + 1) (dropZ chunkSize data) end_)
      else if negb (source_ended end_) then Some (Err (source_error end_), σ)
      else if decide (data = []) then Some (Ok m, σ)
      else commit_then data (fun m' σ' => Some (Ok m', σ'))
  end.
End write_spec.

Lemma readOrEnd_full r n : n <= zlen (rd_data r) ->
  readOrEnd r n = (takeZ n (rd_data r), None, mk_reader (dropZ n (rd_data r)) (rd_end r)).
Proof. intros H. unfold readOrEnd, io_ReadFull. by rewrite (proj2 (Z.leb_le _ _) H). Qed.

Lemma readOrEnd_short r n : zlen (rd_data r) < n ->
  readOrEnd r n = (rd_data r,
    (if source_ended (rd_end r) then None else Some (source_error (rd_end r))),
    mk_reader [] (rd_end r)).
Proof.
  intros H. unfold readOrEnd, io_ReadFull. rewrite (proj2 (Z.leb_gt _ _) H).
  destruct (rd_end r) as [e|]; simpl; [done|]. by case_decide.
Qed.

(** One turn of [readChunk] does not depend on the buffer it is given. *)
Lemma readChunk_spec r b cs : 0 < b <= cs -> exists b', 0 < b' <= cs /\
  readChunk r b cs =
    if cs <=? zlen (rd_data r)
    then (takeZ cs (rd_data r), b', None, mk_reader (dropZ cs (rd_data r)) (rd_end r))
    else (rd_data r, b',
          (if source_ended (rd_end r) then None else Some (source_error (rd_end r))),
          mk_reader [] (rd_end r)).
Proof.
  intros Hb. unfold readChunk. destruct r as [d e]; simpl.
  destruct (Z_lt_le_dec (zlen d) b) as [Hs|Hf].
  { exists b. split; [lia|]. rewrite readOrEnd_short by done. simpl.
    rewrite (proj2 (Z.leb_gt _ _)) by lia. rewrite (proj2 (Z.ltb_lt _ _) Hs), orb_true_r. done. }
  rewrite readOrEnd_full by done. simpl. rewrite zlen_takeZ, (proj2 (Z.ltb_ge _ _)) by lia. simpl.
  destruct (Z.eqb_spec b cs) as [->|Hne].
  { exists cs. split; [lia|]. by rewrite (proj2 (Z.leb_le _ _)) by lia. }
  pose proof (zlen_dropZ b d ltac:(lia)) as Hdl.
  destruct (Z_lt_le_dec (zlen (dropZ b d)) 1) as [Hs1|Hf1].
  { exists b. split; [lia|]. rewrite readOrEnd_short by done. simpl.
    rewrite (proj2 (Z.leb_gt _ _)) by lia.
    rewrite (takeZ_all b d) by lia. rewrite (dropZ_all b d) by lia. rewrite orb_true_r. done. }
  rewrite readOrEnd_full by done. simpl. rewrite zlen_takeZ by lia.
  rewrite (proj2 (Z.eqb_neq _ _)) by lia. simpl. exists cs. split; [lia|].
  rewrite dropZ_dropZ by lia. pose proof (zlen_dropZ (b + 1) d ltac:(lia)) as Hdl2.
  rewrite (Z.min_l b) by lia.
  assert (Hjoin : forall n, b + 1 <= n -> takeZ b d ++ takeZ 1 (dropZ b d) ++ takeZ (n - (b + 1)) (dropZ (b + 1) d)
                  = takeZ n d).
  { intros n Hn. rewrite app_assoc, takeZ_join, takeZ_join by lia. f_equal. lia. }
  destruct (Z.leb_spec cs (zlen d)).
  - rewrite readOrEnd_full by (simpl; lia). simpl. rewrite Hjoin, dropZ_dropZ by lia.
    by replace (b + 1 + (cs - (b + 1))) with cs by lia.
  - rewrite readOrEnd_short by (simpl; lia). simpl.
    specialize (Hjoin cs ltac:(lia)). rewrite (takeZ_all cs d), (takeZ_all (cs - (b + 1))) in Hjoin by lia.
    by rewrite Hjoin.
Qed.

Section write_facts.
Context {St : Type} (prefix : string) (chunkSize : Z) (Hcs : 0 < chunkSize)
  (commit : ChunkRef -> bytes -> St -> res ChunkRef * St).

Lemma dropZ_shorter (d : bytes) fuel :
  chunkSize <= zlen d -> (length d < S fuel)%nat -> (length (dropZ chunkSize d) < fuel)%nat.
Proof. intros. unfold dropZ, zlen in *. rewrite length_drop. lia. Qed.

Lemma write_loop_spec fuel : forall i b d e m σ,
  0 < b <= chunkSize -> (length d < fuel)%nat ->
  write_loop prefix chunkSize commit fuel i b (mk_reader d e) m σ
  = write_spec prefix chunkSize commit fuel i d e m σ.
Proof.
  induction fuel as [|fuel IH]; intros i b d e m σ Hb Hf; [lia|]. simpl.
  destruct (readChunk_spec (mk_reader d e) b chunkSize Hb) as (b' & Hb' & ->). simpl.
  destruct (Z.leb_spec chunkSize (zlen d)).
  - rewrite zlen_takeZ, (proj2 (Z.eqb_neq _ _)) by lia.
    destruct (commit _ _ σ) as [[ref|e'] σ']; [|done].
    rewrite IH; [done | done | by apply dropZ_shorter].
  - destruct (source_ended e) eqn:He; simpl; [|done].
    destruct d as [|c d]; simpl; [done|].
    destruct (commit _ _ σ) as [[ref|e'] σ']; [|done]. rewrite IH; [|done|simpl in *; lia].
    destruct fuel as [|fuel]; [simpl in Hf; lia|]. simpl.
    rewrite (proj2 (Z.leb_gt _ _)) by (rewrite ?zlen_nil; lia). by rewrite He.
Qed.

Lemma write_spec_total fuel : forall i d e m σ,
  (length d < fuel)%nat -> exists out, write_spec prefix chunkSize commit fuel i d e m σ = Some out.
Proof.
  induction fuel as [|fuel IH]; intros i d e m σ Hf; [lia|]. simpl.
  destruct (Z.leb_spec chunkSize (zlen d)).
  - destruct (commit _ _ σ) as [[ref|e'] σ']; [|eauto]. by apply IH, dropZ_shorter.
  - repeat case_match; eauto.
Qed.

Lemma Write_spec_eq r expect σ :
  Write prefix chunkSize commit r expect σ
  = write_spec prefix chunkSize commit (S (length (rd_data r))) 0 (rd_data r) (rd_end r) zeroManifest σ.
Proof.
  unfold Write. rewrite (proj2 (Z.leb_gt _ _)) by lia. destruct r as [d e]. apply write_loop_spec; [|simpl; lia].
  unfold smallObject. rewrite Z.shiftl_mul_pow2 by lia. zbool.
Qed.

(** A source that fails is never taken for one that ended. *)
Lemma write_spec_source_error fuel : forall i d e m σ out σ',
  source_ended e = false ->
  write_spec prefix chunkSize commit fuel i d e m σ = Some (out, σ') -> is_ok out = false.
Proof.
  induction fuel as [|fuel IH]; intros i d e m σ out σ' He; simpl; [done|].
  destruct (chunkSize <=? zlen d).
  - destruct (commit _ _ σ) as [[ref|e'] σ1]; [eauto | intros [= <- <-]; done].
  - rewrite He. simpl. intros [= <- <-]. done.
Qed.

(** What every commit keeps, whether the write succeeds or not: [I i] before the chunk
    of index [i], [J] whenever the write stops. *)
Lemma write_spec_invariant (I : Z -> St -> Prop) (J : St -> Prop) :
  (forall i σ, I i σ -> J σ) ->
  (forall i d σ out σ', I i σ -> commit (chunk_ref prefix i d) d σ = (out, σ') ->
     J σ' /\ (is_ok out = true -> zlen d = chunkSize -> I (i + 1) σ')) ->
  forall fuel i d e m σ out σ', I i σ ->
  write_spec prefix chunkSize commit fuel i d e m σ = Some (out, σ') -> J σ'.
Proof.
  intros HIJ Hc fuel. induction fuel as [|fuel IH]; intros i d e m σ out σ' HI; simpl; [done|].
  destruct (Z.leb_spec chunkSize (zlen d)) as [Hle|].
  - destruct (commit _ _ σ) as [[ref|e'] σ1] eqn:Hcm; apply Hc in Hcm as [HJ HI1]; try done.
    + apply IH, HI1; [done|]. rewrite zlen_takeZ by lia. lia.
    + by intros [= <- <-].
  - destruct (negb (source_ended e)); [intros [= <- <-]; eauto|].
    case_decide; [intros [= <- <-]; eauto|].
    destruct (commit _ _ σ) as [[ref|e'] σ1] eqn:Hcm; apply Hc in Hcm as [HJ _]; try done;
      by intros [= <- <-].
Qed.

(** What a successful write committed, in order. *)
Inductive committed : Z -> list (ChunkRef * bytes) -> St -> St -> Prop :=
  | committed_nil i σ : committed i [] σ σ
  | committed_cons i ref d l σ σ1 σ2 :
      commit (chunk_ref prefix i d) d σ = (Ok ref, σ1) ->
      committed (i + 1) l σ1 σ2 -> committed i ((ref, d) :: l) σ σ2.

(** The pieces are full but for the last, and none is empty. *)
Definition pieces_ok (ps : list bytes) : Prop :=
  (forall p, p ∈ ps -> 0 < zlen p <= chunkSize) /\
  (forall i p, ps !! i = Some p -> (S i < length ps)%nat -> zlen p = chunkSize).

Lemma pieces_ok_cons p ps :
  zlen p = chunkSize -> pieces_ok ps -> pieces_ok (p :: ps).
Proof.
  intros Hp [H1 H2]. split.
  - intros q [->|Hq]%elem_of_cons; [lia | auto].
  - intros [|i] q Hq Hl; simpl in *; [by simplify_eq|]. apply (H2 i); [done | lia].
Qed.

Lemma pieces_ok_inv p ps :
  pieces_ok (p :: ps) -> pieces_ok ps /\ (ps <> [] -> zlen p = chunkSize).
Proof.
  intros [H1 H2]. split; [split|].
  - intros q Hq. apply H1. by constructor.
  - intros i q Hq Hl. apply (H2 (S i)); [done | simpl; lia].
  - intros Hne. apply (H2 0%nat); [done|]. destruct ps; [done | simpl; lia].
Qed.

Lemma write_spec_committed fuel : forall i d e m σ m' σ',
  write_spec prefix chunkSize commit fuel i d e m σ = Some (Ok m', σ') ->
  exists l, committed i l σ σ' /\ concat (map snd l) = d /\ pieces_ok (map snd l) /\
    m' = with_chunks m (m_Size m + foldr (fun r acc => c_Size r + acc) 0 (map fst l))
           (m_Chunks m ++ map fst l).
Proof.
  induction fuel as [|fuel IH]; intros i d e m σ m' σ'; simpl; [done|].
  destruct (Z.leb_spec chunkSize (zlen d)) as [Hle|Hgt].
  - destruct (commit _ _ σ) as [[ref|e'] σ1] eqn:Hc; [|done]. intros H.
    apply IH in H as (l & Hl & Hd & Hok & ->). exists ((ref, takeZ chunkSize d) :: l).
    split_and!; [by econstructor| | |].
    + simpl. rewrite Hd. apply takeZ_dropZ.
    + simpl. apply pieces_ok_cons; [rewrite zlen_takeZ by lia; lia | done].
    + unfold with_chunks. simpl. rewrite <- app_assoc. simpl. f_equal. lia.
  - destruct (source_ended e); simpl; [|done]. case_decide as Hd.
    + intros [= <- <-]. exists []. subst. split_and!; [constructor|done| |].
      * split; [intros ? []%elem_of_nil | done].
      * unfold with_chunks. simpl. rewrite Z.add_0_r, app_nil_r. by destruct m.
    + destruct (commit _ _ σ) as [[ref|e'] σ1] eqn:Hc; [|done]. intros [= <- <-].
      exists [(ref, d)]. split_and!.
      * econstructor; [done | constructor].
      * simpl. apply app_nil_r.
      * split; [|intros [|[|j]] q ? ?; simpl in *; (lia || done)].
        intros q ->%list_elem_of_singleton. destruct d; [done|]. rewrite zlen_cons in *.
        pose proof (zlen_nonneg d). simpl. rewrite zlen_cons. lia.
      * simpl. f_equal. lia.
Qed.
End write_facts.

(** ** Reading: what reaches the destination *)

Lemma w_write_ok w p w' : w_write w p = (None, w') -> wr_out w' = wr_out w ++ p.
Proof. unfold w_write. repeat case_match; intros; simplify_eq; done. Qed.

(** A failed write passed on strictly less than it was given. *)
Lemma w_write_err w p w' e : w_write w p = (Some e, w') ->
  exists q r, p = q ++ r /\ r <> [] /\ wr_out w' = wr_out w ++ q.
Proof.
  unfold w_write. destruct (wr_room w) as [k|]; [|done].
  case_bool_decide as Hlt; [done|]. intros [= <- <-].
  exists (take k p), (drop k p). rewrite take_drop. split; [done|]. split; [|done].
  intros H. assert (Hz : length (drop k p) = 0%nat) by by rewrite H.
  rewrite length_drop in Hz. lia.
Qed.

Lemma w_write_unlimited out p :
  w_write (mk_writer out None) p = (None, mk_writer (out ++ p) None).
Proof. done. Qed.

(** Everything a [heldBack] was given: what it passed on and the byte it keeps. *)
Definition h_given (h : heldBack) : bytes := wr_out (h_w h) ++ option_list (h_last h).

Lemma release_ok h h' : heldBack_release h = (None, h') ->
  wr_out (h_w h') = h_given h /\ h_last h' = None.
Proof.
  unfold heldBack_release, h_given. destruct (h_last h) as [c|] eqn:Hl; simpl.
  - destruct (w_write _ _) as [err w] eqn:Hw. intros [= -> <-]. by apply w_write_ok in Hw.
  - intros [= <-]. by rewrite app_nil_r.
Qed.

Lemma release_err h h' e : heldBack_release h = (Some e, h') ->
  exists r, r <> [] /\ h_given h = wr_out (h_w h') ++ r.
Proof.
  unfold heldBack_release, h_given. destruct (h_last h) as [c|] eqn:Hl; simpl; [|done].
  destruct (w_write _ _) as [err w] eqn:Hw. intros [= -> <-].
  apply w_write_err in Hw as (q & r & Hp & Hr & Ho). simpl. exists r. split; [done|].
  by rewrite Ho, <- app_assoc, <- Hp.
Qed.

Lemma heldBack_Write_ok h p n h' : heldBack_Write h p = (n, None, h') ->
  h_given h' = h_given h ++ p /\ n = zlen p /\ (h_last h' = None -> h_last h = None /\ p = []).
Proof.
  unfold heldBack_Write. destruct p as [|c p _] using rev_ind; simpl.
  { intros [= <- <-]. by rewrite app_nil_r. }
  rewrite rev_app_distr. simpl. rewrite rev_involutive.
  destruct (heldBack_release h) as [[e|] h1] eqn:Hr; [done|]. apply release_ok in Hr as [Ho Hl].
  destruct (Z.ltb_spec 1 (zlen (p ++ [c]))) as [Hlt|Hge].
  - destruct (w_write (h_w h1) p) as [[e|] w'] eqn:Hw; [done|]. intros [= <- <-].
    apply w_write_ok in Hw. unfold h_given in *. simpl. by rewrite Hw, Ho, !app_assoc.
  - assert (p = []) as ->.
    { apply zlen_zero_nil. rewrite zlen_app in Hge. pose proof (zlen_nonneg p).
      change (zlen [c]) with 1 in Hge. lia. }
    intros [= <- <-]. unfold h_given in *. simpl. by rewrite Ho.
Qed.

Lemma heldBack_Write_err h p n h' e : heldBack_Write h p = (n, Some e, h') ->
  exists r, r <> [] /\ h_given h ++ p = wr_out (h_w h') ++ r.
Proof.
  unfold heldBack_Write. destruct p as [|c p _] using rev_ind; simpl; [done|].
  rewrite rev_app_distr. simpl. rewrite rev_involutive.
  destruct (heldBack_release h) as [[e1|] h1] eqn:Hr.
  - intros [= <- <- <-]. apply release_err in Hr as (r & Hne & ->).
    exists (r ++ p ++ [c]). split; [by destruct r | by rewrite <- app_assoc].
  - apply release_ok in Hr as [Ho Hl]. destruct (1 <? _).
    + destruct (w_write (h_w h1) p) as [[e1|] w'] eqn:Hw; [|done]. intros [= <- <- <-].
      apply w_write_err in Hw as (q & r & -> & Hne & Hw). exists (r ++ [c]). split; [by destruct r|].
      simpl. by rewrite Hw, Ho, <- !app_assoc.
    + done.
Qed.

Lemma copy_segments_ok segs : forall h n0 n h', copy_segments segs h n0 = (n, None, h') ->
  h_given h' = h_given h ++ concat segs /\ n = n0 + zlen (concat segs) /\
  (h_last h' = None -> h_last h = None /\ concat segs = []).
Proof.
  induction segs as [|p segs IH]; intros h n0 n h'; simpl.
  - intros [= <- <-]. rewrite app_nil_r, zlen_nil. split; [done|]. split; [lia | done].
  - destruct (heldBack_Write h p) as [[n1 [e|]] h1] eqn:Hp; [done|].
    apply heldBack_Write_ok in Hp as (Hg & -> & Hl). intros H. apply IH in H as (Hg' & -> & Hl').
    rewrite Hg', Hg, zlen_app, app_assoc. split; [done|]. split; [lia|].
    intros H. destruct (Hl' H) as [H1 ->]. destruct (Hl H1) as [? ->]. done.
Qed.

Lemma copy_segments_err segs : forall h n0 n h' e, copy_segments segs h n0 = (n, Some e, h') ->
  exists r, r <> [] /\ h_given h ++ concat segs = wr_out (h_w h') ++ r.
Proof.
  induction segs as [|p segs IH]; intros h n0 n h' e; simpl; [done|].
  destruct (heldBack_Write h p) as [[n1 [e1|]] h1] eqn:Hp.
  - intros [= <- <- <-]. apply heldBack_Write_err in Hp as (r & Hne & Hg).
    exists (r ++ concat segs). split; [by destruct r|]. by rewrite !app_assoc, Hg.
  - apply heldBack_Write_ok in Hp as (Hg & -> & Hl). intros H. apply IH in H as (r & Hne & H).
    exists r. split; [done|]. by rewrite <- H, Hg, app_assoc.
Qed.

Section read_facts.
Context {St : Type} (seg : bytes -> list bytes) (Hseg : forall d, concat (seg d) = d)
  (fetch : ChunkRef -> St -> res reader * St).

Lemma zlen_shorter (a b r : bytes) : r <> [] -> a ++ r = b -> zlen a < zlen b.
Proof.
  intros Hr <-. rewrite zlen_app. destruct r; [done|]. rewrite zlen_cons.
  pose proof (zlen_nonneg r). lia.
Qed.

(** A window that is delivered is delivered whole, from a reader that ended well. *)
Lemma readWindow_ok w rc skip take_ n w' :
  0 <= skip -> 0 <= take_ -> readWindow seg w rc skip take_ = (n, None, w') ->
  n = take_ /\ wr_out w' = wr_out w ++ takeZ take_ (dropZ skip (rd_data rc)) /\
  skip + take_ <= zlen (rd_data rc) /\ rd_end rc = None.
Proof.
  intros Hs Ht. unfold readWindow, discardN, copyN_held, drain. simpl.
  destruct (Z.ltb_spec (zlen (rd_data rc)) skip); [done|].
  destruct (copy_segments _ _ _) as [[n1 [e|]] h] eqn:Hc; [done|].
  apply copy_segments_ok in Hc as (Hg & -> & _). rewrite Hseg in *. simpl in *.
  destruct (Z.ltb_spec (zlen (dropZ skip (rd_data rc))) take_) as [|Hle]; [done|].
  destruct (rd_end rc); [done|].
  destruct (heldBack_release h) as [err h'] eqn:Hr. intros [= <- -> <-].
  apply release_ok in Hr as [Hr _]. rewrite zlen_dropZ in Hle by done.
  rewrite Hr, Hg, zlen_takeZ, zlen_dropZ by done. unfold h_given. simpl. rewrite app_nil_r.
  pose proof (zlen_nonneg (rd_data rc)). split; [lia|]. split; [done|]. split; [lia|done].
Qed.

(** One that fails for whatever reason has passed on less than it was asked for. *)
Lemma readWindow_err w rc skip take_ n w' e :
  0 <= skip -> 0 <= take_ -> readWindow seg w rc skip take_ = (n, Some e, w') ->
  zlen (wr_out w') < zlen (wr_out w) + Z.max 1 take_.
Proof.
  intros Hs Ht. unfold readWindow, discardN, copyN_held, drain. simpl.
  destruct (Z.ltb_spec (zlen (rd_data rc)) skip); [intros [= <- <- <-]; lia|].
  set (d := takeZ take_ (dropZ skip (rd_data rc))).
  assert (Hd : zlen d <= take_) by (unfold d; rewrite zlen_takeZ; lia).
  destruct (copy_segments _ _ _) as [[n1 [e1|]] h] eqn:Hc.
  { intros [= <- <- <-]. apply copy_segments_err in Hc as (r & Hr & Hg).
    rewrite Hseg in Hg. unfold h_given in Hg. simpl in Hg. rewrite app_nil_r in Hg.
    pose proof (zlen_shorter _ _ _ Hr (eq_sym Hg)) as Hlt. rewrite zlen_app in Hlt. lia. }
  apply copy_segments_ok in Hc as (Hg & -> & Hl). rewrite Hseg in *.
  unfold h_given at 2 in Hg. simpl in Hg. rewrite app_nil_r in Hg.
  assert (Hgl : zlen (wr_out (h_w h)) + zlen (option_list (h_last h)) = zlen (wr_out w) + zlen d)
    by (rewrite <- !zlen_app; unfold h_given in Hg; by rewrite Hg).
  pose proof (zlen_nonneg (option_list (h_last h))).
  destruct (Z.ltb_spec (zlen (dropZ skip (rd_data rc))) take_) as [Hlt|Hle].
  { assert (zlen d < take_) by (unfold d; rewrite zlen_takeZ; lia). destruct (rd_end rc); intros [= <- <- <-]; lia. }
  assert (Hdt : zlen d = take_) by (unfold d; rewrite zlen_takeZ; lia).
  destruct (rd_end rc).
  { intros [= <- <- <-]. destruct (h_last h); [change (zlen (option_list (Some a))) with 1 in *; lia|].
    destruct (Hl eq_refl) as [_ Hnil]. rewrite Hnil, zlen_nil in *. lia. }
  destruct (heldBack_release h) as [err h'] eqn:Hr. intros [= <- -> <-].
  apply release_err in Hr as (r & Hne & Hgr). rewrite Hg in Hgr.
  pose proof (zlen_shorter _ _ _ Hne (eq_sym Hgr)) as Hlt. rewrite zlen_app in Hlt. lia.
Qed.

Definition sizes (cs : list ChunkRef) : Z := foldr (fun c acc => c_Size c + acc) 0 cs.

Lemma sizes_nonneg cs : Forall (fun c => 0 <= c_Size c) cs -> 0 <= sizes cs.
Proof. induction 1; simpl; lia. Qed.

(** The offsets of a manifest with sane sizes do not wrap. *)
Lemma next_no_wrap at_ c cs :
  0 <= at_ -> Forall (fun c => 0 <= c_Size c) (c :: cs) -> at_ + sizes (c :: cs) <= max_int64 ->
  wrap_int64 (at_ + c_Size c) = at_ + c_Size c /\ 0 <= at_ + c_Size c /\
  at_ + c_Size c + sizes cs <= max_int64 /\ Forall (fun c => 0 <= c_Size c) cs.
Proof.
  intros Hat HF Hs. apply Forall_cons in HF as [Hc HF]. pose proof (sizes_nonneg cs HF).
  simpl in Hs. split; [|split; [lia | split; [lia | done]]].
  apply wrap_int64_id. unfold is_int64, min_int64, max_int64 in *. lia.
Qed.

Lemma range_loop_length off endp : 0 <= off <= endp -> forall cs at_ total w σ err w' σ',
  0 <= at_ -> Forall (fun c => 0 <= c_Size c) cs -> at_ + sizes cs <= max_int64 ->
  total = Z.max 0 (Z.min at_ endp - off) ->
  range_loop seg fetch off endp (endp - off) cs at_ total w σ = (err, w', σ') ->
  match err with
  | None => zlen (wr_out w') = zlen (wr_out w) + (endp - off - total)
  | Some _ => off < endp -> zlen (wr_out w') < zlen (wr_out w) + (endp - off - total)
  end.
Proof.
  intros Hoff cs. induction cs as [|c cs IH]; intros at_ total w σ err w' σ' Hat HF Hs Ht; simpl.
  - intros [= <- <- <-]. zbool.
  - destruct (next_no_wrap at_ c cs Hat HF Hs) as (-> & Hn & Hs' & HF').
    apply Forall_cons in HF as [Hc _].
    destruct (Z.leb_spec (at_ + c_Size c) off); simpl;
      [intros H'; apply IH in H'; [exact H' | done || lia..]|].
    destruct (Z.leb_spec endp at_); simpl;
      [intros H'; apply IH in H'; [exact H' | done || lia..]|].
    destruct (fetch c σ) as [[rc|e] σ1]; [|intros [= <- <- <-]; lia].
    set (skip := Z.max (off - at_) 0). set (tk := Z.min (at_ + c_Size c) endp - (at_ + skip)).
    destruct (readWindow seg w rc skip tk) as [[n err1] w1] eqn:Hw.
    destruct err1 as [e|].
    + intros [= <- <- <-]. intros Hlt. apply readWindow_err in Hw; unfold tk, skip in *; lia.
    + apply readWindow_ok in Hw as (-> & Hout & Hlen & _); [|unfold tk, skip; lia..].
      intros H'. apply IH in H'; [|done || (unfold tk, skip; lia)..].
      rewrite Hout, zlen_app, zlen_takeZ, zlen_dropZ in H' by (unfold tk, skip; lia).
      destruct err; [intros Hlt; specialize (H' Hlt)|]; unfold tk, skip in *; lia.
Qed.

(** Which part of which chunk a window covers. *)
Fixpoint windows (off endp at_ : Z) (cs : list ChunkRef) : list (ChunkRef * Z * Z) :=
  match cs with
  | [] => []
  | c :: cs' =>
      let next := wrap_int64 (at_ + c_Size c) in
      if (next <=? off) || (endp <=? at_) then windows off endp next cs'
      else let skip := Z.max (off - at_) 0 in
           (c, skip, Z.min next endp - (at_ + skip)) :: windows off endp next cs'
  end.

Definition window_bytes (p : (ChunkRef * Z * Z) * bytes) : bytes := takeZ p.1.2 (dropZ p.1.1.2 p.2).

(** A read that succeeds delivered, for every chunk it touched, that part of what a
    reader that ended cleanly yielded, and nothing else. *)
Lemma range_loop_sources (Q : ChunkRef -> bytes -> Prop) off endp len_ :
  (forall c σ rc σ', fetch c σ = (Ok rc, σ') -> rd_end rc = None -> Q c (rd_data rc)) ->
  forall cs at_ total w σ w' σ', 0 <= at_ -> Forall (fun c => 0 <= c_Size c) cs ->
  at_ + sizes cs <= max_int64 -> 0 <= off <= endp ->
  range_loop seg fetch off endp len_ cs at_ total w σ = (None, w', σ') ->
  exists ds, Forall2 (fun p d => Q p.1.1 d /\ p.1.2 + p.2 <= zlen d) (windows off endp at_ cs) ds /\
    wr_out w' = wr_out w ++ concat (map window_bytes (zip (windows off endp at_ cs) ds)).
Proof.
  intros HQ cs. induction cs as [|c cs IH]; intros at_ total w σ w' σ' Hat HF Hs Hoff; simpl.
  { intros H. assert (w' = w) as -> by (by destruct (negb _); simplify_eq).
    exists []. split; [constructor|]. by rewrite app_nil_r. }
  destruct (next_no_wrap at_ c cs Hat HF Hs) as (-> & Hn & Hs' & HF').
  apply Forall_cons in HF as [Hc _].
  destruct ((at_ + c_Size c <=? off) || (endp <=? at_)) eqn:Hout; [by apply IH|].
  apply orb_false_iff in Hout as [H1%Z.leb_gt H2%Z.leb_gt].
  destruct (fetch c σ) as [[rc|e] σ1] eqn:Hf; [|done].
  set (skip := Z.max (off - at_) 0). set (tk := Z.min (at_ + c_Size c) endp - (at_ + skip)).
  destruct (readWindow seg w rc skip tk) as [[n [e|]] w1] eqn:Hw; [done|].
  apply readWindow_ok in Hw as (-> & Hwo & Hlen & Hend); [|unfold tk, skip; lia..].
  intros H. apply IH in H as (ds & HF2 & Hds); [|done || lia..].
  exists (rd_data rc :: ds). split.
  - constructor; [|done]. simpl. split; [by eapply HQ | done].
  - simpl. by rewrite Hds, Hwo, <- app_assoc.
Qed.

Lemma takeZ_neg {A} k (l : list A) : k <= 0 -> takeZ k l = [].
Proof. unfold takeZ. intros. by replace (Z.to_nat k) with 0%nat by lia. Qed.

(** An empty window sends nothing, whatever happens to it. *)
Lemma copy_segments_empty segs : concat segs = [] -> forall h n, copy_segments segs h n = (n, None, h).
Proof.
  intros H. induction segs as [|p segs IH]; intros h n; [done|]. simpl in H. apply app_eq_nil in H as [-> H].
  cbn [copy_segments]. change (heldBack_Write h []) with (0, @None error, h). cbn beta iota. rewrite IH by done. by rewrite Z.add_0_r.
Qed.

Lemma readWindow_empty w rc skip n err w' : readWindow seg w rc skip 0 = (n, err, w') -> w' = w /\ n = 0.
Proof.
  unfold readWindow, copyN_held. destruct (discardN rc skip) as [[e|] rc1]; [by intros [= <- _ <-]|].
  rewrite takeZ_neg, copy_segments_empty by (lia || apply Hseg). unfold heldBack_release. intros H. repeat case_match; by simplify_eq.
Qed.

Lemma range_loop_empty off : 0 <= off -> forall cs at_ w σ err w' σ',
  0 <= at_ -> Forall (fun c => 0 <= c_Size c) cs -> at_ + sizes cs <= max_int64 ->
  range_loop seg fetch off off 0 cs at_ 0 w σ = (err, w', σ') -> w' = w.
Proof.
  intros Hoff cs. induction cs as [|c cs IH]; intros at_ w σ err w' σ' Hat HF Hs; cbn [range_loop]; [by intros [= _ <- _]|].
  destruct (next_no_wrap at_ c cs Hat HF Hs) as (-> & Hn & Hs' & HF').
  destruct (Z.leb_spec (at_ + c_Size c) off); cbn [orb]; [by apply IH|]. destruct (Z.leb_spec off at_); [by apply IH|].
  destruct (fetch c σ) as [[rc|e] σ1]; [|by intros [= _ <- _]].
  replace (Z.min (at_ + c_Size c) off - (at_ + Z.max (off - at_) 0)) with 0 by lia.
  destruct (readWindow _ _ _ _ _) as [[n [e|]] w1] eqn:Hw; apply readWindow_empty in Hw as [-> ->]; [by intros [= _ <- _]|]. by apply IH.
Qed.

(** A destination that never fails makes no copy fail. *)
Lemma heldBack_Write_unlimited out last p : exists out' last',
  heldBack_Write (mk_heldBack (mk_writer out None) last) p
  = (zlen p, None, mk_heldBack (mk_writer out' None) last').
Proof.
  unfold heldBack_Write. destruct (List.rev p) as [|c front] eqn:Hp.
  { assert (p = []) as -> by (rewrite <- (rev_involutive p), Hp; done). eauto. }
  unfold heldBack_release. destruct last; simpl; destruct (1 <? zlen p); simpl; eauto.
Qed.

Lemma copy_segments_unlimited segs : forall out last n0, exists out' last',
  copy_segments segs (mk_heldBack (mk_writer out None) last) n0
  = (n0 + zlen (concat segs), None, mk_heldBack (mk_writer out' None) last').
Proof.
  induction segs as [|p segs IH]; intros out last n0; simpl.
  { rewrite zlen_nil, Z.add_0_r. eauto. }
  destruct (heldBack_Write_unlimited out last p) as (out1 & last1 & ->).
  destruct (IH out1 last1 (n0 + zlen p)) as (out2 & last2 & ->).
  rewrite zlen_app, Z.add_assoc. eauto.
Qed.

Lemma readWindow_good out d skip take_ :
  0 <= skip -> 0 <= take_ -> skip + take_ <= zlen d ->
  readWindow seg (mk_writer out None) (mk_reader d None) skip take_
  = (take_, None, mk_writer (out ++ takeZ take_ (dropZ skip d)) None).
Proof.
  intros Hs Ht Hl.
  destruct (readWindow seg (mk_writer out None) (mk_reader d None) skip take_) as [[n err] w'] eqn:Hw.
  assert (err = None /\ wr_room w' = None) as [-> Hroom].
  { revert Hw. unfold readWindow, discardN, copyN_held, drain. simpl.
    rewrite (proj2 (Z.ltb_ge _ _)) by lia. simpl.
    destruct (copy_segments_unlimited (seg (takeZ take_ (dropZ skip d))) out None 0) as (o & l & ->).
    rewrite (proj2 (Z.ltb_ge _ _)) by (rewrite zlen_dropZ by done; lia).
    unfold heldBack_release. simpl. destruct l; simpl; intros; by simplify_eq. }
  apply readWindow_ok in Hw as (-> & Hout & _); [|done..]. simpl in Hout.
  destruct w' as [o room]; simpl in *. by subst.
Qed.

Context (Inv : St -> Prop) (content : ChunkRef -> bytes).

(** [fetch] is faithful for a chunk: in the states it is used in, which it keeps to, it
    hands out the chunk's content whole. *)
Definition fetches (c : ChunkRef) : Prop :=
  zlen (content c) = c_Size c /\
  forall σ, Inv σ -> exists σ', fetch c σ = (Ok (mk_reader (content c) None), σ') /\ Inv σ'.

Definition object_bytes (cs : list ChunkRef) : bytes := concat (map content cs).

Lemma takeZ_app k (a b : bytes) : takeZ k (a ++ b) = takeZ k a ++ takeZ (k - zlen a) b.
Proof. unfold takeZ, zlen. rewrite take_app. do 2 f_equal. lia. Qed.
Lemma dropZ_app_le k (a b : bytes) : k <= zlen a -> dropZ k (a ++ b) = dropZ k a ++ b.
Proof. unfold dropZ, zlen. intros. apply drop_app_le. lia. Qed.
Lemma dropZ_neg {A} k (l : list A) : k <= 0 -> dropZ k l = l.
Proof. unfold dropZ. intros. by replace (Z.to_nat k) with 0%nat by lia. Qed.

(** The bytes of the window that lie in the chunks from offset [at_] on. *)
Definition slice_from (off endp at_ : Z) (cs : list ChunkRef) : bytes :=
  takeZ (endp - Z.max at_ off) (dropZ (off - at_) (object_bytes cs)).

Lemma range_loop_exact off endp : 0 <= off <= endp -> forall cs at_ total out σ,
  0 <= at_ -> Forall (fun c => 0 <= c_Size c) cs -> at_ + sizes cs <= max_int64 ->
  Forall fetches cs -> (off < endp -> endp <= at_ + sizes cs) ->
  total = Z.max 0 (Z.min at_ endp - off) -> Inv σ ->
  exists σ', range_loop seg fetch off endp (endp - off) cs at_ total (mk_writer out None) σ
    = (None, mk_writer (out ++ slice_from off endp at_ cs) None, σ') /\ Inv σ'.
Proof.
  intros Hoff cs. induction cs as [|c cs IH]; intros at_ total out σ Hat HF Hs Hfe Hend Ht HI; simpl.
  { exists σ. split; [|done]. simpl in Hend. rewrite (proj2 (Z.eqb_eq _ _)) by lia. simpl.
    unfold slice_from, object_bytes, takeZ, dropZ. simpl. by rewrite drop_nil, take_nil, app_nil_r. }
  destruct (next_no_wrap at_ c cs Hat HF Hs) as (-> & Hn & Hs' & HF').
  apply Forall_cons in HF as [Hc _]. apply Forall_cons in Hfe as [[Hlen Hf] Hfe]. simpl in Hend.
  unfold slice_from, object_bytes. simpl. fold (object_bytes cs).
  destruct (Z.leb_spec (at_ + c_Size c) off) as [H1|H1]; simpl.
  { destruct (IH (at_ + c_Size c) total out σ) as (σ' & -> & HI'); [done || lia..|]. exists σ'. split; [|done].
    unfold slice_from. rewrite dropZ_app_ge by lia.
    replace (off - at_ - zlen (content c)) with (off - (at_ + c_Size c)) by lia.
    by replace (Z.max (at_ + c_Size c) off) with (Z.max at_ off) by lia. }
  destruct (Z.leb_spec endp at_) as [H2|H2]; simpl.
  { destruct (IH (at_ + c_Size c) total out σ) as (σ' & -> & HI'); [done || lia..|]. exists σ'. split; [|done].
    unfold slice_from. by rewrite !takeZ_neg by lia. }
  destruct (Hf σ HI) as (σ1 & -> & HI1).
  set (skip := Z.max (off - at_) 0). set (tk := Z.min (at_ + c_Size c) endp - (at_ + skip)).
  rewrite readWindow_good by (unfold tk, skip; lia).
  destruct (IH (at_ + c_Size c) (total + tk) (out ++ takeZ tk (dropZ skip (content c))) σ1)
    as (σ' & -> & HI'); [done || (unfold tk, skip; lia)..|].
  exists σ'. split; [|done]. unfold slice_from. rewrite <- app_assoc. do 4 f_equal.
  rewrite (dropZ_neg (off - (at_ + c_Size c))) by lia.
  replace (dropZ (off - at_) (content c ++ object_bytes cs))
    with (dropZ skip (content c) ++ object_bytes cs)
    by (rewrite <- dropZ_app_le by (unfold skip; lia); unfold dropZ, skip; f_equal; lia).
  rewrite takeZ_app, zlen_dropZ by (unfold skip; lia). f_equal; [|f_equal; unfold skip; lia].
  unfold tk. destruct (Z.le_gt_cases (at_ + c_Size c) endp).
  - rewrite !takeZ_all; [done| |]; rewrite zlen_dropZ; unfold skip; lia.
  - f_equal. unfold skip. lia.
Qed.
End read_facts.

(** ** Chunk names *)

Lemma WriteID_chunk prefix i d : 0 <= i < 10 ^ 6 -> WriteID (c_ID (chunk_ref prefix i d)) = prefix.
Proof.
  intros Hi. unfold WriteID, chunk_ref, indexWidth. simpl. rewrite slen_app, slen_pad_dec by (simpl; lia).
  case_bool_decide as H.
  - destruct prefix; simpl in *; [done | lia].
  - replace (slen prefix + 6 - 6)%nat with (slen prefix) by lia. apply stake_app.
Qed.

Lemma chunk_ID_inj prefix i j d e :
  0 <= i -> 0 <= j -> c_ID (chunk_ref prefix i d) = c_ID (chunk_ref prefix j e) -> i = j.
Proof. intros Hi Hj H%sapp_inj_l. by eapply pad_dec_inj. Qed.

Lemma ShardID_inj c i j : 0 <= i -> 0 <= j -> ShardID c i = ShardID c j -> i = j.
Proof.
  intros Hi Hj H. unfold ShardID in H. apply sapp_inj_l in H. injection H as H.
  by eapply pad_dec_inj.
Qed.

(** ** The claims *)

Section write_claims.
Context {St : Type} (prefix : string) (chunkSize : Z)
  (commit : ChunkRef -> bytes -> St -> res ChunkRef * St).

(** C12: [Write] finishes on every source and does exactly what plain chunking does:
    neither the expected length the caller passes, nor the buffer that grows, nor the
    probe for one more byte changes which chunks are committed, in what order, under
    which names, or what comes back. *)
Theorem Write_refines_chunking (r : reader) (expect : Z) (σ : St) :
  0 < chunkSize ->
  Write prefix chunkSize commit r expect σ
  = write_spec prefix chunkSize commit (S (length (rd_data r))) 0 (rd_data r) (rd_end r) zeroManifest σ
  /\ exists out, Write prefix chunkSize commit r expect σ = Some out.
Proof.
  intros H. rewrite Write_spec_eq by done. split; [done|]. apply write_spec_total; [done | lia].
Qed.

(** A successful [Write] committed the source's bytes exactly once and in order:
    the pieces concatenate to the data, every piece but the last is a full chunk, none
    is empty, and the manifest lists their refs and sums their sizes. A source that
    failed with an error of its own never yields a manifest. *)
Theorem Write_stores_the_source (r : reader) (expect : Z) (σ σ' : St) (out : res Manifest) :
  0 < chunkSize -> Write prefix chunkSize commit r expect σ = Some (out, σ') ->
  (source_ended (rd_end r) = false -> is_ok out = false) /\
  (forall m, out = Ok m -> exists l,
     committed prefix commit 0 l σ σ' /\ concat (map snd l) = rd_data r /\
     pieces_ok chunkSize (map snd l) /\
     m_Chunks m = map fst l /\ m_Size m = sizes (map fst l)).
Proof.
  intros H. rewrite Write_spec_eq by done. intros Hw. split.
  - intros He. eapply write_spec_source_error; eauto.
  - intros m ->. apply write_spec_committed in Hw as (l & Hl & Hd & Hok & ->); [|done].
    exists l. split_and!; done.
Qed.
End write_claims.

(** As the code stands, a source that breaks off with an error wrapping [io.EOF] or
    [io.ErrUnexpectedEOF] (a request body cut short in transit) is stored exactly as
    if it had ended there: the truncated object is handed back as complete. *)
Theorem Write_accepts_truncated_source {St} prefix chunkSize commit
    (d : bytes) (e : error) (expect : Z) (σ : St) :
  0 < chunkSize -> EOF ∈ e \/ ErrUnexpectedEOF ∈ e ->
  Write prefix chunkSize commit (mk_reader d (Some e)) expect σ
  = Write prefix chunkSize commit (mk_reader d None) expect σ.
Proof.
  intros Hcs He. rewrite !Write_spec_eq by done. simpl rd_data. simpl rd_end.
  assert (Hend : source_ended (Some e) = true).
  { simpl. unfold errors_Is. destruct He; [rewrite bool_decide_true | rewrite orb_comm, bool_decide_true]; done. }
  generalize 0. generalize zeroManifest. revert d σ.
  assert (forall fuel d σ m i, write_spec prefix chunkSize commit fuel i d (Some e) m σ
            = write_spec prefix chunkSize commit fuel i d None m σ) as Hgen; [|intros; apply Hgen].
  induction fuel as [|fuel IH]; intros d σ m i; cbn [write_spec]; [done|].
  rewrite Hend. simpl. destruct (chunkSize <=? zlen d); [|done].
  destruct (commit _ _ σ) as [[ref|e'] σ1]; [apply IH | done].
Qed.

(** Chunk and shard names do what the collector relies on: the chunks of one write
    have different names, [WriteID] of each is the write's prefix (for the first
    million chunks, which is 32 TB), and a shard's name extends its chunk's and
    differs from its other shards'. *)
Theorem chunk_names (prefix : string) (i j : Z) (d e : bytes) (c : ChunkRef) :
  0 <= i < 10 ^ 6 -> 0 <= j < 10 ^ 6 ->
  WriteID (c_ID (chunk_ref prefix i d)) = prefix /\
  (c_ID (chunk_ref prefix i d) = c_ID (chunk_ref prefix j e) -> i = j) /\
  (ShardID c i = ShardID c j -> i = j) /\ HasPrefix (ShardID c i) (c_ID c) = true.
Proof.
  intros Hi Hj. split_and!.
  - by apply WriteID_chunk.
  - apply chunk_ID_inj; lia.
  - apply ShardID_inj; lia.
  - apply HasPrefix_app.
Qed.

(** The slice lemma behind both the claim below and the round trip. *)
Section range_exact.
Context {St : Type} (seg : bytes -> list bytes) (fetch : ChunkRef -> St -> res reader * St).

Lemma range_exact (Inv : St -> Prop) (content : ChunkRef -> bytes) (m : Manifest) (out : bytes) (off len : Z) (σ : St) :
  (forall d, concat (seg d) = d) ->
  Inv σ -> Forall (fetches fetch Inv content) (m_Chunks m) ->
  m_Size m = sizes (m_Chunks m) -> m_Size m <= max_int64 ->
  0 <= off -> 0 <= len -> off + len <= m_Size m ->
  exists σ', ReadRange seg fetch m (mk_writer out None) off len σ
    = (None, mk_writer (out ++ takeZ len (dropZ off (object_bytes content (m_Chunks m)))) None, σ')
    /\ Inv σ'.
Proof.
  intros Hseg HI Hf Hm Hmax Hoff Hlen Hend.
  assert (HF : Forall (fun c => 0 <= c_Size c) (m_Chunks m)).
  { eapply Forall_impl; [done|]. intros c [<- _]. apply zlen_nonneg. }
  unfold ReadRange. rewrite !wrap_int64_id by (unfold is_int64, min_int64, max_int64 in *; lia).
  rewrite (proj2 (Z.ltb_ge off 0)), (proj2 (Z.ltb_ge len 0)), (proj2 (Z.ltb_ge (m_Size m) _)) by lia.
  simpl. destruct (range_loop_exact seg Hseg fetch Inv content off (off + len) ltac:(lia)
    (m_Chunks m) 0 0 out σ) as (σ' & H & HI'); [done || lia..|].
  exists σ'. split; [|done]. replace (off + len - off) with len in H by lia. rewrite H. do 3 f_equal.
  unfold slice_from. rewrite Z.max_r, Z.sub_0_r by lia. by replace (off + len - off) with len by lia.
Qed.
End range_exact.

(** Whatever fetching keeps, reading keeps. *)
Lemma ReadRange_keeps {St : Type} (seg : bytes -> list bytes) (fetch : ChunkRef -> St -> res reader * St) (R : St -> St -> Prop)
    `{!PreOrder R} m w off len σ err w' σ' :
  (forall c σ r σ', fetch c σ = (r, σ') -> R σ σ') -> ReadRange seg fetch m w off len σ = (err, w', σ') -> R σ σ'.
Proof.
  intros Hf. unfold ReadRange. destruct (_ || _); [by intros [= _ _ <-]|].
  generalize (wrap_int64 (off + len)). intros endp. generalize 0 at 1. generalize 0. generalize (m_Chunks m).
  intros cs total at_. revert at_ total w σ. induction cs as [|c cs IH]; intros at_ total w σ; cbn [range_loop]; [by intros [= _ _ <-]|].
  destruct (_ || _); [apply IH|]. destruct (fetch c σ) as [[rc|e] σ1] eqn:Hc; apply Hf in Hc; [|by intros [= _ _ <-]].
  destruct (readWindow _ _ _ _ _) as [[n err1] w1]. destruct err1 as [e|]; [by intros [= _ _ <-]|].
  intros H%IH. by etransitivity.
Qed.

Section read_claims.
Context {St : Type} (seg : bytes -> list bytes) (fetch : ChunkRef -> St -> res reader * St).

(** What went out, for every chunk the window touches, is that part of what a reader of the
    chunk yielded, and the reader ended without an error, so it has checked the chunk. *)
Definition read_to_end (m : Manifest) (off len : Z) (sent : bytes) : Prop :=
  exists ds, Forall2 (fun p d => (exists σ σ', fetch p.1.1 σ = (Ok (mk_reader d None), σ')) /\ p.1.2 + p.2 <= zlen d)
               (windows off (off + len) 0 (m_Chunks m)) ds /\
    sent = concat (map window_bytes (zip (windows off (off + len) 0 (m_Chunks m)) ds)).

Context (m : Manifest) (Hseg : forall d, concat (seg d) = d) (HF : Forall (fun c => 0 <= c_Size c) (m_Chunks m))
  (Hs : sizes (m_Chunks m) <= max_int64).

Lemma range_whole_or_short (w w' : writer) (off len : Z) (σ σ' : St) err :
  0 <= off -> 0 < len -> off + len <= m_Size m <= max_int64 ->
  ReadRange seg fetch m w off len σ = (err, w', σ') ->
  match err with
  | None => zlen (wr_out w') = zlen (wr_out w) + len /\ exists sent, wr_out w' = wr_out w ++ sent /\ read_to_end m off len sent
  | Some _ => zlen (wr_out w') < zlen (wr_out w) + len
  end.
Proof.
  intros Hoff Hlen Hm. unfold ReadRange.
  rewrite !wrap_int64_id by (unfold is_int64, min_int64, max_int64 in *; lia).
  rewrite (proj2 (Z.ltb_ge off 0)), (proj2 (Z.ltb_ge len 0)), (proj2 (Z.ltb_ge (m_Size m) _)) by lia.
  simpl. replace len with (off + len - off) at 2 by lia. intros H. pose proof H as Hlong.
  apply range_loop_length in Hlong; try done; try lia. destruct err; [specialize (Hlong ltac:(lia)); lia|]. split; [lia|].
  apply (range_loop_sources seg Hseg fetch (fun c d => exists σ σ', fetch c σ = (Ok (mk_reader d None), σ'))) in H as (ds & Hds & Hout);
    try done; try lia.
  - eexists. split; [exact Hout|]. by exists ds.
  - intros c σ1 [d e] σ2 Hf He. cbn in *. subst e. by eexists _, _.
Qed.

Lemma range_empty (w w' : writer) (off : Z) (σ σ' : St) err : 0 <= off -> off <= m_Size m <= max_int64 ->
  ReadRange seg fetch m w off 0 σ = (err, w', σ') -> w' = w.
Proof.
  intros Hoff Hm. unfold ReadRange. rewrite Z.add_0_r, !wrap_int64_id by (unfold is_int64, min_int64, max_int64 in *; lia).
  rewrite (proj2 (Z.ltb_ge off 0)), (proj2 (Z.ltb_ge (m_Size m) _)) by lia. simpl. by apply range_loop_empty.
Qed.

(** C11: whatever the chunk readers and the destination do, a window of at least one byte
    is delivered whole and checked, or falls short. No error means exactly [length] bytes
    went out, and that each chunk the window touches was read to its end by a reader that
    found nothing wrong, the bytes being the window of what those readers yielded. An
    error, including a checksum that fails after the last byte was read, means strictly
    fewer went out. So a reply that is complete is one whose chunks were all checked. *)
Theorem ReadRange_whole_or_short (w w' : writer) (off len : Z) (σ σ' : St) err :
  0 <= off -> 0 < len -> off + len <= m_Size m <= max_int64 ->
  ReadRange seg fetch m w off len σ = (err, w', σ') ->
  match err with
  | None => zlen (wr_out w') = zlen (wr_out w) + len /\ exists sent, wr_out w' = wr_out w ++ sent /\ read_to_end m off len sent
  | Some _ => zlen (wr_out w') < zlen (wr_out w) + len
  end.
Proof. apply range_whole_or_short. Qed.
End read_claims.

Section read_exact_claims.
Context {St : Type} (seg : bytes -> list bytes) (fetch : ChunkRef -> St -> res reader * St).

(** With chunks that verify, [ReadRange] delivers exactly the asked slice of the
    object, whatever segments the copies happen in. *)
Theorem ReadRange_exact (Inv : St -> Prop) (content : ChunkRef -> bytes) (m : Manifest) (out : bytes) (off len : Z) (σ : St) :
  (forall d, concat (seg d) = d) ->
  Inv σ -> Forall (fetches fetch Inv content) (m_Chunks m) ->
  m_Size m = sizes (m_Chunks m) -> m_Size m <= max_int64 ->
  0 <= off -> 0 <= len -> off + len <= m_Size m ->
  exists σ', ReadRange seg fetch m (mk_writer out None) off len σ
    = (None, mk_writer (out ++ takeZ len (dropZ off (object_bytes content (m_Chunks m)))) None, σ')
    /\ Inv σ'.
Proof. apply range_exact. Qed.
End read_exact_claims.

(** ** A round trip over a chunk store *)

Definition map_commit (ref : ChunkRef) (d : bytes) (σ : gmap string bytes)
    : res ChunkRef * gmap string bytes := (Ok ref, <[c_ID ref := d]> σ).
Definition map_fetch (c : ChunkRef) (σ : gmap string bytes) : res reader * gmap string bytes :=
  match σ !! c_ID c with
  | Some d => (Ok (mk_reader d None), σ)
  | None => (Err [StoreErrNotFound], σ)
  end.

Lemma committed_map prefix i l σ σ' : 0 <= i -> committed prefix map_commit i l σ σ' ->
  (forall k x, 0 <= k < i -> σ !! (prefix +:+ pad_dec indexWidth k) = Some x ->
     σ' !! (prefix +:+ pad_dec indexWidth k) = Some x) /\
  Forall (fun p => σ' !! c_ID p.1 = Some p.2 /\ c_Size p.1 = zlen p.2) l.
Proof.
  intros Hi H. induction H as [i σ | i ref d l σ σ1 σ2 Hc Hl IH]; [by split; [|constructor]|].
  unfold map_commit in Hc. injection Hc as <- <-. destruct IH as [IH1 IH2]; [lia|]. split.
  - intros k x Hk Hx. apply IH1; [lia|]. rewrite lookup_insert_ne; [done|].
    intros Heq%sapp_inj_l. apply pad_dec_inj in Heq; lia.
  - constructor; [|done]. split; [|done]. apply IH1; [lia|]. apply lookup_insert_eq.
Qed.

Lemma object_bytes_pairs (content : ChunkRef -> bytes) l :
  Forall (fun p => content p.1 = p.2) l -> object_bytes content (map fst l) = concat (map snd l).
Proof. induction 1 as [|p l H HF IH]; [done|]. unfold object_bytes in *. simpl. by rewrite H, IH. Qed.

Lemma sizes_pairs (l : list (ChunkRef * bytes)) :
  Forall (fun p => c_Size p.1 = zlen p.2) l -> sizes (map fst l) = zlen (concat (map snd l)).
Proof. induction 1 as [|p l H HF IH]; [done|]. simpl. rewrite zlen_app. lia. Qed.

Lemma map_commit_succeeds prefix chunkSize : 0 < chunkSize -> forall expect data σ,
  exists m σ', Write prefix chunkSize map_commit (mk_reader data None) expect σ = Some (Ok m, σ').
Proof.
  intros Hcs expect data σ. rewrite Write_spec_eq by done. simpl rd_data. simpl rd_end.
  generalize 0. generalize zeroManifest. assert (Hf : (length data < S (length data))%nat) by lia.
  revert Hf. generalize (S (length data)). intros fuel. revert data σ.
  induction fuel as [|fuel IH]; intros data σ Hf m i; [lia|]. simpl.
  destruct (Z.leb_spec chunkSize (zlen data)); [apply IH; by eapply dropZ_shorter|].
  case_decide; eauto.
Qed.

(** An object written to a chunk store and read back, whole or any window of it,
    is the bytes that were written, for every chunk size, expected length, segment
    split and whatever the store already held. *)
Theorem Write_ReadRange_roundtrip (seg : bytes -> list bytes) (prefix : string)
    (chunkSize expect : Z) (data out : bytes) (off len : Z) (σ : gmap string bytes) :
  (forall d, concat (seg d) = d) -> 0 < chunkSize -> zlen data <= max_int64 ->
  0 <= off -> 0 <= len -> off + len <= zlen data ->
  exists m σ', Write prefix chunkSize map_commit (mk_reader data None) expect σ = Some (Ok m, σ') /\
    m_Size m = zlen data /\
    ReadRange seg map_fetch m (mk_writer out None) off len σ'
    = (None, mk_writer (out ++ takeZ len (dropZ off data)) None, σ').
Proof.
  intros Hseg Hcs Hmax Hoff Hlen Hend.
  destruct (map_commit_succeeds prefix chunkSize Hcs expect data σ) as (m & σ' & Hw).
  exists m, σ'. split; [done|]. rewrite Write_spec_eq in Hw by done.
  apply write_spec_committed in Hw as (l & Hl & Hd & _ & ->); [|done]. simpl in Hd.
  apply committed_map in Hl as [_ Hl]; [|done].
  set (content c := default [] (σ' !! c_ID c)).
  assert (Hsz : sizes (map fst l) = zlen data).
  { rewrite sizes_pairs, Hd; [done|]. eapply Forall_impl; [done|]. by intros ? [_ ?]. }
  assert (Hob : object_bytes content (map fst l) = data).
  { rewrite object_bytes_pairs, Hd; [done|]. eapply Forall_impl; [done|].
    intros p [Hp _]. unfold content. by rewrite Hp. }
  split; [done|].
  destruct (range_exact seg map_fetch (fun s => s = σ') content
    (with_chunks zeroManifest (sizes (map fst l)) (map fst l)) out off len σ') as (σ2 & H & ->).
  - done.
  - done.
  - simpl. apply Forall_map. eapply Forall_impl; [done|]. intros p [Hp Hs]. unfold fetches, content.
    simpl. rewrite Hp. split; [done|]. intros ? ->. unfold map_fetch. rewrite Hp. eauto.
  - done.
  - simpl. lia.
  - done.
  - done.
  - simpl. lia.
  - simpl in H. by rewrite Hob in H.
Qed.

(** ** The claims at concrete inputs *)

Definition demo_source (s : string) : reader := mk_reader (to_bytes s) None.

Lemma Write_refines_chunking_witness :
  Write "w" 4 map_commit (demo_source "hello world") 2 ∅
  = write_spec "w" 4 map_commit 12 0 (to_bytes "hello world") None zeroManifest ∅.
Proof. apply (Write_refines_chunking "w" 4 map_commit (demo_source "hello world") 2 ∅). lia. Defined.

Lemma Write_stores_the_source_witness : exists m σ' l,
  Write "w" 4 map_commit (demo_source "hello") 2 ∅ = Some (Ok m, σ') /\
  committed "w" map_commit 0 l ∅ σ' /\ concat (map snd l) = to_bytes "hello" /\
  pieces_ok 4 (map snd l) /\ m_Chunks m = map fst l /\ m_Size m = sizes (map fst l).
Proof.
  destruct (Write "w" 4 map_commit (demo_source "hello") 2 ∅) as [[[m|e] σ']|] eqn:Hw;
    [|vm_compute in Hw; discriminate..].
  destruct (proj2 (Write_stores_the_source "w" 4 map_commit (demo_source "hello") 2 ∅ σ' (Ok m)
    eq_refl Hw) m eq_refl) as (l & H). exists m, σ', l. split; [done | exact H].
Defined.

Lemma Write_accepts_truncated_source_witness :
  Write "w" 4 map_commit (mk_reader (to_bytes "hel") (Some [ErrUnexpectedEOF])) 5 ∅
  = Write "w" 4 map_commit (mk_reader (to_bytes "hel") None) 5 ∅.
Proof.
  apply (Write_accepts_truncated_source "w" 4 map_commit (to_bytes "hel") [ErrUnexpectedEOF] 5 ∅);
    [lia | right; by constructor].
Defined.

Lemma chunk_names_witness :
  WriteID (c_ID (chunk_ref "ABC" 7 [])) = "ABC" /\
  HasPrefix (ShardID (chunk_ref "ABC" 7 []) 7) "ABC000007" = true.
Proof.
  destruct (chunk_names "ABC" 7 8 [] [] (chunk_ref "ABC" 7 [])) as (H & _ & _ & K); [lia..|].
  split; [exact H | exact K].
Defined.

(** A chunk that turns out to be corrupt once all of it has been read. *)
Definition demo_corrupt (c : ChunkRef) (σ : unit) : res reader * unit :=
  (Ok (mk_reader (to_bytes "abc") (Some [ErrChecksumMismatch])), tt).
Definition demo_sound (c : ChunkRef) (σ : unit) : res reader * unit := (Ok (mk_reader (to_bytes "abc") None), tt).
Definition demo_manifest : Manifest :=
  with_chunks zeroManifest 3 [mk_ChunkRef "w000000" 3 (crc32c (to_bytes "abc")) []].

(** Of the corrupt chunk two bytes of three go out; a sound one goes out whole. *)
Lemma ReadRange_whole_or_short_witness :
  ReadRange (fun d => [d]) demo_corrupt demo_manifest (mk_writer [] None) 0 3 tt
  = (Some [ErrChecksumMismatch], mk_writer (to_bytes "ab") None, tt) /\
  zlen (to_bytes "ab") < zlen (@nil byte) + 3 /\
  read_to_end demo_sound demo_manifest 0 3 (to_bytes "abc").
Proof.
  assert (HF : Forall (fun c => 0 <= c_Size c) (m_Chunks demo_manifest)) by (repeat constructor; simpl; lia).
  assert (Hs : sizes (m_Chunks demo_manifest) <= max_int64) by (vm_compute; discriminate).
  assert (Hm : 0 + 3 <= m_Size demo_manifest <= max_int64) by (vm_compute; split; discriminate).
  assert (H : ReadRange (fun d => [d]) demo_corrupt demo_manifest (mk_writer [] None) 0 3 tt
    = (Some [ErrChecksumMismatch], mk_writer (to_bytes "ab") None, tt)) by reflexivity.
  split; [exact H|]. split.
  - exact (ReadRange_whole_or_short (fun d => [d]) demo_corrupt demo_manifest (fun d => app_nil_r d) HF Hs (mk_writer [] None)
      (mk_writer (to_bytes "ab") None) 0 3 tt tt (Some [ErrChecksumMismatch]) ltac:(lia) ltac:(lia) Hm H).
  - destruct (ReadRange_whole_or_short (fun d => [d]) demo_sound demo_manifest (fun d => app_nil_r d) HF Hs (mk_writer [] None)
      (mk_writer (to_bytes "abc") None) 0 3 tt tt None ltac:(lia) ltac:(lia) Hm eq_refl) as (_ & sent & Hsent & Hr).
    cbn [wr_out app] in Hsent. by rewrite Hsent.
Defined.

Lemma ReadRange_exact_witness : exists σ',
  ReadRange (fun d => [d]) (fun _ (_ : unit) => (Ok (demo_source "abc"), tt)) demo_manifest
    (mk_writer [] None) 1 2 tt = (None, mk_writer (to_bytes "bc") None, σ') /\ True.
Proof.
  apply (ReadRange_exact (fun d => [d]) (fun _ (_ : unit) => (Ok (demo_source "abc"), tt))
    (fun _ => True) (fun _ => to_bytes "abc") demo_manifest [] 1 2 tt).
  - intros d. apply app_nil_r.
  - done.
  - repeat constructor. intros []. eauto.
  - reflexivity.
  - vm_compute. discriminate.
  - lia.
  - lia.
  - vm_compute. discriminate.
Defined.

Lemma Write_ReadRange_roundtrip_witness : exists m σ',
  Write "w" 4 map_commit (demo_source "hello") 0 ∅ = Some (Ok m, σ') /\ m_Size m = 5 /\
  ReadRange (fun d => [d]) map_fetch m (mk_writer [] None) 3 2 σ'
  = (None, mk_writer (to_bytes "lo") None, σ').
Proof.
  apply (Write_ReadRange_roundtrip (fun d => [d]) "w" 4 0 (to_bytes "hello") [] 3 2 ∅).
  - intros d. apply app_nil_r.
  - lia.
  - vm_compute. discriminate.
  - lia.
  - lia.
  - vm_compute. discriminate.
Defined.
