(* ===== verification/Sigv4.v ===== *)
(** * Request signatures: [internal/sigv4/sigv4.go] and [internal/sigv4/chunked.go]

    A request is authentic when its signature is the one this server computes over the
    request as it arrived; its body is then read through a checker that fits the way
    the client covered it: a hash of the whole, a chain of signatures over its chunks,
    or nothing. [bufio.Reader] may return any non-empty part of what is there, so how it
    does is an argument of a read. *)

From S2P Require Import Prelude GoStr Strconv Path Hash Text Time Crc Ec Object.

(** ** Requests *)

(** The fields of [http.Request] the code uses. The query is [r.URL.Query()], the path
    is [r.URL.EscapedPath()]; the path values are what the router took from it. *)
Record Request := mk_Request {
  rq_Method : string;
  rq_Host : string;
  rq_EscapedPath : string;
  rq_Query : Values;
  rq_Header : Values;
  rq_ContentLength : Z;
  rq_TransferEncoding : list string;
  rq_Body : reader;
  rq_bucket : string;
  rq_key : string;
  rq_Trailers : Values
}.

Definition with_body (r : Request) (body : reader) (trailers : Values) (size : Z) : Request :=
  mk_Request (rq_Method r) (rq_Host r) (rq_EscapedPath r) (rq_Query r) (rq_Header r) size (rq_TransferEncoding r)
    body (rq_bucket r) (rq_key r) trailers.

Definition MaxSkew : Z := 15 * 60 * 10 ^ 9.

Definition algorithm : string := "AWS4-HMAC-SHA256".
Definition unsigned : string := "UNSIGNED-PAYLOAD".
Definition streaming : string := "STREAMING-AWS4-HMAC-SHA256-PAYLOAD".
Definition streamingTrl : string := "STREAMING-AWS4-HMAC-SHA256-PAYLOAD-TRAILER".
Definition unsignedTrl : string := "STREAMING-UNSIGNED-PAYLOAD-TRAILER".
Definition emptyHash : string := "e3b0c44298fc1c149afbf4c8996fb92427ae41e4649b934ca495991b7852b855".

Record Credentials := mk_Credentials { AccessKey : string; SecretKey : string }.

Definition newline : string := String (byte_of 10) "".

(** ** Keys and digests *)

Definition hmacSHA256 (key : bytes) (data : string) : bytes := hmac_sha256 key (to_bytes data).
Definition sign (key : bytes) (data : string) : string := hex_EncodeToString (hmacSHA256 key data).
Definition sha256hex (b : bytes) : string := hex_EncodeToString (sha256 b).

Definition signingKey (secret date region service : string) : bytes :=
  let k := hmacSHA256 (to_bytes ("AWS4" +:+ secret)) date in
  let k := hmacSHA256 k region in
  let k := hmacSHA256 k service in
  hmacSHA256 k "aws4_request".

Definition stringToSign (t : Z) (scope hashedRequest : string) : string :=
  Join [algorithm; Format amz_layout t; scope; hashedRequest] newline.

(** ** The canonical request *)

Definition aws_unreserved : string := "abcdefghijklmnopqrstuvwxyzABCDEFGHIJKLMNOPQRSTUVWXYZ0123456789-_.~".

Definition uriEncode (s : string) : string := percent_encode aws_unreserved s.

Definition query_pairs (q : Values) : list string :=
  flat_map (fun nv => map (fun v => uriEncode nv.1 +:+ "=" +:+ uriEncode v) (sort_by id nv.2)) (map_to_list q).

Definition canonicalQuery (r : Request) : string := Join (sort_by id (query_pairs (rq_Query r))) "&".

Definition canonicalPath (r : Request) : string :=
  if String.eqb (rq_EscapedPath r) "" then "/" else rq_EscapedPath r.

(** The value a signed header has, [None] when the request does not have it. *)
Definition headerValue (r : Request) (name : string) : option string :=
  if String.eqb name "host" then (if String.eqb (rq_Host r) "" then None else Some (rq_Host r))
  else if String.eqb name "content-length" then
    (if rq_ContentLength r <? 0 then None else Some (Itoa (rq_ContentLength r)))
  else option_map (fun values => Join (map (fun v => Join (Fields v) " ") values) ",")
         (rq_Header r !! CanonicalHeaderKey name).

Fixpoint canonical_headers (r : Request) (names : list string) : res (list string) :=
  match names with
  | [] => Ok []
  | n :: names' =>
      match headerValue r n with
      | None => Err [ErrMalformed]
      | Some v => hs ← canonical_headers r names'; Ok ((n +:+ ":" +:+ v +:+ newline) :: hs)
      end
  end.

Definition payload_or_unsigned (payload : string) : string := if String.eqb payload "" then unsigned else payload.

Definition canonicalRequest (r : Request) (signedHeaders : list string) (payload : string) : res string :=
  headers ← canonical_headers r signedHeaders;
  Ok (Join [rq_Method r; canonicalPath r; canonicalQuery r; Join headers "";
            Join signedHeaders ";"; payload_or_unsigned payload] newline).

(** ** The Authorization header *)

Record authorization := mk_authorization {
  au_accessKey : string; au_date : string; au_region : string; au_service : string;
  au_signedHeaders : list string; au_signature : string
}.

Definition scope (a : authorization) : string := Join [au_date a; au_region a; au_service a; "aws4_request"] "/".

(** The three fields read so far: the credential, the signed headers, the signature. *)
Definition auth_field (acc : string * list string * string) (part : string) : res (string * list string * string) :=
  let '(cred, hs, sig) := acc in
  match Cut (TrimSpace part) "=" with
  | None => Err [ErrMalformed]
  | Some (name, value) =>
      Ok (if String.eqb name "Credential" then (value, hs, sig)
          else if String.eqb name "SignedHeaders" then (cred, splitc ";" value, sig)
          else if String.eqb name "Signature" then (cred, hs, value)
          else acc)
  end.

Fixpoint auth_fields (parts : list string) (acc : string * list string * string) : res (string * list string * string) :=
  match parts with
  | [] => Ok acc
  | p :: parts' => acc' ← auth_field acc p; auth_fields parts' acc'
  end.

Definition parseAuthorization (header : string) : res authorization :=
  match CutPrefix header (algorithm +:+ " ") with
  | None => if String.eqb header "" then Err [ErrMissingSignature] else Err [ErrMalformed]
  | Some rest =>
      fields ← auth_fields (splitc "," rest) ("", [], "");
      let '(credential, hs, sig) := fields in
      match splitc "/" credential with
      | [ak; date; region; service; last_] =>
          if negb (String.eqb last_ "aws4_request") then Err [ErrMalformed]
          else if String.eqb sig "" || bool_decide (hs = []) then Err [ErrMalformed]
          else if negb (bool_decide ("host" ∈ hs)) then Err [ErrMalformed]
          else Ok (mk_authorization ak date region service hs sig)
      | _ => Err [ErrMalformed]
      end
  end.

(** ** When the request was signed *)

Section clock.
Context (local : string -> Z -> option Z).

Definition parseHTTPDate (raw : string) : option Z :=
  match ParseTime local raw with Some t => Some t | None => first_parse local [RFC1123; RFC1123Z] raw end.

Definition parseAmzDate (raw : string) : option Z :=
  match Parse local amz_layout raw with Some t => Some t | None => parseHTTPDate raw end.

Definition requestTime (r : Request) : res Z :=
  let amz := header_Get (rq_Header r) "x-amz-date" in
  let date := header_Get (rq_Header r) "Date" in
  if negb (String.eqb amz "") then match parseAmzDate amz with Some t => Ok t | None => Err [ErrMalformed] end
  else if negb (String.eqb date "") then match parseHTTPDate date with Some t => Ok t | None => Err [ErrMalformed] end
  else Err [ErrMissingDate].
End clock.
