(* ===== verification/Chunked.v ===== *)
(** * Streamed bodies: [internal/sigv4/chunked.go]

    The reader that takes the aws-chunked framing off a body, checking the chain of chunk
    signatures as it goes. [Read] is one call of it; [unframe] is what the framing means,
    a chunk at a time; the theorems show that reading a body to its end, however the
    reads are cut up, is [unframe], that a body that is accepted carries an
    unbroken chain of signatures over exactly the bytes handed on, and that what a client
    frames is what comes out. *)

From S2P Require Import Prelude GoStr Strconv Path Hash Text Time Crc Ec Object Sigv4.

Definition maxFramingLine : Z := 1024.

Record chunkSigner := mk_chunkSigner { cs_key : bytes; cs_date : Z; cs_scope : string; cs_prev : string }.

(** The signature the next chunk must carry, given the hash of its data. *)
Definition expect (s : chunkSigner) (dataHash : string) : string :=
  sign (cs_key s)
    (Join ["AWS4-HMAC-SHA256-PAYLOAD"; Format amz_layout (cs_date s); cs_scope s; cs_prev s; emptyHash; dataHash] newline).

Record chunkedReader := mk_chunkedReader {
  cr_br : reader;
  cr_signer : option chunkSigner;
  cr_left : Z;
  cr_hash : bytes;
  cr_want : string;
  cr_done : bool;
  cr_err : option error;
  cr_trailers : Values
}.

Definition newChunkedReader (body : reader) (signer : option chunkSigner) : chunkedReader :=
  mk_chunkedReader body signer 0 [] "" false None ∅.

(** ** Framing lines *)

(** [ReadString] with the line feed as its delimiter: the line with its end, what is left, and whether
    the end was there. *)
Fixpoint span_line (l : bytes) : bytes * bytes * bool :=
  match l with
  | [] => ([], [], false)
  | c :: l' => if byteZ c =? 10 then ([c], l', true)
               else let '(a, b, found) := span_line l' in (c :: a, b, found)
  end.

(** [strings.TrimRight] of carriage returns and line feeds. *)
Fixpoint trim_line (l : bytes) : bytes :=
  match l with
  | [] => []
  | c :: l' => match trim_line l' with
               | [] => if line_end c then [] else [c]
               | t => c :: t
               end
  end.

Definition end_error (r : reader) : error := match rd_end r with None => [EOF] | Some e => e end.

(** [line]: the text of a framing line, or the error it returns with an empty one. *)
Definition line (r : reader) : (string * option error) * reader :=
  let '(l, rest, found) := span_line (rd_data r) in
  let r' := mk_reader rest (rd_end r) in
  if maxFramingLine <? zlen l then (("", Some [ErrMalformed]), r')
  else if found then ((of_bytes (trim_line l), None), r')
  else let e := end_error r in
       if errors_Is e EOF then
         if bool_decide (l = []) then (("", Some [EOF]), r') else ((of_bytes (trim_line l), None), r')
       else (("", Some (ErrPayload :: e)), r').

(** The loop of [next] over blank lines; every line takes at least a byte. *)
Fixpoint header_line (fuel : nat) (r : reader) : (string * option error) * reader :=
  match line r with
  | (("", None), r') => match fuel with O => (("", None), r') | S fuel' => header_line fuel' r' end
  | other => other
  end.

(** ** Chunks *)

(** [endOfChunk] on the signer and what was hashed: the signer to go on with. *)
Definition check_chunk (s : option chunkSigner) (hashed : bytes) (want : string) : res (option chunkSigner) :=
  match s with
  | None => Ok None
  | Some g =>
      if String.eqb (expect g (hex_EncodeToString (sha256 hashed))) want
      then Ok (Some (mk_chunkSigner (cs_key g) (cs_date g) (cs_scope g) want))
      else Err [ErrMismatch]
  end.

(** The loop of [readTrailers]: it stops at an empty line before it looks at the error. *)
Fixpoint readTrailers (fuel : nat) (acc : Values) (r : reader) : (Values * option error) * reader :=
  match line r with
  | ((l, err), r') =>
      if match err with Some e => errors_Is e EOF | None => false end || String.eqb l "" then ((acc, None), r')
      else match err with
      | Some e => ((acc, Some e), r')
      | None =>
          match Cut l ":" with
          | None => ((acc, Some [ErrMalformed]), r')
          | Some (name, value) =>
              let acc' := header_Add acc (TrimSpace name) (TrimSpace value) in
              match fuel with O => ((acc', None), r') | S fuel' => readTrailers fuel' acc' r' end
          end
      end
  end.

Definition lines_left (r : reader) : nat := S (length (rd_data r)).

(** What a chunk header says: the size and the signature the chunk must have. *)
Definition parse_header (signed : bool) (header : string) : res (Z * string) :=
  let '(sizeHex, params) := match Cut header ";" with Some p => p | None => (header, "") end in
  match ParseInt (TrimSpace sizeHex) 16 with
  | None => Err [ErrMalformed]
  | Some size =>
      if size <? 0 then Err [ErrMalformed]
      else if signed then
        match CutPrefix (TrimSpace params) "chunk-signature=" with
        | None => Err [ErrMalformed]
        | Some sig => Ok (size, sig)
        end
      else Ok (size, "")
  end.

Definition is_signed (s : option chunkSigner) : bool := match s with Some _ => true | None => false end.

(** The header of the following chunk, past the blank lines. *)
Definition next_header (signed : bool) (r : reader) : res (Z * string) * reader :=
  match header_line (lines_left r) r with
  | ((_, Some e), r') => (Err (if errors_Is e EOF then [ErrPayload] else e), r')
  | ((h, None), r') => (parse_header signed h, r')
  end.

(** [next]; the error it returns. *)
Definition next (c : chunkedReader) : option error * chunkedReader :=
  match next_header (is_signed (cr_signer c)) (cr_br c) with
  | (Err e, r) => (Some e, mk_chunkedReader r (cr_signer c) (cr_left c) (cr_hash c) (cr_want c) (cr_done c) (cr_err c) (cr_trailers c))
  | (Ok (size, want), r) =>
      if size =? 0 then
        match check_chunk (cr_signer c) [] want with
        | Err e => (Some e, mk_chunkedReader r (cr_signer c) 0 [] want true (cr_err c) (cr_trailers c))
        | Ok s =>
            let '((trailers, err), r') := readTrailers (lines_left r) ∅ r in
            (err, mk_chunkedReader r' s 0 [] want true (cr_err c) trailers)
        end
      else (None, mk_chunkedReader r (cr_signer c) size [] want (cr_done c) (cr_err c) (cr_trailers c))
  end.

(** What a read comes back with besides its bytes: nothing, [io.EOF], or an error. *)
Inductive outcome := More | End (e : option error).

(** One read of the buffered source, for [want] bytes: how many of them come back is
    the source's choice, and so is whether its last bytes come with the error. *)
Record choice := mk_choice { ch_count : nat; ch_eager : bool }.

Definition br_Read (r : reader) (want : Z) (ch : choice) : bytes * option error * reader :=
  match rd_data r with
  | [] => ([], Some (end_error r), r)
  | d => let n := Z.min (Z.max 1 (Z.of_nat (ch_count ch))) want in
         let r' := mk_reader (dropZ n d) (rd_end r) in
         (takeZ n d, if ch_eager ch && bool_decide (rd_data r' = []) then Some (end_error r) else None, r')
  end.

Definition with_err (c : chunkedReader) (e : error) : chunkedReader :=
  mk_chunkedReader (cr_br c) (cr_signer c) (cr_left c) (cr_hash c) (cr_want c) (cr_done c) (Some e) (cr_trailers c).

(** The second half of [Read], once there is a chunk to read from. *)
Definition read_chunk (c : chunkedReader) (plen : Z) (ch : choice) : bytes * outcome * chunkedReader :=
  let want := Z.min plen (cr_left c) in
  let '(d, err, r) := br_Read (cr_br c) want ch in
  let hashed := if is_signed (cr_signer c) then cr_hash c ++ d else cr_hash c in
  let c1 := mk_chunkedReader r (cr_signer c) (cr_left c - zlen d) hashed (cr_want c) (cr_done c) (cr_err c) (cr_trailers c) in
  match err with
  | Some e => let e' := ErrPayload :: e in (d, End (Some e'), with_err c1 e')
  | None =>
      if cr_left c1 =? 0 then
        match check_chunk (cr_signer c1) (cr_hash c1) (cr_want c1) with
        | Err e => (d, End (Some e), with_err c1 e)
        | Ok s => (d, More, mk_chunkedReader r s 0 (cr_hash c1) (cr_want c1) (cr_done c1) None (cr_trailers c1))
        end
      else (d, More, c1)
  end.

(** [Read] into a buffer of [plen] bytes. The loop over [next] runs at most twice: it
    leaves bytes to read, or the reader is done. *)
Fixpoint read_loop (fuel : nat) (c : chunkedReader) (plen : Z) (ch : choice) : bytes * outcome * chunkedReader :=
  if cr_left c =? 0 then
    if cr_done c then ([], End None, c)
    else match next c with
         | (Some e, c') => ([], End (Some e), with_err c' e)
         | (None, c') => match fuel with O => ([], More, c') | S fuel' => read_loop fuel' c' plen ch end
         end
  else read_chunk c plen ch.

Definition Read (c : chunkedReader) (plen : Z) (ch : choice) : bytes * outcome * chunkedReader :=
  match cr_err c with
  | Some e => ([], End (Some e), c)
  | None => read_loop 1 c plen ch
  end.

(** Reading to the end with a sequence of buffers and choices, which last as long as it
    takes: every read that is not the last yields a byte. *)
Fixpoint drain (fuel : nat) (reads : nat -> Z * choice) (c : chunkedReader) : option (bytes * option error * chunkedReader) :=
  match fuel with
  | O => None
  | S fuel' =>
      match Read c (reads fuel').1 (reads fuel').2 with
      | (d, End e, c') => Some (d, e, c')
      | (d, More, c') => match drain fuel' reads c' with
                         | Some (d', e, c'') => Some (d ++ d', e, c'')
                         | None => None
                         end
      end
  end.

(** ** What the framing means *)

(** A body, a chunk at a time: the bytes handed on, how the reading ends, the trailers. *)
Fixpoint unframe (fuel : nat) (s : option chunkSigner) (r : reader) : bytes * option error * Values :=
  match fuel with
  | O => ([], Some errors_New, ∅)
  | S fuel' =>
      match next_header (is_signed s) r with
      | (Err e, _) => ([], Some e, ∅)
      | (Ok (size, want), r1) =>
          if size =? 0 then
            match check_chunk s [] want with
            | Err e => ([], Some e, ∅)
            | Ok _ => let '((trailers, err), _) := readTrailers (lines_left r1) ∅ r1 in ([], err, trailers)
            end
          else if zlen (rd_data r1) <? size then (rd_data r1, Some (ErrPayload :: end_error r1), ∅)
          else
            let d := takeZ size (rd_data r1) in
            match check_chunk s d want with
            | Err e => (d, Some e, ∅)
            | Ok s' =>
                let '(d', e, trailers) := unframe fuel' s' (mk_reader (dropZ size (rd_data r1)) (rd_end r1)) in
                (d ++ d', e, trailers)
            end
      end
  end.

Definition unframed (s : option chunkSigner) (r : reader) : bytes * option error * Values := unframe (lines_left r) s r.

(** ** Framing lines use up the source *)

Lemma span_line_app l a b found : span_line l = (a, b, found) -> l = a ++ b.
Proof.
  revert a b found. induction l as [|c l IH]; intros a b found; simpl; [by intros [= <- <- <-]|].
  destruct (byteZ c =? 10); [by intros [= <- <- <-]|]. destruct (span_line l) as [[a' b'] f'] eqn:E.
  intros [= <- <- <-]. simpl. f_equal. by eapply IH.
Qed.

Lemma span_line_found l a b : span_line l = (a, b, true) -> a <> [].
Proof.
  destruct l as [|c l]; simpl; [done|]. destruct (byteZ c =? 10); [by intros [= <- <-]|].
  destruct (span_line l) as [[a' b'] f']. by intros [= <- _ _].
Qed.

Lemma line_spec r l err r' : line r = ((l, err), r') ->
  rd_end r' = rd_end r /\ (exists a, rd_data r = a ++ rd_data r' /\ (a = [] -> l = "" /\ err <> None)).
Proof.
  unfold line. destruct (span_line (rd_data r)) as [[a b] found] eqn:E. pose proof (span_line_app _ _ _ _ E) as Hab.
  destruct (maxFramingLine <? zlen a) eqn:Hlong.
  { intros [= <- <- <-]. split; [done|]. exists a. done. }
  destruct found.
  { intros [= <- <- <-]. split; [done|]. exists a. split; [done|]. intros ->. by apply span_line_found in E. }
  destruct (errors_Is (end_error r) EOF).
  - destruct (bool_decide_reflect (a = [])) as [->|Ha]; intros [= <- <- <-]; (split; [done|]); [exists []; done|].
    exists a. done.
  - intros [= <- <- <-]. split; [done|]. exists a. done.
Qed.

Lemma line_length r l err r' : line r = ((l, err), r') -> (length (rd_data r') <= length (rd_data r))%nat /\
  (err = None -> (length (rd_data r') < length (rd_data r))%nat).
Proof.
  intros (_ & a & Ha & Hn)%line_spec. rewrite Ha, length_app. split; [lia|].
  intros ->. destruct a as [|x a]; [destruct (Hn eq_refl); done|]. simpl. lia.
Qed.

(** The blank lines never run out before the fuel does, and a header takes up a byte. *)
Lemma header_line_spec fuel : forall r h err r', (length (rd_data r) < fuel)%nat -> header_line fuel r = ((h, err), r') ->
  rd_end r' = rd_end r /\ (length (rd_data r') <= length (rd_data r))%nat /\
  (err = None -> h <> "" /\ (length (rd_data r') < length (rd_data r))%nat).
Proof.
  induction fuel as [|fuel IH]; intros r h err r' Hf; [lia|]. cbn [header_line].
  destruct (line r) as [[l e] r1] eqn:E. pose proof (line_length _ _ _ _ E) as [Hle Hlt].
  apply line_spec in E as [Hend _].
  destruct l as [|c l]; [destruct e as [e|]|].
  - intros [= <- <- <-]. done.
  - intros H. apply IH in H as (H1 & H2 & H3); [|specialize (Hlt eq_refl); lia].
    split; [congruence|]. split; [lia|]. intros He. destruct (H3 He). split; [done|]. specialize (Hlt eq_refl). lia.
  - intros [= <- <- <-]. split; [done|]. split; [done|]. intros ->. split; [done | auto].
Qed.

Lemma next_header_spec signed r out r' : next_header signed r = (out, r') ->
  rd_end r' = rd_end r /\ (forall size want, out = Ok (size, want) ->
    0 <= size /\ (length (rd_data r') < length (rd_data r))%nat).
Proof.
  unfold next_header. destruct (header_line (lines_left r) r) as [[h e] r1] eqn:E.
  apply header_line_spec in E as (Hend & _ & Hlt); [|unfold lines_left; lia].
  destruct e as [e|]; intros [= <- <-]; (split; [done|]); [done|]. intros size want. split; [|by apply Hlt].
  revert H. unfold parse_header. destruct (match Cut h ";" with Some p => p | None => (h, "") end) as [a b].
  destruct (ParseInt (TrimSpace a) 16) as [n|]; [|done]. destruct (Z.ltb_spec n 0); [done|].
  destruct signed; [|by intros [= <- <-]]. destruct (CutPrefix _ _); [by intros [= <- <-] | done].
Qed.

(** More fuel than the source has bytes changes nothing. *)
Lemma unframe_fuel s : forall n m r, (length (rd_data r) < n)%nat -> (length (rd_data r) < m)%nat ->
  unframe n s r = unframe m s r.
Proof.
  intros n. revert s. induction n as [|n IH]; intros s m r Hn Hm; [lia|]. destruct m as [|m]; [lia|].
  cbn [unframe]. destruct (next_header (is_signed s) r) as [[[size want]|e] r1] eqn:E; [|done].
  apply next_header_spec in E as (_ & Hlt). destruct (Hlt _ _ eq_refl) as [Hs Hl].
  destruct (size =? 0); [done|]. destruct (zlen (rd_data r1) <? size); [done|].
  destruct (check_chunk s _ want) as [s'|]; [|done]. rewrite (IH s' m); [done| |]; simpl; unfold dropZ; rewrite length_drop; lia.
Qed.

Lemma unframed_step s r : unframed s r =
  match next_header (is_signed s) r with
  | (Err e, _) => ([], Some e, ∅)
  | (Ok (size, want), r1) =>
      if size =? 0 then
        match check_chunk s [] want with
        | Err e => ([], Some e, ∅)
        | Ok _ => let '((trailers, err), _) := readTrailers (lines_left r1) ∅ r1 in ([], err, trailers)
        end
      else if zlen (rd_data r1) <? size then (rd_data r1, Some (ErrPayload :: end_error r1), ∅)
      else
        let d := takeZ size (rd_data r1) in
        match check_chunk s d want with
        | Err e => (d, Some e, ∅)
        | Ok s' =>
            let '(d', e, trailers) := unframed s' (mk_reader (dropZ size (rd_data r1)) (rd_end r1)) in
            (d ++ d', e, trailers)
        end
  end.
Proof.
  unfold unframed at 1, lines_left. cbn [unframe].
  destruct (next_header (is_signed s) r) as [[[size want]|e] r1] eqn:E; [|done].
  apply next_header_spec in E as (_ & Hlt). destruct (Hlt _ _ eq_refl) as [Hs Hl].
  destruct (size =? 0); [done|]. destruct (zlen (rd_data r1) <? size); [done|]. cbv zeta.
  destruct (check_chunk s _ want) as [s'|]; [|done]. unfold unframed.
  rewrite (unframe_fuel s' _ (lines_left (mk_reader (dropZ size (rd_data r1)) (rd_end r1)))); [done| |];
    unfold lines_left; simpl; unfold dropZ; rewrite length_drop; lia.
Qed.

(** ** One read *)

Abbreviation reading := (bytes * option error * Values)%type.

Definition prepend (d : bytes) (x : reading) : reading := let '(d', e, t) := x in (d ++ d', e, t).

(** What is still to come from a chunk of which [left] bytes are missing and [hashed]
    has been read, and then from the rest of the body. *)
Definition mid_chunk (s : option chunkSigner) (hashed : bytes) (left : Z) (want : string) (r : reader) : reading :=
  if zlen (rd_data r) <? left then (rd_data r, Some (ErrPayload :: end_error r), ∅)
  else
    let d := takeZ left (rd_data r) in
    match check_chunk s (hashed ++ d) want with
    | Err e => (d, Some e, ∅)
    | Ok s' => prepend d (unframed s' (mk_reader (dropZ left (rd_data r)) (rd_end r)))
    end.

(** What is still to come from a reader in the middle of its work. *)
Definition rest_of (c : chunkedReader) : reading :=
  match cr_err c with
  | Some e => ([], Some e, cr_trailers c)
  | None =>
      if cr_left c =? 0 then
        if cr_done c then ([], None, cr_trailers c) else unframed (cr_signer c) (cr_br c)
      else mid_chunk (cr_signer c) (cr_hash c) (cr_left c) (cr_want c) (cr_br c)
  end.

(** The states a reader can be in between two reads. *)
Definition reader_ok (c : chunkedReader) : Prop :=
  0 <= cr_left c /\ (cr_err c = None -> cr_done c = false -> cr_trailers c = ∅) /\ (0 < cr_left c -> cr_done c = false).

(** The same bytes and trailers, and an error on one side exactly when there is on the
    other; the same error, unless a source gave its last bytes together with its own. *)
Definition same_reading (eager : bool) (x y : reading) : Prop :=
  x.1.1 = y.1.1 /\ x.2 = y.2 /\ (x.1.2 = None <-> y.1.2 = None) /\ (eager = false -> x.1.2 = y.1.2).

Lemma same_reading_refl eager x : same_reading eager x x.
Proof. done. Qed.

Lemma same_reading_prepend eager d x y : same_reading eager x y -> same_reading eager (prepend d x) (prepend d y).
Proof. destruct x as [[? ?] ?], y as [[? ?] ?]. unfold same_reading. simpl. intros (-> & ?). done. Qed.

(** An unsigned chunk is not hashed, and does not need to be. *)
Lemma check_chunk_hash s h d want :
  check_chunk s (if is_signed s then h ++ d else h) want = check_chunk s (h ++ d) want.
Proof. by destruct s. Qed.

Lemma unframed_nothing s r : rd_data r = [] -> exists e, unframed s r = ([], Some e, ∅).
Proof.
  intros H. rewrite unframed_step. unfold next_header, lines_left, header_line. rewrite H. cbn [length].
  unfold line. rewrite H. cbn [span_line]. change (maxFramingLine <? zlen (@nil byte)) with false.
  destruct (errors_Is (end_error r) EOF); eauto.
Qed.

Lemma prepend_app a b x : prepend (a ++ b) x = prepend a (prepend b x).
Proof. destruct x as [[? ?] ?]. simpl. by rewrite app_assoc. Qed.

Lemma prepend_nil x : prepend [] x = x.
Proof. by destruct x as [[? ?] ?]. Qed.

(** Reading some of a chunk leaves the rest of it. *)
Lemma mid_chunk_app s h left want d r r' : rd_data r = d ++ rd_data r' -> rd_end r' = rd_end r -> zlen d <= left ->
  mid_chunk s h left want r = prepend d (mid_chunk s (h ++ d) (left - zlen d) want r').
Proof.
  intros Hd He Hl. unfold mid_chunk, end_error. rewrite Hd, He, zlen_app, takeZ_app_ge, dropZ_app_ge by done.
  destruct (Z.ltb_spec (zlen d + zlen (rd_data r')) left); destruct (Z.ltb_spec (zlen (rd_data r')) (left - zlen d));
    try lia; [done|]. cbv zeta. rewrite <- app_assoc. destruct (check_chunk _ _ _); [|done]. apply prepend_app.
Qed.

Lemma mid_chunk_hash s h d left want r :
  mid_chunk s (if is_signed s then h ++ d else h) left want r = mid_chunk s (h ++ d) left want r.
Proof. by destruct s. Qed.

Lemma br_Read_spec r want ch d err r' : 1 <= want -> br_Read r want ch = (d, err, r') ->
  rd_data r = d ++ rd_data r' /\ rd_end r' = rd_end r /\ zlen d <= want /\
  match err with
  | None => d <> []
  | Some e => e = end_error r /\ rd_data r' = [] /\ (d = [] \/ ch_eager ch = true)
  end.
Proof.
  intros Hw. unfold br_Read. destruct (rd_data r) as [|x data] eqn:E.
  { intros [= <- <- <-]. split; [done|]. split; [done|]. split; [change (zlen (@nil byte)) with 0; lia|]. auto. }
  set (n := Z.min _ want). assert (Hn : 1 <= n <= want) by lia. clearbody n. rewrite <- E. intros [= <- <- <-].
  cbn [rd_data rd_end]. rewrite takeZ_dropZ. split; [done|]. split; [done|].
  split; [rewrite zlen_takeZ by lia; lia|]. destruct (ch_eager ch); simpl.
  - destruct (bool_decide_reflect (dropZ n (rd_data r) = [])) as [Hd|Hd]; [auto|].
    intros Ht%(f_equal zlen). rewrite zlen_takeZ, E, zlen_cons in Ht by lia. change (zlen (@nil byte)) with 0 in Ht.
    pose proof (zlen_nonneg data). lia.
  - intros Ht%(f_equal zlen). rewrite zlen_takeZ, E, zlen_cons in Ht by lia. change (zlen (@nil byte)) with 0 in Ht.
    pose proof (zlen_nonneg data). lia.
Qed.

Definition step_ok (eager : bool) (c : chunkedReader) (d : bytes) (out : outcome) (c' : chunkedReader) : Prop :=
  reader_ok c' /\
  match out with
  | More => same_reading eager (prepend d (rest_of c')) (rest_of c) /\ (length (rd_data (cr_br c')) < length (rd_data (cr_br c)))%nat
  | End e => same_reading eager (d, e, cr_trailers c') (rest_of c)
  end.

Lemma rest_of_read_chunk c plen ch d out c' : reader_ok c -> cr_err c = None -> 0 < cr_left c -> 1 <= plen ->
  read_chunk c plen ch = (d, out, c') -> step_ok (ch_eager ch) c d out c'.
Proof.
  intros (Hl & Ht & Hd) Herr Hleft Hplen. specialize (Ht Herr (Hd Hleft)). specialize (Hd Hleft).
  unfold read_chunk. destruct (br_Read (cr_br c) (Z.min plen (cr_left c)) ch) as [[d0 err] r] eqn:Hr.
  apply br_Read_spec in Hr as (Hdata & Hend & Hlen & Hout); [|lia].
  assert (Hrest : rest_of c = prepend d0 (mid_chunk (cr_signer c) (cr_hash c ++ d0) (cr_left c - zlen d0) (cr_want c) r)).
  { unfold rest_of. rewrite Herr, (proj2 (Z.eqb_neq (cr_left c) 0)) by lia. apply mid_chunk_app; [done|done|lia]. }
  unfold step_ok. rewrite Hrest. destruct err as [e|].
  - destruct Hout as (-> & Hnil & Hwhy). intros [= <- <- <-]. unfold reader_ok. simpl. rewrite Ht.
    split; [split_and!; [lia | done | done]|]. unfold mid_chunk. rewrite Hnil. change (zlen (@nil byte)) with 0.
    destruct (Z.ltb_spec 0 (cr_left c - zlen d0)) as [Hlt|Hge].
    { simpl. unfold end_error. rewrite Hend, app_nil_r. apply same_reading_refl. }
    destruct Hwhy as [-> | ->]; [change (zlen (@nil byte)) with 0 in Hge; lia|].
    assert (Hz : takeZ (cr_left c - zlen d0) (@nil byte) = []) by (unfold takeZ; apply take_nil).
    assert (Hy : dropZ (cr_left c - zlen d0) (@nil byte) = []) by (unfold dropZ; apply drop_nil). rewrite Hz, Hy.
    destruct (check_chunk _ _ _) as [s'|e']; [|by unfold same_reading; simpl; rewrite app_nil_r].
    destruct (unframed_nothing s' (mk_reader [] (rd_end r)) eq_refl) as [e2 ->].
    by unfold same_reading; simpl; rewrite !app_nil_r.
  - cbn [cr_left cr_signer cr_hash cr_want cr_done cr_trailers cr_br].
    assert (Hshort : (length (rd_data r) < length (rd_data (cr_br c)))%nat).
    { rewrite Hdata, length_app. destruct d0; [done|]. simpl. lia. }
    destruct (Z.eqb_spec (cr_left c - zlen d0) 0) as [Hz|Hz].
    + rewrite check_chunk_hash. unfold mid_chunk. rewrite Hz. pose proof (zlen_nonneg (rd_data r)).
      rewrite (proj2 (Z.ltb_ge (zlen (rd_data r)) 0)) by lia. rewrite takeZ_0, dropZ_0, app_nil_r.
      destruct (check_chunk _ _ _) as [s'|e']; intros [= <- <- <-]; unfold reader_ok; simpl; rewrite Ht;
        (split; [split_and!; (done || lia)|]).
      * split; [|done]. unfold rest_of. simpl. rewrite Hd. destruct r as [rd re]. simpl in *. rewrite prepend_nil. apply same_reading_refl.
      * rewrite app_nil_r. apply same_reading_refl.
    + intros [= <- <- <-]. unfold reader_ok. simpl. rewrite Ht. split; [split_and!; (done || lia)|]. split; [|done].
      unfold rest_of. simpl. rewrite Herr, (proj2 (Z.eqb_neq _ 0)) by lia. rewrite mid_chunk_hash. apply same_reading_refl.
Qed.

Lemma unframed_chunk s r size want r1 : next_header (is_signed s) r = (Ok (size, want), r1) -> size <> 0 ->
  unframed s r = mid_chunk s [] size want r1.
Proof.
  intros H Hs. rewrite unframed_step, H, (proj2 (Z.eqb_neq size 0)) by done. unfold mid_chunk, prepend. done.
Qed.

Lemma Read_step c plen ch d out c' : reader_ok c -> 1 <= plen -> Read c plen ch = (d, out, c') ->
  step_ok (ch_eager ch) c d out c'.
Proof.
  intros Hok Hplen. unfold Read. destruct (cr_err c) as [e|] eqn:Herr.
  { intros [= <- <- <-]. split; [done|]. unfold rest_of. rewrite Herr. apply same_reading_refl. }
  cbn [read_loop]. destruct Hok as (Hl & Ht & Hd).
  destruct (Z.eqb_spec (cr_left c) 0) as [Hz|Hz]; [|apply rest_of_read_chunk; [done|done|lia|done]].
  destruct (cr_done c) eqn:Hdone.
  { intros [= <- <- <-]. unfold step_ok, rest_of, reader_ok. rewrite Herr, Hz, Hdone, Z.eqb_refl. split; [split_and!; (done || lia)|].
    apply same_reading_refl. }
  specialize (Ht Herr eq_refl). assert (Hrest : rest_of c = unframed (cr_signer c) (cr_br c)).
  { unfold rest_of. by rewrite Herr, Hz, Hdone, Z.eqb_refl. }
  unfold next. destruct (next_header (is_signed (cr_signer c)) (cr_br c)) as [[[size want]|e] r] eqn:Hh.
  2: { intros [= <- <- <-]. unfold step_ok, reader_ok. rewrite Hrest, unframed_step, Hh. simpl. rewrite Ht.
       split; [split_and!; (done || lia)|]. apply same_reading_refl. }
  pose proof (next_header_spec _ _ _ _ Hh) as [_ Hsize]. destruct (Hsize _ _ eq_refl) as [Hs0 Hshort].
  destruct (Z.eqb_spec size 0) as [->|Hs].
  - unfold step_ok. rewrite Hrest, unframed_step, Hh. cbn [Z.eqb]. destruct (check_chunk (cr_signer c) [] want) as [s|e].
    + destruct (readTrailers (lines_left r) ∅ r) as [[tr [e|]] r'] eqn:Htr; cbn [read_loop cr_left cr_done];
        rewrite ?Z.eqb_refl; intros [= <- <- <-]; unfold reader_ok; simpl; rewrite ?Ht; (split; [split_and!; (done || lia)|]); apply same_reading_refl.
    + intros [= <- <- <-]. unfold reader_ok; simpl; rewrite ?Ht. split; [split_and!; (done || lia)|]. apply same_reading_refl.
  - cbn [read_loop cr_left cr_done]. rewrite (proj2 (Z.eqb_neq size 0)) by done. intros H.
    eapply rest_of_read_chunk in H; [|by unfold reader_ok; simpl; rewrite ?Ht; split_and!; (done || lia)|done|simpl; lia|done].
    unfold step_ok in *. rewrite Hrest. unfold rest_of in H at 2. unfold rest_of in H at 2. cbn [cr_err cr_left] in H.
    rewrite Herr, (proj2 (Z.eqb_neq size 0)) in H by done. cbn [cr_signer cr_hash cr_want cr_br] in H.
    rewrite (unframed_chunk _ _ _ _ _ Hh Hs). destruct out; [|done]. destruct H as (? & ? & ?). simpl in *. split; [done|]. split; [done|]. lia.
Qed.

(** ** Reading to the end *)

Section drain.
Context (reads : nat -> Z * choice) (eager : bool).
Context (Hplen : forall i, 1 <= (reads i).1) (Heager : eager = false -> forall i, ch_eager (reads i).2 = false).

Lemma same_reading_weaken i x y : same_reading (ch_eager (reads i).2) x y -> same_reading eager x y.
Proof using Heager.
  intros (? & ? & ? & H). split; [done|]. split; [done|]. split; [done|]. intros He. apply H. by apply Heager.
Qed.

Lemma same_reading_trans x y z : same_reading eager x y -> same_reading eager y z -> same_reading eager x z.
Proof.
  intros (H1 & H2 & H3 & H4) (K1 & K2 & K3 & K4). split; [congruence|]. split; [congruence|].
  split; [tauto|]. intros He. rewrite H4, K4; done.
Qed.

Lemma drain_rest fuel : forall c, reader_ok c -> (length (rd_data (cr_br c)) < fuel)%nat ->
  exists d e c', drain fuel reads c = Some (d, e, c') /\ same_reading eager (d, e, cr_trailers c') (rest_of c).
Proof using Hplen Heager.
  induction fuel as [|fuel IH]; intros c Hok Hf; [lia|]. cbn [drain].
  destruct (Read c (reads fuel).1 (reads fuel).2) as [[d out] c'] eqn:Hr.
  apply Read_step in Hr as [Hok' Hout]; [|done|apply Hplen]. destruct out as [|e].
  - destruct Hout as [Hsame Hlt]. destruct (IH c' Hok' ltac:(lia)) as (d' & e & c'' & -> & Hr').
    eexists _, _, _. split; [done|]. eapply same_reading_trans; [|by eapply same_reading_weaken].
    change (d ++ d', e, cr_trailers c'') with (prepend d (d', e, cr_trailers c'')). by apply same_reading_prepend.
  - eexists _, _, _. split; [done|]. by eapply same_reading_weaken.
Qed.
End drain.

(** C17: however a streamed body is read, in buffers of any size and with a source that
    returns any part of what was asked for, reading it to the end takes no more
    reads than it has bytes, hands on exactly the bytes and trailers the framing means, and
    ends with an error exactly when the framing does; the same error, if the source
    does not return its own error along with its last bytes. *)
Theorem drain_unframes (reads : nat -> Z * choice) (r : reader) (s : option chunkSigner) :
  (forall i, 1 <= (reads i).1) ->
  exists d e c', drain (S (length (rd_data r))) reads (newChunkedReader r s) = Some (d, e, c') /\
    let '(d', e', trailers) := unframed s r in
    d = d' /\ cr_trailers c' = trailers /\ (e = None <-> e' = None) /\
    ((forall i, ch_eager (reads i).2 = false) -> e = e').
Proof.
  intros Hplen.
  destruct (drain_rest reads true Hplen ltac:(done) (S (length (rd_data r))) (newChunkedReader r s)) as (d & e & c' & Hd & Hsame);
    [unfold reader_ok; by simpl | simpl; lia|].
  exists d, e, c'. split; [done|]. unfold rest_of in Hsame. simpl in Hsame. destruct (unframed s r) as [[d' e'] tr] eqn:Eu.
  destruct Hsame as (H1 & H2 & H3 & _). cbn [fst snd] in H1, H2, H3. split; [done|]. split; [done|]. split; [done|]. intros Hne.
  destruct (drain_rest reads false Hplen ltac:(done) (S (length (rd_data r))) (newChunkedReader r s)) as (d2 & e2 & c2 & Hd2 & Hsame2);
    [unfold reader_ok; by simpl | simpl; lia|].
  rewrite Hd in Hd2. injection Hd2 as <- <- <-. unfold rest_of in Hsame2. simpl in Hsame2. rewrite Eu in Hsame2.
  by apply Hsame2.
Qed.

(** ** What an accepted body carries *)

(** The signatures a client computes for its chunks, the last one for the empty chunk. *)
Definition advance (s : chunkSigner) (sig : string) : chunkSigner := mk_chunkSigner (cs_key s) (cs_date s) (cs_scope s) sig.

Definition chunk_sig (s : chunkSigner) (d : bytes) : string := expect s (hex_EncodeToString (sha256 d)).

Fixpoint chain (s : chunkSigner) (ds : list bytes) : list (bytes * string) :=
  match ds with
  | [] => [([], chunk_sig s [])]
  | d :: ds' => (d, chunk_sig s d) :: chain (advance s (chunk_sig s d)) ds'
  end.

(** The chunks of a source, each with the signature its header carries. *)
Inductive carries : reader -> list (bytes * string) -> Prop :=
  | carries_last r sig r1 : next_header true r = (Ok (0, sig), r1) -> carries r [([], sig)]
  | carries_more r size sig r1 l :
      next_header true r = (Ok (size, sig), r1) -> 0 < size <= zlen (rd_data r1) ->
      carries (mk_reader (dropZ size (rd_data r1)) (rd_end r1)) l ->
      carries r ((takeZ size (rd_data r1), sig) :: l).

Lemma check_chunk_Ok g d want s' : check_chunk (Some g) d want = Ok s' -> want = chunk_sig g d /\ s' = Some (advance g want).
Proof.
  unfold check_chunk, chunk_sig. destruct (String.eqb_spec (expect g (hex_EncodeToString (sha256 d))) want) as [<-|]; [|done].
  by intros [= <-].
Qed.

Lemma unframe_carries fuel : forall g r d trailers, unframe fuel (Some g) r = (d, None, trailers) ->
  exists ds, d = concat ds /\ Forall (fun c => c <> []) ds /\ carries r (chain g ds).
Proof.
  induction fuel as [|fuel IH]; intros g r d trailers; [done|]. cbn [unframe is_signed].
  destruct (next_header true r) as [[[size want]|e] r1] eqn:Hh; [|done].
  pose proof (next_header_spec _ _ _ _ Hh) as [_ Hs]. destruct (Hs _ _ eq_refl) as [Hs0 _].
  destruct (Z.eqb_spec size 0) as [->|Hne].
  { destruct (check_chunk (Some g) [] want) as [s'|] eqn:Hc; [|done]. apply check_chunk_Ok in Hc as [-> _].
    destruct (readTrailers _ _ _) as [[tr err] r2]. intros [= <- -> <-]. exists []. split; [done|]. split; [done|].
    by econstructor. }
  destruct (Z.ltb_spec (zlen (rd_data r1)) size); [done|].
  destruct (check_chunk (Some g) _ want) as [s'|] eqn:Hc; [|done]. apply check_chunk_Ok in Hc as [Hw ->].
  destruct (unframe fuel _ _) as [[d' e'] tr] eqn:Hrec. intros [= <- -> <-].
  apply IH in Hrec as (ds & -> & Hall & Hcar). exists (takeZ size (rd_data r1) :: ds). split; [done|].
  split; [constructor; [|done] | cbn [chain]; rewrite <- Hw; econstructor; [done | lia | done]].
  intros Hnil%(f_equal zlen). rewrite zlen_takeZ in Hnil by lia. change (zlen (@nil byte)) with 0 in Hnil. lia.
Qed.

(** C16: a signed streamed body that is read to a clean end is authentic. The bytes handed
    on are the chunks of the source in order, and the signatures its headers carry are,
    one by one and up to the final empty chunk, the chain the holder of the key
    computes over exactly those chunks: none was changed, dropped, added or reordered. *)
Theorem drain_authentic (reads : nat -> Z * choice) (r : reader) (g : chunkSigner) (d : bytes) (c' : chunkedReader) :
  (forall i, 1 <= (reads i).1) ->
  drain (S (length (rd_data r))) reads (newChunkedReader r (Some g)) = Some (d, None, c') ->
  exists ds, d = concat ds /\ Forall (fun c => c <> []) ds /\ carries r (chain g ds).
Proof.
  intros Hplen Hd.
  destruct (drain_rest reads true Hplen ltac:(done) (S (length (rd_data r))) (newChunkedReader r (Some g))) as (d2 & e2 & c2 & Hd2 & Hs);
    [unfold reader_ok; by simpl | simpl; lia|]. rewrite Hd in Hd2. injection Hd2 as <- <- <-.
  unfold rest_of in Hs. cbn [cr_err newChunkedReader cr_left Z.eqb cr_done cr_signer cr_br] in Hs.
  destruct (unframed (Some g) r) as [[d' e'] tr] eqn:Eu. destruct Hs as (H1 & _ & H3 & _). cbn [fst snd] in *.
  destruct H3 as [H3 _]. specialize (H3 eq_refl). subst. by eapply unframe_carries.
Qed.

(** ** What a client sends *)

Definition crlf : bytes := [byte_of 13; byte_of 10].

Definition sig_of (s : option chunkSigner) (d : bytes) : string :=
  match s with Some g => ";chunk-signature=" +:+ chunk_sig g d | None => "" end.

Definition advanced (s : option chunkSigner) (d : bytes) : option chunkSigner :=
  match s with Some g => Some (advance g (chunk_sig g d)) | None => None end.

Definition header_text (s : option chunkSigner) (d : bytes) : string := format_uint 16 (zlen d) +:+ sig_of s d.

Fixpoint client_frames (s : option chunkSigner) (ds : list bytes) (tail : bytes) : bytes :=
  match ds with
  | [] => to_bytes (header_text s []) ++ crlf ++ tail
  | d :: ds' => to_bytes (header_text s d) ++ crlf ++ d ++ crlf ++ client_frames (advanced s d) ds' tail
  end.

Definition trailer_lines (ts : list (string * string)) : bytes :=
  concat (map (fun nv => to_bytes (nv.1 +:+ ":" +:+ nv.2) ++ crlf) ts) ++ crlf.

Definition client_body (s : option chunkSigner) (ds : list bytes) (ts : list (string * string)) : bytes :=
  client_frames s ds (trailer_lines ts).

(** A line that is sent as it is: no line feed in it, and no carriage return at its end. *)
Definition one_line (t : string) : Prop := has_byte (byte_of 10) t = false /\ last (to_bytes t) <> Some (byte_of 13).

(** A trailer the server takes: any name without a colon, empty or not, and any value, with
    spaces or not, on one line of the length the server allows. *)
Definition trailer_ok (nv : string * string) : Prop :=
  has_byte (byte_of 10) nv.1 = false /\ has_byte ":" nv.1 = false /\ one_line nv.2 /\
  Z.of_nat (slen nv.1 + 1 + slen nv.2 + 2) <= maxFramingLine.

(** ** Round trip *)

Lemma byte_of_iff c k : 0 <= k < 256 -> byteZ c = k <-> c = byte_of k.
Proof. intros Hk. split; [intros <-; by rewrite byte_of_byteZ | intros ->; by apply byteZ_of]. Qed.

Lemma line_end_spec c : line_end c = false <-> c <> byte_of 10 /\ c <> byte_of 13.
Proof. unfold line_end. by rewrite orb_false_iff, !Z.eqb_neq, !byte_of_iff by lia. Qed.

Lemma span_line_text t rest : byte_of 10 ∉ t -> span_line (t ++ crlf ++ rest) = (t ++ crlf, rest, true).
Proof.
  induction t as [|c t IH]; [done|]. intros [Hc Ht]%not_elem_of_cons. rewrite <- !app_comm_cons. cbn [span_line].
  destruct (Z.eqb_spec (byteZ c) 10) as [H|_]; [|by rewrite IH]. destruct Hc. symmetry. by apply byte_of_iff.
Qed.

Lemma trim_line_text t : byte_of 10 ∉ t -> last t <> Some (byte_of 13) -> trim_line (t ++ crlf) = t.
Proof.
  induction t as [|c t IH]; [done|]. intros [Hc Ht]%not_elem_of_cons Hl. rewrite <- app_comm_cons. cbn [trim_line].
  destruct t as [|c' t'].
  - change (trim_line ([] ++ crlf)) with (@nil byte). cbn iota. rewrite (proj2 (line_end_spec c)); [done|].
    split; [done|]. intros ->. by apply Hl.
  - rewrite IH by done. done.
Qed.

(** A framing line is read as it was written. *)
Lemma line_text t rest e : one_line t -> (slen t <= 1022)%nat ->
  line (mk_reader (to_bytes t ++ crlf ++ rest) e) = ((t, None), mk_reader rest e).
Proof.
  intros [Hlf Hcr] Hl. unfold line. cbn [rd_data rd_end].
  assert (Hin : byte_of 10 ∉ to_bytes t) by (intros H%has_byte_In; congruence).
  rewrite span_line_text, trim_line_text, of_to_bytes by done.
  rewrite (proj2 (Z.ltb_ge maxFramingLine _)); [done|]. unfold maxFramingLine, zlen.
  rewrite length_app, length_to_bytes. simpl. lia.
Qed.

Lemma graphic_one_line t : all_bytes graphic t = true -> one_line t.
Proof.
  intros Hg. assert (Hne : forall k, k = 10 \/ k = 13 -> byte_of k ∉ to_bytes t).
  { intros k Hk Hin. pose proof (proj1 (all_bytes_In graphic t) Hg _ Hin) as Hc. by destruct Hk as [-> | ->]. }
  split; [apply not_true_is_false; intros Hb%has_byte_In; by eapply Hne; [|exact Hb]; left|].
  intros Hl%last_Some_elem_of. by eapply Hne; [|exact Hl]; right.
Qed.

Lemma line_blank rest e : line (mk_reader (crlf ++ rest) e) = (("", None), mk_reader rest e).
Proof. apply (line_text "" rest e); [done | simpl; lia]. Qed.

Lemma all_bytes_app P a b : all_bytes P (a +:+ b) = all_bytes P a && all_bytes P b.
Proof. induction a as [|c a IH]; simpl; [done|]. by rewrite IH, andb_assoc. Qed.

(** Digits are printable and are neither separators. *)
Definition digit_like (c : byte) : bool := is_digit (byteZ c) || ((97 <=? byteZ c) && (byteZ c <=? 122)).

Lemma digit_char_like d : 0 <= d < 36 -> digit_like (digit_char d) = true.
Proof.
  intros H. unfold digit_like, digit_char, is_digit. destruct (Z.ltb_spec d 10); rewrite byteZ_of by lia;
    apply orb_true_iff; [left | right]; apply andb_true_iff; split; apply Z.leb_le; lia.
Qed.

Lemma format_go_like fuel base : 2 <= base <= 36 -> forall n acc, all_bytes digit_like acc = true ->
  all_bytes digit_like (format_go fuel base n acc) = true.
Proof.
  intros Hb. induction fuel as [|fuel IH]; intros n acc Ha; [done|]. cbn [format_go].
  assert (Hd : all_bytes digit_like (String (digit_char (n mod base)) acc) = true).
  { cbn [all_bytes]. rewrite Ha, andb_true_r. apply digit_char_like. pose proof (Z.mod_pos_bound n base). lia. }
  destruct (n <? base); [done | by apply IH].
Qed.

Lemma format_uint_like base n : 2 <= base <= 36 -> all_bytes digit_like (format_uint base n) = true.
Proof. intros H. by apply format_go_like. Qed.

Lemma hex_like bs : all_bytes digit_like (hex_EncodeToString bs) = true.
Proof.
  induction bs as [|b bs IH]; [done|]. cbn [hex_EncodeToString all_bytes]. pose proof (byteZ_range b).
  rewrite !digit_char_like by dlia. by rewrite IH.
Qed.

Lemma all_bytes_impl (P Q : byte -> bool) s : (forall c, P c = true -> Q c = true) -> all_bytes P s = true -> all_bytes Q s = true.
Proof. intros H. rewrite !all_bytes_In. auto. Qed.

Lemma digit_like_graphic c : digit_like c = true -> graphic c = true.
Proof.
  unfold digit_like, graphic, is_digit. intros [H|H]%orb_true_iff; bool_facts; apply andb_true_iff; split; apply Z.leb_le; lia.
Qed.

Lemma digit_like_no c s : digit_like c = false -> all_bytes digit_like s = true -> has_byte c s = false.
Proof.
  intros Hc Hs. destruct (has_byte c s) eqn:E; [|done]. apply has_byte_In in E.
  rewrite all_bytes_In in Hs. apply Hs in E. congruence.
Qed.

Lemma chunk_sig_like g d : all_bytes digit_like (chunk_sig g d) = true.
Proof. apply hex_like. Qed.

Lemma slen_chunk_sig g d : slen (chunk_sig g d) = 64%nat.
Proof. unfold chunk_sig, expect, sign. rewrite slen_hex. unfold hmacSHA256, hmac_sha256. by rewrite length_sha256. Qed.

Lemma header_text_ok s d : zlen d < 2 ^ 63 -> all_bytes graphic (header_text s d) = true /\ (slen (header_text s d) <= 200)%nat.
Proof.
  intros Hd. unfold header_text, sig_of. rewrite all_bytes_app, slen_app.
  rewrite (all_bytes_impl digit_like graphic) by (auto using digit_like_graphic, format_uint_like || (apply format_uint_like; lia)).
  pose proof (slen_format_go (S (Z.to_nat (Z.log2 (zlen d)))) 16 (zlen d) "" 16 ltac:(lia) ltac:(lia)) as Hf.
  fold (format_uint 16 (zlen d)) in Hf. simpl slen in Hf. pose proof (zlen_nonneg d).
  assert (slen (format_uint 16 (zlen d)) <= 16)%nat by (rewrite Nat.add_0_r in Hf; apply Hf; simpl Z.of_nat; lia).
  destruct s as [g|]; [|simpl; split; [done | lia]]. rewrite all_bytes_app, slen_app, slen_chunk_sig.
  rewrite (all_bytes_impl digit_like graphic (chunk_sig g d)) by (auto using digit_like_graphic, chunk_sig_like).
  split; [done | simpl; lia].
Qed.

Lemma ParseInt_format base n : 2 <= base <= 36 -> 0 <= n < 2 ^ 63 -> ParseInt (format_uint base n) base = Some n.
Proof.
  intros Hb H. pose proof (format_uint_like base n Hb) as Hl.
  assert (Hu : ParseUint (format_uint base n) base 64 = Some n).
  { pose proof (ParseUint_pad base 0 n 64 ltac:(lia) ltac:(lia)) as Hp. unfold pad in Hp. simpl in Hp. exact Hp. }
  unfold ParseInt. destruct (format_uint base n) as [|c t] eqn:E; [done|]. cbn [all_bytes] in Hl.
  apply andb_true_iff in Hl as [Hc _].
  destruct (Ascii.eqb_spec c "-") as [->|_]; [done|]. destruct (Ascii.eqb_spec c "+") as [->|_]; [done|].
  cbn [orb]. rewrite Hu. by rewrite (proj2 (Z.leb_gt _ _)) by lia.
Qed.

Lemma ParseInt_hex n : 0 <= n < 2 ^ 63 -> ParseInt (format_uint 16 n) 16 = Some n.
Proof. apply ParseInt_format. lia. Qed.

Lemma ParseInt_Itoa n : 0 <= n < 2 ^ 63 -> ParseInt (Itoa n) 10 = Some n.
Proof. intros H. unfold Itoa. rewrite (proj2 (Z.ltb_ge n 0)) by lia. by apply ParseInt_format. Qed.

Lemma parse_header_text s d : zlen d < 2 ^ 63 ->
  parse_header (is_signed s) (header_text s d) = Ok (zlen d, match s with Some g => chunk_sig g d | None => "" end).
Proof.
  intros Hd. pose proof (zlen_nonneg d). pose proof (format_uint_like 16 (zlen d) ltac:(lia)) as Hf.
  assert (Hsemi : has_byte ";" (format_uint 16 (zlen d)) = false) by (by apply digit_like_no).
  assert (Htrim : TrimSpace (format_uint 16 (zlen d)) = format_uint 16 (zlen d)).
  { apply TrimSpace_graphic. revert Hf. apply all_bytes_impl, digit_like_graphic. }
  unfold parse_header, header_text, sig_of. destruct s as [g|]; cbn [is_signed].
  - change (";chunk-signature=" +:+ chunk_sig g d) with (String ";" ("chunk-signature=" +:+ chunk_sig g d)).
    rewrite Cut_byte, Htrim, ParseInt_hex by (done || lia). rewrite (proj2 (Z.ltb_ge _ _)) by lia.
    rewrite TrimSpace_graphic.
    2: { rewrite all_bytes_app. apply andb_true_iff. split; [done|].
         eapply all_bytes_impl, chunk_sig_like. apply digit_like_graphic. }
    by rewrite (proj2 (CutPrefix_Some _ _ _) eq_refl).
  - rewrite sapp_nil_r, Cut_byte_None, Htrim, ParseInt_hex by (done || lia). by rewrite (proj2 (Z.ltb_ge _ _)) by lia.
Qed.

Lemma next_header_text (blank : bool) s d rest e : zlen d < 2 ^ 63 ->
  next_header (is_signed s) (mk_reader ((if blank then crlf else []) ++ to_bytes (header_text s d) ++ crlf ++ rest) e) =
  (Ok (zlen d, match s with Some g => chunk_sig g d | None => "" end), mk_reader rest e).
Proof.
  intros Hd. pose proof (header_text_ok s d Hd) as [Hg Hl].
  assert (Hne : header_text s d <> "").
  { unfold header_text. intros [H _]%sapp_nil_inv. revert H. apply format_go_nonempty. lia. }
  assert (Hone : forall fuel, header_line fuel (mk_reader (to_bytes (header_text s d) ++ crlf ++ rest) e) =
    ((header_text s d, None), mk_reader rest e)).
  { intros fuel. destruct fuel; cbn [header_line]; rewrite line_text by (by apply graphic_one_line || lia); by destruct (header_text s d). }
  assert (Hline : forall n, header_line (S n) (mk_reader ((if blank then crlf else []) ++ to_bytes (header_text s d) ++ crlf ++ rest) e) =
    ((header_text s d, None), mk_reader rest e)).
  { intros n. destruct blank; [|apply Hone]. cbn [header_line]. rewrite line_blank. apply Hone. }
  unfold next_header, lines_left. rewrite Hline. by rewrite parse_header_text.
Qed.

(** The trailers, without the spaces around their names and values. *)
Definition trailers_of (ts : list (string * string)) (acc : Values) : Values :=
  foldl (fun h nv => header_Add h (TrimSpace nv.1) (TrimSpace nv.2)) acc ts.

Lemma readTrailers_text ts : Forall trailer_ok ts -> forall fuel acc e, (length ts <= fuel)%nat ->
  readTrailers fuel acc (mk_reader (trailer_lines ts) e) = ((trailers_of ts acc, None), mk_reader [] e).
Proof.
  unfold trailer_lines. induction 1 as [|[n v] ts (Hn & Hc & [Hv Hcr] & Hl) _ IH]; intros fuel acc e Hf; simpl in *.
  - pose proof (line_blank [] e) as Hb. rewrite app_nil_r in Hb. destruct fuel; cbn [readTrailers]; by rewrite Hb.
  - rewrite <- !app_assoc. destruct fuel as [|fuel]; [lia|]. cbn [readTrailers]. rewrite line_text.
    2: { split; [rewrite has_byte_app, Hn; simpl; by rewrite Hv|]. rewrite to_bytes_app.
         change (to_bytes (String ":" v)) with (":"%char :: to_bytes v). rewrite last_app_cons, last_cons. by destruct (last (to_bytes v)). }
    2: { rewrite slen_app. unfold maxFramingLine in Hl. simpl. lia. }
    cbn [orb]. destruct (String.eqb_spec (n +:+ String ":" v) "") as [H|_]; [by apply sapp_nil_inv in H as [_ ?]|].
    rewrite Cut_byte by done. apply IH. lia.
Qed.

Lemma check_chunk_client s d :
  check_chunk s d (match s with Some g => chunk_sig g d | None => "" end) = Ok (advanced s d).
Proof. destruct s as [g|]; [|done]. unfold check_chunk, chunk_sig. by rewrite String.eqb_refl. Qed.

Lemma length_trailer_lines ts : (length ts <= length (trailer_lines ts))%nat.
Proof.
  unfold trailer_lines. induction ts as [|nv ts IH]; [simpl; lia|]. simpl. rewrite !length_app in *. simpl in *. lia.
Qed.

Lemma unframed_client (blank : bool) ts e : Forall trailer_ok ts -> forall ds s,
  Forall (fun d => 0 < zlen d < 2 ^ 63) ds ->
  unframed s (mk_reader ((if blank then crlf else []) ++ client_frames s ds (trailer_lines ts)) e) =
  (concat ds, None, trailers_of ts ∅).
Proof.
  intros Ht ds. revert blank. induction ds as [|d ds IH]; intros blank s Hds; rewrite unframed_step; cbn [client_frames].
  - rewrite next_header_text by (change (zlen (@nil byte)) with 0; lia). change (zlen (@nil byte)) with 0. cbn [Z.eqb].
    rewrite check_chunk_client. rewrite readTrailers_text; [done|done|]. unfold lines_left. simpl.
    pose proof (length_trailer_lines ts). lia.
  - inversion Hds as [|?? Hd Hds']; subst. rewrite next_header_text by lia. rewrite (proj2 (Z.eqb_neq _ _)) by lia.
    cbn [rd_data rd_end]. rewrite zlen_app. pose proof (zlen_nonneg (crlf ++ client_frames (advanced s d) ds (trailer_lines ts))).
    rewrite (proj2 (Z.ltb_ge _ _)) by lia. cbv zeta.
    rewrite takeZ_app_ge, dropZ_app_ge, Z.sub_diag, takeZ_0, dropZ_0, app_nil_r by lia. rewrite check_chunk_client.
    by rewrite (IH true) by done.
Qed.

Lemma drain_client (reads : nat -> Z * choice) (s : option chunkSigner) (ds : list bytes) (ts : list (string * string)) :
  (forall i, 1 <= (reads i).1) -> Forall (fun d => 0 < zlen d < 2 ^ 63) ds -> Forall trailer_ok ts ->
  exists c', drain (S (length (client_body s ds ts))) reads (newChunkedReader (mk_reader (client_body s ds ts) None) s) =
    Some (concat ds, None, c') /\ cr_trailers c' = trailers_of ts ∅.
Proof.
  intros Hplen Hds Hts.
  destruct (drain_rest reads true Hplen ltac:(done) (S (length (client_body s ds ts)))
    (newChunkedReader (mk_reader (client_body s ds ts) None) s)) as (d & e & c' & Hd & Hs);
    [unfold reader_ok; by simpl | simpl; lia|]. exists c'.
  unfold rest_of in Hs. cbn [cr_err newChunkedReader cr_left Z.eqb cr_done cr_signer cr_br] in Hs.
  pose proof (unframed_client false ts None Hts ds s Hds) as Hu. rewrite app_nil_l in Hu. unfold client_body in Hs.
  rewrite Hu in Hs.
  destruct Hs as (H1 & H2 & H3 & _). cbn [fst snd] in *. destruct H3 as [_ H3]. rewrite (H3 eq_refl) in Hd. by subst.
Qed.

(** C18: what a client frames is what the server reads. A body of any chunks of at least one
    byte and less than 2^63, signed or not, followed by any trailers whose lines are no
    longer than the server allows, 1024 bytes with the line's end, comes out as exactly the
    concatenation of the chunks and those trailers, with a clean end, however the reads are
    cut up. A trailer's name has no colon or line feed, its value no line feed and no
    carriage return at its end, and the server drops the spaces around both. *)
Theorem chunked_roundtrip (reads : nat -> Z * choice) (s : option chunkSigner) (ds : list bytes) (ts : list (string * string)) :
  (forall i, 1 <= (reads i).1) -> Forall (fun d => 0 < zlen d < 2 ^ 63) ds -> Forall trailer_ok ts ->
  exists c', drain (S (length (client_body s ds ts))) reads (newChunkedReader (mk_reader (client_body s ds ts) None) s) =
    Some (concat ds, None, c') /\ cr_trailers c' = trailers_of ts ∅.
Proof. apply drain_client. Qed.

(** ** At work *)

Definition demo_signer : chunkSigner := mk_chunkSigner (to_bytes "key") 0 "19700101/us-east-1/s3/aws4_request" "seed".
Definition demo_reads (i : nat) : Z * choice := (3, mk_choice 2 false).
Definition demo_chunks : list bytes := [to_bytes "hello"; to_bytes "world"].
Definition demo_trailers : list (string * string) := [("x-amz-checksum-crc32c", "AAAAAA==")].
Definition demo_source : reader := mk_reader (client_body (Some demo_signer) demo_chunks demo_trailers) None.

Lemma demo_reads_ok i : 1 <= (demo_reads i).1.
Proof. done. Qed.

Lemma drain_unframes_witness : exists d e c',
  drain (S (length (rd_data demo_source))) demo_reads (newChunkedReader demo_source (Some demo_signer)) = Some (d, e, c') /\
  (e = None <-> (unframed (Some demo_signer) demo_source).1.2 = None).
Proof.
  destruct (drain_unframes demo_reads demo_source (Some demo_signer) demo_reads_ok) as (d & e & c' & H & Hrest).
  exists d, e, c'. split; [exact H|]. destruct (unframed (Some demo_signer) demo_source) as [[? ?] ?].
  destruct Hrest as (_ & _ & H3 & _). exact H3.
Defined.

Lemma demo_chunks_ok : Forall (fun d => 0 < zlen d < 2 ^ 63) demo_chunks.
Proof. repeat constructor; vm_compute; done. Qed.

Lemma demo_trailers_ok : Forall trailer_ok demo_trailers.
Proof. repeat constructor; vm_compute; repeat constructor; discriminate. Qed.

Lemma chunked_roundtrip_witness : exists c',
  drain (S (length (client_body (Some demo_signer) demo_chunks demo_trailers))) demo_reads
    (newChunkedReader demo_source (Some demo_signer)) = Some (to_bytes "helloworld", None, c') /\
  cr_trailers c' = trailers_of demo_trailers ∅.
Proof.
  apply (chunked_roundtrip demo_reads (Some demo_signer) demo_chunks demo_trailers demo_reads_ok demo_chunks_ok demo_trailers_ok).
Defined.

Lemma drain_authentic_witness : exists ds, to_bytes "helloworld" = concat ds /\ carries demo_source (chain demo_signer ds).
Proof.
  destruct (drain_client demo_reads (Some demo_signer) demo_chunks demo_trailers demo_reads_ok demo_chunks_ok demo_trailers_ok)
    as (c' & Hd & _).
  destruct (drain_authentic demo_reads demo_source demo_signer _ c' demo_reads_ok Hd) as (ds & H1 & _ & H3).
  exists ds. split; [exact H1 | exact H3].
Defined.
