(* ===== verification/Auth.v ===== *)
(** * Verifying a request: [Verify] of [internal/sigv4/sigv4.go]

    What the signature covers, what a verified request has shown, and that a client that
    signs as the protocol says is let in. *)

From S2P Require Import Prelude GoStr Strconv Path Hash Text Time Crc Ec Object Sigv4 Chunked.

(** [hashChecker]: the bytes of the body, with its end replaced by an error when the
    bytes are not the ones that were signed. It looks only at an end that is [io.EOF]. *)
Definition hashChecker (r : reader) (want : bytes) : reader :=
  mk_reader (rd_data r)
    (if errors_Is (end_error r) EOF && negb (bool_decide (sha256 (rd_data r) = want)) then Some [ErrPayload] else rd_end r).

(** The checked body as a reader read to its end with [reads], and its trailers. *)
Definition chunked_body (reads : nat -> Z * choice) (body : reader) (signer : option chunkSigner) : reader * Values :=
  match drain (S (length (rd_data body))) reads (newChunkedReader body signer) with
  | Some (d, e, c) => (mk_reader d e, cr_trailers c)
  | None => (mk_reader [] (Some errors_New), ∅)
  end.

Definition verifiedBody (reads : nat -> Z * choice) (r : Request) (payload seed : string) (signedAt : Z) (scope_ : string)
    (key : bytes) : res (reader * Values * Z) :=
  if String.eqb payload streaming || String.eqb payload streamingTrl || String.eqb payload unsignedTrl then
    match ParseInt (header_Get (rq_Header r) "x-amz-decoded-content-length") 10 with
    | None => Err [ErrMalformed]
    | Some size =>
        let signer := if String.eqb payload unsignedTrl then None else Some (mk_chunkSigner key signedAt scope_ seed) in
        let '(body, trailers) := chunked_body reads (rq_Body r) signer in Ok (body, trailers, size)
    end
  else if String.eqb payload unsigned || String.eqb payload "" then Ok (rq_Body r, ∅, rq_ContentLength r)
  else match hex_DecodeString payload with
       | Some want => if negb (zlen want =? 32) then Err [ErrMalformed]
                      else Ok (hashChecker (rq_Body r) want, ∅, rq_ContentLength r)
       | None => Err [ErrMalformed]
       end.

(** The signature of a request at a time under a scope. *)
Definition signature_of (creds : Credentials) (a : authorization) (signedAt : Z) (canonical : string) : string :=
  sign (signingKey (SecretKey creds) (au_date a) (au_region a) (au_service a))
    (stringToSign signedAt (scope a) (sha256hex (to_bytes canonical))).

Section verify.
Context (local : string -> Z -> option Z) (reads : nat -> Z * choice).

(** [Verify]: the request with its body replaced by the checked one. *)
Definition Verify (r : Request) (creds : Credentials) (now : Z) : res Request :=
  auth ← parseAuthorization (header_Get (rq_Header r) "Authorization");
  if negb (String.eqb (au_accessKey auth) (AccessKey creds)) then Err [ErrUnknownKey]
  else
    signedAt ← requestTime local r;
    if (MaxSkew <? now - signedAt) || (now - signedAt <? - MaxSkew) then Err [ErrSkew]
    else if negb (String.eqb (au_date auth) (Format date_layout signedAt)) then Err [ErrMalformed]
    else if negb (String.eqb (au_service auth) "s3") then Err [ErrMalformed]
    else
      let payload := header_Get (rq_Header r) "x-amz-content-sha256" in
      canonical ← canonicalRequest r (au_signedHeaders auth) payload;
      let key := signingKey (SecretKey creds) (au_date auth) (au_region auth) (au_service auth) in
      let signature := sign key (stringToSign signedAt (scope auth) (sha256hex (to_bytes canonical))) in
      if negb (String.eqb signature (au_signature auth)) then Err [ErrMismatch]
      else
        b ← verifiedBody reads r payload signature signedAt (scope auth) key;
        Ok (with_body r b.1.1 b.1.2 b.2).

Lemma Verify_inv (r r' : Request) (creds : Credentials) (now : Z) :
  Verify r creds now = Ok r' ->
  exists auth signedAt canonical,
    parseAuthorization (header_Get (rq_Header r) "Authorization") = Ok auth /\
    au_accessKey auth = AccessKey creds /\ au_service auth = "s3" /\ "host" ∈ au_signedHeaders auth /\
    requestTime local r = Ok signedAt /\ Z.abs (now - signedAt) <= MaxSkew /\
    au_date auth = Format date_layout signedAt /\
    canonicalRequest r (au_signedHeaders auth) (header_Get (rq_Header r) "x-amz-content-sha256") = Ok canonical /\
    au_signature auth = signature_of creds auth signedAt canonical /\
    exists body trailers size, r' = with_body r body trailers size.
Proof.
  unfold Verify. intros H. apply res_bind_Ok in H as (auth & Ha & H).
  destruct (String.eqb_spec (au_accessKey auth) (AccessKey creds)) as [Hk|]; [|done]. cbn [negb] in H.
  apply res_bind_Ok in H as (signedAt & Ht & H). destruct (_ || _) eqn:Hskew; [done|].
  destruct (String.eqb_spec (au_date auth) (Format date_layout signedAt)) as [Hd|]; [|done]. cbn [negb] in H.
  destruct (String.eqb_spec (au_service auth) "s3") as [Hs|]; [|done]. cbn [negb] in H.
  apply res_bind_Ok in H as (canonical & Hc & H).
  destruct (String.eqb_spec (sign (signingKey (SecretKey creds) (au_date auth) (au_region auth) (au_service auth))
    (stringToSign signedAt (scope auth) (sha256hex (to_bytes canonical)))) (au_signature auth)) as [Hsig|]; [|done].
  cbn [negb] in H. apply res_bind_Ok in H as (b & _ & H). injection H as <-.
  exists auth, signedAt, canonical. bool_facts. split_and!; try done; [|lia|by eauto].
  revert Ha. unfold parseAuthorization. destruct (CutPrefix _ _); [|by destruct (String.eqb _ "")].
  intros (fs & _ & H2)%res_bind_Ok. destruct fs as [[cred hs] sig].
  destruct (splitc "/" cred) as [|? [|? [|? [|? [|? [|]]]]]]; try done.
  destruct (negb _); [done|]. destruct (_ || _); [done|].
  destruct (bool_decide_reflect ("host" ∈ hs)); [|done]. by injection H2 as <-.
Qed.

(** C14: a request is let in only when it is signed by the one key pair: the access key is
    the server's, the signature is the keyed hash of exactly this request's canonical
    form under the day, region and service it names, the host is among the signed
    headers, the clocks differ by at most fifteen minutes, and only the body and its
    length are replaced. *)
Theorem Verify_sound (r r' : Request) (creds : Credentials) (now : Z) :
  Verify r creds now = Ok r' ->
  exists auth signedAt canonical,
    parseAuthorization (header_Get (rq_Header r) "Authorization") = Ok auth /\
    au_accessKey auth = AccessKey creds /\ au_service auth = "s3" /\ "host" ∈ au_signedHeaders auth /\
    requestTime local r = Ok signedAt /\ Z.abs (now - signedAt) <= MaxSkew /\
    au_date auth = Format date_layout signedAt /\
    canonicalRequest r (au_signedHeaders auth) (header_Get (rq_Header r) "x-amz-content-sha256") = Ok canonical /\
    au_signature auth = signature_of creds auth signedAt canonical /\
    exists body trailers size, r' = with_body r body trailers size.
Proof. apply Verify_inv. Qed.
End verify.

(** ** The Authorization header a client writes *)

Definition auth_header (a : authorization) : string :=
  algorithm +:+ " Credential=" +:+ Join [au_accessKey a; au_date a; au_region a; au_service a; "aws4_request"] "/"
    +:+ ", SignedHeaders=" +:+ Join (au_signedHeaders a) ";" +:+ ", Signature=" +:+ au_signature a.

(** Text that can be an element of the header: printable, without its separators. *)
Definition word (s : string) : bool :=
  all_bytes graphic s && negb (has_byte "," s) && negb (has_byte ";" s) && negb (has_byte "/" s).

Definition auth_ok (a : authorization) : Prop :=
  word (au_accessKey a) = true /\ word (au_date a) = true /\ word (au_region a) = true /\ word (au_service a) = true /\
  Forall (fun h => word h = true) (au_signedHeaders a) /\ "host" ∈ au_signedHeaders a /\
  word (au_signature a) = true /\ au_signature a <> "".

Lemma word_spec s : word s = true <-> all_bytes graphic s = true /\ has_byte "," s = false /\ has_byte ";" s = false /\ has_byte "/" s = false.
Proof. unfold word. rewrite !andb_true_iff, !negb_true_iff. tauto. Qed.

Lemma all_bytes_Join P l sep : all_bytes P sep = true -> Forall (fun x => all_bytes P x = true) l -> all_bytes P (Join l sep) = true.
Proof.
  intros Hs. induction 1 as [|x l Hx _ IH]; [done|]. destruct l as [|y l]; [done|].
  by rewrite Join_cons, !all_bytes_app, Hx, Hs, IH.
Qed.

Lemma auth_field_text acc name value pre : all_bytes graphic (name +:+ "=" +:+ value) = true -> has_byte "=" name = false ->
  pre = "" \/ pre = " " ->
  auth_field acc (pre +:+ name +:+ "=" +:+ value) =
  Ok (let '(cred, hs, sig) := acc in
      if String.eqb name "Credential" then (value, hs, sig)
      else if String.eqb name "SignedHeaders" then (cred, splitc ";" value, sig)
      else if String.eqb name "Signature" then (cred, hs, value) else acc).
Proof.
  intros Hg Hn Hpre. unfold auth_field. destruct acc as [[cred hs] sig].
  assert (TrimSpace (pre +:+ name +:+ "=" +:+ value) = name +:+ "=" +:+ value) as ->.
  { destruct Hpre as [-> | ->]; [by apply TrimSpace_graphic | by apply TrimSpace_space]. }
  change ("=" +:+ value) with (String "=" value). by rewrite Cut_byte.
Qed.

Lemma parse_auth_header a : auth_ok a -> parseAuthorization (auth_header a) = Ok a.
Proof.
  intros (Hak & Hd & Hr & Hs & Hhs & Hhost & Hsig & Hne). unfold parseAuthorization, auth_header.
  set (cred := Join [_; _; _; _; _] "/"). set (hs := Join (au_signedHeaders a) ";").
  assert (Hwc : all_bytes graphic cred = true /\ has_byte "," cred = false).
  { apply word_spec in Hak as (? & ? & _), Hd as (? & ? & _), Hr as (? & ? & _), Hs as (? & ? & _).
    split; [apply all_bytes_Join | apply has_byte_Join]; try done; by repeat constructor. }
  assert (Hwh : all_bytes graphic hs = true /\ has_byte "," hs = false).
  { split; [apply all_bytes_Join | apply has_byte_Join]; try done; eapply Forall_impl; [exact Hhs| |exact Hhs|];
      intros x (? & ? & _)%word_spec; done. }
  apply word_spec in Hsig as (Hsg & Hsc & _).
  assert (Hcut : CutPrefix (algorithm +:+ " Credential=" +:+ cred +:+ ", SignedHeaders=" +:+ hs +:+ ", Signature=" +:+ au_signature a)
    (algorithm +:+ " ") = Some ("Credential=" +:+ cred +:+ "," +:+ " SignedHeaders=" +:+ hs +:+ "," +:+ " Signature=" +:+ au_signature a)).
  { apply CutPrefix_Some. rewrite <- sapp_assoc. done. }
  rewrite Hcut.
  assert (Hsplit : splitc "," ("Credential=" +:+ cred +:+ "," +:+ " SignedHeaders=" +:+ hs +:+ "," +:+ " Signature=" +:+ au_signature a)
    = ["Credential=" +:+ cred; " SignedHeaders=" +:+ hs; " Signature=" +:+ au_signature a]).
  { pose proof (splitc_Join "," ["Credential=" +:+ cred; " SignedHeaders=" +:+ hs; " Signature=" +:+ au_signature a] ltac:(done)) as H.
    cbn [Join] in H. rewrite !sapp_assoc in *. apply H. repeat constructor; rewrite has_byte_app; apply orb_false_iff; split; try done; tauto. }
  rewrite Hsplit.
  assert (H1 : auth_field ("", [], "") ("Credential=" +:+ cred) = Ok (cred, [], ""))
    by (apply (auth_field_text ("", [], "") "Credential" cred ""); [rewrite !all_bytes_app; simpl; tauto | done | auto]).
  assert (H2 : auth_field (cred, [], "") (" SignedHeaders=" +:+ hs) = Ok (cred, splitc ";" hs, ""))
    by (apply (auth_field_text (cred, [], "") "SignedHeaders" hs " "); [rewrite !all_bytes_app; simpl; tauto | done | auto]).
  assert (H3 : auth_field (cred, splitc ";" hs, "") (" Signature=" +:+ au_signature a) = Ok (cred, splitc ";" hs, au_signature a))
    by (apply (auth_field_text (cred, splitc ";" hs, "") "Signature" (au_signature a) " "); [rewrite !all_bytes_app; simpl; tauto | done | auto]).
  unfold auth_fields. rewrite H1. cbn [mbind res_bind]. rewrite H2. cbn [mbind res_bind]. rewrite H3. cbn [mbind res_bind].
  assert (splitc ";" hs = au_signedHeaders a) as ->.
  { apply splitc_Join; [by intros H; rewrite H in Hhost; apply elem_of_nil in Hhost|].
    eapply Forall_impl; [exact Hhs|]. by intros x (_ & _ & ? & _)%word_spec. }
  assert (splitc "/" cred = [au_accessKey a; au_date a; au_region a; au_service a; "aws4_request"]) as ->.
  { apply splitc_Join; [done|]. repeat constructor; try done; by apply word_spec. }
  cbn -[bool_decide String.eqb]. rewrite String.eqb_refl. cbn [negb].
  rewrite (proj2 (String.eqb_neq _ _) Hne). rewrite bool_decide_false by (by intros H; rewrite H in Hhost; apply elem_of_nil in Hhost).
  rewrite bool_decide_true by done. by destruct a.
Qed.

(** ** A client that signs is let in *)

Section accepts.
Context (local : string -> Z -> option Z) (reads : nat -> Z * choice).
Context (r : Request) (creds : Credentials) (a : authorization) (t : Z).

Definition payload_of : string := header_Get (rq_Header r) "x-amz-content-sha256".
Definition key_of : bytes := signingKey (SecretKey creds) (au_date a) (au_region a) (au_service a).
Definition signer_of : chunkSigner := mk_chunkSigner key_of t (scope a) (au_signature a).

(** The ways a client may cover its body, with the body the server goes on with. *)
Inductive covered : reader -> Values -> Z -> Prop :=
  | covered_not : payload_of = "" \/ payload_of = unsigned -> covered (rq_Body r) ∅ (rq_ContentLength r)
  | covered_hash : payload_of = sha256hex (rd_data (rq_Body r)) -> rd_end (rq_Body r) = None ->
      covered (rq_Body r) ∅ (rq_ContentLength r)
  | covered_stream s ds ts size :
      s = Some signer_of /\ (payload_of = streaming \/ payload_of = streamingTrl) \/ s = None /\ payload_of = unsignedTrl ->
      header_Get (rq_Header r) "x-amz-decoded-content-length" = Itoa size -> 0 <= size < 2 ^ 63 ->
      Forall (fun d => 0 < zlen d < 2 ^ 63) ds -> Forall trailer_ok ts ->
      rq_Body r = mk_reader (client_body s ds ts) None ->
      covered (mk_reader (concat ds) None) (trailers_of ts ∅) size.

Lemma chunked_body_client s ds ts : (forall i, 1 <= (reads i).1) ->
  Forall (fun d => 0 < zlen d < 2 ^ 63) ds -> Forall trailer_ok ts ->
  chunked_body reads (mk_reader (client_body s ds ts) None) s = (mk_reader (concat ds) None, trailers_of ts ∅).
Proof.
  intros Hp Hds Hts. unfold chunked_body. cbn [rd_data].
  destruct (drain_client reads s ds ts Hp Hds Hts) as (c' & -> & ->). done.
Qed.

Lemma sha256hex_ne b p : slen p <> 64%nat -> String.eqb (sha256hex b) p = false.
Proof.
  intros Hp. apply String.eqb_neq. intros <-. apply Hp. unfold sha256hex. by rewrite slen_hex, length_sha256.
Qed.

Lemma verifiedBody_covered body trailers size : (forall i, 1 <= (reads i).1) -> covered body trailers size ->
  verifiedBody reads r payload_of (au_signature a) t (scope a) key_of = Ok (body, trailers, size).
Proof.
  intros Hp Hc. unfold verifiedBody. destruct Hc as [[-> | ->] | Hh He | s ds ts size Hs Hl Hsz Hds Hts Hb]; [done | done | |].
  - rewrite Hh. rewrite !sha256hex_ne by done. cbn [orb]. unfold sha256hex at 1. rewrite hex_roundtrip.
    unfold zlen. rewrite length_sha256. change (negb (Z.of_nat 32 =? 32)) with false. cbv iota. unfold hashChecker.
    rewrite bool_decide_true by done. cbn [negb]. rewrite andb_false_r. by destruct (rq_Body r).
  - rewrite Hl, ParseInt_Itoa by done.
    destruct Hs as [(-> & [-> | ->]) | (-> & ->)]; cbn -[chunked_body client_body];
      fold signer_of; by rewrite Hb, chunked_body_client.
Qed.
End accepts.

(** The keyed hashes are never computed in the proof below. *)
#[local] Strategy 1000 [sign signingKey sha256hex stringToSign hmacSHA256 sha256 canonicalRequest verifiedBody].

Lemma Verify_signed_body (local : string -> Z -> option Z) (reads : nat -> Z * choice) (r : Request) (creds : Credentials)
    (a : authorization) (t now : Z) (canonical : string) (body : reader) (trailers : Values) (size : Z) :
  auth_ok a -> years_ok t -> TruncateSecond t = t ->
  header_Get (rq_Header r) "Authorization" = auth_header a -> au_accessKey a = AccessKey creds ->
  header_Get (rq_Header r) "x-amz-date" = Format amz_layout t -> Z.abs (now - t) <= MaxSkew ->
  au_date a = Format date_layout t -> au_service a = "s3" ->
  canonicalRequest r (au_signedHeaders a) (payload_of r) = Ok canonical ->
  au_signature a = signature_of creds a t canonical ->
  verifiedBody reads r (payload_of r) (au_signature a) t (scope a) (key_of creds a) = Ok (body, trailers, size) ->
  Verify local reads r creds now = Ok (with_body r body trailers size).
Proof.
  intros Ha Hy Ht Hauth Hkey Hdate Hskew Hd Hs Hcan Hsig Hv. unfold Verify.
  rewrite Hauth, parse_auth_header by done. cbn [mbind res_bind]. rewrite Hkey, String.eqb_refl. cbn [negb].
  assert (Htime : requestTime local r = Ok t).
  { unfold requestTime. rewrite Hdate. destruct (String.eqb_spec (Format amz_layout t) "") as [E|_].
    - exfalso. pose proof (Parse_Format_amz local t Hy) as Hp. rewrite E in Hp. done.
    - cbn [negb]. unfold parseAmzDate. by rewrite Parse_Format_amz, Ht. }
  rewrite Htime. cbn [mbind res_bind]. rewrite (proj2 (Z.ltb_ge MaxSkew _)), (proj2 (Z.ltb_ge _ (- MaxSkew))) by lia. cbn [orb].
  rewrite (proj2 (String.eqb_eq _ _) Hd), (proj2 (String.eqb_eq _ _) Hs). cbn [negb]. fold (payload_of r).
  rewrite Hcan. cbn [mbind res_bind]. cbv zeta. unfold signature_of in Hsig. rewrite <- Hsig, String.eqb_refl. cbn [negb].
  unfold key_of in Hv. rewrite Hv. reflexivity.
Qed.

Lemma Verify_signed (local : string -> Z -> option Z) (reads : nat -> Z * choice) (r : Request) (creds : Credentials)
    (a : authorization) (t now : Z) (canonical : string) (body : reader) (trailers : Values) (size : Z) :
  (forall i, 1 <= (reads i).1) -> auth_ok a -> years_ok t -> TruncateSecond t = t ->
  header_Get (rq_Header r) "Authorization" = auth_header a -> au_accessKey a = AccessKey creds ->
  header_Get (rq_Header r) "x-amz-date" = Format amz_layout t -> Z.abs (now - t) <= MaxSkew ->
  au_date a = Format date_layout t -> au_service a = "s3" ->
  canonicalRequest r (au_signedHeaders a) (payload_of r) = Ok canonical ->
  au_signature a = signature_of creds a t canonical ->
  covered r creds a t body trailers size ->
  Verify local reads r creds now = Ok (with_body r body trailers size).
Proof.
  intros Hreads. intros. eapply Verify_signed_body; try done. by apply verifiedBody_covered.
Qed.

(** C15: a client that holds the secret and signs as the protocol says is let in. Its header
    parses back to what it wrote, its time stamp to the second it signed at, its
    signature is the one computed here, and whichever way it covered its body the
    handler goes on with exactly the object's bytes, trailers and length. *)
Theorem Verify_accepts (local : string -> Z -> option Z) (reads : nat -> Z * choice) (r : Request) (creds : Credentials)
    (a : authorization) (t now : Z) (canonical : string) (body : reader) (trailers : Values) (size : Z) :
  (forall i, 1 <= (reads i).1) -> auth_ok a -> years_ok t -> TruncateSecond t = t ->
  header_Get (rq_Header r) "Authorization" = auth_header a -> au_accessKey a = AccessKey creds ->
  header_Get (rq_Header r) "x-amz-date" = Format amz_layout t -> Z.abs (now - t) <= MaxSkew ->
  au_date a = Format date_layout t -> au_service a = "s3" ->
  canonicalRequest r (au_signedHeaders a) (payload_of r) = Ok canonical ->
  au_signature a = signature_of creds a t canonical ->
  covered r creds a t body trailers size ->
  Verify local reads r creds now = Ok (with_body r body trailers size).
Proof. apply Verify_signed. Qed.

(** ** What the signature covers *)

Lemma uriEncode_inj a b : uriEncode a = uriEncode b -> a = b.
Proof.
  intros H. assert (Some a = Some b); [|congruence].
  rewrite <- !(PathUnescape_encode aws_unreserved) by done. fold (uriEncode a) (uriEncode b). by rewrite H.
Qed.

Lemma has_byte_uriEncode c s : has_byte c aws_unreserved = false -> encode_byte c = false -> has_byte c (uriEncode s) = false.
Proof. apply has_byte_encode. Qed.

(** The pairs a query stands for, and the text each becomes. *)
Definition pairs_of (q : Values) : list (string * string) :=
  flat_map (fun nv => map (pair nv.1) (sort_by id nv.2)) (map_to_list q).

Definition pair_text (p : string * string) : string := uriEncode p.1 +:+ "=" +:+ uriEncode p.2.

Lemma query_pairs_text q : query_pairs q = map pair_text (pairs_of q).
Proof.
  unfold query_pairs, pairs_of. induction (map_to_list q) as [|[n vs] l IH]; [done|]. cbn [flat_map].
  rewrite map_app, IH. f_equal. by rewrite map_map.
Qed.

Lemma pair_text_inj p1 p2 : pair_text p1 = pair_text p2 -> p1 = p2.
Proof.
  destruct p1 as [n v], p2 as [m u]. unfold pair_text. cbn [fst snd String.append].
  assert (He : forall s, has_byte "=" (uriEncode s) = false) by (intros; by apply has_byte_uriEncode).
  intros H. assert (Some (uriEncode n, uriEncode v) = Some (uriEncode m, uriEncode u)) as [= H1 H2].
  { rewrite <- !(Cut_byte "=") by done. by rewrite H. }
  f_equal; by apply uriEncode_inj.
Qed.

#[local] Instance pair_text_Inj : Inj (=) (=) pair_text.
Proof. intros ??. apply pair_text_inj. Qed.

Lemma pair_text_amp p : has_byte "&" (pair_text p) = false.
Proof.
  unfold pair_text. rewrite !has_byte_app. rewrite !has_byte_uriEncode by done. done.
Qed.

Lemma pair_text_ne p : pair_text p <> "".
Proof. unfold pair_text. intros [_ H]%sapp_nil_inv. apply sapp_nil_inv in H as [H _]. done. Qed.

Lemma perm_map_inj {A B} (f : A -> B) `{!Inj (=) (=) f} l k : map f l ≡ₚ map f k -> l ≡ₚ k.
Proof.
  intros H. apply Permutation_map_inv in H as (k' & Hk & Hp). apply (inj (map f)) in Hk as ->. by symmetry.
Qed.

(** The values given for each name, up to the order they were given in. *)
Lemma pairs_of_values q n : sort_by id (default [] (q !! n)) ≡ₚ map snd (filter (fun p => p.1 = n) (pairs_of q)).
Proof.
  unfold pairs_of.
  assert (Hgen : forall l : list (string * list string), NoDup l.*1 ->
    map snd (filter (fun p => p.1 = n) (flat_map (fun nv => map (pair nv.1) (sort_by id nv.2)) l)) =
    match list_find (fun nv => nv.1 = n) l with Some (_, nv) => sort_by id nv.2 | None => [] end).
  { assert (Hin : forall (m : string) (vs : list string), map snd (filter (fun p => p.1 = n) (map (pair m) vs)) = if decide (m = n) then vs else []).
    { intros m vs. induction vs as [|v vs IH]; [by case_decide|]. cbn [map]. rewrite filter_cons. cbn [fst].
      case_decide; cbn [map]; [|done]. by rewrite IH. }
    induction l as [|[m vs] l IH]; intros Hnd; [done|]. cbn [flat_map fst snd]. rewrite filter_app, map_app, Hin.
    inversion Hnd as [|?? Hm Hl]; subst. rewrite IH by done. cbn [list_find fst].
    destruct (decide (m = n)) as [->|Hne].
    - destruct (list_find _ l) as [[i nv]|] eqn:E; [|by rewrite app_nil_r].
      apply list_find_Some in E as (El & Hn & _). exfalso. apply Hm. rewrite <- Hn. apply list_elem_of_fmap.
      exists nv. split; [done|]. by eapply list_elem_of_lookup_2.
    - by destruct (list_find _ l) as [[i nv]|]. }
  rewrite Hgen by apply NoDup_fst_map_to_list.
  destruct (q !! n) as [vs|] eqn:E; cbn [default].
  - apply elem_of_map_to_list in E. destruct (list_find (fun nv => nv.1 = n) (map_to_list q)) as [[i nv]|] eqn:F.
    + apply list_find_Some in F as (Fl & Hn & _). destruct nv as [m us]. cbn in Hn. subst m.
      apply list_elem_of_lookup_2 in Fl. apply elem_of_map_to_list in E, Fl. by simplify_eq.
    + apply list_find_None in F. rewrite Forall_forall in F. by apply F in E.
  - destruct (list_find (fun nv => nv.1 = n) (map_to_list q)) as [[i [m us]]|] eqn:F; [|done].
    apply list_find_Some in F as (Fl & Hn & _). cbn in Hn. subst m. apply list_elem_of_lookup_2, elem_of_map_to_list in Fl. congruence.
Qed.

Lemma Join_amp_inj l k : Forall (fun x => has_byte "&" x = false) l -> Forall (fun x => has_byte "&" x = false) k ->
  "" ∉ l -> "" ∉ k -> Join l "&" = Join k "&" -> l = k.
Proof.
  intros Hl Hk Nl Nk H. destruct l as [|x l], k as [|y k]; [done| | |by eapply Join_inj].
  - exfalso. destruct k; cbn [Join] in H; [subst y | symmetry in H; apply sapp_nil_inv in H as [-> _]]; apply Nk; by constructor.
  - exfalso. destruct l; cbn [Join] in H; [subst x | apply sapp_nil_inv in H as [-> _]]; apply Nl; by constructor.
Qed.

(** The canonical query says which values every name was given. *)
Lemma canonicalQuery_binds r1 r2 : canonicalQuery r1 = canonicalQuery r2 ->
  forall n, default [] (rq_Query r1 !! n) ≡ₚ default [] (rq_Query r2 !! n).
Proof.
  unfold canonicalQuery. rewrite !query_pairs_text. intros H.
  assert (Hok : forall q, Forall (fun x => has_byte "&" x = false) (sort_by id (map pair_text (pairs_of q))) /\
    "" ∉ sort_by id (map pair_text (pairs_of q))).
  { intros q. split.
    - apply Forall_forall. intros x Hx. apply elem_of_sort_by, list_elem_of_fmap in Hx as (p & -> & _). apply pair_text_amp.
    - intros Hx. apply elem_of_sort_by, list_elem_of_fmap in Hx as (p & Hp & _). symmetry in Hp. by apply pair_text_ne in Hp. }
  apply Join_amp_inj in H; try apply Hok.
  assert (Hperm : pairs_of (rq_Query r1) ≡ₚ pairs_of (rq_Query r2)).
  { apply (perm_map_inj pair_text). rewrite <- (sort_by_perm id (map pair_text (pairs_of (rq_Query r1)))), H. apply sort_by_perm. }
  intros n. rewrite <- (sort_by_perm id (default [] (rq_Query r1 !! n))), <- (sort_by_perm id (default [] (rq_Query r2 !! n))).
  rewrite !pairs_of_values. by rewrite Hperm.
Qed.

(** Requests as [net/http] delivers them: no line ends where the canonical request has them. *)
Definition line_free (r : Request) : Prop :=
  has_byte (byte_of 10) (rq_Method r) = false /\ has_byte (byte_of 10) (rq_EscapedPath r) = false /\
  has_byte (byte_of 10) (rq_Host r) = false.

Lemma headerValue_line_free r n v : line_free r -> headerValue r n = Some v -> has_byte (byte_of 10) v = false.
Proof.
  intros (_ & _ & Hh). unfold headerValue. destruct (String.eqb n "host").
  { destruct (String.eqb (rq_Host r) ""); [done | by intros [= <-]]. }
  destruct (String.eqb n "content-length").
  { destruct (Z.ltb_spec (rq_ContentLength r) 0); [done|]. intros [= <-]. unfold Itoa. rewrite (proj2 (Z.ltb_ge _ 0)) by lia.
    eapply digit_like_no, format_uint_like; [done | lia]. }
  destruct (rq_Header r !! CanonicalHeaderKey n) as [vs|]; [|done]. intros [= <-].
  apply has_byte_Join; [done|]. apply Forall_map, Forall_forall. intros x _. apply has_byte_Join; [done|]. by apply Fields_no.
Qed.

(** The header lines, without the line ends they carry. *)
Fixpoint header_lines (r : Request) (names : list string) : list string :=
  match names with
  | [] => []
  | n :: names' => (n +:+ ":" +:+ default "" (headerValue r n)) :: header_lines r names'
  end.

Lemma Join_empty x l : Join (x :: l) "" = x +:+ Join l "".
Proof. destruct l; [by rewrite sapp_nil_r | done]. Qed.

Lemma canonical_headers_text r names hs : canonical_headers r names = Ok hs ->
  Forall (fun n => is_Some (headerValue r n)) names /\ forall rest,
  Join hs "" +:+ rest = foldr (fun l s => l +:+ newline +:+ s) rest (header_lines r names).
Proof.
  revert hs. induction names as [|n names IH]; intros hs; cbn [canonical_headers].
  - intros [= <-]. done.
  - destruct (headerValue r n) as [v|] eqn:E; [|done]. intros (hs' & Hh & [= <-])%res_bind_Ok.
    apply IH in Hh as [Hall Ht]. split; [constructor; [by rewrite E | done]|]. intros rest. cbn [header_lines foldr].
    rewrite E. cbn [default]. rewrite <- Ht, Join_empty.
    rewrite <- !sapp_assoc. cbn [String.append]. by rewrite <- !sapp_assoc.
Qed.

Lemma Join_lines ls rest : rest <> [] -> Join (ls ++ rest) newline = foldr (fun l s => l +:+ newline +:+ s) (Join rest newline) ls.
Proof.
  intros Hr. induction ls as [|l ls IH]; [done|]. cbn [app foldr]. rewrite <- IH.
  destruct (ls ++ rest) as [|x l'] eqn:E; [by destruct ls | done].
Qed.

(** The canonical request as the lines it is made of. *)
Lemma canonicalRequest_lines r names payload c : canonicalRequest r names payload = Ok c ->
  Forall (fun n => is_Some (headerValue r n)) names /\
  c = Join (rq_Method r :: canonicalPath r :: canonicalQuery r :: header_lines r names ++
            [""; Join names ";"; payload_or_unsigned payload]) newline.
Proof.
  unfold canonicalRequest. intros (hs & Hh & [= <-])%res_bind_Ok. apply canonical_headers_text in Hh as [Hall Ht].
  split; [done|].
  pose proof (Join_lines (rq_Method r :: canonicalPath r :: canonicalQuery r :: header_lines r names)
    [""; Join names ";"; payload_or_unsigned payload] ltac:(done)) as HJ.
  cbn [foldr app] in HJ. rewrite HJ, <- Ht. reflexivity.
Qed.

Lemma canonicalQuery_line_free r : has_byte (byte_of 10) (canonicalQuery r) = false.
Proof.
  unfold canonicalQuery. apply has_byte_Join; [done|]. apply Forall_forall. intros x Hx.
  rewrite elem_of_sort_by, query_pairs_text in Hx. apply list_elem_of_fmap in Hx as (p & -> & _). unfold pair_text.
  rewrite !has_byte_app, !has_byte_uriEncode by done. done.
Qed.

Definition name_ok (n : string) : Prop := has_byte (byte_of 10) n = false /\ has_byte ";" n = false.

Lemma header_lines_free r names : line_free r -> Forall name_ok names -> Forall (fun n => is_Some (headerValue r n)) names ->
  Forall (fun x => has_byte (byte_of 10) x = false) (header_lines r names).
Proof.
  intros Hr. induction names as [|n names IH]; intros Hn Hv; [constructor|].
  inversion Hn as [|?? [Hn1 _] Hn2]; inversion Hv as [|?? [v Hv1] Hv2]; subst. constructor; [|by apply IH].
  rewrite Hv1, !has_byte_app, Hn1. cbn. by eapply headerValue_line_free.
Qed.

Lemma header_lines_values r1 r2 names : header_lines r1 names = header_lines r2 names ->
  Forall (fun n => is_Some (headerValue r1 n)) names -> Forall (fun n => is_Some (headerValue r2 n)) names ->
  Forall (fun n => headerValue r1 n = headerValue r2 n) names.
Proof.
  induction names as [|n names IH]; intros H H1 H2; [constructor|]. cbn [header_lines] in H. injection H as Hn Hrest.
  inversion H1 as [|?? [v Hv] ?]; inversion H2 as [|?? [u Hu] ?]; subst. constructor; [|by apply IH].
  rewrite Hv, Hu in *. cbn in Hn. apply sapp_inj_l in Hn. by injection Hn as ->.
Qed.

(** A signature covers the request. Two requests with the same canonical form have
    the same method, path and payload declaration, the same values for every name of
    the query, and the same signed headers with the same values, so a signature made for
    one is good for no request that differs in any of them. *)
Theorem canonicalRequest_binds (r1 r2 : Request) (names1 names2 : list string) (p1 p2 c : string) :
  line_free r1 -> line_free r2 -> Forall name_ok names1 -> Forall name_ok names2 -> names1 <> [] -> names2 <> [] ->
  has_byte (byte_of 10) p1 = false -> has_byte (byte_of 10) p2 = false ->
  canonicalRequest r1 names1 p1 = Ok c -> canonicalRequest r2 names2 p2 = Ok c ->
  rq_Method r1 = rq_Method r2 /\ canonicalPath r1 = canonicalPath r2 /\
  (forall n, default [] (rq_Query r1 !! n) ≡ₚ default [] (rq_Query r2 !! n)) /\
  names1 = names2 /\ Forall (fun n => headerValue r1 n = headerValue r2 n) names1 /\
  payload_or_unsigned p1 = payload_or_unsigned p2.
Proof.
  intros L1 L2 N1 N2 E1 E2 P1 P2 H1 H2.
  apply canonicalRequest_lines in H1 as [V1 ->]. apply canonicalRequest_lines in H2 as [V2 H2].
  assert (Hfree : forall r names p, line_free r -> Forall name_ok names -> Forall (fun n => is_Some (headerValue r n)) names ->
    has_byte (byte_of 10) p = false -> Forall (fun x => has_byte (byte_of 10) x = false)
      (rq_Method r :: canonicalPath r :: canonicalQuery r :: header_lines r names ++ [""; Join names ";"; payload_or_unsigned p])).
  { intros r names p L N V P. pose proof (header_lines_free r names L N V). destruct L as (Lm & Lp & _).
    constructor; [done|]. constructor; [unfold canonicalPath; by destruct (String.eqb _ "")|].
    constructor; [apply canonicalQuery_line_free|]. apply Forall_app. split; [done|]. constructor; [done|].
    constructor; [apply has_byte_Join; [done|]; eapply Forall_impl; [exact N|]; by intros ? [? _]|].
    constructor; [unfold payload_or_unsigned; by destruct (String.eqb p "") | done]. }
  apply Join_inj in H2; [|done|done|by apply Hfree|by apply Hfree]. injection H2 as Hm Hp Hq Hrest.
  apply app_inj_2 in Hrest as [Hh Htail]; [|done]. injection Htail as Hn Hpay.
  assert (names1 = names2) as <-.
  { eapply Join_inj; [done|done| | |exact Hn]; eapply Forall_impl; [exact N1| |exact N2|]; by intros ? [_ ?]. }
  split; [done|]. split; [done|]. split; [by apply canonicalQuery_binds|]. split; [done|].
  split; [by apply header_lines_values | done].
Qed.

(** ** At work *)

Definition no_zone (_ : string) (_ : Z) : option Z := None.
Definition demo_creds : Credentials := mk_Credentials "kavo" "kavosecret".
Definition demo_time : Z := 1369353600 * 10 ^ 9.
Definition demo_names : list string := ["host"; "x-amz-content-sha256"; "x-amz-date"].

Definition demo_auth (signature : string) : authorization :=
  mk_authorization "kavo" "20130524" "us-east-1" "s3" demo_names signature.

(** A PUT of two bytes, with a given Authorization header. *)
Definition demo_put (auth : string) : Request :=
  mk_Request "PUT" "localhost" "/b/k" ∅
    (<["Authorization" := [auth]]> {["X-Amz-Date" := ["20130524T000000Z"]; "X-Amz-Content-Sha256" := [unsigned]]})
    2 [] (mk_reader (to_bytes "hi") None) "b" "k" ∅.

Definition demo_canonical : string :=
  Eval vm_compute in match canonicalRequest (demo_put "") demo_names unsigned with Ok c => c | Err _ => "" end.

Definition demo_signature : string := signature_of demo_creds (demo_auth "") demo_time demo_canonical.
Definition demo_signed : Request := demo_put (auth_header (demo_auth demo_signature)).

Lemma hex_word bs : word (hex_EncodeToString bs) = true.
Proof.
  pose proof (hex_like bs) as H. apply word_spec. split; [by eapply all_bytes_impl; [apply digit_like_graphic|]|].
  by repeat split; apply digit_like_no.
Qed.

Lemma demo_auth_ok a t canonical : auth_ok (demo_auth (signature_of demo_creds a t canonical)).
Proof.
  assert (Hw : word (signature_of demo_creds a t canonical) = true) by apply hex_word.
  assert (Hne : slen (signature_of demo_creds a t canonical) = 64%nat)
    by (unfold signature_of, sign; rewrite slen_hex; unfold hmacSHA256, hmac_sha256; by rewrite length_sha256).
  unfold auth_ok. cbn [demo_auth au_accessKey au_date au_region au_service au_signedHeaders au_signature].
  revert Hw Hne. generalize (signature_of demo_creds a t canonical). intros s Hw Hne.
  split_and!; try done; [by repeat constructor | by constructor | by intros ->].
Qed.

Lemma demo_canonical_ok auth : canonicalRequest (demo_put auth) demo_names unsigned = Ok demo_canonical.
Proof. reflexivity. Qed.

Lemma demo_covered : covered demo_signed demo_creds (demo_auth demo_signature) demo_time (mk_reader (to_bytes "hi") None) ∅ 2.
Proof. apply (covered_not demo_signed demo_creds (demo_auth demo_signature) demo_time). right. reflexivity. Qed.

Lemma demo_years_ok : years_ok demo_time.
Proof. vm_compute. split; [discriminate | reflexivity]. Qed.

Lemma demo_recent : Z.abs (demo_time - demo_time) <= MaxSkew.
Proof. vm_compute. discriminate. Qed.

Lemma demo_verified : Verify no_zone demo_reads demo_signed demo_creds demo_time =
  Ok (with_body demo_signed (mk_reader (to_bytes "hi") None) ∅ 2).
Proof.
  apply (Verify_signed no_zone demo_reads demo_signed demo_creds (demo_auth demo_signature) demo_time demo_time demo_canonical
    (mk_reader (to_bytes "hi") None) ∅ 2 demo_reads_ok (demo_auth_ok _ _ _) demo_years_ok eq_refl eq_refl eq_refl eq_refl demo_recent
    eq_refl eq_refl (demo_canonical_ok _) eq_refl demo_covered).
Qed.

Lemma Verify_accepts_witness : Verify no_zone demo_reads demo_signed demo_creds demo_time =
  Ok (with_body demo_signed (mk_reader (to_bytes "hi") None) ∅ 2).
Proof.
  exact (Verify_accepts no_zone demo_reads demo_signed demo_creds (demo_auth demo_signature) demo_time demo_time demo_canonical
    (mk_reader (to_bytes "hi") None) ∅ 2 demo_reads_ok (demo_auth_ok _ _ _) demo_years_ok eq_refl eq_refl eq_refl eq_refl demo_recent
    eq_refl eq_refl (demo_canonical_ok _) eq_refl demo_covered).
Defined.

Lemma Verify_sound_witness : exists auth signedAt canonical,
  au_accessKey auth = "kavo" /\ au_signature auth = signature_of demo_creds auth signedAt canonical.
Proof.
  destruct (Verify_sound no_zone demo_reads demo_signed _ demo_creds demo_time demo_verified)
    as (auth & t & c & _ & H1 & _ & _ & _ & _ & _ & _ & H2 & _).
  exists auth, t, c. split; [exact H1 | exact H2].
Defined.

Lemma canonicalRequest_binds_witness : canonicalPath (demo_put "a") = canonicalPath (demo_put "b").
Proof.
  apply (canonicalRequest_binds (demo_put "a") (demo_put "b") demo_names demo_names unsigned unsigned demo_canonical);
    try apply demo_canonical_ok; try done; repeat constructor.
Defined.
