(* ===== verification/Store.v ===== *)
(** * The local chunk store: [internal/store/store.go]

    The file system keeps, beside what a process sees now, everything a crash could
    bring back: a file's bytes are safe once it was synced, a name stands for its
    newest file only once its directory was synced and may until then come back as any
    version it has had since, and a directory is safe once its own parent was synced.
    Whether a system call fails, and after how many bytes, is decided by a [faults]
    record, so a theorem about every [faults] is a theorem about every failure. *)

From S2P Require Import Prelude GoStr Strconv Crc Object.

(** ** The file system under the store root *)

Record inode := mk_inode { in_data : bytes; in_synced : bool; in_mtime : Z }.

#[global] Instance inode_eq_dec : EqDecision inode.
Proof. solve_decision. Defined.

(** A chunk's place: its directory under [chunks/] and its file name. *)
Abbreviation path := (string * string)%type.

(** [fs_entries_durable] is the names as their directories were last synced,
    [fs_between] the versions (or absences) names have had since, other than now. *)
Record FS := mk_FS {
  fs_tmp : gmap string inode;
  fs_dirs : gset string;
  fs_dirs_durable : gset string;
  fs_entries : gmap path inode;
  fs_entries_durable : gmap path inode;
  fs_between : list (path * option inode)
}.

Definition set_tmp (fs : FS) (t : gmap string inode) : FS :=
  mk_FS t (fs_dirs fs) (fs_dirs_durable fs) (fs_entries fs) (fs_entries_durable fs) (fs_between fs).
(** The name [p] changes, and what it was is remembered. *)
Definition set_entries (fs : FS) (p : path) (e : gmap path inode) : FS :=
  mk_FS (fs_tmp fs) (fs_dirs fs) (fs_dirs_durable fs) e (fs_entries_durable fs)
    ((p, fs_entries fs !! p) :: fs_between fs).

(** [os.MkdirAll], which does not sync the parent. *)
Definition os_MkdirAll (fs : FS) (dir : string) : FS :=
  mk_FS (fs_tmp fs) ({[dir]} ∪ fs_dirs fs) (fs_dirs_durable fs) (fs_entries fs) (fs_entries_durable fs)
    (fs_between fs).

(** [f.Sync] on a file in [tmp/]. *)
Definition os_Sync (fs : FS) (t : string) : FS :=
  set_tmp fs (alter (fun i => mk_inode (in_data i) true (in_mtime i)) t (fs_tmp fs)).

Definition os_Rename (fs : FS) (t : string) (p : path) : FS :=
  match fs_tmp fs !! t with
  | Some i => set_entries (set_tmp fs (delete t (fs_tmp fs))) p (<[p := i]> (fs_entries fs))
  | None => fs
  end.

(** [d.Sync] on a directory: its names become durable, removals included. *)
Definition os_SyncDir (fs : FS) (dir : string) : FS :=
  mk_FS (fs_tmp fs) (fs_dirs fs) (fs_dirs_durable fs) (fs_entries fs)
    (filter (fun pi => pi.1.1 = dir) (fs_entries fs) ∪
     filter (fun pi => pi.1.1 <> dir) (fs_entries_durable fs))
    (filter (fun po => po.1.1 <> dir) (fs_between fs)).

Definition os_Remove_tmp (fs : FS) (t : string) : FS := set_tmp fs (delete t (fs_tmp fs)).

(** Which system calls fail. [f_write] is how many bytes the temporary file takes before a
    write to it fails, [f_read] how many bytes of a chunk are read before a read of it does. *)
Record faults := mk_faults {
  f_create : bool; f_write : option Z; f_sync : bool; f_close : bool; f_mkdir : bool;
  f_rename : bool; f_syncdir : bool; f_cleanup : bool; f_open : bool; f_read : option Z;
  f_stat : bool; f_remove : bool
}.

Definition no_faults : faults :=
  mk_faults false None false false false false false false false None false false.

(** What gets through before the given number of bytes. *)
Definition upto (limit : option Z) (d : bytes) : bytes :=
  match limit with Some n => takeZ n d | None => d end.

(** ** Names *)

(** [strings.ContainsAny(id, `/\.`)] *)
Fixpoint contains_unsafe (s : string) : bool :=
  match s with
  | EmptyString => false
  | String c s' => bool_decide (c = "/"%char \/ c = "\"%char \/ c = "."%char) || contains_unsafe s'
  end.

Definition validateID (id : string) : option error :=
  if bool_decide (slen id < 2)%nat || contains_unsafe id then Some [ErrInvalidID] else None.

(** [filepath.Join(s.chunksDir, id[:2], id)], as directory and name. *)
Definition chunkPath (id : string) : path := (stake 2 id, id).

Definition copySize (expect : Z) : Z := Z.min (Z.max expect (Z.shiftl 32 10)) (Z.shiftl 256 10).

(** ** The commit discipline

    [durableWrite] returns, besides its result and the file system it leaves, the
    states it passed through, which are where a crash can find it; the copy into the
    temporary file can be cut at any byte. [t] is the name [os.CreateTemp] picked. The
    deferred clean-up is [cleanup]. *)

Section durable.
Context (F : faults) (t : string) (now : Z).

Definition cleanup (fs : FS) : FS := if f_cleanup F then fs else os_Remove_tmp fs t.

(** The temporary file with the bytes copied so far. *)
Definition staged (fs : FS) (d : bytes) : FS := set_tmp fs (<[t := mk_inode d false now]> (fs_tmp fs)).
Definition copying (fs : FS) (d : bytes) : list FS :=
  map (fun n => staged fs (take n d)) (seq 0 (S (length d))).

Definition durableWrite (fs : FS) (p : path) (r : reader)
    (verify : option (Z -> Z -> option error)) : res (Z * Z) * FS * list FS :=
  let fail e fs1 trace := (Err e, cleanup fs1, trace ++ [cleanup fs1]) in
  if f_create F then (Err errors_New, fs, [fs])
  else
    let d := upto (f_write F) (rd_data r) in
    let fs1 := staged fs d in
    let tr1 := fs :: copying fs d in
    if zlen d <? zlen (rd_data r) then fail errors_New fs1 tr1
    else match rd_end r with
    | Some e => fail e fs1 tr1
    | None =>
        let crc := crc32c d in
        let size := zlen d in
        match (match verify with Some v => v crc size | None => None end) with
        | Some e => fail e fs1 tr1
        | None =>
            if f_sync F then fail errors_New fs1 tr1
            else
              let fs2 := os_Sync fs1 t in
              if f_close F then fail errors_New fs2 (tr1 ++ [fs2])
              else if f_mkdir F then fail errors_New fs2 (tr1 ++ [fs2])
              else
                let fs3 := os_MkdirAll fs2 p.1 in
                if f_rename F then fail errors_New fs3 (tr1 ++ [fs2; fs3])
                else
                  let fs4 := os_Rename fs3 t p in
                  if f_syncdir F then fail errors_New fs4 (tr1 ++ [fs2; fs3; fs4])
                  else
                    let fs5 := os_SyncDir fs4 p.1 in
                    (Ok (crc, size), fs5, tr1 ++ [fs2; fs3; fs4; fs5])
        end
    end.

Definition WriteChunk (fs : FS) (id : string) (r : reader) : res (Z * Z) * FS * list FS :=
  match validateID id with
  | Some e => (Err e, fs, [fs])
  | None => durableWrite fs (chunkPath id) r None
  end.

Definition verify_declared (wantCRC wantSize crc size : Z) : option error :=
  if negb (size =? wantSize) then Some [ErrVerificationFailed]
  else if negb (crc =? wantCRC) then Some [ErrVerificationFailed]
  else None.

Definition WriteChunkVerified (fs : FS) (id : string) (r : reader) (wantCRC wantSize : Z)
    : option error * FS * list FS :=
  match validateID id with
  | Some e => (Some e, fs, [fs])
  | None =>
      match durableWrite fs (chunkPath id) r (Some (verify_declared wantCRC wantSize)) with
      | (Ok _, fs', tr) => (None, fs', tr)
      | (Err e, fs', tr) => (Some e, fs', tr)
      end
  end.
End durable.

(** ** Reading *)

(** The running checksum of [verifyingReader], a segment at a time. *)
Definition verify_crc (segs : list bytes) : Z :=
  foldl (fun crc p => Update 32 Castagnoli crc p) 0 segs.

(** [Verify]: the same bytes, and an end that tells whether they were the right ones.
    [segs] is how the reads happened to cut the stream. *)
Definition Verify (seg : bytes -> list bytes) (r : reader) (want : Z) : reader :=
  let crc := verify_crc (seg (rd_data r)) in
  mk_reader (rd_data r)
    (match rd_end r with
     | None => if negb (crc =? want) then Some [ErrChecksumMismatch] else None
     | Some e => if errors_Is e EOF && negb (crc =? want) then Some [ErrChecksumMismatch] else Some e
     end).

(** An open file: its bytes, unless a read fails first. *)
Definition file_reader (F : faults) (i : inode) : reader :=
  let d := upto (f_read F) (in_data i) in
  mk_reader d (if zlen d <? zlen (in_data i) then Some errors_New else None).

Definition ReadChunk (F : faults) (seg : bytes -> list bytes) (fs : FS) (id : string) (wantCRC : Z)
    : res reader :=
  match validateID id with
  | Some e => Err e
  | None =>
      match fs_entries fs !! chunkPath id with
      | None => Err [StoreErrNotFound]
      | Some i => if f_open F then Err errors_New
                  else Ok (Verify seg (file_reader F i) wantCRC)
      end
  end.

Definition HasChunk (F : faults) (fs : FS) (id : string) : res bool :=
  match validateID id with
  | Some e => Err e
  | None =>
      if f_stat F then Err errors_New
      else Ok (bool_decide (is_Some (fs_entries fs !! chunkPath id)))
  end.

Fixpoint HasChunks (F : faults) (fs : FS) (ids : list string) : res (list string) :=
  match ids with
  | [] => Ok []
  | id :: ids' =>
      match HasChunk F fs id with
      | Err e => if errors_Is e ErrInvalidID then HasChunks F fs ids' else Err e
      | Ok held => have ← HasChunks F fs ids'; Ok (if held then id :: have else have)
      end
  end.

Definition RemoveChunk (F : faults) (fs : FS) (id : string) : option error * FS :=
  match validateID id with
  | Some e => (Some e, fs)
  | None =>
      match fs_entries fs !! chunkPath id with
      | None => (None, fs)
      | Some _ => if f_remove F then (Some errors_New, fs)
                  else (None, set_entries fs (chunkPath id) (delete (chunkPath id) (fs_entries fs)))
      end
  end.

(** [Open]: [tmp/] is emptied, the committed chunks are left alone. *)
Definition Open (F : faults) (fs : FS) : res FS :=
  if f_remove F then Err errors_New
  else if f_mkdir F then Err errors_New
  else Ok (set_tmp fs ∅).

(** ** Sweeping the disk *)

Record ChunkInfo := mk_ChunkInfo { ci_ID : string; ci_Size : Z; ci_Modified : Z }.

Definition within (dir prefix : string) : bool :=
  if bool_decide (slen dir < slen prefix)%nat then HasPrefix prefix dir else HasPrefix dir prefix.

(** What [os.ReadDir] lists, in name order. *)
Definition read_root (fs : FS) : list string := sort_by id (elements (fs_dirs fs)).
Definition read_dir (fs : FS) (dir : string) : list string :=
  sort_by id (omap (fun pi : path * inode => if decide (pi.1.1 = dir) then Some pi.1.2 else None)
                (map_to_list (fs_entries fs))).

Section scan.
Context {St : Type} (fs_of : St -> FS) (lsErr : string -> option error)
  (visit : ChunkInfo -> St -> option error * St).

(** The files of one directory, as it was listed; a file that has gone since is skipped. *)
Fixpoint scan_files (dir prefix : string) (names : list string) (σ : St) : option error * St :=
  match names with
  | [] => (None, σ)
  | n :: names' =>
      if negb (HasPrefix n prefix) then scan_files dir prefix names' σ
      else match fs_entries (fs_of σ) !! (dir, n) with
           | None => scan_files dir prefix names' σ
           | Some i =>
               match visit (mk_ChunkInfo n (zlen (in_data i)) (in_mtime i)) σ with
               | (Some e, σ') => (Some e, σ')
               | (None, σ') => scan_files dir prefix names' σ'
               end
           end
  end.

(** [lsErr] is how listing a directory fails; one that has vanished is skipped. *)
Fixpoint scan_dirs (prefix : string) (dirs : list string) (σ : St) : option error * St :=
  match dirs with
  | [] => (None, σ)
  | d :: dirs' =>
      if negb (within d prefix) then scan_dirs prefix dirs' σ
      else match lsErr d with
           | Some e => if errors_Is e ErrNotExist then scan_dirs prefix dirs' σ else (Some e, σ)
           | None =>
               match scan_files d prefix (read_dir (fs_of σ) d) σ with
               | (Some e, σ') => (Some e, σ')
               | (None, σ') => scan_dirs prefix dirs' σ'
               end
           end
  end.

Definition ScanChunks (prefix : string) (σ : St) : option error * St :=
  match lsErr "" with
  | Some e => (Some e, σ)
  | None => scan_dirs prefix (read_root (fs_of σ)) σ
  end.
End scan.

(** ** What a crash leaves

    Whatever was not synced may or may not have reached the disk. If its directory
    survives, a name comes back as it stands, as it was when the directory was last
    synced, or as it was at any moment between; a removal too may or may not have
    reached the disk. A file that was not synced comes back with any bytes. *)
Definition crash_inode (i j : inode) : Prop := in_synced i = true -> j = i.

Definition possible (fs : FS) (p : path) (o : option inode) : Prop :=
  o = fs_entries fs !! p \/ o = fs_entries_durable fs !! p \/ (p, o) ∈ fs_between fs.

Definition crash (fs fs' : FS) : Prop :=
  fs_dirs_durable fs ⊆ fs_dirs fs' /\ fs_dirs fs' ⊆ fs_dirs fs /\
  fs_dirs_durable fs' = fs_dirs fs' /\ fs_entries_durable fs' = fs_entries fs' /\ fs_between fs' = [] /\
  forall p, if decide (p.1 ∈ fs_dirs fs')
    then exists o, possible fs p o /\
      match o with
      | Some i => exists j, fs_entries fs' !! p = Some j /\ crash_inode i j
      | None => fs_entries fs' !! p = None
      end
    else fs_entries fs' !! p = None.

(** ** The commit discipline keeps the chunks whole *)

(** [s] shows the chunks [fs] showed, or those and the new one; a crash can find what it
    could find before, or the new one. *)
Definition untouched (fs s : FS) : Prop :=
  fs_entries s = fs_entries fs /\ (forall q o, possible s q o -> possible fs q o) /\
  fs_dirs fs ⊆ fs_dirs s /\ fs_dirs_durable s = fs_dirs_durable fs.

Definition installed (p : path) (i : inode) (fs s : FS) : Prop :=
  fs_entries s = <[p := i]> (fs_entries fs) /\
  (forall q o, possible s q o -> possible fs q o \/ (q = p /\ o = Some i)) /\
  {[p.1]} ∪ fs_dirs fs ⊆ fs_dirs s /\ fs_dirs_durable s = fs_dirs_durable fs.

Lemma possible_now fs p : possible fs p (fs_entries fs !! p).
Proof. by left. Qed.

Lemma possible_set fs p e q o : possible (set_entries fs p e) q o -> o = e !! q \/ possible fs q o.
Proof.
  intros [Ho|[Ho|Ho]]; [by left | by right; right; left |]. right.
  apply elem_of_cons in Ho as [Ho|Ho]; [simplify_eq; by left | by right; right].
Qed.

Lemma lookup_sync_dir fs dir p :
  fs_entries_durable (os_SyncDir fs dir) !! p
  = if decide (p.1 = dir) then fs_entries fs !! p else fs_entries_durable fs !! p.
Proof.
  simpl. rewrite lookup_union, !map_lookup_filter.
  destruct (fs_entries fs !! p), (fs_entries_durable fs !! p); simpl;
    repeat (case_guard || case_decide); simpl in *; tauto.
Qed.

(** Syncing a directory settles what its names stand for and changes no others. *)
Lemma possible_SyncDir fs dir p o : possible (os_SyncDir fs dir) p o ->
  possible fs p o /\ (p.1 = dir -> o = fs_entries fs !! p).
Proof.
  unfold possible. rewrite lookup_sync_dir. cbn [fs_entries fs_between os_SyncDir].
  rewrite list_elem_of_filter. cbn [fst]. intros [->|[Ho|[Hd Ho]]]; [by auto | | by split; [auto|]].
  case_decide; [subst o; auto | by split; [auto|]].
Qed.

Section durable_facts.
Context (F : faults) (t : string) (now : Z) (fs : FS) (p : path) (r : reader)
  (verify : option (Z -> Z -> option error)).

Definition new_inode : inode := mk_inode (rd_data r) true now.

(** The staged data passed the caller's check. *)
Definition verified : Prop :=
  rd_end r = None /\
  match verify with Some v => v (crc32c (rd_data r)) (zlen (rd_data r)) = None | None => True end.

Lemma untouched_cleanup s : untouched fs s -> untouched fs (cleanup F t s).
Proof. unfold cleanup. by destruct (f_cleanup F). Qed.

Lemma installed_cleanup s : installed p new_inode fs s -> installed p new_inode fs (cleanup F t s).
Proof. unfold cleanup. by destruct (f_cleanup F). Qed.

Lemma untouched_refl : untouched fs fs.
Proof. by repeat split. Qed.

Lemma untouched_mkdir s : untouched fs s -> untouched fs (os_MkdirAll s p.1).
Proof. intros (? & ? & ? & ?). repeat split; simpl; try done. set_solver. Qed.

(** The state after the rename. *)
Lemma renamed s : untouched fs s -> fs_tmp s !! t = Some new_inode ->
  installed p new_inode fs (os_Rename (os_MkdirAll s p.1) t p).
Proof.
  intros (He & Hd & Hdirs & Hdd) Ht. unfold os_Rename. simpl. rewrite Ht.
  split_and!; simpl; [by rewrite He | | set_solver | done].
  intros q o [Ho|Ho]%possible_set; [|by left; apply Hd].
  cbn [fs_entries os_MkdirAll] in Ho. rewrite He in Ho. destruct (decide (q = p)) as [->|Hne].
  - rewrite lookup_insert_eq in Ho. by right.
  - rewrite lookup_insert_ne in Ho by done. subst o. left. apply possible_now.
Qed.

Lemma synced_dir s : installed p new_inode fs s -> installed p new_inode fs (os_SyncDir s p.1).
Proof.
  intros (He & Hd & Hdirs & Hdd). split_and!; simpl; try done. intros q o [Ho _]%possible_SyncDir. auto.
Qed.

Lemma settled s o : installed p new_inode fs s -> possible (os_SyncDir s p.1) p o -> o = Some new_inode.
Proof. intros (He & _) [_ Ho]%possible_SyncDir. rewrite Ho, He by done. apply lookup_insert_eq. Qed.

(** The states an execution that gets that far goes through. *)
Definition st_created : FS := staged t now fs (rd_data r).
Definition st_synced : FS := os_Sync st_created t.
Definition st_mkdir : FS := os_MkdirAll st_synced p.1.
Definition st_renamed : FS := os_Rename st_mkdir t p.
Definition st_durable : FS := os_SyncDir st_renamed p.1.

Lemma st_facts :
  untouched fs st_synced /\ untouched fs st_mkdir /\
  installed p new_inode fs st_renamed /\ installed p new_inode fs st_durable.
Proof.
  assert (H2 : untouched fs st_synced) by apply untouched_refl.
  assert (H4 : installed p new_inode fs st_renamed).
  { apply renamed; [done|]. unfold st_synced, os_Sync, st_created. simpl.
    by rewrite lookup_alter_eq, lookup_insert_eq. }
  split_and!; [done | by apply untouched_mkdir | done | by apply synced_dir].
Qed.

Lemma staged_untouched d : untouched fs (staged t now fs d).
Proof. apply untouched_refl. Qed.

Lemma copying_untouched d s : s ∈ copying t now fs d -> untouched fs s.
Proof. intros (n & -> & _)%list_elem_of_fmap. apply staged_untouched. Qed.

Lemma upto_whole limit d : zlen d <= zlen (upto limit d) -> upto limit d = d.
Proof.
  destruct limit as [n|]; [|done]. simpl. unfold zlen, takeZ. rewrite length_take. intros H.
  apply take_ge. lia.
Qed.

(** Every state on the way, and the last, shows the old chunks or those and a new one
    that is complete, synced and checked. *)
Lemma durableWrite_states out fs' tr :
  durableWrite F t now fs p r verify = (out, fs', tr) ->
  (forall s, s ∈ fs' :: tr -> untouched fs s \/ (verified /\ installed p new_inode fs s)) /\
  match out with
  | Ok cs => cs = (crc32c (rd_data r), zlen (rd_data r)) /\ verified /\ fs' = st_durable
  | Err _ => untouched fs fs' \/ (verified /\ f_syncdir F = true /\ installed p new_inode fs fs')
  end.
Proof.
  destruct st_facts as (H2 & H3 & H4 & H5). pose proof untouched_refl as H0.
  assert (Hc : forall s, untouched fs s -> untouched fs (cleanup F t s)) by apply untouched_cleanup.
  unfold durableWrite. set (d := upto (f_write F) (rd_data r)).
  pose proof (staged_untouched d) as H1. pose proof (copying_untouched d) as Hcp.
  destruct (f_create F).
  { intros [= <- <- <-]. split; [|by left]. intros s Hs. set_solver. }
  destruct (Z.ltb_spec (zlen d) (zlen (rd_data r))) as [_|Hd].
  { intros [= <- <- <-]. split; [|by left; apply Hc]. intros s Hs. set_solver. }
  apply upto_whole in Hd. fold d in Hd. rewrite Hd in *. clear Hd d.
  fold st_created. fold st_synced. fold st_mkdir. fold st_renamed. fold st_durable.
  destruct (rd_end r) as [e|] eqn:He.
  { intros [= <- <- <-]. split; [|by left; apply Hc]. intros s Hs. set_solver. }
  destruct (match verify with Some v => _ | None => None end) as [e|] eqn:Hv.
  { intros [= <- <- <-]. split; [|by left; apply Hc]. intros s Hs. set_solver. }
  assert (Hver : verified) by (split; [done | destruct verify; [by rewrite Hv | done]]).
  destruct (f_sync F).
  { intros [= <- <- <-]. split; [|by left; apply Hc]. intros s Hs. set_solver. }
  destruct (f_close F); [|destruct (f_mkdir F); [|destruct (f_rename F); [|destruct (f_syncdir F)]]];
    intros [= <- <- <-].
  - split; [|by left; apply Hc]. intros s Hs. set_solver.
  - split; [|by left; apply Hc]. intros s Hs. set_solver.
  - split; [|by left; apply Hc]. intros s Hs. set_solver.
  - pose proof (installed_cleanup _ H4). split; [|by right; auto]. intros s Hs. set_solver.
  - split; [|done]. intros s Hs. set_solver.
Qed.
End durable_facts.

(** ** The store's invariant *)

(** Every chunk is a synced file in the directory its own name says, and every name is
    one [validateID] accepts; so is everything a crash can bring back. *)
Definition name_ok (p : path) (i : inode) : Prop :=
  p = chunkPath p.2 /\ validateID p.2 = None /\ in_synced i = true.

Definition entry_ok (fs : FS) (p : path) (i : inode) : Prop := p.1 ∈ fs_dirs fs /\ name_ok p i.

Definition store_wf (fs : FS) : Prop :=
  (forall p i, fs_entries fs !! p = Some i -> entry_ok fs p i) /\
  (forall p i, possible fs p (Some i) -> name_ok p i).

Lemma untouched_wf fs s : store_wf fs -> untouched fs s -> store_wf s.
Proof.
  intros [H1 H2] (He & Hd & Hdirs & _). split; [|auto]. intros p i Hp.
  rewrite He in Hp. apply H1 in Hp as [? ?]. split; auto.
Qed.

Lemma installed_wf id i fs s : validateID id = None -> in_synced i = true ->
  store_wf fs -> installed (chunkPath id) i fs s -> store_wf s.
Proof.
  intros Hv Hi [H1 H2] (He & Hd & Hdirs & _).
  assert (Hp : forall p j, possible s p (Some j) -> name_ok p j).
  { intros p j [Hp|[-> [= ->]]]%Hd; [auto | done]. }
  split; [|done]. intros p j Hj. split.
  - rewrite He in Hj. apply lookup_insert_Some in Hj as [[<- _]|[_ [Hin _]%H1]]; set_solver.
  - apply Hp. rewrite <- Hj. apply possible_now.
Qed.

(** What comes back is one of the versions it could have, whole. *)
Lemma crash_back fs fs' p j : store_wf fs -> crash fs fs' -> fs_entries fs' !! p = Some j ->
  p.1 ∈ fs_dirs fs' /\ possible fs p (Some j).
Proof.
  intros [_ H2] (_ & _ & _ & _ & _ & H) Hj. specialize (H p). case_decide; [|congruence].
  split; [done|]. destruct H as ([i|] & Hi & Hb); [|congruence]. destruct Hb as (j' & Hj' & Hc).
  simplify_eq. rewrite Hc; [done|]. by apply (H2 p i).
Qed.

(** A name that can only come back one way does, if its directory does. *)
Lemma crash_keeps fs fs' p i : crash fs fs' -> p.1 ∈ fs_dirs fs' -> in_synced i = true ->
  (forall o, possible fs p o -> o = Some i) -> fs_entries fs' !! p = Some i.
Proof.
  intros (_ & _ & _ & _ & _ & H) Hd Hs Ho. specialize (H p). rewrite decide_True in H by done.
  destruct H as (o & Hp & Hb). rewrite (Ho o Hp) in Hb. destruct Hb as (j & -> & Hc). by rewrite Hc.
Qed.

(** After a crash nothing is left open. *)
Lemma crash_settled fs fs' p o : crash fs fs' -> possible fs' p o -> o = fs_entries fs' !! p.
Proof.
  intros (_ & _ & _ & Hd & Hb & _) [Ho|[Ho|Ho]]; [done | by rewrite <- Hd |].
  rewrite Hb in Ho. by apply elem_of_nil in Ho.
Qed.

Lemma crash_wf fs fs' : store_wf fs -> crash fs fs' -> store_wf fs'.
Proof.
  intros Hwf Hc.
  assert (Hall : forall p j, fs_entries fs' !! p = Some j -> entry_ok fs' p j).
  { intros p j Hp. destruct (crash_back _ _ _ _ Hwf Hc Hp) as [Hin Hpo]. split; [done|]. by apply Hwf. }
  split; [done|]. intros p i Hp. apply (crash_settled _ _ _ _ Hc) in Hp. symmetry in Hp. by apply Hall.
Qed.

Lemma remove_possible F fs id q o : possible (RemoveChunk F fs id).2 q o ->
  possible fs q o \/ (q = chunkPath id /\ o = None).
Proof.
  unfold RemoveChunk. destruct (validateID id); [by left|].
  destruct (fs_entries fs !! chunkPath id) eqn:He; [|by left]. destruct (f_remove F); [by left|].
  cbn [snd]. intros [Ho|Ho]%possible_set; [|by left]. destruct (decide (q = chunkPath id)) as [->|Hne].
  - rewrite lookup_delete_eq in Ho. by right.
  - rewrite lookup_delete_ne in Ho by done. subst o. left. apply possible_now.
Qed.

Lemma remove_wf F fs id : store_wf fs -> store_wf (RemoveChunk F fs id).2.
Proof.
  intros [H1 H2]. split; [|intros p i [Hp|[_ ?]]%remove_possible; [auto | done]].
  unfold RemoveChunk. destruct (validateID id); [done|].
  destruct (fs_entries fs !! chunkPath id) as [i0|]; [|done]. destruct (f_remove F); [done|].
  cbn [snd fs_entries set_entries]. intros p i [_ Hp]%lookup_delete_Some. by apply H1 in Hp.
Qed.

(** A write that was asked for: its name, its body and, for a verified one, the checksum
    and length its sender declared. *)
Record offer := mk_offer { of_id : string; of_body : reader; of_declared : option (Z * Z) }.

(** The file [i] at [p] is the whole body of the write [o]. *)
Definition whole_of (p : path) (i : inode) (o : offer) : Prop :=
  p = chunkPath (of_id o) /\ rd_end (of_body o) = None /\ in_data i = rd_data (of_body o) /\
  match of_declared o with
  | Some (crc, size) => crc32c (in_data i) = crc /\ zlen (in_data i) = size
  | None => True
  end.

(** What can happen to the store, with the writes it was asked for so far. A write can stop
    at any state it passes through, and a crash can follow. *)
Inductive store_step : FS * list offer -> FS * list offer -> Prop :=
  | step_write F t now fs id r out fs' tr s os :
      WriteChunk F t now fs id r = (out, fs', tr) -> s ∈ fs' :: tr ->
      store_step (fs, os) (s, mk_offer id r None :: os)
  | step_write_verified F t now fs id r crc size out fs' tr s os :
      WriteChunkVerified F t now fs id r crc size = (out, fs', tr) -> s ∈ fs' :: tr ->
      store_step (fs, os) (s, mk_offer id r (Some (crc, size)) :: os)
  | step_remove F fs id os : store_step (fs, os) ((RemoveChunk F fs id).2, os)
  | step_open F fs fs' os : Open F fs = Ok fs' -> store_step (fs, os) (fs', os)
  | step_crash fs fs' os : crash fs fs' -> store_step (fs, os) (fs', os).

Definition empty_fs : FS := mk_FS ∅ ∅ ∅ ∅ ∅ [].

Lemma verify_declared_ok crc size c z : verify_declared crc size c z = None <-> c = crc /\ z = size.
Proof. unfold verify_declared. destruct (Z.eqb_spec z size), (Z.eqb_spec c crc); naive_solver. Qed.

Lemma write_states F t now fs id r out fs' tr s :
  WriteChunk F t now fs id r = (out, fs', tr) -> s ∈ fs' :: tr ->
  untouched fs s \/ (validateID id = None /\ rd_end r = None /\
                     installed (chunkPath id) (new_inode now r) fs s).
Proof.
  intros Hw Hs. unfold WriteChunk in Hw. destruct (validateID id) eqn:Hv.
  - simplify_eq. left. assert (s = fs') as -> by set_solver. apply untouched_refl.
  - apply durableWrite_states in Hw as [Hw _]. destruct (Hw s Hs) as [?|[[? _] ?]]; auto.
Qed.

Lemma verified_write_states F t now fs id r crc size out fs' tr s :
  WriteChunkVerified F t now fs id r crc size = (out, fs', tr) -> s ∈ fs' :: tr ->
  untouched fs s \/ (validateID id = None /\ rd_end r = None /\
                     (crc32c (rd_data r) = crc /\ zlen (rd_data r) = size) /\
                     installed (chunkPath id) (new_inode now r) fs s).
Proof.
  intros Hw Hs. unfold WriteChunkVerified in Hw. destruct (validateID id) eqn:Hv.
  - simplify_eq. left. assert (s = fs') as -> by set_solver. apply untouched_refl.
  - destruct (durableWrite _ _ _ _ _ _ _) as [[o fs1] tr1] eqn:Hd.
    apply durableWrite_states in Hd as [Hd _].
    destruct (Hd s) as [?|[[? Hver] ?]]; [destruct o; simplify_eq; done | by left |].
    apply verify_declared_ok in Hver. by right.
Qed.

(** The invariant: well formed, and whatever there is or can come back is whole. *)
Definition store_ok (σ : FS * list offer) : Prop :=
  store_wf σ.1 /\ forall p i, possible σ.1 p (Some i) -> exists o, o ∈ σ.2 /\ whole_of p i o.

Lemma untouched_ok fs os s o : store_ok (fs, os) -> untouched fs s -> store_ok (s, o :: os).
Proof.
  intros [Hwf Hw] Hu. split; [by eapply untouched_wf|]. intros p i Hp. simpl in Hp.
  destruct Hu as (_ & Hd & _). apply Hd, Hw in Hp as (o' & ? & ?). exists o'. split; [by right | done].
Qed.

Lemma installed_ok fs os s o i : store_ok (fs, os) -> validateID (of_id o) = None -> in_synced i = true ->
  whole_of (chunkPath (of_id o)) i o -> installed (chunkPath (of_id o)) i fs s -> store_ok (s, o :: os).
Proof.
  intros [Hwf Hw] Hv Hi Ho Hs. split; [by eapply installed_wf|]. intros p j Hp. simpl in Hp.
  destruct Hs as (_ & Hd & _). apply Hd in Hp as [Hp|[-> [= ->]]].
  - apply Hw in Hp as (o' & ? & ?). exists o'. split; [by right | done].
  - exists o. split; [by left | done].
Qed.

Lemma store_step_ok σ σ' : store_step σ σ' -> store_ok σ -> store_ok σ'.
Proof.
  intros [F t now fs id r out fs' tr s os H Hs|F t now fs id r crc size out fs' tr s os H Hs
    |F fs id os|F fs fs' os Ho|fs fs' os Hc] Hok.
  - destruct (write_states _ _ _ _ _ _ _ _ _ _ H Hs) as [Hu|(Hv & He & Hi)]; [by eapply untouched_ok|].
    eapply (installed_ok _ _ _ (mk_offer id r None) (new_inode now r)); [done..| |exact Hi]. by repeat split.
  - destruct (verified_write_states _ _ _ _ _ _ _ _ _ _ _ _ H Hs) as [Hu|(Hv & He & Hc & Hi)]; [by eapply untouched_ok|].
    eapply (installed_ok _ _ _ (mk_offer id r (Some (crc, size))) (new_inode now r)); [done..| |exact Hi]. split; [done|]. split; [done|]. split; [done | exact Hc].
  - destruct Hok as [Hwf Hw]. split; [by apply remove_wf|]. intros p i [Hp|[_ ?]]%remove_possible; [auto | done].
  - unfold Open in Ho. repeat case_match; by simplify_eq.
  - destruct Hok as [Hwf Hw]. split; [by eapply crash_wf|]. intros p i Hp%(crash_settled _ _ _ _ Hc). symmetry in Hp.
    by apply (crash_back _ _ _ _ Hwf Hc) in Hp as [_ Hp%Hw].
Qed.

(** C9: the invariant of the chunk store holds in every state that writes, verified
    writes, removals and restarts, one after another, and crashes at any byte or system
    call of them can reach: whatever is visible is a synced file that holds the whole
    body of a write that was asked for under its name, one whose reader ended cleanly and
    whose declared checksum and length the bytes have; the name is safe and the directory
    the one it says. *)
Theorem store_invariant (fs : FS) (os : list offer) (p : path) (i : inode) :
  rtc store_step (empty_fs, []) (fs, os) -> fs_entries fs !! p = Some i ->
  entry_ok fs p i /\ exists o, o ∈ os /\ whole_of p i o.
Proof.
  intros H Hp. assert (Hok : store_ok (fs, os)).
  { assert (H0 : store_ok (empty_fs, [])).
    { assert (forall p i, ~ possible empty_fs p (Some i)) as Hn.
      { intros q j [Hq|[Hq|Hq]]; simpl in Hq; [by rewrite lookup_empty in Hq.. | by apply elem_of_nil in Hq]. }
      split; [split|]; intros q j Hq; by destruct (Hn q j). }
    revert H H0. generalize (empty_fs, @nil offer). intros σ0 H. remember (fs, os) as σ eqn:E. clear E.
    induction H as [|a b c Hstep _ IH]; [done|]. intros H0. apply IH. by eapply store_step_ok. }
  destruct Hok as [Hwf Hw]. split; [by apply Hwf|]. apply Hw. rewrite <- Hp. apply possible_now.
Qed.

(** ** Crashes *)

(** A crash at any state of a verified write, seen from one name. *)
Lemma verified_write_crash F t now fs id r crc size out fs' tr s s' p o :
  WriteChunkVerified F t now fs id r crc size = (out, fs', tr) -> s ∈ fs' :: tr ->
  crash s s' -> possible s p o ->
  possible fs p o \/
  (p = chunkPath id /\ o = Some (new_inode now r) /\ rd_end r = None /\
   crc32c (rd_data r) = crc /\ zlen (rd_data r) = size).
Proof.
  intros Hw Hs Hcr Hp.
  destruct (verified_write_states _ _ _ _ _ _ _ _ _ _ _ _ Hw Hs) as [(_ & Hd & _)|(_ & He & Hc & (_ & Hd & _))]; [auto|].
  apply Hd in Hp as [?|[-> ->]]; [by auto|]. right. done.
Qed.

Lemma write_dirs F t now fs id r crc size out fs' tr s s' :
  WriteChunkVerified F t now fs id r crc size = (out, fs', tr) -> s ∈ fs' :: tr -> crash s s' ->
  fs_dirs_durable fs ⊆ fs_dirs s'.
Proof.
  intros Hw Hs (Hd & _).
  destruct (verified_write_states _ _ _ _ _ _ _ _ _ _ _ _ Hw Hs) as [(_ & _ & _ & <-)|(_ & _ & _ & (_ & _ & _ & <-))]; done.
Qed.

(** An acknowledged write leaves one version of the name. *)
Lemma verified_write_settled F t now fs id r crc size fs' tr o :
  WriteChunkVerified F t now fs id r crc size = (None, fs', tr) ->
  possible fs' (chunkPath id) o ->
  o = Some (new_inode now r) /\ rd_end r = None /\ crc32c (rd_data r) = crc /\ zlen (rd_data r) = size.
Proof.
  unfold WriteChunkVerified. destruct (validateID id); [done|].
  destruct (durableWrite _ _ _ _ _ _ _) as [[[cz|e] fs1] tr1] eqn:Hd; [|done]. intros [= <- <-] Ho.
  apply durableWrite_states in Hd as [_ (_ & [He Hv] & ->)]. apply verify_declared_ok in Hv.
  split; [|by split]. eapply settled; [|exact Ho]. apply st_facts.
Qed.

(** The files a verified write can leave under its name beside what was there. *)
Definition declared_body (r : reader) (crc size : Z) (j : inode) : Prop :=
  in_data j = rd_data r /\ rd_end r = None /\ crc32c (in_data j) = crc /\ zlen (in_data j) = size.

(** C8: a crash at any byte or system call of a verified write, or after it, never exposes
    a chunk that is half written or was not what its sender declared: a name that comes
    back holds a version it could have come back with before the write, or is the written
    one with the whole body and exactly the declared length and checksum. A chunk that was safe
    before, under the written name or any other, is still there byte for byte unless it is the written
    name and the new chunk is there in its place. Once the write was acknowledged, it is
    the new chunk. A directory that was not itself synced can vanish. *)
Theorem WriteChunkVerified_crash_atomic F t now fs id r crc size out fs' tr s s' :
  store_wf fs -> WriteChunkVerified F t now fs id r crc size = (out, fs', tr) ->
  s ∈ fs' :: tr -> crash s s' ->
  (forall p j, fs_entries s' !! p = Some j ->
     possible fs p (Some j) \/ (p = chunkPath id /\ declared_body r crc size j)) /\
  (forall p i, p.1 ∈ fs_dirs_durable fs -> (forall o, possible fs p o -> o = Some i) ->
     fs_entries s' !! p = Some i \/
     (p = chunkPath id /\ exists j, fs_entries s' !! p = Some j /\ declared_body r crc size j)) /\
  (out = None -> s = fs' -> stake 2 id ∈ fs_dirs_durable fs ->
     exists j, fs_entries s' !! chunkPath id = Some j /\ declared_body r crc size j).
Proof.
  intros Hwf Hw Hs Hcr. pose proof (write_dirs _ _ _ _ _ _ _ _ _ _ _ _ _ Hw Hs Hcr) as Hdirs.
  assert (Hwfs : store_wf s).
  { destruct (verified_write_states _ _ _ _ _ _ _ _ _ _ _ _ Hw Hs) as [?|(? & _ & _ & ?)];
      [by eapply untouched_wf | by apply (installed_wf id (new_inode now r) fs)]. }
  assert (Hback : forall p j, fs_entries s' !! p = Some j ->
     possible fs p (Some j) \/ (p = chunkPath id /\ declared_body r crc size j)).
  { intros p j Hj. apply (crash_back _ _ _ _ Hwfs Hcr) in Hj as [_ Hj].
    apply (verified_write_crash _ _ _ _ _ _ _ _ _ _ _ _ _ _ _ Hw Hs Hcr) in Hj as [?|(-> & [= ->] & ?)]; [by left|].
    right. split; [done|]. split; [done|]. done. }
  split; [exact Hback|]. split.
  - intros p i Hpd Hall. pose proof Hcr as (_ & _ & _ & _ & _ & H). specialize (H p).
    rewrite decide_True in H by set_solver. destruct H as (o & Ho & Hb).
    assert (exists j, fs_entries s' !! p = Some j) as [j Hj].
    { apply (verified_write_crash _ _ _ _ _ _ _ _ _ _ _ _ _ _ _ Hw Hs Hcr) in Ho as [->%Hall|(_ & -> & _)];
        destruct Hb as (j & ? & _); eauto. }
    destruct (Hback p j Hj) as [Hp|[-> Hp]]; [left; rewrite Hj; by apply Hall | right; eauto].
  - intros -> -> Hd. exists (new_inode now r).
    assert (declared_body r crc size (new_inode now r)) as Hb.
    { edestruct verified_write_settled as (_ & ? & ? & ?); [exact Hw | apply possible_now | done]. }
    split; [|done]. eapply crash_keeps; [exact Hcr | simpl; set_solver | done |].
    intros o Ho. by eapply verified_write_settled in Ho as [-> _].
Qed.

(** ** Reading is checked *)

Lemma raw_update_app poly c p q : raw_update poly c (p ++ q) = raw_update poly (raw_update poly c p) q.
Proof. unfold raw_update. apply foldl_app. Qed.

Lemma Update_app w poly c p q : Update w poly (Update w poly c p) q = Update w poly c (p ++ q).
Proof.
  unfold Update. rewrite raw_update_app. do 2 f_equal.
  by rewrite (Z.lxor_comm (Z.ones w)), Z.lxor_assoc, Z.lxor_nilpotent, Z.lxor_0_r.
Qed.

Lemma Update_nil w poly c : Update w poly c [] = c.
Proof.
  unfold Update. simpl. by rewrite (Z.lxor_comm c), <- Z.lxor_assoc, Z.lxor_nilpotent, Z.lxor_0_l.
Qed.

(** The running checksum does not depend on how the stream was cut. *)
Lemma verify_crc_concat segs : verify_crc segs = crc32c (concat segs).
Proof.
  unfold verify_crc, crc32c, Checksum. generalize 0.
  induction segs as [|p segs IH]; intros c; simpl; [by rewrite Update_nil|].
  by rewrite IH, Update_app.
Qed.

Lemma Verify_spec seg d want : (forall d, concat (seg d) = d) ->
  Verify seg (mk_reader d None) want
  = mk_reader d (if crc32c d =? want then None else Some [ErrChecksumMismatch]).
Proof.
  intros Hseg. unfold Verify. simpl. rewrite verify_crc_concat, Hseg.
  by destruct (crc32c d =? want).
Qed.

(** An open file that is read through the check: a clean end means the whole file and the
    right checksum. *)
Lemma Verify_file F seg i want : (forall d, concat (seg d) = d) ->
  Verify seg (file_reader F i) want
  = let d := upto (f_read F) (in_data i) in
    mk_reader d (if zlen d <? zlen (in_data i) then Some errors_New
                 else if crc32c (in_data i) =? want then None else Some [ErrChecksumMismatch]).
Proof.
  intros Hseg. unfold file_reader. cbv zeta. destruct (Z.ltb_spec (zlen (upto (f_read F) (in_data i))) (zlen (in_data i))) as [_|Hd].
  - reflexivity.
  - apply upto_whole in Hd. rewrite Hd. by apply Verify_spec.
Qed.

Lemma upto_prefix limit d : upto limit d `prefix_of` d.
Proof. destruct limit; [apply prefix_take | done]. Qed.

(** Whatever has happened to the disk, a chunk that is read to a clean end is the whole
    file and has the checksum the manifest asked for; bytes that do not match end in
    [ErrChecksumMismatch] if they can be read at all, and this does not depend on how the
    reads cut the file. A name that is not there is [ErrNotFound], a malformed one
    [ErrInvalidID]. *)
Theorem ReadChunk_verified F seg fs id want :
  (forall d, concat (seg d) = d) ->
  match ReadChunk F seg fs id want with
  | Ok r => exists i, fs_entries fs !! chunkPath id = Some i /\ rd_data r `prefix_of` in_data i /\
      (rd_end r = None -> rd_data r = in_data i /\ crc32c (in_data i) = want) /\
      (f_read F = None -> rd_data r = in_data i /\
         rd_end r = if crc32c (in_data i) =? want then None else Some [ErrChecksumMismatch])
  | Err e => e = [ErrInvalidID] /\ validateID id = Some e \/
      e = [StoreErrNotFound] /\ fs_entries fs !! chunkPath id = None \/
      e = errors_New /\ f_open F = true
  end.
Proof.
  intros Hseg. unfold ReadChunk. destruct (validateID id) as [e|] eqn:Hv.
  { left. split; [|done]. unfold validateID in Hv. by destruct (_ || _); simplify_eq. }
  destruct (fs_entries fs !! chunkPath id) as [i|]; [|by auto].
  destruct (f_open F); [by auto|]. exists i. rewrite Verify_file by done. simpl.
  split; [done|]. split; [apply upto_prefix|]. split.
  - destruct (Z.ltb_spec (zlen (upto (f_read F) (in_data i))) (zlen (in_data i))) as [|Hd]; [done|].
    apply upto_whole in Hd. destruct (Z.eqb_spec (crc32c (in_data i)) want); done.
  - intros ->. simpl. by rewrite Z.ltb_irrefl.
Qed.

(** ** Acknowledged chunks are durable *)

Lemma WriteChunk_Ok F t now fs id r crc size fs' tr :
  WriteChunk F t now fs id r = (Ok (crc, size), fs', tr) ->
  validateID id = None /\ crc = crc32c (rd_data r) /\ size = zlen (rd_data r) /\
  (forall o, possible fs' (chunkPath id) o -> o = Some (new_inode now r)) /\
  fs_dirs_durable fs' = fs_dirs_durable fs.
Proof.
  unfold WriteChunk. destruct (validateID id); [done|]. intros H.
  apply durableWrite_states in H as [_ (Heq & _ & ->)]. simplify_eq.
  destruct (st_facts t now fs (chunkPath id) r) as (_ & _ & H4 & H5). split_and!; try done.
  - intros o Ho. by eapply settled; [exact H4|].
  - apply H5.
Qed.

(** Once [WriteChunk] has returned without an error, the chunk survives every crash
    that follows and reads back as exactly the bytes of the source with the returned
    checksum, provided its two-character directory was itself durable. *)
Theorem WriteChunk_durable F F' seg t now fs id r crc size fs' tr s :
  (forall d, concat (seg d) = d) -> f_open F' = false -> f_read F' = None ->
  stake 2 id ∈ fs_dirs_durable fs ->
  WriteChunk F t now fs id r = (Ok (crc, size), fs', tr) -> crash fs' s ->
  ReadChunk F' seg s id crc = Ok (mk_reader (rd_data r) None) /\ size = zlen (rd_data r).
Proof.
  intros Hseg Hop Hrd Hdir Hw Hcr.
  apply WriteChunk_Ok in Hw as (Hv & -> & -> & Hall & Hdir'). split; [|done].
  assert (Hj : fs_entries s !! chunkPath id = Some (new_inode now r)).
  { eapply crash_keeps; [exact Hcr | | done | exact Hall]. destruct Hcr as (Hd & _). simpl. set_solver. }
  unfold ReadChunk. rewrite Hv, Hj, Hop, Verify_file by done. rewrite Hrd. simpl.
  by rewrite Z.ltb_irrefl, Z.eqb_refl.
Qed.

(** C40: as the code stands that proviso is needed. The first chunk of a two-character
    prefix creates its directory, and only that directory is synced, never
    [chunks/] above it: the write is acknowledged and a crash may still take the
    directory and the chunk with it. *)
Theorem WriteChunk_new_directory_can_vanish (id : string) (data : bytes) :
  validateID id = None -> exists fs' tr s,
    WriteChunk no_faults "t" 0 empty_fs id (mk_reader data None)
    = (Ok (crc32c data, zlen data), fs', tr) /\
    crash fs' s /\ fs_entries s !! chunkPath id = None.
Proof.
  intros Hv. unfold WriteChunk. rewrite Hv.
  destruct (durableWrite no_faults "t" 0 empty_fs (chunkPath id) (mk_reader data None) None)
    as [[out fs'] tr] eqn:Hw. exists fs', tr, empty_fs.
  assert (out = Ok (crc32c data, zlen data)) as -> by (unfold durableWrite in Hw; simpl in Hw; rewrite Z.ltb_irrefl in Hw; congruence).
  split; [done|]. split; [|apply lookup_empty].
  apply durableWrite_states in Hw as [_ (_ & _ & ->)].
  destruct (st_facts "t" 0 empty_fs (chunkPath id) (mk_reader data None)) as (_ & _ & _ & (_ & _ & _ & Hdd)).
  split_and!; [rewrite Hdd; set_solver | set_solver | done..|].
  intros p. simpl. rewrite decide_False by set_solver. apply lookup_empty.
Qed.

(** An error leaves the visible chunks exactly as they were, except for the one the
    code does not undo: when only the directory sync fails, the error is returned and
    the chunk is nevertheless visible. *)
Theorem WriteChunk_error_visibility F t now fs id r e fs' tr :
  WriteChunk F t now fs id r = (Err e, fs', tr) ->
  (fs_entries fs' = fs_entries fs \/
   (f_syncdir F = true /\ fs_entries fs' = <[chunkPath id := new_inode now r]> (fs_entries fs))) /\
  (validateID id = None -> rd_end r = None ->
   F = mk_faults false None false false false false true false false None false false ->
   fs_entries fs' !! chunkPath id = Some (new_inode now r)).
Proof.
  unfold WriteChunk. destruct (validateID id) eqn:Hv; [intros; simplify_eq; split; [auto | done]|].
  intros Hw. split.
  - apply durableWrite_states in Hw as [_ [(He & _)|(_ & Hf & (He & _))]]; auto.
  - intros _ Hr ->. unfold durableWrite in Hw. simpl in Hw. rewrite Z.ltb_irrefl, Hr in Hw. simplify_eq.
    change (fs_entries _) with (fs_entries (st_renamed t now fs (chunkPath id) r)).
    destruct (st_facts t now fs (chunkPath id) r) as (_ & _ & (He & _) & _).
    by rewrite He, lookup_insert_eq.
Qed.

(** ** A sweep sees everything *)

Lemma HasPrefix_compare s p q : HasPrefix s p = true -> HasPrefix s q = true ->
  (slen p <= slen q)%nat -> HasPrefix q p = true.
Proof.
  revert p q. induction s as [|c s IH]; intros [|a p] [|b q]; simpl; try done; try lia.
  intros [Ha Hp]%andb_true_iff [Hb Hq]%andb_true_iff Hl.
  apply Ascii.eqb_eq in Ha, Hb. subst. rewrite Ascii.eqb_refl. simpl. apply IH; [done..|lia].
Qed.

Lemma slen_stake n s : slen (stake n s) = (n `min` slen s)%nat.
Proof. revert s. induction n; intros [|c s]; simpl; auto. Qed.

Lemma HasPrefix_stake n s : HasPrefix s (stake n s) = true.
Proof. apply HasPrefix_spec. exists (sdrop n s). by rewrite stake_sdrop. Qed.

(** No chunk with the prefix is in a directory the scan skips. *)
Lemma within_complete id prefix : HasPrefix id prefix = true -> within (stake 2 id) prefix = true.
Proof.
  intros Hp. pose proof (HasPrefix_stake 2 id). unfold within. case_bool_decide.
  - by eapply HasPrefix_compare; eauto; lia.
  - by eapply HasPrefix_compare; eauto; lia.
Qed.

Section scan_facts.
Context (fs : FS) (prefix : string).

Definition collect_info (info : ChunkInfo) (σ : FS * list ChunkInfo) : option error * (FS * list ChunkInfo) :=
  (None, (σ.1, σ.2 ++ [info])).

Definition file_info (d n : string) : option ChunkInfo :=
  if HasPrefix n prefix
  then (fun i => mk_ChunkInfo n (zlen (in_data i)) (in_mtime i)) <$> fs_entries fs !! (d, n)
  else None.

Definition dir_infos (d : string) : list ChunkInfo :=
  if within d prefix then omap (file_info d) (read_dir fs d) else [].

Lemma scan_files_collect d names : forall acc,
  scan_files fst collect_info d prefix names (fs, acc) = (None, (fs, acc ++ omap (file_info d) names)).
Proof.
  induction names as [|n names IH]; intros acc; simpl; [by rewrite app_nil_r|].
  unfold file_info at 1. destruct (HasPrefix n prefix); simpl; [|apply IH].
  destruct (fs_entries fs !! (d, n)); simpl; [|apply IH]. by rewrite IH, <- app_assoc.
Qed.

Lemma scan_dirs_collect dirs : forall acc,
  scan_dirs fst (fun _ => None) collect_info prefix dirs (fs, acc)
  = (None, (fs, acc ++ flat_map dir_infos dirs)).
Proof.
  induction dirs as [|d dirs IH]; intros acc; simpl; [by rewrite app_nil_r|].
  unfold dir_infos at 1. destruct (within d prefix); simpl; [|apply IH].
  by rewrite scan_files_collect, IH, <- app_assoc.
Qed.

Lemma elem_of_read_dir d n : n ∈ read_dir fs d <-> is_Some (fs_entries fs !! (d, n)).
Proof.
  unfold read_dir. rewrite elem_of_sort_by, list_elem_of_omap. split.
  - intros ([[d' n'] i] & Hin & Hx). apply elem_of_map_to_list in Hin. simpl in Hx.
    case_decide; simplify_eq. eauto.
  - intros [i Hi]. exists ((d, n), i). split; [by apply elem_of_map_to_list|].
    simpl. by rewrite decide_True.
Qed.

Lemma NoDup_read_dir d : NoDup (read_dir fs d).
Proof.
  unfold read_dir. rewrite sort_by_perm. pose proof (NoDup_fst_map_to_list (fs_entries fs)) as Hnd.
  induction (map_to_list (fs_entries fs)) as [|[[d' n'] i] l IH]; simpl; [constructor|].
  simpl in Hnd. apply NoDup_cons in Hnd as [Hni Hnd]. case_decide as Hd; [|auto].
  constructor; [|auto]. intros ([[d2 n2] j] & Hin & Hx)%list_elem_of_omap. simpl in Hx.
  case_decide; simplify_eq. apply Hni. apply list_elem_of_fmap. by eexists (_, j).
Qed.

Lemma dir_infos_elem d info : info ∈ dir_infos d <->
  within d prefix = true /\ exists i, fs_entries fs !! (d, ci_ID info) = Some i /\
    HasPrefix (ci_ID info) prefix = true /\
    info = mk_ChunkInfo (ci_ID info) (zlen (in_data i)) (in_mtime i).
Proof.
  unfold dir_infos. destruct (within d prefix); [|split; [by intros ?%elem_of_nil | by intros []]].
  rewrite list_elem_of_omap. split.
  - intros (n & _ & Hx). unfold file_info in Hx. destruct (HasPrefix n prefix) eqn:Hp; [|done].
    apply fmap_Some in Hx as (i & Hi & ->). split; [done|]. exists i. done.
  - intros [_ (i & Hi & Hp & Heq)]. exists (ci_ID info). rewrite elem_of_read_dir. split; [eauto|].
    unfold file_info. rewrite Hp, Hi. simpl. by rewrite <- Heq.
Qed.

Lemma dir_infos_ids_NoDup d : NoDup (map ci_ID (dir_infos d)).
Proof.
  unfold dir_infos. destruct (within d prefix); [|constructor].
  pose proof (NoDup_read_dir d) as Hnd. induction Hnd as [|n names Hn Hnd IH]; simpl; [constructor|].
  unfold file_info at 1. destruct (HasPrefix n prefix); [|done].
  destruct (fs_entries fs !! (d, n)) as [i|]; simpl; [|done]. constructor; [|done].
  intros (info & Hid & Hin)%list_elem_of_fmap. apply list_elem_of_omap in Hin as (n' & Hn' & Hx).
  unfold file_info in Hx. destruct (HasPrefix n' prefix); [|done].
  apply fmap_Some in Hx as (j & _ & ->). simpl in Hid. by subst.
Qed.
End scan_facts.

(** A sweep of the disk for a prefix visits every chunk whose name has it, each once,
    with its size and time, and nothing else: skipping directories by their two
    characters loses none. *)
Theorem ScanChunks_complete (fs : FS) (prefix : string) :
  store_wf fs -> exists infos,
    ScanChunks fst (fun _ => None) collect_info prefix (fs, []) = (None, (fs, infos)) /\
    NoDup (map ci_ID infos) /\
    forall info, info ∈ infos <-> exists i,
      fs_entries fs !! chunkPath (ci_ID info) = Some i /\ HasPrefix (ci_ID info) prefix = true /\
      info = mk_ChunkInfo (ci_ID info) (zlen (in_data i)) (in_mtime i).
Proof.
  intros Hwf. eexists. unfold ScanChunks. simpl. rewrite scan_dirs_collect. split; [done|].
  assert (Hdir : forall d info, info ∈ dir_infos fs prefix d -> d = stake 2 (ci_ID info)).
  { intros d info (_ & i & Hi & _)%dir_infos_elem. apply Hwf in Hi as (_ & Hp & _).
    unfold chunkPath in Hp. by simplify_eq/=. }
  split.
  - assert (Hnd : NoDup (read_root fs)).
    { unfold read_root. rewrite sort_by_perm. apply NoDup_elements. }
    induction Hnd as [|d dirs Hd Hnd IH]; simpl; [constructor|]. rewrite map_app. apply NoDup_app.
    split; [apply dir_infos_ids_NoDup|]. split; [|done].
    intros n (a & -> & Ha)%list_elem_of_fmap (b & Hab & Hb)%list_elem_of_fmap.
    apply list_elem_of_In, in_flat_map in Hb as (d' & Hd' & Hb).
    apply list_elem_of_In in Hd', Hb. apply Hdir in Ha, Hb. apply Hd. congruence.
  - intros info. rewrite app_nil_l. rewrite list_elem_of_In, in_flat_map. split.
    + intros (d & Hd & Hin). apply list_elem_of_In in Hin. pose proof (Hdir d info Hin) as ->.
      apply dir_infos_elem in Hin as (_ & i & Hi). eauto.
    + intros (i & Hi & Hp & Heq). exists (stake 2 (ci_ID info)). rewrite <- !list_elem_of_In.
      split.
      * unfold read_root. rewrite elem_of_sort_by, elem_of_elements. by apply Hwf in Hi as (? & _).
      * apply dir_infos_elem. split; [by apply within_complete|]. eauto.
Qed.

(** ** The store as a map from names to bytes *)

Definition held (fs : FS) (id : string) : option bytes := in_data <$> fs_entries fs !! chunkPath id.

Lemma held_insert fs fs' id i d :
  fs_entries fs' = <[chunkPath id := i]> (fs_entries fs) -> in_data i = d ->
  forall x, held fs' x = if decide (x = id) then Some d else held fs x.
Proof.
  intros He <- x. unfold held. rewrite He.
  case_decide as Hx; [subst; by rewrite lookup_insert_eq|].
  rewrite lookup_insert_ne; [done|]. unfold chunkPath. congruence.
Qed.

Lemma durableWrite_entries F t now fs p r verify cz fs' tr :
  durableWrite F t now fs p r verify = (Ok cz, fs', tr) ->
  fs_entries fs' = <[p := new_inode now r]> (fs_entries fs).
Proof.
  intros Hw. apply durableWrite_states in Hw as [_ (_ & _ & ->)].
  by destruct (st_facts t now fs p r) as (_ & _ & _ & (? & _)).
Qed.

Lemma HasChunk_held F fs x b : HasChunk F fs x = Ok b ->
  validateID x = None /\ b = bool_decide (is_Some (held fs x)).
Proof.
  unfold HasChunk, held. destruct (validateID x); [done|]. destruct (f_stat F); [done|].
  intros [= <-]. split; [done|]. apply bool_decide_ext. by rewrite fmap_is_Some.
Qed.

(** Seen through names and contents, the store is a map: a write that succeeds
    inserts the source's bytes and touches no other name, a removal that succeeds
    deletes one name, [HasChunk] is membership and [HasChunks] filters by it. *)
Theorem Store_refines_map F t now fs id r :
  (forall c z fs' tr, WriteChunk F t now fs id r = (Ok (c, z), fs', tr) ->
     forall x, held fs' x = if decide (x = id) then Some (rd_data r) else held fs x) /\
  (forall crc size fs' tr, WriteChunkVerified F t now fs id r crc size = (None, fs', tr) ->
     forall x, held fs' x = if decide (x = id) then Some (rd_data r) else held fs x) /\
  (forall fs', RemoveChunk F fs id = (None, fs') ->
     forall x, held fs' x = if decide (x = id) then None else held fs x) /\
  (forall b, HasChunk F fs id = Ok b -> b = bool_decide (is_Some (held fs id))) /\
  (forall ids have, HasChunks F fs ids = Ok have ->
     have = filter (fun x => validateID x = None /\ is_Some (held fs x)) ids).
Proof.
  split_and!.
  - intros c z fs' tr. unfold WriteChunk. destruct (validateID id); [done|]. intros Hw.
    eapply held_insert; [eapply durableWrite_entries; exact Hw | done].
  - intros crc size fs' tr. unfold WriteChunkVerified. destruct (validateID id); [done|].
    destruct (durableWrite _ _ _ _ _ _ _) as [[[[c z]|e] fs1] tr1] eqn:Hw; intros; simplify_eq.
    eapply held_insert; [eapply durableWrite_entries; exact Hw | done].
  - intros fs' Hr x. unfold RemoveChunk in Hr. destruct (validateID id); [done|]. unfold held.
    destruct (fs_entries fs !! chunkPath id) eqn:He.
    + destruct (f_remove F); simplify_eq. simpl. case_decide as Hx; [subst; by rewrite lookup_delete_eq|].
      rewrite lookup_delete_ne; [done|]. unfold chunkPath. congruence.
    + simplify_eq. case_decide; [subst; by rewrite He | done].
  - intros b Hb. apply HasChunk_held in Hb as [_ Hb]. exact Hb.
  - induction ids as [|x ids IH]; intros have; simpl; [by intros [= <-]|].
    destruct (HasChunk F fs x) as [b|e] eqn:Hx.
    + destruct (HasChunks F fs ids) as [l|]; simpl; [|done]. intros [= <-].
      apply HasChunk_held in Hx as [Hv ->]. rewrite (IH l) by done.
      case_bool_decide; [rewrite filter_cons_True by done | rewrite filter_cons_False by tauto]; done.
    + destruct (errors_Is e ErrInvalidID) eqn:Hi; [|done]. intros H.
      rewrite filter_cons_False; [by apply IH|]. intros [Hv _]. unfold HasChunk in Hx. rewrite Hv in Hx.
      by destruct (f_stat F); simplify_eq.
Qed.

(** ** The claims at concrete inputs *)

Definition demo_fs : FS := mk_FS ∅ {["ab"]} {["ab"]} ∅ ∅ [].
Definition demo_reader : reader := mk_reader (to_bytes "data") None.
Definition demo_ok := WriteChunk no_faults "t" 7 demo_fs "abc" demo_reader.

Lemma demo_fs_wf : store_wf demo_fs.
Proof.
  assert (forall p i, ~ possible demo_fs p (Some i)) as Hn.
  { intros q j [Hq|[Hq|Hq]]; simpl in Hq; [by rewrite lookup_empty in Hq.. | by apply elem_of_nil in Hq]. }
  split; intros q j Hq; by destruct (Hn q j).
Qed.

(** A crash brings back what the directory knew, or what is there now. *)
Lemma crash_to fs fs' : fs_dirs_durable fs ⊆ fs_dirs fs' -> fs_dirs fs' ⊆ fs_dirs fs ->
  fs_dirs_durable fs' = fs_dirs fs' -> fs_entries_durable fs' = fs_entries fs' -> fs_between fs' = [] ->
  map_Forall (fun p i => p.1 ∈ fs_dirs fs' /\ possible fs p (Some i)) (fs_entries fs') ->
  (forall p, fs_entries fs' !! p = None -> possible fs p None) -> crash fs fs'.
Proof.
  intros ? ? ? ? ? Hin Hout. split_and!; try done. intros p. case_decide as Hd.
  - exists (fs_entries fs' !! p). destruct (fs_entries fs' !! p) as [i|] eqn:Hp.
    + apply Hin in Hp as [_ Hp]. split; [done|]. by exists i.
    + split; [by apply Hout | done].
  - destruct (fs_entries fs' !! p) as [i|] eqn:Hp; [|done]. by apply Hin in Hp as [? _].
Qed.

(** A crash that finds everything synced changes nothing. *)
Lemma crash_synced fs : fs_dirs_durable fs = fs_dirs fs -> fs_entries_durable fs = fs_entries fs ->
  fs_between fs = [] -> map_Forall (fun p _ => p.1 ∈ fs_dirs fs) (fs_entries fs) -> crash fs fs.
Proof.
  intros Hd He Hb Hdirs. apply crash_to; try done; [by rewrite Hd | |].
  - intros p i Hp. split; [exact (Hdirs p i Hp)|]. rewrite <- Hp. apply possible_now.
  - intros p Hp. rewrite <- Hp. apply possible_now.
Qed.

Lemma store_invariant_witness :
  entry_ok demo_ok.1.2 (chunkPath "abc") (mk_inode (to_bytes "data") true 7) /\
  exists o, o ∈ [mk_offer "abc" demo_reader None] /\
    whole_of (chunkPath "abc") (mk_inode (to_bytes "data") true 7) o.
Proof.
  assert (H : entry_ok (WriteChunk no_faults "t" 7 empty_fs "abc" demo_reader).1.2 (chunkPath "abc")
      (mk_inode (to_bytes "data") true 7) /\
    exists o, o ∈ [mk_offer "abc" demo_reader None] /\
      whole_of (chunkPath "abc") (mk_inode (to_bytes "data") true 7) o).
  { apply store_invariant; [|vm_compute; reflexivity]. eapply rtc_once.
    apply (step_write no_faults "t" 7 empty_fs "abc" demo_reader
      (WriteChunk no_faults "t" 7 empty_fs "abc" demo_reader).1.1
      (WriteChunk no_faults "t" 7 empty_fs "abc" demo_reader).1.2
      (WriteChunk no_faults "t" 7 empty_fs "abc" demo_reader).2); [reflexivity | left]. }
  destruct H as [[_ Hn] Ho]. split; [split; [vm_compute; reflexivity | exact Hn] | exact Ho].
Defined.

(** A chunk is rewritten and the machine crashes after the rename, before the directory
    is synced: the old chunk comes back. *)
Definition demo_new : reader := mk_reader (to_bytes "DATA!") None.
Definition demo_rewrite :=
  WriteChunkVerified no_faults "u" 9 demo_ok.1.2 "abc" demo_new (crc32c (to_bytes "DATA!")) 5.
Definition demo_renamed : FS := default empty_fs (last (take 10 demo_rewrite.2)).

Lemma demo_ok_entries :
  fs_entries demo_ok.1.2 = ({[("ab", "abc") := mk_inode (to_bytes "data") true 7]} : gmap path inode).
Proof. vm_compute. reflexivity. Qed.

Lemma demo_ok_wf : store_wf demo_ok.1.2.
Proof.
  destruct demo_ok as [[out fs'] tr] eqn:Hw. unfold demo_ok in Hw.
  destruct (write_states _ _ _ _ _ _ _ _ _ fs' Hw ltac:(left)) as [Hu|(Hv & _ & Hi)].
  - exact (untouched_wf _ _ demo_fs_wf Hu).
  - exact (installed_wf "abc" (new_inode 7 demo_reader) _ _ Hv eq_refl demo_fs_wf Hi).
Qed.

Lemma demo_rewrite_crash : crash demo_renamed demo_ok.1.2.
Proof.
  apply crash_to; [vm_compute; done.. | |].
  - rewrite demo_ok_entries. apply map_Forall_singleton. split; [vm_compute; reflexivity|].
    right; left. vm_compute. reflexivity.
  - intros p Hp. right; left. rewrite <- Hp. vm_compute. reflexivity.
Qed.

Lemma WriteChunkVerified_crash_atomic_witness :
  fs_entries demo_renamed !! chunkPath "abc" = Some (mk_inode (to_bytes "DATA!") true 9) /\
  (fs_entries demo_ok.1.2 !! chunkPath "abc" = Some (mk_inode (to_bytes "data") true 7) \/
   (chunkPath "abc" = chunkPath "abc" /\ exists j, fs_entries demo_ok.1.2 !! chunkPath "abc" = Some j /\
      declared_body demo_new (crc32c (to_bytes "DATA!")) 5 j)).
Proof.
  split; [vm_compute; reflexivity|].
  apply (proj1 (proj2 (WriteChunkVerified_crash_atomic no_faults "u" 9 demo_ok.1.2 "abc" demo_new
    (crc32c (to_bytes "DATA!")) 5 demo_rewrite.1.1 demo_rewrite.1.2 demo_rewrite.2 demo_renamed demo_ok.1.2
    demo_ok_wf eq_refl ltac:(vm_compute; do 10 right; left) demo_rewrite_crash))).
  - vm_compute. reflexivity.
  - intros o [Ho|[Ho|Ho]]; [rewrite Ho; vm_compute; reflexivity.. |]. by apply elem_of_nil in Ho.
Defined.

Lemma ReadChunk_verified_witness :
  exists i, fs_entries demo_ok.1.2 !! chunkPath "abc" = Some i /\ to_bytes "data" `prefix_of` in_data i /\
     (Some [ErrChecksumMismatch] = @None error -> to_bytes "data" = in_data i /\ crc32c (in_data i) = 0) /\
     (f_read no_faults = None -> to_bytes "data" = in_data i /\
       Some [ErrChecksumMismatch] = if crc32c (in_data i) =? 0 then None else Some [ErrChecksumMismatch]).
Proof.
  assert (H : forall d : bytes, concat [d] = d) by (intros; apply app_nil_r).
  pose proof (ReadChunk_verified no_faults (fun d => [d]) demo_ok.1.2 "abc" 0 H) as K.
  replace (ReadChunk no_faults (fun d => [d]) demo_ok.1.2 "abc" 0)
    with (Ok (mk_reader (to_bytes "data") (Some [ErrChecksumMismatch]))) in K
    by (vm_compute; reflexivity). exact K.
Defined.

Lemma demo_ok_crash : crash demo_ok.1.2 demo_ok.1.2.
Proof.
  apply crash_synced; [vm_compute; reflexivity..|].
  rewrite demo_ok_entries. apply map_Forall_singleton. vm_compute. reflexivity.
Qed.

Lemma WriteChunk_durable_witness :
  ReadChunk no_faults (fun d => [d]) demo_ok.1.2 "abc" (crc32c (to_bytes "data"))
  = Ok (mk_reader (to_bytes "data") None) /\ 4 = zlen (to_bytes "data").
Proof.
  apply (WriteChunk_durable no_faults no_faults (fun d => [d]) "t" 7 demo_fs "abc" demo_reader
    (crc32c (to_bytes "data")) 4 demo_ok.1.2 demo_ok.2).
  - intros d. apply app_nil_r.
  - reflexivity.
  - reflexivity.
  - vm_compute. reflexivity.
  - vm_compute. reflexivity.
  - exact demo_ok_crash.
Defined.

Lemma WriteChunk_new_directory_can_vanish_witness : exists fs' tr s,
  WriteChunk no_faults "t" 0 empty_fs "abc" (mk_reader (to_bytes "x") None)
  = (Ok (crc32c (to_bytes "x"), 1), fs', tr) /\ crash fs' s /\ fs_entries s !! chunkPath "abc" = None.
Proof. apply (WriteChunk_new_directory_can_vanish "abc" (to_bytes "x")). reflexivity. Defined.

Definition sync_fault : faults :=
  mk_faults false None false false false false true false false None false false.

Lemma WriteChunk_error_visibility_witness :
  fs_entries (WriteChunk sync_fault "t" 7 demo_fs "abc" demo_reader).1.2 !! chunkPath "abc"
  = Some (new_inode 7 demo_reader).
Proof.
  apply (proj2 (WriteChunk_error_visibility sync_fault "t" 7 demo_fs "abc" demo_reader errors_New
    (WriteChunk sync_fault "t" 7 demo_fs "abc" demo_reader).1.2
    (WriteChunk sync_fault "t" 7 demo_fs "abc" demo_reader).2 ltac:(vm_compute; reflexivity)));
    reflexivity.
Defined.

Lemma ScanChunks_complete_witness : exists infos,
  ScanChunks fst (fun _ => None) collect_info "a" (demo_fs, []) = (None, (demo_fs, infos)) /\
  NoDup (map ci_ID infos) /\
  forall info, info ∈ infos <-> exists i,
    fs_entries demo_fs !! chunkPath (ci_ID info) = Some i /\ HasPrefix (ci_ID info) "a" = true /\
    info = mk_ChunkInfo (ci_ID info) (zlen (in_data i)) (in_mtime i).
Proof. exact (ScanChunks_complete demo_fs "a" demo_fs_wf). Defined.

Lemma Store_refines_map_witness :
  held (RemoveChunk no_faults demo_ok.1.2 "abc").2 "abc" = None.
Proof.
  rewrite (proj1 (proj2 (proj2 (Store_refines_map no_faults "t" 7 demo_ok.1.2 "abc" demo_reader)))
    (RemoveChunk no_faults demo_ok.1.2 "abc").2 ltac:(vm_compute; reflexivity) "abc").
  reflexivity.
Defined.
