(* ===== verification/Etcd.v ===== *)
(** * etcd, as the metadata store relies on it

    etcd and its Go client are not part of the repository, so they are a parameter:
    [Etcd] has the calls the code makes and [EtcdLaws] what etcd documents about them,
    which is that each is one atomic step on a map from keys to revisioned values, and
    that a write that reports an error may or may not have happened. A pure instance
    at the end keeps the laws. *)

From S2P Require Import Prelude GoStr.

(** ** What is stored *)

Record kv (V : Type) := mk_kv { kv_value : V; kv_create : Z; kv_mod : Z }.
Arguments mk_kv {_} _ _ _.
Arguments kv_value {_} _.
Arguments kv_create {_} _.
Arguments kv_mod {_} _.

#[global] Instance kv_eq_dec `{!EqDecision V} : EqDecision (kv V).
Proof. solve_decision. Defined.

Record estate (V : Type) := mk_estate { es_kvs : gmap string (kv V); es_rev : Z }.
Arguments mk_estate {_} _ _.
Arguments es_kvs {_} _.
Arguments es_rev {_} _.

(** The comparisons of the transactions the code runs. *)
Inductive cmp :=
  | CmpModEq (k : string) (rev : Z)
  | CmpCreated (k : string).

Inductive eop (V : Type) :=
  | OpPut (k : string) (v : V)
  | OpDelete (k : string)
  | OpDeleteRange (a b : string)
  | OpTxn (ifs : list cmp) (k : string) (v : V).
Arguments OpPut {_} _ _.
Arguments OpDelete {_} _.
Arguments OpDeleteRange {_} _ _.
Arguments OpTxn {_} _ _ _.

Section semantics.
Context {V : Type}.

Definition holds (st : estate V) (c : cmp) : bool :=
  match c with
  | CmpModEq k rev => match es_kvs st !! k with Some x => kv_mod x =? rev | None => 0 =? rev end
  | CmpCreated k => bool_decide (is_Some (es_kvs st !! k))
  end.

Definition put (st : estate V) (k : string) (v : V) : estate V :=
  let rev := es_rev st + 1 in
  let create := match es_kvs st !! k with Some x => kv_create x | None => rev end in
  mk_estate (<[k := mk_kv v create rev]> (es_kvs st)) rev.

(** Keys in [[a, b)] *)
Definition in_range (a b k : string) : bool := sle a k && slt k b.

Definition sorted_range (st : estate V) (a b : string) : list (string * kv V) :=
  sort_by fst (filter (fun p => in_range a b p.1 = true) (map_to_list (es_kvs st))).

(** A request that changes nothing does not make a new revision. *)
Definition apply (st : estate V) (o : eop V) : bool * estate V :=
  match o with
  | OpPut k v => (true, put st k v)
  | OpDelete k =>
      (true, match es_kvs st !! k with
             | Some _ => mk_estate (delete k (es_kvs st)) (es_rev st + 1)
             | None => st
             end)
  | OpDeleteRange a b =>
      (true, mk_estate (filter (fun p => in_range a b p.1 = false) (es_kvs st))
               (match sorted_range st a b with [] => es_rev st | _ :: _ => es_rev st + 1 end))
  | OpTxn ifs k v => if forallb (holds st) ifs then (true, put st k v) else (false, st)
  end.

(** A read of a range in key order, and whether the limit cut it short. *)
Definition range_spec (st : estate V) (a b : string) (limit : Z) : list (string * kv V) * bool :=
  let l := sorted_range st a b in
  if limit <=? 0 then (l, false) else (takeZ limit l, limit <? zlen l).

(** Revisions only grow, and a value carries the ones it was created and changed at. *)
Definition es_ok (st : estate V) : Prop :=
  0 <= es_rev st /\
  forall k x, es_kvs st !! k = Some x -> 1 <= kv_create x <= kv_mod x /\ kv_mod x <= es_rev st.
End semantics.

Class Etcd (V E : Type) := {
  e_state : E -> estate V;
  e_get : string -> E -> res (option (kv V)) * E;
  e_range : string -> string -> Z -> E -> res (list (string * kv V) * bool) * E;
  e_write : eop V -> E -> res bool * E;
  e_grant : Z -> E -> res Z * E;
  e_keepAlive : Z -> E -> res unit * E;
  e_prefixEnd : string -> string
}.

(** A byte that [GetPrefixRangeEnd] can increment. *)
Fixpoint has_small_byte (s : string) : bool :=
  match s with EmptyString => false | String c s' => (byteZ c <? 255) || has_small_byte s' end.

Class EtcdLaws V E `{!Etcd V E} := {
  e_ok : forall e, es_ok (e_state e);
  e_get_law : forall k e r e', e_get k e = (r, e') -> e_state e' = e_state e /\
    match r with Ok v => v = es_kvs (e_state e) !! k | Err err => err = [] end;
  e_range_law : forall a b limit e r e', e_range a b limit e = (r, e') -> e_state e' = e_state e /\
    match r with Ok l => l = range_spec (e_state e) a b limit | Err err => err = [] end;
  e_write_law : forall o e r e', e_write o e = (r, e') ->
    match r with
    | Ok b => (b, e_state e') = apply (e_state e) o
    | Err err => err = [] /\ (e_state e' = e_state e \/ e_state e' = (apply (e_state e) o).2)
    end;
  e_grant_law : forall ttl e r e', e_grant ttl e = (r, e') -> e_state e' = e_state e /\
    match r with Ok _ => True | Err err => err = [] end;
  e_keepAlive_law : forall l e r e', e_keepAlive l e = (r, e') -> e_state e' = e_state e /\
    match r with Ok _ => True | Err err => err = [] end;
  e_prefixEnd_law : forall p k, has_small_byte p = true ->
    HasPrefix k p = true <-> in_range p (e_prefixEnd p) k = true
}.

(** ** Facts about the semantics *)

Section facts.
Context {V : Type}.
Implicit Types st : estate V.

Lemma put_ok st k v : es_ok st -> es_ok (put st k v).
Proof.
  intros [H0 H]. split; simpl; [lia|]. intros j x [[<- <-]|[_ Hx]]%lookup_insert_Some; simpl.
  - destruct (es_kvs st !! k) as [y|] eqn:E; [apply H in E|]; lia.
  - apply H in Hx. lia.
Qed.

Lemma apply_ok st o : es_ok st -> es_ok (apply st o).2.
Proof.
  intros Hst. destruct o as [k v|k|a b|ifs k v]; simpl.
  - by apply put_ok.
  - destruct (es_kvs st !! k) as [x0|]; [|done]. destruct Hst as [H0 H]. split; simpl; [lia|].
    intros j x [_ Hx]%lookup_delete_Some. apply H in Hx. lia.
  - destruct Hst as [H0 H]. split; simpl; [by case_match; lia|]. intros j x [Hx _]%map_lookup_filter_Some.
    apply H in Hx. case_match; lia.
  - destruct (forallb _ _); [by apply put_ok | done].
Qed.

(** Revisions never go back, and a key's own revision tells whether it was written. *)
Lemma apply_rev st o : es_rev st <= es_rev (apply st o).2.
Proof.
  destruct o; simpl; try lia.
  - destruct (es_kvs st !! k); simpl; lia.
  - case_match; lia.
  - destruct (forallb _ _); simpl; lia.
Qed.

Lemma apply_mod st o k x : es_ok st -> es_kvs (apply st o).2 !! k = Some x ->
  es_kvs st !! k = Some x \/ es_rev st < kv_mod x.
Proof.
  intros [H0 H]. assert (Hput : forall j v, es_kvs (put st j v) !! k = Some x ->
    es_kvs st !! k = Some x \/ es_rev st < kv_mod x).
  { intros j v. unfold put. simpl. intros [[<- <-]|[_ Hx]]%lookup_insert_Some; [right; simpl; lia | by left]. }
  destruct o as [j v|j|a b|ifs j v]; simpl.
  - apply Hput.
  - destruct (es_kvs st !! j); [|by left]. simpl. intros [_ Hx]%lookup_delete_Some. by left.
  - intros [Hx _]%map_lookup_filter_Some. by left.
  - destruct (forallb _ _); [apply Hput | by left].
Qed.

Lemma elem_of_sorted_range st a b p : p ∈ sorted_range st a b <->
  in_range a b p.1 = true /\ es_kvs st !! p.1 = Some p.2.
Proof.
  unfold sorted_range. rewrite elem_of_sort_by, list_elem_of_filter. destruct p as [k x]. simpl.
  by rewrite elem_of_map_to_list.
Qed.

Lemma sorted_range_keys_NoDup st a b : NoDup (map fst (sorted_range st a b)).
Proof.
  unfold sorted_range. rewrite sort_by_perm.
  pose proof (NoDup_fst_map_to_list (es_kvs st)) as H.
  induction (map_to_list (es_kvs st)) as [|p l IH]; [constructor|].
  simpl in H. apply NoDup_cons in H as [Hp H]. rewrite filter_cons. case_decide; [|auto].
  simpl. constructor; [|auto]. intros (q & Hq & Hin)%list_elem_of_fmap.
  apply list_elem_of_filter in Hin as [_ Hin]. apply Hp. rewrite Hq. by apply list_elem_of_fmap_2.
Qed.

(** Strict order: the keys are sorted and distinct. *)
Lemma sorted_range_strict st a b : StronglySorted (fun p q => p.1 <s q.1) (sorted_range st a b).
Proof.
  pose proof (sort_by_sorted fst (filter (fun p => in_range a b p.1 = true) (map_to_list (es_kvs st)))) as Hs.
  fold (sorted_range st a b) in Hs. pose proof (sorted_range_keys_NoDup st a b) as Hnd.
  induction Hs as [|p l Hs IH HF]; [constructor|]. simpl in Hnd. apply NoDup_cons in Hnd as [Hp Hnd].
  constructor; [auto|]. rewrite Forall_forall in *. intros q Hq.
  destruct (proj1 (sle_spec _ _) (HF q Hq)) as [?|Heq]; [done|].
  exfalso. apply Hp. rewrite Heq. by apply list_elem_of_fmap_2.
Qed.

Lemma StronglySorted_filter {A} (R : A -> A -> Prop) (P : A -> Prop) `{!forall x, Decision (P x)} l :
  StronglySorted R l -> StronglySorted R (filter P l).
Proof.
  induction 1 as [|x l Hl IH HF]; [constructor|]. rewrite filter_cons. case_decide; [|done].
  constructor; [done|]. by apply Forall_filter_keep.
Qed.

Lemma StronglySorted_take {A} (R : A -> A -> Prop) n (l : list A) :
  StronglySorted R l -> StronglySorted R (takeZ n l).
Proof.
  unfold takeZ. generalize (Z.to_nat n). intros k H. revert k.
  induction H as [|x l Hl IH HF]; intros [|k]; simpl; try constructor; auto.
  rewrite Forall_forall in *. intros y Hy. apply HF. by eapply elem_of_take_1.
Qed.

(** Narrowing a range is filtering it. *)
Lemma sorted_range_sub st a b A B (Q : string -> bool) :
  (forall k, in_range A B k = true -> in_range a b k = Q k) ->
  (forall k, in_range a b k = true -> in_range A B k = true) ->
  sorted_range st a b = filter (fun p => Q p.1 = true) (sorted_range st A B).
Proof.
  intros HQ Hsub. apply (sorted_by_unique fst).
  - intros [k x] [j y]. rewrite !elem_of_sorted_range. simpl. intros [_ Hx] [_ Hy] ->.
    by simplify_eq.
  - apply sort_by_sorted.
  - apply StronglySorted_filter. apply sort_by_sorted.
  - apply NoDup_Permutation.
    + eapply (NoDup_fmap_1 fst), sorted_range_keys_NoDup.
    + apply NoDup_filter. eapply (NoDup_fmap_1 fst), sorted_range_keys_NoDup.
    + intros p. rewrite list_elem_of_filter, !elem_of_sorted_range. split.
      * intros [Hr Hx]. rewrite <- HQ by auto. auto.
      * intros [HQk [Hr Hx]]. rewrite HQ by done. done.
Qed.

(** Any number of atomic steps, whoever takes them. *)
Definition reaches : estate V -> estate V -> Prop := rtc (fun a b => exists o, b = (apply a o).2).

(** A key that still has the revision it was read at has not been written since. *)
Lemma reaches_unchanged st st' k x : es_ok st -> es_kvs st !! k = Some x -> reaches st st' ->
  es_ok st' /\ forall y, es_kvs st' !! k = Some y -> kv_mod y = kv_mod x -> y = x.
Proof.
  intros Hok Hx Hr.
  assert (Hinv : es_ok st' /\ kv_mod x <= es_rev st' /\
    forall y, es_kvs st' !! k = Some y -> y = x \/ kv_mod x < kv_mod y).
  { assert (H0 : es_ok st /\ kv_mod x <= es_rev st /\
      forall y, es_kvs st !! k = Some y -> y = x \/ kv_mod x < kv_mod y).
    { split; [done|]. split; [by destruct (proj2 Hok _ _ Hx)|]. intros y Hy. left. congruence. }
    clear Hok Hx. induction Hr as [|a b c [o ->] _ IH]; [done|]. apply IH.
    destruct H0 as (Hok & Hrev & Hy). split; [by apply apply_ok|].
    split; [pose proof (apply_rev a o); lia|]. intros y Hk.
    apply apply_mod in Hk as [Hk|Hk]; [auto | lia | done]. }
  destruct Hinv as (Hok' & _ & Hy). split; [done|]. intros y Hk Hm.
  destruct (Hy y Hk); [done | lia].
Qed.
End facts.

(** ** An instance: one process's etcd that fails when told to *)

Fixpoint prefix_end (s : string) : option string :=
  match s with
  | EmptyString => None
  | String c s' =>
      match prefix_end s' with
      | Some t => Some (String c t)
      | None => if byteZ c <? 255 then Some (String (byte_of (byteZ c + 1)) "") else None
      end
  end.

Lemma prefix_end_small p : has_small_byte p = true <-> is_Some (prefix_end p).
Proof.
  induction p as [|c p IH]; simpl; [split; [done | by intros []]|].
  destruct (prefix_end p) as [t|].
  - split; [eauto|]. intros _. rewrite orb_true_iff. right. apply IH. eauto.
  - destruct (byteZ c <? 255); simpl; [split; eauto|].
    split; [intros H; apply IH in H as []; done | by intros []].
Qed.

Lemma prefix_end_spec p k :
  match prefix_end p with
  | Some e => HasPrefix k p = in_range p e k
  | None => HasPrefix k p = sle p k
  end.
Proof.
  revert k. induction p as [|c p IH]; intros k; cbn [prefix_end].
  { simpl. by destruct k. }
  assert (Hstep : forall d k', sle (String c p) (String d k') =
    if byteZ c =? byteZ d then sle p k' else byteZ c <? byteZ d).
  { intros d k'. unfold sle. simpl.
    destruct (Z.ltb_spec (byteZ d) (byteZ c)), (Z.eqb_spec (byteZ c) (byteZ d)), (Z.ltb_spec (byteZ c) (byteZ d)),
      (Z.eqb_spec (byteZ d) (byteZ c)); try lia; done. }
  assert (Hhp : forall d k', HasPrefix (String d k') (String c p) = (byteZ c =? byteZ d) && HasPrefix k' p).
  { intros d k'. simpl. f_equal. destruct (Z.eqb_spec (byteZ c) (byteZ d)) as [E|E].
    - apply byteZ_inj in E as ->. apply Ascii.eqb_refl.
    - apply Ascii.eqb_neq. congruence. }
  destruct (prefix_end p) as [t|]; [|destruct (Z.ltb_spec (byteZ c) 255)].
  - destruct k as [|d k']; [done|]. unfold in_range. rewrite Hhp, Hstep. specialize (IH k'). rewrite IH.
    unfold in_range. simpl. destruct (Z.eqb_spec (byteZ c) (byteZ d)) as [E|]; simpl.
    + by rewrite E, Z.ltb_irrefl, Z.eqb_refl.
    + destruct (Z.ltb_spec (byteZ c) (byteZ d)); simpl; [|done]. zbool.
  - destruct k as [|d k']; [done|]. unfold in_range. rewrite Hhp, Hstep, (IH k'). simpl.
    pose proof (byteZ_range c). rewrite byteZ_of by lia.
    destruct (Z.eqb_spec (byteZ c) (byteZ d)) as [E|]; simpl.
    + rewrite (proj2 (Z.ltb_lt _ _)) by lia. by rewrite andb_true_r.
    + destruct (Z.ltb_spec (byteZ c) (byteZ d)); simpl; [|done].
      rewrite (proj2 (Z.ltb_ge _ _)) by lia. by destruct (byteZ d =? byteZ c + 1), k'.
  - destruct k as [|d k']; [done|]. rewrite Hhp, Hstep, (IH k').
    pose proof (byteZ_range c). pose proof (byteZ_range d).
    destruct (Z.eqb_spec (byteZ c) (byteZ d)); simpl; [done|].
    symmetry. apply Z.ltb_ge. lia.
Qed.

(** A call is answered, fails without taking effect, or takes effect and loses its answer. *)
Inductive outcome := Answers | Refuses | LosesAnswer.

Section pure_etcd.
Context {V : Type}.

(** A state and a script: for each call, whether it fails. *)
Record pure_etcd := mk_pure { pe_state : estate V; pe_ok : es_ok pe_state; pe_script : list outcome }.

Definition pe_outcome (e : pure_etcd) : outcome := match pe_script e with o :: _ => o | [] => Answers end.
Definition pe_fails (e : pure_etcd) : bool := match pe_outcome e with Answers => false | _ => true end.
Definition pe_next (e : pure_etcd) : pure_etcd := mk_pure (pe_state e) (pe_ok e) (tail (pe_script e)).

#[global] Instance pure_Etcd : Etcd V pure_etcd := {|
  e_state := pe_state;
  e_get k e := (if pe_fails e then Err [] else Ok (es_kvs (pe_state e) !! k), pe_next e);
  e_range a b n e := (if pe_fails e then Err [] else Ok (range_spec (pe_state e) a b n), pe_next e);
  e_write o e :=
    let e' := mk_pure (apply (pe_state e) o).2 (apply_ok _ o (pe_ok e)) (tail (pe_script e)) in
    match pe_outcome e with
    | Answers => (Ok (apply (pe_state e) o).1, e')
    | Refuses => (Err [], pe_next e)
    | LosesAnswer => (Err [], e')
    end;
  e_grant ttl e := (if pe_fails e then Err [] else Ok 1, pe_next e);
  e_keepAlive l e := (if pe_fails e then Err [] else Ok tt, pe_next e);
  e_prefixEnd p := default (String (byte_of 0) "") (prefix_end p)
|}.

#[global] Instance pure_EtcdLaws : EtcdLaws V pure_etcd.
Proof.
  constructor; simpl.
  - apply pe_ok.
  - intros k e r e' [= <- <-]. split; [done|]. by destruct (pe_fails e).
  - intros a b n e r e' [= <- <-]. split; [done|]. by destruct (pe_fails e).
  - intros o e r e'. destruct (pe_outcome e); intros [= <- <-].
    + simpl. by destruct (apply (pe_state e) o).
    + split; [done | by left].
    + split; [done | by right].
  - intros ttl e r e' [= <- <-]. split; [done|]. by destruct (pe_fails e).
  - intros l e r e' [= <- <-]. split; [done|]. by destruct (pe_fails e).
  - intros p k Hp. apply prefix_end_small in Hp as [t Ht].
    pose proof (prefix_end_spec p k) as H. rewrite Ht in *. simpl. by rewrite H.
Qed.

Lemma empty_ok : es_ok (@mk_estate V ∅ 0).
Proof. split; simpl; [lia|]. intros k x Hx. by rewrite lookup_empty in Hx. Qed.

Definition empty_etcd : pure_etcd := mk_pure (mk_estate ∅ 0) empty_ok [].
End pure_etcd.
Arguments pure_etcd : clear implicits.
