(* ===== verification/Meta.v ===== *)
(** * The metadata store: [internal/meta]

    Object manifests, uploads in progress, writes in flight, members and cursors, all
    as keys of one etcd ([Etcd]). A stored value is the typed document the code
    marshals, with the strings a client chose as [encoding/json] writes them;
    unmarshalling one as another type keeps the fields both have. Times are
    nanoseconds. *)

From S2P Require Import Prelude GoStr Strconv Path Ec Object Etcd.

(** ** Documents *)

Record Upload := mk_Upload {
  u_Key : string;
  u_ContentType : string;
  u_Created : Z;
  u_Meta : gmap string string
}.

Record Completion := mk_Completion { cm_Key : string; cm_ETag : string; cm_When : Z; cm_Parts : Z }.

Inductive doc :=
  | DManifest (m : Manifest)
  | DUpload (u : Upload)
  | DCompletion (c : Completion)
  | DText (s : string).

#[global] Instance Upload_eq_dec : EqDecision Upload.
Proof. solve_decision. Defined.
#[global] Instance Completion_eq_dec : EqDecision Completion.
Proof. solve_decision. Defined.
#[global] Instance doc_eq_dec : EqDecision doc.
Proof. solve_decision. Defined.

(** *** What [json.Marshal] does to a string

    A byte that does not belong to a UTF-8 encoded character is written as U+FFFD. *)
Definition within_byte (lo hi : Z) (c : ascii) : bool := (lo <=? byteZ c) && (byteZ c <=? hi).
Definition cont : ascii -> bool := within_byte 128 191.

(** The length of the character a string starts with, 0 when it starts with none
    ([utf8.DecodeRune]: no overlong forms, no surrogates, nothing above U+10FFFF). *)
Definition rune_len (s : string) : nat :=
  match s with
  | String a s' =>
      let x := byteZ a in
      if x <? 128 then 1%nat
      else match s' with
      | String b s'' =>
          if within_byte 194 223 a then if cont b then 2%nat else O
          else match s'' with
          | String c s3 =>
              if within_byte 224 239 a
              then if within_byte (if x =? 224 then 160 else 128) (if x =? 237 then 159 else 191) b && cont c
                   then 3%nat else O
              else match s3 with
              | String d _ =>
                  if within_byte 240 244 a &&
                     within_byte (if x =? 240 then 144 else 128) (if x =? 244 then 143 else 191) b && cont c && cont d
                  then 4%nat else O
              | EmptyString => O
              end
          | EmptyString => O
          end
      | EmptyString => O
      end
  | EmptyString => O
  end.

Definition rune_error : string := of_bytes (map byte_of [239; 191; 189]).

(** [skip] bytes still belong to the character before. *)
Fixpoint json_from (skip : nat) (s : string) : string :=
  match s with
  | EmptyString => EmptyString
  | String c s' =>
      match skip, rune_len s with
      | S k, _ => String c (json_from k s')
      | O, S k => String c (json_from k s')
      | O, O => rune_error +:+ json_from O s'
      end
  end.
Definition json_str : string -> string := json_from 0.

(** Plain ASCII goes through as it is. *)
Fixpoint ascii_only (s : string) : bool :=
  match s with EmptyString => true | String c s' => (byteZ c <? 128) && ascii_only s' end.

Lemma json_str_ascii s : ascii_only s = true -> json_str s = s.
Proof.
  unfold json_str. induction s as [|c s IH]; [done|]. simpl. intros [Hc Hs]%andb_true_iff.
  rewrite Hc. simpl. by rewrite IH.
Qed.

Example json_str_invalid :
  json_str (of_bytes (map byte_of [97; 195; 169; 195; 237; 160; 128; 98]))
  = of_bytes (map byte_of [97; 195; 169; 239; 191; 189; 239; 191; 189; 239; 191; 189; 239; 191; 189; 98]).
Proof. vm_compute. reflexivity. Qed.

(** The metadata's own keys are header names, which are ASCII; chunk names, checksums and
    ETags are ASCII the program made, and node names are the operator's. *)
Definition json_manifest (m : Manifest) : Manifest :=
  mk_Manifest (m_Size m) (m_ETag m) (json_str (m_ContentType m)) (m_Modified m) (json_str <$> m_Meta m)
    (m_Nodes m) (m_Chunks m) (m_Coding m) (m_CRC32C m) (m_CRC32 m) (m_CRC64NVME m) (m_Parts m).

Definition json_upload (u : Upload) : Upload :=
  mk_Upload (json_str (u_Key u)) (json_str (u_ContentType u)) (u_Created u) (json_str <$> u_Meta u).

Definition json_completion (c : Completion) : Completion :=
  mk_Completion (json_str (cm_Key c)) (cm_ETag c) (cm_When c) (cm_Parts c).

Record Entry := mk_Entry { en_Key : string; en_Size : Z; en_ETag : string; en_Modified : Z }.

(** [json.Unmarshal] into a [Manifest], an [Upload], a [Completion] and the three fields
    of a listing. *)
Definition as_manifest (d : doc) : res Manifest :=
  match d with
  | DManifest m => Ok m
  | DUpload u => Ok (mk_Manifest 0 "" (u_ContentType u) 0 (u_Meta u) [] [] zeroScheme None None None [])
  | DCompletion _ | DText _ => Err errors_New
  end.

Definition as_upload (d : doc) : res Upload :=
  match d with
  | DManifest m => Ok (mk_Upload "" (m_ContentType m) 0 (m_Meta m))
  | DUpload u => Ok u
  | DCompletion c => Ok (mk_Upload (cm_Key c) "" 0 ∅)
  | DText _ => Err errors_New
  end.

Definition as_completion (d : doc) : res Completion :=
  match d with
  | DCompletion c => Ok c
  | DUpload u => Ok (mk_Completion (u_Key u) "" 0 0)
  | DManifest m => if decide (m_Parts m = []) then Ok (mk_Completion "" (m_ETag m) 0 0) else Err errors_New
  | DText _ => Err errors_New
  end.

Definition as_entry (key : string) (d : doc) : res Entry :=
  match d with
  | DManifest m => Ok (mk_Entry key (m_Size m) (m_ETag m) (m_Modified m))
  | DUpload _ => Ok (mk_Entry key 0 "" 0)
  | DCompletion c => Ok (mk_Entry key 0 (cm_ETag c) 0)
  | DText _ => Err errors_New
  end.

Definition doc_text (d : doc) : string := match d with DText s => s | _ => "" end.

Record MetaObject := mk_Object { o_Key : string; o_Manifest : Manifest; o_Revision : Z }.
Record PartRef := mk_PartRef { pr_Key : string; pr_Manifest : Manifest }.
Record UploadRef := mk_UploadRef { ur_ID : string; ur_Upload : Upload }.

(** ** Keys *)

(** [After] and [PastPrefix]. [string(b)] for a byte [b] is the UTF-8 encoding of the
    code point [b]. *)
Definition After (key : string) : string := key +:+ String Ascii.zero "".

Definition utf8_of_byte (r : Z) : string :=
  if r <? 128 then String (byte_of r) ""
  else String (byte_of (Z.lor 192 (Z.shiftr r 6))) (String (byte_of (Z.lor 128 (Z.land r 63))) "").

(** The loop from the last byte down, as a recursion that takes the last byte first. *)
Fixpoint past_prefix (prefix : string) : option string :=
  match prefix with
  | EmptyString => None
  | String c p =>
      match past_prefix p with
      | Some t => Some (String c t)
      | None => if byteZ c <? 255 then Some (utf8_of_byte (byteZ c + 1)) else None
      end
  end.

Definition PastPrefix (prefix : string) : string := default "" (past_prefix prefix).

Definition scanBudget : Z := 1024.
Definition CompletionMemory : Z := 3600 * 10 ^ 9.
Definition DefaultLeaseTTL : Z := 5 * 10 ^ 9.

Section meta.
Context {E : Type} `{!Etcd doc E} (prefix : string).

Definition objects : string := path_Join [prefix; "objects"] +:+ "/".
Definition key (objectKey : string) : string := objects +:+ objectKey.
Definition cursorKey (task node : string) : string := path_Join [prefix; "cursors"; task; node].
Definition uploadsRoot : string := path_Join [prefix; "uploads"] +:+ "/".
Definition uploadPrefix (id : string) : string := path_Join [prefix; "uploads"; id] +:+ "/".
Definition uploadKey (id : string) : string := uploadPrefix id +:+ "upload".
Definition partKey (id : string) (number : Z) : string :=
  uploadPrefix id +:+ "parts/" +:+ pad_dec 5 number.
Definition completionKey (id : string) : string := path_Join [prefix; "completed"; id].
Definition writingPrefix : string := path_Join [prefix; "writing"] +:+ "/".
Definition writingKey (id : string) : string := writingPrefix +:+ id.
Definition memberPrefix : string := path_Join [prefix; "members"] +:+ "/".
Definition memberKey (id : string) : string := memberPrefix +:+ id.

(** ** Manifests *)

Definition Commit (k : string) (m : Manifest) : E -> res unit * E :=
  let! _ := e_write (OpPut (key k) (DManifest (json_manifest m))) in st_ret tt.

Definition Get (k : string) : E -> res Manifest * E :=
  let! r := e_get (key k) in
  match r with
  | None => st_fail [MetaErrNotFound]
  | Some x => fun e => (as_manifest (kv_value x), e)
  end.

Definition Delete (k : string) : E -> res unit * E :=
  let! _ := e_write (OpDelete (key k)) in st_ret tt.

Definition CommitIfUnchanged (k : string) (m : Manifest) (revision : Z) : E -> res unit * E :=
  let! ok := e_write (OpTxn [CmpModEq (key k) revision] (key k) (DManifest (json_manifest m))) in
  if (ok : bool) then st_ret tt else st_fail [ErrChanged].

(** [scan]: nothing at all when the range starts past everything the prefix covers. *)
Definition scan (pre from : string) (limit : Z) : E -> res (list (string * kv doc)) * E :=
  let start := if slt pre from then key from else key pre in
  let endk := e_prefixEnd (key pre) in
  if sle endk start then st_ret []
  else let! r := e_range start endk limit in st_ret r.1.

Definition ScanObjects (pre from : string) (limit : Z) : E -> res (list MetaObject) * E :=
  let! kvs := scan pre from limit in
  fun e => (res_map (fun p => m ← as_manifest (kv_value p.2);
                              Ok (mk_Object (TrimPrefix p.1 objects) m (kv_mod p.2))) kvs, e).

Definition ScanEntries (pre from : string) (limit : Z) : E -> res (list Entry) * E :=
  let! kvs := scan pre from limit in
  fun e => (res_map (fun p => as_entry (TrimPrefix p.1 objects) (kv_value p.2)) kvs, e).

Definition SaveCursor (task node k : string) : E -> res unit * E :=
  let! _ := e_write (OpPut (cursorKey task node) (DText k)) in st_ret tt.

Definition Cursor (task node : string) : E -> res string * E :=
  let! r := e_get (cursorKey task node) in
  st_ret (match r with None => "" | Some x => doc_text (kv_value x) end).

(** ** Writes in flight *)

Definition MarkWriting (id node : string) : E -> res unit * E :=
  if String.eqb id "" || Contains id "/" then st_fail errors_New
  else let! _ := e_write (OpPut (writingKey id) (DText node)) in st_ret tt.

Definition DoneWriting (id : string) : E -> res unit * E :=
  let! _ := e_write (OpDelete (writingKey id)) in st_ret tt.

Definition by_base (kvs : list (string * kv doc)) : gmap string string :=
  foldl (fun m p => <[path_Base p.1 := doc_text (kv_value p.2)]> m) ∅ kvs.

Definition Writing : E -> res (gmap string string) * E :=
  let! r := e_range writingPrefix (e_prefixEnd writingPrefix) 0 in st_ret (by_base r.1).

Definition whileWriting (id : string) (k : string) (v : doc) : E -> res unit * E :=
  let! ok := e_write (OpTxn [CmpCreated (writingKey id)] k v) in
  if (ok : bool) then st_ret tt else st_fail [ErrNotWriting].

Definition CommitWhileWriting (k : string) (m : Manifest) (id : string) : E -> res unit * E :=
  whileWriting id (key k) (DManifest (json_manifest m)).

(** ** Multipart uploads *)

Definition CreateUpload (id : string) (u : Upload) : E -> res unit * E :=
  let! _ := e_write (OpPut (uploadKey id) (DUpload (json_upload u))) in st_ret tt.

Definition GetUpload (id : string) : E -> res Upload * E :=
  let! r := e_get (uploadKey id) in
  match r with
  | None => st_fail [MetaErrNotFound]
  | Some x => fun e => (as_upload (kv_value x), e)
  end.

Definition CommitPart (id : string) (number : Z) (m : Manifest) : E -> res unit * E :=
  let! ok := e_write (OpTxn [CmpCreated (uploadKey id)] (partKey id number) (DManifest (json_manifest m))) in
  if (ok : bool) then st_ret tt else st_fail [MetaErrNotFound].

Definition CommitPartWhileWriting (id : string) (number : Z) (m : Manifest) (writeID : string)
    : E -> res unit * E :=
  let! ok := e_write (OpTxn [CmpCreated (writingKey writeID); CmpCreated (uploadKey id)]
                       (partKey id number) (DManifest (json_manifest m))) in
  if (ok : bool) then st_ret tt
  else let! _ := GetUpload id in st_fail [ErrNotWriting].

Definition Parts (id : string) : E -> res (gmap Z Manifest) * E :=
  let start := uploadPrefix id +:+ "parts/" in
  let! r := e_range start (e_prefixEnd start) 0 in
  fun e => (l ← res_map (fun p => match Atoi (path_Base p.1) with
                                  | None => Err errors_New
                                  | Some n => m ← as_manifest (kv_value p.2); Ok (n, m)
                                  end) r.1;
            Ok (foldl (fun acc nm => <[nm.1 := nm.2]> acc) ∅ l), e).

Definition ScanParts (from : string) (limit : Z) : E -> res (list PartRef) * E :=
  let start := if String.eqb from "" then uploadsRoot else After from in
  let endk := e_prefixEnd uploadsRoot in
  if sle endk start then st_ret []
  else
    let! r := e_range start endk limit in
    fun e => (res_map (fun p => if negb (Contains p.1 "/parts/") then Ok (mk_PartRef p.1 zeroManifest)
                                else m ← as_manifest (kv_value p.2); Ok (mk_PartRef p.1 m)) r.1, e).

(** The body of [Uploads] over one page of keys. *)
Fixpoint list_uploads (pre : string) (limit : Z) (kvs : list (string * kv doc)) (acc : list UploadRef)
    : res (list UploadRef * bool) :=
  match kvs with
  | [] => Ok (acc, false)
  | (k, x) :: kvs' =>
      if negb (HasSuffix k "/upload") then list_uploads pre limit kvs' acc
      else match as_upload (kv_value x) with
           | Err e => Err e
           | Ok u =>
               if negb (HasPrefix (u_Key u) pre) then list_uploads pre limit kvs' acc
               else if zlen acc =? limit then Ok (acc, true)
               else list_uploads pre limit kvs' (acc ++ [mk_UploadRef (path_Base (path_Dir k)) u])
           end
  end.

Definition Uploads (pre after : string) (limit : Z) : E -> res (list UploadRef * bool) * E :=
  let start := if String.eqb after "" then uploadsRoot else After (uploadPrefix after) in
  let endk := e_prefixEnd uploadsRoot in
  if sle endk start then st_ret ([], false)
  else
    let! r := e_range start endk scanBudget in
    fun e => (lr ← list_uploads pre limit r.1 [];
              Ok (lr.1, lr.2 || r.2 || (zlen r.1 =? scanBudget)), e).

Definition FinishUpload (id : string) (c : Completion) : E -> res unit * E :=
  let! _ := e_grant (CompletionMemory / 10 ^ 9) in
  let! _ := e_write (OpPut (completionKey id) (DCompletion (json_completion c))) in st_ret tt.

Definition GetCompletion (id : string) : E -> res Completion * E :=
  let! r := e_get (completionKey id) in
  match r with
  | None => st_fail [MetaErrNotFound]
  | Some x => fun e => (as_completion (kv_value x), e)
  end.

Definition DeleteUpload (id : string) : E -> res unit * E :=
  let! _ := e_write (OpDeleteRange (uploadPrefix id) (e_prefixEnd (uploadPrefix id))) in st_ret tt.

(** One page of [ExpireUploads]: the uploads forgotten, and where the next page starts. *)
Fixpoint expire_page (cutoff : Z) (kvs : list (string * kv doc)) (start : string) (n : Z)
    : E -> res (string * Z) * E :=
  match kvs with
  | [] => st_ret (start, n)
  | (k, x) :: kvs' =>
      if negb (HasSuffix k "/upload") then expire_page cutoff kvs' (After k) n
      else match as_upload (kv_value x) with
           | Err e => st_fail e
           | Ok u =>
               if cutoff <? u_Created u then expire_page cutoff kvs' (After k) n
               else let! _ := DeleteUpload (path_Base (path_Dir k)) in
                    expire_page cutoff kvs' (After k) (n + 1)
           end
  end.

(** [ExpireUploads]; every page starts past the last, so [fuel] pages are enough when
    there are fewer keys than that. *)
Fixpoint expire_loop (fuel : nat) (cutoff : Z) (start : string) (n : Z) (e : E) : option (res Z * E) :=
  match fuel with
  | O => None
  | S fuel' =>
      let endk := e_prefixEnd uploadsRoot in
      if sle endk start then Some (Ok n, e)
      else match e_range start endk 64 e with
           | (Err err, e') => Some (Err err, e')
           | (Ok ([], _), e') => Some (Ok n, e')
           | (Ok (kvs, _), e') =>
               match expire_page cutoff kvs start n e' with
               | (Err err, e'') => Some (Err err, e'')
               | (Ok (start', n'), e'') => expire_loop fuel' cutoff start' n' e''
               end
           end
  end.

Definition ExpireUploads (cutoff : Z) (e : E) : option (res Z * E) :=
  expire_loop (S (size (es_kvs (e_state e)))) cutoff uploadsRoot 0 e.

(** ** Members *)

Definition register (id addr : string) (ttl : Z) : E -> res unit * E :=
  let! lease := e_grant (ttl / 10 ^ 9) in
  let! _ := e_write (OpPut (memberKey id) (DText addr)) in
  e_keepAlive lease.

Definition Join (id addr : string) (ttl : Z) : E -> res unit * E :=
  if ttl <? 10 ^ 9 then st_fail errors_New
  else if String.eqb id "" || Contains id "/" then st_fail errors_New
  else register id addr ttl.

Definition Members : E -> res (gmap string string) * E :=
  let! r := e_range memberPrefix (e_prefixEnd memberPrefix) 0 in st_ret (by_base r.1).
End meta.

(** A name is mapped to the value of the one key that ends in it. *)
Lemma by_base_lookup kvs i x : (exists k, (k, x) ∈ kvs /\ path_Base k = i) ->
  (forall k y, (k, y) ∈ kvs -> path_Base k = i -> y = x) -> by_base kvs !! i = Some (doc_text (kv_value x)).
Proof.
  unfold by_base. rewrite <- (reverse_involutive kvs). generalize (reverse kvs). clear kvs. intros l.
  induction l as [|[k y] l IH].
  { intros (k & Hk & _). by apply elem_of_nil in Hk. }
  rewrite reverse_cons, foldl_app. intros Hex Huniq. simpl.
  destruct (decide (path_Base k = i)) as [Hb|Hb].
  - subst i. rewrite lookup_insert_eq. rewrite (Huniq k y); [done| |done]. apply elem_of_app. right. left.
  - rewrite lookup_insert_ne by done. apply IH.
    + destruct Hex as (k' & [Hin|Hin]%elem_of_app & Hb'); [eauto|].
      apply list_elem_of_singleton in Hin. simplify_eq.
    + intros k' y' Hin. apply Huniq. apply elem_of_app. by left.
Qed.

(** ** Keys do not collide

    [mkey] names everything the store keeps; [encode] is the etcd key it is kept at. *)

Inductive mkey :=
  | KObject (k : string)
  | KWriting (id : string)
  | KUpload (id : string)
  | KPart (id : string) (n : Z)
  | KCompletion (id : string)
  | KMember (id : string)
  | KCursor (task node : string).

Definition encode (prefix : string) (k : mkey) : string :=
  match k with
  | KObject k => key prefix k
  | KWriting id => writingKey prefix id
  | KUpload id => uploadKey prefix id
  | KPart id n => partKey prefix id n
  | KCompletion id => completionKey prefix id
  | KMember id => memberKey prefix id
  | KCursor t n => cursorKey prefix t n
  end.

(** Object keys may be anything; the other names are single path elements. *)
Definition mkey_ok (k : mkey) : Prop :=
  match k with
  | KObject _ => True
  | KWriting id | KUpload id | KCompletion id | KMember id => plain_elem id = true
  | KPart id n => plain_elem id = true /\ 0 <= n
  | KCursor t n => plain_elem t = true /\ plain_elem n = true
  end.

Definition mkey_tail (k : mkey) : string :=
  match k with
  | KObject k => "objects/" +:+ k
  | KWriting id => "writing/" +:+ id
  | KUpload id => "uploads/" +:+ id +:+ "/upload"
  | KPart id n => "uploads/" +:+ id +:+ "/parts/" +:+ pad_dec 5 n
  | KCompletion id => "completed/" +:+ id
  | KMember id => "members/" +:+ id
  | KCursor t n => "cursors/" +:+ t +:+ "/" +:+ n
  end.

Lemma join1 prefix x : plain_elem x = true -> path_Join [prefix; x] = keyroot prefix +:+ x.
Proof. intros. by rewrite path_Join_plain by (done || by repeat constructor). Qed.
Lemma join2 prefix x y : plain_elem x = true -> plain_elem y = true ->
  path_Join [prefix; x; y] = keyroot prefix +:+ x +:+ "/" +:+ y.
Proof. intros. by rewrite path_Join_plain by (done || by repeat constructor). Qed.
Lemma join3 prefix x y z : plain_elem x = true -> plain_elem y = true -> plain_elem z = true ->
  path_Join [prefix; x; y; z] = keyroot prefix +:+ x +:+ "/" +:+ y +:+ "/" +:+ z.
Proof. intros. by rewrite path_Join_plain by (done || by repeat constructor). Qed.

Lemma encode_tail prefix k : mkey_ok k -> encode prefix k = keyroot prefix +:+ mkey_tail k.
Proof.
  destruct k; simpl; intros H;
    unfold key, objects, writingKey, writingPrefix, partKey, uploadKey, uploadPrefix, completionKey,
      memberKey, memberPrefix, cursorKey;
    rewrite ?join1, ?join2, ?join3 by (done || tauto); by rewrite <- ?sapp_assoc.
Qed.

(** The first slash separates an element from what follows. *)
Lemma first_slash_inj a b x y : has_slash a = false -> has_slash b = false ->
  a +:+ String "/" x = b +:+ String "/" y -> a = b /\ x = y.
Proof.
  revert b. induction a as [|c a IH]; intros [|d b]; cbn [String.append has_slash]; intros Ha Hb H.
  - by simplify_eq.
  - injection H as <- _. simpl in Hb. done.
  - injection H as -> _. simpl in Ha. done.
  - apply orb_false_iff in Ha as [_ Ha]. apply orb_false_iff in Hb as [_ Hb]. injection H as -> H.
    destruct (IH b Ha Hb H) as [-> ->]. done.
Qed.

Lemma mkey_tail_inj j k : mkey_ok j -> mkey_ok k -> mkey_tail j = mkey_tail k -> j = k.
Proof.
  assert (Hs : forall s, plain_elem s = true -> has_slash s = false)
    by (intros s (_ & _ & _ & ?)%plain_elem_spec; done).
  destruct j, k; simpl; intros Hj Hk H; try discriminate; simplify_eq/=; try done.
  - apply first_slash_inj in H as [-> _]; auto.
  - apply first_slash_inj in H as [_ H]; [done | apply Hs; tauto..].
  - apply first_slash_inj in H as [_ H]; [done | apply Hs; tauto..].
  - apply first_slash_inj in H as [-> H]; [|apply Hs; tauto..]. simplify_eq/=.
    apply pad_dec_inj in H; [by subst | tauto..].
  - apply first_slash_inj in H as [-> ->]; [done | apply Hs; tauto..].
Qed.

Lemma encode_ne prefix j k : mkey_ok j -> mkey_ok k -> j <> k -> encode prefix j <> encode prefix k.
Proof. intros Hj Hk Hne H. rewrite !encode_tail in H by done. by apply sapp_inj_l, mkey_tail_inj in H. Qed.

(** The key space is unambiguous: objects (whose keys may contain anything, slashes
    and dots included), writes in flight, uploads, their parts, completions, members
    and cursors never share an etcd key, and neither do two of a kind, for any cluster
    prefix. *)
Theorem encode_unambiguous (prefix : string) (j k : mkey) :
  mkey_ok j -> mkey_ok k -> encode prefix j = encode prefix k <-> j = k.
Proof.
  intros Hj Hk. split; [|congruence]. rewrite !encode_tail by done. intros H%sapp_inj_l. by apply mkey_tail_inj.
Qed.

Lemma encode_unambiguous_witness :
  encode "/kavo" (KObject "../uploads/x/upload") = encode "/kavo" (KUpload "x") <->
  KObject "../uploads/x/upload" = KUpload "x".
Proof. apply (encode_unambiguous "/kavo" (KObject "../uploads/x/upload") (KUpload "x")); reflexivity. Defined.

(** ** Objects are a map, and nothing else touches it *)

Section objects_map.
Context {E : Type} `{!Etcd doc E} `{!EtcdLaws doc E} (prefix : string).

(** What a reader that reaches etcd is told about an object. *)
Definition lookup_obj (e : E) (k : string) : res Manifest :=
  match es_kvs (e_state e) !! key prefix k with
  | None => Err [MetaErrNotFound]
  | Some x => as_manifest (kv_value x)
  end.

Lemma lookup_obj_state e e' k : e_state e' = e_state e -> lookup_obj e' k = lookup_obj e k.
Proof. unfold lookup_obj. by intros ->. Qed.

Lemma key_inj j k : key prefix j = key prefix k -> j = k.
Proof. apply sapp_inj_l. Qed.

Lemma Get_spec k e r e' : Get prefix k e = (r, e') ->
  e_state e' = e_state e /\ (r = lookup_obj e k \/ r = Err []).
Proof.
  unfold Get, st_bind, lookup_obj. destruct (e_get _ e) as [[v|err] e1] eqn:Hg;
    apply e_get_law in Hg as [Hs Hv]; subst.
  - destruct (es_kvs (e_state e) !! key prefix k); intros [= <- <-]; auto.
  - intros [= <- <-]. auto.
Qed.

(** A write to a key that is no object's leaves the objects alone, whatever it reports. *)
Lemma write_keeps_objects o e r e' :
  (forall st j, es_kvs (apply st o).2 !! key prefix j = es_kvs st !! key prefix j) ->
  e_write o e = (r, e') -> forall j, lookup_obj e' j = lookup_obj e j.
Proof.
  intros Ho Hw j. apply e_write_law in Hw. unfold lookup_obj.
  assert (Hs : e_state e' = e_state e \/ e_state e' = (apply (e_state e) o).2).
  { destruct r as [b|err]; [|tauto]. right. by rewrite <- Hw. }
  destruct Hs as [->| ->]; [done|]. by rewrite Ho.
Qed.

Lemma put_other K v st j : key prefix j <> K ->
  es_kvs (put st K v : estate doc) !! key prefix j = es_kvs st !! key prefix j.
Proof. intros H. unfold put. simpl. by rewrite lookup_insert_ne. Qed.

Lemma put_object k v st j : es_kvs (put st (key prefix k) v : estate doc) !! key prefix j
  = if decide (j = k)
    then Some (mk_kv v (match es_kvs st !! key prefix k with Some x => kv_create x | None => es_rev st + 1 end)
                 (es_rev st + 1))
    else es_kvs st !! key prefix j.
Proof.
  unfold put. simpl. case_decide; [subst; apply lookup_insert_eq|].
  rewrite lookup_insert_ne; [done|]. intros ?%key_inj. by subst.
Qed.

Lemma delete_object k st j : es_kvs (apply st (OpDelete (key prefix k)) : bool * estate doc).2 !! key prefix j
  = if decide (j = k) then None else es_kvs st !! key prefix j.
Proof.
  simpl. destruct (es_kvs st !! key prefix k) eqn:Hk; simpl; case_decide; subst; try done.
  - apply lookup_delete_eq.
  - rewrite lookup_delete_ne; [done|]. intros ?%key_inj. by subst.
Qed.

Lemma foreign_key k j : mkey_ok k -> (forall x, k <> KObject x) -> key prefix j <> encode prefix k.
Proof.
  intros Hk Hno H. change (key prefix j) with (encode prefix (KObject j)) in H.
  rewrite !encode_tail in H by done. apply sapp_inj_l, mkey_tail_inj in H; [|done..]. by apply (Hno j).
Qed.

Lemma put_keeps_objects k v e r e' : mkey_ok k -> (forall x, k <> KObject x) ->
  e_write (OpPut (encode prefix k) v) e = (r, e') -> forall j, lookup_obj e' j = lookup_obj e j.
Proof.
  intros Hk Hno. apply write_keeps_objects. intros st j. by apply put_other, foreign_key.
Qed.

Lemma delete_keeps_objects k e r e' : mkey_ok k -> (forall x, k <> KObject x) ->
  e_write (OpDelete (encode prefix k)) e = (r, e') -> forall j, lookup_obj e' j = lookup_obj e j.
Proof.
  intros Hk Hno. apply write_keeps_objects. intros st j. simpl.
  destruct (es_kvs st !! encode prefix k); [|done]. simpl.
  rewrite lookup_delete_ne; [done|]. intros H. by eapply foreign_key.
Qed.

Lemma txn_keeps_objects ifs k v e r e' : mkey_ok k -> (forall x, k <> KObject x) ->
  e_write (OpTxn ifs (encode prefix k) v) e = (r, e') -> forall j, lookup_obj e' j = lookup_obj e j.
Proof.
  intros Hk Hno. apply write_keeps_objects. intros st j. simpl.
  destruct (forallb _ _); [|done]. by apply put_other, foreign_key.
Qed.

(** Every prefix the code ranges over has a byte that can be incremented. *)
Lemma small_slash p : has_small_byte (p +:+ "/") = true.
Proof. induction p as [|c p IH]; [done|]. simpl. rewrite IH. apply orb_true_r. Qed.

Lemma small_app p s : has_small_byte p = true -> has_small_byte (p +:+ s) = true.
Proof.
  induction p as [|c p IH]; [done|]. cbn [has_small_byte String.append].
  intros [-> | H]%orb_true_iff; [done|]. by rewrite IH, orb_true_r.
Qed.

Lemma upload_range_foreign id j : plain_elem id = true ->
  in_range (uploadPrefix prefix id) (e_prefixEnd (uploadPrefix prefix id)) (key prefix j) = false.
Proof.
  intros Hid. apply not_true_iff_false. intros H.
  apply e_prefixEnd_law in H; [|apply small_slash].
  unfold uploadPrefix, key, objects in H. rewrite join1, join2 in H by done.
  apply HasPrefix_spec in H as [t H]. rewrite <- !sapp_assoc in H. by apply sapp_inj_l in H.
Qed.

Lemma range_keeps_objects id e r e' : plain_elem id = true ->
  e_write (OpDeleteRange (uploadPrefix prefix id) (e_prefixEnd (uploadPrefix prefix id))) e = (r, e') ->
  forall j, lookup_obj e' j = lookup_obj e j.
Proof.
  intros Hid. apply write_keeps_objects. intros st j. simpl.
  destruct (es_kvs st !! key prefix j) as [x|] eqn:Hx.
  - apply map_lookup_filter_Some. split; [done|]. by apply upload_range_foreign.
  - apply map_lookup_filter_None. by left.
Qed.
End objects_map.

Section txn_facts.
Context {E : Type} `{!Etcd doc E} `{!EtcdLaws doc E} (prefix : string).

Lemma txn_true ifs k (v : doc) st st' :
  (true, st') = apply st (OpTxn ifs k v) -> forallb (holds st) ifs = true /\ st' = put st k v.
Proof. simpl. destruct (forallb (holds st) ifs); intros H; by simplify_eq. Qed.

Lemma txn_false ifs k (v : doc) st st' :
  (false, st') = apply st (OpTxn ifs k v) -> forallb (holds st) ifs = false /\ st' = st.
Proof. simpl. destruct (forallb (holds st) ifs); intros H; by simplify_eq. Qed.

Lemma GetUpload_spec id e r e' : GetUpload prefix id e = (r, e') ->
  e_state e' = e_state e /\
  match es_kvs (e_state e) !! uploadKey prefix id with
  | None => r = Err [MetaErrNotFound] \/ r = Err []
  | Some x => r = as_upload (kv_value x) \/ r = Err []
  end.
Proof.
  unfold GetUpload, st_bind. destruct (e_get _ e) as [[v|err] e1] eqn:Hg;
    apply e_get_law in Hg as [Hs Hv]; subst; [|intros [= <- <-]; split; [done|]; case_match; auto].
  destruct (es_kvs (e_state e) !! uploadKey prefix id); intros [= <- <-]; auto.
Qed.
End txn_facts.

(** Run through the binds of an operation: every call that returned before its result
    is known, every case of what came after. *)
Ltac meta_cases H :=
  repeat (unfold st_bind, st_ret, st_fail in H; cbv beta in H;
    match type of H with
    | (let (_, _) := ?c in _) = _ => let x := fresh "r" in let s := fresh "s" in
        let Hx := fresh "Hc" in destruct c as [[x|x] s] eqn:Hx
    | (if ?c then _ else _) _ = _ => let Hx := fresh "Hb" in destruct c eqn:Hx
    | (match ?c with Some _ => _ | None => _ end) _ = _ => let Hx := fresh "Ho" in destruct c eqn:Hx
    end); simplify_eq.

(** Follow the calls of an operation backwards, each of which leaves the objects alone. *)
Ltac keeps_objects k :=
  repeat match goal with
  | |- lookup_obj _ ?e _ = lookup_obj _ ?e _ => reflexivity
  | H : e_grant _ ?a = (_, ?b) |- lookup_obj ?p ?b ?j = _ =>
      transitivity (lookup_obj p a j); [apply lookup_obj_state; by apply e_grant_law in H as [? _]|]; clear H
  | H : e_keepAlive _ ?a = (_, ?b) |- lookup_obj ?p ?b ?j = _ =>
      transitivity (lookup_obj p a j); [apply lookup_obj_state; by apply e_keepAlive_law in H as [? _]|]; clear H
  | H : e_get _ ?a = (_, ?b) |- lookup_obj ?p ?b ?j = _ =>
      transitivity (lookup_obj p a j); [apply lookup_obj_state; by apply e_get_law in H as [? _]|]; clear H
  | H : e_write (OpPut _ _) ?a = (_, ?b) |- lookup_obj ?p ?b ?j = _ =>
      transitivity (lookup_obj p a j); [by eapply (put_keeps_objects p k) | clear H]
  | H : e_write (OpDelete _) ?a = (_, ?b) |- lookup_obj ?p ?b ?j = _ =>
      transitivity (lookup_obj p a j); [by eapply (delete_keeps_objects p k) | clear H]
  | H : e_write (OpTxn _ _ _) ?a = (_, ?b) |- lookup_obj ?p ?b ?j = _ =>
      transitivity (lookup_obj p a j); [by eapply (txn_keeps_objects p _ k) | clear H]
  | H : e_write (OpDeleteRange _ _) ?a = (_, ?b) |- lookup_obj ?p ?b ?j = _ =>
      transitivity (lookup_obj p a j); [eapply range_keeps_objects; [|exact H]; done | clear H]
  end.

Section meta_claims.
Context {E : Type} `{!Etcd doc E} `{!EtcdLaws doc E} (prefix : string).

(** The committed objects behave as a map from keys to manifests. [Get] tells what
    is there or fails because etcd did; [Commit] sets one key (to the manifest as JSON
    keeps it) and [Delete] clears one,
    idempotently, when they succeed, and either did so or nothing when they fail; no
    other key changes. *)
Theorem objects_map (k : string) (m : Manifest) (e e' : E) (r : res unit) :
  (Commit prefix k m e = (r, e') ->
     let done_ := forall j, lookup_obj prefix e' j = if decide (j = k) then Ok (json_manifest m) else lookup_obj prefix e j in
     (r = Ok tt /\ done_) \/ (r = Err [] /\ (done_ \/ forall j, lookup_obj prefix e' j = lookup_obj prefix e j))) /\
  (Delete prefix k e = (r, e') ->
     let done_ := forall j, lookup_obj prefix e' j
       = if decide (j = k) then Err [MetaErrNotFound] else lookup_obj prefix e j in
     (r = Ok tt /\ done_) \/ (r = Err [] /\ (done_ \/ forall j, lookup_obj prefix e' j = lookup_obj prefix e j))) /\
  (forall g, Get prefix k e = (g, e') -> e_state e' = e_state e /\ (g = lookup_obj prefix e k \/ g = Err [])).
Proof.
  split_and!.
  - intros H. unfold Commit in H. meta_cases H; apply e_write_law in Hc; simpl in Hc.
    + left. split; [done|]. intros j. unfold lookup_obj. injection Hc as _ ->. rewrite put_object. by case_decide.
    + right. destruct Hc as [-> Hs]. split; [done|].
      destruct Hs as [Hs|Hs]; [right | left]; intros j; unfold lookup_obj; rewrite Hs; [done|].
      rewrite put_object. by case_decide.
  - intros H. unfold Delete in H. meta_cases H; apply e_write_law in Hc.
    + left. split; [done|]. intros j. unfold lookup_obj.
      assert (Hs : e_state e' = (apply (e_state e) (OpDelete (key prefix k))).2) by by rewrite <- Hc.
      rewrite Hs, delete_object. by case_decide.
    + right. destruct Hc as [-> Hs]. split; [done|].
      destruct Hs as [Hs|Hs]; [right | left]; intros j; unfold lookup_obj; rewrite Hs; [done|].
      rewrite delete_object. by case_decide.
  - intros g. apply Get_spec.
Qed.

(** Writes in flight, uploads, their parts and their deletion, completions, cursors
    and members leave every object as it was, whether they succeed or fail. *)
Theorem other_records_keep_objects (id node addr task : string) (number ttl : Z) (m : Manifest)
    (u : Upload) (c : Completion) (wid : string) (e e' : E) :
  plain_elem id = true -> plain_elem node = true -> plain_elem task = true -> plain_elem wid = true ->
  0 <= number ->
  (forall r, In (r, e') [MarkWriting prefix id node e; DoneWriting prefix id e; CreateUpload prefix id u e;
     CommitPart prefix id number m e; CommitPartWhileWriting prefix id number m wid e;
     FinishUpload prefix id c e; DeleteUpload prefix id e; SaveCursor prefix task node addr e;
     Join prefix node addr ttl e] ->
   forall j, lookup_obj prefix e' j = lookup_obj prefix e j).
Proof.
  intros Hid Hnode Htask Hwid Hn r H j. simpl in H.
  repeat destruct H as [H|H]; try done.
  - unfold MarkWriting in H. meta_cases H; keeps_objects (KWriting id).
  - unfold DoneWriting in H. meta_cases H; keeps_objects (KWriting id).
  - unfold CreateUpload in H. meta_cases H; keeps_objects (KUpload id).
  - unfold CommitPart in H. meta_cases H; keeps_objects (KPart id number).
  - unfold CommitPartWhileWriting in H. meta_cases H; unfold GetUpload in *;
      try meta_cases Hc0; keeps_objects (KPart id number).
  - unfold FinishUpload in H. meta_cases H; keeps_objects (KCompletion id).
  - unfold DeleteUpload in H. meta_cases H; keeps_objects (KUpload id).
  - unfold SaveCursor in H. meta_cases H; keeps_objects (KCursor task node).
  - unfold Join, register in H. meta_cases H; keeps_objects (KMember node).
Qed.

(** The conditional commits are all or nothing. [CommitWhileWriting],
    [CommitPart] and [CommitPartWhileWriting] report success only if the record they
    depend on was there at the very step that stored the manifest; if it was not, they
    change nothing and say which record was missing ([ErrNotWriting], or [ErrNotFound]
    for the upload). *)
Theorem conditional_commits (k id wid : string) (n : Z) (m : Manifest) (e e' : E) (r : res unit) :
  (CommitWhileWriting prefix k m id e = (r, e') ->
     match r with
     | Ok _ => is_Some (es_kvs (e_state e) !! writingKey prefix id) /\
               e_state e' = put (e_state e) (key prefix k) (DManifest (json_manifest m))
     | Err err => (err = [ErrNotWriting] /\ es_kvs (e_state e) !! writingKey prefix id = None /\
                   e_state e' = e_state e) \/ err = []
     end) /\
  (CommitPart prefix id n m e = (r, e') ->
     match r with
     | Ok _ => is_Some (es_kvs (e_state e) !! uploadKey prefix id) /\
               e_state e' = put (e_state e) (partKey prefix id n) (DManifest (json_manifest m))
     | Err err => (err = [MetaErrNotFound] /\ es_kvs (e_state e) !! uploadKey prefix id = None /\
                   e_state e' = e_state e) \/ err = []
     end) /\
  (CommitPartWhileWriting prefix id n m wid e = (r, e') ->
     match r with
     | Ok _ => is_Some (es_kvs (e_state e) !! writingKey prefix wid) /\
               is_Some (es_kvs (e_state e) !! uploadKey prefix id) /\
               e_state e' = put (e_state e) (partKey prefix id n) (DManifest (json_manifest m))
     | Err err => (err = [ErrNotWriting] /\ es_kvs (e_state e) !! writingKey prefix wid = None /\
                   e_state e' = e_state e) \/
                  (err = [MetaErrNotFound] /\ es_kvs (e_state e) !! uploadKey prefix id = None /\
                   e_state e' = e_state e) \/ err = []
     end).
Proof.
  split_and!; intros H.
  - unfold CommitWhileWriting, whileWriting in H. meta_cases H; apply e_write_law in Hc.
    + apply txn_true in Hc as [Hf ->]. simpl in Hf. bool_facts. done.
    + apply txn_false in Hc as [Hf ->]. simpl in Hf. rewrite andb_true_r in Hf. bool_facts.
      apply eq_None_not_Some in Hf. auto.
    + by destruct Hc as [-> _]; auto.
  - unfold CommitPart in H. meta_cases H; apply e_write_law in Hc.
    + apply txn_true in Hc as [Hf ->]. simpl in Hf. bool_facts. done.
    + apply txn_false in Hc as [Hf ->]. simpl in Hf. rewrite andb_true_r in Hf. bool_facts.
      apply eq_None_not_Some in Hf. auto.
    + by destruct Hc as [-> _]; auto.
  - unfold CommitPartWhileWriting in H. meta_cases H; apply e_write_law in Hc.
    + apply txn_true in Hc as [Hf ->]. simpl in Hf. bool_facts. done.
    + apply txn_false in Hc as [Hf Hs]. apply GetUpload_spec in Hc0 as [Hs' Hu]. rewrite Hs', Hs.
      left. split; [done|]. split; [|done]. simpl in Hf. rewrite andb_true_r in Hf.
      rewrite Hs in Hu. destruct (es_kvs (e_state e) !! uploadKey prefix id); [|by destruct Hu].
      rewrite (bool_decide_true (is_Some (Some _))), andb_true_r in Hf by eauto. bool_facts.
      by apply eq_None_not_Some.
    + apply txn_false in Hc as [Hf Hs]. apply GetUpload_spec in Hc0 as [Hs' Hu]. rewrite Hs', Hs in *.
      right. destruct (es_kvs (e_state e) !! uploadKey prefix id) as [x|] eqn:Hx.
      * right. destruct Hu as [Hu|Hu]; [|by simplify_eq]. by destruct (kv_value x); simplify_eq/=.
      * destruct Hu as [Hu|Hu]; simplify_eq; auto.
    + by destruct Hc as [-> _]; auto.
Qed.

(** A background pass never overwrites what it has not read. If a manifest was read
    at some revision and anything at all has happened in etcd since, then
    [CommitIfUnchanged] at that revision replaces it only if it is still the very
    manifest that was read, and otherwise changes nothing and reports [ErrChanged]. *)
Theorem CommitIfUnchanged_no_lost_update (k : string) (m : Manifest) (st0 : estate doc) (x : kv doc)
    (e e' : E) (r : res unit) :
  es_ok st0 -> es_kvs st0 !! key prefix k = Some x -> reaches st0 (e_state e) ->
  CommitIfUnchanged prefix k m (kv_mod x) e = (r, e') ->
  match r with
  | Ok _ => es_kvs (e_state e) !! key prefix k = Some x /\
            e_state e' = put (e_state e) (key prefix k) (DManifest (json_manifest m))
  | Err err => (err = [ErrChanged] /\ es_kvs (e_state e) !! key prefix k <> Some x /\
                e_state e' = e_state e) \/ err = []
  end.
Proof.
  intros Hok Hx Hr H. destruct (reaches_unchanged _ _ _ _ Hok Hx Hr) as [Hok' Hsame].
  assert (Hm : 1 <= kv_mod x) by (apply Hok in Hx; lia).
  unfold CommitIfUnchanged in H. meta_cases H; apply e_write_law in Hc.
  - apply txn_true in Hc as [Hf ->]. split; [|done]. cbn [forallb holds] in Hf.
    destruct (es_kvs (e_state e) !! key prefix k) as [y|] eqn:Hy; bool_facts; [|lia].
    f_equal. by apply Hsame.
  - apply txn_false in Hc as [Hf ->]. left. split; [done|]. split; [|done]. cbn [forallb holds] in Hf.
    intros Hy. rewrite Hy, Z.eqb_refl in Hf. done.
  - destruct Hc as [-> _]. by right.
Qed.

(** ** Scans *)

(** Every committed object in key order, whatever the page. *)
Definition all_objects (st : estate doc) : list (string * kv doc) :=
  sorted_range st (objects prefix) (e_prefixEnd (objects prefix)).

Definition scan_wants (pre from k : string) : bool :=
  HasPrefix k (key prefix pre) && sle (key prefix from) k.

Lemma scan_range pre from k :
  in_range (if slt pre from then key prefix from else key prefix pre) (e_prefixEnd (key prefix pre)) k
  = scan_wants pre from k.
Proof.
  assert (Hsmall : has_small_byte (key prefix pre) = true)
    by (unfold key, objects; rewrite <- sapp_assoc, sapp_assoc; apply small_app, small_slash).
  assert (Hlaw : in_range (key prefix pre) (e_prefixEnd (key prefix pre)) k = HasPrefix k (key prefix pre)).
  { destruct (HasPrefix k _) eqn:Hp; [by apply e_prefixEnd_law|].
    apply not_true_iff_false. intros H%e_prefixEnd_law; [congruence | done]. }
  unfold scan_wants. rewrite <- Hlaw. unfold in_range.
  destruct (slt pre from) eqn:Hlt.
  - assert (Hle : sle (key prefix pre) (key prefix from) = true)
      by (unfold key; rewrite sle_app; apply sle_spec; auto).
    destruct (sle (key prefix from) k) eqn:Hk; [|by rewrite andb_false_r].
    rewrite (sle_trans _ _ _ Hle Hk), andb_true_r. done.
  - assert (Hle : sle (key prefix from) (key prefix pre) = true)
      by (unfold key; rewrite sle_app; by apply slt_false).
    destruct (sle (key prefix pre) k) eqn:Hk; [|done].
    by rewrite (sle_trans _ _ _ Hle Hk), andb_true_r.
Qed.

(** [scan] is the first [limit] of the objects it is asked for. *)
Lemma scan_spec pre from limit e r e' : 0 < limit -> scan prefix pre from limit e = (r, e') ->
  e_state e' = e_state e /\
  (r = Err [] \/
   r = Ok (takeZ limit (filter (fun p => scan_wants pre from p.1 = true) (all_objects (e_state e))))).
Proof.
  intros Hlim. unfold scan. set (start := if slt pre from then _ else _).
  assert (Hsub : sorted_range (e_state e) start (e_prefixEnd (key prefix pre))
    = filter (fun p => scan_wants pre from p.1 = true) (all_objects (e_state e))).
  { apply sorted_range_sub; intros k; unfold start; rewrite scan_range; [done|].
    unfold scan_wants. intros [Hp _]%andb_true_iff. apply e_prefixEnd_law; [apply small_slash|].
    eapply HasPrefix_trans; [done|]. apply HasPrefix_app. }
  destruct (sle (e_prefixEnd (key prefix pre)) start) eqn:Hse.
  - intros [= <- <-]. split; [done|]. right. f_equal. rewrite <- Hsub.
    assert (sorted_range (e_state e) start (e_prefixEnd (key prefix pre)) = []) as ->; [|by unfold takeZ; rewrite take_nil].
    apply elem_of_nil_inv. intros p [Hr _]%elem_of_sorted_range. unfold in_range in Hr.
    apply andb_true_iff in Hr as [H1 H2]. pose proof (sle_slt_trans _ _ _ H1 H2) as H3.
    pose proof (slt_sle_trans _ _ _ H3 Hse) as H4. by rewrite slt_irrefl in H4.
  - intros H. meta_cases H; apply e_range_law in Hc as [Hs Hl]; split; try done; subst; [|by left].
    right. unfold range_spec. rewrite (proj2 (Z.leb_gt _ _)) by lia. simpl. by rewrite Hsub.
Qed.

(** The object a listed key stands for. *)
Lemma wants_trim pre from k : scan_wants pre from k = true ->
  exists j, k = key prefix j /\ TrimPrefix k (objects prefix) = j /\ HasPrefix j pre = true /\ from <=s j.
Proof.
  unfold scan_wants. intros [Hp Hf]%andb_true_iff. apply HasPrefix_spec in Hp as [t ->].
  unfold key in *. exists (pre +:+ t). rewrite <- sapp_assoc in *. rewrite TrimPrefix_app.
  rewrite sle_app in Hf. split; [done|]. split; [done|]. split; [apply HasPrefix_app | done].
Qed.

(** A page of a scan is exactly the first [limit] objects, in key order, whose keys
    have the prefix and are not before [from]: it invents none, skips none, orders them
    strictly, and stops short of the limit only when there are no more. *)
Theorem ScanEntries_page (pre from : string) (limit : Z) (e e' : E) (l : list Entry) :
  0 < limit -> ScanEntries prefix pre from limit e = (Ok l, e') ->
  e_state e' = e_state e /\
  exists kvs, kvs = takeZ limit (filter (fun p => scan_wants pre from p.1 = true) (all_objects (e_state e))) /\
    Forall2 (fun p en => as_entry (en_Key en) (kv_value p.2) = Ok en /\ p.1 = key prefix (en_Key en)) kvs l /\
    StronglySorted (fun a b => en_Key a <s en_Key b) l /\
    (zlen l < limit -> forall j x, HasPrefix j pre = true -> from <=s j ->
       es_kvs (e_state e) !! key prefix j = Some x -> j ∈ map en_Key l).
Proof.
  intros Hlim H. unfold ScanEntries in H. apply st_bind_Ok in H as (kvs & e1 & Hsc & H).
  apply scan_spec in Hsc as [Hs [?|Hk]]; [done| |done]. injection Hk as Hk. injection H as Hl <-.
  split; [done|]. exists kvs. split; [done|].
  assert (Hkw : Forall (fun p => scan_wants pre from p.1 = true /\ es_kvs (e_state e) !! p.1 = Some p.2) kvs).
  { rewrite Hk, Forall_forall. intros p Hp%elem_of_take_1. apply list_elem_of_filter in Hp as [Hw Hp].
    apply elem_of_sorted_range in Hp as [_ Hp]. done. }
  assert (HF : Forall2 (fun p en => as_entry (en_Key en) (kv_value p.2) = Ok en /\ p.1 = key prefix (en_Key en)) kvs l).
  { apply res_map_Ok in Hl. clear Hk. induction Hl as [|p en kvs l Hp Hl IH]; [constructor|].
    apply Forall_cons in Hkw as [[Hw _] Hkw]. constructor; [|auto].
    apply wants_trim in Hw as (j & Hj & Ht & _). rewrite Ht in Hp.
    assert (en_Key en = j) as -> by (destruct (kv_value p.2); simplify_eq/=; done). done. }
  split; [done|]. split.
  - assert (Hss : StronglySorted (fun p q => p.1 <s q.1) kvs).
    { rewrite Hk. apply StronglySorted_take, StronglySorted_filter, sorted_range_strict. }
    clear Hkw Hl Hk. induction HF as [|p en kvs l [_ Hp] HF IH]; [constructor|].
    apply StronglySorted_inv in Hss as [Hss Hall]. constructor; [auto|].
    rewrite Forall_forall in Hall. apply Forall_forall. intros en' Hen'.
    apply list_elem_of_lookup in Hen' as [i Hi]. destruct (Forall2_lookup_r _ _ _ _ _ HF Hi) as (q & Hq & _ & Hqk).
    specialize (Hall q ltac:(by eapply list_elem_of_lookup_2)). rewrite Hp, Hqk in Hall.
    unfold key in Hall. by rewrite slt_app in Hall.
  - intros Hshort j x Hj Hfj Hx.
    assert (Hin : (key prefix j, x) ∈ kvs).
    { apply Forall2_length in HF. rewrite Hk in HF |- *. rewrite takeZ_all.
      - apply list_elem_of_filter. split.
        + simpl. unfold scan_wants, key. by rewrite HasPrefix_app_iff, sle_app, Hj, Hfj.
        + apply elem_of_sorted_range. simpl. split; [|done].
          apply e_prefixEnd_law; [apply small_slash | apply HasPrefix_app].
      - destruct (Z.le_gt_cases (zlen (filter (fun p => scan_wants pre from p.1 = true) (all_objects (e_state e)))) limit) as [|Hgt]; [done|].
        unfold zlen, takeZ in *. rewrite length_take in HF. lia. }
    apply list_elem_of_lookup in Hin as [i Hi]. destruct (Forall2_lookup_l _ _ _ _ _ HF Hi) as (en & Hen & _ & Hkey).
    apply key_inj in Hkey as ->. apply list_elem_of_fmap_2. by eapply list_elem_of_lookup_2.
Qed.
End meta_claims.

(** ** Stepping over a key and over a prefix *)

Lemma After_sle a b : After a <=s b <-> a <s b.
Proof.
  unfold After. revert b. induction a as [|c a IH]; intros [|d b]; unfold sle in *; simpl; try done.
  - split; [done|]. intros _. change (byteZ Ascii.zero) with 0. pose proof (byteZ_range d).
    rewrite (proj2 (Z.ltb_ge _ _)) by lia. destruct (byteZ d =? 0); [by destruct b | done].
  - specialize (IH b). 
    destruct (Z.ltb_spec (byteZ d) (byteZ c)), (Z.ltb_spec (byteZ c) (byteZ d)),
      (Z.eqb_spec (byteZ c) (byteZ d)), (Z.eqb_spec (byteZ d) (byteZ c)); try lia; simpl; try done.
Qed.

Fixpoint ascii_below_del (s : string) : bool :=
  match s with EmptyString => true | String c s' => (byteZ c <? 127) && ascii_below_del s' end.

Lemma past_prefix_ascii p : ascii_below_del p = true -> past_prefix p = prefix_end p.
Proof.
  induction p as [|c p IH]; [done|]. cbn [ascii_below_del past_prefix prefix_end].
  intros [Hc Hp]%andb_true_iff. rewrite IH by done. destruct (prefix_end p); [done|].
  bool_facts. pose proof (byteZ_range c). rewrite (proj2 (Z.ltb_lt (byteZ c) 255)) by lia.
  unfold utf8_of_byte. by rewrite (proj2 (Z.ltb_lt _ _)) by lia.
Qed.

(** For a non-empty prefix of ASCII bytes below 0x7f, [PastPrefix] is exact: the keys
    that have the prefix are those from the prefix up to it, so a listing that resumes
    there steps over the whole group and over nothing else. *)
Theorem PastPrefix_exact (p k : string) : p <> "" -> ascii_below_del p = true ->
  HasPrefix k p = true <-> p <=s k /\ k <s PastPrefix p.
Proof.
  intros Hne Hp. unfold PastPrefix. rewrite past_prefix_ascii by done.
  assert (Hs : has_small_byte p = true).
  { destruct p as [|c p]; [done|]. cbn [ascii_below_del has_small_byte] in *.
    apply andb_true_iff in Hp as [Hc _]. bool_facts. by rewrite (proj2 (Z.ltb_lt _ _)) by lia. }
  apply prefix_end_small in Hs as [t Ht]. pose proof (prefix_end_spec p k) as H. rewrite Ht in *. simpl.
  rewrite H. unfold in_range. apply andb_true_iff.
Qed.

Lemma PastPrefix_exact_witness :
  HasPrefix "photos/2024" "photos/" = true <-> "photos/" <=s "photos/2024" /\ "photos/2024" <s PastPrefix "photos/".
Proof. apply (PastPrefix_exact "photos/" "photos/2024"); [discriminate | reflexivity]. Defined.

Lemma past_prefix_snoc p c : byteZ c < 255 ->
  PastPrefix (p +:+ String c "") = p +:+ utf8_of_byte (byteZ c + 1).
Proof.
  intros Hc. unfold PastPrefix.
  assert (H : past_prefix (p +:+ String c "") = Some (p +:+ utf8_of_byte (byteZ c + 1))).
  { induction p as [|d p IH]; cbn [String.append past_prefix].
    - by rewrite (proj2 (Z.ltb_lt _ _) Hc).
    - by rewrite IH. }
  by rewrite H.
Qed.

(** For other prefixes it is wrong, because it appends the UTF-8 encoding of the next
    byte's number rather than the byte. A last byte of 0xc3 or more gives a key that
    keys with the prefix still sort after, so a listing that resumes there meets the
    same group again; one from 0x7f to 0xc0 gives a key too far on, so keys outside the
    group are skipped. *)
Theorem PastPrefix_high_bytes (p : string) (c : byte) :
  (195 <= byteZ c < 255 -> exists k,
     HasPrefix k (p +:+ String c "") = true /\ PastPrefix (p +:+ String c "") <s k) /\
  (127 <= byteZ c <= 192 -> exists k,
     HasPrefix k (p +:+ String c "") = false /\ (p +:+ String c "") <s k /\
     k <s PastPrefix (p +:+ String c "")).
Proof.
  split; intros Hc; rewrite past_prefix_snoc by lia.
  - exists ((p +:+ String c "") +:+ String (byte_of 255) ""). split; [apply HasPrefix_app|].
    rewrite <- sapp_assoc, slt_app. pose proof (byte_of_byteZ c) as Hcz.
    remember (byteZ c) as z eqn:Ez. clear Ez. rewrite <- Hcz.
    assert (H : forallb (fun n => let z := 195 + Z.of_nat n in
      slt (utf8_of_byte (z + 1)) (String (byte_of z) "" +:+ String (byte_of 255) "")) (seq 0 60) = true)
      by (vm_compute; reflexivity).
    rewrite forallb_forall in H. specialize (H (Z.to_nat (z - 195))). cbv zeta in H.
    replace (195 + Z.of_nat (Z.to_nat (z - 195))) with z in H by lia. apply H, in_seq. lia.
  - exists (p +:+ String (byte_of (byteZ c + 1)) ""). rewrite HasPrefix_app_iff, !slt_app.
    pose proof (byte_of_byteZ c) as Hcz. remember (byteZ c) as z eqn:Ez. clear Ez. rewrite <- Hcz.
    assert (H : forallb (fun n => let z := 127 + Z.of_nat n in
      negb (HasPrefix (String (byte_of (z + 1)) "") (String (byte_of z) "")) &&
      slt (String (byte_of z) "") (String (byte_of (z + 1)) "") &&
      slt (String (byte_of (z + 1)) "") (utf8_of_byte (z + 1))) (seq 0 66) = true)
      by (vm_compute; reflexivity).
    rewrite forallb_forall in H. specialize (H (Z.to_nat (z - 127))). cbv zeta in H.
    replace (127 + Z.of_nat (Z.to_nat (z - 127))) with z in H by lia.
    specialize (H ltac:(apply in_seq; lia)). bool_facts. done.
Qed.

Lemma PastPrefix_high_bytes_witness : exists k,
  HasPrefix k ("a" +:+ String (byte_of 195) "") = true /\
  PastPrefix ("a" +:+ String (byte_of 195) "") <s k.
Proof. apply (proj1 (PastPrefix_high_bytes "a" (byte_of 195))). vm_compute. split; [discriminate | reflexivity]. Defined.

(** ** The claims at concrete inputs *)

Abbreviation demoE := (pure_etcd doc).
Definition demo0 : demoE := empty_etcd.
Definition demo_m : Manifest := zeroManifest.
Definition demo1 : demoE := (Commit "/kavo" "b/k" demo_m demo0).2.

Lemma objects_map_witness :
  let e' := (Commit "/kavo" "b/k" demo_m demo0).2 in
  (Ok tt = Ok tt /\ (forall j, lookup_obj "/kavo" e' j
     = if decide (j = "b/k") then Ok demo_m else lookup_obj "/kavo" demo0 j)) \/
  (Ok tt = Err [] /\
   ((forall j, lookup_obj "/kavo" e' j = if decide (j = "b/k") then Ok demo_m else lookup_obj "/kavo" demo0 j) \/
    forall j, lookup_obj "/kavo" e' j = lookup_obj "/kavo" demo0 j)).
Proof. apply (proj1 (objects_map "/kavo" "b/k" demo_m demo0 (Commit "/kavo" "b/k" demo_m demo0).2 (Ok tt))). reflexivity. Defined.

Lemma other_records_keep_objects_witness :
  lookup_obj "/kavo" (MarkWriting "/kavo" "W" "n1" demo1).2 "b/k" = lookup_obj "/kavo" demo1 "b/k".
Proof.
  apply (other_records_keep_objects "/kavo" "W" "n1" "" "t" 1 5 demo_m (mk_Upload "" "" 0 ∅)
    (mk_Completion "" "" 0 0) "W2" demo1 (MarkWriting "/kavo" "W" "n1" demo1).2) with (r := Ok tt) (j := "b/k");
    [reflexivity..| lia | left; reflexivity].
Defined.

Lemma conditional_commits_witness :
  ([ErrNotWriting] = [ErrNotWriting] /\ es_kvs (e_state demo1) !! writingKey "/kavo" "W" = None /\
   e_state (CommitWhileWriting "/kavo" "b/k" demo_m "W" demo1).2 = e_state demo1) \/ [ErrNotWriting] = [].
Proof.
  apply (proj1 (conditional_commits "/kavo" "b/k" "W" "W" 1 demo_m demo1
    (CommitWhileWriting "/kavo" "b/k" demo_m "W" demo1).2 (Err [ErrNotWriting]))).
  reflexivity.
Defined.

Lemma CommitIfUnchanged_no_lost_update_witness :
  es_kvs (e_state demo1) !! key "/kavo" "b/k" = Some (mk_kv (DManifest demo_m) 1 1) /\
  e_state (CommitIfUnchanged "/kavo" "b/k" demo_m 1 demo1).2
  = put (e_state demo1) (key "/kavo" "b/k") (DManifest demo_m).
Proof.
  apply (CommitIfUnchanged_no_lost_update "/kavo" "b/k" demo_m (e_state demo1)
    (mk_kv (DManifest demo_m) 1 1) demo1 (CommitIfUnchanged "/kavo" "b/k" demo_m 1 demo1).2 (Ok tt)).
  - apply e_ok.
  - reflexivity.
  - apply rtc_refl.
  - reflexivity.
Defined.

Lemma ScanEntries_page_witness :
  e_state (ScanEntries "/kavo" "b/" "" 10 demo1).2 = e_state demo1.
Proof.
  apply (ScanEntries_page "/kavo" "b/" "" 10 demo1 (ScanEntries "/kavo" "b/" "" 10 demo1).2
    [mk_Entry "b/k" 0 "" 0]); [lia | reflexivity].
Defined.

(** ** The markers of an upload listing *)

Definition two_uploads : demoE :=
  (CreateUpload "/kavo" "U2" (mk_Upload "b/k2" "" 0 ∅)
     (CreateUpload "/kavo" "U1" (mk_Upload "b/k1" "" 0 ∅) demo0).2).2.

Definition page_ids (r : res (list UploadRef * bool)) : option (list string * bool) :=
  match r with Ok (l, more) => Some (map ur_ID l, more) | Err _ => None end.

(** As the code stands, the marker of an upload listing does not move the listing on:
    the page that starts after an upload begins with that same upload, so a client
    that pages one at a time is handed the first upload for ever. *)
Theorem Uploads_marker_repeats :
  page_ids (Uploads "/kavo" "b/" "" 1 two_uploads).1 = Some (["U1"], true) /\
  page_ids (Uploads "/kavo" "b/" "U1" 1 two_uploads).1 = Some (["U1"], true).
Proof. split; vm_compute; reflexivity. Qed.
