(* ===== verification/Node.v ===== *)
(** * Chunks between nodes: [internal/peer/peer.go] and [internal/api/api.go]

    A [world] is every node's disk, etcd, and a script that decides what goes wrong
    with each call: the request may never arrive, the reply may be lost, the body may
    be changed on the wire, and any system call on the far side may fail. *)

From S2P Require Import Prelude GoStr Strconv Hash Crc Object Store.

(** ** The handlers for other nodes *)

Definition StatusOK : Z := 200.
Definition StatusBadRequest : Z := 400.
Definition StatusNotFound : Z := 404.
Definition StatusLengthRequired : Z := 411.
Definition StatusInternalServerError : Z := 500.
Definition StatusServiceUnavailable : Z := 503.

(** [declaredCRC] on the value of the [X-Kavo-Crc32c] header. *)
Definition declaredCRC (raw : string) : res Z :=
  if String.eqb raw "" then Err errors_New
  else match ParseUint raw 16 32 with Some crc => Ok crc | None => Err errors_New end.

Record chunk_req := mk_chunk_req { rq_id : string; rq_crc : string; rq_len : Z; rq_body : reader }.

(** [putChunk]: the answer a push gets, and the disk it leaves. *)
Definition putChunk (F : faults) (t : string) (now : Z) (fs : FS) (r : chunk_req) : Z * FS :=
  match declaredCRC (rq_crc r) with
  | Err _ => (StatusBadRequest, fs)
  | Ok crc =>
      if rq_len r <? 0 then (StatusLengthRequired, fs)
      else
        let '(err, fs', _) := WriteChunkVerified F t now fs (rq_id r) (rq_body r) crc (rq_len r) in
        (match err with
         | None => StatusOK
         | Some e =>
             if errors_Is e ErrInvalidID then StatusBadRequest
             else if errors_Is e ErrVerificationFailed then StatusBadRequest
             else if errors_Is e ErrUnexpectedEOF then StatusBadRequest
             else StatusInternalServerError
         end, fs')
  end.

(** How the reads of a file happen to be cut does not matter to [Verify]. *)
Definition one_read (d : bytes) : list bytes := [d].

(** [getChunk]: the status and, with 200, the body. A local copy that cannot be read to its
    end or fails its checksum has sent the bytes before by then, and the handler returns, so
    the body just ends. *)
Definition getChunk (F : faults) (fs : FS) (id crc_header : string) : Z * option reader :=
  match declaredCRC crc_header with
  | Err _ => (StatusBadRequest, None)
  | Ok crc =>
      match ReadChunk F one_read fs id crc with
      | Ok rc => (StatusOK, Some (mk_reader (rd_data rc) None))
      | Err e =>
          (if errors_Is e StoreErrNotFound then StatusNotFound
           else if errors_Is e ErrInvalidID then StatusBadRequest
           else StatusInternalServerError, None)
      end
  end.

Definition headChunk (F : faults) (fs : FS) (id : string) : Z :=
  match HasChunk F fs id with
  | Err e => if errors_Is e ErrInvalidID then StatusBadRequest else StatusInternalServerError
  | Ok held => if (held : bool) then StatusOK else StatusNotFound
  end.

Definition checkChunks (F : faults) (fs : FS) (ids : list string) : Z * list string :=
  match HasChunks F fs ids with
  | Err _ => (StatusInternalServerError, [])
  | Ok have => (StatusOK, have)
  end.

(** ** The world *)

Record rpc := mk_rpc { rf_store : faults; rf_down : bool; rf_lost : bool; rf_wire : reader -> reader }.

Definition rpc_ok : rpc := mk_rpc no_faults false false id.

Record world (E : Type) := mk_world {
  w_stores : gmap string FS;
  w_etcd : E;
  w_script : list rpc;
  w_calls : nat;
  w_now : Z
}.
Arguments mk_world {_} _ _ _ _ _.
Arguments w_stores {_} _.
Arguments w_etcd {_} _.
Arguments w_script {_} _.
Arguments w_calls {_} _.
Arguments w_now {_} _.

Section world_ops.
Context {E : Type}.
Abbreviation World := (world E).

Definition set_etcd (w : World) (e : E) : World :=
  mk_world (w_stores w) e (w_script w) (w_calls w) (w_now w).
Definition set_store (w : World) (addr : string) (fs : FS) : World :=
  mk_world (<[addr := fs]> (w_stores w)) (w_etcd w) (w_script w) (w_calls w) (w_now w).

(** What happens to the next call. *)
Definition next_rpc (w : World) : rpc * World :=
  (match w_script w with r :: _ => r | [] => rpc_ok end,
   mk_world (w_stores w) (w_etcd w) (tail (w_script w)) (S (w_calls w)) (w_now w)).

(** The name [os.CreateTemp] picks for the write of this call. *)
Definition tmp_name (w : World) : string := "w." +:+ Itoa (Z.of_nat (w_calls w)).

(** A store this node has itself. *)
Definition local_write (addr id : string) (src : reader) (crc size : Z) (w : World) : option error * World :=
  let '(r, w1) := next_rpc w in
  match w_stores w1 !! addr with
  | None => (Some errors_New, w1)
  | Some fs =>
      let '(err, fs', _) := WriteChunkVerified (rf_store r) (tmp_name w1) (w_now w1) fs id
                              src crc size in
      (err, set_store w1 addr fs')
  end.

Definition local_read (addr id : string) (crc : Z) (w : World) : res reader * World :=
  let '(r, w1) := next_rpc w in
  match w_stores w1 !! addr with
  | None => (Err errors_New, w1)
  | Some fs => (ReadChunk (rf_store r) one_read fs id crc, w1)
  end.

Definition local_has (addr id : string) (w : World) : res bool * World :=
  let '(r, w1) := next_rpc w in
  match w_stores w1 !! addr with
  | None => (Err errors_New, w1)
  | Some fs => (HasChunk (rf_store r) fs id, w1)
  end.

(** ** The client side *)

(** What the far side reads of a body: a source that fails cuts the request short. *)
Definition sent (src : reader) : reader :=
  mk_reader (rd_data src) (match rd_end src with None => None | Some _ => Some [ErrUnexpectedEOF] end).

(** [PushChunk]: no error only on a 200 that arrived, for a body that was sent whole. *)
Definition PushChunk (addr id : string) (crc size : Z) (src : reader) (w : World) : option error * World :=
  let '(r, w1) := next_rpc w in
  if rf_down r then (Some errors_New, w1)
  else match w_stores w1 !! addr with
  | None => (Some errors_New, w1)
  | Some fs =>
      let req := mk_chunk_req id (pad_hex 8 crc) size (rf_wire r (sent src)) in
      let '(status, fs') := putChunk (rf_store r) (tmp_name w1) (w_now w1) fs req in
      let w2 := set_store w1 addr fs' in
      if rf_lost r || bool_decide (is_Some (rd_end src)) then (Some errors_New, w2)
      else if negb (status =? StatusOK) then (Some errors_New, w2)
      else (None, w2)
  end.

(** [FetchChunk]: the bytes are verified again as they come off the wire. *)
Definition FetchChunk (addr id : string) (crc : Z) (w : World) : res reader * World :=
  let '(r, w1) := next_rpc w in
  if rf_down r || rf_lost r then (Err errors_New, w1)
  else match w_stores w1 !! addr with
  | None => (Err errors_New, w1)
  | Some fs =>
      match getChunk (rf_store r) fs id (pad_hex 8 crc) with
      | (status, Some body) =>
          if status =? StatusOK then (Ok (Verify one_read (rf_wire r body) crc), w1)
          else (Err errors_New, w1)
      | (status, None) =>
          (Err (if status =? StatusNotFound then [PeerErrNotFound] else errors_New), w1)
      end
  end.

Definition PeerHasChunks (addr : string) (ids : list string) (w : World) : res (gset string) * World :=
  let '(r, w1) := next_rpc w in
  if rf_down r || rf_lost r then (Err errors_New, w1)
  else match w_stores w1 !! addr with
  | None => (Err errors_New, w1)
  | Some fs =>
      let '(status, have) := checkChunks (rf_store r) fs ids in
      if status =? StatusOK then (Ok (list_to_set have), w1) else (Err errors_New, w1)
  end.

(** ** What a node holds *)

(** A synced file of the given checksum and length. *)
Definition file_of (crc size : Z) (i : inode) : Prop :=
  in_synced i = true /\ crc32c (in_data i) = crc /\ zlen (in_data i) = size.

(** The name stands for a file that satisfies [Q], and so does everything it could come back
    as after a crash that leaves its directory. *)
Definition disk_all (fs : FS) (id : string) (Q : inode -> Prop) : Prop :=
  forall o, possible fs (chunkPath id) o -> exists i, o = Some i /\ Q i.
Definition disk_holds (fs : FS) (id : string) (crc size : Z) : Prop := disk_all fs id (file_of crc size).

Definition all_files (w : World) (addr id : string) (Q : inode -> Prop) : Prop :=
  exists fs, w_stores w !! addr = Some fs /\ disk_all fs id Q.
Definition holds_chunk (w : World) (addr id : string) (crc size : Z) : Prop := all_files w addr id (file_of crc size).
(** The same without the length. *)
Definition holds_sum (w : World) (addr id : string) (crc : Z) : Prop :=
  all_files w addr id (fun i => in_synced i = true /\ crc32c (in_data i) = crc).

Lemma holds_chunk_sum w addr id crc size : holds_chunk w addr id crc size -> holds_sum w addr id crc.
Proof. intros (fs & Hfs & H). exists fs. split; [done|]. intros o Ho. destruct (H o Ho) as (i & -> & ? & ? & _). eauto. Qed.

Lemma disk_holds_file fs id crc size : disk_holds fs id crc size ->
  exists i, fs_entries fs !! chunkPath id = Some i /\ crc32c (in_data i) = crc /\ zlen (in_data i) = size.
Proof. intros H. destruct (H _ (possible_now fs _)) as (i & Hi & _ & ? & ?). eauto. Qed.

(** What is held is still held after a crash that spares its directory. *)
Lemma disk_holds_crash fs fs' id crc size : disk_holds fs id crc size -> crash fs fs' ->
  stake 2 id ∈ fs_dirs fs' -> disk_holds fs' id crc size.
Proof.
  intros H Hc Hd o ->%(crash_settled _ _ _ _ Hc). destruct Hc as (_ & _ & _ & _ & _ & Hc).
  specialize (Hc (chunkPath id)). rewrite decide_True in Hc by done. destruct Hc as (o & Ho & Hb).
  destruct (H o Ho) as (i & -> & Hs & Hi). destruct Hb as (j & Hj & Hcr). exists j.
  rewrite (Hcr Hs) in *. done.
Qed.

Lemma verified_write_ok F t now fs id r crc size fs' tr :
  WriteChunkVerified F t now fs id r crc size = (None, fs', tr) -> disk_holds fs' id crc size.
Proof.
  intros Hw o Ho. destruct (verified_write_settled _ _ _ _ _ _ _ _ _ _ _ Hw Ho) as (-> & _ & ? & ?).
  by exists (new_inode now r).
Qed.

(** A verified write never takes away what a node has, at no state it passes through: every
    other name, and the same name if what was declared will do. *)
Lemma verified_write_keeps_all F t now fs id r crc size err fs' tr s x Q :
  WriteChunkVerified F t now fs id r crc size = (err, fs', tr) -> s ∈ fs' :: tr ->
  (x = id -> forall i, file_of crc size i -> Q i) -> disk_all fs x Q -> disk_all s x Q.
Proof.
  intros Hw Hs Hx H o Ho.
  destruct (verified_write_states _ _ _ _ _ _ _ _ _ _ _ s Hw Hs)
    as [(_ & Hd & _)|(_ & _ & [Hc Hz] & (_ & Hd & _))]; [auto|].
  apply Hd in Ho as [Ho|[Hp ->]]; [auto|]. exists (new_inode now r). split; [done|].
  apply Hx; [by injection Hp | done].
Qed.

(** What a call to one node does to what the nodes have, and to what they hold. *)
Definition keeps_files (w w' : World) (id : string) (crc size : Z) : Prop :=
  forall addr x Q, (x = id -> forall i, file_of crc size i -> Q i) -> all_files w addr x Q -> all_files w' addr x Q.
Definition keeps (w w' : World) (id : string) (crc size : Z) : Prop :=
  forall addr x c z, (x = id -> c = crc /\ z = size) -> holds_chunk w addr x c z -> holds_chunk w' addr x c z.

Lemma keeps_files_refl w w' id crc size : w_stores w' = w_stores w -> keeps_files w w' id crc size.
Proof. intros H addr x Q _. unfold all_files. by rewrite H. Qed.

Lemma keeps_files_keeps w w' id crc size : keeps_files w w' id crc size -> keeps w w' id crc size.
Proof. intros H addr x c z Hx. apply H. intros Hid. by destruct (Hx Hid) as [-> ->]. Qed.

Lemma keeps_refl w w' id crc size : w_stores w' = w_stores w -> keeps w w' id crc size.
Proof. intros H. by apply keeps_files_keeps, keeps_files_refl. Qed.

Lemma keeps_set_store w1 addr fs fs' id crc size : w_stores w1 !! addr = Some fs ->
  (forall x Q, (x = id -> forall i, file_of crc size i -> Q i) -> disk_all fs x Q -> disk_all fs' x Q) ->
  keeps_files w1 (set_store w1 addr fs') id crc size.
Proof.
  intros Hfs H a x Q Hx (fs0 & Ha & Hh). unfold all_files. simpl.
  destruct (decide (a = addr)) as [->|Hne].
  - rewrite lookup_insert_eq. exists fs'. split; [done|]. simplify_eq. by apply H.
  - rewrite lookup_insert_ne by done. eauto.
Qed.

Lemma local_write_files addr id src crc size w err w' :
  local_write addr id src crc size w = (err, w') ->
  w_etcd w' = w_etcd w /\ w_calls w' = S (w_calls w) /\ keeps_files w w' id crc size /\
  (err = None -> holds_chunk w' addr id crc size).
Proof.
  unfold local_write. simpl. destruct (w_stores w !! addr) as [fs|] eqn:Hfs.
  - destruct (WriteChunkVerified _ _ _ _ _ _ _ _) as [[e fs'] tr] eqn:Hw. intros [= <- <-].
    split; [done|]. split; [done|]. split.
    + intros a x Q Hx Hh. eapply (keeps_set_store _ addr fs); [exact Hfs| |exact Hx|exact Hh].
      intros y Q'. eapply verified_write_keeps_all; [exact Hw | by left].
    + intros ->. exists fs'. simpl. rewrite lookup_insert_eq. split; [done|]. by eapply verified_write_ok.
  - intros [= <- <-]. split; [done|]. split; [done|]. split; [by apply keeps_files_refl | done].
Qed.

Lemma local_write_spec addr id src crc size w err w' :
  local_write addr id src crc size w = (err, w') ->
  w_etcd w' = w_etcd w /\ w_calls w' = S (w_calls w) /\ keeps w w' id crc size /\
  (err = None -> holds_chunk w' addr id crc size).
Proof. intros (? & ? & ?%keeps_files_keeps & ?)%local_write_files. done. Qed.

Lemma declaredCRC_pad crc : 0 <= crc < 2 ^ 32 -> declaredCRC (pad_hex 8 crc) = Ok crc.
Proof.
  intros H. unfold declaredCRC. destruct (String.eqb_spec (pad_hex 8 crc) "") as [Hemp|_].
  - by apply pad_nonempty in Hemp.
  - unfold pad_hex. by rewrite ParseUint_pad by lia.
Qed.

Lemma putChunk_spec F t now fs r status fs' crc :
  declaredCRC (rq_crc r) = Ok crc -> putChunk F t now fs r = (status, fs') ->
  (status = StatusOK -> disk_holds fs' (rq_id r) crc (rq_len r)) /\
  (forall x Q, (x = rq_id r -> forall i, file_of crc (rq_len r) i -> Q i) -> disk_all fs x Q -> disk_all fs' x Q).
Proof.
  intros Hc. unfold putChunk. rewrite Hc. destruct (rq_len r <? 0); [by intros [= <- <-]|].
  destruct (WriteChunkVerified _ _ _ _ _ _ _ _) as [[e fs1] tr] eqn:Hw. intros [= <- <-]. split.
  - destruct e as [e|]; [repeat case_match; done|]. intros _. by eapply verified_write_ok.
  - intros x Q. eapply verified_write_keeps_all; [exact Hw | by left].
Qed.

Lemma PushChunk_files addr id crc size src w err w' :
  0 <= crc < 2 ^ 32 -> PushChunk addr id crc size src w = (err, w') ->
  w_etcd w' = w_etcd w /\ w_calls w' = S (w_calls w) /\ keeps_files w w' id crc size /\
  (err = None -> holds_chunk w' addr id crc size).
Proof.
  intros Hcrc. unfold PushChunk. simpl. set (r := match w_script w with [] => _ | _ => _ end).
  destruct (rf_down r); [intros [= <- <-]; split_and!; try done; by apply keeps_files_refl|].
  destruct (w_stores w !! addr) as [fs|] eqn:Hfs; [|intros [= <- <-]; split_and!; try done; by apply keeps_files_refl].
  destruct (putChunk _ _ _ _ _) as [status fs'] eqn:Hp.
  apply (putChunk_spec _ _ _ _ _ _ _ crc) in Hp as [Hok Hk]; [|by apply declaredCRC_pad]. simpl in *.
  intros H. assert (Hw' : w' = set_store (next_rpc w).2 addr fs') by (repeat case_match; simplify_eq; done).
  subst w'. split; [done|]. split; [done|]. split.
  - intros a x Q Hx Hh. eapply (keeps_set_store _ addr fs); [exact Hfs| |exact Hx|exact Hh]. auto.
  - intros ->. destruct (rf_lost r || _); [done|]. destruct (Z.eqb_spec status StatusOK); simpl in H; [|done].
    exists fs'. simpl. rewrite lookup_insert_eq. split; [done|]. by apply Hok.
Qed.

Lemma PushChunk_spec addr id crc size src w err w' :
  0 <= crc < 2 ^ 32 -> PushChunk addr id crc size src w = (err, w') ->
  w_etcd w' = w_etcd w /\ w_calls w' = S (w_calls w) /\ keeps w w' id crc size /\
  (err = None -> holds_chunk w' addr id crc size).
Proof. intros Hc (? & ? & ?%keeps_files_keeps & ?)%PushChunk_files; [|done]. done. Qed.

(** Whatever came off the disk and the wire, a fetched chunk that ends cleanly is right. *)
Lemma FetchChunk_verified addr id crc w rc w' : FetchChunk addr id crc w = (Ok rc, w') ->
  w_stores w' = w_stores w /\ (rd_end rc = None -> crc32c (rd_data rc) = crc).
Proof.
  unfold FetchChunk. simpl. set (r := match w_script w with [] => _ | _ => _ end).
  destruct (rf_down r || rf_lost r); [done|]. destruct (w_stores w !! addr) as [fs|]; [|done].
  destruct (getChunk _ _ _ _) as [status [body|]]; [|done]. destruct (status =? StatusOK); [|done].
  intros [= <- <-]. split; [done|]. unfold Verify. simpl.
  rewrite verify_crc_concat. unfold one_read. simpl. rewrite app_nil_r.
  destruct (rd_end (rf_wire r body)) as [e|].
  - by destruct (_ && _).
  - destruct (Z.eqb_spec (crc32c (rd_data (rf_wire r body))) crc); done.
Qed.

Lemma local_read_verified addr id crc w rc w' : local_read addr id crc w = (Ok rc, w') ->
  w_stores w' = w_stores w /\ (rd_end rc = None -> crc32c (rd_data rc) = crc).
Proof.
  unfold local_read. simpl. destruct (w_stores w !! addr) as [fs|]; [|done].
  unfold ReadChunk. destruct (validateID id); [done|].
  destruct (fs_entries fs !! chunkPath id) as [i|]; [|done].
  destruct (f_open _); [done|]. intros [= <- <-]. split; [done|].
  rewrite Verify_file by (intros; apply app_nil_r). simpl.
  destruct (Z.ltb_spec (zlen (upto (f_read (rf_store (match w_script w with r :: _ => r | [] => rpc_ok end))) (in_data i)))
    (zlen (in_data i))) as [|Hd]; [done|]. apply upto_whole in Hd. rewrite Hd.
  destruct (Z.eqb_spec (crc32c (in_data i)) crc); done.
Qed.
End world_ops.
