(* ===== verification/Cluster.v ===== *)
(** * The coordinator: [internal/cluster/cluster.go] and [internal/cluster/erasure.go]

    Any node coordinates any request: it maps the key to its partition's owners, places
    every chunk on them, and commits the manifest once enough copies are durable. The
    pushes of one chunk run in parallel on different nodes, so they are modelled one
    after another; what is random ([rand.Text]) is an argument. *)

From S2P Require Import Prelude GoStr Strconv Path Hash Crc Ring Ec Object Store Etcd Meta Node.

Definition Replicas : Z := 3.
Definition DefaultWriteQuorum : Z := 2.

(** ** Membership *)

Record membership := mk_membership {
  mb_peers : gmap string string;
  mb_known : gmap string string;
  mb_ring : Ring
}.

(** [cmp.Or] on strings: the first that is not empty. *)
Definition cmp_Or (a b : string) : string := if String.eqb a "" then b else a.

Definition readAddr (m : membership) (node : string) : string :=
  cmp_Or (default "" (mb_peers m !! node)) (default "" (mb_known m !! node)).

Record Coordinator := mk_Coordinator {
  c_self : string;
  c_quorum : Z;
  c_addr : string;
  c_live : option membership;
  c_chunkSize : Z;
  c_scheme : Scheme
}.

Definition sorted_keys (m : gmap string string) : list string := sort_by id (map fst (map_to_list m)).

Definition SetMembers (c : Coordinator) (peers : gmap string string) : Coordinator :=
  let next := <[c_self c := c_addr c]> peers in
  let known := match c_live c with Some was => next ∪ mb_known was | None => next end in
  mk_Coordinator (c_self c) (c_quorum c) (c_addr c)
    (Some (mk_membership next known (Ring.New (sorted_keys next) DefaultVNodes)))
    (c_chunkSize c) (c_scheme c).

Definition NewCoordinator (self addr : string) (chunkSize : Z) : Coordinator :=
  SetMembers (mk_Coordinator self DefaultWriteQuorum addr None chunkSize zeroScheme) ∅.

(** [c.live.Load()]; there is always one after [New]. *)
Definition live (c : Coordinator) : membership :=
  match c_live c with Some m => m | None => mk_membership ∅ ∅ (mk_Ring []) end.

Definition AcknowledgeAt (c : Coordinator) (w : Z) : res Coordinator :=
  if (w <? 1) || (Replicas <? w) then Err errors_New
  else Ok (mk_Coordinator (c_self c) w (c_addr c) (c_live c) (c_chunkSize c) (c_scheme c)).

Definition EncodeWith (c : Coordinator) (s : Scheme) : res Coordinator :=
  if bool_decide (s <> zeroScheme) && negb (Valid s) then Err errors_New
  else Ok (mk_Coordinator (c_self c) (c_quorum c) (c_addr c) (c_live c) (c_chunkSize c) s).

Definition width (c : Coordinator) : Z :=
  if decide (c_scheme c = zeroScheme) then Replicas else Shards (c_scheme c).

Definition redundancy (m : Manifest) : Z := if Valid (m_Coding m) then Shards (m_Coding m) else Replicas.

Definition Members (c : Coordinator) : gmap string string := mb_peers (live c).

(** [localFirst]: swap this node's own name to the front. *)
Definition localFirst (c : Coordinator) (nodes : list string) : list string :=
  match list_find (fun n => n = c_self c) nodes with
  | None | Some (O, _) => nodes
  | Some (i, self) => match nodes !! 0%nat with
                      | Some first => <[i := first]> (<[0%nat := self]> nodes)
                      | None => nodes
                      end
  end.

(** ** Options *)

(** [Trailing...] is the function that is asked once the body has been read: what it
    answers, if there is one. *)
Record PutOptions := mk_PutOptions {
  po_ContentType : string;
  po_ETag : string;
  po_Size : Z;
  po_Meta : gmap string string;
  po_MD5 : string;
  po_CRC32C : option Z;
  po_TrailingCRC32C : option (res (option Z));
  po_CRC32 : option Z;
  po_TrailingCRC32 : option (res (option Z));
  po_CRC64NVME : option Z;
  po_TrailingCRC64NVME : option (res (option Z))
}.

Record CopyOptions := mk_CopyOptions { co_Replace : bool; co_ContentType : string; co_Meta : gmap string string }.

(** The body the three checks share. *)
Definition check_declared (declared : option Z) (trailing : option (res (option Z))) (computed : option Z)
    : option error :=
  let compare declared :=
    match declared, computed with
    | Some d, Some c => if negb (d =? c) then Some [ErrBadDigest] else None
    | _, _ => None
    end in
  match trailing with
  | None => compare declared
  | Some (Err e) => Some e
  | Some (Ok v) =>
      match declared, v with
      | None, _ => compare v
      | Some d, Some t => if negb (t =? d) then Some [ErrBadDigest] else compare declared
      | Some d, None => compare declared
      end
  end.

Definition checkCRC32C (m : Manifest) (o : PutOptions) : option error :=
  check_declared (po_CRC32C o) (po_TrailingCRC32C o) (m_CRC32C m).
Definition checkCRC32 (m : Manifest) (o : PutOptions) : option error :=
  check_declared (po_CRC32 o) (po_TrailingCRC32 o) (m_CRC32 m).
Definition checkCRC64NVME (m : Manifest) (o : PutOptions) : option error :=
  check_declared (po_CRC64NVME o) (po_TrailingCRC64NVME o) (m_CRC64NVME m).

(** The fields [write] fills in, and the ones [Put] does. *)
Definition sealed (m : Manifest) (nodes : list string) (coding : Scheme) (hashed : bytes) (now : Z) : Manifest :=
  mk_Manifest (m_Size m) (hex_EncodeToString (md5 hashed)) (m_ContentType m) (now / 10 ^ 9 * 10 ^ 9)
    (m_Meta m) nodes (m_Chunks m) coding
    (Some (crc32c hashed)) (Some (crc32ieee hashed)) (Some (CRC64NVME hashed)) (m_Parts m).

Definition described (m : Manifest) (etag contentType : string) (meta : gmap string string) (modified : Z) : Manifest :=
  mk_Manifest (m_Size m) etag contentType modified meta (m_Nodes m) (m_Chunks m) (m_Coding m)
    (m_CRC32C m) (m_CRC32 m) (m_CRC64NVME m) (m_Parts m).

Section cluster.
Context {E : Type} `{!Etcd doc E} {rs : ReedSolomon} (prefix : string) (c : Coordinator).
Abbreviation World := (world E).

(** An operation of the metadata store, in the world. *)
Definition on_meta {A} (op : E -> res A * E) (w : World) : res A * World :=
  let '(r, e) := op (w_etcd w) in (r, set_etcd w e).

(** ** Placing chunks *)

Definition storeChunk (owner : string) (ref : ChunkRef) (data : bytes) (lv : membership) (w : World)
    : option error * World :=
  if String.eqb owner (c_self c) then local_write (c_addr c) (c_ID ref) (mk_reader data None) (c_CRC ref) (c_Size ref) w
  else PushChunk (default "" (mb_peers lv !! owner)) (c_ID ref) (c_CRC ref) (c_Size ref) (mk_reader data None) w.

Fixpoint store_all (owners : list string) (ref : ChunkRef) (data : bytes) (lv : membership) (w : World)
    : list (option error) * World :=
  match owners with
  | [] => ([], w)
  | o :: owners' =>
      let '(err, w1) := storeChunk o ref data lv w in
      let '(errs, w2) := store_all owners' ref data lv w1 in (err :: errs, w2)
  end.

Definition acks (errs : list (option error)) : Z := zlen (filter (fun e => e = None) errs).

Definition replicate_chunk (ref : ChunkRef) (data : bytes) (owners : list string) (lv : membership) (w : World)
    : option error * World :=
  let '(errs, w') := store_all owners ref data lv w in
  (if acks errs <? c_quorum c then Some (ErrQuorum :: default [] (errors_Join errs)) else None, w').

(** ** Placing shards *)

Definition shardSize (chunk : Z) (scheme : Scheme) : Z := (chunk + Data scheme - 1) / Data scheme.

Definition storeShard (owner : string) (ref : ChunkRef) (i : Z) (shard : bytes) (lv : membership) (w : World)
    : option error * World :=
  let id := ShardID ref i in
  let crc := default 0 (c_Shards ref !! Z.to_nat i) in
  let size := zlen shard in
  if String.eqb owner (c_self c) then local_write (c_addr c) id (mk_reader shard None) crc size w
  else PushChunk (default "" (mb_peers lv !! owner)) id crc size (mk_reader shard None) w.

Fixpoint store_shards (owners : list string) (ref : ChunkRef) (i : Z) (shards : list bytes) (lv : membership)
    (w : World) : list (option error) * World :=
  match owners, shards with
  | o :: owners', s :: shards' =>
      let '(err, w1) := storeShard o ref i s lv w in
      let '(errs, w2) := store_shards owners' ref (i + 1) shards' lv w1 in (err :: errs, w2)
  | _, _ => ([], w)
  end.

Definition with_shards (ref : ChunkRef) (shards : list Z) : ChunkRef :=
  mk_ChunkRef (c_ID ref) (c_Size ref) (c_CRC ref) shards.

Definition encode (ref : ChunkRef) (data : bytes) (owners : list string) (lv : membership) (w : World)
    : res ChunkRef * World :=
  let scheme := c_scheme c in
  if negb (zlen owners =? Shards scheme) then (Err errors_New, w)
  else match Encode scheme data with
  | Err e => (Err e, w)
  | Ok shards =>
      let ref' := with_shards ref (map crc32c shards) in
      let '(errs, w') := store_shards owners ref' 0 shards lv w in
      let want := Z.min (Data scheme + 1) (Shards scheme) in
      (if acks errs <? want then Err (ErrQuorum :: default [] (errors_Join errs)) else Ok ref', w')
  end.

(** ** Writing *)

Definition stopWriting (writing : string) (w : World) : World :=
  if String.eqb writing "" then w else (on_meta (DoneWriting prefix writing) w).2.

(** What the closure [write] hands to [object.Write] keeps: the world, the id of the
    record it took out, and everything the hashes have been given. *)
Record wstate := mk_wstate { ws_world : World; ws_writing : string; ws_hashed : bytes }.

Definition commit_chunk (owners : list string) (lv : membership) (ref : ChunkRef) (data : bytes) (σ : wstate)
    : res ChunkRef * wstate :=
  let announce := String.eqb (ws_writing σ) "" && (zlen data =? c_chunkSize c) in
  let writing := if announce then WriteID (c_ID ref) else ws_writing σ in
  let '(marked, w1) := if announce then on_meta (MarkWriting prefix writing (c_self c)) (ws_world σ)
                       else (Ok tt, ws_world σ) in
  match marked with
  | Err e => (Err e, mk_wstate w1 writing (ws_hashed σ))
  | Ok _ =>
      let hashed := ws_hashed σ ++ data in
      if decide (c_scheme c = zeroScheme) then
        let '(err, w2) := replicate_chunk ref data owners lv w1 in
        (match err with Some e => Err e | None => Ok ref end, mk_wstate w2 writing hashed)
      else
        let '(r, w2) := encode ref data owners lv w1 in (r, mk_wstate w2 writing hashed)
  end.

(** [write]; [rnd] is what [rand.Text] returned. *)
Definition write (key : string) (body : reader) (expect : Z) (rnd : string) (w : World)
    : res (Manifest * string) * World :=
  let lv := live c in
  let owners := Owners (mb_ring lv) (PartitionFor key) (width c) in
  if zlen owners =? 0 then (Err errors_New, w)
  else if bool_decide (c_scheme c <> zeroScheme) && (zlen owners <? width c) then (Err errors_New, w)
  else if bool_decide (c_scheme c = zeroScheme) && (zlen owners <? c_quorum c) then (Err [ErrQuorum], w)
  else match Write rnd (c_chunkSize c) (commit_chunk owners lv) body expect (mk_wstate w "" []) with
  | None => (Err errors_New, w)
  | Some (Err e, σ) => (Err e, stopWriting (ws_writing σ) (ws_world σ))
  | Some (Ok m, σ) =>
      (Ok (sealed m owners (c_scheme c) (ws_hashed σ) (w_now (ws_world σ)), ws_writing σ), ws_world σ)
  end.

Definition first_error (l : list (option error)) : option error := head (omap id l).

Definition Put (key : string) (body : reader) (opts : PutOptions) (rnd : string) (w : World)
    : res Manifest * World :=
  match write key body (po_Size opts) rnd w with
  | (Err e, w1) => (Err e, w1)
  | (Ok (m, writing), w1) =>
      let bad := if negb (String.eqb (po_MD5 opts) "") && negb (EqualFold (po_MD5 opts) (m_ETag m))
                 then Some [ErrBadDigest] else None in
      match first_error [bad; checkCRC32C m opts; checkCRC32 m opts; checkCRC64NVME m opts] with
      | Some e => (Err e, stopWriting writing w1)
      | None =>
          let m' := described m (cmp_Or (po_ETag opts) (m_ETag m)) (po_ContentType opts) (po_Meta opts) (m_Modified m) in
          let '(r, w2) := if String.eqb writing "" then on_meta (Commit prefix key m') w1
                          else on_meta (CommitWhileWriting prefix key m' writing) w1 in
          let w3 := stopWriting writing w2 in
          match r with Err e => (Err e, w3) | Ok _ => (Ok m', w3) end
      end
  end.

Definition ClusterDelete (key : string) (w : World) : res unit * World := on_meta (Delete prefix key) w.

Definition Copy (from to : string) (opts : CopyOptions) (w : World) : res Manifest * World :=
  match on_meta (Get prefix from) w with
  | (Err e, w1) => (Err e, w1)
  | (Ok m, w1) =>
      let m1 := described m (m_ETag m) (if co_Replace opts then co_ContentType opts else m_ContentType m)
                  (if co_Replace opts then co_Meta opts else m_Meta m) (w_now w1 / 10 ^ 9 * 10 ^ 9) in
      match on_meta (Commit prefix to m1) w1 with
      | (Err e, w2) => (Err e, w2)
      | (Ok _, w2) => (Ok m1, w2)
      end
  end.

Definition Resolve (key : string) (w : World) : res Manifest * World := on_meta (Get prefix key) w.

(** ** Reading *)

(** One node's copy, wherever it is: this disk, or an address it is or was known at. *)
Definition read_from (node id : string) (crc : Z) (w : World) : res reader * World :=
  if String.eqb node (c_self c) then local_read (c_addr c) id crc w
  else let addr := readAddr (live c) node in
       if String.eqb addr "" then (Err errors_New, w) else FetchChunk addr id crc w.

Fixpoint fetch_loop (ref : ChunkRef) (nodes : list string) (errs : error) (w : World) : res reader * World :=
  match nodes with
  | [] => (Err errs, w)
  | n :: nodes' =>
      match read_from n (c_ID ref) (c_CRC ref) w with
      | (Ok rc, w1) => (Ok rc, w1)
      | (Err e, w1) => fetch_loop ref nodes' (errs ++ e) w1
      end
  end.

Definition fetch (ref : ChunkRef) (nodes : list string) (w : World) : res reader * World :=
  fetch_loop ref (localFirst c nodes) [] w.

Definition fetchShard (ref : ChunkRef) (i : Z) (node : string) (size : Z) (w : World) : res bytes * World :=
  let crc := default 0 (c_Shards ref !! Z.to_nat i) in
  match read_from node (ShardID ref i) crc w with
  | (Err e, w1) => (Err e, w1)
  | (Ok rc, w1) =>
      (match io_ReadFull rc size with
       | (_, Some e, _) => Err e
       | (d, None, r') =>
           match rd_data r', rd_end r' with
           | [], None => Ok d
           | [], Some e => if errors_Is e EOF then Ok d else Err e
           | _ :: _, _ => Err errors_New
           end
       end, w1)
  end.

(** [gather] over the slots [from, from + 1, ...]: a slot that is filled is left alone,
    one that cannot be fetched stays empty. *)
Fixpoint gather (ref : ChunkRef) (nodes : list string) (slots : list (option bytes)) (size from to i : Z) (w : World)
    : list (option bytes) * error * World :=
  match nodes, slots with
  | n :: nodes', s :: slots' =>
      let '(s', e, w1) :=
        if (from <=? i) && (i <? to) then
          match s with
          | Some d => (Some d, [], w)
          | None => match fetchShard ref i n size w with
                    | (Ok d, w1) => (Some d, [], w1)
                    | (Err e, w1) => (None, e, w1)
                    end
          end
        else (s, [], w) in
      let '(rest, es, w2) := gather ref nodes' slots' size from to (i + 1) w1 in
      (s' :: rest, e ++ es, w2)
  | _, _ => (slots, [], w)
  end.

Definition decode (ref : ChunkRef) (nodes : list string) (scheme : Scheme) (w : World) : res bytes * World :=
  if negb (zlen nodes =? Shards scheme) || negb (zlen (c_Shards ref) =? Shards scheme)
  then (Err errors_New, w)
  else
    let size := shardSize (c_Size ref) scheme in
    let none := replicate (Z.to_nat (Shards scheme)) None in
    let '(slots, e1, w1) := gather ref nodes none size 0 (Data scheme) 0 w in
    let '(slots', e2, w2) := if bool_decide (None ∈ slots)
                             then gather ref nodes slots size (Data scheme) (Shards scheme) 0 w1
                             else (slots, [], w1) in
    (match Reconstruct scheme slots' (c_Size ref) with
     | Err e => Err (e1 ++ e2 ++ e)
     | Ok (chunk, _) => if negb (crc32c chunk =? c_CRC ref) then Err errors_New else Ok chunk
     end, w2).

Definition chunk (m : Manifest) (ref : ChunkRef) (w : World) : res reader * World :=
  if decide (m_Coding m = zeroScheme) then fetch ref (m_Nodes m) w
  else match decode ref (m_Nodes m) (m_Coding m) w with
       | (Ok d, w1) => (Ok (mk_reader d None), w1)
       | (Err e, w1) => (Err e, w1)
       end.

Definition Stream (m : Manifest) (out : writer) (w : World) : option error * writer * World :=
  Read one_read (chunk m) m out w.

Definition StreamRange (m : Manifest) (out : writer) (off length_ : Z) (w : World) : option error * writer * World :=
  ReadRange one_read (chunk m) m out off length_ w.

(** ** Restoring shards *)

Fixpoint place_shards (to_ : list string) (ref : ChunkRef) (missing : list Z) (slots : list (option bytes))
    (lv : membership) (w : World) : error * bool * World :=
  match missing with
  | [] => ([], true, w)
  | i :: missing' =>
      let shard := default [] (default None (slots !! Z.to_nat i)) in
      let '(err, w1) := storeShard (default "" (to_ !! Z.to_nat i)) ref i shard lv w in
      let '(es, ok, w2) := place_shards to_ ref missing' slots lv w1 in
      match err with Some e => (e ++ es, false, w2) | None => (es, ok, w2) end
  end.

Definition restoreShards (ref : ChunkRef) (from to_ : list string) (missing : list Z) (scheme : Scheme)
    (lv : membership) (w : World) : option error * World :=
  let none := replicate (Z.to_nat (Shards scheme)) None in
  let '(slots, _, w1) := gather ref from none (shardSize (c_Size ref) scheme) 0 (Shards scheme) 0 w in
  match Reconstruct scheme slots (c_Size ref) with
  | Err e => (Some e, w1)
  | Ok (_, slots') =>
      let '(es, ok, w2) := place_shards to_ ref missing slots' lv w1 in
      (if ok then None else Some es, w2)
  end.

(** [verifyLocalShard]: whether it is here, how much of it was read, and the error. *)
Definition verifyLocalShard (ref : ChunkRef) (i : Z) (w : World) : (bool * Z * option error) * World :=
  let id := ShardID ref i in
  match local_has (c_addr c) id w with
  | (Err e, w1) => ((false, 0, Some e), w1)
  | (Ok false, w1) => ((false, 0, None), w1)
  | (Ok true, w1) =>
      match local_read (c_addr c) id (default 0 (c_Shards ref !! Z.to_nat i)) w1 with
      | (Err e, w2) => ((true, 0, Some e), w2)
      | (Ok rc, w2) => ((true, zlen (rd_data rc), drain rc), w2)
      end
  end.
(** ** The client handlers of [internal/api/api.go] *)

(** [put] on [/objects/{key...}]: the status and, with 200, the size it reports. *)
Definition api_put (key : string) (body : reader) (contentLength : Z) (rnd : string) (w : World)
    : Z * string * World :=
  if String.eqb key "" then (StatusBadRequest, "", w)
  else match Put key body (mk_PutOptions "" "" contentLength ∅ "" None None None None None None) rnd w with
  | (Err e, w1) => (if errors_Is e ErrQuorum then StatusServiceUnavailable else StatusInternalServerError, "", w1)
  | (Ok m, w1) => (StatusOK, Itoa (m_Size m), w1)
  end.

(** [get]: the status, the [Content-Length] promised and what was sent. An error once the
    body has begun only cuts it short. *)
Definition api_get (key : string) (out : writer) (w : World) : Z * string * writer * World :=
  match Resolve key w with
  | (Err e, w1) =>
      (if errors_Is e MetaErrNotFound then StatusNotFound else StatusInternalServerError, "", out, w1)
  | (Ok m, w1) =>
      let '(_, out', w2) := Stream m out w1 in (StatusOK, Itoa (m_Size m), out', w2)
  end.
End cluster.
Arguments mk_wstate {_} _ _ _.
Arguments ws_world {_} _.
Arguments ws_writing {_} _.
Arguments ws_hashed {_} _.

(** ** What a write leaves on the nodes *)

(** What [SetMembers] maintains: the ring is one of the live nodes. *)
Definition coordinator_ok (c : Coordinator) : Prop :=
  exists nodes k, 1 <= k /\ mb_ring (live c) = Ring.New nodes k.

Lemma SetMembers_ok c peers : coordinator_ok (SetMembers c peers).
Proof. unfold coordinator_ok, SetMembers, live. simpl. do 2 eexists. split; [|reflexivity]. done. Qed.

Lemma crc32c_range d : 0 <= crc32c d < 2 ^ 32.
Proof. apply Checksum_width; [lia | vm_compute; split; [discriminate | reflexivity]]. Qed.

Section placement.
Context {E : Type} `{!Etcd doc E} {rs : ReedSolomon} (prefix : string) (c : Coordinator).
Abbreviation World := (world E).

(** Where the coordinator reaches a node it places on. *)
Definition place_addr (lv : membership) (node : string) : string :=
  if String.eqb node (c_self c) then c_addr c else default "" (mb_peers lv !! node).

(** At least [q] different ones of [owners] hold the chunk, durably and as declared. *)
Definition on_quorum (lv : membership) (w : World) (owners : list string) (q : Z) (ref : ChunkRef) : Prop :=
  exists acked, sublist acked owners /\ q <= zlen acked /\
    forall o, o ∈ acked -> holds_chunk w (place_addr lv o) (c_ID ref) (c_CRC ref) (c_Size ref).

Lemma keeps_trans w1 w2 w3 id crc size :
  keeps w1 w2 id crc size -> keeps w2 w3 id crc size -> keeps (w1 : World) w3 id crc size.
Proof. unfold keeps. eauto. Qed.

Lemma storeChunk_spec o ref data lv w err w' :
  0 <= c_CRC ref < 2 ^ 32 -> storeChunk c o ref data lv w = (err, w') ->
  w_etcd w' = w_etcd (w : World) /\ keeps w w' (c_ID ref) (c_CRC ref) (c_Size ref) /\
  (err = None -> holds_chunk w' (place_addr lv o) (c_ID ref) (c_CRC ref) (c_Size ref)).
Proof.
  intros Hc. unfold storeChunk, place_addr. destruct (String.eqb o (c_self c)).
  - intros H. apply local_write_spec in H as (? & _ & ? & ?). done.
  - intros H. apply PushChunk_spec in H as (? & _ & ? & ?); done.
Qed.

Lemma store_all_spec ref data lv : 0 <= c_CRC ref < 2 ^ 32 -> forall owners w errs w',
  store_all c owners ref data lv w = (errs, w') ->
  w_etcd w' = w_etcd (w : World) /\ keeps w w' (c_ID ref) (c_CRC ref) (c_Size ref) /\
  exists acked, sublist acked owners /\ zlen acked = acks errs /\
    forall o, o ∈ acked -> holds_chunk w' (place_addr lv o) (c_ID ref) (c_CRC ref) (c_Size ref).
Proof.
  intros Hc owners. induction owners as [|o owners IH]; intros w errs w'; simpl.
  - intros [= <- <-]. split; [done|]. split; [by apply keeps_refl|]. exists []. split_and!; try done.
    intros o Ho. by apply elem_of_nil in Ho.
  - destruct (storeChunk c o ref data lv w) as [err w1] eqn:Hs.
    destruct (store_all c owners ref data lv w1) as [errs1 w2] eqn:Hr. intros [= <- <-].
    apply storeChunk_spec in Hs as (He1 & Hk1 & Hh); [|done].
    apply IH in Hr as (He2 & Hk2 & acked & Hsub & Hlen & Hall).
    split; [congruence|]. split; [by eapply keeps_trans|]. unfold acks in *. rewrite filter_cons.
    case_decide as Hd.
    + exists (o :: acked). split; [by constructor|]. split; [rewrite !zlen_cons; lia|].
      intros x [->|Hx]%elem_of_cons; [|auto]. apply Hk2; auto.
    + exists acked. split; [by constructor|]. done.
Qed.

Lemma replicate_spec ref data owners lv w err w' :
  0 <= c_CRC ref < 2 ^ 32 -> replicate_chunk c ref data owners lv w = (err, w') ->
  w_etcd w' = w_etcd (w : World) /\ keeps w w' (c_ID ref) (c_CRC ref) (c_Size ref) /\
  match err with
  | None => on_quorum lv w' owners (c_quorum c) ref
  | Some e => ErrQuorum ∈ e
  end.
Proof.
  intros Hc. unfold replicate_chunk. destruct (store_all c owners ref data lv w) as [errs w1] eqn:Hs.
  intros [= <- <-]. apply store_all_spec in Hs as (He & Hk & acked & Hsub & Hlen & Hall); [|done].
  split; [done|]. split; [done|]. destruct (Z.ltb_spec (acks errs) (c_quorum c)); [by constructor|].
  exists acked. split; [done|]. split; [lia | done].
Qed.

(** A chunk stays where it was put while other chunks are written. *)
Lemma on_quorum_keeps lv w w' owners q ref id crc size :
  c_ID ref <> id -> keeps w w' id crc size -> on_quorum lv w owners q ref -> on_quorum lv w' owners q ref.
Proof.
  intros Hne Hk (acked & Hsub & Hq & Hall). exists acked. split; [done|]. split; [done|].
  intros o Ho. apply Hk; [done|]. auto.
Qed.

Lemma on_quorum_stores lv (w w' : World) owners q ref :
  w_stores w' = w_stores w -> on_quorum lv w owners q ref -> on_quorum lv w' owners q ref.
Proof.
  intros Hs (acked & Hsub & Hq & Hall). exists acked. split; [done|]. split; [done|].
  intros o Ho. unfold holds_chunk, all_files. rewrite Hs. by apply Hall.
Qed.
End placement.

Section write_facts.
Context {E : Type} `{!Etcd doc E} `{!EtcdLaws doc E} {rs : ReedSolomon} (prefix : string) (c : Coordinator).
Context (Hrep : c_scheme c = zeroScheme).
Abbreviation World := (world E).

Definition objects_same (w w' : World) : Prop :=
  forall j, lookup_obj prefix (w_etcd w') j = lookup_obj prefix (w_etcd w) j.

Lemma objects_same_refl (w w' : World) : w_etcd w' = w_etcd w -> objects_same w w'.
Proof. intros H j. by rewrite H. Qed.

Lemma MarkWriting_objects id node (w w' : World) r : plain_elem id = true ->
  on_meta (MarkWriting prefix id node) w = (r, w') -> w_stores w' = w_stores w /\ objects_same w w'.
Proof.
  intros Hid. unfold on_meta. destruct (MarkWriting prefix id node (w_etcd w)) as [r1 e] eqn:H.
  intros [= <- <-]. split; [done|]. intros j. simpl. unfold MarkWriting in H.
  meta_cases H; keeps_objects (KWriting id).
Qed.

Lemma stopWriting_objects id (w : World) : id = "" \/ plain_elem id = true ->
  w_stores (stopWriting prefix id w) = w_stores w /\ objects_same w (stopWriting prefix id w).
Proof.
  intros Hid. unfold stopWriting. destruct (String.eqb_spec id "") as [->|Hne]; [done|].
  assert (Hp : plain_elem id = true) by tauto. unfold on_meta.
  destruct (DoneWriting prefix id (w_etcd w)) as [r e] eqn:H. split; [done|]. intros j. simpl.
  unfold DoneWriting in H. meta_cases H; keeps_objects (KWriting id).
Qed.

(** The id of the record is the write's own random prefix, or none was taken out. *)
Definition writing_ok (rnd writing : string) : Prop := writing = "" \/ writing = rnd.

Lemma commit_chunk_spec owners lv rnd i d σ out σ' :
  plain_elem rnd = true -> 0 <= i -> writing_ok rnd (ws_writing σ) -> i = 0 \/ ws_writing σ = rnd ->
  commit_chunk prefix c owners lv (chunk_ref rnd i d) d σ = (out, σ') ->
  objects_same (ws_world σ) (ws_world σ') /\ writing_ok rnd (ws_writing σ') /\
  (zlen d = c_chunkSize c -> ws_writing σ' = rnd) /\
  keeps (ws_world σ) (ws_world σ') (c_ID (chunk_ref rnd i d)) (crc32c d) (zlen d) /\
  forall ref, out = Ok ref -> ref = chunk_ref rnd i d /\ ws_hashed σ' = ws_hashed σ ++ d /\
    on_quorum c lv (ws_world σ') owners (c_quorum c) ref.
Proof.
  intros Hrnd Hi Hw Hfirst. unfold commit_chunk.
  assert (Hne : rnd <> "") by (by apply plain_elem_spec in Hrnd as (? & _)).
  set (announce := String.eqb (ws_writing σ) "" && (zlen d =? c_chunkSize c)).
  set (writing := if announce then WriteID _ else ws_writing σ).
  assert (Hpl : announce = true -> WriteID (c_ID (chunk_ref rnd i d)) = rnd).
  { unfold announce. intros [Ha _]%andb_true_iff. apply String.eqb_eq in Ha.
    destruct Hfirst as [->|?]; [by apply WriteID_chunk | congruence]. }
  assert (Hw' : writing_ok rnd writing).
  { unfold writing. destruct announce; [right; auto | done]. }
  assert (Hfull : zlen d = c_chunkSize c -> writing = rnd).
  { intros Hd. unfold writing. destruct announce eqn:Ha; [auto|].
    unfold announce in Ha. rewrite Hd, Z.eqb_refl, andb_true_r in Ha. apply String.eqb_neq in Ha.
    by destruct Hw. }
  destruct (if announce then on_meta _ _ else _) as [marked w1] eqn:Hm.
  assert (Hm1 : w_stores w1 = w_stores (ws_world σ) /\ objects_same (ws_world σ) w1).
  { destruct announce; [|by simplify_eq].
    eapply MarkWriting_objects; [|exact Hm]. unfold writing. by rewrite Hpl. }
  destruct Hm1 as [Hs1 Ho1]. destruct marked as [[]|e].
  - rewrite decide_True by done.
    destruct (replicate_chunk c (chunk_ref rnd i d) d owners lv w1) as [err w2] eqn:Hr.
    intros [= <- <-]. apply replicate_spec in Hr as (He & Hk & Hq); [|apply crc32c_range]. simpl.
    split; [intros j; rewrite He; apply Ho1|]. split; [done|]. split; [done|]. split.
    { eapply keeps_trans; [apply keeps_refl; exact Hs1|]. exact Hk. }
    intros ref Href. destruct err; [done|]. by simplify_eq.
  - intros [= <- <-]. simpl. split_and!; try done. by apply keeps_refl.
Qed.

(** Every chunk of a successful run of commits is on a quorum when the run is over. *)
Lemma committed_on_quorum owners lv rnd i l σ σ' :
  plain_elem rnd = true -> 0 <= i -> pieces_ok (c_chunkSize c) (map snd l) ->
  writing_ok rnd (ws_writing σ) -> i = 0 \/ ws_writing σ = rnd ->
  committed rnd (commit_chunk prefix c owners lv) i l σ σ' ->
  objects_same (ws_world σ) (ws_world σ') /\ writing_ok rnd (ws_writing σ') /\
  ws_hashed σ' = ws_hashed σ ++ concat (map snd l) /\
  Forall (fun p => c_CRC p.1 = crc32c p.2 /\ c_Size p.1 = zlen p.2 /\
            on_quorum c lv (ws_world σ') owners (c_quorum c) p.1) l /\
  (forall ref q, (forall k, i <= k -> forall d, c_ID ref <> c_ID (chunk_ref rnd k d)) ->
     on_quorum c lv (ws_world σ) owners q ref -> on_quorum c lv (ws_world σ') owners q ref).
Proof.
  intros Hrnd Hi Hp Hw Hf H. revert Hi Hp Hw Hf.
  induction H as [i σ|i ref d l σ σ1 σ2 Hc Hl IH]; intros Hi Hp Hw Hf.
  { split_and!; try done. by rewrite app_nil_r. }
  simpl in Hp. apply pieces_ok_inv in Hp as [Hp Hfull].
  apply commit_chunk_spec in Hc as (Ho & Hw1 & Hw1f & Hk & Hok); [|done..].
  destruct (Hok ref eq_refl) as (-> & Hh & Hq).
  assert (HIH : objects_same (ws_world σ1) (ws_world σ2) /\ writing_ok rnd (ws_writing σ2) /\
    ws_hashed σ2 = ws_hashed σ1 ++ concat (map snd l) /\
    Forall (fun p => c_CRC p.1 = crc32c p.2 /\ c_Size p.1 = zlen p.2 /\
              on_quorum c lv (ws_world σ2) owners (c_quorum c) p.1) l /\
    (forall ref q, (forall k, i + 1 <= k -> forall d, c_ID ref <> c_ID (chunk_ref rnd k d)) ->
       on_quorum c lv (ws_world σ1) owners q ref -> on_quorum c lv (ws_world σ2) owners q ref)).
  { destruct l as [|p l].
    - inversion Hl; subst. split_and!; try done. by rewrite app_nil_r.
    - apply IH; [lia | done | done |]. right. by apply Hw1f, Hfull. }
  destruct HIH as (Ho2 & Hw2 & Hh2 & HF & Hkeep).
  split; [intros j; rewrite Ho2; apply Ho|]. split; [done|].
  split; [simpl; by rewrite Hh2, Hh, <- app_assoc|]. split.
  - constructor; [|done]. simpl. split; [done|]. split; [done|]. apply Hkeep; [|done].
    intros k Hk' d' Heq. apply chunk_ID_inj in Heq; lia.
  - intros ref q Hne Hqr. apply Hkeep; [intros k Hk' d'; apply Hne; lia|].
    eapply on_quorum_keeps; [|exact Hk|exact Hqr]. apply Hne. lia.
Qed.

Context (Hc : coordinator_ok c).

Definition write_owners (key : string) : list string := Owners (mb_ring (live c)) (PartitionFor key) (width c).

Lemma write_owners_NoDup key : NoDup (write_owners key).
Proof.
  destruct Hc as (nodes & k & Hk & Hl). unfold write_owners, width. rewrite Hl, decide_True by done.
  by apply Owners_facts.
Qed.

(** What the manifest of a body stored on [owners] says, and that the nodes bear it out. *)
Definition stored (w : World) (owners : list string) (data : bytes) (m : Manifest) : Prop :=
  m_Nodes m = owners /\ m_Coding m = zeroScheme /\ m_Size m = zlen data /\
  m_CRC32C m = Some (crc32c data) /\ m_CRC32 m = Some (crc32ieee data) /\
  m_CRC64NVME m = Some (CRC64NVME data) /\
  exists pieces, concat pieces = data /\
    Forall2 (fun ref d => c_CRC ref = crc32c d /\ c_Size ref = zlen d /\
               on_quorum c (live c) w owners (c_quorum c) ref) (m_Chunks m) pieces.

Lemma stored_stores (w w' : World) owners data m :
  w_stores w' = w_stores w -> stored w owners data m -> stored w' owners data m.
Proof.
  intros Hs (? & ? & ? & ? & ? & ? & ps & Hps & HF). split_and!; try done. exists ps. split; [done|].
  eapply Forall2_impl; [done|]. intros ref d (? & ? & ?). split_and!; try done. by eapply on_quorum_stores.
Qed.

Lemma write_Ok key body expect rnd w m writing w' : plain_elem rnd = true ->
  write prefix c key body expect rnd w = (Ok (m, writing), w') ->
  objects_same w w' /\ writing_ok rnd writing /\ stored w' (write_owners key) (rd_data body) m /\
  m_ETag m = hex_EncodeToString (md5 (rd_data body)).
Proof.
  intros Hrnd. unfold write. fold (write_owners key).
  destruct (_ =? 0); [done|]. destruct (_ && _); [done|]. destruct (_ && _); [done|].
  destruct (Write _ _ _ _ _ _) as [[[m0|e] σ]|] eqn:Hw; [|done..]. intros [= <- <- <-].
  assert (Hcs : 0 < c_chunkSize c) by (unfold Write in Hw; destruct (Z.leb_spec (c_chunkSize c) 0); [done | lia]).
  rewrite Write_spec_eq in Hw by done. apply write_spec_committed in Hw as (l & Hl & Hd & Hp & ->); [|done].
  apply committed_on_quorum in Hl as (Ho & Hwr & Hh & HF & _); [|done|lia|done|by left|by left].
  simpl in Hh. rewrite Hd in Hh. rewrite Hh. split; [done|]. split; [done|]. split; [|done].
  split_and!; try done.
  - simpl. change (foldr _ 0 (map fst l)) with (sizes (map fst l)). rewrite sizes_pairs, Hd; [done|].
    eapply Forall_impl; [exact HF|]. by intros p (_ & ? & _).
  - exists (map snd l). split; [done|]. simpl. clear -HF.
    induction HF as [|p l Hp HF IH]; constructor; done.
Qed.

Lemma write_Err key body expect rnd w e w' : plain_elem rnd = true ->
  write prefix c key body expect rnd w = (Err e, w') -> objects_same w w'.
Proof.
  intros Hrnd. unfold write. fold (write_owners key).
  destruct (_ =? 0); [by intros [= _ <-]|]. destruct (_ && _); [by intros [= _ <-]|].
  destruct (_ && _); [by intros [= _ <-]|].
  destruct (Write _ _ _ _ _ _) as [[[m0|e0] σ]|] eqn:Hw; [done| |by intros [= _ <-]].
  intros [= <- <-].
  assert (HJ : objects_same w (ws_world σ) /\ writing_ok rnd (ws_writing σ)).
  { destruct (Z.leb_spec (c_chunkSize c) 0) as [Hle|Hcs].
    { unfold Write in Hw. rewrite (proj2 (Z.leb_le _ _) Hle) in Hw. simplify_eq. split; [done | by left]. }
    rewrite Write_spec_eq in Hw by done.
    refine (write_spec_invariant rnd (c_chunkSize c) Hcs (commit_chunk prefix c (write_owners key) (live c))
      (fun i σ => 0 <= i /\ (i = 0 \/ ws_writing σ = rnd) /\
         objects_same w (ws_world σ) /\ writing_ok rnd (ws_writing σ))
      (fun σ => objects_same w (ws_world σ) /\ writing_ok rnd (ws_writing σ)) _ _ _ _ _ _ _ _ _ _ _ Hw).
    - by intros i σ0 (_ & _ & ? & ?).
    - intros i d σ0 out σ1 (Hi & Hf & Ho & Hwr) Hcm.
      apply commit_chunk_spec in Hcm as (Ho1 & Hw1 & Hwf & _); [|done..].
      assert (objects_same w (ws_world σ1)) by (intros j; rewrite Ho1; apply Ho).
      split; [done|]. intros _ Hd. split; [lia|]. split; [right; auto | done].
    - split; [lia|]. split; [by left|]. split; [done | by left]. }
  destruct HJ as [Ho Hwr]. destruct (stopWriting_objects (ws_writing σ) (ws_world σ)) as [_ Hs].
  { destruct Hwr as [->|Hr]; [by left | right; by rewrite Hr]. }
  intros j. rewrite Hs. apply Ho.
Qed.

(** The object map after a manifest was committed, as JSON keeps it. *)
Definition object_set (w w' : World) (key : string) (m : Manifest) : Prop :=
  forall j, lookup_obj prefix (w_etcd w') j
    = if decide (j = key) then Ok (json_manifest m) else lookup_obj prefix (w_etcd w) j.

(** The write that stores [m] took effect between [w] and [w'], and the client was told [e]. *)
Definition answer_lost (w w' : World) (key : string) (m : Manifest) (e : error) : Prop :=
  exists o, (o = OpPut (Meta.key prefix key) (DManifest (json_manifest m)) \/
             exists ifs, o = OpTxn ifs (Meta.key prefix key) (DManifest (json_manifest m))) /\
    e_write o (w_etcd w) = (Err e, w_etcd w') /\
    e_state (w_etcd w') = put (e_state (w_etcd w)) (Meta.key prefix key) (DManifest (json_manifest m)).

(** [w'] has [m] under [key], though the one write that put it there reported [e]. *)
Definition committed_unanswered (w w' : World) (key : string) (m : Manifest) (e : error) : Prop :=
  exists w1 w2, objects_same w w1 /\ answer_lost w1 w2 key m e /\ objects_same w2 w' /\ object_set w w' key m.

Lemma put_object_set (w w' : World) key m :
  e_state (w_etcd w') = put (e_state (w_etcd w)) (Meta.key prefix key) (DManifest (json_manifest m)) ->
  object_set w w' key m.
Proof. intros Hs j. unfold lookup_obj. rewrite Hs, put_object. by case_decide. Qed.

Lemma object_set_around (w w1 w2 w' : World) key m :
  objects_same w w1 -> object_set w1 w2 key m -> objects_same w2 w' -> object_set w w' key m.
Proof. intros H1 H H2 j. rewrite H2, H. case_decide; [done | apply H1]. Qed.

Lemma answer_lost_around (w w1 w2 w' : World) key m e :
  objects_same w w1 -> answer_lost w1 w2 key m e -> objects_same w2 w' -> committed_unanswered w w' key m e.
Proof.
  intros H1 H H2. exists w1, w2. split_and!; try done.
  eapply object_set_around; [exact H1 | | exact H2]. destruct H as (o & _ & _ & Hs). by apply put_object_set.
Qed.

Lemma commit_objects key m writing (w w' : World) r :
  (if String.eqb writing "" then on_meta (Commit prefix key m) w
   else on_meta (CommitWhileWriting prefix key m writing) w) = (r, w') ->
  w_stores w' = w_stores w /\
  match r with
  | Ok _ => object_set w w' key m
  | Err e => objects_same w w' \/ answer_lost w w' key m e
  end.
Proof.
  assert (Hsame : forall e, e_state e = e_state (w_etcd w) -> objects_same w (set_etcd w e))
    by (intros e He j; by apply lookup_obj_state).
  destruct (String.eqb writing ""); unfold on_meta.
  - destruct (Commit prefix key m (w_etcd w)) as [r1 e] eqn:H. intros [= <- <-]. split; [done|].
    unfold Commit in H. meta_cases H; pose proof (e_write_law _ _ _ _ Hc0) as Hl.
    + apply put_object_set. simpl in Hl. injection Hl as _ Hs. exact Hs.
    + destruct Hl as [-> [Hs|Hs]]; [left; auto|]. right. eexists. split; [by left|]. split; [exact Hc0 | exact Hs].
  - destruct (CommitWhileWriting prefix key m writing (w_etcd w)) as [r1 e] eqn:H.
    intros [= <- <-]. split; [done|]. unfold CommitWhileWriting, whileWriting in H.
    meta_cases H; pose proof (e_write_law _ _ _ _ Hc0) as Hl.
    + apply txn_true in Hl as [_ Hs]. by apply put_object_set.
    + apply txn_false in Hl as [_ Hs]. left. auto.
    + destruct Hl as [-> [Hs|Hs]]; [left; auto|]. simpl in Hs.
      destruct (bool_decide _ && true); simpl in Hs; [|left; auto].
      right. eexists. split; [right; by eexists|]. split; [exact Hc0 | exact Hs].
Qed.

(** The body has every digest its client declared, in a header or a trailer. *)
Definition declared_match (opts : PutOptions) (d : bytes) : Prop :=
  (po_MD5 opts = "" \/ EqualFold (po_MD5 opts) (hex_EncodeToString (md5 d)) = true) /\
  (forall x, po_CRC32C opts = Some x \/ po_TrailingCRC32C opts = Some (Ok (Some x)) -> x = crc32c d) /\
  (forall x, po_CRC32 opts = Some x \/ po_TrailingCRC32 opts = Some (Ok (Some x)) -> x = crc32ieee d) /\
  (forall x, po_CRC64NVME opts = Some x \/ po_TrailingCRC64NVME opts = Some (Ok (Some x)) -> x = CRC64NVME d).

(** A declared checksum that is not the computed one is caught, wherever it was declared. *)
Lemma check_declared_bad decl tr x d : decl = Some d \/ tr = Some (Ok (Some d)) ->
  check_declared decl tr (Some x) = None -> d = x.
Proof.
  intros Hd. unfold check_declared.
  destruct tr as [[[t|]|]|], decl as [d'|]; destruct Hd as [Hd|Hd]; simplify_eq; zbool; try done; intros; lia.
Qed.

Lemma first_error_None l : first_error l = None -> Forall (fun o => o = None) l.
Proof. unfold first_error. induction l as [|[e|] l IH]; simpl; [constructor | done |]. intros H. constructor; auto. Qed.

Lemma put_checks_match w owners d m opts bad :
  stored w owners d m -> m_ETag m = hex_EncodeToString (md5 d) ->
  (bad = if negb (String.eqb (po_MD5 opts) "") && negb (EqualFold (po_MD5 opts) (m_ETag m))
         then Some [ErrBadDigest] else None) ->
  first_error [bad; checkCRC32C m opts; checkCRC32 m opts; checkCRC64NVME m opts] = None ->
  declared_match opts d.
Proof.
  intros (_ & _ & _ & H1 & H2 & H3 & _) Het -> Hf. apply first_error_None in Hf.
  repeat match goal with H : Forall _ (_ :: _) |- _ => apply Forall_cons in H as [? H] end.
  unfold checkCRC32C, checkCRC32, checkCRC64NVME in *. rewrite H1, H2, H3, Het in *.
  split_and!; [|intros x Hx; by eapply check_declared_bad..].
  destruct (String.eqb_spec (po_MD5 opts) "") as [|Hne]; [by left|]. right.
  by destruct (EqualFold _ _).
Qed.

(** Both outcomes of [Put] in one place. *)
Lemma Put_cases key body opts rnd w r w' : plain_elem rnd = true ->
  Put prefix c key body opts rnd w = (r, w') ->
  match r with
  | Ok m => object_set w w' key m /\ stored w' (write_owners key) (rd_data body) m /\ declared_match opts (rd_data body)
  | Err e => objects_same w w' \/
      exists m, committed_unanswered w w' key m e /\ stored w' (write_owners key) (rd_data body) m /\
        declared_match opts (rd_data body)
  end.
Proof.
  intros Hrnd. unfold Put. destruct (write _ _ _ _ _ _ _) as [[[m writing]|e] w1] eqn:Hw.
  2: { intros [= <- <-]. left. by eapply write_Err. }
  apply write_Ok in Hw as (Ho & Hwr & Hst & Het); [|done].
  assert (Hwo : writing = "" \/ plain_elem writing = true) by (destruct Hwr as [->| ->]; auto).
  destruct (first_error _) as [e|] eqn:Hf.
  { intros [= <- <-]. left. destruct (stopWriting_objects writing w1 Hwo) as [_ Hs].
    intros j. rewrite Hs. apply Ho. }
  eapply put_checks_match in Hf; [|exact Hst|exact Het|reflexivity].
  set (m' := described m _ _ _ _).
  destruct (if String.eqb writing "" then _ else _) as [r1 w2] eqn:Hcm.
  apply commit_objects in Hcm as [Hs2 Hres].
  destruct (stopWriting_objects writing w2 Hwo) as [Hs3 Ho3].
  assert (Hst' : stored (stopWriting prefix writing w2) (write_owners key) (rd_data body) m').
  { eapply (stored_stores w1); [congruence|]. exact Hst. }
  destruct r1 as [[]|e]; intros [= <- <-].
  - split; [|done]. eapply object_set_around; [exact Ho | exact Hres | exact Ho3].
  - destruct Hres as [Hsame|Hres]; [left; intros j; rewrite Ho3, Hsame; apply Ho | right].
    exists m'. split; [|done]. eapply answer_lost_around; [exact Ho | exact Hres | exact Ho3].
Qed.

(** What [Put] fills in itself. *)
Lemma Put_described key body opts rnd w m w' : plain_elem rnd = true ->
  Put prefix c key body opts rnd w = (Ok m, w') ->
  m_ETag m = cmp_Or (po_ETag opts) (hex_EncodeToString (md5 (rd_data body))) /\
  m_ContentType m = po_ContentType opts /\ m_Meta m = po_Meta opts.
Proof.
  intros Hrnd. unfold Put. destruct (write _ _ _ _ _ _ _) as [[[m0 writing]|e] w1] eqn:Hw; [|done].
  apply write_Ok in Hw as (_ & _ & _ & Het); [|done]. destruct (first_error _) as [e|]; [done|].
  destruct (if String.eqb writing "" then _ else _) as [[[]|e] w2]; [|done]. intros [= <- _]. cbn. by rewrite Het.
Qed.
End write_facts.

(** ** The claims *)

Section put_claims.
Context {E : Type} `{!Etcd doc E} `{!EtcdLaws doc E} {rs : ReedSolomon} (prefix : string) (c : Coordinator).
Abbreviation World := (world E).

(** C2: an acknowledged [Put] of a coordinator that replicates is durable and complete.
    When [Put] returns a manifest, in a cluster where any call may have failed, lost its
    reply or had its body altered on the wire: the manifest is committed under the key, as
    JSON keeps it, and no other key changed; its checksums are the body's and every digest
    the client declared is the body's; its ETag, content type and metadata are those given;
    its chunks are the body cut up, and each is held by at least W different ones of the
    owners the ring names for the key. A node holds a chunk when the name is a synced file
    with the manifest's checksum and length and stays one through any crash that leaves the
    chunk's directory. *)
Theorem Put_acknowledged_is_durable (key rnd : string) (body : reader) (opts : PutOptions) (w w' : World) (m : Manifest) :
  c_scheme c = zeroScheme -> coordinator_ok c -> plain_elem rnd = true ->
  Put prefix c key body opts rnd w = (Ok m, w') ->
  NoDup (write_owners c key) /\ object_set prefix w w' key m /\
  stored c w' (write_owners c key) (rd_data body) m /\ declared_match opts (rd_data body) /\
  m_ETag m = cmp_Or (po_ETag opts) (hex_EncodeToString (md5 (rd_data body))) /\
  m_ContentType m = po_ContentType opts /\ m_Meta m = po_Meta opts.
Proof.
  intros Hs Hok Hrnd H. pose proof (Put_described prefix c Hs _ _ _ _ _ _ _ Hrnd H) as Hd.
  apply Put_cases in H as (Hset & Hst & Hm); [|done..].
  split; [by apply write_owners_NoDup|]. done.
Qed.

(** C3: no object is ever torn. A [Put] of a coordinator that replicates which fails leaves
    every object as it was, or the one write of etcd that commits the manifest took effect
    and it is that write's own error that [Put] returns: then the object is complete, with
    all its chunks on a quorum and every declared digest right. There is nothing in
    between, and a body refused over its digests never gets that far. *)
Theorem Put_never_tears (key rnd : string) (body : reader) (opts : PutOptions) (w w' : World) (e : error) :
  c_scheme c = zeroScheme -> coordinator_ok c -> plain_elem rnd = true ->
  Put prefix c key body opts rnd w = (Err e, w') ->
  objects_same prefix w w' \/
  exists m, committed_unanswered prefix w w' key m e /\
    stored c w' (write_owners c key) (rd_data body) m /\ declared_match opts (rd_data body).
Proof. intros Hs Hok Hrnd H. by apply Put_cases in H. Qed.

(** A coordinator that sees fewer owners than W refuses the write with [ErrQuorum] before
    a byte is stored: no disk, no record and no manifest changes, so a node cut off from
    its peers cannot acknowledge an object on its own disk alone. *)
Theorem Put_refuses_narrow_ring (key rnd : string) (body : reader) (opts : PutOptions) (w : World) :
  c_scheme c = zeroScheme -> 0 < zlen (write_owners c key) < c_quorum c ->
  Put prefix c key body opts rnd w = (Err [ErrQuorum], w).
Proof.
  intros Hs Hn. unfold Put, write. fold (write_owners c key).
  rewrite (proj2 (Z.eqb_neq _ _)) by lia. rewrite bool_decide_false by tauto. simpl.
  rewrite bool_decide_true by done. by rewrite (proj2 (Z.ltb_lt _ _)) by lia.
Qed.

(** A body that does not have the MD5 or a checksum its client declared, in a header
    or in a trailer, is refused with an error and the objects stay as they were. *)
Theorem Put_bad_digest (key rnd : string) (body : reader) (opts : PutOptions) (w w' : World) (r : res Manifest) :
  c_scheme c = zeroScheme -> coordinator_ok c -> plain_elem rnd = true ->
  ~ declared_match opts (rd_data body) ->
  Put prefix c key body opts rnd w = (r, w') ->
  is_ok r = false /\ objects_same prefix w w'.
Proof.
  intros Hs Hok Hrnd Hbad H. apply Put_cases in H; [|done..].
  destruct r as [m|e]; [by destruct H as (_ & _ & ?)|]. split; [done|].
  destruct H as [?|(m & _ & _ & ?)]; done.
Qed.
End put_claims.

(** ** Reading *)

Section read_facts.
Context {E : Type} `{!Etcd doc E} {rs : ReedSolomon} (c : Coordinator).
Abbreviation World := (world E).

Lemma read_from_verified node id crc (w : World) rc w' :
  read_from c node id crc w = (Ok rc, w') -> rd_end rc = None -> crc32c (rd_data rc) = crc.
Proof.
  unfold read_from. destruct (String.eqb node (c_self c)).
  - intros H. by apply local_read_verified in H as [_ ?].
  - destruct (String.eqb _ ""); [done|]. intros H. by apply FetchChunk_verified in H as [_ ?].
Qed.

Lemma fetch_loop_verified ref nodes : forall errs (w : World) rc w',
  fetch_loop c ref nodes errs w = (Ok rc, w') -> rd_end rc = None -> crc32c (rd_data rc) = c_CRC ref.
Proof.
  induction nodes as [|n nodes IH]; intros errs w rc w'; simpl; [done|].
  destruct (read_from c n (c_ID ref) (c_CRC ref) w) as [[rc1|e] w1] eqn:Hr; [|apply IH].
  intros [= <- <-]. by eapply read_from_verified.
Qed.

Lemma chunk_verified m ref (w : World) rc w' :
  chunk c m ref w = (Ok rc, w') -> rd_end rc = None -> crc32c (rd_data rc) = c_CRC ref.
Proof.
  unfold chunk. case_decide; [apply fetch_loop_verified|].
  destruct (decode c ref (m_Nodes m) (m_Coding m) w) as [[d|e] w1] eqn:Hd; [|done].
  intros [= <- <-] _. simpl. unfold decode in Hd. destruct (_ || _); [done|].
  destruct (gather _ _ _ _ _ _ _ _ _) as [[sl e1] w2]. destruct (if bool_decide _ then _ else _) as [[sl' e2] w3].
  destruct (Reconstruct _ _ _) as [[ch sh]|e]; [|done].
  destruct (Z.eqb_spec (crc32c ch) (c_CRC ref)); simpl in Hd; by simplify_eq.
Qed.
End read_facts.

Section read_worlds.
Context {E : Type} `{!Etcd doc E} {rs : ReedSolomon} (c : Coordinator).
Abbreviation World := (world E).

(** Reading changes no disk and no record. *)
Definition untouched_world (w w' : World) : Prop := w_stores w' = w_stores w /\ w_etcd w' = w_etcd w.

Lemma untouched_trans w1 w2 w3 : untouched_world w1 w2 -> untouched_world w2 w3 -> untouched_world w1 w3.
Proof. intros [? ?] [? ?]. split; congruence. Qed.

Lemma FetchChunk_world addr id crc (w w' : World) r : FetchChunk addr id crc w = (r, w') -> untouched_world w w'.
Proof. unfold FetchChunk. simpl. intros H. repeat case_match; simplify_eq; done. Qed.

Lemma local_read_world addr id crc (w w' : World) r : local_read addr id crc w = (r, w') -> untouched_world w w'.
Proof. unfold local_read. simpl. intros H. repeat case_match; simplify_eq; done. Qed.

Lemma read_from_world node id crc (w w' : World) r : read_from c node id crc w = (r, w') -> untouched_world w w'.
Proof.
  unfold read_from. destruct (String.eqb node _); [apply local_read_world|].
  destruct (String.eqb _ ""); [by intros [= _ <-] | apply FetchChunk_world].
Qed.

Lemma fetch_world ref nodes (w w' : World) r : fetch c ref nodes w = (r, w') -> untouched_world w w'.
Proof.
  unfold fetch. generalize (localFirst c nodes). generalize ([] : error). intros errs l. revert errs w.
  induction l as [|n l IH]; intros errs w; cbn [fetch_loop]; [by intros [= _ <-]|].
  destruct (read_from _ _ _ _ _) as [[rc|e] w1] eqn:Hr; apply read_from_world in Hr; [by intros [= _ <-]|].
  intros H%IH. by eapply untouched_trans.
Qed.

#[export] Instance untouched_preorder : PreOrder untouched_world.
Proof. split; [done | intros ???; apply untouched_trans]. Qed.

Lemma fetchShard_world ref i node size (w w' : World) r : fetchShard c ref i node size w = (r, w') -> untouched_world w w'.
Proof.
  unfold fetchShard. destruct (read_from _ _ _ _ _) as [[rc|e] w1] eqn:Hr; apply read_from_world in Hr; by intros [= _ <-].
Qed.

Lemma gather_world ref nodes : forall slots size from to i (w w' : World) out e,
  gather c ref nodes slots size from to i w = (out, e, w') -> untouched_world w w'.
Proof.
  induction nodes as [|n nodes IH]; intros slots size from to i w w' out e; cbn [gather]; [by intros [= _ _ <-]|].
  destruct slots as [|s slots]; [by intros [= _ _ <-]|].
  destruct (if (from <=? i) && (i <? to) then _ else (s, [], w)) as [[s' e1] w1] eqn:Hs.
  assert (Hw : untouched_world w w1).
  { destruct (_ && _); [|by injection Hs as _ _ <-]. destruct s as [d|]; [by injection Hs as _ _ <-|].
    destruct (fetchShard _ _ _ _ _ _) as [[d|e0] w2] eqn:Hf; apply fetchShard_world in Hf; by injection Hs as _ _ <-. }
  destruct (gather _ _ _ _ _ _ _ _ w1) as [[rest es] w2] eqn:Hg. apply IH in Hg. intros [= _ _ <-]. by etransitivity.
Qed.

Lemma chunk_world m ref (w w' : World) r : chunk c m ref w = (r, w') -> untouched_world w w'.
Proof.
  unfold chunk. case_decide; [apply fetch_world|]. unfold decode.
  destruct (_ || _); [by intros [= _ <-]|]. destruct (gather _ _ _ _ _ _ _ _ w) as [[sl e1] w1] eqn:H1. apply gather_world in H1.
  destruct (if bool_decide _ then _ else _) as [[sl' e2] w2] eqn:H2.
  assert (Hw : untouched_world w1 w2) by (destruct (bool_decide _); [by apply gather_world in H2 | by injection H2 as _ _ <-]).
  intros HR. assert (w' = w2) as ->; [|by etransitivity].
  destruct (Reconstruct _ _ _) as [[ch sh]|e]; [destruct (negb _)|]; by injection HR as _ <-.
Qed.

Lemma StreamRange_world m out off len (w w' : World) err out' :
  StreamRange c m out off len w = (err, out', w') -> untouched_world w w'.
Proof. apply (ReadRange_keeps one_read (chunk c m) untouched_world). intros ref σ r σ'. apply chunk_world. Qed.
End read_worlds.

Lemma StreamRange_sources {E : Type} `{!Etcd doc E} {rs : ReedSolomon} (c : Coordinator)
    (m : Manifest) (out out' : writer) (off len : Z) (w w' : world E) :
  Forall (fun r => 0 <= c_Size r) (m_Chunks m) -> sizes (m_Chunks m) <= max_int64 ->
  0 <= off -> 0 <= len -> off + len <= m_Size m <= max_int64 ->
  StreamRange c m out off len w = (None, out', w') ->
  exists ds, Forall2 (fun p d => crc32c d = c_CRC p.1.1 /\ p.1.2 + p.2 <= zlen d)
               (windows off (off + len) 0 (m_Chunks m)) ds /\
    wr_out out' = wr_out out ++ concat (map window_bytes (zip (windows off (off + len) 0 (m_Chunks m)) ds)).
Proof.
  intros HF Hs Hoff Hlen Hm. unfold StreamRange, ReadRange.
  rewrite !wrap_int64_id by (unfold is_int64, min_int64, max_int64 in *; lia).
  rewrite (proj2 (Z.ltb_ge off 0)), (proj2 (Z.ltb_ge len 0)), (proj2 (Z.ltb_ge (m_Size m) _)) by lia.
  simpl. apply (range_loop_sources one_read (fun d => app_nil_r d) (chunk c m)
    (fun r d => crc32c d = c_CRC r)); try done; try lia.
  intros r σ rc σ' Hf Hend. by eapply chunk_verified.
Qed.

(** A read that reports success delivered nothing the manifest does not vouch for.
    Whatever the disks hold and the network does, in either redundancy mode, the bytes
    that [StreamRange] sent are, for each chunk the window touches, that part of data
    whose checksum is the manifest's for the chunk. *)
Theorem StreamRange_verified {E : Type} `{!Etcd doc E} {rs : ReedSolomon} (c : Coordinator)
    (m : Manifest) (out out' : writer) (off len : Z) (w w' : world E) :
  Forall (fun r => 0 <= c_Size r) (m_Chunks m) -> sizes (m_Chunks m) <= max_int64 ->
  0 <= off -> 0 <= len -> off + len <= m_Size m <= max_int64 ->
  StreamRange c m out off len w = (None, out', w') ->
  exists ds, Forall2 (fun p d => crc32c d = c_CRC p.1.1 /\ p.1.2 + p.2 <= zlen d)
               (windows off (off + len) 0 (m_Chunks m)) ds /\
    wr_out out' = wr_out out ++ concat (map window_bytes (zip (windows off (off + len) 0 (m_Chunks m)) ds)).
Proof. apply StreamRange_sources. Qed.

(** ** Decoding *)

Section decode_facts.
Context {E : Type} `{!Etcd doc E} {rs : ReedSolomon} (c : Coordinator).
Abbreviation World := (world E).
Context (ref : ChunkRef) (nodes : list string) (size : Z) (full : list bytes) (avail : nat -> bool).
Context (Inv : World -> Prop).

(** In the worlds that are considered, slot [k] can be read as the shard it should be, or
    cannot be read, and reading stays among them. *)
Definition shard_reads (k : nat) (n : string) (sh : bytes) : Prop :=
  forall w : World, Inv w -> exists w', Inv w' /\ w_calls w' = S (w_calls w) /\
    if avail k then fetchShard c ref (Z.of_nat k) n size w = (Ok sh, w')
    else exists e, fetchShard c ref (Z.of_nat k) n size w = (Err e, w').

(** The slots [k, k + 1, ...] after gathering [[from, to)] of them. *)
Definition gathered (from to : Z) (k : nat) (sh : bytes) (s : option bytes) : option bytes :=
  if (from <=? Z.of_nat k) && (Z.of_nat k <? to) then
    match s with Some d => Some d | None => if avail k then Some sh else None end
  else s.

(** How many of the slots are asked for. *)
Fixpoint asked (from to : Z) (k : nat) (slots : list (option bytes)) : nat :=
  match slots with
  | [] => 0%nat
  | s :: slots' =>
      Nat.add (if (from <=? Z.of_nat k) && (Z.of_nat k <? to)
               then match s with None => 1%nat | Some _ => 0%nat end else 0%nat)
        (asked from to (S k) slots')
  end.

Fixpoint gathered_all (from to : Z) (k : nat) (shs : list bytes) (slots : list (option bytes)) : list (option bytes) :=
  match shs, slots with
  | sh :: shs', s :: slots' => gathered from to k sh s :: gathered_all from to (S k) shs' slots'
  | _, _ => []
  end.

Lemma gather_spec from to : forall ns shs slots k (w : World),
  length ns = length shs -> length slots = length shs ->
  (forall j n sh, ns !! j = Some n -> shs !! j = Some sh -> shard_reads (k + j) n sh) -> Inv w ->
  exists e w', Inv w' /\ gather c ref ns slots size from to (Z.of_nat k) w
    = (gathered_all from to k shs slots, e, w') /\ w_calls w' = (w_calls w + asked from to k slots)%nat.
Proof.
  induction ns as [|n ns IH]; intros [|sh shs] [|s slots] k w Hl Hl' Hr HI; simpl in *; try done.
  { exists [], w. split; [done|]. split; [done | lia]. }
  assert (IH' : forall w1 : World, Inv w1 -> exists e w', Inv w' /\ gather c ref ns slots size from to (Z.of_nat k + 1) w1
    = (gathered_all from to (S k) shs slots, e, w') /\ w_calls w' = (w_calls w1 + asked from to (S k) slots)%nat).
  { intros w1 HI1. replace (Z.of_nat k + 1) with (Z.of_nat (S k)) by lia. apply IH; [lia|lia| |done].
    intros j n' sh' Hn Hs. replace (S k + j)%nat with (k + S j)%nat by lia. by apply Hr. }
  unfold gathered. destruct ((from <=? Z.of_nat k) && (Z.of_nat k <? to)).
  - destruct s as [d|].
    + destruct (IH' w HI) as (e & w' & HI' & -> & Hc). eexists _, _. split; [done|]. split; [done | lia].
    + destruct (Hr 0%nat n sh eq_refl eq_refl w HI) as (w1 & HI1 & Hc1 & Hf).
      rewrite Nat.add_0_r in Hf. destruct (avail k).
      * rewrite Hf. destruct (IH' w1 HI1) as (e & w' & HI' & -> & Hc).
        eexists _, _. split; [done|]. split; [done | lia].
      * destruct Hf as [e1 Hf]. rewrite Hf. destruct (IH' w1 HI1) as (e & w' & HI' & -> & Hc).
        eexists _, _. split; [done|]. split; [done | lia].
  - destruct (IH' w HI) as (e & w' & HI' & -> & Hc). eexists _, _. split; [done|]. split; [done | lia].
Qed.

(** Gathering the data slots and then the others leaves each slot its shard or nothing. *)
Fixpoint reachable (k : nat) (shs : list bytes) : list (option bytes) :=
  match shs with [] => [] | sh :: shs' => (if avail k then Some sh else None) :: reachable (S k) shs' end.

Lemma reachable_erased k shs : erased shs (reachable k shs).
Proof.
  revert k. induction shs as [|sh shs IH]; intros k; constructor; [|apply IH].
  destruct (avail k); auto.
Qed.

Lemma gathered_twice d n : 0 <= d -> forall shs k, Z.of_nat k + zlen shs <= n ->
  gathered_all d n k shs (gathered_all 0 d k shs (replicate (length shs) None)) = reachable k shs.
Proof.
  intros Hd. induction shs as [|sh shs IH]; intros k Hk; [done|]. rewrite zlen_cons in Hk.
  pose proof (zlen_nonneg shs). simpl. rewrite IH by lia. f_equal. unfold gathered.
  rewrite (proj2 (Z.leb_le 0 (Z.of_nat k))) by lia. rewrite (proj2 (Z.ltb_lt (Z.of_nat k) n)) by lia. simpl.
  destruct (Z.ltb_spec (Z.of_nat k) d), (Z.leb_spec d (Z.of_nat k)); simpl; try lia; by destruct (avail k).
Qed.

(** Between them the two rounds ask for every slot once. *)
Lemma asked_twice d n : 0 <= d -> forall shs k, Z.of_nat k + zlen shs <= n ->
  (asked 0 d k (replicate (length shs) None) +
   asked d n k (gathered_all 0 d k shs (replicate (length shs) None)))%nat = length shs.
Proof.
  intros Hd. induction shs as [|sh shs IH]; intros k Hk; [done|]. rewrite zlen_cons in Hk.
  pose proof (zlen_nonneg shs). specialize (IH (S k) ltac:(lia)). simpl. unfold gathered.
  rewrite (proj2 (Z.leb_le 0 (Z.of_nat k))) by lia. rewrite (proj2 (Z.ltb_lt (Z.of_nat k) n)) by lia. simpl.
  destruct (Z.ltb_spec (Z.of_nat k) d), (Z.leb_spec d (Z.of_nat k)); simpl; try lia.
Qed.

Lemma parity_slot_empty d : forall shs k, d < Z.of_nat k + zlen shs -> shs <> [] ->
  None ∈ gathered_all 0 d k shs (replicate (length shs) None).
Proof.
  induction shs as [|sh shs IH]; intros k Hk Hne; [done|]. rewrite zlen_cons in Hk. simpl.
  unfold gathered. destruct ((0 <=? Z.of_nat k) && (Z.of_nat k <? d)) eqn:Hin; [|by constructor].
  right. apply IH; [lia|]. intros ->. bool_facts. rewrite zlen_nil in Hk. lia.
Qed.
End decode_facts.

Section decode_claims.
Context {E : Type} `{!Etcd doc E} {rs : ReedSolomon} (c : Coordinator).
Context (scheme : Scheme) `{!ReedSolomonLaws rs scheme}.
Context (ref : ChunkRef) (nodes : list string) (data : bytes) (full : list bytes) (avail : nat -> bool).
Context (Inv : world E -> Prop).

(** The situation of a reader: [data] was encoded as [full], and each slot can be read or
    cannot. *)
Definition decodable : Prop :=
  Valid scheme = true /\ data <> [] /\ Encode scheme data = Ok full /\
  zlen nodes = Shards scheme /\ zlen (c_Shards ref) = Shards scheme /\
  c_Size ref = zlen data /\ c_CRC ref = crc32c data /\
  forall k n sh, nodes !! k = Some n -> full !! k = Some sh ->
    shard_reads c ref (shardSize (zlen data) scheme) avail Inv k n sh.

Lemma decode_result (w : world E) : decodable -> Inv w -> exists w',
  decode c ref nodes scheme w =
    ((if Data scheme <=? present (reachable avail 0 full) then Ok data
      else match decode c ref nodes scheme w with (r, _) => r end), w') /\
  w_calls w' = (w_calls w + Z.to_nat (Shards scheme))%nat.
Proof.
  intros (Hv & Hne & Henc & Hn & Hcs & Hsz & Hcrc & Hreads) HI.
  destruct (Encode_ok scheme Hv data Hne) as (f & He & Hlen & _). rewrite Henc in He. injection He as <-.
  destruct (Valid_pos scheme Hv) as (HD & HP & _).
  assert (HS : Shards scheme = Data scheme + Parity scheme) by done.
  assert (Hll : length nodes = length full) by (unfold zlen in *; lia).
  assert (Hrep : replicate (Z.to_nat (Shards scheme)) (@None bytes) = replicate (length full) None)
    by (f_equal; unfold zlen in *; lia).
  destruct (decode c ref nodes scheme w) as [r w'] eqn:Hdec. exists w'.
  revert Hdec. unfold decode. rewrite Hn, Hcs, Z.eqb_refl. simpl. rewrite Hsz, Hrep.
  destruct (gather_spec c ref (shardSize (zlen data) scheme) avail Inv 0 (Data scheme) nodes full
    (replicate (length full) None) 0 w Hll (length_replicate _ _)) as (e1 & w1 & HI1 & Hg1 & Hc1); [done|done|].
  change (Z.of_nat 0) with 0 in Hg1. rewrite Hg1.
  rewrite bool_decide_true.
  2: { apply parity_slot_empty; [lia|]. intros ->. rewrite zlen_nil in Hlen. lia. }
  destruct (gather_spec c ref (shardSize (zlen data) scheme) avail Inv (Data scheme) (Shards scheme) nodes full
    (gathered_all avail 0 (Data scheme) 0 full (replicate (length full) None)) 0 w1 Hll) as (e2 & w2 & HI2 & Hg2 & Hc2); [|done|done|].
  { clear. generalize 0%nat. induction full as [|sh l IH]; intros k; simpl; [done|]. by rewrite IH. }
  change (Z.of_nat 0) with 0 in Hg2. rewrite Hg2.
  rewrite gathered_twice by lia. intros [= Hr <-]. split.
  - f_equal. destruct (Z.leb_spec (Data scheme) (present (reachable avail 0 full))) as [Hle|]; [|done].
    rewrite (Reconstruct_Encode scheme Hv data full) in Hr by (done || apply reachable_erased).
    by rewrite Hcrc, Z.eqb_refl in Hr.
  - rewrite Hc2, Hc1. pose proof (asked_twice avail (Data scheme) (Shards scheme) ltac:(lia) full 0 ltac:(lia)).
    unfold zlen in *. lia.
Qed.

(** C34: an erasure-coded chunk is read back exactly as long as any [Data] of its shards
    can be read, whichever they are: [decode] returns the chunk that was encoded. *)
Theorem decode_available (w : world E) :
  decodable -> Inv w -> Data scheme <= present (reachable avail 0 full) ->
  exists w', decode c ref nodes scheme w = (Ok data, w').
Proof.
  intros Hdec HI Hp. pose proof (decode_result w Hdec HI) as (w' & Hd & _).
  exists w'. rewrite Hd. by rewrite (proj2 (Z.leb_le _ _) Hp).
Qed.

(** As the code stands, every decode asks for every shard, parity included, even when
    all the data shards were read: the test for a missing shard looks at the parity
    slots too, which are always empty at that point. *)
Theorem decode_always_reads_parity (w : world E) :
  decodable -> Inv w -> w_calls (decode c ref nodes scheme w).2 = (w_calls w + Z.to_nat (Shards scheme))%nat.
Proof. intros Hdec HI. by destruct (decode_result w Hdec HI) as (w' & -> & ?). Qed.
End decode_claims.

(** ** The claims at concrete inputs *)

Definition demo_c : Coordinator :=
  mk_Coordinator "n1" 2 "a1"
    (Some (mk_membership {["n1" := "a1"; "n2" := "a2"]} ∅ (Ring.New ["n1"; "n2"] 1))) 4 zeroScheme.

Definition demo_w (script : list rpc) : world demoE :=
  mk_world {["a1" := empty_fs; "a2" := empty_fs]} demo0 script 0 0.

Definition demo_opts : PutOptions :=
  mk_PutOptions "" "" 5 ∅ "" None None None None None None.

Lemma demo_c_ok : coordinator_ok demo_c.
Proof. exists ["n1"; "n2"], 1. done. Qed.

Abbreviation demo_put script opts :=
  (@Put demoE _ xor_codec "/kavo" demo_c "b/k" (demo_source "hello") opts "W" (demo_w script)) (only parsing).

Lemma Put_acknowledged_is_durable_witness : exists m,
  (demo_put [] demo_opts).1 = Ok m /\ NoDup (write_owners demo_c "b/k") /\
  object_set "/kavo" (demo_w []) (demo_put [] demo_opts).2 "b/k" m /\
  stored demo_c (demo_put [] demo_opts).2 (write_owners demo_c "b/k") (to_bytes "hello") m /\
  declared_match demo_opts (to_bytes "hello") /\
  m_ETag m = cmp_Or (po_ETag demo_opts) (hex_EncodeToString (md5 (to_bytes "hello"))) /\
  m_ContentType m = po_ContentType demo_opts /\ m_Meta m = po_Meta demo_opts.
Proof.
  assert (Hok : is_ok (demo_put [] demo_opts).1 = true) by (vm_compute; reflexivity).
  destruct (demo_put [] demo_opts) as [[m|e] w'] eqn:H; [|discriminate Hok].
  exists m. split; [reflexivity|].
  apply (@Put_acknowledged_is_durable demoE _ _ xor_codec "/kavo" demo_c "b/k" "W" (demo_source "hello")
    demo_opts (demo_w []) w' m); [reflexivity | exact demo_c_ok | reflexivity | exact H].
Defined.

(** The two chunks are stored, the write is announced and committed, and etcd loses the
    answer to the commit. *)
Definition demo_unanswered : world demoE :=
  mk_world {["a1" := empty_fs; "a2" := empty_fs]}
    (mk_pure (e_state demo0) (e_ok demo0) [Answers; LosesAnswer]) [] 0 0.
Definition demo_put_unanswered :=
  @Put demoE _ xor_codec "/kavo" demo_c "b/k" (demo_source "hello") demo_opts "W" demo_unanswered.

Lemma Put_never_tears_witness : exists e,
  demo_put_unanswered.1 = Err e /\
  is_ok (lookup_obj "/kavo" (w_etcd demo_put_unanswered.2) "b/k") = true /\
  (objects_same "/kavo" demo_unanswered demo_put_unanswered.2 \/
   exists m, committed_unanswered "/kavo" demo_unanswered demo_put_unanswered.2 "b/k" m e /\
     stored demo_c demo_put_unanswered.2 (write_owners demo_c "b/k") (to_bytes "hello") m /\
     declared_match demo_opts (to_bytes "hello")).
Proof.
  assert (Hok : is_ok demo_put_unanswered.1 = false) by (vm_compute; reflexivity).
  assert (Hset : is_ok (lookup_obj "/kavo" (w_etcd demo_put_unanswered.2) "b/k") = true) by (vm_compute; reflexivity).
  destruct demo_put_unanswered as [[m|e] w'] eqn:H; [discriminate Hok|].
  exists e. split; [reflexivity|]. split; [exact Hset|].
  apply (@Put_never_tears demoE _ _ xor_codec "/kavo" demo_c "b/k" "W" (demo_source "hello")
    demo_opts demo_unanswered w' e); [reflexivity | exact demo_c_ok | reflexivity | exact H].
Defined.

Definition demo_alone : Coordinator :=
  mk_Coordinator "n1" 2 "a1" (Some (mk_membership {["n1" := "a1"]} ∅ (Ring.New ["n1"] 1))) 4 zeroScheme.

Lemma Put_refuses_narrow_ring_witness :
  @Put demoE _ xor_codec "/kavo" demo_alone "b/k" (demo_source "hello") demo_opts "W" (demo_w [])
  = (Err [ErrQuorum], demo_w []).
Proof.
  apply (@Put_refuses_narrow_ring demoE _ xor_codec "/kavo" demo_alone "b/k" "W" (demo_source "hello")
    demo_opts (demo_w [])); [reflexivity | vm_compute; split; reflexivity].
Defined.

Definition demo_bad_opts : PutOptions :=
  mk_PutOptions "" "" 5 ∅ "" (Some 1) None None None None None.

Lemma Put_bad_digest_witness :
  is_ok (demo_put [] demo_bad_opts).1 = false /\
  objects_same "/kavo" (demo_w []) (demo_put [] demo_bad_opts).2.
Proof.
  apply (@Put_bad_digest demoE _ _ xor_codec "/kavo" demo_c "b/k" "W" (demo_source "hello")
    demo_bad_opts (demo_w []) (demo_put [] demo_bad_opts).2 (demo_put [] demo_bad_opts).1).
  - reflexivity.
  - exact demo_c_ok.
  - reflexivity.
  - intros (_ & H & _). specialize (H 1 (or_introl eq_refl)). vm_compute in H. discriminate H.
  - apply surjective_pairing.
Defined.

Definition demo_holding : world demoE :=
  mk_world {["a1" := (WriteChunk no_faults "t" 0 empty_fs "w000000" (demo_source "abc")).1.2]} demo0 [] 0 0.

Definition demo_stored : Manifest :=
  mk_Manifest 3 "" "" 0 ∅ ["n1"] (m_Chunks demo_manifest) zeroScheme None None None [].

Definition demo_stream : option error * writer * world demoE :=
  @StreamRange demoE xor_codec demo_c demo_stored (mk_writer [] None) 1 2 demo_holding.

Lemma StreamRange_verified_witness : exists ds,
  Forall2 (fun p d => crc32c d = c_CRC p.1.1 /\ p.1.2 + p.2 <= zlen d) (windows 1 3 0 (m_Chunks demo_stored)) ds /\
  to_bytes "bc" = [] ++ concat (map window_bytes (zip (windows 1 3 0 (m_Chunks demo_stored)) ds)).
Proof.
  apply (@StreamRange_verified demoE _ xor_codec demo_c demo_stored (mk_writer [] None)
    (mk_writer (to_bytes "bc") None) 1 2 demo_holding demo_stream.2).
  - repeat constructor; vm_compute; discriminate.
  - vm_compute. discriminate.
  - lia.
  - lia.
  - vm_compute. split; discriminate.
  - vm_compute. reflexivity.
Defined.

(** Three nodes, each with its own shard of one chunk, of which the second is down. *)
Definition ec_c : Coordinator :=
  mk_Coordinator "n1" 2 "a1"
    (Some (mk_membership {["n1" := "a1"; "n2" := "a2"; "n3" := "a3"]} ∅ (Ring.New [] 1))) 64 twoOne.

Definition ec_data : bytes := to_bytes "hello".
Definition ec_full : list bytes :=
  Eval vm_compute in match @Encode xor_codec twoOne ec_data with Ok f => f | Err _ => [] end.
Definition ec_ref : ChunkRef :=
  Eval vm_compute in mk_ChunkRef "W000000" 5 (crc32c ec_data) (map crc32c ec_full).

Definition ec_disk (i : nat) : FS :=
  (WriteChunk no_faults "t" 0 empty_fs (ShardID ec_ref (Z.of_nat i)) (mk_reader (nth i ec_full []) None)).1.2.

Definition ec_stores : gmap string FS := {["a1" := ec_disk 0; "a3" := ec_disk 2]}.
Definition ec_inv (w : world demoE) : Prop := w_stores w = ec_stores /\ w_script w = [].
Definition ec_w : world demoE := mk_world ec_stores demo0 [] 0 0.
Definition ec_avail (k : nat) : bool := negb (Nat.eqb k 1).

(** With nothing going wrong, a read depends on the disks alone. *)
Lemma fetchShard_quiet i n size (w : world demoE) : ec_inv w ->
  exists w', ec_inv w' /\ w_calls w' = (if String.eqb n "n1" || negb (String.eqb (readAddr (live ec_c) n) "")
    then S (w_calls w) else w_calls w) /\
  fetchShard ec_c ec_ref i n size w = ((fetchShard ec_c ec_ref i n size ec_w).1, w').
Proof.
  intros [Hs Hsc]. destruct w as [st e sc calls now]. simpl in *. subst.
  set (w1 := mk_world ec_stores e [] (S calls) now).
  assert (HI1 : ec_inv w1) by done.
  unfold fetchShard, read_from. simpl c_self. destruct (String.eqb n "n1").
  - exists w1. split; [done|]. split; [done|]. unfold local_read. simpl.
    destruct (ec_stores !! "a1"); [|done]. by destruct (ReadChunk _ _ _ _ _).
  - destruct (String.eqb (readAddr (live ec_c) n) ""); simpl.
    { by exists (mk_world ec_stores e [] calls now). }
    exists w1. split; [done|]. split; [done|]. unfold FetchChunk. simpl.
    destruct (ec_stores !! _); [|done].
    destruct (getChunk _ _ _ _) as [st [b|]]; [destruct (st =? StatusOK)|]; done.
Qed.

Lemma ec_decodable : @decodable demoE xor_codec ec_c twoOne ec_ref ["n1"; "n2"; "n3"] ec_data ec_full ec_avail ec_inv.
Proof.
  split; [reflexivity|]. split; [discriminate|]. do 5 (split; [vm_compute; reflexivity|]).
  intros k n sh Hn Hsh w HI. destruct (fetchShard_quiet (Z.of_nat k) n (shardSize (zlen ec_data) twoOne) w HI)
    as (w' & HI' & Hc & Hf). exists w'. split; [done|]. rewrite Hf.
  destruct k as [|[|[|k]]]; simpl in Hn, Hsh; simplify_eq.
  - split; [exact Hc|]. change (ec_avail 0) with true. cbv iota.
    match goal with |- (?x, _) = (?y, _) => replace x with y by (vm_compute; reflexivity) end. reflexivity.
  - split; [exact Hc|]. change (ec_avail 1) with false. cbv iota. exists errors_New.
    match goal with |- (?x, _) = (?y, _) => replace x with y by (vm_compute; reflexivity) end. reflexivity.
  - split; [exact Hc|]. change (ec_avail 2) with true. cbv iota.
    match goal with |- (?x, _) = (?y, _) => replace x with y by (vm_compute; reflexivity) end. reflexivity.
Qed.

Lemma decode_available_witness : exists w',
  @decode demoE xor_codec ec_c ec_ref ["n1"; "n2"; "n3"] twoOne ec_w = (Ok ec_data, w').
Proof.
  apply (@decode_available demoE xor_codec ec_c twoOne _ ec_ref ["n1"; "n2"; "n3"] ec_data ec_full
    ec_avail ec_inv ec_w); [exact ec_decodable | split; reflexivity | vm_compute; discriminate].
Defined.

Lemma decode_always_reads_parity_witness :
  w_calls (@decode demoE xor_codec ec_c ec_ref ["n1"; "n2"; "n3"] twoOne ec_w).2 = 3%nat.
Proof.
  apply (@decode_always_reads_parity demoE xor_codec ec_c twoOne _ ec_ref ["n1"; "n2"; "n3"] ec_data ec_full
    ec_avail ec_inv ec_w); [exact ec_decodable | split; reflexivity].
Defined.
