(* ===== verification/Members.v ===== *)
(** * Membership: [internal/meta/members.go]

    Two goroutines keep a node and the cluster informed of each other. [stayRegistered]
    renews the lease that this node's key hangs on and takes a new one when it is lost;
    [WatchMembers] sends the membership once and again after every change, and the loop
    in [main] hands each copy to the coordinator. Both run beside everything else, so
    each is a machine whose events are its own steps and those of its surroundings:
    other clients of etcd, leases that expire, a watch that ends, a context that is
    cancelled. An event that cannot happen in a state has no successor. *)

From S2P Require Import Prelude GoStr Path Ring Etcd Meta Cluster.

Definition retryInterval : Z := 250 * 10 ^ 6.

(** [sleep]: the case of the [select] that is taken, and what is returned. Both cases may
    be ready; the second only once the context is done. *)
Inductive select_case := TimerFires | ContextDone.

Definition sleep (done : bool) (taken : select_case) : option bool :=
  match taken with
  | TimerFires => Some true
  | ContextDone => if done then Some false else None
  end.

(** A machine runs through a list of events. *)
Section runs.
Context {S Ev : Type} (next : S -> Ev -> option S).

Fixpoint run (evs : list Ev) (s : S) : option S :=
  match evs with
  | [] => Some s
  | ev :: evs' => match next s ev with Some s' => run evs' s' | None => None end
  end.

Lemma run_app a b s : run (a ++ b) s = match run a s with Some s' => run b s' | None => None end.
Proof. revert s. induction a as [|ev a IH]; intros s; simpl; [done|]. by destruct (next s ev). Qed.

(** What every event keeps, every run keeps. *)
Lemma run_invariant (P : S -> Prop) :
  (forall s ev s', P s -> next s ev = Some s' -> P s') ->
  forall evs s s', P s -> run evs s = Some s' -> P s'.
Proof.
  intros Hstep evs. induction evs as [|ev evs IH]; intros s s' Hs; simpl; [by intros [= <-]|].
  destruct (next s ev) as [s1|] eqn:Hn; [|done]. apply IH. by eapply Hstep.
Qed.
End runs.

(** The keys under the members' prefix, as [Members] lists them. *)
Section listing.
Context {E : Type} `{!Etcd doc E} (prefix : string).

Definition member_range (st : estate doc) : list (string * kv doc) :=
  sorted_range st (memberPrefix prefix) (e_prefixEnd (memberPrefix prefix)).

Definition membership_of (st : estate doc) : gmap string string := by_base (member_range st).
End listing.

(** ** Registration *)

Section registration.
Context {E : Type} `{!Etcd doc E} (prefix id addr : string) (ttl : Z).

(** Where the code is: in one of the three calls of [register], draining the renewals,
    between two attempts, or out: [stayRegistered] returned or [Join] refused. *)
Inductive reg_pc :=
  | RGrant
  | RPut (lease : Z)
  | RKeepAlive (lease : Z)
  | RDrain (lease : Z)
  | RSleep
  | RReturned
  | RRefused.

(** [r_leases] are the leases that have not expired and [r_attached] is the one this
    node's key hangs on; both are etcd's. [r_joined] tells the first registration, in
    [Join], from the later ones. *)
Record rstate := mk_rstate {
  r_etcd : E;
  r_leases : gset Z;
  r_attached : option Z;
  r_done : bool;
  r_joined : bool;
  r_pc : reg_pc
}.

Inductive reg_event :=
  | RegStep
  | RegRenewed
  | RegClosed
  | RegWoken (taken : select_case)
  | RegCancel
  | RegExpire (lease : Z)
  | RegOther (o : eop doc).

Definition at_pc (s : rstate) (pc : reg_pc) : rstate :=
  mk_rstate (r_etcd s) (r_leases s) (r_attached s) (r_done s) (r_joined s) pc.

(** An error ends [Join], and sends [stayRegistered] back to wait. *)
Definition reg_failed (s : rstate) : reg_pc := if r_joined s then RSleep else RRefused.

Definition reg_grant (s : rstate) : rstate :=
  match e_grant (ttl / 10 ^ 9) (r_etcd s) with
  | (Err _, e) => mk_rstate e (r_leases s) (r_attached s) (r_done s) (r_joined s) (reg_failed s)
  | (Ok l, e) => mk_rstate e ({[l]} ∪ r_leases s) (r_attached s) (r_done s) (r_joined s) (RPut l)
  end.

(** etcd refuses a put on a lease that has expired. One that reports an error may have
    been carried out, which shows in etcd's revision. *)
Definition reg_put (l : Z) (s : rstate) : rstate :=
  if decide (l ∈ r_leases s) then
    match e_write (OpPut (memberKey prefix id) (DText addr)) (r_etcd s) with
    | (Err _, e) =>
        let happened := negb (es_rev (e_state e) =? es_rev (e_state (r_etcd s))) in
        mk_rstate e (r_leases s) (if happened then Some l else r_attached s) (r_done s) (r_joined s) (reg_failed s)
    | (Ok _, e) => mk_rstate e (r_leases s) (Some l) (r_done s) (r_joined s) (RKeepAlive l)
    end
  else at_pc s (reg_failed s).

Definition reg_keepAlive (l : Z) (s : rstate) : rstate :=
  match e_keepAlive l (r_etcd s) with
  | (Err _, e) => mk_rstate e (r_leases s) (r_attached s) (r_done s) (r_joined s) (reg_failed s)
  | (Ok _, e) => mk_rstate e (r_leases s) (r_attached s) (r_done s) true (RDrain l)
  end.

(** What other clients do: everything but write this node's key, or a key under the
    members' prefix that is not one a node registers at. *)
Definition other_ok (o : eop doc) : bool :=
  match o with
  | OpPut k _ | OpTxn _ k _ =>
      negb (String.eqb k (memberKey prefix id)) &&
      (negb (HasPrefix k (memberPrefix prefix)) || negb (Contains (TrimPrefix k (memberPrefix prefix)) "/")
        && negb (String.eqb k (memberPrefix prefix)))
  | OpDelete k => negb (String.eqb k (memberKey prefix id))
  | OpDeleteRange a b => negb (in_range a b (memberKey prefix id))
  end.

(** The renewals end when the client loses the lease or the stream, or the context is
    done; [stayRegistered] cannot tell which, and asks the context. *)
Definition reg_next (s : rstate) (ev : reg_event) : option rstate :=
  match ev, r_pc s with
  | RegStep, RGrant => Some (reg_grant s)
  | RegStep, RPut l => Some (reg_put l s)
  | RegStep, RKeepAlive l => Some (reg_keepAlive l s)
  | RegRenewed, RDrain l => if decide (l ∈ r_leases s) then Some s else None
  | RegClosed, RDrain l => Some (at_pc s (if r_done s then RReturned else RSleep))
  | RegWoken taken, RSleep =>
      match sleep (r_done s) taken with
      | Some true => Some (at_pc s RGrant)
      | Some false => Some (at_pc s RReturned)
      | None => None
      end
  | RegCancel, pc => Some (mk_rstate (r_etcd s) (r_leases s) (r_attached s) true (r_joined s) pc)
  | RegExpire l, pc =>
      if decide (l ∈ r_leases s) then
        if decide (r_attached s = Some l) then
          match e_write (OpDelete (memberKey prefix id)) (r_etcd s) with
          | (Ok _, e) => Some (mk_rstate e (r_leases s ∖ {[l]}) None (r_done s) (r_joined s) pc)
          | (Err _, _) => None
          end
        else Some (mk_rstate (r_etcd s) (r_leases s ∖ {[l]}) (r_attached s) (r_done s) (r_joined s) pc)
      else None
  | RegOther o, pc =>
      if other_ok o then
        Some (mk_rstate (e_write o (r_etcd s)).2 (r_leases s) (r_attached s) (r_done s) (r_joined s) pc)
      else None
  | _, _ => None
  end.

(** [Join] up to its first call; [leases] and [attached] are what an earlier life of the
    node left. *)
Definition join_begin (leases : gset Z) (attached : option Z) (e : E) : rstate :=
  mk_rstate e leases attached false false
    (if ttl <? 10 ^ 9 then RRefused else if String.eqb id "" || Contains id "/" then RRefused else RGrant).

(** What the goroutine does next when nobody interferes: it waits out the pause and
    notices the end of a lease. *)
Definition reg_own (s : rstate) : rstate :=
  let ev := match r_pc s with
            | RDrain l => if decide (l ∈ r_leases s) then RegRenewed else RegClosed
            | RSleep => RegWoken TimerFires
            | _ => RegStep
            end in
  default s (reg_next s ev).
End registration.

(** *** Facts *)

Section listing_facts.
Context {E : Type} `{!Etcd doc E} `{!EtcdLaws doc E} (prefix : string).

Definition member_name (i : string) : Prop := i <> "" /\ has_slash i = false.

(** Every key under the members' prefix is one that a node registers at. *)
Definition members_wf (st : estate doc) : Prop :=
  forall k x, HasPrefix k (memberPrefix prefix) = true -> es_kvs st !! k = Some x ->
    exists i, member_name i /\ k = memberKey prefix i.

Lemma elem_of_member_range st k x : (k, x) ∈ member_range prefix st <->
  HasPrefix k (memberPrefix prefix) = true /\ es_kvs st !! k = Some x.
Proof.
  unfold member_range. rewrite elem_of_sorted_range. simpl.
  rewrite <- (e_prefixEnd_law (memberPrefix prefix) k); [done | apply small_slash].
Qed.

Lemma memberKey_base i : member_name i -> path_Base (memberKey prefix i) = i.
Proof. intros [Hne Hs]. unfold memberKey, memberPrefix. rewrite <- sapp_assoc. by apply path_Base_snoc. Qed.

Lemma memberKey_inj i j : memberKey prefix i = memberKey prefix j -> i = j.
Proof. apply sapp_inj_l. Qed.

Lemma membership_lookup st i x : members_wf st -> member_name i ->
  es_kvs st !! memberKey prefix i = Some x -> membership_of prefix st !! i = Some (doc_text (kv_value x)).
Proof.
  intros Hwf Hi Hx. apply by_base_lookup.
  - exists (memberKey prefix i). split; [|by apply memberKey_base]. apply elem_of_member_range.
    split; [apply HasPrefix_app | done].
  - intros k y [Hk Hy]%elem_of_member_range Hb. destruct (Hwf k y Hk Hy) as (j & Hj & ->).
    rewrite memberKey_base in Hb by done. congruence.
Qed.

Lemma Members_lists e m e' : Meta.Members prefix e = (Ok m, e') ->
  e_state e' = e_state e /\ m = membership_of prefix (e_state e).
Proof. intros (r & e1 & Hr & [= <- <-])%st_bind_Ok. by apply e_range_law in Hr as [Hs ->]. Qed.
End listing_facts.

Lemma Contains_slash s : Contains s "/" = false -> has_slash s = false.
Proof.
  intros H. destruct (has_slash s) eqn:Hs; [|done]. exfalso. rewrite <- not_true_iff_false in H. apply H. clear H.
  apply Contains_spec. induction s as [|c s IH]; [done|]. simpl in Hs. destruct (Ascii.eqb_spec c "/") as [->|_].
  - by exists "", s.
  - destruct (IH Hs) as (a & b & ->). by exists (String c a), b.
Qed.

Section registration_facts.
Context {E : Type} `{!Etcd doc E} `{!EtcdLaws doc E} (prefix id addr : string) (ttl : Z).
Abbreviation own_key := (memberKey prefix id).
Abbreviation next := (reg_next prefix id addr ttl).

(** A write is carried out or it is not. *)
Lemma etcd_write_effect o (e : E) r e' : e_write o e = (r, e') ->
  e_state e' = e_state e \/ e_state e' = (apply (e_state e) o).2.
Proof. intros H%e_write_law. destruct r; [right; by rewrite <- H | tauto]. Qed.

Lemma etcd_write_Ok o (e : E) b e' : e_write o e = (Ok b, e') -> e_state e' = (apply (e_state e) o).2.
Proof. intros H%e_write_law. by rewrite <- H. Qed.

Lemma put_wf st k v : (HasPrefix k (memberPrefix prefix) = true -> exists i, member_name i /\ k = memberKey prefix i) ->
  members_wf prefix st -> members_wf prefix (put st k v).
Proof.
  intros Hk Hwf j x Hj. unfold put. simpl. intros [[<- _]|[_ Hx]]%lookup_insert_Some; [by apply Hk | by eapply Hwf].
Qed.

Lemma other_key_ok k : negb (String.eqb k own_key) &&
    (negb (HasPrefix k (memberPrefix prefix)) || negb (Contains (TrimPrefix k (memberPrefix prefix)) "/")
      && negb (String.eqb k (memberPrefix prefix))) = true ->
  k <> own_key /\ (HasPrefix k (memberPrefix prefix) = true -> exists i, member_name i /\ k = memberKey prefix i).
Proof.
  intros [H1 H2]%andb_prop. split; [by apply String.eqb_neq, negb_true_iff|].
  intros Hp. rewrite Hp in H2. simpl in H2. apply andb_prop in H2 as [Hc Hne].
  apply HasPrefix_spec in Hp as [t ->]. exists t. split; [|done]. rewrite TrimPrefix_app in Hc.
  split; [|by apply Contains_slash, negb_true_iff]. intros ->. rewrite sapp_nil_r, String.eqb_refl in Hne. done.
Qed.

(** What another client does leaves this node's key and the shape of the others. *)
Lemma other_keeps st o : other_ok prefix id o = true ->
  es_kvs (apply st o).2 !! own_key = es_kvs st !! own_key /\
  (members_wf prefix st -> members_wf prefix (apply st o).2).
Proof.
  destruct o as [k v|k|a b|ifs k v]; cbn [other_ok].
  - intros [Hk Hwf]%other_key_ok. cbn [apply snd]. split; [|by apply put_wf]. unfold put. simpl. by rewrite lookup_insert_ne.
  - intros Hk%negb_true_iff%String.eqb_neq. cbn [apply snd]. destruct (es_kvs st !! k) eqn:Ek; [|done]. simpl.
    split; [by rewrite lookup_delete_ne|]. intros Hwf j x Hj. simpl. intros [_ Hx]%lookup_delete_Some. by eapply Hwf.
  - intros Hr%negb_true_iff. cbn [apply snd es_kvs]. split.
    + destruct (es_kvs st !! own_key) eqn:Ek; [by apply map_lookup_filter_Some|].
      apply map_lookup_filter_None. by left.
    + intros Hwf j x Hj. simpl. intros [Hx _]%map_lookup_filter_Some. by eapply Hwf.
  - intros [Hk Hwf]%other_key_ok. cbn [apply]. destruct (forallb _ _); [|done]. cbn [snd].
    split; [|by apply put_wf]. unfold put. simpl. by rewrite lookup_insert_ne.
Qed.

(** *** The invariant *)

Definition key_holds (st : estate doc) (P : doc -> Prop) : Prop :=
  exists x, es_kvs st !! own_key = Some x /\ P (kv_value x).

(** The lease the key hangs on is alive and the key is there; it has this node's address
    once this node has put it; and whoever drains renewals does so of that lease, or of
    one that is lost. *)
Record reg_inv (s : rstate) : Prop := {
  ri_attached : forall l, r_attached s = Some l -> l ∈ r_leases s /\ key_holds (e_state (r_etcd s)) (fun _ => True);
  ri_ours : (r_joined s = true \/ exists l, r_pc s = RKeepAlive l) -> r_attached s <> None ->
    key_holds (e_state (r_etcd s)) (fun d => d = DText addr);
  ri_lease : forall l, r_pc s = RKeepAlive l \/ r_pc s = RDrain l -> r_attached s = Some l \/ l ∉ r_leases s;
  ri_joined : (exists l, r_pc s = RDrain l) \/ r_pc s = RSleep \/ r_pc s = RReturned -> r_joined s = true;
  ri_returned : r_pc s = RReturned -> r_done s = true;
  ri_refused : r_pc s = RRefused -> r_joined s = false;
  ri_name : r_pc s <> RRefused -> member_name id;
  ri_wf : members_wf prefix (e_state (r_etcd s))
}.

Lemma own_put st : key_holds (apply st (OpPut own_key (DText addr))).2 (fun d => d = DText addr).
Proof. eexists. simpl. by rewrite lookup_insert_eq. Qed.

Lemma own_put_wf st : member_name id -> members_wf prefix st -> members_wf prefix (apply st (OpPut own_key (DText addr))).2.
Proof. intros Hid. apply put_wf. eauto. Qed.

Lemma key_holds_impl st (P Q : doc -> Prop) : (forall d, P d -> Q d) -> key_holds st P -> key_holds st Q.
Proof. intros H (x & Hx & Hp). exists x. auto. Qed.

Lemma key_holds_other e o r e' P : other_ok prefix id o = true -> e_write o e = (r, e') ->
  key_holds (e_state e) P -> key_holds (e_state e') P.
Proof.
  intros Ho Hw (x & Hx & Hp). exists x. split; [|done]. rewrite <- Hx.
  apply etcd_write_effect in Hw as [->| ->]; [done|]. by apply other_keeps.
Qed.

Ltac reg_inv_tac :=
  constructor; simpl in *; auto;
  repeat match goal with
  | H : _ \/ _ |- _ => destruct H
  | H : exists _, _ |- _ => destruct H
  | |- forall _, _ => intro
  end; simplify_eq; auto; try congruence.

Lemma reg_failed_pc s : reg_inv s -> reg_failed s = RSleep /\ r_joined s = true \/ reg_failed s = RRefused /\ r_joined s = false.
Proof. intros _. unfold reg_failed. destruct (r_joined s); auto. Qed.

(** A call that failed: the etcd it left and the lease the key hangs on are all that may
    have changed. *)
Lemma reg_failed_inv s e att : reg_inv s -> r_pc s <> RRefused ->
  (forall l, att = Some l -> l ∈ r_leases s /\ key_holds (e_state e) (fun _ => True)) ->
  (r_joined s = true -> att <> None -> key_holds (e_state e) (fun d => d = DText addr)) ->
  members_wf prefix (e_state e) ->
  reg_inv (mk_rstate e (r_leases s) att (r_done s) (r_joined s) (reg_failed s)).
Proof.
  intros Hinv Hr Ha Ho Hwf. pose proof (ri_name _ Hinv Hr) as Hid.
  destruct (reg_failed_pc s Hinv) as [[-> Hj]|[-> Hj]]; reg_inv_tac.
Qed.

Lemma reg_grant_inv s : reg_inv s -> r_pc s = RGrant -> reg_inv (reg_grant ttl s).
Proof.
  intros Hinv Hpc. unfold reg_grant. destruct (e_grant _ _) as [[l|err] e] eqn:He;
    apply e_grant_law in He as [He _].
  - destruct Hinv. rewrite Hpc in *. constructor; simpl; rewrite ?He; auto.
    + intros l' Hl. destruct (ri_attached0 l' Hl). split; [set_solver | done].
    + intros [Hj|[? ?]]; [auto | done].
    + intros l' [?|?]; done.
    + intros [[? ?]|[?|?]]; done.
    + done.
    + done.
  - apply reg_failed_inv; rewrite ?He; try apply Hinv; try done; try congruence.
    intros Hj. apply Hinv. by left.
Qed.

Lemma reg_put_inv s l : reg_inv s -> r_pc s = RPut l -> reg_inv (reg_put prefix id addr l s).
Proof.
  intros Hinv Hpc. assert (Hr : r_pc s <> RRefused) by congruence. pose proof (ri_name _ Hinv Hr) as Hid.
  unfold reg_put. destruct (decide _) as [Hl|Hl].
  2: { apply reg_failed_inv; try done; try apply Hinv. intros Hj. apply (ri_ours _ Hinv). by left. }
  destruct (e_write _ _) as [[b|err] e] eqn:He.
  - apply etcd_write_Ok in He. pose proof (own_put (e_state (r_etcd s))) as Hk. rewrite <- He in Hk.
    pose proof (own_put_wf _ Hid (ri_wf _ Hinv)) as Hwf. rewrite <- He in Hwf.
    destruct Hinv. constructor; simpl; auto; try done.
    + intros l' [= <-]. split; [done|]. by eapply key_holds_impl, Hk.
    + intros l' [[= <-]|?]; [by left | done].
    + intros [[? ?]|[?|?]]; done.
  - apply reg_failed_inv; try done.
    + intros l' Hl'. destruct (Z.eqb_spec (es_rev (e_state e)) (es_rev (e_state (r_etcd s)))) as [Heq|Hne]; simpl in Hl'.
      * apply etcd_write_effect in He as [He|He]; rewrite He in *; [by apply Hinv|]. simpl in Heq. lia.
      * simplify_eq. apply etcd_write_effect in He as [He|He]; rewrite He in *; [done|]. split; [done|].
        eapply key_holds_impl, own_put. done.
    + intros Hj Hne. apply etcd_write_effect in He as [He|He]; rewrite He in *; [|apply own_put].
      rewrite Z.eqb_refl in Hne. apply (ri_ours _ Hinv); [by left | done].
    + apply etcd_write_effect in He as [He|He]; rewrite He; [apply Hinv | apply own_put_wf; [done | apply Hinv]].
Qed.

Lemma reg_keepAlive_inv s l : reg_inv s -> r_pc s = RKeepAlive l -> reg_inv (reg_keepAlive l s).
Proof.
  intros Hinv Hpc. unfold reg_keepAlive. destruct (e_keepAlive _ _) as [[[]|err] e] eqn:He;
    apply e_keepAlive_law in He as [He _].
  - destruct Hinv. constructor; simpl; rewrite ?He; auto; try done.
    + intros _. apply ri_ours0. right. eauto.
    + intros l' [?|[= <-]]; [done|]. apply ri_lease0. by left.
    + intros _. apply ri_name0. congruence.
  - apply reg_failed_inv; rewrite ?He; try apply Hinv; try congruence.
    intros Hj. apply (ri_ours _ Hinv). by left.
Qed.

(** Every event keeps the invariant. *)
Lemma reg_next_inv s ev s' : reg_inv s -> next s ev = Some s' -> reg_inv s'.
Proof.
  intros Hinv. destruct ev as [| | |taken| |l|o]; simpl.
  - destruct (r_pc s) eqn:Hpc; intros [= <-]; [by apply reg_grant_inv | by apply reg_put_inv | by apply reg_keepAlive_inv].
  - destruct (r_pc s); try done. destruct (decide _); [by intros [= <-] | done].
  - destruct (r_pc s) eqn:Hpc; intros [= <-]. assert (r_joined s = true) by (apply Hinv; eauto).
    destruct (r_done s) eqn:Hd, Hinv; reg_inv_tac; try (apply ri_name0; congruence); eauto.
  - destruct (r_pc s) eqn:Hpc; try done. assert (r_joined s = true) by (apply Hinv; eauto).
    destruct taken; simpl; [|destruct (r_done s) eqn:Hd; [|done]]; intros [= <-]; destruct Hinv;
      reg_inv_tac; try (apply ri_name0; congruence); eauto.
  - intros [= <-]. destruct Hinv. constructor; simpl; auto.
  - destruct (decide (l ∈ r_leases s)) as [Hl|_]; [|done]. destruct (decide (r_attached s = Some l)) as [Ha|Ha].
    + destruct (e_write _ _) as [[b|err] e] eqn:He; [|done]. intros [= <-]. apply etcd_write_Ok in He.
      destruct Hinv. constructor; simpl; auto; try done.
      * intros l' Hpc. right. destruct (ri_lease0 l' Hpc); set_solver.
      * rewrite He. cbn [apply snd]. destruct (es_kvs _ !! own_key); [|done]. intros j x Hj. simpl.
        intros [_ Hx]%lookup_delete_Some. by eapply ri_wf0.
    + intros [= <-]. destruct Hinv. constructor; simpl; auto.
      * intros l' Hl'. destruct (ri_attached0 l' Hl'). split; [set_solver | done].
      * intros l' Hpc. destruct (ri_lease0 l' Hpc); set_solver.
  - destruct (other_ok prefix id o) eqn:Ho; [|done]. intros [= <-]. destruct (e_write o (r_etcd s)) as [r e] eqn:He.
    destruct Hinv. constructor; simpl; auto.
    + intros l Hl. destruct (ri_attached0 l Hl). split; [done|]. by eapply key_holds_other.
    + intros Hj Hne. eapply key_holds_other; [done|done|]. auto.
    + apply etcd_write_effect in He as [->| ->]; [done|]. by apply other_keeps.
Qed.

Lemma join_begin_inv leases attached e : members_wf prefix (e_state e) ->
  (forall l, attached = Some l -> l ∈ leases /\ is_Some (es_kvs (e_state e) !! own_key)) ->
  reg_inv (join_begin id ttl leases attached e).
Proof.
  intros Hwf Hatt. assert (Hk : forall l, attached = Some l -> l ∈ leases /\ key_holds (e_state e) (fun _ => True)).
  { intros l Hl. destruct (Hatt l Hl) as [? [x Hx]]. split; [done|]. by exists x. }
  unfold join_begin. destruct (ttl <? 10 ^ 9), (String.eqb_spec id "") as [|Hne], (Contains id "/") eqn:Hc;
    simpl; constructor; simpl; auto; try done; try (intros [[? ?]|[?|?]]; done); try (intros ? [?|?]; done);
    try (by intros [?|[? ?]]).
  intros _. split; [done | by apply Contains_slash].
Qed.

Definition drains_live (s : rstate (E := E)) : Prop := exists l, r_pc s = RDrain l /\ l ∈ r_leases s.

(** Whoever drains the renewals of a lease that is alive is listed at its address. *)
Lemma drains_listed s : reg_inv s -> drains_live s -> membership_of prefix (e_state (r_etcd s)) !! id = Some addr.
Proof.
  intros Hinv (l & Hpc & Hl). assert (r_attached s = Some l) as Ha.
  { destruct (ri_lease _ Hinv l); auto. done. }
  destruct (ri_ours _ Hinv) as (x & Hx & Hv); [left; apply Hinv; eauto | congruence |].
  erewrite membership_lookup; [|apply Hinv|apply Hinv; congruence|done]. by rewrite Hv.
Qed.

(** C25: In whatever order this node's steps, expiring leases, a cancelled context and
    other clients follow one another after [Join] is called, [stayRegistered] returns only
    when the context is done, a node that joined keeps going round for as long as it is
    not, and whenever it is draining the renewals of a lease that has not expired [Members]
    lists it at its address: the expiry of a lease that an earlier, failed attempt left
    behind does not remove it. *)
Theorem stayRegistered_keeps_listed (leases : gset Z) (attached : option Z) (e : E) (evs : list reg_event)
    (s : rstate) :
  members_wf prefix (e_state e) ->
  (forall l, attached = Some l -> l ∈ leases /\ is_Some (es_kvs (e_state e) !! own_key)) ->
  run next evs (join_begin id ttl leases attached e) = Some s ->
  (r_pc s = RReturned -> r_done s = true) /\
  (r_joined s = true -> r_pc s <> RRefused) /\
  (forall l m e', r_pc s = RDrain l -> l ∈ r_leases s -> Meta.Members prefix (r_etcd s) = (Ok m, e') ->
     m !! id = Some addr).
Proof.
  intros Hwf Ha Hrun. assert (Hinv : reg_inv s).
  { eapply run_invariant; [intros; by eapply reg_next_inv | by apply join_begin_inv | done]. }
  split; [apply Hinv|]. split.
  - intros Hj Hr. apply Hinv in Hr. congruence.
  - intros l m e' Hpc Hl [_ ->]%Members_lists. apply drains_listed; [done|]. by exists l.
Qed.

(** *** Recovery *)

(** An etcd that answers every call, now and after each of them. *)
Record answers (R : E -> Prop) : Prop := {
  an_grant : forall n e, R e -> exists l e', e_grant n e = (Ok l, e') /\ R e';
  an_write : forall o e, R e -> exists b e', e_write o e = (Ok b, e') /\ R e';
  an_keepAlive : forall l e, R e -> exists e', e_keepAlive l e = (Ok tt, e') /\ R e';
  an_range : forall a b n e, R e -> exists l e', e_range a b n e = (Ok l, e') /\ R e'
}.

(** How many steps of its own a node is away from a lease. *)
Definition reg_rank (s : rstate (E := E)) : nat :=
  match r_pc s with
  | RDrain l => if decide (l ∈ r_leases s) then 0 else 5
  | RKeepAlive l => if decide (l ∈ r_leases s) then 1 else 6
  | RPut l => if decide (l ∈ r_leases s) then 2 else 5
  | RGrant => 3
  | RSleep => 4
  | RReturned | RRefused => 0
  end.

Definition in_loop (R : E -> Prop) (s : rstate) : Prop :=
  reg_inv s /\ r_joined s = true /\ r_done s = false /\ R (r_etcd s).

Lemma reg_own_progress R s : answers R -> in_loop R s -> in_loop R (reg_own prefix id addr ttl s) /\
  (reg_rank (reg_own prefix id addr ttl s) <= reg_rank s - 1)%nat.
Proof.
  intros HR (Hinv & Hj & Hd & Hr). unfold reg_own. destruct s as [e ls att d j pc]. simpl in *. subst d j.
  assert (Hstep : forall ev s', next (mk_rstate e ls att false true pc) ev = Some s' -> reg_inv s').
  { intros ev s'. by apply reg_next_inv. }
  destruct pc as [|l|l|l| | |]; simpl in *.
  - specialize (Hstep RegStep _ eq_refl). unfold reg_grant in *. simpl in *.
    destruct (an_grant R HR (ttl / 10 ^ 9) e Hr) as (l & e' & Hc & Hr'). rewrite Hc in *.
    split; [done|]. unfold reg_rank. simpl. rewrite decide_True by set_solver. lia.
  - specialize (Hstep RegStep _ eq_refl). unfold reg_put, reg_rank in *. simpl in *. destruct (decide (l ∈ ls)) as [Hl|Hl]; simpl in *.
    + destruct (an_write R HR (OpPut own_key (DText addr)) e Hr) as (b & e' & Hc & Hr'). rewrite Hc in *.
      split; [done|]. simpl. rewrite decide_True by done. lia.
    + split; [done|]. lia.
  - specialize (Hstep RegStep _ eq_refl). unfold reg_keepAlive, reg_rank in *. simpl in *.
    destruct (an_keepAlive R HR l e Hr) as (e' & Hc & Hr'). rewrite Hc in *. split; [done|]. simpl.
    destruct (decide (l ∈ ls)); lia.
  - unfold reg_rank. simpl. destruct (decide (l ∈ ls)) as [Hl|Hl]; simpl.
    + rewrite decide_True by done. simpl. split; [done|]. rewrite decide_True by done. lia.
    + split; [|lia]. split; [|done]. by apply (Hstep RegClosed).
  - split; [|unfold reg_rank; simpl; lia]. split; [|done]. by apply (Hstep (RegWoken TimerFires)).
  - pose proof (ri_returned _ Hinv eq_refl). done.
  - exfalso. pose proof (ri_refused _ Hinv eq_refl). done.
Qed.

Lemma reg_own_settles R : answers R -> forall n s, in_loop R s -> (reg_rank s <= n)%nat ->
  in_loop R (Nat.iter n (reg_own prefix id addr ttl) s) /\ reg_rank (Nat.iter n (reg_own prefix id addr ttl) s) = 0%nat.
Proof.
  intros HR n. induction n as [|n IH]; intros s Hs Hn; [split; [done | simpl; lia]|].
  rewrite Nat.iter_succ_r. destruct (reg_own_progress R s HR Hs) as [Hs' Hle]. apply IH; [done | lia].
Qed.

Lemma reg_rank_le s : (reg_rank s <= 6)%nat.
Proof. unfold reg_rank. destruct (r_pc s); try destruct (decide _); lia. Qed.

Lemma settled_listed R s : in_loop R s -> reg_rank s = 0%nat ->
  drains_live s /\ membership_of prefix (e_state (r_etcd s)) !! id = Some addr.
Proof.
  intros (Hinv & Hj & Hd & _) H0. assert (Hlive : drains_live s).
  { unfold reg_rank in H0. unfold drains_live. destruct (r_pc s) as [|l|l|l| | |] eqn:Hpc; try done; try (by destruct (decide _)).
    - destruct (decide _); [eauto | done].
    - apply Hinv in Hpc. congruence.
    - apply Hinv in Hpc. congruence. }
  split; [done|]. by apply drains_listed.
Qed.

(** C26: Losing a lease is not fatal. From any state a node can be in after it has joined, with
    the context not done, six steps of its own are enough to be draining the renewals of
    a live lease and to be listed again, if etcd answers them. *)
Theorem stayRegistered_rejoins (leases : gset Z) (attached : option Z) (e : E) (evs : list reg_event)
    (s : rstate) (R : E -> Prop) :
  members_wf prefix (e_state e) ->
  (forall l, attached = Some l -> l ∈ leases /\ is_Some (es_kvs (e_state e) !! own_key)) ->
  run next evs (join_begin id ttl leases attached e) = Some s ->
  r_joined s = true -> r_done s = false -> answers R -> R (r_etcd s) ->
  let s' := Nat.iter 6 (reg_own prefix id addr ttl) s in
  drains_live s' /\ membership_of prefix (e_state (r_etcd s')) !! id = Some addr.
Proof.
  intros Hwf Ha Hrun Hj Hd HR Hr s'. assert (Hinv : reg_inv s).
  { eapply run_invariant; [intros; by eapply reg_next_inv | by apply join_begin_inv | done]. }
  destruct (reg_own_settles R HR 6 s) as [Hl H0]; [done | apply reg_rank_le |].
  exact (settled_listed R s' Hl H0).
Qed.

(** Taken without interruption, the steps of [Join] are the calls [Meta.Join] makes. *)
Lemma join_steps leases attached e : match Meta.Join prefix id addr ttl e with
  | (Ok _, e') => exists s, run next [RegStep; RegStep; RegStep] (join_begin id ttl leases attached e) = Some s /\
      drains_live s /\ r_etcd s = e' /\ r_joined s = true
  | (Err _, e') => exists n s, run next (replicate n RegStep) (join_begin id ttl leases attached e) = Some s /\
      r_pc s = RRefused /\ r_etcd s = e'
  end.
Proof.
  unfold Meta.Join, join_begin. destruct (ttl <? 10 ^ 9); [by exists 0%nat; eexists|].
  destruct (String.eqb id "" || Contains id "/"); [by exists 0%nat; eexists|].
  unfold register, st_bind. destruct (e_grant _ e) as [[l|err] e1] eqn:H1.
  2: { exists 1%nat. eexists. simpl. unfold reg_grant. simpl. rewrite H1. done. }
  destruct (e_write _ e1) as [[b|err] e2] eqn:H2.
  2: { exists 2%nat. eexists. simpl. unfold reg_grant. simpl. rewrite H1. simpl. unfold reg_put. simpl.
       rewrite decide_True by set_solver. rewrite H2. done. }
  destruct (e_keepAlive l e2) as [[[]|err] e3] eqn:H3.
  - eexists. simpl. unfold reg_grant. simpl. rewrite H1. simpl. unfold reg_put. simpl.
    rewrite decide_True by set_solver. rewrite H2. simpl. unfold reg_keepAlive. simpl. rewrite H3.
    split; [done|]. split; [|done]. exists l. split; [done|]. simpl. set_solver.
  - exists 3%nat. eexists. simpl. unfold reg_grant. simpl. rewrite H1. simpl. unfold reg_put. simpl.
    rewrite decide_True by set_solver. rewrite H2. simpl. unfold reg_keepAlive. simpl. rewrite H3. done.
Qed.
End registration_facts.

(** ** Watching *)

Section watching.
Context {E : Type} `{!Etcd doc E} (prefix : string).

(** The goroutine of [WatchMembers]: about to open the watch, about to list, between two
    attempts, offering a copy, waiting for a change, or gone with [out] closed. *)
Inductive watch_pc :=
  | WOpen
  | WList
  | WSleep
  | WSend (members : gmap string string)
  | WWait
  | WClosed.

(** The loop of [main] that receives from [out]. *)
Inductive consumer :=
  | CReceive
  | CSet (peers : gmap string string)
  | CEnded.

(** [v_unread] is how many changes under the prefix the watch has not delivered yet, and
    [v_open] whether it still notices new ones. *)
Record vstate := mk_vstate {
  v_etcd : E;
  v_done : bool;
  v_open : bool;
  v_unread : Z;
  v_pc : watch_pc;
  v_consumer : consumer;
  v_coord : Coordinator
}.

Inductive watch_event :=
  | WatchStep
  | WatchWoken (taken : select_case)
  | WatchSent
  | WatchSet
  | WatchChanged (n : Z)
  | WatchEnded
  | WatchDone
  | WatchFinished
  | EnvOp (o : eop doc)
  | EnvBreak
  | EnvCancel.

Definition w_at (s : vstate) (pc : watch_pc) : vstate :=
  mk_vstate (v_etcd s) (v_done s) (v_open s) (v_unread s) pc (v_consumer s) (v_coord s).

(** A change shows in the keys, the values or the revisions under the prefix. *)
Definition changed (st st' : estate doc) : bool :=
  bool_decide (member_range prefix st <> member_range prefix st').

(** One response of the watch carries one or more changes. It ends, and delivers nothing
    more after what it has, when the context is done and also when etcd or its client
    gives it up. *)
Definition watch_next (s : vstate) (ev : watch_event) : option vstate :=
  match ev, v_pc s with
  | WatchStep, WOpen => Some (mk_vstate (v_etcd s) (v_done s) true 0 WList (v_consumer s) (v_coord s))
  | WatchStep, WList =>
      match Meta.Members prefix (v_etcd s) with
      | (Ok members, e) => Some (mk_vstate e (v_done s) (v_open s) (v_unread s) (WSend members) (v_consumer s) (v_coord s))
      | (Err _, e) => Some (mk_vstate e (v_done s) (v_open s) (v_unread s)
                              (if v_done s then WClosed else WSleep) (v_consumer s) (v_coord s))
      end
  | WatchWoken taken, WSleep =>
      match sleep (v_done s) taken with
      | Some true => Some (w_at s WList)
      | Some false => Some (w_at s WClosed)
      | None => None
      end
  | WatchSent, WSend members =>
      match v_consumer s with
      | CReceive => Some (mk_vstate (v_etcd s) (v_done s) (v_open s) (v_unread s) WWait (CSet members) (v_coord s))
      | _ => None
      end
  | WatchChanged n, WWait =>
      if (1 <=? n) && (n <=? v_unread s) then
        Some (mk_vstate (v_etcd s) (v_done s) (v_open s) (v_unread s - n) WList (v_consumer s) (v_coord s))
      else None
  | WatchEnded, WWait => if negb (v_open s) && (v_unread s =? 0) then Some (w_at s WClosed) else None
  | WatchDone, (WSend _ | WWait) => if v_done s then Some (w_at s WClosed) else None
  | WatchSet, pc =>
      match v_consumer s with
      | CSet peers => Some (mk_vstate (v_etcd s) (v_done s) (v_open s) (v_unread s) pc CReceive (SetMembers (v_coord s) peers))
      | _ => None
      end
  | WatchFinished, WClosed =>
      match v_consumer s with
      | CReceive => Some (mk_vstate (v_etcd s) (v_done s) (v_open s) (v_unread s) WClosed CEnded (v_coord s))
      | _ => None
      end
  | EnvOp o, pc =>
      let e := (e_write o (v_etcd s)).2 in
      let seen := v_open s && changed (e_state (v_etcd s)) (e_state e) in
      Some (mk_vstate e (v_done s) (v_open s) (v_unread s + if seen then 1 else 0) pc (v_consumer s) (v_coord s))
  | EnvBreak, pc => Some (mk_vstate (v_etcd s) (v_done s) false (v_unread s) pc (v_consumer s) (v_coord s))
  | EnvCancel, pc => Some (mk_vstate (v_etcd s) true (v_open s) (v_unread s) pc (v_consumer s) (v_coord s))
  | _, _ => None
  end.

Definition watch_begin (c : Coordinator) (e : E) : vstate := mk_vstate e false false 0 WOpen CReceive c.

(** What the two loops do next when nobody interferes. *)
Definition watch_own (s : vstate) : vstate :=
  let ev := match v_consumer s, v_pc s with
            | CSet _, _ => WatchSet
            | _, (WOpen | WList) => WatchStep
            | _, WSleep => WatchWoken TimerFires
            | _, WSend _ => WatchSent
            | _, WWait => WatchChanged (v_unread s)
            | _, WClosed => WatchFinished
            end in
  default s (watch_next s ev).

(** Nothing left to do: the last copy has been handed over and no change is waiting. *)
Definition quiescent (s : vstate) : Prop :=
  v_open s = true /\ v_unread s = 0 /\ v_pc s = WWait /\ v_consumer s = CReceive.
End watching.

Section watching_facts.
Context {E : Type} `{!Etcd doc E} `{!EtcdLaws doc E} (prefix : string) (c0 : Coordinator).
Abbreviation next := (watch_next prefix).
Abbreviation now_members s := (membership_of prefix (e_state (v_etcd s))).

(** A copy is current, or a change the watch has noticed says it is not. *)
Definition fresh (s : vstate) (m : gmap string string) : Prop := m = now_members s \/ 0 < v_unread s.

(** The ring the coordinator places on is the one of the members it knows. *)
Definition ring_current (c : Coordinator) : Prop :=
  mb_ring (live c) = Ring.New (sorted_keys (Members c)) DefaultVNodes.

Record view_inv (s : vstate) : Prop := {
  vi_unread : 0 <= v_unread s;
  vi_self : c_self (v_coord s) = c_self c0 /\ c_addr (v_coord s) = c_addr c0;
  vi_ring : ring_current (v_coord s);
  vi_opened : v_pc s = WOpen -> v_open s = false;
  vi_send : forall m, v_open s = true -> v_pc s = WSend m -> fresh s m;
  vi_set : forall m, v_open s = true -> v_pc s = WWait -> v_consumer s = CSet m -> fresh s m;
  vi_view : v_open s = true -> v_pc s = WWait -> v_consumer s = CReceive ->
    Members (v_coord s) = <[c_self c0 := c_addr c0]> (now_members s) \/ 0 < v_unread s
}.

Lemma env_fresh (s : vstate) (m : gmap string string) e u : v_open s = true -> 0 <= v_unread s ->
  m = now_members s \/ 0 < v_unread s ->
  u = v_unread s + (if v_open s && changed prefix (e_state (v_etcd s)) (e_state e) then 1 else 0) ->
  m = membership_of prefix (e_state e) \/ 0 < u.
Proof.
  intros -> Hu Hm ->. simpl. unfold changed. destruct (bool_decide_reflect (member_range prefix (e_state (v_etcd s)) <> member_range prefix (e_state e))) as [H|H].
  - right. lia.
  - apply dec_stable in H. unfold membership_of in *. rewrite <- H. destruct Hm; [by left | right; lia].
Qed.

Lemma SetMembers_view c peers : Members (SetMembers c peers) = <[c_self c := c_addr c]> peers.
Proof. done. Qed.

Lemma SetMembers_ring c peers : ring_current (SetMembers c peers).
Proof. done. Qed.

(** Every event keeps the invariant. *)
Lemma watch_next_inv s ev s' : view_inv s -> next s ev = Some s' -> view_inv s'.
Proof.
  intros Hinv. pose proof Hinv as []. destruct ev as [|taken| | |n| | | |o| |]; simpl.
  - destruct (v_pc s) eqn:Hpc; try done.
    + intros [= <-]. constructor; simpl; auto; try done.
    + destruct (Meta.Members prefix (v_etcd s)) as [[m|err] e] eqn:Hm; intros [= <-].
      * apply Members_lists in Hm as [He ->]. constructor; simpl; auto; try done.
        intros m' Ho [= <-]. left. simpl. by rewrite He.
      * constructor; simpl; auto; destruct (v_done s); done.
  - destruct (v_pc s) eqn:Hpc; try done. destruct taken; simpl; [|destruct (v_done s); [|done]]; intros [= <-];
      constructor; simpl; auto; done.
  - destruct (v_pc s) as [| | |m| |] eqn:Hpc; try done. destruct (v_consumer s) eqn:Hc; try done. intros [= <-].
    constructor; simpl; auto; try done. intros m' Ho _ [= <-]. by apply (vi_send0 m).
  - destruct (v_consumer s) as [|m|] eqn:Hc; intros [= <-]. destruct vi_self0 as [Hs Ha].
    constructor; simpl; auto; try done. intros Ho Hpc _. rewrite SetMembers_view, Hs, Ha.
    destruct (vi_set0 m Ho Hpc eq_refl) as [->|H]; [by left | by right].
  - destruct (v_pc s) eqn:Hpc; try done. destruct (Z.leb_spec 1 n), (Z.leb_spec n (v_unread s)); try done.
    simpl. intros [= <-]. constructor; simpl; auto; try done. lia.
  - destruct (v_pc s) eqn:Hpc; try done. destruct (_ && _); intros [= <-]. constructor; simpl; auto; done.
  - destruct (v_pc s) eqn:Hpc; try done; destruct (v_done s); intros [= <-]; constructor; simpl; auto; done.
  - destruct (v_pc s) eqn:Hpc; try done. destruct (v_consumer s); intros [= <-]; constructor; simpl; auto; done.
  - destruct (e_write o (v_etcd s)) as [r e] eqn:He. intros [= <-]. constructor; simpl; auto.
    + destruct (_ && _); lia.
    + intros m Ho Hpc. eapply env_fresh; [done|done|by apply vi_send0|done].
    + intros m Ho Hpc Hc. eapply env_fresh; [done|done|by apply vi_set0|done].
    + intros Ho Hpc Hc. destruct (vi_view0 Ho Hpc Hc) as [Hv|Hv].
      * destruct (env_fresh s (now_members s) e _ Ho vi_unread0 (or_introl eq_refl) eq_refl) as [H|H]; [|by right].
        left. by rewrite Hv, H.
      * right. destruct (_ && _); lia.
  - intros [= <-]. constructor; simpl; auto; done.
  - intros [= <-]. constructor; simpl; auto.
Qed.

Lemma watch_begin_inv e : ring_current c0 -> view_inv (watch_begin c0 e).
Proof. intros H. constructor; simpl; try done. Qed.

Lemma watch_run_inv e evs s : ring_current c0 -> run next evs (watch_begin c0 e) = Some s -> view_inv s.
Proof.
  intros H0. apply run_invariant; [intros; by eapply watch_next_inv | by apply watch_begin_inv].
Qed.

Lemma quiescent_view s : view_inv s -> quiescent s ->
  Members (v_coord s) = <[c_self c0 := c_addr c0]> (now_members s) /\ ring_current (v_coord s).
Proof.
  intros Hinv (Ho & Hu & Hpc & Hc). split; [|apply Hinv].
  destruct (vi_view _ Hinv Ho Hpc Hc) as [H|H]; [done | lia].
Qed.

(** *** Convergence *)

Definition watching (R : E -> Prop) (s : vstate) : Prop :=
  view_inv s /\ (v_open s = true \/ v_pc s = WOpen) /\ v_pc s <> WClosed /\ v_consumer s <> CEnded /\ R (v_etcd s).

(** How many steps of its own a node is away from knowing the members. *)
Definition watch_rank (s : vstate (E := E)) : Z :=
  (if v_unread s =? 0 then 0 else 4) +
  (match v_pc s with WWait => 0 | WSend _ => 2 | WList => 3 | WSleep | WOpen => 4 | WClosed => 0 end) +
  (match v_consumer s with CSet _ => 1 | _ => 0 end).

Lemma watch_own_progress R s : answers R -> watching R s -> watching R (watch_own prefix s) /\
  e_state (v_etcd (watch_own prefix s)) = e_state (v_etcd s) /\
  (watch_own prefix s = s /\ quiescent s \/ watch_rank (watch_own prefix s) < watch_rank s).
Proof.
  intros HR (Hinv & Ho & Hpc & Hc & Hr). unfold watch_own.
  assert (Hstep : forall ev s', next s ev = Some s' -> view_inv s') by (intros ev s'; by apply watch_next_inv).
  pose proof (vi_unread _ Hinv) as Hu. unfold watching, watch_rank. destruct s as [e d o u pc co c]. simpl in *.
  destruct co as [|m|]; [|clear Hc|done].
  - destruct pc as [| | |m| |]; simpl in *; try done.
    + split; [|split; [done | right; destruct (Z.eqb_spec u 0); simpl; lia]].
      split; [by apply (Hstep WatchStep)|]. auto.
    + destruct Ho as [->|]; [|done]. destruct (an_range R HR (memberPrefix prefix) (e_prefixEnd (memberPrefix prefix)) 0 e Hr) as (l & e' & Hl & Hr').
      assert (Hm : Meta.Members prefix e = (Ok (by_base l.1), e')) by (unfold Meta.Members, st_bind; by rewrite Hl).
      specialize (Hstep WatchStep). simpl in Hstep. rewrite Hm in *. simpl.
      apply Members_lists in Hm as [He _]. rewrite He. split; [|split; [done | right; lia]].
      split; [by apply Hstep | auto].
    + destruct Ho as [->|]; [|done]. split; [|split; [done | right; lia]]. split; [by apply (Hstep (WatchWoken TimerFires))|]. auto.
    + destruct Ho as [->|]; [|done]. split; [|split; [done | right; lia]]. split; [by apply (Hstep WatchSent)|]. auto.
    + destruct Ho as [->|]; [|done]. specialize (Hstep (WatchChanged u)). simpl in Hstep.
      rewrite (proj2 (Z.leb_le u u)) in * by lia. rewrite andb_true_r in *.
      destruct (Z.leb_spec 1 u); simpl.
      * split; [|split; [done | right; rewrite Z.sub_diag; destruct (Z.eqb_spec u 0); simpl; lia]].
        split; [by apply Hstep | auto].
      * split; [auto|]. split; [done|]. left. split; [done|]. assert (u = 0) by lia. by subst u.
  - split; [|split; [by destruct pc | right; destruct pc; simpl; lia]].
    assert (Hs' : next (mk_vstate e d o u pc (CSet m) c) WatchSet = Some (mk_vstate e d o u pc CReceive (SetMembers c m))) by (by destruct pc).
    simpl in *. split; [by apply (Hstep WatchSet); destruct pc|]. destruct pc; auto.
Qed.

Lemma watch_own_settles R : answers R -> forall n s, watching R s -> watch_rank s <= Z.of_nat n ->
  watching R (Nat.iter n (watch_own prefix) s) /\ quiescent (Nat.iter n (watch_own prefix) s) /\
  e_state (v_etcd (Nat.iter n (watch_own prefix) s)) = e_state (v_etcd s).
Proof.
  intros HR n. induction n as [|n IH]; intros s Hs Hn.
  - destruct (watch_own_progress R s HR Hs) as (Hs' & _ & [[_ Hq]|Hlt]); [done|].
    exfalso. assert (0 <= watch_rank (watch_own prefix s)); [|simpl in *; lia].
    unfold watch_rank. destruct (_ =? 0), (v_pc _), (v_consumer _); lia.
  - rewrite Nat.iter_succ_r. destruct (watch_own_progress R s HR Hs) as (Hs' & He & [[Heq Hq]|Hlt]).
    + rewrite Heq. destruct n as [|n]; [done|]. clear Hn. rewrite Heq in *. clear IH.
      assert (Hfix : Nat.iter (S n) (watch_own prefix) s = s).
      { generalize (S n). intros k. induction k as [|k IHk]; [done|]. by rewrite Nat.iter_succ, IHk. }
      by rewrite Hfix.
    + rewrite <- He. apply IH; [done | lia].
Qed.

Lemma watch_rank_le s : watch_rank s <= 9.
Proof. unfold watch_rank. destruct (_ =? 0), (v_pc s), (v_consumer s); lia. Qed.
End watching_facts.

Section views.
Context {E : Type} `{!Etcd doc E} `{!EtcdLaws doc E} (prefix : string).
Abbreviation next := (watch_next prefix).

(** C23: No change of the membership is missed. However changes, listings, retries and hand-overs
    interleave, a coordinator whose watch has nothing left to deliver knows exactly the
    members etcd has, beside itself; so two registered nodes in that state, whatever each
    has been through, place every partition on the same owners. *)
Theorem WatchMembers_misses_nothing (c1 c2 : Coordinator) (e1 e2 : E) (evs1 evs2 : list watch_event)
    (s1 s2 : vstate) :
  ring_current c1 -> ring_current c2 ->
  run next evs1 (watch_begin c1 e1) = Some s1 -> run next evs2 (watch_begin c2 e2) = Some s2 ->
  quiescent s1 -> quiescent s2 -> e_state (v_etcd s1) = e_state (v_etcd s2) ->
  let now := membership_of prefix (e_state (v_etcd s1)) in
  Members (v_coord s1) = <[c_self c1 := c_addr c1]> now /\
  (now !! c_self c1 = Some (c_addr c1) -> now !! c_self c2 = Some (c_addr c2) ->
   forall p n, Owners (mb_ring (live (v_coord s1))) p n = Owners (mb_ring (live (v_coord s2))) p n).
Proof.
  intros H1 H2 Hr1 Hr2 Hq1 Hq2 Hst now. apply watch_run_inv in Hr1, Hr2; [|done|done].
  apply (quiescent_view prefix c1) in Hq1 as [Hm1 Hg1]; [|done]. apply (quiescent_view prefix c2) in Hq2 as [Hm2 Hg2]; [|done].
  split; [done|]. intros Hs1 Hs2 p n. rewrite Hg1, Hg2, Hm1, Hm2, <- Hst. fold now.
  by rewrite (insert_id now _ _ Hs1), (insert_id now _ _ Hs2).
Qed.

(** C24: The view catches up while the watch lives. From any state in which etcd has not
    ended the watch, the watching goroutine has not returned and its consumer is still
    reading, ten steps of the two loops are enough for the coordinator to know the members
    etcd has, if etcd answers and nothing changes meanwhile. Nothing is promised once the
    watch has ended. *)
Theorem WatchMembers_converges (c : Coordinator) (e : E) (evs : list watch_event) (s : vstate) (R : E -> Prop) :
  ring_current c -> run next evs (watch_begin c e) = Some s ->
  v_open s = true -> v_pc s <> WClosed -> v_consumer s <> CEnded -> answers R -> R (v_etcd s) ->
  let s' := Nat.iter 10 (watch_own prefix) s in
  quiescent s' /\ Members (v_coord s') = <[c_self c := c_addr c]> (membership_of prefix (e_state (v_etcd s))).
Proof.
  intros Hc Hrun Ho Hpc Hco HR Hr s'. apply watch_run_inv in Hrun; [|done].
  destruct (watch_own_settles prefix c R HR 10 s) as (Hw & Hq & He).
  - unfold watching. auto.
  - pose proof (watch_rank_le s). lia.
  - split; [done|]. rewrite <- He. by apply (quiescent_view prefix c), Hq; apply Hw.
Qed.

(** Once [out] is closed and the last copy received, nothing reaches the coordinator. *)
Lemma ended_blind evs (s s' : vstate) : v_pc s = WClosed -> v_consumer s = CEnded -> run next evs s = Some s' ->
  v_coord s' = v_coord s.
Proof.
  intros Hpc Hc. assert (Hp : forall evs s1 s2, v_pc s1 = WClosed /\ v_consumer s1 = CEnded /\ v_coord s1 = v_coord s ->
    run next evs s1 = Some s2 -> v_pc s2 = WClosed /\ v_consumer s2 = CEnded /\ v_coord s2 = v_coord s).
  { apply run_invariant. intros s1 ev s2 (H1 & H2 & H3). destruct ev; simpl; rewrite ?H1, ?H2; try done;
      intros [= <-]; done. }
  intros Hrun. by apply (Hp evs s s').
Qed.
End views.

(** *** On a concrete cluster *)

Definition fresh_etcd : pure_etcd doc := empty_etcd.
Definition node_a : Coordinator := NewCoordinator "a" "10.0.0.1:80" 1024.
Definition node_b : Coordinator := NewCoordinator "b" "10.0.0.2:80" 1024.

Definition registers (id addr : string) : watch_event := EnvOp (OpPut (memberKey "/kavo" id) (DText addr)).
Definition both_register : list watch_event := [registers "a" "10.0.0.1:80"; registers "b" "10.0.0.2:80"].
Definition catches_up : list watch_event := [WatchStep; WatchStep; WatchSent; WatchSet].

(** The state a run ends in, when it does. *)
Definition ends {S Ev : Type} (next : S -> Ev -> option S) (evs : list Ev) (s : S) : S := default s (run next evs s).

Lemma run_ends {S Ev : Type} (next : S -> Ev -> option S) evs s :
  match run next evs s with Some _ => true | None => false end = true -> run next evs s = Some (ends next evs s).
Proof. unfold ends. by destruct (run next evs s). Qed.

Definition watch_lost : list watch_event :=
  both_register ++ catches_up ++ [EnvBreak; WatchEnded; WatchFinished; EnvOp (OpDelete (memberKey "/kavo" "b"))].

Definition puts_member (id addr : string) (e : pure_etcd doc) : pure_etcd doc :=
  (e_write (OpPut (memberKey "/kavo" id) (DText addr)) e).2.
Definition etcd_ab : pure_etcd doc := puts_member "b" "10.0.0.2:80" (puts_member "a" "10.0.0.1:80" fresh_etcd).
Definition lists_members (e : pure_etcd doc) : pure_etcd doc := (Meta.Members "/kavo" e).2.

(** C27: [WatchMembers] promises copies "until ctx is done", and [main] reads them for as long. A watch
    that etcd or its client gives up ends both loops all the same, with the context alive:
    here node [a] has seen [b] register, the watch ends, [b] leaves, and from then
    on no event whatever tells [a], which goes on placing data on [b]. *)
Theorem WatchMembers_goes_blind : exists s,
  run (watch_next "/kavo") watch_lost (watch_begin node_a fresh_etcd) = Some s /\
  v_done s = false /\
  membership_of "/kavo" (e_state (v_etcd s)) !! "b" = None /\
  forall evs s', run (watch_next "/kavo") evs s = Some s' -> Members (v_coord s') !! "b" = Some "10.0.0.2:80".
Proof.
  set (s := ends (watch_next "/kavo") watch_lost (watch_begin node_a fresh_etcd)). exists s.
  split; [exact (run_ends (watch_next "/kavo") watch_lost (watch_begin node_a fresh_etcd) eq_refl)|]. split; [reflexivity|]. split.
  - change (v_etcd s) with (e_write (OpDelete (memberKey "/kavo" "b")) (lists_members etcd_ab)).2. vm_compute. reflexivity.
  - intros evs s' Hrun. rewrite (ended_blind "/kavo" evs s s' eq_refl eq_refl Hrun).
    change (v_coord s) with (SetMembers node_a (membership_of "/kavo" (e_state etcd_ab))). rewrite SetMembers_view.
    change (c_self node_a) with "a". change (c_addr node_a) with "10.0.0.1:80". vm_compute. reflexivity.
Qed.

(** *** The hypotheses can hold *)

Definition scriptless (e : pure_etcd doc) : Prop := pe_script e = [].

Lemma scriptless_answers : answers scriptless.
Proof.
  constructor; intros; unfold scriptless in *; simpl; unfold pe_fails, pe_outcome; rewrite H;
    repeat eexists; simpl; by rewrite H.
Qed.

Lemma fresh_members_wf : members_wf "/kavo" (e_state fresh_etcd).
Proof. intros k x _. simpl. by rewrite lookup_empty. Qed.

(** [a] registers, loses its lease, and is back in the middle of registering again. *)
Definition loses_lease : list reg_event := [RegStep; RegStep; RegStep; RegExpire 1; RegClosed; RegWoken TimerFires].
Definition a_begins : rstate := join_begin "a" DefaultLeaseTTL ∅ None fresh_etcd.
Abbreviation a_next := (reg_next "/kavo" "a" "10.0.0.1:80" DefaultLeaseTTL).

Abbreviation a_registered := (ends a_next [RegStep; RegStep; RegStep] a_begins).

Lemma stayRegistered_keeps_listed_witness :
  r_pc a_registered = RDrain 1 /\
  forall m e', Meta.Members "/kavo" (r_etcd a_registered) = (Ok m, e') -> m !! "a" = Some "10.0.0.1:80".
Proof.
  split; [vm_compute; reflexivity|]. intros m e' Hm.
  eapply (stayRegistered_keeps_listed "/kavo" "a" "10.0.0.1:80" DefaultLeaseTTL ∅ None fresh_etcd [RegStep; RegStep; RegStep]);
    [apply fresh_members_wf | done | apply run_ends; vm_compute; reflexivity | vm_compute; reflexivity | | exact Hm].
  apply (bool_decide_eq_true_1 _). vm_compute. reflexivity.
Defined.

Lemma stayRegistered_rejoins_witness :
  drains_live (Nat.iter 6 (reg_own "/kavo" "a" "10.0.0.1:80" DefaultLeaseTTL) (ends a_next loses_lease a_begins)).
Proof.
  eapply (stayRegistered_rejoins "/kavo" "a" "10.0.0.1:80" DefaultLeaseTTL ∅ None fresh_etcd loses_lease);
    [apply fresh_members_wf | done | apply run_ends; vm_compute; reflexivity | vm_compute; reflexivity
    | vm_compute; reflexivity | apply scriptless_answers | vm_compute; reflexivity].
Defined.

(** [a] hears of [b] after its first listing, [b] starts when both are there. *)
Definition a_hears : list watch_event :=
  [registers "a" "10.0.0.1:80"; WatchStep; WatchStep; registers "b" "10.0.0.2:80"; WatchSent; WatchSet;
   WatchChanged 1; WatchStep; WatchSent; WatchSet].

Abbreviation a_settled := (ends (watch_next "/kavo") a_hears (watch_begin node_a fresh_etcd)).
Abbreviation b_settled := (ends (watch_next "/kavo") (both_register ++ catches_up) (watch_begin node_b fresh_etcd)).

Lemma WatchMembers_misses_nothing_witness :
  quiescent a_settled /\
  forall p n, Owners (mb_ring (live (v_coord a_settled))) p n = Owners (mb_ring (live (v_coord b_settled))) p n.
Proof.
  split; [repeat split; lazy; reflexivity|].
  refine (proj2 (WatchMembers_misses_nothing "/kavo" node_a node_b fresh_etcd fresh_etcd a_hears (both_register ++ catches_up)
    a_settled b_settled _ _ _ _ _ _ _) _ _).
  - apply SetMembers_ring.
  - apply SetMembers_ring.
  - exact (run_ends (watch_next "/kavo") a_hears (watch_begin node_a fresh_etcd) eq_refl).
  - exact (run_ends (watch_next "/kavo") (both_register ++ catches_up) (watch_begin node_b fresh_etcd) eq_refl).
  - repeat split; lazy; reflexivity.
  - repeat split; lazy; reflexivity.
  - change (e_state (lists_members (puts_member "b" "10.0.0.2:80" (lists_members (puts_member "a" "10.0.0.1:80" fresh_etcd))))
      = e_state (lists_members etcd_ab)). vm_compute. reflexivity.
  - change (membership_of "/kavo" (e_state (lists_members (puts_member "b" "10.0.0.2:80"
      (lists_members (puts_member "a" "10.0.0.1:80" fresh_etcd))))) !! "a" = Some "10.0.0.1:80"). vm_compute. reflexivity.
  - change (membership_of "/kavo" (e_state (lists_members (puts_member "b" "10.0.0.2:80"
      (lists_members (puts_member "a" "10.0.0.1:80" fresh_etcd))))) !! "b" = Some "10.0.0.2:80"). vm_compute. reflexivity.
Defined.

Lemma WatchMembers_converges_witness :
  quiescent (Nat.iter 10 (watch_own "/kavo")
    (ends (watch_next "/kavo") [WatchStep; WatchStep; registers "b" "10.0.0.2:80"] (watch_begin node_a fresh_etcd))).
Proof.
  eapply (WatchMembers_converges "/kavo" node_a fresh_etcd [WatchStep; WatchStep; registers "b" "10.0.0.2:80"] _ scriptless).
  - apply SetMembers_ring.
  - exact (run_ends (watch_next "/kavo") [WatchStep; WatchStep; registers "b" "10.0.0.2:80"] (watch_begin node_a fresh_etcd) eq_refl).
  - lazy. reflexivity.
  - lazy. discriminate.
  - lazy. discriminate.
  - apply scriptless_answers.
  - lazy. reflexivity.
Defined.
