(* ===== verification/Listing.v ===== *)
(** * Listings: [internal/cluster/list.go]

    One page of a bucket's keys, with the keys that share a prefix up to a delimiter
    collapsed into one entry. What a page is compared with is the whole listing
    of the committed objects, collapsed in one go. *)

From S2P Require Import Prelude GoStr Object Etcd Meta.

Record ListRequest := mk_ListRequest {
  lr_Prefix : string; lr_Delimiter : string; lr_From : string; lr_Limit : Z
}.

Record ListPage := mk_ListPage { lp_Objects : list Entry; lp_Prefixes : list string; lp_Next : string }.

Definition zeroPage : ListPage := mk_ListPage [] [] "".

Definition scanPageSize : Z := 256.

(** [groupOf]; the group is [None] where the code returns [false]. *)
Definition groupOf (key prefix delimiter : string) : option string :=
  if String.eqb delimiter "" then None
  else let rest := TrimPrefix key prefix in
       match Index rest delimiter with
       | None => None
       | Some i => Some (prefix +:+ stake (i + slen delimiter) rest)
       end.

Definition full (req : ListRequest) (page : ListPage) : bool :=
  zlen (lp_Objects page) + zlen (lp_Prefixes page) =? lr_Limit req.

(** The loop over one scan: the page it returns, or the page so far and where to go on. *)
Fixpoint list_page (req : ListRequest) (objects : list Entry) (group from : string) (page : ListPage)
    : ListPage + ListPage * string :=
  match objects with
  | [] => inr (page, from)
  | o :: objects' =>
      if negb (String.eqb group "") && HasPrefix (en_Key o) group then list_page req objects' group from page
      else if full req page then inl (mk_ListPage (lp_Objects page) (lp_Prefixes page) from)
      else match groupOf (en_Key o) (lr_Prefix req) (lr_Delimiter req) with
           | Some g => list_page req objects' g (PastPrefix g)
                         (mk_ListPage (lp_Objects page) (lp_Prefixes page ++ [g]) (lp_Next page))
           | None => list_page req objects' "" (After (en_Key o))
                       (mk_ListPage (lp_Objects page ++ [o]) (lp_Prefixes page) (lp_Next page))
           end
  end.

Section listing.
Context {E : Type} `{!Etcd doc E} (prefix : string).

Definition want (req : ListRequest) : Z :=
  if String.eqb (lr_Delimiter req) "" then wrap_int64 (lr_Limit req + 1) else scanPageSize.

Fixpoint list_loop (fuel : nat) (req : ListRequest) (from : string) (page : ListPage) (e : E)
    : option (res ListPage * E) :=
  match fuel with
  | O => None
  | S fuel' =>
      match ScanEntries prefix (lr_Prefix req) from (want req) e with
      | (Err err, e') => Some (Err err, e')
      | (Ok [], e') => Some (Ok page, e')
      | (Ok objects, e') =>
          match list_page req objects "" from page with
          | inl page' => Some (Ok page', e')
          | inr (page', from') =>
              if (zlen objects <? want req) || String.eqb from' "" then Some (Ok page', e')
              else list_loop fuel' req from' page' e'
          end
      end
  end.

(** [List]. Every scan that does not end the loop adds to the page. *)
Definition List (req : ListRequest) (e : E) : option (res ListPage * E) :=
  if lr_Limit req <=? 0 then Some (Ok zeroPage, e)
  else list_loop (S (Z.to_nat (lr_Limit req))) req (lr_From req) zeroPage e.
End listing.

(** ** The loop ends *)

Definition page_len (p : ListPage) : Z := zlen (lp_Objects p) + zlen (lp_Prefixes p).

Lemma page_len_nonneg p : 0 <= page_len p.
Proof. unfold page_len. pose proof (zlen_nonneg (lp_Objects p)). pose proof (zlen_nonneg (lp_Prefixes p)). lia. Qed.

Lemma list_page_grows req : forall objects group from page page' from',
  page_len page <= lr_Limit req -> list_page req objects group from page = inr (page', from') ->
  page_len page <= page_len page' <= lr_Limit req.
Proof.
  induction objects as [|o os IH]; intros group from page page' from' Hle; cbn [list_page].
  { intros [= <- <-]. lia. }
  destruct (negb _ && _); [by apply IH|].
  destruct (full req page) eqn:Hf; [done|]. unfold full in Hf. fold (page_len page) in Hf. bool_facts.
  destruct (groupOf _ _ _); intros H; apply IH in H; unfold page_len in *; simpl in *;
    rewrite ?zlen_app, ?zlen_cons, ?zlen_nil in *; lia.
Qed.

Lemma list_page_progress req o os from page page' from' :
  page_len page <= lr_Limit req -> list_page req (o :: os) "" from page = inr (page', from') ->
  page_len page < page_len page' <= lr_Limit req.
Proof.
  intros Hle. cbn [list_page String.eqb negb andb].
  destruct (full req page) eqn:Hf; [done|]. unfold full in Hf. fold (page_len page) in Hf. bool_facts.
  destruct (groupOf _ _ _); intros H; apply list_page_grows in H; unfold page_len in *; simpl in *;
    rewrite ?zlen_app, ?zlen_cons, ?zlen_nil in *; lia.
Qed.

(** A listing always ends. Whatever the prefix, delimiter, starting point and limit,
    and whatever etcd answers, the loop runs at most one round more than the entries it
    was asked for. *)
Theorem List_terminates {E : Type} `{!Etcd doc E} (prefix : string) (req : ListRequest) (e : E) :
  exists r e', List prefix req e = Some (r, e').
Proof.
  unfold List. destruct (Z.leb_spec (lr_Limit req) 0); [eauto|].
  assert (Hgo : forall fuel from page e, page_len page <= lr_Limit req ->
    lr_Limit req - page_len page < Z.of_nat fuel ->
    exists r e', list_loop prefix fuel req from page e = Some (r, e')).
  { clear e. induction fuel as [|fuel IH]; intros from page e Hle Hfuel; [lia|]. cbn [list_loop].
    destruct (ScanEntries _ _ _ _ _) as [[[|o os]|err] e1]; [eauto| |eauto].
    destruct (list_page req (o :: os) "" from page) as [p|[p f]] eqn:Hp; [eauto|].
    apply list_page_progress in Hp; [|done]. destruct (_ || _); [eauto|]. apply IH; lia. }
  apply Hgo; change (page_len zeroPage) with 0; lia.
Qed.

(** ** The reference *)

Inductive item := IObject (o : Entry) | IPrefix (g : string).

(** The listing of a sorted list of entries: one prefix for each run of a group. *)
Fixpoint collapse (pre delim : string) (last : option string) (l : list Entry) : list item :=
  match l with
  | [] => []
  | o :: l' =>
      match groupOf (en_Key o) pre delim with
      | None => IObject o :: collapse pre delim None l'
      | Some g => if decide (last = Some g) then collapse pre delim last l'
                  else IPrefix g :: collapse pre delim (Some g) l'
      end
  end.

Definition the_object (i : item) : option Entry := match i with IObject o => Some o | IPrefix _ => None end.
Definition the_prefix (i : item) : option string := match i with IPrefix g => Some g | IObject _ => None end.

Definition shows (page : ListPage) (items : list item) : Prop :=
  lp_Objects page = omap the_object items /\ lp_Prefixes page = omap the_prefix items.

(** Entries from a key on. *)
Definition since (from : string) (l : list Entry) : list Entry := filter (fun o => from <=s en_Key o) l.

Abbreviation ascending := (StronglySorted (fun a b => en_Key a <s en_Key b)).

(** A delimiter whose last byte [PastPrefix] can step over. *)
Definition plain_delim (d : string) : Prop := d = "" \/ exists a c, d = a +:+ String c "" /\ byteZ c < 127.

(** ** Groups *)

Lemma HasPrefix_long s p x y : (slen p <= slen s)%nat -> HasPrefix (s +:+ x) p = HasPrefix (s +:+ y) p.
Proof.
  revert s. induction p as [|c p IH]; intros [|d s]; cbn [HasPrefix String.append]; simpl; try done; [lia|].
  intros H. f_equal. apply IH. lia.
Qed.

Lemma Index_stable a d b t : Index (a +:+ d +:+ b) d = Some (slen a) -> Index (a +:+ d +:+ t) d = Some (slen a).
Proof.
  induction a as [|c a IH]; simpl.
  - intros _. destruct (d +:+ t) eqn:Hd; simpl; by rewrite <- Hd, HasPrefix_app.
  - rewrite !sapp_assoc. change (String c ((a +:+ d) +:+ b)) with (String c (a +:+ d) +:+ b).
    change (String c ((a +:+ d) +:+ t)) with (String c (a +:+ d) +:+ t).
    rewrite (HasPrefix_long _ _ b t) by (simpl; rewrite slen_app; lia).
    destruct (HasPrefix _ _); [done|]. rewrite <- !sapp_assoc.
    destruct (Index (a +:+ d +:+ b) d) as [i|]; [|done]. intros [= ->]. by rewrite IH.
Qed.

Lemma groupOf_spec key pre delim g : HasPrefix key pre = true -> groupOf key pre delim = Some g ->
  delim <> "" /\ (exists a, g = (pre +:+ a) +:+ delim) /\
  forall k, HasPrefix k g = true -> groupOf k pre delim = Some g.
Proof.
  intros [r ->]%HasPrefix_spec. unfold groupOf. destruct (String.eqb_spec delim ""); [done|].
  rewrite TrimPrefix_app. destruct (Index r delim) as [i|] eqn:Hi; [|done].
  pose proof (Index_Some _ _ _ Hi) as (a & b & -> & <-). intros [= <-].
  rewrite sapp_assoc, <- slen_app, stake_app. split; [done|]. split; [exists a; apply sapp_assoc|].
  intros k [t ->]%HasPrefix_spec. rewrite <- !sapp_assoc, TrimPrefix_app.
  rewrite (Index_stable _ _ _ t Hi). by rewrite sapp_assoc, <- slen_app, stake_app, sapp_assoc.
Qed.

Lemma groupOf_member key pre delim g : HasPrefix key pre = true -> groupOf key pre delim = Some g ->
  HasPrefix key g = true.
Proof.
  intros [r ->]%HasPrefix_spec. unfold groupOf. destruct (String.eqb_spec delim ""); [done|].
  rewrite TrimPrefix_app. destruct (Index r delim) as [i|] eqn:Hi; [|done].
  pose proof (Index_Some _ _ _ Hi) as (a & b & -> & <-). intros [= <-].
  rewrite (sapp_assoc a), <- slen_app, stake_app. apply HasPrefix_spec. exists b. by rewrite <- !sapp_assoc.
Qed.

(** [PastPrefix] of a group is right: it only changes the delimiter's last byte. *)
Lemma PastPrefix_group x d k : plain_delim d -> d <> "" ->
  PastPrefix (x +:+ d) <> "" /\ HasPrefix k (x +:+ d) = sle (x +:+ d) k && slt k (PastPrefix (x +:+ d)).
Proof.
  intros [->|(a & c & -> & Hc)] Hd; [done|]. pose proof (byteZ_range c). rewrite sapp_assoc, past_prefix_snoc by lia.
  unfold utf8_of_byte. rewrite (proj2 (Z.ltb_lt _ _)) by lia. split.
  { intros [_ H']%sapp_nil_inv. done. }
  pose proof (prefix_end_spec ((x +:+ a) +:+ String c "") k) as Hs.
  assert (prefix_end ((x +:+ a) +:+ String c "") = Some ((x +:+ a) +:+ String (byte_of (byteZ c + 1)) "")) as Hp.
  { clear Hs. generalize (x +:+ a). induction s as [|e s IH]; cbn [String.append prefix_end].
    - by rewrite (proj2 (Z.ltb_lt _ _)) by lia.
    - by rewrite IH. }
  rewrite Hp in Hs. exact Hs.
Qed.

(** ** One scan against the reference *)

Definition gopt (group : string) : option string := if String.eqb group "" then None else Some group.

Lemma ascending_mid (done R : list Entry) o : ascending (done ++ o :: R) ->
  Forall (fun x => en_Key x <s en_Key o) done /\ Forall (fun x => en_Key o <s en_Key x) R /\ ascending R.
Proof.
  intros H. apply StronglySorted_app in H as (Hx & _ & H). apply StronglySorted_inv in H as [H1 H2].
  split; [|done]. apply Forall_forall. intros x Hd. apply Hx; [done|]. left.
Qed.

Lemma since_app f l k : since f (l ++ k) = since f l ++ since f k.
Proof. apply filter_app. Qed.

Lemma since_none f l : Forall (fun x => en_Key x <s f) l -> since f l = [].
Proof.
  intros H. apply filter_none. eapply Forall_impl; [done|]. intros x Hx Hf. unfold sle in Hf.
  by rewrite Hx in Hf.
Qed.

Lemma since_all f l : Forall (fun x => f <=s en_Key x) l -> since f l = l.
Proof. apply filter_all. Qed.

Lemma since_suffix f l : ascending l -> exists dn, l = dn ++ since f l.
Proof.
  induction l as [|o l IH]; intros Hs; [by exists []|]. pose proof (ascending_mid [] l o Hs) as (_ & Hlt & Hs').
  destruct (sle f (en_Key o)) eqn:Hf.
  - exists []. simpl. symmetry. apply since_all. constructor; [done|].
    eapply Forall_impl; [done|]. simpl. intros x Hx. eapply sle_trans; [done|]. apply sle_spec. by left.
  - destruct (IH Hs') as [dn Hdn]. exists (o :: dn). unfold since. rewrite filter_cons_False by congruence.
    simpl. f_equal. exact Hdn.
Qed.

Section against_reference.
Variables (req : ListRequest) (S : list Entry).
Abbreviation pre := (lr_Prefix req).
Abbreviation delim := (lr_Delimiter req).
Hypothesis Hsorted : ascending S.
Hypothesis Hpre : Forall (fun o => HasPrefix (en_Key o) pre = true) S.
Hypothesis Hdelim : plain_delim delim.
Hypothesis Hlimit : 0 < lr_Limit req.

Definition listing (from : string) : list item := collapse pre delim None (since from S).

(** [g] is the group of some key. *)
Definition a_group (g : string) : Prop := exists key, HasPrefix key pre = true /\ groupOf key pre delim = Some g.

Lemma a_group_facts g : a_group g ->
  g <> "" /\ PastPrefix g <> "" /\
  (forall k, HasPrefix k g = sle g k && slt k (PastPrefix g)) /\
  (forall k, HasPrefix k pre = true -> HasPrefix k g = true <-> groupOf k pre delim = Some g).
Proof.
  intros (key & Hk & Hg). pose proof (groupOf_spec _ _ _ _ Hk Hg) as (Hd & (a & ->) & Hst).
  split; [by intros [_ ?]%sapp_nil_inv|].
  split; [by eapply (PastPrefix_group _ _ "")|]. split; [intros k; by apply PastPrefix_group|].
  intros k Hkp. split; [apply Hst | by apply groupOf_member].
Qed.

(** What follows a reported group starts past it. *)
Lemma collapse_past g R : a_group g -> ascending R -> Forall (fun o => HasPrefix (en_Key o) pre = true) R ->
  Forall (fun o => g <=s en_Key o) R ->
  collapse pre delim (Some g) R = collapse pre delim None (since (PastPrefix g) R).
Proof.
  intros Hg. pose proof (a_group_facts g Hg) as (_ & _ & Hin & Hmem).
  induction R as [|o R IH]; [done|]. intros Hs Hp Hge. apply Forall_cons in Hp as [Hop Hp].
  apply Forall_cons in Hge as [Hog Hge]. pose proof (ascending_mid [] R o Hs) as (_ & Hlt & Hs').
  destruct (HasPrefix (en_Key o) g) eqn:Ho.
  - cbn [collapse]. rewrite (proj1 (Hmem _ Hop) Ho). rewrite decide_True by done.
    rewrite IH by done. unfold since. rewrite filter_cons_False; [done|].
    intros Hle. rewrite Hin in Ho. apply andb_true_iff in Ho as [_ Ho]. unfold sle in Hle. by rewrite Ho in Hle.
  - assert (Hpast : PastPrefix g <=s en_Key o).
    { rewrite Hin, Hog in Ho. simpl in Ho. by apply slt_false. }
    rewrite since_all.
    + cbn [collapse]. destruct (groupOf (en_Key o) pre delim) as [g'|] eqn:Hg'; [|done].
      rewrite !decide_False; [done | done |]. intros [= ->]. apply Hmem in Hg'; [congruence|done].
    + constructor; [done|]. eapply Forall_impl; [exact Hlt|]. simpl. intros x Hx.
      eapply sle_trans; [done|]. apply sle_spec. by left.
Qed.

(** The groups that are reported are those of the keys, each once. *)
Lemma collapse_groups last l g : (g ∈ omap the_prefix (collapse pre delim last l) \/ last = Some g) <->
  (exists o, o ∈ l /\ groupOf (en_Key o) pre delim = Some g) \/ last = Some g.
Proof.
  revert last. induction l as [|o l IH]; intros last.
  { cbn. split; [intros [?%elem_of_nil|]; auto; done | intros [(o & ?%elem_of_nil & _)|]; auto; done]. }
  assert (Hin : (exists x, x ∈ o :: l /\ groupOf (en_Key x) pre delim = Some g) <->
    groupOf (en_Key o) pre delim = Some g \/ exists x, x ∈ l /\ groupOf (en_Key x) pre delim = Some g).
  { setoid_rewrite elem_of_cons. split; [intros (x & [-> | ?] & ?); eauto | intros [?|(x & ? & ?)]; eauto]. }
  rewrite Hin. clear Hin. cbn [collapse]. destruct (groupOf (en_Key o) pre delim) as [h|] eqn:Hg.
  - destruct (decide (last = Some h)) as [-> |Hne].
    + rewrite IH. split; intros H'; naive_solver.
    + cbn [omap list_omap the_prefix]. rewrite elem_of_cons. specialize (IH (Some h)).
      split.
      * intros [[-> |Hx]|Hx]; [by left; left| |by right].
        destruct (proj1 IH (or_introl Hx)) as [?|Hh]; [by left; right | left; left; congruence].
      * intros [[Hx|Hx]|Hx]; [left; left; congruence| |by right].
        destruct (proj2 IH (or_introl Hx)) as [?|Hh]; [by left; right | left; left; congruence].
  - cbn [omap list_omap the_prefix]. specialize (IH None). split.
    + intros [Hx|Hx]; [|by right]. destruct (proj1 IH (or_introl Hx)); [by left; right | done].
    + intros [[?|Hx]|Hx]; [done| |by right]. destruct (proj2 IH (or_introl Hx)); [by left | done].
Qed.

Lemma collapse_NoDup n : forall l, (length l <= n)%nat -> ascending l ->
  Forall (fun o => HasPrefix (en_Key o) pre = true) l -> NoDup (omap the_prefix (collapse pre delim None l)).
Proof.
  induction n as [|n IH]; intros l Hn Hs Hp; [destruct l; [constructor | simpl in Hn; lia]|].
  destruct l as [|o l]; [constructor|]. simpl in Hn. apply Forall_cons in Hp as [Ho Hp].
  pose proof (ascending_mid [] l o Hs) as (_ & Hlt & Hs'). cbn [collapse].
  destruct (groupOf (en_Key o) pre delim) as [g|] eqn:Hg; cbn [omap list_omap the_prefix].
  2: { apply IH; [lia | done | done]. }
  rewrite decide_False by done. cbn [omap list_omap the_prefix].
  assert (Ha : a_group g) by (by exists (en_Key o)). pose proof (a_group_facts g Ha) as (_ & _ & Hin & Hmem).
  assert (Hog : HasPrefix (en_Key o) g = true) by (by apply Hmem). rewrite Hin in Hog. apply andb_true_iff in Hog as [Hog _].
  rewrite collapse_past; [|done..|].
  2: { eapply Forall_impl; [exact Hlt|]. simpl. intros x Hx. eapply sle_trans; [exact Hog|]. apply sle_spec. by left. }
  assert (Hsub : forall x, x ∈ since (PastPrefix g) l -> x ∈ l /\ PastPrefix g <=s en_Key x)
    by (intros x [? ?]%list_elem_of_filter; done).
  constructor.
  - intros Hgin. destruct (proj1 (collapse_groups None _ g) (or_introl Hgin)) as [(x & Hx & Hxg)|]; [|done].
    apply Hsub in Hx as [Hx Hle]. rewrite Forall_forall in Hp. specialize (Hp x Hx). apply Hmem in Hxg; [|done].
    rewrite Hin in Hxg. apply andb_true_iff in Hxg as [_ Hxg]. unfold sle in Hle. by rewrite Hxg in Hle.
  - apply IH; [|by apply StronglySorted_filter|by apply Forall_filter_keep].
    unfold since. etransitivity; [apply length_filter | lia].
Qed.

Lemma listing_after done o R : S = done ++ o :: R -> listing (After (en_Key o)) = collapse pre delim None R.
Proof.
  intros HS. pose proof Hsorted as Hs. rewrite HS in Hs. apply ascending_mid in Hs as (Hd & HR & _).
  unfold listing. rewrite HS, since_app, (since_none _ done), app_nil_l.
  - change (o :: R) with ([o] ++ R). rewrite since_app, (since_none _ [o]), app_nil_l, since_all; [done| |].
    + eapply Forall_impl; [done|]. intros x Hx. by apply After_sle.
    + constructor; [|constructor]. unfold After.
      rewrite <- (sapp_nil_r (en_Key o)) at 1. by rewrite slt_app.
  - eapply Forall_impl; [done|]. simpl. intros x Hx. eapply slt_sle_trans; [done|].
    unfold After. apply sle_app_prefix.
Qed.

Lemma listing_past done o R g : S = done ++ o :: R -> groupOf (en_Key o) pre delim = Some g ->
  a_group g /\ listing (PastPrefix g) = collapse pre delim (Some g) R.
Proof.
  intros HS Hg. pose proof Hsorted as Hs. pose proof Hpre as Hp. rewrite HS in Hs, Hp.
  apply ascending_mid in Hs as (Hd & HR & HsR). apply Forall_app in Hp as [_ [Ho Hp]%Forall_cons].
  assert (Ha : a_group g) by (by exists (en_Key o)). split; [done|].
  pose proof (a_group_facts g Ha) as (_ & _ & Hin & Hmem).
  assert (Hm : HasPrefix (en_Key o) g = true) by (by apply Hmem). rewrite Hin in Hm.
  apply andb_true_iff in Hm as [Hm1 Hm2].
  rewrite collapse_past; [|done..|].
  - unfold listing. f_equal. rewrite HS, since_app, (since_none _ done), app_nil_l.
    + change (o :: R) with ([o] ++ R). rewrite since_app, (since_none _ [o]), app_nil_l; [done|]. by repeat constructor.
    + eapply Forall_impl; [done|]. simpl. intros x Hx. by eapply slt_trans.
  - eapply Forall_impl; [exact HR|]. simpl. intros x Hx. eapply sle_trans; [done|]. apply sle_spec. by left.
Qed.

Lemma shows_object page items o next : shows page items ->
  shows (mk_ListPage (lp_Objects page ++ [o]) (lp_Prefixes page) next) (items ++ [IObject o]).
Proof. intros [H1 H2]. split; simpl; rewrite omap_app; simpl; rewrite ?app_nil_r; congruence. Qed.

Lemma shows_prefix page items g next : shows page items ->
  shows (mk_ListPage (lp_Objects page) (lp_Prefixes page ++ [g]) next) (items ++ [IPrefix g]).
Proof. intros [H1 H2]. split; simpl; rewrite omap_app; simpl; rewrite ?app_nil_r; congruence. Qed.

Lemma shows_len page items : shows page items -> page_len page = zlen items.
Proof.
  intros [H1 H2]. unfold page_len. rewrite H1, H2. clear.
  induction items as [|[o|g] items IH]; [done|..]; cbn [omap list_omap the_object the_prefix];
    rewrite !zlen_cons, <- IH; lia.
Qed.

(** What the loop keeps: the page is the start of the listing, [from] is where the rest
    of it begins, and nothing is said about a next page yet. *)
Definition so_far (L : list item) (page : ListPage) (from : string) (items : list item) : Prop :=
  shows page items /\ zlen items <= lr_Limit req /\ L = items ++ listing from /\ lp_Next page = "" /\
  (items = [] \/ from <> "").

Lemma list_page_spec L tl : forall objects done group from page items,
  S = done ++ objects ++ tl -> so_far L page from items -> (group = "" \/ a_group group) ->
  listing from = collapse pre delim (gopt group) (objects ++ tl) ->
  match list_page req objects group from page with
  | inl p => exists its, shows p its /\ zlen its = lr_Limit req /\ L = its ++ listing (lp_Next p) /\
                         listing (lp_Next p) <> [] /\ lp_Next p <> ""
  | inr (p, f) => exists its g, so_far L p f its /\ listing f = collapse pre delim g tl
  end.
Proof.
  induction objects as [|o os IH]; intros dn group from page items HS Hso Hgr Hfrom.
  { simpl. eauto. }
  pose proof Hpre as Hp. rewrite HS in Hp. apply Forall_app in Hp as [_ Hp]. apply Forall_app in Hp as [Hp _].
  apply Forall_cons in Hp as [Ho _].
  assert (HS' : S = (dn ++ [o]) ++ os ++ tl) by (by rewrite <- app_assoc).
  cbn [list_page]. destruct (negb (String.eqb group "") && HasPrefix (en_Key o) group) eqn:Hskip.
  - apply andb_true_iff in Hskip as [Hne Hin]. destruct (String.eqb_spec group ""); [done|].
    destruct Hgr as [|Hgr]; [done|]. apply (IH _ group from page items HS' Hso); [by right|].
    rewrite Hfrom. unfold gopt. destruct (String.eqb_spec group ""); [done|]. cbn [app collapse].
    apply (a_group_facts group Hgr) in Hin as ->; [|done]. by rewrite decide_True.
  - assert (Hnew : forall g, groupOf (en_Key o) pre delim = Some g -> gopt group <> Some g).
    { intros g Hg. unfold gopt. destruct (String.eqb_spec group ""); [done|]. intros [= ->].
      destruct Hgr as [|Hgr]; [done|]. simpl in Hskip. apply (a_group_facts g Hgr) in Hg; [congruence | done]. }
    destruct Hso as (Hsh & Hle & HL & Hnx & Hf). pose proof (shows_len _ _ Hsh) as Hlen.
    unfold full. fold (page_len page). rewrite Hlen. destruct (Z.eqb_spec (zlen items) (lr_Limit req)) as [Hfull|Hfull].
    + exists items. cbn [lp_Next]. split; [exact Hsh|]. split; [done|]. split; [done|]. split.
      * rewrite Hfrom. cbn [app collapse]. destruct (groupOf _ _ _) as [g|] eqn:Hg; [|done].
        by rewrite decide_False by auto.
      * destruct Hf as [->|]; [|done]. rewrite zlen_nil in Hfull. lia.
    + rewrite Hfrom in HL. cbn [app collapse] in HL.
      destruct (groupOf (en_Key o) pre delim) as [g|] eqn:Hg.
      * destruct (listing_past dn o (os ++ tl) g HS Hg) as [Hag Hlp].
        pose proof (a_group_facts g Hag) as (Hgne & Hpne & _).
        rewrite decide_False in HL by auto.
        eapply (IH _ g _ _ (items ++ [IPrefix g]) HS'); [|by right|].
        -- split; [by apply shows_prefix|]. rewrite zlen_app, zlen_cons, zlen_nil.
           split; [lia|]. split; [by rewrite <- app_assoc, Hlp|]. by auto.
        -- rewrite Hlp. unfold gopt. by destruct (String.eqb_spec g "").
      * pose proof (listing_after dn o (os ++ tl) HS) as Hla.
        eapply (IH _ "" _ _ (items ++ [IObject o]) HS'); [|by left|done].
        split; [by apply shows_object|]. rewrite zlen_app, zlen_cons, zlen_nil.
        split; [lia|]. split; [by rewrite <- app_assoc, Hla|]. split; [done|]. right.
        unfold After. by intros [_ ?]%sapp_nil_inv.
Qed.
End against_reference.

(** ** The whole request *)

Section whole.
Context {E : Type} `{!Etcd doc E, !EtcdLaws doc E} (prefix : string).

(** What a record of an object is listed as. *)
Definition entry_of (p : string * kv doc) : Entry :=
  let k := TrimPrefix p.1 (objects prefix) in
  match as_entry k (kv_value p.2) with Ok en => en | Err _ => mk_Entry k 0 "" 0 end.

(** The committed objects whose keys have a prefix, in key order. *)
Definition entries (st : estate doc) (pre : string) : list Entry :=
  map entry_of (filter (fun p => HasPrefix p.1 (key prefix pre) = true) (all_objects prefix st)).

Lemma as_entry_key k d en : as_entry k d = Ok en -> en_Key en = k.
Proof. destruct d; simpl; intros; by simplify_eq/=. Qed.

Lemma entry_of_key j x : en_Key (entry_of (key prefix j, x)) = j.
Proof.
  unfold entry_of. simpl. unfold key. rewrite TrimPrefix_app.
  destruct (as_entry j (kv_value x)) eqn:He; [by eapply as_entry_key | done].
Qed.

Lemma key_split k pre : HasPrefix k (key prefix pre) = true -> exists j, k = key prefix j /\ HasPrefix j pre = true.
Proof.
  intros [t ->]%HasPrefix_spec. exists (pre +:+ t). unfold key. rewrite <- sapp_assoc. split; [done|]. apply HasPrefix_app.
Qed.

Lemma entries_facts st pre : ascending (entries st pre) /\
  Forall (fun o => HasPrefix (en_Key o) pre = true) (entries st pre).
Proof.
  unfold entries. pose proof (sorted_range_strict st (objects prefix) (e_prefixEnd (objects prefix))) as Hs.
  fold (all_objects prefix st) in Hs. apply (StronglySorted_filter _ (fun p => HasPrefix p.1 (key prefix pre) = true)) in Hs.
  assert (Hf : Forall (fun p => HasPrefix p.1 (key prefix pre) = true)
    (filter (fun p => HasPrefix p.1 (key prefix pre) = true) (all_objects prefix st)))
    by (apply Forall_forall; intros p [? _]%list_elem_of_filter; done).
  revert Hs Hf. generalize (filter (fun p => HasPrefix p.1 (key prefix pre) = true) (all_objects prefix st)).
  induction l as [|[k x] l IH]; simpl; intros Hs Hf; [split; constructor|].
  apply StronglySorted_inv in Hs as [Hs Hlt]. apply Forall_cons in Hf as [Hk Hf]. simpl in *.
  destruct (IH Hs Hf) as [IH1 IH2]. apply key_split in Hk as (j & -> & Hj).
  split; constructor; rewrite ?entry_of_key; try done.
  apply Forall_map. rewrite Forall_forall in Hlt, Hf. apply Forall_forall. intros [k' x'] Hin.
  specialize (Hlt _ Hin). specialize (Hf _ Hin). simpl in *. apply key_split in Hf as (j' & -> & _).
  rewrite !entry_of_key. unfold key in Hlt. by rewrite slt_app in Hlt.
Qed.

(** An entry for every committed key with the prefix, and no other. *)
Lemma entries_In st pre j : (exists o, o ∈ entries st pre /\ en_Key o = j) <->
  HasPrefix j pre = true /\ is_Some (es_kvs st !! key prefix j).
Proof.
  assert (Hsmall : has_small_byte (objects prefix) = true) by apply small_slash. unfold entries, all_objects. split.
  - intros (o & ([k x] & -> & [Hk Hin]%list_elem_of_filter)%list_elem_of_fmap & <-).
    apply elem_of_sorted_range in Hin as [_ Hx]. cbn [fst snd] in *. apply key_split in Hk as (j & -> & Hj).
    by rewrite entry_of_key, Hx.
  - intros [Hj [x Hx]]. exists (entry_of (key prefix j, x)). split; [|apply entry_of_key].
    apply list_elem_of_fmap. exists (key prefix j, x). split; [done|]. apply list_elem_of_filter. cbn [fst]. split.
    + unfold key. by rewrite HasPrefix_app_iff.
    + apply elem_of_sorted_range. cbn [fst snd]. split; [|done]. apply e_prefixEnd_law; [done|]. apply HasPrefix_app.
Qed.

Lemma since_entries from l pre : Forall (fun p => HasPrefix p.1 (key prefix pre) = true) l ->
  since from (map entry_of l) = map entry_of (filter (fun p => sle (key prefix from) p.1 = true) l).
Proof.
  induction l as [|[k x] l IH]; [done|]. intros [Hk Hl]%Forall_cons. simpl in Hk.
  apply key_split in Hk as (j & -> & _). cbn [map]. unfold since. rewrite !filter_cons.
  fold (since from (map entry_of l)). rewrite IH by done. rewrite entry_of_key. cbn [fst].
  assert (sle (key prefix from) (key prefix j) = sle from j) as -> by apply sle_app.
  by case_decide.
Qed.

Lemma ScanEntries_entries pre from limit e l e' : 0 < limit -> ScanEntries prefix pre from limit e = (Ok l, e') ->
  e_state e' = e_state e /\ l = takeZ limit (since from (entries (e_state e) pre)).
Proof.
  intros Hlim H. unfold ScanEntries in H. apply st_bind_Ok in H as (kvs & e1 & Hsc & H).
  apply scan_spec in Hsc as [Hs [?|Hk]]; [done| |done]. injection Hk as Hk. injection H as Hl <-.
  split; [done|]. unfold entries. rewrite (since_entries from _ pre) by (apply Forall_forall; intros p [? _]%list_elem_of_filter; done).
  rewrite list_filter_filter. unfold takeZ in *. rewrite firstn_map.
  assert (Hr : l = map entry_of kvs).
  { apply res_map_Ok in Hl. clear Hk. induction Hl as [|p en kvs l Hp Hl IH]; [done|]. simpl. f_equal; [|done].
    unfold entry_of. by rewrite Hp. }
  rewrite Hr, Hk. f_equal. f_equal. apply list_filter_iff. intros p. unfold scan_wants.
  rewrite andb_true_iff. tauto.
Qed.

Lemma takeZ_short {A} n (l : list A) : zlen (takeZ n l) < n -> takeZ n l = l.
Proof. unfold takeZ, zlen. rewrite length_take. intros. apply take_ge. lia. Qed.

(** The listing a request asks for: every committed object whose key has the prefix and
    is not before [From], collapsed by the delimiter. *)
Definition whole_listing (st : estate doc) (req : ListRequest) (from : string) : list item :=
  listing req (entries st (lr_Prefix req)) from.

Lemma want_pos req : 0 < lr_Limit req < max_int64 -> 0 < want req.
Proof.
  intros Hlim. unfold want. destruct (String.eqb _ _); [|done]. unfold max_int64 in *.
  rewrite wrap_int64_id; [lia|]. unfold is_int64, min_int64, max_int64. lia.
Qed.

Lemma list_loop_spec req : plain_delim (lr_Delimiter req) -> 0 < lr_Limit req < max_int64 ->
  forall fuel from page items (e e' : E) p L,
  so_far req (entries (e_state e) (lr_Prefix req)) L page from items ->
  list_loop prefix fuel req from page e = Some (Ok p, e') ->
  e_state e' = e_state e /\ exists its, shows p its /\ zlen its <= lr_Limit req /\
    ((L = its /\ lp_Next p = "") \/
     (zlen its = lr_Limit req /\ L = its ++ whole_listing (e_state e) req (lp_Next p) /\
      whole_listing (e_state e) req (lp_Next p) <> [] /\ lp_Next p <> "")).
Proof.
  intros Hd Hlim. pose proof (want_pos req Hlim) as Hw.
  induction fuel as [|fuel IH]; intros from page items e e' p L Hso; cbn [list_loop]; [done|].
  destruct (ScanEntries _ _ _ _ _) as [[l|err] e1] eqn:Hsc; [|done].
  apply ScanEntries_entries in Hsc as [Hs Hl]; [|done].
  destruct (entries_facts (e_state e) (lr_Prefix req)) as [Hasc Hpre].
  set (S := entries (e_state e) (lr_Prefix req)) in *.
  destruct l as [|o os].
  { intros [= <- <-]. split; [done|]. exists items. destruct Hso as (? & ? & HL & Hn & _). split; [done|].
    split; [done|]. left. split; [|done]. unfold listing in HL.
    pose proof (takeZ_short (want req) (since from S)) as Ht. rewrite <- Hl in Ht.
    rewrite <- (Ht Hw), app_nil_r in HL. done. }
  rewrite Hl. assert (HS : exists dn, S = dn ++ since from S).
  { apply since_suffix. done. }
  destruct HS as [dn HS]. pose proof (list_page_spec req S Hasc Hpre Hd (proj1 Hlim) L (dropZ (want req) (since from S))
    (takeZ (want req) (since from S)) dn "" from page items) as Hpage.
  rewrite takeZ_dropZ in Hpage. specialize (Hpage HS Hso (or_introl eq_refl) eq_refl).
  pose proof (list_page_progress req o os from page) as Hprog. rewrite Hl in Hprog.
  destruct (list_page req (takeZ (want req) (since from S)) "" from page) as [q|[q f]].
  - intros [= <- <-]. split; [done|]. destruct Hpage as (its & ? & ? & ? & ? & ?). exists its.
    split; [done|]. split; [lia|]. right. done.
  - destruct Hpage as (its & g & Hso' & Hf). pose proof Hso as (Hsh0 & Hle0 & _). apply shows_len in Hsh0.
    destruct Hso' as (Hsh & Hle & HL & Hn & Hne) eqn:Hs'. clear Hs'.
    pose proof (shows_len _ _ Hsh) as Hlen. specialize (Hprog q f ltac:(lia) eq_refl).
    pose proof (zlen_nonneg items).
    destruct Hne as [->|Hne]; [rewrite zlen_nil in Hlen; lia|].
    destruct ((zlen _ <? want req) || String.eqb f "") eqn:Hend.
    + intros [= <- <-]. split; [done|]. exists its. split; [done|]. split; [done|]. left. split; [|done].
      destruct (String.eqb_spec f ""); [done|]. rewrite orb_false_r in Hend. bool_facts.
      rewrite HL, Hf. apply takeZ_short in Hend as Htl. rewrite dropZ_all; [simpl; by rewrite app_nil_r|].
      rewrite <- Htl. lia.
    + intros H'. rewrite <- Hs. eapply IH in H'; [|rewrite Hs; exact Hso']. rewrite Hs in *. done.
Qed.

(** Where a page says to go on: past a key that has the prefix, or past a group of them. *)
Definition resume_at (req : ListRequest) (f : string) : Prop :=
  (exists k, HasPrefix k (lr_Prefix req) = true /\ f = After k) \/ (exists g, a_group req g /\ f = PastPrefix g).

Lemma list_page_resume req : 0 < lr_Limit req -> forall objects group from page,
  Forall (fun o => HasPrefix (en_Key o) (lr_Prefix req) = true) objects ->
  lp_Next page = "" -> (page_len page = 0 \/ resume_at req from) ->
  match list_page req objects group from page with
  | inl p => resume_at req (lp_Next p)
  | inr (p, f) => lp_Next p = "" /\ (page_len p = 0 \/ resume_at req f)
  end.
Proof.
  intros Hlim. induction objects as [|o os IH]; intros group from page Hall Hn Hf; cbn [list_page]; [done|].
  apply Forall_cons in Hall as [Ho Hall]. destruct (negb _ && _); [by apply IH|].
  destruct (full req page) eqn:Hfull.
  { unfold full in Hfull. fold (page_len page) in Hfull. bool_facts. destruct Hf; [lia | done]. }
  destruct (groupOf _ _ _) as [g|] eqn:Hg; apply IH; try done; right; [right | left]; eexists; (split; [|done]); [by eexists | done].
Qed.

Lemma list_loop_resume req : 0 < lr_Limit req -> 0 < want req -> forall fuel from page (e e' : E) p,
  lp_Next page = "" -> (page_len page = 0 \/ resume_at req from) ->
  list_loop prefix fuel req from page e = Some (Ok p, e') -> lp_Next p = "" \/ resume_at req (lp_Next p).
Proof.
  intros Hlim Hw. induction fuel as [|fuel IH]; intros from page e e' p Hn Hf; cbn [list_loop]; [done|].
  destruct (ScanEntries _ _ _ _ _) as [[l|err] e1] eqn:Hsc; [|done].
  apply ScanEntries_entries in Hsc as [_ Hl]; [|done].
  assert (Hpre : Forall (fun o => HasPrefix (en_Key o) (lr_Prefix req) = true) l).
  { rewrite Hl. unfold takeZ, since. apply Forall_take, Forall_filter_keep, entries_facts. }
  pose proof (list_page_resume req Hlim l "" from page Hpre Hn Hf) as Hp.
  destruct l as [|o os]; [intros [= <- _]; by left|].
  destruct (list_page req (o :: os) "" from page) as [q|[q f]]; [intros [= <- _]; by right|].
  destruct (_ || _); [intros [= <- _]; left; apply Hp|]. apply IH; apply Hp.
Qed.

Lemma List_resume (req : ListRequest) (e e' : E) (page : ListPage) : 0 < lr_Limit req < max_int64 ->
  List prefix req e = Some (Ok page, e') -> lp_Next page = "" \/ resume_at req (lp_Next page).
Proof.
  intros Hlim H. unfold List in H. destruct (Z.leb_spec (lr_Limit req) 0); [lia|].
  eapply list_loop_resume in H; [done | lia | by apply want_pos | done | by left].
Qed.

Lemma List_page_spec (req : ListRequest) (e e' : E) (page : ListPage) :
  plain_delim (lr_Delimiter req) -> 0 < lr_Limit req < max_int64 ->
  List prefix req e = Some (Ok page, e') ->
  let L := whole_listing (e_state e) req (lr_From req) in
  e_state e' = e_state e /\ shows page (takeZ (lr_Limit req) L) /\
  (lp_Next page = "" <-> zlen L <= lr_Limit req) /\
  (lp_Next page <> "" -> whole_listing (e_state e) req (lp_Next page) = dropZ (lr_Limit req) L).
Proof.
  intros Hd Hlim H L. unfold List in H. destruct (Z.leb_spec (lr_Limit req) 0); [lia|].
  eapply (list_loop_spec req Hd Hlim _ _ _ [] _ _ _ L) in H.
  - destruct H as (He & its & Hsh & Hle & [[-> Hn]|(Hfull & HL & Hrest & Hn)]); split; try done.
    + rewrite takeZ_all by done. split; [done|]. split; [tauto | done].
    + assert (Htake : takeZ (lr_Limit req) L = its /\ dropZ (lr_Limit req) L = whole_listing (e_state e) req (lp_Next page)).
      { rewrite HL, <- Hfull. unfold takeZ, dropZ, zlen. rewrite Nat2Z.id. split; [apply take_app_length | apply drop_app_length]. }
      destruct Htake as [-> ->]. split; [done|]. split; [|done]. split; [done|]. intros Hle'. exfalso.
      rewrite HL, zlen_app in Hle'. apply Hrest, zlen_zero_nil.
      pose proof (zlen_nonneg (whole_listing (e_state e) req (lp_Next page))). lia.
  - split; [done|]. rewrite zlen_nil. split; [lia|]. split; [done|]. by auto.
Qed.

(** A listing that fails has changed nothing either. *)
Lemma List_state (req : ListRequest) (e e' : E) (r : res ListPage) : 0 < lr_Limit req < max_int64 ->
  List prefix req e = Some (r, e') -> e_state e' = e_state e.
Proof.
  intros Hlim. unfold List. destruct (Z.leb_spec (lr_Limit req) 0); [lia|]. generalize (lr_From req) zeroPage.
  generalize (Datatypes.S (Z.to_nat (lr_Limit req))). pose proof (want_pos req Hlim) as Hw. intros fuel. revert e.
  induction fuel as [|fuel IH]; intros e from page; cbn [list_loop]; [done|].
  destruct (ScanEntries _ _ _ _ e) as [rr e1] eqn:Hsc.
  assert (He1 : e_state e1 = e_state e).
  { unfold ScanEntries, st_bind in Hsc. destruct (scan _ _ _ _ e) as [x e2] eqn:Hs. apply scan_spec in Hs as [Hs _]; [|done].
    destruct x; injection Hsc as _ <-; done. }
  destruct rr as [[|o os]|err]; [intros [= _ <-]; done| |intros [= _ <-]; done].
  destruct (list_page _ _ _ _ _) as [q|[q f]]; [intros [= _ <-]; done|].
  destruct (_ || _); [intros [= _ <-]; done|]. intros H'. apply IH in H'. congruence.
Qed.

(** A page is exactly the first [Limit] entries of the listing the request asks for,
    objects and collapsed prefixes each once and in key order, for every delimiter that
    ends below 0x7f. It says there is more if and only if there is, and a request that
    resumes at the point it names lists exactly the rest, so that pages neither repeat
    nor lose an entry. *)
Theorem List_page_exact (req : ListRequest) (e e' : E) (page : ListPage) :
  plain_delim (lr_Delimiter req) -> 0 < lr_Limit req < max_int64 ->
  List prefix req e = Some (Ok page, e') ->
  let L := whole_listing (e_state e) req (lr_From req) in
  e_state e' = e_state e /\ shows page (takeZ (lr_Limit req) L) /\
  (lp_Next page = "" <-> zlen L <= lr_Limit req) /\
  (lp_Next page <> "" -> whole_listing (e_state e) req (lp_Next page) = dropZ (lr_Limit req) L).
Proof. apply List_page_spec. Qed.
End whole.

(** ** At concrete inputs *)

Definition commit_all (keys : list string) : demoE :=
  foldl (fun e k => (Commit "/kavo" k demo_m e).2) demo0 keys.

Definition demo_bucket : demoE := commit_all ["b/a"; "b/p/x"; "b/p/y"; "b/q"; "c"].
Definition demo_req : ListRequest := mk_ListRequest "b/" "/" "" 2.
Definition demo_page : ListPage := mk_ListPage [mk_Entry "b/a" 0 "" 0] ["b/p/"] "b/p0".

Example demo_listed : option_map fst (List "/kavo" demo_req demo_bucket) = Some (Ok demo_page).
Proof. vm_compute. reflexivity. Qed.

Lemma List_page_exact_witness :
  shows demo_page (takeZ 2 (whole_listing "/kavo" (e_state demo_bucket) demo_req "")) /\
  whole_listing "/kavo" (e_state demo_bucket) demo_req "b/p0"
  = dropZ 2 (whole_listing "/kavo" (e_state demo_bucket) demo_req "").
Proof.
  destruct (List "/kavo" demo_req demo_bucket) as [[r e']|] eqn:Hl;
    [|exfalso; revert Hl; vm_compute; discriminate].
  assert (Hr : r = Ok demo_page).
  { pose proof demo_listed as H. rewrite Hl in H. injection H as ->. reflexivity. }
  subst r. destruct (List_page_exact "/kavo" demo_req demo_bucket e' demo_page) as (_ & Hs & _ & Hrest).
  - right. exists "", "/"%char. split; [reflexivity | vm_compute; reflexivity].
  - vm_compute. split; reflexivity.
  - exact Hl.
  - split; [exact Hs | apply Hrest; discriminate].
Defined.

(** With a delimiter that is not ASCII a listing loses keys. The two keys below differ
    in their second letter, e-acute and e-circumflex; listed one at a time with e-acute
    as the delimiter, the first page reports the group of the first key and says that
    more follows, and the page that resumes where it says is empty and final. *)
Theorem List_loses_keys :
  let e_acute := String (byte_of 195) (String (byte_of 169) "") in
  let e_circ := String (byte_of 195) (String (byte_of 170) "") in
  let bucket := commit_all ["b/" +:+ e_acute +:+ "x"; "b/" +:+ e_circ +:+ "y"] in
  exists next, next <> "" /\
    option_map fst (List "/kavo" (mk_ListRequest "b/" e_acute "" 1) bucket)
    = Some (Ok (mk_ListPage [] ["b/" +:+ e_acute] next)) /\
    option_map fst (List "/kavo" (mk_ListRequest "b/" e_acute next 1) bucket) = Some (Ok zeroPage).
Proof.
  exists ("b/" +:+ String (byte_of 195) (String (byte_of 194) (String (byte_of 170) ""))).
  split; [discriminate|]. split; vm_compute; reflexivity.
Qed.
