(* ===== verification/Multipart.v ===== *)
(** * Multipart uploads: [internal/cluster/upload.go]

    A part is written like an object but recorded against the upload; completing the
    upload commits one manifest that names the chunks of its parts in order. *)

From S2P Require Import Prelude GoStr Strconv Path Hash Crc Ring Ec Object Store Etcd Meta Node Cluster.

Definition MaxParts : Z := 10000.
Definition UploadMaxAge : Z := 7 * 24 * 3600 * 10 ^ 9.

Record CompletedPart := mk_CompletedPart { cp_Number : Z; cp_ETag : string }.

(** [strings.Trim] with the double quote as its cutset. *)
Fixpoint trim_left (c : byte) (s : string) : string :=
  match s with
  | String d s' => if Ascii.eqb d c then trim_left c s' else s
  | EmptyString => ""
  end.
Fixpoint trim_right (c : byte) (s : string) : string :=
  match s with
  | EmptyString => ""
  | String d s' => match trim_right c s' with
                   | EmptyString => if Ascii.eqb d c then "" else String d ""
                   | t => String d t
                   end
  end.
Definition quote : byte := byte_of 34.
Definition TrimQuotes (s : string) : string := trim_right quote (trim_left quote s).

(** [slices.IsSortedFunc] with [a.Number - b.Number], an [int] subtraction. *)
Fixpoint parts_sorted (parts : list CompletedPart) : bool :=
  match parts with
  | a :: (b :: _) as parts' => negb (wrap_int64 (cp_Number b - cp_Number a) <? 0) && parts_sorted parts'
  | _ => true
  end.

(** One of the three checksums across a part boundary. The combination of two checksums of
    the right width is always defined. *)
Definition join_sum (combine : Z -> Z -> Z -> option Z) (first : bool) (final part : option Z) (size : Z)
    : res (option Z) :=
  match part, final with
  | None, _ => Ok None
  | Some s, None => Ok (if first then Some s else None)
  | Some s, Some f => match combine f s size with Some x => Ok (Some x) | None => Err errors_New end
  end.

(** The body of the loop over the named parts; [prev] is the number of the one before. *)
Definition add_part (stored : gmap Z Manifest) (prev : option Z) (p : CompletedPart) (final : Manifest) (sums : bytes)
    : res (Manifest * bytes) :=
  if bool_decide (prev = Some (cp_Number p)) then Err [ErrPartOrder]
  else match stored !! cp_Number p with
  | None => Err [ErrNoSuchPart]
  | Some m =>
      let want := TrimQuotes (cp_ETag p) in
      if negb (String.eqb want "") && negb (String.eqb want (m_ETag m)) then Err [ErrPartMismatch]
      else
        let first := bool_decide (prev = None) in
        if negb first && negb (bool_decide (m_Nodes final = m_Nodes m /\ m_Coding final = m_Coding m)) then Err errors_New
        else match hex_DecodeString (m_ETag m) with
        | None => Err errors_New
        | Some raw =>
            c ← join_sum CombineCRC32C first (m_CRC32C final) (m_CRC32C m) (m_Size m);
            i ← join_sum CombineCRC32 first (m_CRC32 final) (m_CRC32 m) (m_Size m);
            n ← join_sum CombineCRC64NVME first (m_CRC64NVME final) (m_CRC64NVME m) (m_Size m);
            Ok (mk_Manifest (wrap_int64 (m_Size final + m_Size m)) (m_ETag final) (m_ContentType final)
                  (m_Modified final) (m_Meta final)
                  (if first then m_Nodes m else m_Nodes final) (m_Chunks final ++ m_Chunks m)
                  (if first then m_Coding m else m_Coding final) c i n
                  (m_Parts final ++ [mk_Part (cp_Number p) (m_Size m) (m_CRC32C m) (m_CRC32 m) (m_CRC64NVME m)]),
                sums ++ raw)
        end
  end.

Fixpoint assemble (stored : gmap Z Manifest) (parts : list CompletedPart) (prev : option Z) (final : Manifest) (sums : bytes)
    : res (Manifest * bytes) :=
  match parts with
  | [] => Ok (final, sums)
  | p :: parts' =>
      fs ← add_part stored prev p final sums;
      assemble stored parts' (Some (cp_Number p)) fs.1 fs.2
  end.

(** A checksum the client names and the object does not have. *)
Definition refutes (declared have : option Z) : bool :=
  match declared with Some d => negb (bool_decide (have = Some d)) | None => false end.

Record ClusterPart := mk_ClusterPart { pt_Number : Z; pt_ETag : string; pt_Size : Z; pt_Modified : Z }.

Section multipart.
Context {E : Type} `{!Etcd doc E} {rs : ReedSolomon} (prefix : string) (c : Coordinator).
Abbreviation World := (world E).

(** [CreateUpload]; [id] is what [rand.Text] returned. *)
Definition ClusterCreateUpload (key contentType : string) (metadata : gmap string string) (id : string) (w : World)
    : res string * World :=
  match on_meta (CreateUpload prefix id (mk_Upload key contentType (w_now w) metadata)) w with
  | (Err e, w1) => (Err e, w1)
  | (Ok _, w1) => (Ok id, w1)
  end.

Definition UploadPart (id : string) (number : Z) (body : reader) (opts : PutOptions) (rnd : string) (w : World)
    : res Manifest * World :=
  if (number <? 1) || (MaxParts <? number) then (Err [ErrNoSuchPart], w)
  else match on_meta (GetUpload prefix id) w with
  | (Err e, w1) => (Err e, w1)
  | (Ok u, w1) =>
      match write prefix c (u_Key u) body (po_Size opts) rnd w1 with
      | (Err e, w2) => (Err e, w2)
      | (Ok (m, writing), w2) =>
          match first_error [checkCRC32C m opts; checkCRC32 m opts; checkCRC64NVME m opts] with
          | Some e => (Err e, stopWriting prefix writing w2)
          | None =>
              let '(r, w3) := if String.eqb writing "" then on_meta (CommitPart prefix id number m) w2
                              else on_meta (CommitPartWhileWriting prefix id number m writing) w2 in
              let w4 := stopWriting prefix writing w3 in
              match r with Err e => (Err e, w4) | Ok _ => (Ok m, w4) end
          end
      end
  end.

(** [CopyPart]. The pipe hands over what [StreamRange] wrote and ends as it ended; the
    two sides touch different chunks, so one is run after the other. *)
Definition CopyPart (id : string) (number : Z) (src : Manifest) (off length_ : Z) (opts : PutOptions) (rnd : string)
    (w : World) : res Manifest * World :=
  let '(err, out, w1) := StreamRange c src (mk_writer [] None) off length_ w in
  let opts' := mk_PutOptions (po_ContentType opts) (po_ETag opts) length_ (po_Meta opts) (po_MD5 opts)
                 (po_CRC32C opts) (po_TrailingCRC32C opts) (po_CRC32 opts) (po_TrailingCRC32 opts)
                 (po_CRC64NVME opts) (po_TrailingCRC64NVME opts) in
  UploadPart id number (mk_reader (wr_out out) err) opts' rnd w1.

(** The part of [CompleteUpload] that decides, before anything is committed. *)
Definition completed (u : Upload) (stored : gmap Z Manifest) (parts : list CompletedPart)
    (crc32c crc64nvme crc32 : option Z) (now : Z) : res Manifest :=
  match parts with
  | [] => Err [ErrNoSuchPart]
  | _ =>
      if negb (parts_sorted parts) then Err [ErrPartOrder]
      else
        fs ← assemble stored parts None (mk_Manifest 0 "" (u_ContentType u) 0 (u_Meta u) [] [] zeroScheme None None None []) [];
        let final := described fs.1 (hex_EncodeToString (md5 fs.2) +:+ "-" +:+ Itoa (zlen parts))
                       (u_ContentType u) (u_Meta u) (now / 10 ^ 9 * 10 ^ 9) in
        if refutes crc32c (m_CRC32C final) then Err [ErrBadDigest]
        else if refutes crc32 (m_CRC32 final) then Err [ErrBadDigest]
        else if refutes crc64nvme (m_CRC64NVME final) then Err [ErrBadDigest]
        else Ok final
  end.

Definition CompleteUpload (id : string) (parts : list CompletedPart) (crc32c crc64nvme crc32 : option Z) (w : World)
    : res Manifest * World :=
  match on_meta (GetUpload prefix id) w with
  | (Err e, w1) =>
      if errors_Is e MetaErrNotFound then
        match on_meta (GetCompletion prefix id) w1 with
        | (Ok done, w2) =>
            (Ok (mk_Manifest 0 (cm_ETag done) "" (cm_When done) ∅ [] [] zeroScheme None None None []), w2)
        | (Err _, w2) => (Err e, w2)
        end
      else (Err e, w1)
  | (Ok u, w1) =>
      match on_meta (Parts prefix id) w1 with
      | (Err e, w2) => (Err e, w2)
      | (Ok stored, w2) =>
          match completed u stored parts crc32c crc64nvme crc32 (w_now w2) with
          | Err e => (Err e, w2)
          | Ok final =>
              match on_meta (Commit prefix (u_Key u) final) w2 with
              | (Err e, w3) => (Err e, w3)
              | (Ok _, w3) =>
                  let done := mk_Completion (u_Key u) (m_ETag final) (m_Modified final) (zlen parts) in
                  let '(_, w4) := on_meta (FinishUpload prefix id done) w3 in
                  let '(_, w5) := on_meta (DeleteUpload prefix id) w4 in
                  (Ok final, w5)
              end
          end
      end
  end.

Definition AbortUpload (id : string) (w : World) : res unit * World :=
  match on_meta (GetUpload prefix id) w with
  | (Err e, w1) => (Err e, w1)
  | (Ok _, w1) => on_meta (DeleteUpload prefix id) w1
  end.

Definition ClusterExpireUploads (w : World) : option (res Z * World) :=
  option_map (fun p => (p.1, set_etcd w p.2)) (ExpireUploads prefix (w_now w - UploadMaxAge) (w_etcd w)).

(** [Parts], in part-number order. *)
Fixpoint insert_part (p : ClusterPart) (l : list ClusterPart) : list ClusterPart :=
  match l with
  | [] => [p]
  | q :: l' => if pt_Number p <=? pt_Number q then p :: l else q :: insert_part p l'
  end.

Definition ClusterParts (id : string) (w : World) : res (list ClusterPart) * World :=
  match on_meta (GetUpload prefix id) w with
  | (Err e, w1) => (Err e, w1)
  | (Ok _, w1) =>
      match on_meta (Parts prefix id) w1 with
      | (Err e, w2) => (Err e, w2)
      | (Ok stored, w2) =>
          (Ok (foldr (fun p l => insert_part (mk_ClusterPart p.1 (m_ETag p.2) (m_Size p.2) (m_Modified p.2)) l)
                 [] (map_to_list stored)), w2)
      end
  end.

Definition ClusterUploads (pre after : string) (limit : Z) (w : World) : res (list UploadRef * bool) * World :=
  on_meta (Uploads prefix pre after limit) w.
End multipart.

(** ** Parts *)

Section part_facts.
Context {E : Type} `{!Etcd doc E} `{!EtcdLaws doc E} {rs : ReedSolomon} (prefix : string) (c : Coordinator).
Context (Hscheme : c_scheme c = zeroScheme).
Abbreviation World := (world E).

(** The manifest recorded for a part. *)
Definition part_record (w : World) (id : string) (n : Z) : option doc :=
  kv_value <$> es_kvs (e_state (w_etcd w)) !! partKey prefix id n.

(** What a part that was acknowledged is. *)
Definition part_of (w : World) (key : string) (data : bytes) (m : Manifest) : Prop :=
  stored c w (write_owners c key) data m /\ m_ETag m = hex_EncodeToString (md5 data).

Lemma part_txn ifs id n m (e e' : E) b :
  e_write (OpTxn ifs (partKey prefix id n) (DManifest (json_manifest m))) e = (Ok b, e') ->
  if b then kv_value <$> es_kvs (e_state e') !! partKey prefix id n = Some (DManifest (json_manifest m)) else True.
Proof.
  intros H%e_write_law. destruct b; [|done]. apply txn_true in H as [_ ->].
  unfold put. simpl. by rewrite lookup_insert_eq.
Qed.

Lemma stopWriting_part writing id n (w : World) : writing = "" \/ plain_elem writing = true ->
  plain_elem id = true -> 0 <= n ->
  part_record (stopWriting prefix writing w) id n = part_record w id n.
Proof.
  intros Hw Hid Hn. unfold stopWriting. destruct (String.eqb_spec writing ""); [done|].
  destruct Hw as [|Hw]; [done|]. unfold on_meta.
  destruct (DoneWriting prefix writing (w_etcd w)) as [r e] eqn:H. simpl. unfold part_record. simpl.
  assert (Hst : e_state e = e_state (w_etcd w) \/
    e_state e = (apply (e_state (w_etcd w)) (OpDelete (writingKey prefix writing))).2).
  { unfold DoneWriting in H. meta_cases H; apply e_write_law in Hc; [|tauto]. right. by rewrite <- Hc. }
  destruct Hst as [->| ->]; [done|]. simpl. destruct (es_kvs _ !! writingKey _ _); [|done]. simpl.
  rewrite lookup_delete_ne; [done|].
  apply (encode_ne prefix (KWriting writing) (KPart id n)); [done | by split | done].
Qed.

Lemma commit_part_spec id n m writing (w w' : World) : plain_elem id = true -> 0 <= n ->
  (if String.eqb writing "" then on_meta (CommitPart prefix id n m) w
   else on_meta (CommitPartWhileWriting prefix id n m writing) w) = (Ok tt, w') ->
  w_stores w' = w_stores w /\ objects_same prefix w w' /\ part_record w' id n = Some (DManifest (json_manifest m)).
Proof.
  intros Hid Hn. assert (Hok : mkey_ok (KPart id n)) by (by split).
  destruct (String.eqb writing ""); unfold on_meta.
  - destruct (CommitPart prefix id n m (w_etcd w)) as [r e] eqn:H. intros [= -> <-]. split; [done|].
    unfold CommitPart in H. meta_cases H. split; [|exact (part_txn _ _ _ _ _ _ _ Hc)].
    intros j. simpl. by eapply (txn_keeps_objects prefix _ (KPart id n)).
  - destruct (CommitPartWhileWriting prefix id n m writing (w_etcd w)) as [r e] eqn:H. intros [= -> <-].
    split; [done|]. unfold CommitPartWhileWriting in H. meta_cases H.
    split; [|exact (part_txn _ _ _ _ _ _ _ Hc)].
    intros j. simpl. by eapply (txn_keeps_objects prefix _ (KPart id n)).
Qed.

Lemma UploadPart_spec (id rnd : string) (n : Z) (body : reader) (opts : PutOptions) (w w' : World) (m : Manifest) :
  plain_elem id = true -> plain_elem rnd = true ->
  UploadPart prefix c id n body opts rnd w = (Ok m, w') ->
  1 <= n <= MaxParts /\ objects_same prefix w w' /\ part_record w' id n = Some (DManifest (json_manifest m)) /\
  exists x u, es_kvs (e_state (w_etcd w)) !! uploadKey prefix id = Some x /\ as_upload (kv_value x) = Ok u /\
    part_of w' (u_Key u) (rd_data body) m.
Proof.
  intros Hid Hrnd. unfold UploadPart.
  destruct (_ || _) eqn:Hn; [done|]. bool_facts. unfold on_meta at 1.
  destruct (GetUpload prefix id (w_etcd w)) as [[u|e] e1] eqn:Hu; [|done].
  apply GetUpload_spec in Hu as [Hs1 Hu].
  destruct (es_kvs (e_state (w_etcd w)) !! uploadKey prefix id) as [x|] eqn:Hx; [|by destruct Hu].
  destruct Hu as [Hu|]; [|done].
  destruct (write _ _ _ _ _ _ _) as [[[m0 writing]|e] w2] eqn:Hw; [|done].
  apply write_Ok in Hw as (Ho & Hwr & Hst & Het); [|done..].
  assert (Hwo : writing = "" \/ plain_elem writing = true) by (destruct Hwr as [->| ->]; auto).
  destruct (first_error _); [done|].
  destruct (if String.eqb writing "" then _ else _) as [[[]|e] w3] eqn:Hcm; [|done].
  apply commit_part_spec in Hcm as (Hs3 & Ho3 & Hr3); [|done|lia]. intros [= <- <-].
  destruct (stopWriting_objects prefix writing w3 Hwo) as [Hs4 Ho4].
  split; [lia|]. split.
  { intros j. rewrite Ho4, Ho3, Ho. by apply lookup_obj_state. }
  split; [by rewrite stopWriting_part by (done || lia)|].
  exists x, u. split; [done|]. split; [done|]. split; [|done]. eapply (stored_stores c w2); [congruence | done].
Qed.

(** An acknowledged part is durable and recorded. The upload existed, the part's
    manifest is on record under its number, its bytes are on a quorum of the owners of
    the key of the object it is meant for (not of the part), its ETag is their MD5, and
    no object has changed. *)
Theorem UploadPart_acknowledged (id rnd : string) (n : Z) (body : reader) (opts : PutOptions) (w w' : World) (m : Manifest) :
  plain_elem id = true -> plain_elem rnd = true ->
  UploadPart prefix c id n body opts rnd w = (Ok m, w') ->
  1 <= n <= MaxParts /\ objects_same prefix w w' /\ part_record w' id n = Some (DManifest (json_manifest m)) /\
  exists x u, es_kvs (e_state (w_etcd w)) !! uploadKey prefix id = Some x /\ as_upload (kv_value x) = Ok u /\
    part_of w' (u_Key u) (rd_data body) m.
Proof. apply UploadPart_spec. Qed.
End part_facts.

(** ** Completion *)

Lemma combine_sums (p q : bytes) : zlen q <= max_int64 ->
  CombineCRC32C (crc32c p) (crc32c q) (zlen q) = Some (crc32c (p ++ q)) /\
  CombineCRC32 (crc32ieee p) (crc32ieee q) (zlen q) = Some (crc32ieee (p ++ q)) /\
  CombineCRC64NVME (CRC64NVME p) (CRC64NVME q) (zlen q) = Some (CRC64NVME (p ++ q)).
Proof. intros Hq. repeat split; apply combine_checksum; try done; lia. Qed.

Section completion_facts.
Context {E : Type} `{!Etcd doc E} `{!EtcdLaws doc E} {rs : ReedSolomon} (prefix : string) (c : Coordinator).
Abbreviation World := (world E).
Context (w : World) (key : string).

(** A part the completion names: it was uploaded, and its ETag is what the client says. *)
Definition named (recorded : gmap Z Manifest) (p : CompletedPart) (d : bytes) : Prop :=
  exists m, recorded !! cp_Number p = Some m /\ part_of c w key d m /\
    (TrimQuotes (cp_ETag p) = "" \/ TrimQuotes (cp_ETag p) = m_ETag m).

Definition part_entry (p : CompletedPart) (d : bytes) : Part :=
  mk_Part (cp_Number p) (zlen d) (Some (crc32c d)) (Some (crc32ieee d)) (Some (CRC64NVME d)).

(** The manifest of the named parts put together. *)
Definition assembled (parts : list CompletedPart) (ds : list bytes) (f : Manifest) : Prop :=
  stored c w (write_owners c key) (concat ds) f /\ m_Parts f = zip_with part_entry parts ds.

Lemma stored_join a b m f :
  stored c w (write_owners c key) a m -> stored c w (write_owners c key) b f ->
  exists ps, concat ps = a ++ b /\
    Forall2 (fun ref d => c_CRC ref = crc32c d /\ c_Size ref = zlen d /\
      on_quorum c (live c) w (write_owners c key) (c_quorum c) ref) (m_Chunks m ++ m_Chunks f) ps.
Proof.
  intros (_ & _ & _ & _ & _ & _ & ps & Hps & HF) (_ & _ & _ & _ & _ & _ & qs & Hqs & HG).
  exists (ps ++ qs). split; [by rewrite concat_app, Hps, Hqs|]. by apply Forall2_app.
Qed.

(** The checks of one part, whatever came before. *)
Lemma add_part_inv recorded prev p final sums f s :
  (forall n m, recorded !! n = Some m -> exists d, part_of c w key d m) ->
  add_part recorded prev p final sums = Ok (f, s) ->
  prev <> Some (cp_Number p) /\ exists m d, recorded !! cp_Number p = Some m /\ part_of c w key d m /\
    named recorded p d /\ s = sums ++ md5 d.
Proof.
  intros Hrec. unfold add_part. destruct (bool_decide_reflect (prev = Some (cp_Number p))); [done|].
  destruct (recorded !! cp_Number p) as [m|] eqn:Hm; [|done].
  destruct (negb (String.eqb _ _) && negb (String.eqb _ _)) eqn:Het; [done|].
  destruct (negb (bool_decide _) && _); [done|].
  destruct (Hrec _ _ Hm) as [d Hd]. pose proof Hd as [_ He]. rewrite He at 1. rewrite hex_roundtrip.
  intros (c1 & _ & (c2 & _ & (c3 & _ & [= _ <-])%res_bind_Ok)%res_bind_Ok)%res_bind_Ok.
  split; [done|]. exists m, d. split; [done|]. split; [done|]. split; [|done].
  exists m. split; [done|]. split; [done|].
  apply andb_false_iff in Het as [H|H]; apply negb_false_iff, String.eqb_eq in H; auto.
Qed.

Lemma add_part_first recorded p ct mt m d f s :
  recorded !! cp_Number p = Some m -> part_of c w key d m -> zlen d <= max_int64 ->
  add_part recorded None p (mk_Manifest 0 "" ct 0 mt [] [] zeroScheme None None None []) [] = Ok (f, s) ->
  assembled [p] [d] f.
Proof.
  intros Hm [Hst He] Hd. pose proof Hst as (Hn & Hco & Hsz & H1 & H2 & H3 & Hps). unfold add_part.
  rewrite bool_decide_false by done. rewrite Hm. destruct (negb (String.eqb _ _) && _); [done|].
  rewrite bool_decide_true by done. cbn [negb andb]. rewrite He at 1. rewrite hex_roundtrip.
  cbn [m_CRC32C m_CRC32 m_CRC64NVME]. rewrite H1, H2, H3. cbn [join_sum mbind res_bind].
  intros [= <- _]. pose proof (zlen_nonneg d). split; [|by rewrite Hsz].
  split_and!; try done; simpl; rewrite ?app_nil_r; try done.
  rewrite Hsz, wrap_int64_id; [done|]. unfold is_int64, min_int64, max_int64 in *. lia.
Qed.

Lemma add_part_next recorded q p final sums m d ps ds f s :
  recorded !! cp_Number p = Some m -> part_of c w key d m ->
  zlen (concat ds ++ d) <= max_int64 -> length ps = length ds -> assembled ps ds final ->
  add_part recorded (Some q) p final sums = Ok (f, s) -> assembled (ps ++ [p]) (ds ++ [d]) f.
Proof.
  intros Hm [Hst He] Hd Hl [Hfin Hparts]. pose proof (stored_join _ _ _ _ Hfin Hst) as Hj.
  pose proof Hst as (Hn & Hco & Hsz & H1 & H2 & H3 & _). pose proof Hfin as (Hn' & Hco' & Hsz' & H1' & H2' & H3' & _).
  rewrite zlen_app in Hd. pose proof (zlen_nonneg d). pose proof (zlen_nonneg (concat ds)).
  unfold add_part. destruct (bool_decide _); [done|]. rewrite Hm. destruct (negb (String.eqb _ _) && _); [done|].
  rewrite bool_decide_false by done. cbn [negb andb]. rewrite bool_decide_true by (split; congruence).
  cbn [negb]. rewrite He at 1. rewrite hex_roundtrip, H1, H2, H3, H1', H2', H3', Hsz. unfold join_sum.
  destruct (combine_sums (concat ds) d) as (-> & -> & ->); [lia|].
  cbn [mbind res_bind]. intros [= <- _]. split.
  - rewrite concat_app. simpl. rewrite app_nil_r. split_and!; try done. simpl.
    rewrite Hsz', zlen_app, wrap_int64_id; [done|]. unfold is_int64, min_int64, max_int64 in *. lia.
  - simpl. rewrite Hparts, zip_with_app by done. done.
Qed.

Lemma assemble_spec recorded : (forall n m, recorded !! n = Some m -> exists d, part_of c w key d m) ->
  forall parts q ps ds final sums f s,
  length ps = length ds -> sums = concat (map md5 ds) ->
  (zlen (concat ds) <= max_int64 -> assembled ps ds final) ->
  assemble recorded parts (Some q) final sums = Ok (f, s) ->
  exists es, Forall2 (named recorded) parts es /\ s = concat (map md5 (ds ++ es)) /\
    Forall (fun p => p.1 <> p.2) (zip (q :: map cp_Number parts) (map cp_Number parts)) /\
    (zlen (concat (ds ++ es)) <= max_int64 -> assembled (ps ++ parts) (ds ++ es) f).
Proof.
  intros Hrec. induction parts as [|p parts IH]; intros q ps ds final sums f s Hl Hs Hacc; cbn [assemble].
  { intros [= <- <-]. exists []. split; [constructor|]. rewrite !app_nil_r. split; [done|].
    split; [constructor | done]. }
  intros ([f1 s1] & Hadd & H)%res_bind_Ok. cbn [fst snd] in H.
  pose proof (add_part_inv _ _ _ _ _ _ _ Hrec Hadd) as (Hne & m & d & Hm & Hd & Hnamed & Hs1).
  assert (Hmono : forall a b : bytes, zlen (a ++ b) <= max_int64 -> zlen a <= max_int64)
    by (intros a b; rewrite zlen_app; pose proof (zlen_nonneg b); lia).
  apply (IH (cp_Number p) (ps ++ [p]) (ds ++ [d])) in H as (es & HF & Hsum & Hdist & Hok).
  - exists (d :: es). rewrite <- !app_assoc in *. simpl in *. split; [by constructor|]. split; [done|].
    split; [|done]. constructor; [simpl; congruence | done].
  - rewrite !length_app. simpl. lia.
  - rewrite map_app, concat_app. simpl. by rewrite app_nil_r, Hs1, Hs.
  - rewrite concat_app. simpl. rewrite app_nil_r. intros Hz. eapply add_part_next; try done.
    apply Hacc. by eapply Hmono.
Qed.

Lemma assemble_all recorded parts ct mt f s : parts <> [] ->
  (forall n m, recorded !! n = Some m -> exists d, part_of c w key d m) ->
  assemble recorded parts None (mk_Manifest 0 "" ct 0 mt [] [] zeroScheme None None None []) [] = Ok (f, s) ->
  exists ds, Forall2 (named recorded) parts ds /\ s = concat (map md5 ds) /\
    Forall (fun p => p.1 <> p.2) (zip (map cp_Number parts) (tail (map cp_Number parts))) /\
    (zlen (concat ds) <= max_int64 -> assembled parts ds f).
Proof.
  intros Hne Hrec. destruct parts as [|p parts]; [done|]. cbn [assemble].
  intros ([f1 s1] & Hadd & H)%res_bind_Ok. cbn [fst snd] in H.
  pose proof (add_part_inv _ _ _ _ _ _ _ Hrec Hadd) as (_ & m & d & Hm & Hd & Hnamed & Hs1).
  apply (assemble_spec recorded Hrec parts (cp_Number p) [p] [d]) in H as (es & HF & Hsum & Hdist & Hok).
  - exists (d :: es). split; [by constructor|]. split; [done|]. split; [exact Hdist | exact Hok].
  - done.
  - simpl. by rewrite app_nil_r, Hs1.
  - simpl. rewrite app_nil_r. intros Hz. by eapply add_part_first.
Qed.

(** The chunks of the parts, one part after another. *)
Lemma assemble_chunks recorded parts : forall prev final sums f s,
  assemble recorded parts prev final sums = Ok (f, s) ->
  exists ms, Forall2 (fun p m => recorded !! cp_Number p = Some m) parts ms /\
    m_Chunks f = m_Chunks final ++ concat (map m_Chunks ms).
Proof.
  induction parts as [|p parts IH]; intros prev final sums f s; cbn [assemble].
  { intros [= <- <-]. exists []. split; [constructor | by rewrite app_nil_r]. }
  intros ([f1 s1] & Hadd & H)%res_bind_Ok. apply IH in H as (ms & HF & Hc). cbn [fst snd] in Hc.
  unfold add_part in Hadd. destruct (bool_decide _); [done|]. destruct (recorded !! cp_Number p) as [m|] eqn:Hm; [|done].
  destruct (_ && _); [done|]. destruct (_ && _); [done|]. destruct (hex_DecodeString _); [|done].
  apply res_bind_Ok in Hadd as (c1 & _ & (c2 & _ & (c3 & _ & [= <- _])%res_bind_Ok)%res_bind_Ok).
  exists (m :: ms). split; [by constructor|]. rewrite Hc. simpl. by rewrite <- app_assoc.
Qed.
End completion_facts.

Lemma parts_ascending parts : Forall (fun p => 0 <= cp_Number p <= MaxParts) parts -> parts_sorted parts = true ->
  Forall (fun p => p.1 <> p.2) (zip (map cp_Number parts) (tail (map cp_Number parts))) ->
  StronglySorted Z.lt (map cp_Number parts).
Proof.
  intros Hb Hs Hd. apply Sorted_StronglySorted; [intros x y z; lia|].
  induction parts as [|a [|b parts] IH]; [constructor | repeat constructor|].
  apply Forall_cons in Hb as [Ha Hb]. pose proof Hb as [Hb' _]%Forall_cons.
  cbn [parts_sorted] in Hs. apply andb_true_iff in Hs as [Hlt Hs].
  cbn [map tail zip zip_with] in Hd. apply Forall_cons in Hd as [Hne Hd]. simpl in Hne.
  rewrite wrap_int64_id in Hlt by (unfold is_int64, min_int64, max_int64, MaxParts in *; lia).
  constructor; [by apply IH|]. constructor. bool_facts. lia.
Qed.

Lemma Parts_spec {E : Type} `{!Etcd doc E} `{!EtcdLaws doc E} prefix id (e e' : E) recorded :
  Parts prefix id e = (Ok recorded, e') -> e_state e' = e_state e /\
  forall n m, recorded !! n = Some m -> exists k y, HasPrefix k (uploadPrefix prefix id +:+ "parts/") = true /\
    Atoi (path_Base k) = Some n /\ es_kvs (e_state e) !! k = Some y /\ as_manifest (kv_value y) = Ok m.
Proof.
  unfold Parts. set (start := uploadPrefix prefix id +:+ "parts/").
  intros (r & e1 & Hr & H)%st_bind_Ok. apply e_range_law in Hr as [Hs ->]. injection H as H <-.
  split; [done|]. apply res_bind_Ok in H as (l & Hl & [= <-]). apply res_map_Ok in Hl.
  unfold range_spec in Hl. simpl in Hl.
  assert (Hin : Forall (fun nm => exists k y, HasPrefix k start = true /\ Atoi (path_Base k) = Some nm.1 /\
    es_kvs (e_state e) !! k = Some y /\ as_manifest (kv_value y) = Ok nm.2) l).
  { assert (Hall : Forall (fun p => in_range start (e_prefixEnd start) p.1 = true /\ es_kvs (e_state e) !! p.1 = Some p.2)
      (sorted_range (e_state e) start (e_prefixEnd start)))
      by (apply Forall_forall; intros p Hp; by apply elem_of_sorted_range in Hp).
    revert Hall. induction Hl as [|p [n m] ps l Hp Hl IH]; [constructor|]. intros [[Hi Hk] Hall]%Forall_cons.
    constructor; [|auto]. destruct (Atoi (path_Base p.1)) as [z|] eqn:Hz; [|done].
    apply res_bind_Ok in Hp as (m' & Hm' & [= -> ->]). exists p.1, p.2. split; [|done].
    apply e_prefixEnd_law; [|done]. unfold start, uploadPrefix. apply small_app, small_slash. }
  clear Hl. intros n m. rewrite <- (reverse_involutive l) in Hin |- *. revert Hin. generalize (reverse l). clear l.
  induction l as [|[n' m'] l IH]; [done|]. rewrite reverse_cons. intros [Hin [Hx _]%Forall_cons]%Forall_app.
  rewrite foldl_app. simpl. intros [[<- <-]|[_ Hm]]%lookup_insert_Some; auto.
Qed.

Lemma Parts_state {E : Type} `{!Etcd doc E} `{!EtcdLaws doc E} prefix id (e e' : E) r :
  Parts prefix id e = (r, e') -> e_state e' = e_state e.
Proof.
  unfold Parts, st_bind. destruct (e_range _ _ _ e) as [[x|err] e1] eqn:Hr; intros [= _ <-]; by apply e_range_law in Hr as [? _].
Qed.

Lemma digits_no_slash base s : forall acc n, parse_digits base s acc = Some n -> has_slash s = false.
Proof.
  induction s as [|ch s IH]; intros acc n; [done|]. cbn [parse_digits has_slash].
  destruct (digit_val ch) as [d|] eqn:Hd; [|done]. destruct (_ <? _); [|done]. intros H. rewrite (IH _ _ H).
  destruct (Ascii.eqb_spec ch "/") as [->|]; done.
Qed.

(** A part's key tells its number. *)
Lemma partKey_number prefix id n : 0 <= n <= MaxParts -> Atoi (path_Base (partKey prefix id n)) = Some n.
Proof.
  unfold MaxParts. intros Hn. unfold partKey. change ("parts/" +:+ pad_dec 5 n) with ("parts" +:+ "/" +:+ pad_dec 5 n).
  rewrite sapp_assoc, path_Base_snoc; [apply Atoi_pad_dec; lia | apply pad_nonempty |].
  eapply digits_no_slash, parse_pad; lia.
Qed.

Section completion_claims.
Context {E : Type} `{!Etcd doc E} `{!EtcdLaws doc E} {rs : ReedSolomon} (prefix : string) (c : Coordinator).
Abbreviation World := (world E).

(** What a completion of the upload [u] may commit for the parts it names: the parts etcd had
    on record under those numbers when it was asked ([w0]), with the ETags the client gave,
    in ascending order, their chunks and bytes joined into one object. *)
Definition completion_ok (w0 w : World) (id : string) (u : Upload) (parts : list CompletedPart)
    (crc32c_ crc64 crc32_ : option Z) (f : Manifest) : Prop :=
  exists ms ds,
    Forall2 (fun p m => part_record prefix w0 id (cp_Number p) = Some (DManifest m) /\
               (TrimQuotes (cp_ETag p) = "" \/ TrimQuotes (cp_ETag p) = m_ETag m)) parts ms /\
    Forall2 (fun m d => part_of c w (u_Key u) d m) ms ds /\
    StronglySorted Z.lt (map cp_Number parts) /\
    m_Chunks f = concat (map m_Chunks ms) /\
    m_ETag f = hex_EncodeToString (md5 (concat (map md5 ds))) +:+ "-" +:+ Itoa (zlen parts) /\
    m_ContentType f = u_ContentType u /\ m_Meta f = u_Meta u /\
    (zlen (concat ds) <= max_int64 ->
       assembled c w (u_Key u) parts ds f /\
       (forall d, crc32c_ = Some d -> d = crc32c (concat ds)) /\
       (forall d, crc32_ = Some d -> d = crc32ieee (concat ds)) /\
       (forall d, crc64 = Some d -> d = CRC64NVME (concat ds))).

(** The records of an upload's parts: each under the key of its number, as [UploadPart] left it. *)
Definition parts_recorded (w : World) (id key : string) : Prop :=
  forall k y, HasPrefix k (uploadPrefix prefix id +:+ "parts/") = true ->
    es_kvs (e_state (w_etcd w)) !! k = Some y ->
    exists n m data, k = partKey prefix id n /\ 1 <= n <= MaxParts /\ kv_value y = DManifest m /\
      part_of c w key data m.

Lemma refutes_false d x y : refutes d (Some x) = false -> d = Some y -> y = x.
Proof. intros H ->. unfold refutes in H. apply negb_false_iff, bool_decide_eq_true in H. by injection H. Qed.

(** Two ways of matching the parts, through what is recorded under their numbers. *)
Lemma named_manifests (w0 w : World) id key recorded parts ms ds :
  (forall n m, recorded !! n = Some m -> part_record prefix w0 id n = Some (DManifest m)) ->
  Forall2 (fun p m => recorded !! cp_Number p = Some m) parts ms ->
  Forall2 (named c w key recorded) parts ds ->
  Forall2 (fun p m => part_record prefix w0 id (cp_Number p) = Some (DManifest m) /\
             (TrimQuotes (cp_ETag p) = "" \/ TrimQuotes (cp_ETag p) = m_ETag m)) parts ms /\
  Forall2 (fun m d => part_of c w key d m) ms ds.
Proof.
  intros Hrec Hms. revert ds. induction Hms as [|p m parts ms Hp Hms IH]; intros ds Hds.
  { inversion Hds; subst. split; constructor. }
  inversion Hds as [|? d ? ds' (m' & Hm' & Hpart & Het) Hds']; subst. rewrite Hp in Hm'. injection Hm' as <-.
  destruct (IH _ Hds') as [H1 H2]. split; constructor; auto.
Qed.

Lemma completed_ok (w0 w : World) id u recorded parts a b d now f :
  (forall n m, recorded !! n = Some m -> 1 <= n <= MaxParts /\
     part_record prefix w0 id n = Some (DManifest m) /\ exists d, part_of c w (u_Key u) d m) ->
  completed u recorded parts a b d now = Ok f -> completion_ok w0 w id u parts a b d f.
Proof.
  intros Hrec Hf. assert (Hne : parts <> []) by (by intros ->). unfold completed in Hf.
  destruct parts as [|p ps] eqn:Hp; [done|]. rewrite <- Hp in *. clear Hp p ps.
  destruct (negb (parts_sorted parts)) eqn:Hs; [done|]. apply negb_false_iff in Hs.
  apply res_bind_Ok in Hf as ([f1 s1] & Has & Hf). cbn [fst snd] in Hf.
  destruct (refutes a _) eqn:Ha; [done|]. destruct (refutes d _) eqn:Hd; [done|].
  destruct (refutes b _) eqn:Hb; [done|]. injection Hf as <-.
  pose proof (assemble_chunks _ _ _ _ _ _ _ Has) as (ms & Hms & Hch).
  apply (assemble_all c w (u_Key u)) in Has as (ds & HF & -> & Hdist & Hok); [|done|].
  2: { intros n m Hm. by apply Hrec in Hm as (_ & _ & ?). }
  destruct (named_manifests w0 w id (u_Key u) recorded parts ms ds) as [Hnm Hpo]; [|done..|].
  { intros n m Hm. by apply Hrec in Hm as (_ & ? & _). }
  exists ms, ds. split; [done|]. split; [done|]. split.
  { apply parts_ascending; [|done..]. apply Forall_forall. intros p Hin.
    apply list_elem_of_lookup in Hin as [i Hi]. destruct (Forall2_lookup_l _ _ _ _ _ Hms Hi) as (m & _ & Hm).
    apply Hrec in Hm as [? _]. lia. }
  split; [exact Hch|]. do 3 (split; [done|]).
  intros Hz. specialize (Hok Hz). pose proof Hok as [(_ & _ & _ & H1 & H2 & H3 & _) _].
  cbn [described m_CRC32C m_CRC32 m_CRC64NVME] in Ha, Hd, Hb. rewrite H1 in Ha. rewrite H2 in Hd. rewrite H3 in Hb.
  split; [exact Hok|]. split; [by intros y; apply refutes_false|]. split; by intros y; apply refutes_false.
Qed.

Lemma part_of_stores (w w' : World) key d m : w_stores w' = w_stores w -> part_of c w key d m -> part_of c w' key d m.
Proof. intros Hs [Hst He]. split; [by eapply stored_stores | done]. Qed.

Lemma completion_ok_stores (w0 w w' : World) id u parts a b d f :
  w_stores w' = w_stores w -> completion_ok w0 w id u parts a b d f -> completion_ok w0 w' id u parts a b d f.
Proof.
  intros Hs (ms & ds & Hn & HF & Hasc & Hch & He & Hct & Hmt & Hok). exists ms, ds. split_and!; try done.
  - eapply Forall2_impl; [done|]. intros m x. by apply part_of_stores.
  - intros Hz. destruct (Hok Hz) as ([Hst Hp] & Hsums). split; [|done]. split; [by eapply stored_stores | done].
Qed.

Lemma forget_upload id done_ (w w1 w2 : World) r1 r2 : plain_elem id = true ->
  on_meta (FinishUpload prefix id done_) w = (r1, w1) -> on_meta (DeleteUpload prefix id) w1 = (r2, w2) ->
  w_stores w2 = w_stores w /\ objects_same prefix w w2.
Proof.
  intros Hid H1 H2. unfold on_meta in H1, H2.
  destruct (FinishUpload prefix id done_ (w_etcd w)) as [r e1] eqn:Hf. injection H1 as <- <-. simpl in H2.
  destruct (DeleteUpload prefix id e1) as [r' e2] eqn:Hd. injection H2 as <- <-. split; [done|].
  intros j. simpl. transitivity (lookup_obj prefix e1 j).
  - unfold DeleteUpload in Hd. meta_cases Hd; keeps_objects (KUpload id).
  - unfold FinishUpload in Hf. meta_cases Hf; keeps_objects (KCompletion id).
Qed.

(** C7: completing an upload whose parts are recorded and stored (by a coordinator that
    replicates) commits one object, whole. If it succeeds the key's manifest is made of
    exactly the parts etcd had on record under the named numbers, with the ETags the client
    gave, their chunks joined in ascending order; its ETag is the MD5 of their MD5s and
    their number, its content type and metadata are the upload's, its checksums, computed
    without reading the bytes again, are those of the joined bytes and agree with what the
    client declared (up to 2^63-1 bytes), and every chunk is on a quorum; no other object
    changed. If it fails every object is as it was, unless the one write of etcd that
    commits the manifest took effect and it is that write's error that is returned, and then
    the object is that same whole one. *)
Theorem CompleteUpload_assembles (id : string) (parts : list CompletedPart) (a b d : option Z)
    (w w' : World) (r : res Manifest) (x : kv doc) (u : Upload) :
  plain_elem id = true ->
  es_kvs (e_state (w_etcd w)) !! uploadKey prefix id = Some x -> as_upload (kv_value x) = Ok u ->
  parts_recorded w id (u_Key u) ->
  CompleteUpload prefix id parts a b d w = (r, w') ->
  match r with
  | Ok f => object_set prefix w w' (u_Key u) f /\ completion_ok w w' id u parts a b d f
  | Err e => objects_same prefix w w' \/
      exists f, committed_unanswered prefix w w' (u_Key u) f e /\ completion_ok w w' id u parts a b d f
  end.
Proof.
  intros Hid Hx Hu Hparts. unfold CompleteUpload, on_meta at 1.
  destruct (GetUpload prefix id (w_etcd w)) as [r1 e1] eqn:Hg. apply GetUpload_spec in Hg as [Hs1 Hg]. rewrite Hx in Hg.
  assert (Hsame : forall e w1, w1 = set_etcd w e -> e_state e = e_state (w_etcd w) -> objects_same prefix w w1)
    by (intros e ? -> He j; by apply lookup_obj_state).
  destruct Hg as [->| ->]; [|intros [= <- <-]; left; by eapply Hsame].
  rewrite Hu. unfold on_meta at 1. cbn [w_etcd set_etcd].
  destruct (Parts prefix id e1) as [pr e2] eqn:Hp. pose proof (Parts_state _ _ _ _ _ Hp) as Hs2.
  set (w2 := set_etcd (set_etcd w e1) e2) in *.
  assert (Ho2 : objects_same prefix w w2) by (apply (Hsame e2); [done | congruence]).
  destruct pr as [recorded|e]; [|intros [= <- <-]; by left]. apply Parts_spec in Hp as [_ Hp]. rewrite Hs1 in Hp.
  destruct (completed u recorded parts a b d (w_now w2)) as [f|e] eqn:Hc; [|intros [= <- <-]; by left].
  apply (completed_ok w w2 id) in Hc.
  2: { intros n m (k & y & Hk & Hn & Hy & Hm)%Hp. destruct (Hparts k y Hk Hy) as (n' & m' & dt & -> & Hb & Hm' & Hpo).
       rewrite partKey_number in Hn by lia. injection Hn as ->. rewrite Hm' in Hm. injection Hm as ->.
       split; [done|]. split; [unfold part_record; by rewrite Hy, <- Hm'|]. exists dt. by eapply (part_of_stores w). }
  destruct (on_meta (Commit prefix (u_Key u) f) w2) as [cr w3] eqn:Hcm.
  apply (commit_objects prefix (u_Key u) f "") in Hcm as [Hs3 Hset].
  destruct cr as [[]|e].
  - destruct (on_meta (FinishUpload _ _ _) w3) as [r4 w4] eqn:H4.
    destruct (on_meta (DeleteUpload _ _) w4) as [r5 w5] eqn:H5. intros [= <- <-].
    destruct (forget_upload _ _ _ _ _ _ _ Hid H4 H5) as [Hs5 Ho5].
    split; [by eapply object_set_around | eapply (completion_ok_stores w w2); [congruence | done]].
  - intros [= <- <-]. destruct Hset as [Hset|Hset].
    + left. intros j. by rewrite Hset.
    + right. exists f. split; [by eapply answer_lost_around|]. by eapply (completion_ok_stores w w2).
Qed.
End completion_claims.

(** ** At concrete inputs *)

Abbreviation demo_upload_w := (@ClusterCreateUpload demoE _ "/kavo" "b/k" "" ∅ "U" (demo_w [])).2 (only parsing).
Abbreviation demo_part n text rnd w :=
  (@UploadPart demoE _ xor_codec "/kavo" demo_c "U" n (demo_source text) demo_opts rnd w) (only parsing).

Lemma UploadPart_acknowledged_witness : exists m,
  part_record "/kavo" (demo_part 1 "hello" "P" demo_upload_w).2 "U" 1 = Some (DManifest (json_manifest m)) /\
  part_of demo_c (demo_part 1 "hello" "P" demo_upload_w).2 "b/k" (to_bytes "hello") m.
Proof.
  assert (Hok : is_ok (demo_part 1 "hello" "P" demo_upload_w).1 = true) by (vm_compute; reflexivity).
  destruct (demo_part 1 "hello" "P" demo_upload_w) as [[m|e] w'] eqn:H; [|discriminate Hok]. exists m.
  destruct (@UploadPart_acknowledged demoE _ _ xor_codec "/kavo" demo_c eq_refl "U" "P" 1 (demo_source "hello")
    demo_opts demo_upload_w w' m eq_refl eq_refl H) as (_ & _ & Hr & x & u & Hx & Hu & Hp).
  split; [exact Hr|]. vm_compute in Hx. injection Hx as <-. injection Hu as <-. exact Hp.
Defined.

Abbreviation demo_ready := (demo_part 1 "hello" "P" demo_upload_w).2 (only parsing).
Definition demo_named : list CompletedPart := [mk_CompletedPart 1 ""].
Abbreviation demo_complete :=
  (@CompleteUpload demoE _ "/kavo" "U" demo_named None None None demo_ready) (only parsing).

Lemma keys_only (kvs : gmap string (kv doc)) a b k y :
  forallb (fun p => String.eqb p.1 a || String.eqb p.1 b) (map_to_list kvs) = true ->
  kvs !! k = Some y -> k = a \/ k = b.
Proof.
  rewrite forallb_forall. intros Hf Hy. apply elem_of_map_to_list, list_elem_of_In in Hy.
  apply Hf, orb_true_iff in Hy as [Hy|Hy]; apply String.eqb_eq in Hy; auto.
Qed.

Lemma demo_keys : forallb (fun p => String.eqb p.1 (uploadKey "/kavo" "U") || String.eqb p.1 (partKey "/kavo" "U" 1))
  (map_to_list (es_kvs (e_state (w_etcd demo_ready)))) = true.
Proof. vm_compute. reflexivity. Qed.

Lemma demo_parts_ready : parts_recorded "/kavo" demo_c demo_ready "U" "b/k".
Proof.
  intros k y Hk Hy. assert (Hok : is_ok (demo_part 1 "hello" "P" demo_upload_w).1 = true) by (vm_compute; reflexivity).
  assert (Hkp : k = partKey "/kavo" "U" 1).
  { destruct (keys_only _ _ _ _ _ demo_keys Hy) as [Hu|Hp]; [|exact Hp].
    rewrite Hu in Hk. exfalso. clear -Hk. vm_compute in Hk. discriminate. }
  subst k. clear Hk.
  destruct (demo_part 1 "hello" "P" demo_upload_w) as [[m|e] w'] eqn:H; [|discriminate Hok].
  apply (@UploadPart_spec demoE _ _ xor_codec "/kavo" demo_c eq_refl) in H as (_ & _ & Hr & x & u & Hx & Hu & Hp); [|done..].
  vm_compute in Hx. injection Hx as <-. injection Hu as <-. cbn [snd] in *.
  unfold part_record in Hr. rewrite Hy in Hr. injection Hr as Hr. exists 1, (json_manifest m), (to_bytes "hello").
  split; [reflexivity|]. split; [unfold MaxParts; lia|]. split; [exact Hr | exact Hp].
Qed.

Lemma CompleteUpload_assembles_witness : exists f,
  demo_complete.1 = Ok f /\ object_set "/kavo" demo_ready demo_complete.2 "b/k" f /\
  completion_ok "/kavo" demo_c demo_ready demo_complete.2 "U" (mk_Upload "b/k" "" 0 ∅) demo_named None None None f.
Proof.
  assert (Hok : is_ok demo_complete.1 = true) by (vm_compute; reflexivity).
  destruct demo_complete as [[f|e] w'] eqn:H; [|discriminate Hok]. exists f. split; [reflexivity|].
  apply (@CompleteUpload_assembles demoE _ _ "/kavo" demo_c "U" demo_named None None None demo_ready w' (Ok f)
    (mk_kv (DUpload (mk_Upload "b/k" "" 0 ∅)) 1 1) (mk_Upload "b/k" "" 0 ∅)).
  - reflexivity.
  - vm_compute. reflexivity.
  - reflexivity.
  - exact demo_parts_ready.
  - exact H.
Defined.

(** A peer whose connection drops after two bytes of a body. *)
Definition demo_cut : rpc :=
  mk_rpc no_faults false false (fun r => mk_reader (takeZ 2 (rd_data r)) (Some [ErrUnexpectedEOF])).

(** Five bytes stored as two chunks on the other node only, and an upload. *)
Definition demo_src : Manifest :=
  mk_Manifest 5 "" "" 0 ∅ ["n2"] [chunk_ref "W" 0 (to_bytes "hell"); chunk_ref "W" 1 (to_bytes "o")]
    zeroScheme None None None [].
Definition demo_remote : world demoE :=
  mk_world {["a1" := empty_fs;
             "a2" := (WriteChunk no_faults "u" 0
                        (WriteChunk no_faults "t" 0 empty_fs "W000000" (demo_source "hell")).1.2
                        "W000001" (demo_source "o")).1.2]}
    (w_etcd demo_upload_w) [demo_cut] 0 0.

(** A part copied from another object can be cut short and acknowledged. When the
    connection to the node that serves the source drops in the middle of a chunk, the
    read of the source fails with an unexpected end of file; the pipe hands that error
    to the writer, which takes it for the ordinary end of the source, commits the bytes
    that had arrived as the whole part, and reports success. *)
Theorem CopyPart_truncates : exists m w',
  @CopyPart demoE _ xor_codec "/kavo" demo_c "U" 1 demo_src 0 5 demo_opts "P" demo_remote = (Ok m, w') /\
  m_Size m = 1 /\ part_record "/kavo" w' "U" 1 = Some (DManifest (json_manifest m)).
Proof. eexists _, _. split; [vm_compute; reflexivity|]. split; vm_compute; reflexivity. Qed.

(** An upload for a key that is not valid UTF-8 ends under another key. The key is kept in
    the upload's record, as JSON, where a byte that is no character becomes U+FFFD, and
    completing commits under the key of the record: the object asked for is not there, and
    one nobody asked for is. *)
Definition odd_key : string := "b/" +:+ of_bytes [byte_of 255].
Definition odd_upload : world demoE := (@ClusterCreateUpload demoE _ "/kavo" odd_key "" ∅ "U" (demo_w [])).2.

Theorem upload_key_replaced : exists m w',
  @CompleteUpload demoE _ "/kavo" "U" demo_named None None None (demo_part 1 "hello" "P" odd_upload).2 = (Ok m, w') /\
  is_ok (lookup_obj "/kavo" (w_etcd w') odd_key) = false /\
  lookup_obj "/kavo" (w_etcd w') ("b/" +:+ of_bytes (map byte_of [239; 191; 189])) = Ok m.
Proof. eexists _, _. split; [vm_compute; reflexivity|]. split; vm_compute; reflexivity. Qed.
