(* ===== verification/Collect.v ===== *)
(** * Reclaiming chunks: [internal/cluster/collect.go]

    A pass reads every write in flight, every part and every manifest, and then deletes
    the chunks on this disk that none of them names. Other nodes and requests go on working
    while it reads: [others] is what they have done to etcd by the time of each page, and
    [meanwhile] what has become of the disks and the clock by the time the sweep begins. *)

From S2P Require Import Prelude GoStr Strconv Path Hash Crc Ring Ec Object Store Etcd Meta Node Cluster.

Definition DefaultCollectInterval : Z := 60 * 10 ^ 9.
Definition DefaultCollectGrace : Z := 60 * 10 ^ 9.
Definition collectTask : string := "collect".
Definition idAlphabet : string := "ABCDEFGHIJKLMNOPQRSTUVWXYZ234567".
Definition CollectSlices : Z := Z.of_nat (slen idAlphabet).
Definition scanPage : Z := 256.

Record CollectStats := mk_CollectStats {
  cs_Slice : string;
  cs_Referenced : Z;
  cs_Examined : Z;
  cs_Collected : Z;
  cs_BytesCollected : Z;
  cs_Young : Z;
  cs_Writing : Z
}.

Definition zeroStats (slice : string) : CollectStats := mk_CollectStats slice 0 0 0 0 0 0.

Fixpoint positions_from (i : Z) (nodes : list string) (node : string) : list Z :=
  match nodes with
  | [] => []
  | n :: nodes' => (if String.eqb n node then [i] else []) ++ positions_from (i + 1) nodes' node
  end.
Definition positionsOf (nodes : list string) (node : string) : list Z := positions_from 0 nodes node.

Definition inFlight (writing : list string) (id : string) : bool := existsb (HasPrefix id) writing.

(** The ids one chunk of a manifest stands for on this node, of those in the slice. *)
Definition chunk_ids (m : Manifest) (mine : list Z) (slice : byte) (ref : ChunkRef) : list string :=
  if negb (HasPrefix (c_ID ref) (String slice "")) then []
  else if decide (m_Coding m = zeroScheme) then [c_ID ref]
  else map (ShardID ref) mine.

Definition reference (c : Coordinator) (referenced : gset string) (key : string) (m : Manifest) (slice : byte)
    : gset string :=
  let mine := positionsOf (m_Nodes m) (c_self c) ++
    (if String.eqb key "" then []
     else positionsOf (Owners (mb_ring (live c)) (PartitionFor key) (redundancy m)) (c_self c)) in
  if decide (mine = []) then referenced
  else referenced ∪ list_to_set (flat_map (chunk_ids m mine slice) (m_Chunks m)).

Section collect.
Context {E : Type} `{!Etcd doc E} (prefix : string) (c : Coordinator).
Abbreviation World := (world E).

(** [nextSlice]; the index is that of the last cursor in the alphabet, or 0. *)
Definition slice_index (at_ : string) : nat :=
  if bool_decide (slen at_ = 1%nat) then default 0%nat (Index idAlphabet at_) else 0%nat.
Definition slice_at (i : nat) : byte := default Ascii.zero (String.get i idAlphabet).

Definition nextSlice : E -> res byte * E :=
  let! at_ := Cursor prefix collectTask (c_self c) in
  let i := slice_index at_ in
  let! _ := SaveCursor prefix collectTask (c_self c)
              (String (slice_at ((i + 1) mod slen idAlphabet)) "") in
  st_ret (slice_at i).

(** The records of writes by nodes that are members; the others are dropped. *)
Fixpoint keep_writes (members : gmap string string) (writes : list (string * string)) (ids : list string)
    : E -> res (list string) * E :=
  match writes with
  | [] => st_ret ids
  | (id, node) :: writes' =>
      if bool_decide (is_Some (members !! node)) || bool_decide (members = ∅)
      then keep_writes members writes' (ids ++ [id])
      else let! _ := DoneWriting prefix id in keep_writes members writes' ids
  end.

Definition writesInFlight : E -> res (list string) * E :=
  let! writes := Writing prefix in
  keep_writes (mb_peers (live c)) (map_to_list writes) [].

Section scans.
Variables (others : nat -> E -> E) (meanwhile : World -> World).

Fixpoint parts_loop (fuel : nat) (slice : byte) (from : string) (n : nat) (acc : gset string) (e : E)
    : option (res (gset string * nat) * E) :=
  match fuel with
  | O => None
  | S fuel' =>
      match ScanParts prefix from scanPage (others n e) with
      | (Err err, e') => Some (Err err, e')
      | (Ok [], e') => Some (Ok (acc, S n), e')
      | (Ok parts, e') =>
          parts_loop fuel' slice (default from (pr_Key <$> last parts)) (S n)
            (foldl (fun acc p => reference c acc "" (pr_Manifest p) slice) acc parts) e'
      end
  end.

Fixpoint objects_loop (fuel : nat) (slice : byte) (from : string) (n : nat) (acc : gset string) (e : E)
    : option (res (gset string) * E) :=
  match fuel with
  | O => None
  | S fuel' =>
      match ScanObjects prefix "" from scanPage (others n e) with
      | (Err err, e') => Some (Err err, e')
      | (Ok [], e') => Some (Ok acc, e')
      | (Ok objs, e') =>
          objects_loop fuel' slice (default from (After ∘ o_Key <$> last objs)) (S n)
            (foldl (fun acc o => reference c acc (o_Key o) (o_Manifest o) slice) acc objs) e'
      end
  end.

(** [referenced]; [fuel] bounds the pages of each scan. *)
Definition referenced (fuel : nat) (slice : byte) (e : E) : option (res (gset string * list string) * E) :=
  match writesInFlight (others 0 e) with
  | (Err err, e1) => Some (Err err, e1)
  | (Ok writing, e1) =>
      match parts_loop fuel slice "" 1 ∅ e1 with
      | None => None
      | Some (Err err, e2) => Some (Err err, e2)
      | Some (Ok (acc, n), e2) =>
          match objects_loop fuel slice "" n acc e2 with
          | None => None
          | Some (Err err, e3) => Some (Err err, e3)
          | Some (Ok acc', e3) => Some (Ok (acc', writing), e3)
          end
      end
  end.

(** The sweep of the disk: the file system, the counts, and the first removal that
    failed. [fail] is the disk refusing to remove a chunk. *)
Record sweep := mk_sweep { sw_fs : FS; sw_stats : CollectStats; sw_failed : Z; sw_first : option error }.

Definition sweep_visit (fail : string -> faults) (refd : gset string) (writing : list string) (cutoff : Z)
    (ci : ChunkInfo) (s : sweep) : option error * sweep :=
  let st := sw_stats s in
  let count r x k b y w := mk_CollectStats (cs_Slice st) (cs_Referenced st + r) (cs_Examined st + x) (cs_Collected st + k)
                           (cs_BytesCollected st + b) (cs_Young st + y) (cs_Writing st + w) in
  let keep st' := (None, mk_sweep (sw_fs s) st' (sw_failed s) (sw_first s)) in
  if bool_decide (ci_ID ci ∈ refd) then keep (count 1 1 0 0 0 0)
  else if inFlight writing (ci_ID ci) then keep (count 0 1 0 0 0 1)
  else if cutoff <? ci_Modified ci then keep (count 0 1 0 0 1 0)
  else match RemoveChunk (fail (ci_ID ci)) (sw_fs s) (ci_ID ci) with
       | (Some e, fs') =>
           (None, mk_sweep fs' (count 0 1 0 0 0 0) (sw_failed s + 1)
              (match sw_first s with None => Some e | x => x end))
       | (None, fs') => (None, mk_sweep fs' (count 0 1 1 (ci_Size ci) 0 0) (sw_failed s) (sw_first s))
       end.

(** [Collect]: the counts and the error, and the world it leaves. The age of a chunk is
    counted from before the scan. *)
Definition Collect (fuel : nat) (lsErr : string -> option error) (fail : string -> faults) (grace : Z) (w : World)
    : option (CollectStats * option error * World) :=
  match on_meta nextSlice w with
  | (Err e, w1) => Some (zeroStats "", Some e, w1)
  | (Ok slice, w1) =>
      let start := w_now w1 in
      match referenced fuel slice (w_etcd w1) with
      | None => None
      | Some (Err e, e2) => Some (zeroStats (String slice ""), Some e, meanwhile (set_etcd w1 e2))
      | Some (Ok (refd, writing), e2) =>
          let w2 := meanwhile (set_etcd w1 e2) in
          match w_stores w2 !! c_addr c with
          | None => Some (zeroStats (String slice ""), Some errors_New, w2)
          | Some fs =>
              let '(err, s) := ScanChunks sw_fs lsErr (sweep_visit fail refd writing (start - grace)) (String slice "")
                                 (mk_sweep fs (zeroStats (String slice "")) 0 None) in
              let w3 := set_store w2 (c_addr c) (sw_fs s) in
              Some (sw_stats s,
                    match err with
                    | Some e => Some e
                    | None => if 0 <? sw_failed s then Some (default [] (sw_first s)) else None
                    end, w3)
          end
      end
  end.
End scans.
End collect.

(** ** What the scans find *)

Lemma reference_union c acc k m s : reference c acc k m s = acc ∪ reference c ∅ k m s.
Proof. unfold reference. case_decide; [by rewrite (right_id_L ∅ (∪))|]. by rewrite (left_id_L ∅ (∪)). Qed.

Lemma foldl_reference {A} c (kf : A -> string) (mf : A -> Manifest) s l : forall acc id,
  id ∈ foldl (fun acc a => reference c acc (kf a) (mf a) s) acc l <->
  id ∈ acc \/ exists a, a ∈ l /\ id ∈ reference c ∅ (kf a) (mf a) s.
Proof.
  induction l as [|a l IH]; intros acc id; simpl.
  - split; [auto|]. intros [H|(a & Ha & _)]; [done|]. by apply elem_of_nil in Ha.
  - rewrite IH, reference_union, elem_of_union. split.
    + intros [[H|H]|(b & Hb & H)]; [auto| right; exists a; split; [left|done] | right; exists b; split; [by right|done]].
    + intros [H|(b & [->|Hb]%elem_of_cons & H)]; [auto|auto|]. right. eauto.
Qed.

(** A page of a sorted list has what is asked for, or ends before it. *)
Lemma page_or_later {A} (l : list (string * A)) n p :
  StronglySorted (fun p q => p.1 <s q.1) l -> 0 < n -> p ∈ l ->
  p ∈ takeZ n l \/ exists q, last (takeZ n l) = Some q /\ q.1 <s p.1.
Proof.
  intros Hs Hn Hp. rewrite <- (takeZ_dropZ n l) in Hs, Hp. apply elem_of_app in Hp as [Hp|Hp]; [by left|]. right.
  apply StronglySorted_app in Hs as (Hlt & _ & _).
  destruct (last (takeZ n l)) as [q|] eqn:Hq.
  - exists q. split; [done|]. apply Hlt; [|done]. apply last_Some in Hq as [l' ->]. apply elem_of_app. right. left.
  - exfalso. apply last_None in Hq. destruct l as [|x l]; [unfold dropZ in Hp; rewrite drop_nil in Hp; by apply elem_of_nil in Hp|].
    unfold takeZ in Hq. destruct (Z.to_nat n) eqn:E; [lia | done].
Qed.

Lemma Forall2_last {A B} (R : A -> B -> Prop) l k a b : Forall2 R l k -> last l = Some a -> last k = Some b -> R a b.
Proof.
  intros HF Ha Hb. apply last_Some in Ha as [l' ->]. apply last_Some in Hb as [k' ->].
  apply Forall2_app_inv in HF as [_ HF]; [by inversion HF|]. apply Forall2_length in HF. rewrite !length_app in HF. simpl in HF. lia.
Qed.

Section protection.
Context {E : Type} `{!Etcd doc E} `{!EtcdLaws doc E} (prefix : string) (c : Coordinator).
Variables (others : nat -> E -> E) (id : string) (slice : byte).

(** An object that names the chunk on this node, a part that does, a write it belongs to. *)
Definition object_names (k : string) (st : estate doc) : Prop :=
  exists x m, es_kvs st !! key prefix k = Some x /\ as_manifest (kv_value x) = Ok m /\ id ∈ reference c ∅ k m slice.

Definition part_names (k : string) (st : estate doc) : Prop :=
  HasPrefix k (uploadsRoot prefix) = true /\ Contains k "/parts/" = true /\
  exists x m, es_kvs st !! k = Some x /\ as_manifest (kv_value x) = Ok m /\ id ∈ reference c ∅ "" m slice.

Lemma objects_loop_mono : forall fuel from n acc e r e',
  objects_loop prefix c others fuel slice from n acc e = Some (Ok r, e') -> acc ⊆ r.
Proof.
  induction fuel as [|fuel IH]; intros from n acc e r e'; cbn [objects_loop]; [done|].
  destruct (ScanObjects _ _ _ _ _) as [[[|o os]|err] e1]; [by intros [= <- <-] | | done].
  intros H%IH x Hx. apply H. apply (foldl_reference c o_Key o_Manifest slice (o :: os)). by left.
Qed.

(** An object that names the chunk at every page read is seen. *)
Lemma objects_loop_finds k : (forall n e, object_names k (e_state e) -> object_names k (e_state (others n e))) ->
  forall fuel from n acc e r e', object_names k (e_state e) -> from <=s k ->
  objects_loop prefix c others fuel slice from n acc e = Some (Ok r, e') -> id ∈ r.
Proof.
  intros Hst. induction fuel as [|fuel IH]; intros from n acc e r e' Hob Hfrom; cbn [objects_loop]; [done|].
  apply (Hst n) in Hob. revert Hob. generalize (others n e). clear e. intros e Hob.
  destruct (ScanObjects _ _ _ _ _) as [[objs|err] e1] eqn:Hsc; [|done]. unfold ScanObjects in Hsc.
  apply st_bind_Ok in Hsc as (kvs & e2 & Hsc & H). apply scan_spec in Hsc as [Hs [?|Hk]]; [done| |done].
  injection Hk as Hk. injection H as Hl <-. apply res_map_Ok in Hl.
  assert (Hpage : (exists o, o ∈ objs /\ id ∈ reference c ∅ (o_Key o) (o_Manifest o) slice) \/
    exists o, last objs = Some o /\ o_Key o <s k).
  { destruct Hob as (x & m & Hx & Hm & Hid).
    destruct (page_or_later (filter (fun p => scan_wants prefix "" from p.1 = true) (all_objects prefix (e_state e))) scanPage
      (key prefix k, x)) as [Hin|(q & Hq & Hlt)].
    - apply StronglySorted_filter, sorted_range_strict.
    - done.
    - apply list_elem_of_filter. split.
      + simpl. unfold scan_wants, key. rewrite HasPrefix_app_iff, sle_app, Hfrom. by destruct k.
      + apply elem_of_sorted_range. simpl. split; [|done]. apply e_prefixEnd_law; [apply small_slash | apply HasPrefix_app].
    - left. rewrite <- Hk in Hin. apply list_elem_of_lookup in Hin as [i Hi].
      destruct (Forall2_lookup_l _ _ _ _ _ Hl Hi) as (o & Ho & Hdec). simpl in Hdec. rewrite Hm in Hdec. simpl in Hdec.
      injection Hdec as <-. eexists. split; [by eapply list_elem_of_lookup_2|]. simpl.
      unfold key. by rewrite TrimPrefix_app.
    - right. rewrite <- Hk in Hq. destruct (last objs) as [o|] eqn:Ho.
      + exists o. split; [done|]. pose proof (Forall2_last _ _ _ _ _ Hl Hq Ho) as Hqo. simpl in Hqo.
        apply res_bind_Ok in Hqo as (m' & _ & [= <-]). simpl.
        assert (Hw : scan_wants prefix "" from q.1 = true).
        { rewrite Hk in Hq. apply last_Some in Hq as [l' Hq].
          assert (Hin : q ∈ filter (fun p => scan_wants prefix "" from p.1 = true) (all_objects prefix (e_state e))).
          { eapply elem_of_take_1. unfold takeZ in Hq. rewrite Hq. apply elem_of_app. right. left. }
          by apply list_elem_of_filter in Hin as [? _]. }
        apply wants_trim in Hw as (j & Hj & -> & _). rewrite Hj in Hlt. cbn [fst] in Hlt. unfold key in Hlt. by rewrite slt_app in Hlt.
      + apply last_None in Ho as ->. apply Forall2_nil_inv_r in Hl as ->. done. }
  destruct objs as [|o os].
  { destruct Hpage as [(o & Ho & _)|(o & Ho & _)]; [by apply elem_of_nil in Ho | done]. }
  destruct Hpage as [Hseen|(q & Hq & Hlt)].
  - intros H%objects_loop_mono. apply H. apply (foldl_reference c o_Key o_Manifest slice (o :: os)). by right.
  - rewrite Hq. simpl default. apply IH; [by rewrite Hs|]. simpl. by apply After_sle.
Qed.

Definition parts_start (from : string) : string := if String.eqb from "" then uploadsRoot prefix else After from.

Lemma ScanParts_spec from e parts e' : ScanParts prefix from scanPage e = (Ok parts, e') ->
  e_state e' = e_state e /\
  Forall2 (fun p pr => pr_Key pr = p.1 /\
      (Contains p.1 "/parts/" = true -> as_manifest (kv_value p.2) = Ok (pr_Manifest pr)))
    (takeZ scanPage (sorted_range (e_state e) (parts_start from) (e_prefixEnd (uploadsRoot prefix)))) parts.
Proof.
  unfold ScanParts. fold (parts_start from). destruct (sle _ (parts_start from)) eqn:Hse.
  - intros [= <- <-]. split; [done|].
    assert (sorted_range (e_state e) (parts_start from) (e_prefixEnd (uploadsRoot prefix)) = []) as ->; [|constructor].
    apply elem_of_nil_inv. intros p [[H1 H2]%andb_true_iff _]%elem_of_sorted_range.
    pose proof (slt_sle_trans _ _ _ (sle_slt_trans _ _ _ H1 H2) Hse) as H. by rewrite slt_irrefl in H.
  - intros (r & e1 & Hr & H)%st_bind_Ok. apply e_range_law in Hr as [Hs ->]. injection H as Hl <-. split; [done|].
    apply res_map_Ok in Hl. simpl in Hl. eapply Forall2_impl; [exact Hl|]. intros [k x] pr. simpl.
    destruct (Contains k "/parts/"); simpl.
    + intros (m & Hm & [= <-])%res_bind_Ok. done.
    + intros [= <-]. done.
Qed.

(** The part is still ahead of the scan. *)
Definition ahead (k from : string) : Prop := from = "" \/ from <s k.

Lemma part_page k from e parts e' : part_names k (e_state e) -> ahead k from ->
  ScanParts prefix from scanPage e = (Ok parts, e') ->
  (exists p, p ∈ parts /\ id ∈ reference c ∅ "" (pr_Manifest p) slice) \/
  exists p, last parts = Some p /\ pr_Key p <s k.
Proof.
  intros (Hp & Hc & x & m & Hx & Hm & Hid) Hah (_ & HF)%ScanParts_spec.
  destruct (page_or_later (sorted_range (e_state e) (parts_start from) (e_prefixEnd (uploadsRoot prefix))) scanPage (k, x))
    as [Hin|(q & Hq & Hlt)].
  - apply sorted_range_strict.
  - done.
  - apply elem_of_sorted_range. split; [|done]. simpl.
    assert (Hr : in_range (uploadsRoot prefix) (e_prefixEnd (uploadsRoot prefix)) k = true)
      by (apply e_prefixEnd_law; [apply small_slash | done]).
    unfold in_range in *.
    apply andb_true_iff in Hr as [H1 H2]. rewrite H2, andb_true_r. unfold parts_start.
    destruct (String.eqb_spec from ""); [done|]. destruct Hah as [|Hlt]; [done|]. by apply After_sle.
  - left. apply list_elem_of_lookup in Hin as [i Hi]. destruct (Forall2_lookup_l _ _ _ _ _ HF Hi) as (pr & Hpr & _ & Hdec).
    simpl in Hdec. rewrite Hm in Hdec. injection (Hdec Hc) as ->.
    exists pr. split; [by eapply list_elem_of_lookup_2 | done].
  - right. destruct (last parts) as [pr|] eqn:Hl.
    + exists pr. split; [done|]. pose proof (Forall2_last _ _ _ _ _ HF Hq Hl) as [-> _]. done.
    + apply last_None in Hl as ->. apply Forall2_nil_inv_r in HF. by rewrite HF in Hq.
Qed.

(** A part that names the chunk until an object does: the part is seen, or by the end of
    the scan of the parts the object is there. *)
Lemma parts_loop_finds pk k :
  (forall n e, part_names pk (e_state e) \/ object_names k (e_state e) ->
     part_names pk (e_state (others n e)) \/ object_names k (e_state (others n e))) ->
  (forall n e, object_names k (e_state e) -> object_names k (e_state (others n e))) ->
  forall fuel from n acc e r m e',
  id ∈ acc \/ (ahead pk from /\ part_names pk (e_state e)) \/ object_names k (e_state e) ->
  parts_loop prefix c others fuel slice from n acc e = Some (Ok (r, m), e') ->
  id ∈ r \/ object_names k (e_state e').
Proof.
  intros Hst Hob. induction fuel as [|fuel IH]; intros from n acc e r m e' Hinv; cbn [parts_loop]; [done|].
  assert (Hinv' : id ∈ acc \/ (ahead pk from /\ part_names pk (e_state (others n e))) \/ object_names k (e_state (others n e))).
  { destruct Hinv as [?|[[Ha Hp]|Ho]]; [by left| |right; right; by apply Hob].
    right. destruct (Hst n e (or_introl Hp)); auto. }
  clear Hinv. revert Hinv'. generalize (others n e). clear e. intros e Hinv.
  destruct (ScanParts _ _ _ _) as [[parts|err] e1] eqn:Hsc; [|done].
  pose proof (ScanParts_spec _ _ _ _ Hsc) as [Hs _].
  assert (Hpage : id ∈ acc \/ object_names k (e_state e) \/
    (exists p, p ∈ parts /\ id ∈ reference c ∅ "" (pr_Manifest p) slice) \/
    exists p, last parts = Some p /\ pr_Key p <s pk /\ part_names pk (e_state e)).
  { destruct Hinv as [?|[[Ha Hp]|Ho]]; [auto| |auto].
    destruct (part_page pk from e parts e1 Hp Ha Hsc) as [?|(q & ? & ?)]; [auto|]. right; right; right. eauto. }
  destruct parts as [|p ps].
  - intros [= <- _ <-]. rewrite Hs.
    destruct Hpage as [?|[?|[(p & Hp & _)|(p & Hp & _)]]]; [auto..| |done]. by apply elem_of_nil in Hp.
  - apply IH. rewrite Hs. rewrite (foldl_reference c (fun _ => "") pr_Manifest slice (p :: ps)).
    destruct Hpage as [?|[?|[?|(q & Hq & Hlt & Hp)]]]; [auto..|]. rewrite Hq. simpl. right. left.
    split; [by right | done].
Qed.

(** ** Writes in flight *)

Definition write_covers (wid : string) (st : estate doc) : Prop :=
  plain_elem wid = true /\ HasPrefix id wid = true /\
  exists x, es_kvs st !! writingKey prefix wid = Some x /\ is_Some (mb_peers (live c) !! doc_text (kv_value x)).

(** What [MarkWriting] keeps: records of writes are under ids without a slash. *)
Definition writing_wf (st : estate doc) : Prop :=
  forall k x, HasPrefix k (writingPrefix prefix) = true -> es_kvs st !! k = Some x ->
    exists i, plain_elem i = true /\ k = writingKey prefix i.

Lemma writingKey_base i : plain_elem i = true -> path_Base (writingKey prefix i) = i.
Proof.
  intros (Hne & _ & _ & Hs)%plain_elem_spec. unfold writingKey, writingPrefix. rewrite <- sapp_assoc.
  by apply path_Base_snoc.
Qed.

Lemma Writing_spec e ws e' : Writing prefix e = (Ok ws, e') -> e_state e' = e_state e /\
  (writing_wf (e_state e) -> forall i x, plain_elem i = true ->
     es_kvs (e_state e) !! writingKey prefix i = Some x -> ws !! i = Some (doc_text (kv_value x))).
Proof.
  intros (r & e1 & Hr & [= <- <-])%st_bind_Ok. apply e_range_law in Hr as [Hs ->]. split; [done|].
  intros Hwf i x Hi Hx. unfold range_spec. simpl.
  assert (Hin : forall k y, (k, y) ∈ sorted_range (e_state e) (writingPrefix prefix) (e_prefixEnd (writingPrefix prefix)) <->
    HasPrefix k (writingPrefix prefix) = true /\ es_kvs (e_state e) !! k = Some y).
  { intros k y. rewrite elem_of_sorted_range. simpl. rewrite <- (e_prefixEnd_law (writingPrefix prefix) k); [done|apply small_slash]. }
  apply by_base_lookup.
  - exists (writingKey prefix i). split; [|by apply writingKey_base]. apply Hin. split; [apply HasPrefix_app | done].
  - intros k y [Hk Hy]%Hin Hb. destruct (Hwf k y Hk Hy) as (j & Hj & ->). rewrite writingKey_base in Hb by done. congruence.
Qed.

Lemma DoneWriting_other i e r e' k : DoneWriting prefix i e = (r, e') -> k <> writingKey prefix i ->
  es_kvs (e_state e') !! k = es_kvs (e_state e) !! k.
Proof.
  intros H Hk. assert (Hst : e_state e' = e_state e \/ e_state e' = (apply (e_state e) (OpDelete (writingKey prefix i))).2).
  { unfold DoneWriting in H. meta_cases H; apply e_write_law in Hc; [|tauto]. right. by rewrite <- Hc. }
  destruct Hst as [->| ->]; [done|]. simpl. destruct (es_kvs _ !! writingKey _ _); [|done]. simpl.
  by rewrite lookup_delete_ne.
Qed.

Lemma keep_writes_spec members : forall writes ids e r e',
  keep_writes prefix members writes ids e = (Ok r, e') ->
  (forall i, i ∈ ids -> i ∈ r) /\
  (forall i node, (i, node) ∈ writes -> is_Some (members !! node) -> i ∈ r) /\
  forall k, (forall i, k <> writingKey prefix i) -> es_kvs (e_state e') !! k = es_kvs (e_state e) !! k.
Proof.
  induction writes as [|[i node] writes IH]; intros ids e r e'; cbn [keep_writes].
  - intros [= <- <-]. split; [done|]. split; [|done]. intros i node Hin. by apply elem_of_nil in Hin.
  - destruct (bool_decide (is_Some (members !! node)) || _) eqn:Hk.
    + intros (H1 & H2 & H3)%IH. split; [intros j Hj; apply H1, elem_of_app; by left|]. split; [|done].
      intros j node' [Hj|Hj]%elem_of_cons Hm; [|by eapply H2]. simplify_eq. apply H1, elem_of_app. right. left.
    + intros (u & e1 & Hd & (H1 & H2 & H3)%IH)%st_bind_Ok. split; [done|]. split.
      * intros j node' [Hj|Hj]%elem_of_cons Hm; [|by eapply H2]. simplify_eq.
        apply orb_false_iff in Hk as [Hk _]. by apply bool_decide_eq_false in Hk.
      * intros k Hk'. rewrite H3 by done. by eapply DoneWriting_other.
Qed.

Lemma writing_not_object k i : key prefix k <> writingKey prefix i.
Proof.
  unfold key, objects, writingKey, writingPrefix. rewrite !join1 by done. rewrite <- !sapp_assoc.
  intros H%sapp_inj_l. discriminate.
Qed.

Lemma writing_not_upload k i : HasPrefix k (uploadsRoot prefix) = true -> k <> writingKey prefix i.
Proof.
  intros [t ->]%HasPrefix_spec. unfold uploadsRoot, writingKey, writingPrefix. rewrite !join1 by done.
  rewrite <- !sapp_assoc. intros H%sapp_inj_l. discriminate.
Qed.

(** One of the three holds at every moment, and each only gives way to a later one: the
    write's record to a part or an object, a part to an object. *)
Definition protected (wid pk k : string) (st : estate doc) : Prop :=
  (write_covers wid st /\ writing_wf st) \/ part_names pk st \/ object_names k st.

Definition others_protect (wid pk k : string) : Prop :=
  (forall n e, protected wid pk k (e_state e) -> protected wid pk k (e_state (others n e))) /\
  (forall n e, part_names pk (e_state e) \/ object_names k (e_state e) ->
     part_names pk (e_state (others n e)) \/ object_names k (e_state (others n e))) /\
  (forall n e, object_names k (e_state e) -> object_names k (e_state (others n e))).

Lemma referenced_protects wid pk k fuel e refd writing e' :
  others_protect wid pk k -> protected wid pk k (e_state e) ->
  referenced prefix c others fuel slice e = Some (Ok (refd, writing), e') ->
  id ∈ refd \/ inFlight writing id = true.
Proof.
  intros (Hall & Hpo & Ho) Hp. apply (Hall 0%nat) in Hp. unfold referenced.
  revert Hp. generalize (others 0 e). clear e. intros e Hp.
  destruct (writesInFlight prefix c e) as [[ws|err] e1] eqn:Hw; [|done].
  apply st_bind_Ok in Hw as (wm & e0 & Hwm & Hkeep). apply Writing_spec in Hwm as [Hs0 Hwm].
  apply keep_writes_spec in Hkeep as (_ & Hin & Hkept).
  destruct (parts_loop _ _ _ _ _ _ _ _ _) as [[[[acc n]|err] e2]|] eqn:Hpl; [|done..].
  destruct (objects_loop _ _ _ _ _ _ _ _ _) as [[[acc'|err] e3]|] eqn:Hol; [|done..]. intros [= <- <- <-].
  destruct Hp as [[(Hpw & Hpre & x & Hx & Hmem) Hwf]|Hp].
  - right. unfold inFlight. apply existsb_exists. exists wid. split; [|done]. apply list_elem_of_In.
    eapply Hin; [|exact Hmem]. apply elem_of_map_to_list. by apply Hwm.
  - left. assert (Hp1 : part_names pk (e_state e1) \/ object_names k (e_state e1)).
    { destruct Hp as [(H1 & H2 & x & m & Hx & Hr)|(x & m & Hx & Hr)].
      - left. split; [done|]. split; [done|]. exists x, m. split; [|done].
        rewrite Hkept by (intros; by apply writing_not_upload). by rewrite Hs0.
      - right. exists x, m. split; [|done]. rewrite Hkept by (intros; apply writing_not_object). by rewrite Hs0. }
    assert (Hinv : id ∈ (∅ : gset string) \/ (ahead pk "" /\ part_names pk (e_state e1)) \/ object_names k (e_state e1)).
    { destruct Hp1; [right; left; split; [by left | done] | auto]. }
    destruct (parts_loop_finds pk k Hpo Ho _ _ _ _ _ _ _ _ Hinv Hpl) as [Hacc|Hobj].
    + by apply (objects_loop_mono _ _ _ _ _ _ _ Hol).
    + eapply objects_loop_finds; [exact Ho | exact Hobj | | exact Hol]. by destruct k.
Qed.
End protection.

(** ** The scans end *)

(** How many records there are from a key on. *)
Definition count_from (st : estate doc) (lo : string) : nat :=
  length (filter (fun p : string * kv doc => lo <=s p.1) (map_to_list (es_kvs st))).

Lemma count_from_size st lo : (count_from st lo <= size (es_kvs st))%nat.
Proof. unfold count_from. rewrite <- length_map_to_list. apply length_filter. Qed.

Lemma count_from_after st lo k x : es_kvs st !! k = Some x -> lo <=s k ->
  (count_from st (After k) < count_from st lo)%nat.
Proof.
  intros Hx Hlo. unfold count_from. apply elem_of_map_to_list in Hx.
  assert (Hle : forall l : list (string * kv doc),
    (length (filter (fun p => After k <=s p.1) l) <= length (filter (fun p => lo <=s p.1) l))%nat).
  { induction l as [|p l IH]; [done|]. rewrite !filter_cons. case_decide as Ha.
    - rewrite decide_True; [simpl; lia|]. eapply sle_trans; [exact Hlo|]. apply sle_spec. left. by apply After_sle.
    - case_decide; simpl; lia. }
  apply list_elem_of_split in Hx as (l1 & l2 & ->). rewrite !filter_app, !length_app.
  rewrite (filter_cons_False _ (k, x)), (filter_cons_True _ (k, x)); simpl; [|done|].
  - pose proof (Hle l1). pose proof (Hle l2). lia.
  - intros H%After_sle. by rewrite slt_irrefl in H.
Qed.

Section ends.
Context {E : Type} `{!Etcd doc E} `{!EtcdLaws doc E} (prefix : string) (c : Coordinator) (slice : byte).
Abbreviation quiet := (fun (_ : nat) (e : E) => e).

Lemma parts_loop_ends : forall fuel from n acc e, (count_from (e_state e) (parts_start prefix from) < fuel)%nat ->
  exists r e', parts_loop prefix c quiet fuel slice from n acc e = Some (r, e') /\
    (is_ok r = true -> e_state e' = e_state e).
Proof.
  induction fuel as [|fuel IH]; intros from n acc e Hf; [lia|]. cbn [parts_loop].
  destruct (ScanParts prefix from scanPage e) as [[parts|err] e1] eqn:Hsc; [|by eexists _, _].
  apply ScanParts_spec in Hsc as [Hs HF]. destruct parts as [|p ps]; [by eexists _, _|].
  destruct (last (p :: ps)) as [q|] eqn:Hq; [|by apply last_None in Hq]. simpl default.
  assert (Hk : exists x, es_kvs (e_state e) !! pr_Key q = Some x /\ parts_start prefix from <=s pr_Key q).
  { apply last_Some in Hq as [l Hq]. rewrite Hq in HF.
    apply Forall2_app_inv_r in HF as (l1 & l2 & _ & HF & Hl). apply Forall2_cons_inv_r in HF as (y & l3 & [Hy _] & _ & ->).
    assert (Hin : y ∈ sorted_range (e_state e) (parts_start prefix from) (e_prefixEnd (uploadsRoot prefix))).
    { eapply elem_of_take_1. unfold takeZ in Hl. rewrite Hl. apply elem_of_app. right. left. }
    apply elem_of_sorted_range in Hin as [[Hr _]%andb_true_iff Hx]. rewrite Hy. eauto. }
  destruct Hk as (x & Hx & Hlo).
  assert (Hst : parts_start prefix (pr_Key q) = After (pr_Key q)).
  { unfold parts_start at 1. destruct (String.eqb_spec (pr_Key q) "") as [Hz|]; [|done]. exfalso. rewrite Hz in Hlo.
    apply sle_spec in Hlo as [Hlo|Hlo]; [by destruct (parts_start prefix from)|]. unfold parts_start, uploadsRoot, After in Hlo.
    destruct (String.eqb from ""); by apply sapp_nil_inv in Hlo as [_ ?]. }
  edestruct (IH (pr_Key q)) as (r & e' & Hl & He); [|exists r, e'; split; [exact Hl|]; intros; rewrite He; done].
  rewrite Hst, Hs. pose proof (count_from_after _ _ _ _ Hx Hlo). lia.
Qed.

Lemma objects_loop_ends : forall fuel from n acc e, (count_from (e_state e) (key prefix from) < fuel)%nat ->
  is_Some (objects_loop prefix c quiet fuel slice from n acc e).
Proof.
  induction fuel as [|fuel IH]; intros from n acc e Hf; [lia|]. cbn [objects_loop].
  destruct (ScanObjects prefix "" from scanPage e) as [[objs|err] e1] eqn:Hsc; [|eauto].
  unfold ScanObjects in Hsc. apply st_bind_Ok in Hsc as (kvs & e2 & Hsc & H).
  apply scan_spec in Hsc as [Hs [?|Hk]]; [done| |done]. injection Hk as Hk. injection H as Hl <-. apply res_map_Ok in Hl.
  destruct objs as [|o os]; [eauto|]. destruct (last (o :: os)) as [q|] eqn:Hq; [|by apply last_None in Hq]. simpl default.
  apply IH. rewrite Hs. apply last_Some in Hq as [l Hq]. rewrite Hq in Hl.
  apply Forall2_app_inv_r in Hl as (l1 & l2 & _ & HF & Hkv). apply Forall2_cons_inv_r in HF as (y & l3 & Hy & _ & ->).
  assert (Hin : y ∈ filter (fun p => scan_wants prefix "" from p.1 = true) (all_objects prefix (e_state e))).
  { eapply elem_of_take_1. unfold takeZ in Hk. rewrite <- Hk, Hkv. apply elem_of_app. right. left. }
  apply list_elem_of_filter in Hin as [Hw [_ Hx]%elem_of_sorted_range]. pose proof Hw as (j & Hj & Ht & _ & Hlo)%wants_trim.
  apply res_bind_Ok in Hy as (m & _ & [= <-]). cbn [o_Key]. rewrite Ht. unfold compose. simpl.
  assert (key prefix (After j) = After y.1) as -> by (rewrite Hj; unfold After, key; apply sapp_assoc).
  assert (Hle : key prefix from <=s y.1) by (rewrite Hj; unfold key; by rewrite sle_app).
  pose proof (count_from_after _ _ _ _ Hx Hle). lia.
Qed.
End ends.

(** ** What the sweep removes *)

Section scan_ind.
Context {St : Type} (fs_of : St -> FS) (lsErr : string -> option error)
  (visit : ChunkInfo -> St -> option error * St) (prefix : string) (Inv : St -> Prop).
Hypothesis Hvisit : forall d n i σ out σ', fs_entries (fs_of σ) !! (d, n) = Some i -> HasPrefix n prefix = true ->
  Inv σ -> visit (mk_ChunkInfo n (zlen (in_data i)) (in_mtime i)) σ = (out, σ') -> Inv σ'.

Lemma scan_files_ind d names : forall σ out σ', Inv σ ->
  scan_files fs_of visit d prefix names σ = (out, σ') -> Inv σ'.
Proof.
  induction names as [|n names IH]; intros σ out σ' HI; simpl; [by intros [= _ <-]|].
  destruct (HasPrefix n prefix) eqn:Hp; simpl; [|by apply IH].
  destruct (fs_entries (fs_of σ) !! (d, n)) as [i|] eqn:Hi; [|by apply IH].
  destruct (visit _ σ) as [[e|] σ1] eqn:Hv; [intros [= _ <-]|]; eauto.
Qed.

Lemma ScanChunks_ind σ out σ' : Inv σ -> ScanChunks fs_of lsErr visit prefix σ = (out, σ') -> Inv σ'.
Proof.
  unfold ScanChunks. intros HI. destruct (lsErr ""); [by intros [= _ <-]|]. revert HI.
  generalize (read_root (fs_of σ)). intros dirs. revert σ.
  induction dirs as [|d dirs IH]; intros σ HI; simpl; [by intros [= _ <-]|].
  destruct (within d prefix); simpl; [|by apply IH].
  destruct (lsErr d) as [e|]; [destruct (errors_Is e ErrNotExist); [by apply IH | by intros [= _ <-]]|].
  destruct (scan_files _ _ _ _ _ _) as [[e|] σ1] eqn:Hf; apply scan_files_ind in Hf; [by intros [= _ <-] | done | by apply IH | done].
Qed.
End scan_ind.

(** A chunk a sweep may take: in its slice, named by nothing it read, part of no write it
    knows of, and last written by the cutoff. *)
Definition garbage (slice : byte) (refd : gset string) (writing : list string) (cutoff : Z) (id : string) (i : inode) : Prop :=
  HasPrefix id (String slice "") = true /\ (id ∉ refd) /\ inFlight writing id = false /\ in_mtime i <= cutoff.

#[global] Instance garbage_dec slice refd writing cutoff id i : Decision (garbage slice refd writing cutoff id i).
Proof. unfold garbage. apply _. Defined.

Definition swept (slice : byte) (refd : gset string) (writing : list string) (cutoff : Z) (fs fs' : FS) : Prop :=
  forall p, fs_entries fs' !! p = fs_entries fs !! p \/
    (fs_entries fs' !! p = None /\ exists i, fs_entries fs !! p = Some i /\ garbage slice refd writing cutoff p.2 i).

Lemma sweep_swept lsErr fail slice refd writing cutoff fs st out s :
  store_wf fs ->
  ScanChunks sw_fs lsErr (sweep_visit fail refd writing cutoff) (String slice "") (mk_sweep fs st 0 None) = (out, s) ->
  swept slice refd writing cutoff fs (sw_fs s) /\ store_wf (sw_fs s).
Proof.
  intros Hwf. apply (ScanChunks_ind sw_fs lsErr _ (String slice "")
    (fun s => swept slice refd writing cutoff fs (sw_fs s) /\ store_wf (sw_fs s))).
  - intros d n i σ o σ' Hi Hp [Hsw Hwf'] Hv. unfold sweep_visit in Hv. cbn [ci_ID ci_Modified ci_Size] in Hv.
    destruct (bool_decide_reflect (n ∈ refd)) as [|Hr]; [by injection Hv as _ <-|].
    destruct (inFlight writing n) eqn:Hw; [by injection Hv as _ <-|].
    destruct (Z.ltb_spec cutoff (in_mtime i)) as [|Hc]; [by injection Hv as _ <-|].
    pose proof (remove_wf (fail n) (sw_fs σ) n Hwf') as Hwf''.
    assert (Hpath : (d, n) = chunkPath n) by (by apply Hwf' in Hi as (_ & ? & _)).
    assert (Hsw' : swept slice refd writing cutoff fs (RemoveChunk (fail n) (sw_fs σ) n).2).
    { unfold RemoveChunk. destruct (validateID n); [done|]. rewrite <- Hpath, Hi.
      destruct (f_remove (fail n)); [done|]. intros p. simpl.
      destruct (decide (p = (d, n))) as [->|Hne]; [|rewrite lookup_delete_ne by done; apply Hsw].
      rewrite lookup_delete_eq. right. split; [done|].
      destruct (Hsw (d, n)) as [He|[He _]]; [|congruence]. exists i. rewrite <- He, Hi. done. }
    destruct (RemoveChunk (fail n) (sw_fs σ) n) as [[e|] fs']; injection Hv as _ <-; done.
  - split; [|done]. intros p. by left.
Qed.

(** ** Without a failing disk, a sweep removes all of it *)

Section sweep_exact.
Variables (slice : byte) (refd : gset string) (writing : list string) (cutoff : Z).
Abbreviation visit := (sweep_visit (fun _ => no_faults) refd writing cutoff).
Abbreviation is_garbage := (garbage slice refd writing cutoff).

(** The entries that are left when the garbage with names that satisfy [P] is gone. *)
Definition without (P : path -> bool) (fs : FS) (p : path) : option inode :=
  match fs_entries fs !! p with
  | Some i => if P p && bool_decide (is_garbage p.2 i) then None else Some i
  | None => None
  end.

Lemma visit_exact d n i s : store_wf (sw_fs s) -> fs_entries (sw_fs s) !! (d, n) = Some i ->
  HasPrefix n (String slice "") = true ->
  exists s1, visit (mk_ChunkInfo n (zlen (in_data i)) (in_mtime i)) s = (None, s1) /\
    store_wf (sw_fs s1) /\ fs_dirs (sw_fs s1) = fs_dirs (sw_fs s) /\ sw_failed s1 = sw_failed s /\
    forall p, fs_entries (sw_fs s1) !! p = without (fun q => bool_decide (q = (d, n))) (sw_fs s) p.
Proof.
  intros Hwf Hi Hp. pose proof Hi as (_ & Hpath & Hval & _)%(proj1 Hwf). simpl in Hpath, Hval.
  assert (Hkeep : ~ is_garbage n i -> forall p, fs_entries (sw_fs s) !! p = without (fun q => bool_decide (q = (d, n))) (sw_fs s) p).
  { intros Hg p. unfold without. destruct (fs_entries (sw_fs s) !! p) as [j|] eqn:Hj; [|done].
    destruct (bool_decide_reflect (p = (d, n))) as [->|]; [|done]. rewrite Hi in Hj. injection Hj as <-.
    by rewrite bool_decide_false. }
  unfold sweep_visit. cbn [ci_ID ci_Modified ci_Size].
  destruct (bool_decide_reflect (n ∈ refd)).
  { eexists. split; [done|]. split_and!; try done. apply Hkeep. by intros (_ & ? & _). }
  destruct (inFlight writing n) eqn:Hfl.
  { eexists. split; [done|]. split_and!; try done. apply Hkeep. intros (_ & _ & ? & _). congruence. }
  destruct (Z.ltb_spec cutoff (in_mtime i)).
  { eexists. split; [done|]. split_and!; try done. apply Hkeep. intros (_ & _ & _ & ?). lia. }
  pose proof (remove_wf no_faults (sw_fs s) n Hwf) as Hw. unfold RemoveChunk in *.
  rewrite Hval, <- Hpath, Hi in *. cbn [f_remove no_faults] in *. eexists. split; [reflexivity|].
  split; [done|]. split; [done|]. split; [done|]. intros p. unfold without. simpl.
  destruct (bool_decide_reflect (p = (d, n))) as [->|Hne].
  - rewrite lookup_delete_eq, Hi. simpl. by rewrite bool_decide_true.
  - rewrite lookup_delete_ne by done. by destruct (fs_entries (sw_fs s) !! p).
Qed.

Lemma without_step (P Q : path -> bool) fs fs1 fs2 :
  (forall p, fs_entries fs1 !! p = without P fs p) -> (forall p, fs_entries fs2 !! p = without Q fs1 p) ->
  forall p, fs_entries fs2 !! p = without (fun p => P p || Q p) fs p.
Proof.
  intros H1 H2 p. rewrite H2. unfold without at 1. rewrite H1. unfold without.
  destruct (fs_entries fs !! p) as [i|]; [|done].
  destruct (P p), (bool_decide (is_garbage p.2 i)) eqn:Hg; simpl; rewrite ?Hg; destruct (Q p); simpl; try done; by rewrite ?Hg.
Qed.

Lemma without_none fs p : fs_entries fs !! p = without (fun _ => false) fs p.
Proof. unfold without. by destruct (fs_entries fs !! p). Qed.

Lemma without_iff P Q fs : (forall p i, fs_entries fs !! p = Some i -> is_garbage p.2 i -> P p = Q p) ->
  forall p, without P fs p = without Q fs p.
Proof.
  intros H p. unfold without. destruct (fs_entries fs !! p) as [i|] eqn:Hi; [|done].
  destruct (bool_decide_reflect (is_garbage p.2 i)) as [Hg|]; [by rewrite (H p i) | by rewrite !andb_false_r].
Qed.

Lemma scan_files_exact d : forall names s, store_wf (sw_fs s) ->
  exists s', scan_files sw_fs visit d (String slice "") names s = (None, s') /\
    store_wf (sw_fs s') /\ fs_dirs (sw_fs s') = fs_dirs (sw_fs s) /\ sw_failed s' = sw_failed s /\
    forall p, fs_entries (sw_fs s') !! p = without (fun q => bool_decide (q.1 = d /\ q.2 ∈ names)) (sw_fs s) p.
Proof.
  induction names as [|n names IH]; intros s Hwf; cbn [scan_files].
  { exists s. split_and!; try done. intros p. rewrite (without_iff _ (fun _ => false)); [apply without_none|].
    intros q i _ _. apply bool_decide_false. intros [_ H]. by apply elem_of_nil in H. }
  assert (Hskip : (forall i, fs_entries (sw_fs s) !! (d, n) = Some i -> HasPrefix n (String slice "") = true -> False) ->
    forall p, without (fun q => bool_decide (q.1 = d /\ q.2 ∈ n :: names)) (sw_fs s) p
            = without (fun q => bool_decide (q.1 = d /\ q.2 ∈ names)) (sw_fs s) p).
  { intros Hno. apply without_iff. intros [d' n'] i Hi (Hp & _). simpl in *. apply bool_decide_ext.
    rewrite elem_of_cons. split; [|tauto]. intros [-> [->|?]]; [|done]. exfalso. eauto. }
  destruct (HasPrefix n (String slice "")) eqn:Hp; cbn [negb].
  2: { destruct (IH s Hwf) as (s' & ? & ? & ? & ? & He). exists s'. split_and!; try done. intros p. rewrite He. symmetry.
       apply Hskip. done. }
  destruct (fs_entries (sw_fs s) !! (d, n)) as [i|] eqn:Hi.
  2: { destruct (IH s Hwf) as (s' & ? & ? & ? & ? & He). exists s'. split_and!; try done. intros p. rewrite He. symmetry.
       apply Hskip. done. }
  destruct (visit_exact d n i s Hwf Hi Hp) as (s1 & -> & Hwf1 & Hd1 & Hf1 & He1).
  destruct (IH s1 Hwf1) as (s2 & -> & Hwf2 & Hd2 & Hf2 & He2).
  exists s2. split; [done|]. split; [done|]. split; [congruence|]. split; [congruence|]. intros p.
  rewrite (without_step _ _ _ _ _ He1 He2). apply without_iff. intros [d' n'] j _ _. simpl.
  apply eq_bool_prop_intro. rewrite orb_True, !bool_decide_spec, elem_of_cons.
  split; [intros [[= -> ->]|[-> ?]]; auto | intros [-> [->|?]]; auto].
Qed.

Lemma scan_dirs_exact : forall dirs s, store_wf (sw_fs s) ->
  exists s', scan_dirs sw_fs (fun _ => None) visit (String slice "") dirs s = (None, s') /\
    store_wf (sw_fs s') /\ sw_failed s' = sw_failed s /\
    forall p, fs_entries (sw_fs s') !! p = without (fun q => bool_decide (q.1 ∈ dirs)) (sw_fs s) p.
Proof.
  induction dirs as [|d dirs IH]; intros s Hwf; cbn [scan_dirs].
  { exists s. split_and!; try done. intros p. rewrite (without_iff _ (fun _ => false)); [apply without_none|].
    intros q i _ _. apply bool_decide_false. intros H. by apply elem_of_nil in H. }
  destruct (within d (String slice "")) eqn:Hw; cbn [negb].
  - destruct (scan_files_exact d (read_dir (sw_fs s) d) s Hwf) as (s1 & -> & Hwf1 & _ & Hf1 & He1).
    destruct (IH s1 Hwf1) as (s2 & -> & Hwf2 & Hf2 & He2).
    exists s2. split; [done|]. split; [done|]. split; [congruence|]. intros p.
    rewrite (without_step _ _ _ _ _ He1 He2). apply without_iff. intros [d' n'] j Hj _. simpl.
    apply eq_bool_prop_intro. rewrite orb_True, !bool_decide_spec, elem_of_cons, elem_of_read_dir.
    split; [tauto|]. intros [->|?]; [left; eauto | auto].
  - destruct (IH s Hwf) as (s' & -> & Hwf' & Hf' & He'). exists s'. split_and!; try done. intros p. rewrite He'.
    apply without_iff. intros [d' n'] j Hj (Hp & _). cbn [fst snd] in *. apply bool_decide_ext. rewrite elem_of_cons.
    split; [tauto|]. intros [->|?]; [|done]. exfalso. pose proof Hj as (_ & Hpath & _)%(proj1 Hwf).
    pose proof (within_complete n' _ Hp) as Hin. unfold chunkPath in Hpath. cbn [snd] in Hpath. congruence.
Qed.

Lemma sweep_exact st fs : store_wf fs ->
  exists s', ScanChunks sw_fs (fun _ => None) visit (String slice "") (mk_sweep fs st 0 None) = (None, s') /\
    sw_failed s' = 0 /\ forall p, fs_entries (sw_fs s') !! p = without (fun _ => true) fs p.
Proof.
  intros Hwf. unfold ScanChunks. cbn [sw_fs].
  destruct (scan_dirs_exact (read_root fs) (mk_sweep fs st 0 None) Hwf) as (s' & -> & _ & Hf & He).
  exists s'. split; [done|]. split; [done|]. intros p. rewrite He. apply without_iff. intros q i Hi _.
  apply bool_decide_true. unfold read_root. rewrite elem_of_sort_by, elem_of_elements. by apply Hwf in Hi as (? & _).
Qed.
End sweep_exact.

(** ** The claims *)

Section collect_claims.
Context {E : Type} `{!Etcd doc E} `{!EtcdLaws doc E} (prefix : string) (c : Coordinator) (others : nat -> E -> E).
Abbreviation World := (world E).
Context (meanwhile : World -> World).
Context (Hself : plain_elem (c_self c) = true).

Lemma nextSlice_other (e e' : E) r k : nextSlice prefix c e = (r, e') -> k <> cursorKey prefix collectTask (c_self c) ->
  es_kvs (e_state e') !! k = es_kvs (e_state e) !! k.
Proof.
  intros H Hk. unfold nextSlice, st_bind in H.
  destruct (Cursor prefix collectTask (c_self c) e) as [[at_|err] e1] eqn:Hcur;
    assert (Hs : e_state e1 = e_state e)
      by (unfold Cursor, st_bind, st_ret in Hcur; destruct (e_get _ e) as [[?|?] ?] eqn:Hg; apply e_get_law in Hg as [? _];
          simplify_eq; congruence);
    [|by injection H as _ <-; rewrite Hs].
  destruct (SaveCursor _ _ _ _ e1) as [sr e2] eqn:Hsave.
  assert (He : e2 = e') by (destruct sr; by injection H). subst e2. unfold SaveCursor in Hsave.
  meta_cases Hsave; apply e_write_law in Hc.
  - simpl in Hc. injection Hc as _ ->. simpl. rewrite lookup_insert_ne by done. congruence.
  - destruct Hc as [_ [->| ->]]; simpl; rewrite ?lookup_insert_ne by done; congruence.
Qed.

Lemma cursor_not_object k : key prefix k <> cursorKey prefix collectTask (c_self c).
Proof. apply (encode_ne prefix (KObject k) (KCursor collectTask (c_self c))); [done | by split | done]. Qed.

Lemma cursor_not_upload k : HasPrefix k (uploadsRoot prefix) = true -> k <> cursorKey prefix collectTask (c_self c).
Proof.
  intros [t ->]%HasPrefix_spec. unfold uploadsRoot, cursorKey. rewrite join1, join3 by done.
  rewrite <- !sapp_assoc. intros H%sapp_inj_l. discriminate.
Qed.

Lemma cursor_not_writing k : HasPrefix k (writingPrefix prefix) = true -> k <> cursorKey prefix collectTask (c_self c).
Proof.
  intros [t ->]%HasPrefix_spec. unfold writingPrefix, cursorKey. rewrite join1, join3 by done.
  rewrite <- !sapp_assoc. intros H%sapp_inj_l. discriminate.
Qed.

Lemma nextSlice_protects id slice wid pk k (e e' : E) r : nextSlice prefix c e = (r, e') ->
  protected prefix c id slice wid pk k (e_state e) -> protected prefix c id slice wid pk k (e_state e').
Proof.
  intros H [[(Hw1 & Hw2 & x & Hx & Hm) Hwf]|[(H1 & H2 & x & m & Hx & Hr)|(x & m & Hx & Hr)]].
  - left. split.
    + split; [done|]. split; [done|]. exists x. split; [|done]. rewrite (nextSlice_other _ _ _ _ H); [done|].
      apply cursor_not_writing, HasPrefix_app.
    + intros j y Hj Hy. rewrite (nextSlice_other _ _ _ _ H) in Hy by (by apply cursor_not_writing). eauto.
  - right; left. split; [done|]. split; [done|]. exists x, m. split; [|done].
    by rewrite (nextSlice_other _ _ _ _ H) by (by apply cursor_not_upload).
  - right; right. exists x, m. split; [|done]. by rewrite (nextSlice_other _ _ _ _ H) by apply cursor_not_object.
Qed.

Definition slice_of (id : string) : byte := default Ascii.zero (String.get 0 id).

Lemma slice_of_prefix id slice : HasPrefix id (String slice "") = true -> slice_of id = slice.
Proof. intros [t ->]%HasPrefix_spec. done. Qed.

(** What the other requests leave of a chunk on this node while the pass reads: it is there
    when the sweep begins. *)
Definition there_for_sweep (id : string) (i : inode) : Prop :=
  forall w, (exists fs, w_stores w !! c_addr c = Some fs /\ store_wf fs /\ fs_entries fs !! chunkPath id = Some i) ->
    exists fs, w_stores (meanwhile w) !! c_addr c = Some fs /\ store_wf fs /\ fs_entries fs !! chunkPath id = Some i.

(** C6: collection keeps the chunks of a write, a part and an object that hand over to one
    another. Fix the id of a write, the key of a part and the key of an object. A chunk this
    node holds is still there after the pass if at every moment of it one of these three
    names it: the record of that write, of a node that is a member; that part; that object;
    and each has only given way to a later one, the record to the part or the object and
    the part to the object. So a long upload may be committed, and a multipart upload
    completed, at any point of the scan, whatever else other nodes do to etcd between its
    reads. Nothing is said of a chunk whose only name moves from one object key to another.
    A chunk last written within the grace period before the pass began is kept whatever
    names it and however long the scan takes. *)
Theorem Collect_keeps_live (id wid pk k : string) (fuel : nat) (lsErr : string -> option error) (fail : string -> faults)
    (grace : Z) (w w' : World) (fs : FS) (i : inode) (st : CollectStats) (err : option error) :
  w_stores w !! c_addr c = Some fs -> store_wf fs -> fs_entries fs !! chunkPath id = Some i ->
  there_for_sweep id i ->
  (protected prefix c id (slice_of id) wid pk k (e_state (w_etcd w)) /\
   others_protect prefix c others id (slice_of id) wid pk k) \/ w_now w - grace < in_mtime i ->
  Collect prefix c others meanwhile fuel lsErr fail grace w = Some (st, err, w') ->
  exists fs', w_stores w' !! c_addr c = Some fs' /\ fs_entries fs' !! chunkPath id = Some i.
Proof.
  intros Hfs Hwf Hi Hmw Hp. unfold Collect, on_meta.
  destruct (nextSlice prefix c (w_etcd w)) as [[slice|e] e1] eqn:Hn; [|intros [= _ _ <-]; eauto].
  cbn [w_etcd set_etcd w_now].
  assert (Hlater : forall e2, exists fs1, w_stores (meanwhile (set_etcd (set_etcd w e1) e2)) !! c_addr c = Some fs1 /\
    store_wf fs1 /\ fs_entries fs1 !! chunkPath id = Some i) by (intros e2; apply Hmw; by exists fs).
  destruct (referenced _ _ _ _ _ _) as [[[[refd writing]|e] e2]|] eqn:Hr; [| |done].
  2: { intros [= _ _ <-]. destruct (Hlater e2) as (fs1 & ? & _ & ?). eauto. }
  destruct (Hlater e2) as (fs1 & Hfs1 & Hwf1 & Hi1). rewrite Hfs1. destruct (ScanChunks _ _ _ _ _) as [serr s] eqn:Hsc.
  apply sweep_swept in Hsc as [Hsw _]; [|done]. intros [= _ _ <-].
  exists (sw_fs s). cbn [set_store w_stores]. rewrite lookup_insert_eq. split; [done|].
  destruct (Hsw (chunkPath id)) as [->|[_ (j & Hj & Hpre & Hnr & Hnf & Hold)]]; [done|]. exfalso. simpl in *.
  destruct Hp as [[Hp Hoth]|Hyoung]; [|rewrite Hi1 in Hj; injection Hj as <-; lia].
  pose proof (nextSlice_protects _ _ _ _ _ _ _ _ Hn Hp) as Hp1. apply slice_of_prefix in Hpre as <-.
  destruct (referenced_protects _ _ _ _ _ _ _ _ _ _ _ _ _ Hoth Hp1 Hr) as [?|?]; [done | congruence].
Qed.

(** C32: a pass whose disk works either fails and removes nothing from any disk, because it
    could not read everything, or removes from this node's disk, as it stands when the
    sweep begins, exactly the chunks of its slice that nothing it read names, that no
    write in flight covers and that were last written at least the grace period before the
    pass began; it removes all of them and touches nothing else. *)
Theorem Collect_exact (fuel : nat) (grace : Z) (w w' : World) (st : CollectStats) (err : option error) :
  (forall e, exists fs, w_stores (meanwhile (set_etcd w e)) !! c_addr c = Some fs /\ store_wf fs) ->
  Collect prefix c others meanwhile fuel (fun _ => None) (fun _ => no_faults) grace w = Some (st, err, w') ->
  (is_Some err /\ (w_stores w' = w_stores w \/ exists e, w' = meanwhile (set_etcd w e))) \/
  (err = None /\ exists slice e1 refd writing e2 fs fs',
     nextSlice prefix c (w_etcd w) = (Ok slice, e1) /\
     referenced prefix c others fuel slice e1 = Some (Ok (refd, writing), e2) /\
     w_stores (meanwhile (set_etcd w e2)) !! c_addr c = Some fs /\
     w_stores w' = <[c_addr c := fs']> (w_stores (meanwhile (set_etcd w e2))) /\
     forall p, fs_entries fs' !! p =
       match fs_entries fs !! p with
       | Some i => if decide (garbage slice refd writing (w_now w - grace) p.2 i) then None else Some i
       | None => None
       end).
Proof.
  intros Hmw. unfold Collect, on_meta.
  destruct (nextSlice prefix c (w_etcd w)) as [[slice|e] e1] eqn:Hn; [|intros [= _ <- <-]; left; eauto].
  cbn [w_etcd set_etcd w_now]. destruct (referenced _ _ _ _ _ _) as [[[[refd writing]|e] e2]|] eqn:Hr; [| |done].
  2: { intros [= _ <- <-]. left. split; [eauto|]. right. by exists e2. }
  change (set_etcd (set_etcd w e1) e2) with (set_etcd w e2).
  destruct (Hmw e2) as (fs & Hfs & Hwf). rewrite Hfs.
  destruct (sweep_exact slice refd writing (w_now w - grace) (zeroStats (String slice "")) fs Hwf) as (s & -> & Hf & He).
  rewrite Hf. intros [= _ <- <-]. right. split; [done|]. exists slice, e1, refd, writing, e2, fs, (sw_fs s).
  split; [done|]. split; [done|]. split; [done|]. split; [done|]. intros p. rewrite He. unfold without.
  destruct (fs_entries fs !! p); [|done]. simpl. by rewrite decide_bool_decide.
Qed.

Lemma size_le (m1 m2 : gmap string (kv doc)) : (forall k, is_Some (m1 !! k) -> is_Some (m2 !! k)) -> (size m1 <= size m2)%nat.
Proof. intros H. rewrite <- !size_dom. apply subseteq_size. intros k Hk%elem_of_dom. apply elem_of_dom. auto. Qed.

Lemma nextSlice_size (e e' : E) r : nextSlice prefix c e = (r, e') ->
  (size (es_kvs (e_state e')) <= size (es_kvs (e_state e)) + 1)%nat.
Proof.
  intros H. set (ck := cursorKey prefix collectTask (c_self c)).
  assert (Hs : (size (es_kvs (e_state e')) <= size ({[ck]} ∪ dom (es_kvs (e_state e)) : gset string))%nat).
  { rewrite <- size_dom. apply subseteq_size. intros k Hk%elem_of_dom. apply elem_of_union.
    destruct (decide (k = ck)) as [->|Hne]; [left; by apply elem_of_singleton|]. right. apply elem_of_dom.
    by rewrite <- (nextSlice_other _ _ _ _ H Hne). }
  rewrite <- (size_dom (es_kvs (e_state e))). pose proof (size_union_alt {[ck]} (dom (es_kvs (e_state e)) : gset string)).
  pose proof (subseteq_size (dom (es_kvs (e_state e)) ∖ {[ck]} : gset string) (dom (es_kvs (e_state e))) ltac:(set_solver)).
  rewrite size_singleton in *. lia.
Qed.

Lemma keep_writes_size members : forall writes ids (e e' : E) r,
  keep_writes prefix members writes ids e = (r, e') -> (size (es_kvs (e_state e')) <= size (es_kvs (e_state e)))%nat.
Proof.
  induction writes as [|[i node] writes IH]; intros ids e e' r; cbn [keep_writes]; [by intros [= _ <-]|].
  destruct (_ || _); [apply IH|]. unfold st_bind. destruct (DoneWriting prefix i e) as [dr e1] eqn:Hd.
  assert (Hs : (size (es_kvs (e_state e1)) <= size (es_kvs (e_state e)))%nat).
  { apply size_le. intros k Hk. assert (Hst : e_state e1 = e_state e \/ e_state e1 = (apply (e_state e) (OpDelete (writingKey prefix i))).2).
    { unfold DoneWriting in Hd. meta_cases Hd; apply e_write_law in Hc; [|tauto]. right. by rewrite <- Hc. }
    destruct Hst as [Hst|Hst]; rewrite Hst in Hk; [done|]. simpl in Hk. destruct (es_kvs (e_state e) !! writingKey prefix i); [|done].
    simpl in Hk. destruct Hk as [y Hk]. apply lookup_delete_Some in Hk as [_ Hk]. eauto. }
  destruct dr; [intros H%IH; lia | by intros [= _ <-]].
Qed.

(** A pass over a cluster nobody is writing to always ends: it reads at most one page
    more, of each kind, than there are records. *)
Theorem Collect_returns (fuel : nat) (lsErr : string -> option error) (fail : string -> faults) (grace : Z) (w : World) :
  (size (es_kvs (e_state (w_etcd w))) + 1 < fuel)%nat ->
  is_Some (Collect prefix c (fun _ e => e) meanwhile fuel lsErr fail grace w).
Proof.
  intros Hf. unfold Collect, on_meta. destruct (nextSlice prefix c (w_etcd w)) as [[slice|e] e1] eqn:Hn; [|eauto].
  apply nextSlice_size in Hn. cbn [w_etcd set_etcd]. unfold referenced.
  destruct (writesInFlight prefix c e1) as [[ws|e] e2] eqn:Hw; [|eauto].
  assert (Hs : (size (es_kvs (e_state e2)) <= size (es_kvs (e_state e1)))%nat).
  { apply st_bind_Ok in Hw as (wm & e0 & Hwm & Hkeep). apply Writing_spec in Hwm as [<- _]. by eapply keep_writes_size. }
  destruct (parts_loop_ends prefix c slice fuel "" 1 ∅ e2) as (r & e3 & -> & He3).
  { pose proof (count_from_size (e_state e2) (parts_start prefix "")). lia. }
  destruct r as [[acc n]|e]; [|eauto]. specialize (He3 eq_refl).
  destruct (objects_loop_ends prefix c slice fuel "" n acc e3) as [[[acc'|e] e4] ->].
  - rewrite He3. pose proof (count_from_size (e_state e2) (key prefix "")). lia.
  - destruct (w_stores (meanwhile _) !! c_addr c); [|eauto]. destruct (ScanChunks _ _ _ _ _). eauto.
  - eauto.
Qed.
End collect_claims.

(** ** At concrete inputs *)

Definition gc_c : Coordinator :=
  mk_Coordinator "n1" 1 "a1" (Some (mk_membership {["n1" := "a1"]} ∅ (Ring.New ["n1"] 1))) 4 zeroScheme.

(** One chunk of one object, on this node since time 0. *)
Definition gc_m : Manifest :=
  mk_Manifest 4 "" "" 0 ∅ ["n1"] [chunk_ref "A" 0 (to_bytes "data")] zeroScheme None None None [].
Definition gc_fs : FS := (WriteChunk no_faults "t" 0 empty_fs "A000000" (demo_source "data")).1.2.

(** Enough other objects to fill a page, and the object after them. *)
Definition gc_keys : list string := map (fun i => "m" +:+ Itoa (Z.of_nat i)) (seq 100 256).
Definition gc_etcd : demoE :=
  (Commit "k" "z" gc_m (foldl (fun e k => (Commit "k" k zeroManifest e).2) demo0 gc_keys)).2.
Definition gc_stores : gmap string FS := {["a1" := gc_fs]}.
Definition gc_now : Z := 100 * 10 ^ 9.
Abbreviation gc_w := (mk_world gc_stores gc_etcd [] 0 gc_now).

(** Another node renames the object from [z] to [a], as a client does it, by copying it and
    deleting the source, between the two pages of the scan of the objects. *)
Definition gc_rename (n : nat) (e : demoE) : demoE :=
  if Nat.eqb n 3 then
    w_etcd (@ClusterDelete demoE _ "k" "z"
      (@Copy demoE _ "k" "z" "a" (mk_CopyOptions false "" ∅) (mk_world ∅ e [] 0 0)).2).2
  else e.

Abbreviation gc_collect := (@Collect demoE _ "k" gc_c gc_rename id 3 (fun _ => None) (fun _ => no_faults) DefaultCollectGrace gc_w).

Lemma reference_no_chunks c acc k m s : m_Chunks m = [] -> reference c acc k m s = acc.
Proof. intros H. unfold reference. rewrite H. case_decide; [done|]. simpl. by rewrite (right_id_L ∅ (∪)). Qed.

Lemma foldl_no_chunks c s objs : forall acc, forallb (fun o => bool_decide (m_Chunks (o_Manifest o) = [])) objs = true ->
  foldl (fun acc o => reference c acc (o_Key o) (o_Manifest o) s) acc objs = acc.
Proof.
  induction objs as [|o objs IH]; intros acc; simpl; [done|].
  intros [Ho%bool_decide_eq_true Hos]%andb_true_iff. by rewrite reference_no_chunks, IH.
Qed.

Lemma pair_fst {A B} (p : A * B) a : p.1 = a -> p = (a, p.2).
Proof. intros <-. apply surjective_pairing. Qed.

(** A pass that works, step by step. *)
Lemma Collect_run {E : Type} `{!Etcd doc E} prefix c others fuel lsErr fail grace (w : world E) slice e1 refd writing e2 fs s :
  nextSlice prefix c (w_etcd w) = (Ok slice, e1) ->
  referenced prefix c others fuel slice e1 = Some (Ok (refd, writing), e2) ->
  w_stores w !! c_addr c = Some fs ->
  ScanChunks sw_fs lsErr (sweep_visit fail refd writing (w_now w - grace)) (String slice "")
    (mk_sweep fs (zeroStats (String slice "")) 0 None) = (None, s) ->
  sw_failed s = 0 ->
  Collect prefix c others id fuel lsErr fail grace w
  = Some (sw_stats s, None, set_store (set_etcd (set_etcd w e1) e2) (c_addr c) (sw_fs s)).
Proof.
  intros Hn Hr Hfs Hsc Hf. unfold Collect, on_meta. rewrite Hn. cbn [w_etcd set_etcd w_stores w_now]. rewrite Hr.
  unfold id. cbn [w_stores set_etcd]. rewrite Hfs, Hsc.
  by rewrite Hf.
Qed.

(** The states etcd goes through. *)
Definition gc_e1 : demoE := (nextSlice "k" gc_c gc_etcd).2.
Definition gc_e2 : demoE := (writesInFlight "k" gc_c gc_e1).2.
Definition gc_e3 : demoE := (ScanParts "k" "" scanPage gc_e2).2.
Definition gc_page : list MetaObject := match (ScanObjects "k" "" "" scanPage gc_e3).1 with Ok l => l | Err _ => [] end.
Definition gc_e4 : demoE := (ScanObjects "k" "" "" scanPage gc_e3).2.
Definition gc_e5 : demoE := (ScanObjects "k" "" (After "m355") scanPage (gc_rename 3 gc_e4)).2.

Lemma gc_next : nextSlice "k" gc_c gc_etcd = (Ok "A"%char, gc_e1).
Proof. unfold gc_e1. apply pair_fst. vm_compute. reflexivity. Qed.

Lemma gc_first_page : forallb (fun o => bool_decide (m_Chunks (o_Manifest o) = [])) gc_page = true /\
  (o_Key <$> last gc_page) = Some "m355".
Proof. split; vm_compute; reflexivity. Qed.

Lemma gc_writes : writesInFlight "k" gc_c gc_e1 = (Ok [], gc_e2).
Proof. unfold gc_e2. apply pair_fst. vm_compute. reflexivity. Qed.

Lemma gc_parts : ScanParts "k" "" scanPage gc_e2 = (Ok [], gc_e3).
Proof. unfold gc_e3. apply pair_fst. vm_compute. reflexivity. Qed.

Lemma gc_page1 : ScanObjects "k" "" "" scanPage gc_e3 = (Ok gc_page, gc_e4).
Proof.
  assert (Hok : is_ok (ScanObjects "k" "" "" scanPage gc_e3).1 = true) by (vm_compute; reflexivity).
  unfold gc_page, gc_e4. destruct (ScanObjects "k" "" "" scanPage gc_e3) as [[l|e] e']; [reflexivity | discriminate].
Qed.

Lemma gc_page2 : ScanObjects "k" "" (After "m355") scanPage (gc_rename 3 gc_e4) = (Ok [], gc_e5).
Proof. unfold gc_e5. apply pair_fst. vm_compute. reflexivity. Qed.

Lemma gc_referenced : referenced "k" gc_c gc_rename 3 "A"%char gc_e1 = Some (Ok (∅, []), gc_e5).
Proof.
  unfold referenced. change (gc_rename 0 gc_e1) with gc_e1. rewrite gc_writes.
  cbn [parts_loop]. change (gc_rename 1 gc_e2) with gc_e2. rewrite gc_parts.
  cbn [objects_loop]. change (gc_rename 2 gc_e3) with gc_e3. rewrite gc_page1.
  destruct gc_first_page as [Hno Hlast]. destruct gc_page as [|o os]; [discriminate|].
  rewrite foldl_no_chunks by exact Hno. destruct (last (o :: os)) as [q|]; [|discriminate]. injection Hlast as Hq.
  unfold compose. cbn [fmap option_fmap option_map default]. rewrite Hq. unfold id. by rewrite gc_page2.
Qed.

Definition gc_swept := ScanChunks sw_fs (fun _ => None) (sweep_visit (fun _ => no_faults) ∅ [] (gc_now - DefaultCollectGrace)) "A"
  (mk_sweep gc_fs (zeroStats "A") 0 None).

(** C33: collection loses an object that is renamed while it reads. A chunk has been on the
    disk for longer than the grace period and one object names it. Between two pages of
    the scan another node copies that object to a key the scan has passed and deletes
    the original from one it has not reached. The scan sees neither, no record protects
    a copy, and the chunk's age does not either: the pass succeeds, the copy is committed
    and names the chunk on this node, and the chunk is gone. *)
Theorem Collect_loses_renamed_object :
  lookup_obj "k" (w_etcd gc_w) "z" = Ok gc_m /\ is_Some (fs_entries gc_fs !! chunkPath "A000000") /\
  exists st w' m fs', gc_collect = Some (st, None, w') /\
    lookup_obj "k" (w_etcd w') "a" = Ok m /\ m_Chunks m = m_Chunks gc_m /\ m_Nodes m = m_Nodes gc_m /\
    w_stores w' !! "a1" = Some fs' /\ fs_entries fs' !! chunkPath "A000000" = None.
Proof.
  split; [vm_compute; reflexivity|]. split; [by eexists; vm_compute|].
  assert (Hsw : gc_swept = (None, gc_swept.2)) by (apply pair_fst; vm_compute; reflexivity).
  assert (Hrun : gc_collect = Some (sw_stats gc_swept.2, None,
    set_store (set_etcd (set_etcd gc_w gc_e1) gc_e5) "a1" (sw_fs gc_swept.2))).
  { apply (Collect_run (E := demoE) "k" gc_c gc_rename 3 (fun _ => None) (fun _ => no_faults) DefaultCollectGrace gc_w
      "A"%char gc_e1 ∅ [] gc_e5 gc_fs gc_swept.2).
    - exact gc_next.
    - exact gc_referenced.
    - vm_compute. reflexivity.
    - exact Hsw.
    - vm_compute. reflexivity. }
  eexists _, _, (described gc_m "" "" ∅ 0), (sw_fs gc_swept.2). split; [exact Hrun|].
  split; [vm_compute; reflexivity|]. split; [reflexivity|]. split; [reflexivity|].
  split; [reflexivity | vm_compute; reflexivity].
Qed.

Abbreviation small_etcd := (Commit "k" "z" gc_m demo0).2.
Abbreviation small_w := (mk_world gc_stores small_etcd [] 0 gc_now).
(** A minute passes while the pass reads. *)
Definition gc_meanwhile (w : world demoE) : world demoE :=
  mk_world (w_stores w) (w_etcd w) (w_script w) (w_calls w) (w_now w + 60 * 10 ^ 9).
Abbreviation small_collect :=
  (@Collect demoE _ "k" gc_c (fun _ e => e) gc_meanwhile 5 (fun _ => None) (fun _ => no_faults) DefaultCollectGrace small_w) (only parsing).

Lemma empty_fs_wf : store_wf empty_fs.
Proof.
  assert (forall p i, ~ possible empty_fs p (Some i)) as Hn.
  { intros q j [Hq|[Hq|Hq]]; simpl in Hq; [by rewrite lookup_empty in Hq.. | by apply elem_of_nil in Hq]. }
  split; intros q j Hq; by destruct (Hn q j).
Qed.

Lemma gc_fs_wf : store_wf gc_fs.
Proof.
  unfold gc_fs. destruct (WriteChunk no_faults "t" 0 empty_fs "A000000" (demo_source "data")) as [[out fs'] tr] eqn:H.
  destruct (write_states _ _ _ _ _ _ _ _ _ fs' H ltac:(left)) as [Hu|(Hv & _ & Hi)].
  - exact (untouched_wf _ _ empty_fs_wf Hu).
  - exact (installed_wf "A000000" (new_inode 0 (demo_source "data")) _ _ Hv eq_refl empty_fs_wf Hi).
Qed.

Lemma small_object : object_names "k" gc_c "A000000" (slice_of "A000000") "z" (e_state small_etcd).
Proof.
  exists (mk_kv (DManifest gc_m) 1 1), gc_m. split; [vm_compute; reflexivity|]. split; [reflexivity|].
  apply (bool_decide_unpack _). vm_compute. exact I.
Qed.

Lemma Collect_keeps_live_witness : exists st err w' fs',
  small_collect = Some (st, err, w') /\ w_stores w' !! "a1" = Some fs' /\ is_Some (fs_entries fs' !! chunkPath "A000000").
Proof.
  assert (Hok : bool_decide (is_Some small_collect) = true) by (vm_compute; reflexivity).
  destruct small_collect as [[[st err] w']|] eqn:H; [|discriminate Hok]. exists st, err, w'.
  destruct (@Collect_keeps_live demoE _ _ "k" gc_c (fun _ e => e) gc_meanwhile eq_refl "A000000" "" "" "z" 5 (fun _ => None)
    (fun _ => no_faults) DefaultCollectGrace small_w w' gc_fs (mk_inode (to_bytes "data") true 0) st err) as (fs' & Hfs & Hi).
  - reflexivity.
  - exact gc_fs_wf.
  - vm_compute. reflexivity.
  - intros w0 Hw0. exact Hw0.
  - left. split; [right; right; exact small_object|]. split; [auto|]. split; auto.
  - exact H.
  - exists fs'. split; [reflexivity|]. split; [exact Hfs|]. rewrite Hi. eauto.
Defined.

Lemma Collect_exact_witness : exists st err w', small_collect = Some (st, err, w') /\
  ((is_Some err /\ (w_stores w' = gc_stores \/ exists e, w' = gc_meanwhile (set_etcd small_w e))) \/ err = None).
Proof.
  assert (Hok : bool_decide (is_Some small_collect) = true) by (vm_compute; reflexivity).
  destruct small_collect as [[[st err] w']|] eqn:H; [|discriminate Hok]. exists st, err, w'. split; [reflexivity|].
  destruct (@Collect_exact demoE _ "k" gc_c (fun _ e => e) gc_meanwhile 5 DefaultCollectGrace small_w w' st err) as [He|[He _]].
  - intros e. exists gc_fs. split; [reflexivity | exact gc_fs_wf].
  - exact H.
  - left. exact He.
  - right. exact He.
Defined.

Lemma Collect_returns_witness : is_Some small_collect.
Proof.
  apply (@Collect_returns demoE _ _ "k" gc_c gc_meanwhile eq_refl 5 (fun _ => None) (fun _ => no_faults) DefaultCollectGrace small_w).
  vm_compute. lia.
Defined.

(** ** A view of the cluster that is only this node *)

Section fresh.
Context {E : Type} `{!Etcd doc E} `{!EtcdLaws doc E} (prefix : string).

Lemma DoneWriting_gone i (e e' : E) u : DoneWriting prefix i e = (Ok u, e') -> es_kvs (e_state e') !! writingKey prefix i = None.
Proof.
  intros H. unfold DoneWriting in H. meta_cases H. apply e_write_law in Hc. simpl in Hc. injection Hc as _ ->.
  destruct (es_kvs (e_state e) !! writingKey prefix i) eqn:Hx; [simpl; apply lookup_delete_eq | done].
Qed.

Lemma keep_writes_drops members i node : members !! node = None -> members <> ∅ -> forall writes ids (e e' : E) r,
  keep_writes prefix members writes ids e = (Ok r, e') ->
  (i, node) ∈ writes \/ es_kvs (e_state e) !! writingKey prefix i = None ->
  es_kvs (e_state e') !! writingKey prefix i = None.
Proof.
  intros Hm Hne. induction writes as [|[j n] writes IH]; intros ids e e' r; cbn [keep_writes].
  { intros [= _ <-] [H|H]; [by apply elem_of_nil in H | done]. }
  rewrite (bool_decide_false (members = ∅)), orb_false_r by done. case_bool_decide as Hn.
  - intros H [[[= -> ->]|Hin]%elem_of_cons|Hnone]; [rewrite Hm in Hn; by destruct Hn | eauto..].
  - intros (u & e1 & Hd & H)%st_bind_Ok Hin. eapply IH; [exact H|].
    destruct (decide (i = j)) as [->|Hij]; [right; by eapply DoneWriting_gone|].
    destruct Hin as [[[= -> ->]|Hin]%elem_of_cons|Hnone]; [done | by left|]. right.
    rewrite (DoneWriting_other _ _ _ _ _ _ Hd); [done|]. intros Heq%sapp_inj_l. done.
Qed.

(** A coordinator that has not been told the membership is not one whose view is
    empty: it sees itself. Its collection therefore drops the records of every other
    node's writes, which makes those writes fail, where the code means to keep them
    all until it has read the membership. *)
Theorem fresh_view_drops_writes (self addr id node : string) (chunkSize : Z) (e e' : E) (ids : list string) (x : kv doc) :
  writing_wf prefix (e_state e) -> plain_elem id = true ->
  es_kvs (e_state e) !! writingKey prefix id = Some x -> doc_text (kv_value x) = node -> node <> self ->
  writesInFlight prefix (NewCoordinator self addr chunkSize) e = (Ok ids, e') ->
  es_kvs (e_state e') !! writingKey prefix id = None.
Proof.
  intros Hwf Hid Hx Hn Hne (wm & e0 & Hwm & Hkeep)%st_bind_Ok. apply Writing_spec in Hwm as [Hs Hwm].
  eapply (keep_writes_drops _ id node); [| |exact Hkeep|].
  - unfold NewCoordinator, SetMembers, live. simpl. by rewrite lookup_insert_ne, lookup_empty by done.
  - unfold NewCoordinator, SetMembers, live. simpl. apply insert_non_empty.
  - left. apply elem_of_map_to_list. rewrite <- Hn. by apply Hwm.
Qed.
End fresh.

Abbreviation other_write := (MarkWriting "k" "W" "n2" demo0).2.

Lemma fresh_view_drops_writes_witness :
  es_kvs (e_state (writesInFlight "k" (NewCoordinator "n1" "a1" 4) other_write).2) !! writingKey "k" "W" = None.
Proof.
  apply (@fresh_view_drops_writes demoE _ _ "k" "n1" "a1" "W" "n2" 4 other_write
    (writesInFlight "k" (NewCoordinator "n1" "a1" 4) other_write).2 [] (mk_kv (DText "n2") 1 1)).
  - intros k x _ Hx. exists "W". split; [reflexivity|].
    change (es_kvs (e_state other_write)) with ({[writingKey "k" "W" := mk_kv (DText "n2") 1 1]} : gmap string (kv doc)) in Hx.
    apply lookup_singleton_Some in Hx as [<- _]. reflexivity.
  - reflexivity.
  - vm_compute. reflexivity.
  - reflexivity.
  - discriminate.
  - apply pair_fst. lazy. reflexivity.
Defined.
