(* ===== verification/Repair.v ===== *)
(** * Background passes: [internal/cluster/repair.go] and [internal/cluster/scrub.go]

    Repair restores the copies a manifest promises; scrubbing re-reads this node's own
    copies and replaces the ones that have rotted. Both walk every object in key order
    from where the last walk stopped. Pacing only delays a pass, so a pass leaves it out
    ([Loops] has the pacer), and the context of a pass is never cancelled. *)

From S2P Require Import Prelude GoStr Strconv Path Hash Crc Ring Ec Object Store Etcd Meta Node Cluster Collect.

Record Stats := mk_Stats {
  st_Objects : Z; st_CopiesChecked : Z; st_Restored : Z; st_BytesRestored : Z; st_Unrepairable : Z
}.

Definition add_stats (a : Stats) (objects checked restored bytes_ unrepairable : Z) : Stats :=
  mk_Stats (st_Objects a + objects) (st_CopiesChecked a + checked) (st_Restored a + restored)
    (st_BytesRestored a + bytes_) (st_Unrepairable a + unrepairable).

Record ScrubStats := mk_ScrubStats {
  sc_CopiesRead : Z; sc_BytesRead : Z; sc_Rotted : Z; sc_Rebuilt : Z; sc_Unrecovered : Z
}.

Definition add_scrub (a : ScrubStats) (read bytes_ rotted rebuilt lost : Z) : ScrubStats :=
  mk_ScrubStats (sc_CopiesRead a + read) (sc_BytesRead a + bytes_) (sc_Rotted a + rotted)
    (sc_Rebuilt a + rebuilt) (sc_Unrecovered a + lost).

(** [errors.Join] of a growing list of errors: none, or all of them. *)
Definition join_errs (errs : list error) : option error :=
  match errs with [] => None | _ => Some (concat errs) end.

Section passes.
Context {E : Type} `{!Etcd doc E} {rs : ReedSolomon} (prefix : string) (c : Coordinator).
Abbreviation World := (world E).

(** ** Walking the objects *)

Section walk.
Context {St : Type} (task : string) (visit : MetaObject -> St -> World -> option error * St * World).

(** The visits of one page; a failure is only logged. *)
Fixpoint visit_all (objs : list MetaObject) (st : St) (w : World) : St * World :=
  match objs with
  | [] => (st, w)
  | o :: objs' => let '(_, st1, w1) := visit o st w in visit_all objs' st1 w1
  end.

Fixpoint walk_loop (fuel : nat) (cursor : string) (st : St) (w : World) : option (res unit * St * World) :=
  match fuel with
  | O => None
  | S fuel' =>
      let from := if String.eqb cursor "" then "" else After cursor in
      match on_meta (ScanObjects prefix "" from scanPage) w with
      | (Err e, w1) => Some (Err e, st, w1)
      | (Ok [], w1) => let '(r, w2) := on_meta (SaveCursor prefix task (c_self c) "") w1 in Some (r, st, w2)
      | (Ok objs, w1) =>
          let '(st', w2) := visit_all objs st w1 in
          let cursor' := default cursor (o_Key <$> last objs) in
          match on_meta (SaveCursor prefix task (c_self c) cursor') w2 with
          | (Err e, w3) => Some (Err e, st', w3)
          | (Ok _, w3) => walk_loop fuel' cursor' st' w3
          end
      end
  end.

Definition walk (fuel : nat) (st : St) (w : World) : option (res unit * St * World) :=
  match on_meta (Cursor prefix task (c_self c)) w with
  | (Err e, w1) => Some (Err e, st, w1)
  | (Ok cursor, w1) => walk_loop fuel cursor st w1
  end.
End walk.

(** ** Repair *)

Definition local_hasChunks (addr : string) (ids : list string) (w : World) : res (gset string) * World :=
  let '(r, w1) := next_rpc w in
  match w_stores w1 !! addr with
  | None => (Err errors_New, w1)
  | Some fs => match HasChunks (rf_store r) fs ids with
               | Ok have => (Ok (list_to_set have), w1)
               | Err e => (Err e, w1)
               end
  end.

Fixpoint survey_loop (nodes ids : list string) (lv : membership) (acc : gmap string (gset string)) (w : World)
    : res (gmap string (gset string)) * World :=
  match nodes with
  | [] => (Ok acc, w)
  | n :: nodes' =>
      match mb_peers lv !! n with
      | None => survey_loop nodes' ids lv acc w
      | Some addr =>
          if String.eqb n (c_self c) then
            match local_hasChunks (c_addr c) ids w with
            | (Err e, w1) => (Err e, w1)
            | (Ok have, w1) => survey_loop nodes' ids lv (<[n := have]> acc) w1
            end
          else
            match PeerHasChunks addr ids w with
            | (Err _, w1) => survey_loop nodes' ids lv (<[n := ∅]> acc) w1
            | (Ok have, w1) => survey_loop nodes' ids lv (<[n := have]> acc) w1
            end
      end
  end.

Definition surveyNodes (nodes ids : list string) (lv : membership) (w : World) : res (gmap string (gset string)) * World :=
  survey_loop nodes ids lv ∅ w.

(** What a copy is streamed into: this disk, or another node. *)
Definition write_to (node : string) (ref : ChunkRef) (src : reader) (lv : membership) (w : World) : option error * World :=
  if String.eqb node (c_self c) then local_write (c_addr c) (c_ID ref) src (c_CRC ref) (c_Size ref) w
  else PushChunk (default "" (mb_peers lv !! node)) (c_ID ref) (c_CRC ref) (c_Size ref) src w.

Definition restore (node : string) (ref : ChunkRef) (nodes : list string) (lv : membership) (w : World)
    : option error * World :=
  match fetch c ref nodes w with
  | (Err e, w1) => (Some e, w1)
  | (Ok src, w1) => write_to node ref src lv w1
  end.

(** The copies of one chunk: every live node the manifest names. *)
Fixpoint repair_copies (ref : ChunkRef) (nodes all : list string) (lv : membership) (held : gmap string (gset string))
    (errs : list error) (st : Stats) (w : World) : list error * Stats * World :=
  match nodes with
  | [] => (errs, st, w)
  | n :: nodes' =>
      match mb_peers lv !! n with
      | None => repair_copies ref nodes' all lv held errs st w
      | Some _ =>
          if bool_decide (c_ID ref ∈ default ∅ (held !! n))
          then repair_copies ref nodes' all lv held errs (add_stats st 0 1 0 0 0) w
          else match restore n ref all lv w with
               | (Some e, w1) => repair_copies ref nodes' all lv held (errs ++ [e]) (add_stats st 0 1 0 0 1) w1
               | (None, w1) => repair_copies ref nodes' all lv held errs (add_stats st 0 1 1 (c_Size ref) 0) w1
               end
      end
  end.

Fixpoint repair_chunks (refs : list ChunkRef) (nodes : list string) (lv : membership) (held : gmap string (gset string))
    (errs : list error) (st : Stats) (w : World) : list error * Stats * World :=
  match refs with
  | [] => (errs, st, w)
  | ref :: refs' =>
      let '(errs1, st1, w1) := repair_copies ref nodes nodes lv held errs st w in
      repair_chunks refs' nodes lv held errs1 st1 w1
  end.

(** The shards a node at position [i] should have, asked for in one call. *)
Fixpoint survey_shards (nodes : list string) (i : Z) (refs : list ChunkRef) (lv : membership) (w : World)
    : list (gset string) * World :=
  match nodes with
  | [] => ([], w)
  | n :: nodes' =>
      let ids := map (fun ref => ShardID ref i) refs in
      let '(held, w1) :=
        match mb_peers lv !! n with
        | None => (∅, w)
        | Some addr =>
            match (if String.eqb n (c_self c) then local_hasChunks (c_addr c) ids w else PeerHasChunks addr ids w) with
            | (Ok have, w1) => (have, w1)
            | (Err _, w1) => (∅, w1)
            end
        end in
      let '(rest, w2) := survey_shards nodes' (i + 1) refs lv w1 in (held :: rest, w2)
  end.

(** The positions of a chunk's shards that live nodes should have and do not. *)
Fixpoint missing_shards (ref : ChunkRef) (nodes : list string) (held : list (gset string)) (i : Z) (lv : membership) : list Z :=
  match nodes, held with
  | n :: nodes', h :: held' =>
      (if bool_decide (is_Some (mb_peers lv !! n)) && negb (bool_decide (ShardID ref i ∈ h)) then [i] else [])
      ++ missing_shards ref nodes' held' (i + 1) lv
  | _, _ => []
  end.

Definition live_nodes (nodes : list string) (lv : membership) : Z :=
  zlen (filter (fun n => is_Some (mb_peers lv !! n)) nodes).

Fixpoint repair_shards_loop (refs : list ChunkRef) (nodes : list string) (held : list (gset string)) (scheme : Scheme)
    (lv : membership) (errs : list error) (st : Stats) (w : World) : list error * Stats * World :=
  match refs with
  | [] => (errs, st, w)
  | ref :: refs' =>
      let missing := missing_shards ref nodes held 0 lv in
      let st1 := add_stats st 0 (live_nodes nodes lv) 0 0 0 in
      if bool_decide (missing = []) then repair_shards_loop refs' nodes held scheme lv errs st1 w
      else match restoreShards c ref nodes nodes missing scheme lv w with
           | (Some e, w1) =>
               repair_shards_loop refs' nodes held scheme lv (errs ++ [e]) (add_stats st1 0 0 0 0 (zlen missing)) w1
           | (None, w1) =>
               repair_shards_loop refs' nodes held scheme lv errs
                 (add_stats st1 0 0 (zlen missing) (zlen missing * shardSize (c_Size ref) scheme) 0) w1
           end
  end.

Definition repairShards (o : MetaObject) (st : Stats) (lv : membership) (w : World) : option error * Stats * World :=
  let m := o_Manifest o in
  let '(held, w1) := survey_shards (m_Nodes m) 0 (m_Chunks m) lv w in
  let '(errs, st', w2) := repair_shards_loop (m_Chunks m) (m_Nodes m) held (m_Coding m) lv [] st w1 in
  (join_errs errs, st', w2).

(** Only the first owner of the partition works on an object. *)
Definition responsible (key : string) : bool :=
  match Owners (mb_ring (live c)) (PartitionFor key) 1 with
  | n :: _ => String.eqb n (c_self c)
  | [] => false
  end.

Definition repairObject (o : MetaObject) (st : Stats) (w : World) : option error * Stats * World :=
  let lv := live c in
  if negb (responsible (o_Key o)) then (None, st, w)
  else
    let st1 := add_stats st 1 0 0 0 0 in
    let m := o_Manifest o in
    if bool_decide (m_Coding m <> zeroScheme) then repairShards o st1 lv w
    else match surveyNodes (m_Nodes m) (map c_ID (m_Chunks m)) lv w with
         | (Err e, w1) => (Some e, st1, w1)
         | (Ok held, w1) =>
             let '(errs, st2, w2) := repair_chunks (m_Chunks m) (m_Nodes m) lv held [] st1 w1 in
             (join_errs errs, st2, w2)
         end.

Definition Repair (fuel : nat) (w : World) : option (Stats * option error * World) :=
  match walk "repair" repairObject fuel (mk_Stats 0 0 0 0 0) w with
  | None => None
  | Some (Err e, st, w') => Some (st, Some e, w')
  | Some (Ok _, st, w') => Some (st, if 0 <? st_Unrepairable st then Some [ErrUnrepairable] else None, w')
  end.

(** ** Scrubbing *)

Definition verifyLocal (ref : ChunkRef) (w : World) : option error * World :=
  match local_read (c_addr c) (c_ID ref) (c_CRC ref) w with
  | (Err e, w1) => (Some e, w1)
  | (Ok rc, w1) => (drain rc, w1)
  end.

Fixpoint rebuild_loop (ref : ChunkRef) (nodes : list string) (lv : membership) (errs : list error) (w : World)
    : option error * World :=
  match nodes with
  | [] => (Some (concat errs), w)
  | n :: nodes' =>
      let addr := readAddr lv n in
      if String.eqb n (c_self c) || String.eqb addr "" then rebuild_loop ref nodes' lv errs w
      else match FetchChunk addr (c_ID ref) (c_CRC ref) w with
           | (Err e, w1) => rebuild_loop ref nodes' lv (errs ++ [e]) w1
           | (Ok src, w1) =>
               match local_write (c_addr c) (c_ID ref) src (c_CRC ref) (c_Size ref) w1 with
               | (None, w2) => (None, w2)
               | (Some e, w2) => rebuild_loop ref nodes' lv (errs ++ [e]) w2
               end
           end
  end.

Definition rebuildFromPeers (ref : ChunkRef) (nodes : list string) (lv : membership) (w : World) : option error * World :=
  rebuild_loop ref nodes lv [] w.

(** One chunk: read it if it is here, and replace it if it has rotted. *)
Definition scrub_chunk (ref : ChunkRef) (nodes : list string) (lv : membership) (st : ScrubStats) (w : World)
    : option error * ScrubStats * World :=
  match local_has (c_addr c) (c_ID ref) w with
  | (Err e, w1) => (Some e, st, w1)
  | (Ok false, w1) => (None, st, w1)
  | (Ok true, w1) =>
      let st1 := add_scrub st 1 (c_Size ref) 0 0 0 in
      match verifyLocal ref w1 with
      | (None, w2) => (None, st1, w2)
      | (Some e, w2) =>
          if negb (errors_Is e ErrChecksumMismatch) then (Some e, st1, w2)
          else match rebuildFromPeers ref nodes lv w2 with
               | (Some e', w3) => (Some e', add_scrub st1 0 0 1 0 1, w3)
               | (None, w3) => (None, add_scrub st1 0 0 1 1 0, w3)
               end
      end
  end.

Fixpoint scrub_chunks (refs : list ChunkRef) (nodes : list string) (lv : membership) (errs : list error) (st : ScrubStats)
    (w : World) : list error * ScrubStats * World :=
  match refs with
  | [] => (errs, st, w)
  | ref :: refs' =>
      let '(err, st1, w1) := scrub_chunk ref nodes lv st w in
      scrub_chunks refs' nodes lv (match err with Some e => errs ++ [e] | None => errs end) st1 w1
  end.

(** The positions of a chunk this node has, and of those the ones that have rotted. *)
Fixpoint rotted_shards (ref : ChunkRef) (nodes : list string) (i : Z) (errs : list error) (st : ScrubStats) (w : World)
    : list Z * list error * ScrubStats * World :=
  match nodes with
  | [] => ([], errs, st, w)
  | n :: nodes' =>
      if negb (String.eqb n (c_self c)) then rotted_shards ref nodes' (i + 1) errs st w
      else match verifyLocalShard c ref i w with
           | ((false, _, err), w1) =>
               rotted_shards ref nodes' (i + 1) (match err with Some e => errs ++ [e] | None => errs end) st w1
           | ((true, size, err), w1) =>
               let st1 := add_scrub st 1 size 0 0 0 in
               match err with
               | Some e =>
                   if errors_Is e ErrChecksumMismatch then
                     let '(rot, errs', st', w') := rotted_shards ref nodes' (i + 1) errs (add_scrub st1 0 0 1 0 0) w1 in
                     (i :: rot, errs', st', w')
                   else rotted_shards ref nodes' (i + 1) (errs ++ [e]) st1 w1
               | None => rotted_shards ref nodes' (i + 1) errs st1 w1
               end
           end
  end.

Fixpoint scrub_shards_loop (refs : list ChunkRef) (m : Manifest) (lv : membership) (errs : list error) (st : ScrubStats)
    (w : World) : list error * ScrubStats * World :=
  match refs with
  | [] => (errs, st, w)
  | ref :: refs' =>
      let '(rotted, errs1, st1, w1) := rotted_shards ref (m_Nodes m) 0 errs st w in
      if bool_decide (rotted = []) then scrub_shards_loop refs' m lv errs1 st1 w1
      else match restoreShards c ref (m_Nodes m) (m_Nodes m) rotted (m_Coding m) lv w1 with
           | (Some e, w2) => scrub_shards_loop refs' m lv (errs1 ++ [e]) (add_scrub st1 0 0 0 0 (zlen rotted)) w2
           | (None, w2) => scrub_shards_loop refs' m lv errs1 (add_scrub st1 0 0 0 (zlen rotted) 0) w2
           end
  end.

Definition scrubShards (o : MetaObject) (st : ScrubStats) (lv : membership) (w : World) : option error * ScrubStats * World :=
  let '(errs, st', w') := scrub_shards_loop (m_Chunks (o_Manifest o)) (o_Manifest o) lv [] st w in
  (join_errs errs, st', w').

Definition scrubObject (o : MetaObject) (st : ScrubStats) (w : World) : option error * ScrubStats * World :=
  let m := o_Manifest o in
  if bool_decide (m_Coding m <> zeroScheme) then scrubShards o st (live c) w
  else let '(errs, st', w') := scrub_chunks (m_Chunks m) (m_Nodes m) (live c) [] st w in (join_errs errs, st', w').

Definition Scrub (fuel : nat) (w : World) : option (ScrubStats * option error * World) :=
  match walk "scrub" scrubObject fuel (mk_ScrubStats 0 0 0 0 0) w with
  | None => None
  | Some (Err e, st, w') => Some (st, Some e, w')
  | Some (Ok _, st, w') => Some (st, if 0 <? sc_Unrecovered st then Some [ErrRotUnrecovered] else None, w')
  end.
End passes.

(** ** What a pass does to the disks *)

Section repair_facts.
Context {E : Type} `{!Etcd doc E} {rs : ReedSolomon} (prefix : string) (c : Coordinator).
Abbreviation World := (world E).

Lemma write_to_spec node ref src lv (w w' : World) err : 0 <= c_CRC ref < 2 ^ 32 ->
  write_to c node ref src lv w = (err, w') ->
  w_etcd w' = w_etcd w /\ keeps w w' (c_ID ref) (c_CRC ref) (c_Size ref) /\
  (err = None -> holds_chunk w' (place_addr c lv node) (c_ID ref) (c_CRC ref) (c_Size ref)).
Proof.
  intros Hc. unfold write_to, place_addr. destruct (String.eqb node (c_self c)).
  - intros H. apply local_write_spec in H as (? & _ & ? & ?). done.
  - intros H. apply PushChunk_spec in H as (? & _ & ? & ?); done.
Qed.

Lemma keeps_untouched (w w1 w' : World) id crc size : untouched_world w w1 -> keeps w1 w' id crc size -> keeps w w' id crc size.
Proof. intros [Hs _] Hk addr x z y Hx. intros H. apply Hk; [done|]. unfold holds_chunk, all_files in *. by rewrite Hs. Qed.

(** What a restored copy is: whatever was fetched and however it travelled, the node has
    the chunk the manifest describes. *)
Lemma restore_spec node ref nodes lv (w w' : World) err : 0 <= c_CRC ref < 2 ^ 32 ->
  restore c node ref nodes lv w = (err, w') ->
  w_etcd w' = w_etcd w /\ keeps w w' (c_ID ref) (c_CRC ref) (c_Size ref) /\
  (err = None -> holds_chunk w' (place_addr c lv node) (c_ID ref) (c_CRC ref) (c_Size ref)).
Proof.
  intros Hc. unfold restore. destruct (fetch _ _ _ _) as [[src|e] w1] eqn:Hf; apply fetch_world in Hf as Hu.
  - intros H. apply write_to_spec in H as (He & Hk & Hok); [|done]. destruct Hu as [Hs Hee].
    split; [congruence|]. split; [by apply (keeps_untouched w w1); [split|]|]. done.
  - intros [= <- <-]. destruct Hu as [Hs Hee]. split; [done|]. split; [by apply keeps_refl | done].
Qed.

(** A node has a file of that name. *)
Definition has_file (w : World) (addr id : string) : Prop :=
  exists fs, w_stores w !! addr = Some fs /\ is_Some (fs_entries fs !! chunkPath id).

Lemma HasChunks_file F fs : forall ids have, HasChunks F fs ids = Ok have ->
  forall id, id ∈ have -> is_Some (fs_entries fs !! chunkPath id).
Proof.
  induction ids as [|i ids IH]; intros have; cbn [HasChunks].
  { intros [= <-] id Hid. by apply elem_of_nil in Hid. }
  destruct (HasChunk F fs i) as [b|e] eqn:Hb.
  - intros (h & Hh & [= <-])%res_bind_Ok id Hid.
    destruct b; [apply elem_of_cons in Hid as [->|Hid]|]; [|by eapply IH..].
    unfold HasChunk in Hb. destruct (validateID i); [done|]. destruct (f_stat F); [done|]. injection Hb as Hb.
    by apply bool_decide_eq_true in Hb.
  - destruct (errors_Is e ErrInvalidID); [apply IH | done].
Qed.

Lemma local_hasChunks_spec addr ids (w w' : World) r : local_hasChunks addr ids w = (r, w') ->
  untouched_world w w' /\ forall have id, r = Ok have -> id ∈ have -> has_file w addr id.
Proof.
  unfold local_hasChunks. simpl. destruct (w_stores w !! addr) as [fs|] eqn:Hfs; [|intros [= <- <-]; done].
  destruct (HasChunks _ _ _) as [h|e] eqn:Hh; intros [= <- <-]; (split; [done|]); [|done].
  intros have id [= <-] Hid%elem_of_list_to_set. exists fs. split; [done|]. by eapply HasChunks_file.
Qed.

Lemma PeerHasChunks_spec addr ids (w w' : World) r : PeerHasChunks addr ids w = (r, w') ->
  untouched_world w w' /\ forall have id, r = Ok have -> id ∈ have -> has_file w addr id.
Proof.
  unfold PeerHasChunks. simpl. destruct (_ || _); [intros [= <- <-]; done|].
  destruct (w_stores w !! addr) as [fs|] eqn:Hfs; [|intros [= <- <-]; done].
  unfold checkChunks. destruct (HasChunks _ _ _) as [h|e] eqn:Hh; simpl; intros [= <- <-]; (split; [done|]); [|done].
  intros have id [= <-] Hid%elem_of_list_to_set. exists fs. split; [done|]. by eapply HasChunks_file.
Qed.

Lemma has_file_untouched (w w' : World) addr id : untouched_world w w' -> has_file w' addr id -> has_file w addr id.
Proof. intros [Hs _] (fs & Hfs & Hi). exists fs. by rewrite <- Hs. Qed.

Lemma survey_spec ids lv : forall nodes acc (w w' : World) r,
  survey_loop c nodes ids lv acc w = (r, w') ->
  untouched_world w w' /\ forall held n id, r = Ok held -> id ∈ default ∅ (held !! n) ->
    id ∈ default ∅ (acc !! n) \/ has_file w (place_addr c lv n) id.
Proof.
  induction nodes as [|n nodes IH]; intros acc w w' r; cbn [survey_loop].
  { intros [= <- <-]. split; [done|]. intros held n id [= <-]. auto. }
  destruct (mb_peers lv !! n) as [addr|] eqn:Hp; [|apply IH].
  assert (Hstep : forall have w1, untouched_world w w1 -> (forall id, id ∈ have -> has_file w (place_addr c lv n) id) ->
    survey_loop c nodes ids lv (<[n := have]> acc) w1 = (r, w') ->
    untouched_world w w' /\ forall held n id, r = Ok held -> id ∈ default ∅ (held !! n) ->
      id ∈ default ∅ (acc !! n) \/ has_file w (place_addr c lv n) id).
  { intros have w1 Hu Hh [Hu' Hall]%IH. split; [by eapply untouched_trans|]. intros held n' id Hr Hid.
    apply (Hall held) in Hid as [Hid|Hid]; [|right; by eapply has_file_untouched | done].
    destruct (decide (n' = n)) as [->|Hne]; [rewrite lookup_insert_eq in Hid; auto | rewrite lookup_insert_ne in Hid by done; auto]. }
  destruct (String.eqb_spec n (c_self c)) as [->|Hne].
  - destruct (local_hasChunks _ _ _) as [[have|e] w1] eqn:Hl; apply local_hasChunks_spec in Hl as [Hu Hh]; [|intros [= <- <-]; done].
    apply Hstep; [done|]. intros id Hid. unfold place_addr. rewrite String.eqb_refl. by eapply Hh.
  - destruct (PeerHasChunks _ _ _) as [[have|e] w1] eqn:Hl; apply PeerHasChunks_spec in Hl as [Hu Hh]; apply Hstep; try done.
    intros id Hid. unfold place_addr. rewrite (proj2 (String.eqb_neq _ _) Hne), Hp. by eapply Hh.
Qed.

(** A pass over chunks [refs] takes nothing away that it could be asked to restore. *)
Definition keeps_all (refs : list ChunkRef) (w w' : World) : Prop :=
  forall addr x crc size, (forall r, r ∈ refs -> c_ID r = x -> crc = c_CRC r /\ size = c_Size r) ->
    holds_chunk w addr x crc size -> holds_chunk w' addr x crc size.

Definition consistent (refs : list ChunkRef) : Prop :=
  Forall (fun r => 0 <= c_CRC r < 2 ^ 32) refs /\
  forall r r', r ∈ refs -> r' ∈ refs -> c_ID r = c_ID r' -> c_CRC r = c_CRC r' /\ c_Size r = c_Size r'.

(** A live node that should have a copy has one: it said so, or it was given one. *)
Definition placed (lv : membership) (held : gmap string (gset string)) (w : World) (ref : ChunkRef) (n : string) : Prop :=
  is_Some (mb_peers lv !! n) ->
  c_ID ref ∈ default ∅ (held !! n) \/ holds_chunk w (place_addr c lv n) (c_ID ref) (c_CRC ref) (c_Size ref).

Lemma repair_copies_spec ref all lv held : 0 <= c_CRC ref < 2 ^ 32 -> forall nodes errs st (w w' : World) errs' st',
  repair_copies c ref nodes all lv held errs st w = (errs', st', w') ->
  w_etcd w' = w_etcd w /\ keeps w w' (c_ID ref) (c_CRC ref) (c_Size ref) /\
  exists more, errs' = errs ++ more /\ (more = [] -> Forall (placed lv held w' ref) nodes).
Proof.
  intros Hc. induction nodes as [|n nodes IH]; intros errs st w w' errs' st'; cbn [repair_copies].
  { intros [= <- _ <-]. split; [done|]. split; [by apply keeps_refl|]. exists []. by rewrite app_nil_r. }
  destruct (mb_peers lv !! n) as [a|] eqn:Hp.
  2: { intros (He & Hk & more & Hm & Hok)%IH. split; [done|]. split; [done|]. exists more. split; [done|].
       intros H. constructor; [|auto]. intros [a Ha]. congruence. }
  case_bool_decide as Hh.
  - intros (He & Hk & more & Hm & Hok)%IH. split; [done|]. split; [done|]. exists more. split; [done|].
    intros H. constructor; [by left | auto].
  - destruct (restore c n ref all lv w) as [[e|] w1] eqn:Hr; apply restore_spec in Hr as (He1 & Hk1 & Hok1); try done;
      intros (He & Hk & more & Hm & Hok)%IH; (split; [congruence|]); (split; [by eapply keeps_trans|]).
    + exists (e :: more). rewrite <- app_assoc in Hm. split; [exact Hm | done].
    + exists more. split; [done|]. intros H. constructor; [|auto]. intros _. right. apply Hk; [done|]. auto.
Qed.

Lemma keeps_to_all ref refs (w w' : World) : ref ∈ refs -> keeps w w' (c_ID ref) (c_CRC ref) (c_Size ref) -> keeps_all refs w w'.
Proof. intros Hin Hk addr x crc size Hx. apply Hk. intros ->. by apply Hx. Qed.

Lemma repair_chunks_spec all nodes lv held : consistent all -> forall refs errs st (w w' : World) errs' st',
  (forall r, r ∈ refs -> r ∈ all) ->
  repair_chunks c refs nodes lv held errs st w = (errs', st', w') ->
  w_etcd w' = w_etcd w /\ keeps_all all w w' /\
  exists more, errs' = errs ++ more /\ (more = [] -> forall ref, ref ∈ refs -> Forall (placed lv held w' ref) nodes).
Proof.
  intros [Hcrc Hcons]. induction refs as [|ref refs IH]; intros errs st w w' errs' st' Hsub; cbn [repair_chunks].
  { intros [= <- _ <-]. split; [done|]. split; [intros a x y z _ H; exact H|]. exists []. rewrite app_nil_r. split; [done|].
    intros _ r Hr. by apply elem_of_nil in Hr. }
  destruct (repair_copies _ _ _ _ _ _ _ _ _) as [[errs1 st1] w1] eqn:Hr.
  assert (Hin : ref ∈ all) by (apply Hsub; left). rewrite Forall_forall in Hcrc.
  apply repair_copies_spec in Hr as (He1 & Hk1 & more1 & -> & Hok1); [|by apply Hcrc].
  intros (He & Hk & more & -> & Hok)%IH; [|intros r Hr; apply Hsub; by right].
  split; [congruence|]. split.
  { intros a x y z Hx Hh. apply Hk; [done|]. by eapply (keeps_to_all ref all). }
  exists (more1 ++ more). split; [by rewrite app_assoc|]. intros [-> ->]%app_eq_nil r [->|Hr]%elem_of_cons; [|auto].
  eapply Forall_impl; [by apply Hok1|]. intros n Hpl Hl. destruct (Hpl Hl) as [?|Hh]; [by left|]. right.
  apply Hk; [|done]. intros r' Hr' Hid. apply Hcons; done.
Qed.
End repair_facts.

Section repair_claims.
Context {E : Type} `{!Etcd doc E} {rs : ReedSolomon} (c : Coordinator).
Abbreviation World := (world E).

Lemma repairObject_spec (o : MetaObject) (st st' : Stats) (w w' : World) (err : option error) :
  responsible c (o_Key o) = true -> m_Coding (o_Manifest o) = zeroScheme -> consistent (m_Chunks (o_Manifest o)) ->
  repairObject c o st w = (err, st', w') ->
  w_etcd w' = w_etcd w /\ keeps_all (m_Chunks (o_Manifest o)) w w' /\
  (err = None -> forall ref n, ref ∈ m_Chunks (o_Manifest o) -> n ∈ m_Nodes (o_Manifest o) ->
     is_Some (mb_peers (live c) !! n) ->
     has_file w (place_addr c (live c) n) (c_ID ref) \/
     holds_chunk w' (place_addr c (live c) n) (c_ID ref) (c_CRC ref) (c_Size ref)).
Proof.
  intros Hr Hcod Hcons. unfold repairObject. rewrite Hr, bool_decide_false by tauto. cbn [negb]. unfold surveyNodes.
  destruct (survey_loop _ _ _ _ _ _) as [sr w1] eqn:Hs. apply survey_spec in Hs as [[Hu1 Hu2] Hheld].
  destruct sr as [held|e].
  - destruct (repair_chunks _ _ _ _ _ _ _ _) as [[errs st2] w2] eqn:Hc. intros [= <- _ <-].
    apply (repair_chunks_spec c (m_Chunks (o_Manifest o))) in Hc as (He & Hk & more & Hmore & Hok); [|done..].
    split; [congruence|]. split.
    { intros a x y z Hx Hh. apply Hk; [done|]. unfold holds_chunk, all_files in *. by rewrite Hu1. }
    rewrite app_nil_l in Hmore. subst errs. intros Hn ref n Href Hin Hl.
    assert (Hm : more = []) by (by destruct more). pose proof (Hok Hm ref Href) as HF. rewrite Forall_forall in HF.
    destruct (HF n Hin Hl) as [Hid|?]; [|by right]. apply (Hheld held) in Hid as [Hid|Hid]; [|by left|done].
    rewrite lookup_empty in Hid. simpl in Hid. by apply elem_of_empty in Hid.
  - intros [= <- _ <-]. split; [done|]. split; [|done]. intros a x y z _ Hh. unfold holds_chunk, all_files in *. by rewrite Hu1.
Qed.

(** C20: repair of a replicated object does what it reports and does no harm, whatever fails
    on the way. No record changes; every chunk of any object that a node held with its
    right checksum and length is still held; and if the object is reported repaired,
    every live node its manifest names had a file of the name of each of its chunks, or
    has been given a copy with exactly the checksum and length of the manifest. *)
Theorem repairObject_restores (o : MetaObject) (st st' : Stats) (w w' : World) (err : option error) :
  responsible c (o_Key o) = true -> m_Coding (o_Manifest o) = zeroScheme -> consistent (m_Chunks (o_Manifest o)) ->
  repairObject c o st w = (err, st', w') ->
  w_etcd w' = w_etcd w /\ keeps_all (m_Chunks (o_Manifest o)) w w' /\
  (err = None -> forall ref n, ref ∈ m_Chunks (o_Manifest o) -> n ∈ m_Nodes (o_Manifest o) ->
     is_Some (mb_peers (live c) !! n) ->
     has_file w (place_addr c (live c) n) (c_ID ref) \/
     holds_chunk w' (place_addr c (live c) n) (c_ID ref) (c_CRC ref) (c_Size ref)).
Proof. apply repairObject_spec. Qed.
End repair_claims.

(** ** What scrubbing leaves on this disk *)

Section scrub_facts.
Context {E : Type} `{!Etcd doc E} {rs : ReedSolomon} (c : Coordinator).
Abbreviation World := (world E).

(** This node's copy is there and is the data the manifest describes. *)
Definition intact (w : World) (ref : ChunkRef) : Prop :=
  exists fs i, w_stores w !! c_addr c = Some fs /\ fs_entries fs !! chunkPath (c_ID ref) = Some i /\
    crc32c (in_data i) = c_CRC ref.

(** What one step on behalf of [ref] does to this disk: files stay, and the ones that were
    right stay right. *)
Definition improves (ref : ChunkRef) (w w' : World) : Prop :=
  w_etcd w' = w_etcd w /\
  (forall id, has_file w (c_addr c) id -> has_file w' (c_addr c) id) /\
  (forall r, (c_ID r = c_ID ref -> c_CRC r = c_CRC ref) -> intact w r -> intact w' r).

Lemma improves_untouched ref (w w' : World) : untouched_world w w' -> improves ref w w'.
Proof.
  intros [Hs He]. split; [done|]. split.
  - intros id (fs & Hfs & Hi). exists fs. by rewrite Hs.
  - intros r _ (fs & i & Hfs & Hi). exists fs, i. by rewrite Hs.
Qed.

Lemma improves_trans ref (w1 w2 w3 : World) : improves ref w1 w2 -> improves ref w2 w3 -> improves ref w1 w3.
Proof. intros (? & H1 & H2) (? & H3 & H4). split; [congruence|]. split; eauto. Qed.

Lemma local_write_improves ref src (w w' : World) err :
  local_write (c_addr c) (c_ID ref) src (c_CRC ref) (c_Size ref) w = (err, w') ->
  improves ref w w' /\ (err = None -> intact w' ref).
Proof.
  intros H. pose proof (local_write_spec _ _ _ _ _ _ _ _ H) as (He & _ & _ & Hok). revert H.
  unfold local_write. simpl. destruct (w_stores w !! c_addr c) as [fs|] eqn:Hfs.
  2: { intros [= <- <-]. split; [by apply improves_untouched | done]. }
  destruct (WriteChunkVerified _ _ _ _ _ _ _ _) as [[e fs'] tr] eqn:Hw. intros [= <- <-].
  assert (Hent : forall x i, fs_entries fs !! chunkPath x = Some i -> exists j, fs_entries fs' !! chunkPath x = Some j /\
    (j = i \/ x = c_ID ref /\ crc32c (in_data j) = c_CRC ref)).
  { intros x i Hi. destruct (verified_write_states _ _ _ _ _ _ _ _ _ _ _ fs' Hw ltac:(by left))
      as [(He' & _)|(_ & _ & [Hvc _] & (He' & _))]; rewrite He'; [eauto|]. destruct (decide (x = c_ID ref)) as [->|Hne].
    - rewrite lookup_insert_eq. eexists. split; [done|]. by right.
    - rewrite lookup_insert_ne by (unfold chunkPath; congruence). eauto. }
  split.
  - split; [done|]. split.
    + intros id (fs0 & Hfs0 & [i Hi]). rewrite Hfs in Hfs0. injection Hfs0 as <-. destruct (Hent id i Hi) as (j & Hj & _).
      exists fs'. simpl. rewrite lookup_insert_eq. eauto.
    + intros r Hr (fs0 & i & Hfs0 & Hi & Hcrc). rewrite Hfs in Hfs0. injection Hfs0 as <-.
      destruct (Hent (c_ID r) i Hi) as (j & Hj & Hc). exists fs', j. simpl. rewrite lookup_insert_eq. split; [done|].
      split; [done|]. destruct Hc as [->|[Hid Hj']]; [done|]. rewrite Hj'. symmetry. auto.
  - intros ->. destruct (Hok eq_refl) as (fs0 & Hfs0 & (i & Hi & Hcrc & _)%disk_holds_file). exists fs0, i. done.
Qed.

Lemma rebuild_improves ref lv : forall nodes errs (w w' : World) err,
  rebuild_loop c ref nodes lv errs w = (err, w') -> improves ref w w' /\ (err = None -> intact w' ref).
Proof.
  induction nodes as [|n nodes IH]; intros errs w w' err; cbn [rebuild_loop].
  { intros [= <- <-]. split; [by apply improves_untouched | done]. }
  destruct (_ || _); [apply IH|].
  destruct (FetchChunk _ _ _ _) as [[src|e] w1] eqn:Hf; apply FetchChunk_world, (improves_untouched ref) in Hf.
  - destruct (local_write _ _ _ _ _ _) as [[e|] w2] eqn:Hw; apply local_write_improves in Hw as [Hi Hok].
    + intros [Hi' Hok']%IH. split; [|done]. eapply improves_trans; [exact Hf|]. by eapply improves_trans.
    + intros [= <- <-]. split; [by eapply improves_trans | done].
  - intros [Hi' Hok']%IH. split; [by eapply improves_trans | done].
Qed.

Lemma verifyLocal_intact ref (w w' : World) err : verifyLocal c ref w = (err, w') ->
  untouched_world w w' /\ (err = None -> intact w ref).
Proof.
  unfold verifyLocal. destruct (local_read _ _ _ _) as [[rc|e] w1] eqn:Hl; pose proof (local_read_world _ _ _ _ _ _ Hl) as Hu;
    intros [= <- <-]; (split; [done|]); [|done].
  intros Hend. unfold drain in Hend. unfold local_read in Hl. simpl in Hl.
  destruct (w_stores w !! c_addr c) as [fs|] eqn:Hfs; [|done]. unfold ReadChunk in Hl.
  destruct (validateID (c_ID ref)); [done|]. destruct (fs_entries fs !! chunkPath (c_ID ref)) as [i|] eqn:Hi; [|done].
  destruct (f_open _); [done|]. injection Hl as <- _. exists fs, i. split; [done|]. split; [done|].
  rewrite Verify_file in Hend by (intros; apply app_nil_r). simpl in Hend. destruct (_ <? _); [done|].
  by destruct (Z.eqb_spec (crc32c (in_data i)) (c_CRC ref)).
Qed.

Lemma local_has_spec addr id (w w' : World) r : local_has addr id w = (r, w') ->
  untouched_world w w' /\ (r = Ok false -> has_file w addr id -> False).
Proof.
  unfold local_has. simpl. destruct (w_stores w !! addr) as [fs|] eqn:Hfs; intros [= <- <-]; (split; [done|]); [|done].
  unfold HasChunk. destruct (validateID id); [done|]. destruct (f_stat _); [done|]. intros [= Hb] (fs0 & Hfs0 & Hi).
  apply bool_decide_eq_false in Hb. simplify_eq. done.
Qed.

Lemma scrub_chunk_spec ref nodes lv st (w w' : World) err st' : scrub_chunk c ref nodes lv st w = (err, st', w') ->
  improves ref w w' /\ (err = None -> has_file w (c_addr c) (c_ID ref) -> intact w' ref).
Proof.
  unfold scrub_chunk. destruct (local_has _ _ _) as [[[]|e] w1] eqn:Hh; apply local_has_spec in Hh as [Hu Hno].
  - pose proof (improves_untouched ref _ _ Hu) as Hi1.
    destruct (verifyLocal c ref w1) as [[e|] w2] eqn:Hv; apply verifyLocal_intact in Hv as [Hu2 Hok];
      pose proof (improves_untouched ref _ _ Hu2) as Hi2.
    + destruct (errors_Is e ErrChecksumMismatch); simpl.
      * unfold rebuildFromPeers. destruct (rebuild_loop _ _ _ _ _ _) as [[e'|] w3] eqn:Hr; apply rebuild_improves in Hr as [Hi3 Hok3];
          intros [= <- _ <-]; (split; [eapply improves_trans; [exact Hi1|]; by eapply improves_trans|]); [done | auto].
      * intros [= <- _ <-]. split; [by eapply improves_trans | done].
    + intros [= <- _ <-]. split; [by eapply improves_trans|]. intros _ _. apply Hi2; [done|]. auto.
  - intros [= <- _ <-]. split; [by apply improves_untouched|]. intros _ Hf. exfalso. auto.
  - intros [= <- _ <-]. split; [by apply improves_untouched | done].
Qed.

Lemma scrub_chunks_spec all nodes lv : consistent all -> forall refs errs st (w w' : World) errs' st',
  (forall r, r ∈ refs -> r ∈ all) -> scrub_chunks c refs nodes lv errs st w = (errs', st', w') ->
  w_etcd w' = w_etcd w /\
  (forall r, r ∈ all -> intact w r -> intact w' r) /\
  exists more, errs' = errs ++ more /\
    (more = [] -> forall r, r ∈ refs -> has_file w (c_addr c) (c_ID r) -> intact w' r).
Proof.
  intros [_ Hcons]. induction refs as [|ref refs IH]; intros errs st w w' errs' st' Hsub; cbn [scrub_chunks].
  { intros [= <- _ <-]. split; [done|]. split; [done|]. exists []. rewrite app_nil_r. split; [done|].
    intros _ r Hr. by apply elem_of_nil in Hr. }
  destruct (scrub_chunk _ _ _ _ _ _) as [[err st1] w1] eqn:Hs. apply scrub_chunk_spec in Hs as [(He1 & Hf1 & Hi1) Hok1].
  intros (He & Hk & more & Hm & Hok)%IH; [|intros r Hr; apply Hsub; by right].
  assert (Hin : ref ∈ all) by (apply Hsub; left).
  assert (Hi1' : forall r, r ∈ all -> intact w r -> intact w1 r).
  { intros r Hr. apply Hi1. intros Hid. by apply (Hcons r ref). }
  split; [congruence|]. split; [auto|]. destruct err as [e|].
  - exists (e :: more). rewrite <- app_assoc in Hm. split; [exact Hm | done].
  - exists more. split; [done|]. intros Hnil r [->|Hr]%elem_of_cons Hf; [|auto]. apply Hk; [done|]. auto.
Qed.
End scrub_facts.

Section scrub_claims.
Context {E : Type} `{!Etcd doc E} {rs : ReedSolomon} (c : Coordinator).

(** C21: scrubbing a replicated object leaves this node's copies right. If it reports no
    error, every copy of the object's chunks that was on this disk, rotted or not, is
    there afterwards with the manifest's checksum; and whatever it reports, a copy that
    was right is still right and no record has changed. *)
Theorem scrubObject_heals (o : MetaObject) (st st' : ScrubStats) (w w' : world E) (err : option error) :
  m_Coding (o_Manifest o) = zeroScheme -> consistent (m_Chunks (o_Manifest o)) ->
  scrubObject c o st w = (err, st', w') ->
  w_etcd w' = w_etcd w /\
  (forall ref, ref ∈ m_Chunks (o_Manifest o) -> intact c w ref -> intact c w' ref) /\
  (err = None -> forall ref, ref ∈ m_Chunks (o_Manifest o) -> has_file w (c_addr c) (c_ID ref) -> intact c w' ref).
Proof.
  intros Hcod Hcons. unfold scrubObject. rewrite bool_decide_false by tauto.
  destruct (scrub_chunks _ _ _ _ _ _ _) as [[errs st1] w1] eqn:Hs. intros [= <- _ <-].
  apply (scrub_chunks_spec c (m_Chunks (o_Manifest o))) in Hs as (He & Hk & more & Hm & Hok); [|done..].
  split; [done|]. split; [done|]. rewrite app_nil_l in Hm. subst errs. intros Hn. apply Hok. by destruct more.
Qed.
End scrub_claims.

(** ** At concrete inputs *)

Definition heal_c : Coordinator :=
  mk_Coordinator "n1" 2 "a1"
    (Some (mk_membership {["n1" := "a1"; "n2" := "a2"]} ∅ (Ring.New ["n1"] 1))) 4 zeroScheme.
Definition heal_o : MetaObject :=
  mk_Object "z" (mk_Manifest 4 "" "" 0 ∅ ["n1"; "n2"] [chunk_ref "A" 0 (to_bytes "data")] zeroScheme None None None []) 1.
Definition rotten_fs : FS := (WriteChunk no_faults "t" 0 empty_fs "A000000" (demo_source "rot!")).1.2.

Lemma heal_consistent : consistent (m_Chunks (o_Manifest heal_o)).
Proof.
  split; [by repeat constructor; vm_compute|].
  intros r r' Hr Hr' _. apply list_elem_of_singleton in Hr, Hr'. subst. done.
Qed.

Abbreviation heal_ref := (chunk_ref "A" 0 (to_bytes "data")).
Abbreviation lost_w := (mk_world {["a1" := gc_fs; "a2" := empty_fs]} demo0 [] 0 0 : world demoE).
Abbreviation heal_run := (@repairObject demoE xor_codec heal_c heal_o (mk_Stats 0 0 0 0 0) lost_w) (only parsing).

(** The second node's disk is empty, and the copy it should have comes back. *)
Lemma repairObject_restores_witness :
  holds_chunk heal_run.2 "a2" (c_ID heal_ref) (c_CRC heal_ref) (c_Size heal_ref).
Proof.
  assert (Herr : heal_run.1.1 = None) by (vm_compute; reflexivity).
  destruct heal_run as [[err st'] w'] eqn:H. cbn [fst snd] in *. subst err.
  destruct (@repairObject_restores demoE xor_codec heal_c heal_o (mk_Stats 0 0 0 0 0) st' lost_w w' None) as (_ & _ & Hok).
  - vm_compute. reflexivity.
  - reflexivity.
  - exact heal_consistent.
  - exact H.
  - destruct (Hok eq_refl heal_ref "n2") as [(fs & Hfs & [i Hi])|Hh].
    + left.
    + right. left.
    + vm_compute. eauto.
    + exfalso. vm_compute in Hfs. injection Hfs as <-. vm_compute in Hi. discriminate.
    + exact Hh.
Defined.

Abbreviation rotten_w := (mk_world {["a1" := rotten_fs; "a2" := gc_fs]} demo0 [] 0 0 : world demoE).
Abbreviation scrub_run := (@scrubObject demoE xor_codec heal_c heal_o (mk_ScrubStats 0 0 0 0 0) rotten_w) (only parsing).

(** This node's copy has rotted, and the peer's replaces it. *)
Lemma scrubObject_heals_witness : intact heal_c scrub_run.2 heal_ref.
Proof.
  assert (Herr : scrub_run.1.1 = None) by (vm_compute; reflexivity).
  destruct scrub_run as [[err st'] w'] eqn:H. cbn [fst snd] in *. subst err.
  destruct (@scrubObject_heals demoE xor_codec heal_c heal_o (mk_ScrubStats 0 0 0 0 0) st' rotten_w w' None) as (_ & _ & Hok).
  - reflexivity.
  - exact heal_consistent.
  - exact H.
  - apply Hok; [reflexivity | left|]. exists rotten_fs. split; [vm_compute; reflexivity|]. vm_compute. eauto.
Defined.
