(* ===== verification/Rebalance.v ===== *)
(** * Moving objects to their owners: [internal/cluster/rebalance.go]

    When the ring no longer names the nodes a manifest does, the first owner copies the
    chunks to the new owners and then commits a manifest that names them, unless the
    object changed meanwhile. *)

From S2P Require Import Prelude GoStr Strconv Path Hash Crc Ring Ec Object Store Etcd Meta Node Cluster Collect Repair.

Record RebalanceStats := mk_RebalanceStats {
  rb_Objects : Z; rb_Misplaced : Z; rb_Moved : Z; rb_Copies : Z; rb_Bytes : Z; rb_Raced : Z; rb_Failed : Z
}.

Definition add_rebalance (a : RebalanceStats) (objects misplaced moved copies bytes_ raced failed : Z) : RebalanceStats :=
  mk_RebalanceStats (rb_Objects a + objects) (rb_Misplaced a + misplaced) (rb_Moved a + moved) (rb_Copies a + copies)
    (rb_Bytes a + bytes_) (rb_Raced a + raced) (rb_Failed a + failed).

Definition with_nodes (m : Manifest) (nodes : list string) : Manifest :=
  mk_Manifest (m_Size m) (m_ETag m) (m_ContentType m) (m_Modified m) (m_Meta m) nodes (m_Chunks m) (m_Coding m)
    (m_CRC32C m) (m_CRC32 m) (m_CRC64NVME m) (m_Parts m).

(** The positions of a coded object that another node takes over. *)
Fixpoint moved_positions (want nodes : list string) (i : Z) : list Z :=
  match want with
  | [] => []
  | n :: want' =>
      (if bool_decide (head nodes = Some n) then [] else [i]) ++ moved_positions want' (tail nodes) (i + 1)
  end.

Section rebalance.
Context {E : Type} `{!Etcd doc E} {rs : ReedSolomon} (prefix : string) (c : Coordinator).
Abbreviation World := (world E).

Definition copyChunk (m : Manifest) (ref : ChunkRef) (node : string) (lv : membership) (w : World) : option error * World :=
  match fetch c ref (m_Nodes m) w with
  | (Err e, w1) => (Some e, w1)
  | (Ok src, w1) => write_to c node ref src lv w1
  end.

(** One chunk to every owner that is new to the object: the copies made and the errors. *)
Fixpoint copy_to (m : Manifest) (ref : ChunkRef) (want : list string) (lv : membership) (copies moved : Z) (errs : list error)
    (w : World) : Z * Z * list error * World :=
  match want with
  | [] => (copies, moved, errs, w)
  | n :: want' =>
      if bool_decide (n ∈ m_Nodes m) then copy_to m ref want' lv copies moved errs w
      else match copyChunk m ref n lv w with
           | (Some e, w1) => copy_to m ref want' lv copies moved (errs ++ [e]) w1
           | (None, w1) => copy_to m ref want' lv (copies + 1) (moved + c_Size ref) errs w1
           end
  end.

Fixpoint copy_all (m : Manifest) (refs : list ChunkRef) (want : list string) (lv : membership) (copies moved : Z)
    (errs : list error) (w : World) : Z * Z * list error * World :=
  match refs with
  | [] => (copies, moved, errs, w)
  | ref :: refs' =>
      let '(copies1, moved1, errs1, w1) := copy_to m ref want lv copies moved errs w in
      copy_all m refs' want lv copies1 moved1 errs1 w1
  end.

Fixpoint move_all (m : Manifest) (refs : list ChunkRef) (want : list string) (missing : list Z) (lv : membership)
    (copies moved : Z) (errs : list error) (w : World) : Z * Z * list error * World :=
  match refs with
  | [] => (copies, moved, errs, w)
  | ref :: refs' =>
      match restoreShards c ref (m_Nodes m) want missing (m_Coding m) lv w with
      | (Some e, w1) => move_all m refs' want missing lv copies moved (errs ++ [e]) w1
      | (None, w1) =>
          move_all m refs' want missing lv (copies + zlen missing)
            (moved + zlen missing * shardSize (c_Size ref) (m_Coding m)) errs w1
      end
  end.

Definition moveShards (m : Manifest) (want : list string) (lv : membership) (w : World) : Z * Z * option error * World :=
  let missing := moved_positions want (m_Nodes m) 0 in
  if bool_decide (missing = []) then (0, 0, None, w)
  else let '(copies, moved, errs, w') := move_all m (m_Chunks m) want missing lv 0 0 [] w in
       (copies, moved, join_errs errs, w').

Definition copyToNewOwners (m : Manifest) (want : list string) (lv : membership) (w : World) : Z * Z * option error * World :=
  if bool_decide (m_Coding m <> zeroScheme) then moveShards m want lv w
  else let '(copies, moved, errs, w') := copy_all m (m_Chunks m) want lv 0 0 [] w in
       (copies, moved, join_errs errs, w').

Definition new_owners (o : MetaObject) : list string :=
  Owners (mb_ring (live c)) (PartitionFor (o_Key o)) (redundancy (o_Manifest o)).

Definition rebalanceObject (o : MetaObject) (st : RebalanceStats) (w : World) : option error * RebalanceStats * World :=
  let lv := live c in
  if negb (responsible c (o_Key o)) then (None, st, w)
  else
    let st1 := add_rebalance st 1 0 0 0 0 0 0 in
    let m := o_Manifest o in
    let want := new_owners o in
    if zlen want <? zlen (m_Nodes m) then (None, st1, w)
    else if bool_decide (want = m_Nodes m) then (None, st1, w)
    else
      let '(copies, moved, err, w1) := copyToNewOwners m want lv w in
      let st2 := add_rebalance st1 0 1 0 copies moved 0 0 in
      match err with
      | Some e => (Some e, st2, w1)
      | None =>
          match on_meta (CommitIfUnchanged prefix (o_Key o) (with_nodes m want) (o_Revision o)) w1 with
          | (Err e, w2) =>
              if errors_Is e ErrChanged then (None, add_rebalance st2 0 0 0 0 0 1 0, w2) else (Some e, st2, w2)
          | (Ok _, w2) => (None, add_rebalance st2 0 0 1 0 0 0 0, w2)
          end
      end.

Definition Rebalance (fuel : nat) (w : World) : option (res unit * RebalanceStats * World) :=
  walk prefix c "rebalance"
    (fun o st w => match rebalanceObject o st w with
                   | (Some e, st', w') => (Some e, add_rebalance st' 0 0 0 0 0 0 1, w')
                   | r => r
                   end) fuel (mk_RebalanceStats 0 0 0 0 0 0 0) w.
End rebalance.

(** ** A move is committed after the copies are made *)

Section rebalance_facts.
Context {E : Type} `{!Etcd doc E} `{!EtcdLaws doc E} {rs : ReedSolomon} (prefix : string) (c : Coordinator).
Abbreviation World := (world E).

Lemma copy_to_spec m ref lv : 0 <= c_CRC ref < 2 ^ 32 -> forall want copies moved errs (w w' : World) k b errs',
  copy_to c m ref want lv copies moved errs w = (k, b, errs', w') ->
  w_etcd w' = w_etcd w /\ keeps w w' (c_ID ref) (c_CRC ref) (c_Size ref) /\
  exists more, errs' = errs ++ more /\
    (more = [] -> forall n, n ∈ want -> n ∉ m_Nodes m ->
       holds_chunk w' (place_addr c lv n) (c_ID ref) (c_CRC ref) (c_Size ref)).
Proof.
  intros Hc. induction want as [|n want IH]; intros copies moved errs w w' k b errs'; cbn [copy_to].
  { intros [= _ _ <- <-]. split; [done|]. split; [by apply keeps_refl|]. exists []. rewrite app_nil_r. split; [done|].
    intros _ n Hn. by apply elem_of_nil in Hn. }
  case_bool_decide as Hin.
  { intros (He & Hk & more & Hm & Hok)%IH. split; [done|]. split; [done|]. exists more. split; [done|].
    intros Hnil x [->|Hx]%elem_of_cons Hnot; [done | auto]. }
  change (copyChunk c m ref n lv w) with (restore c n ref (m_Nodes m) lv w).
  destruct (restore c n ref (m_Nodes m) lv w) as [[e|] w1] eqn:Hr; apply restore_spec in Hr as (He1 & Hk1 & Hok1); try done;
    intros (He & Hk & more & Hm & Hok)%IH; (split; [congruence|]); (split; [by eapply keeps_trans|]).
  - exists (e :: more). rewrite <- app_assoc in Hm. split; [exact Hm | done].
  - exists more. split; [done|]. intros Hnil x [->|Hx]%elem_of_cons Hnot; [|auto]. apply Hk; [done|]. auto.
Qed.

Lemma copy_all_spec all m want lv : consistent all -> forall refs copies moved errs (w w' : World) k b errs',
  (forall r, r ∈ refs -> r ∈ all) -> copy_all c m refs want lv copies moved errs w = (k, b, errs', w') ->
  w_etcd w' = w_etcd w /\ keeps_all all w w' /\
  exists more, errs' = errs ++ more /\
    (more = [] -> forall r n, r ∈ refs -> n ∈ want -> n ∉ m_Nodes m ->
       holds_chunk w' (place_addr c lv n) (c_ID r) (c_CRC r) (c_Size r)).
Proof.
  intros [Hcrc Hcons]. rewrite Forall_forall in Hcrc.
  induction refs as [|ref refs IH]; intros copies moved errs w w' k b errs' Hsub; cbn [copy_all].
  { intros [= _ _ <- <-]. split; [done|]. split; [intros a x y z _ H; exact H|]. exists []. rewrite app_nil_r. split; [done|].
    intros _ r n Hr. by apply elem_of_nil in Hr. }
  assert (Hin : ref ∈ all) by (apply Hsub; left).
  destruct (copy_to _ _ _ _ _ _ _ _ _) as [[[k1 b1] errs1] w1] eqn:Hc. apply copy_to_spec in Hc as (He1 & Hk1 & more1 & -> & Hok1); [|by apply Hcrc].
  intros (He & Hk & more & -> & Hok)%IH; [|intros r Hr; apply Hsub; by right].
  split; [congruence|]. split.
  { intros a x y z Hx Hh. apply Hk; [done|]. by eapply (keeps_to_all ref all). }
  exists (more1 ++ more). split; [by rewrite app_assoc|].
  intros [-> ->]%app_eq_nil r n [->|Hr]%elem_of_cons Hn Hnot; [|auto]. apply Hk; [|auto]. intros r' Hr' Hid. apply Hcons; done.
Qed.

(** *** Shards *)

(** The checksum the manifest has for a shard. *)
Definition shard_sum (ref : ChunkRef) (i : Z) : Z := default 0 (c_Shards ref !! Z.to_nat i).

(** A pass over the shards of [refs] takes nothing away that has the right checksum. *)
Definition keeps_shards (refs : list ChunkRef) (w w' : World) : Prop :=
  forall addr x crc, (forall r i, r ∈ refs -> 0 <= i -> ShardID r i = x -> crc = shard_sum r i) ->
    holds_sum w addr x crc -> holds_sum w' addr x crc.

Definition shards_consistent (refs : list ChunkRef) : Prop :=
  (forall r i, r ∈ refs -> 0 <= shard_sum r i < 2 ^ 32) /\
  forall r r' i i', r ∈ refs -> r' ∈ refs -> 0 <= i -> 0 <= i' -> ShardID r i = ShardID r' i' ->
    shard_sum r i = shard_sum r' i'.

Lemma storeShard_spec node ref i shard lv (w w' : World) err : 0 <= shard_sum ref i < 2 ^ 32 ->
  storeShard c node ref i shard lv w = (err, w') ->
  w_etcd w' = w_etcd w /\ keeps_files w w' (ShardID ref i) (shard_sum ref i) (zlen shard) /\
  (err = None -> holds_sum w' (place_addr c lv node) (ShardID ref i) (shard_sum ref i)).
Proof.
  intros Hc. unfold storeShard, place_addr. fold (shard_sum ref i). destruct (String.eqb node (c_self c)).
  - intros (? & _ & ? & Hok)%local_write_files. split_and!; [done..|]. intros He. eapply holds_chunk_sum. auto.
  - intros (? & _ & ? & Hok)%PushChunk_files; [|done]. split_and!; [done..|]. intros He. eapply holds_chunk_sum. auto.
Qed.

Lemma keeps_files_shards all ref i size (w w' : World) : ref ∈ all -> 0 <= i ->
  keeps_files w w' (ShardID ref i) (shard_sum ref i) size -> keeps_shards all w w'.
Proof.
  intros Hin Hi H addr x crc Hx. apply H. intros -> j (Hs & Hj & _). split; [done|]. rewrite Hj. symmetry. by apply Hx.
Qed.

Lemma keeps_shards_refl all (w w' : World) : w_stores w' = w_stores w -> keeps_shards all w w'.
Proof. intros Hs addr x crc _. unfold holds_sum, all_files. by rewrite Hs. Qed.

Lemma keeps_shards_trans all (w1 w2 w3 : World) : keeps_shards all w1 w2 -> keeps_shards all w2 w3 -> keeps_shards all w1 w3.
Proof. intros H1 H2 a x z Hx H. apply H2; [done|]. by apply H1. Qed.

(** The owner of position [i] among [to_] has the shard. *)
Definition shard_placed (lv : membership) (to_ : list string) (w : World) (ref : ChunkRef) (i : Z) : Prop :=
  holds_sum w (place_addr c lv (default "" (to_ !! Z.to_nat i))) (ShardID ref i) (shard_sum ref i).

Lemma keeps_placed all lv to_ (w w' : World) ref i : shards_consistent all -> ref ∈ all -> 0 <= i ->
  keeps_shards all w w' -> shard_placed lv to_ w ref i -> shard_placed lv to_ w' ref i.
Proof. intros [_ Hcons] Hin Hi Hk. apply Hk. intros r' i' Hr' Hi' Heq. symmetry. by apply Hcons. Qed.

Lemma place_shards_spec all to_ ref slots lv : shards_consistent all -> ref ∈ all ->
  forall missing (w w' : World) es ok, Forall (fun i => 0 <= i) missing ->
  place_shards c to_ ref missing slots lv w = (es, ok, w') ->
  w_etcd w' = w_etcd w /\ keeps_shards all w w' /\
  (ok = true -> Forall (shard_placed lv to_ w' ref) missing).
Proof.
  intros Hcons Hin. induction missing as [|i missing IH]; intros w w' es ok Hnn; cbn [place_shards].
  { intros [= _ <- <-]. split_and!; [done | by apply keeps_shards_refl | constructor]. }
  apply Forall_cons in Hnn as [Hi Hnn].
  destruct (storeShard _ _ _ _ _ _ _) as [err w1] eqn:Hst.
  apply storeShard_spec in Hst as (He1 & Hk1 & Hok1); [|by apply Hcons].
  eapply (keeps_files_shards all) in Hk1; [|done..].
  destruct (place_shards _ _ _ _ _ _ _) as [[es2 ok2] w2] eqn:Hp. apply IH in Hp as (He2 & Hk2 & Hok2); [|done].
  intros H. assert (w2 = w' /\ (ok = true -> err = None /\ ok2 = true)) as [<- Hboth]
    by (destruct err; injection H as _ <- <-; split; [done | by intros | done | auto]).
  split; [congruence|]. split; [by eapply keeps_shards_trans|]. intros [-> ->]%Hboth.
  constructor; [|auto]. eapply (keeps_placed all); [done..|]. by apply Hok1.
Qed.

Lemma restoreShards_spec all to_ ref from missing scheme lv (w w' : World) err :
  shards_consistent all -> ref ∈ all -> Forall (fun i => 0 <= i) missing ->
  restoreShards c ref from to_ missing scheme lv w = (err, w') ->
  w_etcd w' = w_etcd w /\ keeps_shards all w w' /\
  (err = None -> Forall (shard_placed lv to_ w' ref) missing).
Proof.
  intros Hcons Hin Hnn. unfold restoreShards. destruct (gather _ _ _ _ _ _ _ _ _) as [[slots e] w1] eqn:Hg.
  apply gather_world in Hg as [Hs1 He1].
  destruct (Reconstruct _ _ _) as [[d slots']|e'].
  - destruct (place_shards _ _ _ _ _ _ _) as [[es ok] w2] eqn:Hp. intros H.
    eapply (place_shards_spec all) in Hp as (He2 & Hk2 & Hok2); [|done..].
    assert (w2 = w' /\ (err = None -> ok = true)) as [<- Hok] by (destruct ok; injection H as <- <-; split; done).
    split; [congruence|]. split; [|auto]. eapply keeps_shards_trans; [by apply keeps_shards_refl | done].
  - intros [= <- <-]. split; [done|]. split; [by apply keeps_shards_refl | done].
Qed.

Lemma move_all_spec all m want missing lv : shards_consistent all -> Forall (fun i => 0 <= i) missing ->
  forall refs copies moved errs (w w' : World) k b errs', (forall r, r ∈ refs -> r ∈ all) ->
  move_all c m refs want missing lv copies moved errs w = (k, b, errs', w') ->
  w_etcd w' = w_etcd w /\ keeps_shards all w w' /\
  exists more, errs' = errs ++ more /\
    (more = [] -> Forall (fun r => Forall (shard_placed lv want w' r) missing) refs).
Proof.
  intros Hcons Hnn. induction refs as [|ref refs IH]; intros copies moved errs w w' k b errs' Hsub; cbn [move_all].
  { intros [= _ _ <- <-]. split; [done|]. split; [by apply keeps_shards_refl|]. exists []. by rewrite app_nil_r. }
  assert (Hin : ref ∈ all) by (apply Hsub; left).
  assert (Hsub' : forall r, r ∈ refs -> r ∈ all) by (intros r Hr; apply Hsub; by right).
  destruct (restoreShards _ _ _ _ _ _ _ _) as [[e|] w1] eqn:Hr;
    eapply (restoreShards_spec all) in Hr as (He1 & Hk1 & Hok1); try done;
    intros (He & Hk & more & Hm & Hok)%IH; try done; (split; [congruence|]); (split; [by eapply keeps_shards_trans|]).
  - exists (e :: more). rewrite <- app_assoc in Hm. split; [exact Hm | done].
  - exists more. split; [done|]. intros Hnil. constructor; [|auto].
    eapply Forall_impl; [exact (proj2 (Forall_and _ _) (conj Hnn (Hok1 eq_refl)))|]. intros i [Hi Hp]. by eapply (keeps_placed all).
Qed.

Lemma CommitIfUnchanged_cases k m rev (e e' : E) r : 0 < rev -> CommitIfUnchanged prefix k m rev e = (r, e') ->
  let committed := (exists x, es_kvs (e_state e) !! key prefix k = Some x /\ kv_mod x = rev) /\
                   e_state e' = put (e_state e) (key prefix k) (DManifest (json_manifest m)) in
  match r with Ok _ => committed | Err _ => e_state e' = e_state e \/ committed end.
Proof.
  intros Hrev H. unfold CommitIfUnchanged in H.
  assert (Hif : forallb (holds (e_state e)) [CmpModEq (key prefix k) rev] = true ->
    exists x, es_kvs (e_state e) !! key prefix k = Some x /\ kv_mod x = rev).
  { cbn [forallb holds]. destruct (es_kvs (e_state e) !! key prefix k) as [x|]; intros Hb; bool_facts; [|lia].
    exists x. split; [done | lia]. }
  meta_cases H; apply e_write_law in Hc.
  - apply txn_true in Hc as [Hf Hs]. split; auto.
  - apply txn_false in Hc as [_ Hs]. by left.
  - destruct Hc as [_ [Hs|Hs]]; [by left|]. cbn [apply] in Hs.
    destruct (forallb _ _) eqn:Hf; simpl in Hs; [right; split; auto | by left].
Qed.
End rebalance_facts.

Section rebalance_claims.
Context {E : Type} `{!Etcd doc E} `{!EtcdLaws doc E} {rs : ReedSolomon} (prefix : string) (c : Coordinator).
Abbreviation World := (world E).

(** Every owner that is new to the object holds what it is now named for: of a replicated
    object every chunk, of a coded one the shard of its position of every chunk. *)
Definition new_owners_hold (m : Manifest) (want : list string) (w : World) : Prop :=
  if decide (m_Coding m = zeroScheme) then
    forall ref n, ref ∈ m_Chunks m -> n ∈ want -> n ∉ m_Nodes m ->
      holds_chunk w (place_addr c (live c) n) (c_ID ref) (c_CRC ref) (c_Size ref)
  else
    forall ref i n, ref ∈ m_Chunks m -> want !! i = Some n -> m_Nodes m !! i <> Some n ->
      holds_sum w (place_addr c (live c) n) (ShardID ref (Z.of_nat i)) (shard_sum ref (Z.of_nat i)).

(** Nothing any node held is gone. *)
Definition nothing_lost (m : Manifest) (w w' : World) : Prop :=
  if decide (m_Coding m = zeroScheme) then keeps_all (m_Chunks m) w w' else keeps_shards (m_Chunks m) w w'.

(** The checksums of a manifest fit their fields, and one name has one checksum. *)
Definition sums_consistent (m : Manifest) : Prop :=
  if decide (m_Coding m = zeroScheme) then consistent (m_Chunks m) else shards_consistent (m_Chunks m).

(** The object as it was read has been replaced by one on its new owners, which hold it. *)
Definition moved_to (o : MetaObject) (w w' : World) : Prop :=
  let want := new_owners c o in
  (exists x, es_kvs (e_state (w_etcd w)) !! key prefix (o_Key o) = Some x /\ kv_mod x = o_Revision o) /\
  e_state (w_etcd w') = put (e_state (w_etcd w)) (key prefix (o_Key o)) (DManifest (json_manifest (with_nodes (o_Manifest o) want))) /\
  zlen (m_Nodes (o_Manifest o)) <= zlen want /\ new_owners_hold (o_Manifest o) want w'.

Lemma moved_positions_spec want : forall nodes j i n, want !! i = Some n -> nodes !! i <> Some n ->
  (j + Z.of_nat i) ∈ moved_positions want nodes j.
Proof.
  induction want as [|x want IH]; intros nodes j i n; [done|]. cbn [moved_positions]. rewrite elem_of_app.
  destruct i as [|i]; simpl; intros Hw Hn.
  - left. injection Hw as ->. rewrite bool_decide_false; [|by destruct nodes]. rewrite Z.add_0_r. left.
  - right. replace (j + Z.of_nat (S i)) with ((j + 1) + Z.of_nat i) by lia. apply (IH _ _ _ n); [done|]. by destruct nodes.
Qed.

Lemma moved_positions_nonneg want : forall nodes j, 0 <= j -> Forall (fun i => 0 <= i) (moved_positions want nodes j).
Proof.
  induction want as [|x want IH]; intros nodes j Hj; cbn [moved_positions]; [constructor|].
  apply Forall_app. split; [case_bool_decide; repeat constructor; done | apply IH; lia].
Qed.

Lemma copyToNewOwners_spec m want (w w' : World) k b err :
  sums_consistent m -> copyToNewOwners c m want (live c) w = (k, b, err, w') ->
  w_etcd w' = w_etcd w /\ nothing_lost m w w' /\ (err = None -> new_owners_hold m want w').
Proof.
  intros Hcons. unfold copyToNewOwners, nothing_lost, new_owners_hold, sums_consistent in *.
  destruct (decide (m_Coding m = zeroScheme)) as [Hz|Hz].
  - rewrite bool_decide_false by tauto. destruct (copy_all _ _ _ _ _ _ _ _ _) as [[[k1 b1] errs] w1] eqn:Hc.
    intros [= _ _ <- <-]. apply (copy_all_spec c (m_Chunks m)) in Hc as (He & Hk & more & Hm & Hok); [|done..].
    rewrite app_nil_l in Hm. subst errs. split; [done|]. split; [done|]. intros Hj. apply Hok. by destruct more.
  - rewrite bool_decide_true by done. unfold moveShards. case_bool_decide as Hmiss.
    { intros [= _ _ <- <-]. split; [done|]. split; [by apply keeps_shards_refl|]. intros _ ref i n _ Hw Hn.
      exfalso. pose proof (moved_positions_spec want (m_Nodes m) 0 i n Hw Hn) as H. rewrite Hmiss in H.
      by apply elem_of_nil in H. }
    destruct (move_all _ _ _ _ _ _ _ _ _ _) as [[[k1 b1] errs] w1] eqn:Hc. intros [= _ _ <- <-].
    apply (move_all_spec c (m_Chunks m)) in Hc as (He & Hk & more & Hm & Hok); [|done| by apply moved_positions_nonneg |done].
    rewrite app_nil_l in Hm. subst errs. split; [done|]. split; [done|]. intros Hj ref i n Href Hw Hn.
    assert (Hnil : more = []) by (by destruct more). specialize (Hok Hnil). rewrite Forall_forall in Hok.
    specialize (Hok ref Href). rewrite Forall_forall in Hok. specialize (Hok (Z.of_nat i)).
    unfold shard_placed in Hok. rewrite Nat2Z.id, Hw in Hok. apply Hok.
    pose proof (moved_positions_spec want (m_Nodes m) 0 i n Hw Hn) as H. by rewrite Z.add_0_l in H.
Qed.

Lemma nothing_lost_refl m (w w' : World) : w_stores w' = w_stores w -> nothing_lost m w w'.
Proof.
  intros Hs. unfold nothing_lost. case_decide; [|by apply keeps_shards_refl].
  intros a x y z _. unfold holds_chunk, all_files. by rewrite Hs.
Qed.

Lemma rebalanceObject_spec (o : MetaObject) (st st' : RebalanceStats) (w w' : World) (err : option error) :
  sums_consistent (o_Manifest o) -> 0 < o_Revision o ->
  rebalanceObject prefix c o st w = (err, st', w') ->
  nothing_lost (o_Manifest o) w w' /\
  (e_state (w_etcd w') = e_state (w_etcd w) \/ moved_to o w w') /\
  (rb_Moved st' <> rb_Moved st -> moved_to o w w').
Proof.
  intros Hcons Hrev. unfold rebalanceObject. pose proof (nothing_lost_refl (o_Manifest o) w w eq_refl) as Hid.
  destruct (responsible c (o_Key o)); simpl negb; cbn iota; [|intros [= _ <- <-]; split_and!; [done | by left | done]].
  destruct (Z.ltb_spec (zlen (new_owners c o)) (zlen (m_Nodes (o_Manifest o)))) as [|Hle];
    [intros [= _ <- <-]; split_and!; [done | by left | simpl; lia]|].
  case_bool_decide; [intros [= _ <- <-]; split_and!; [done | by left | simpl; lia]|].
  destruct (copyToNewOwners _ _ _ _ _) as [[[k b] cerr] w1] eqn:Hc.
  apply copyToNewOwners_spec in Hc as (He1 & Hk1 & Hok); [|done].
  destruct cerr as [e|]; [intros [= _ <- <-]; split_and!; [done | left; congruence | simpl; lia]|]. specialize (Hok eq_refl).
  unfold on_meta. destruct (CommitIfUnchanged _ _ _ _ _) as [r e2] eqn:Hcm. apply CommitIfUnchanged_cases in Hcm; [|done].
  rewrite He1 in Hcm.
  assert (Hk2 : nothing_lost (o_Manifest o) w (set_etcd w1 e2)) by exact Hk1.
  assert (Hmv : forall s, e_state e2 = s -> (exists x, es_kvs (e_state (w_etcd w)) !! key prefix (o_Key o) = Some x /\ kv_mod x = o_Revision o) /\
      s = put (e_state (w_etcd w)) (key prefix (o_Key o)) (DManifest (json_manifest (with_nodes (o_Manifest o) (new_owners c o)))) ->
      moved_to o w (set_etcd w1 e2)).
  { intros s <- [Hx Hs]. split; [done|]. split; [done|]. split; [done | exact Hok]. }
  destruct r as [[]|e].
  - intros [= _ <- <-]. split_and!; [done | right; by eapply Hmv | intros _; by eapply Hmv].
  - destruct (errors_Is e ErrChanged); intros [= _ <- <-]; split_and!; try done; simpl; try lia;
      (destruct Hcm as [Hs|Hs]; [left; exact Hs | right; by eapply Hmv]).
Qed.

(** C19: rebalancing never points a manifest at a node before the node has the data. Either
    etcd is left alone, or the manifest has been replaced, provided nobody had changed it
    since it was read, by the same one naming the current owners, at least as many as
    before, and the owners new to the object hold it: of a replicated object each of them
    every chunk, with the manifest's checksum and length; of an erasure-coded one, where
    each position has its own shard, the node a position was given to that shard of every
    chunk, with the checksum the manifest has for it. An object counted as moved was
    moved. Whatever fails, no copy or shard with the right checksum is lost on any node. *)
Theorem rebalance_copies_before_commit (o : MetaObject) (st st' : RebalanceStats) (w w' : World) (err : option error) :
  sums_consistent (o_Manifest o) -> 0 < o_Revision o ->
  rebalanceObject prefix c o st w = (err, st', w') ->
  nothing_lost (o_Manifest o) w w' /\
  (e_state (w_etcd w') = e_state (w_etcd w) \/ moved_to o w w') /\
  (rb_Moved st' <> rb_Moved st -> moved_to o w w').
Proof. apply rebalanceObject_spec. Qed.
End rebalance_claims.

(** ** At a concrete input: an object on [n2] that belongs on [n1] *)

Definition stray_m : Manifest :=
  mk_Manifest 4 "" "" 0 ∅ ["n2"] [chunk_ref "A" 0 (to_bytes "data")] zeroScheme None None None [].
Definition stray_o : MetaObject := mk_Object "z" stray_m 1.
Abbreviation stray_w :=
  (mk_world {["a1" := empty_fs; "a2" := gc_fs]} (Commit "k" "z" stray_m demo0).2 [] 0 0 : world demoE).
Abbreviation stray_run :=
  (@rebalanceObject demoE _ xor_codec "k" heal_c stray_o (mk_RebalanceStats 0 0 0 0 0 0 0) stray_w) (only parsing).

(** And an erasure-coded one whose second shard was on [n4], which is gone: it is rebuilt
    from the other two for [n2]. *)
Definition coded_c : Coordinator :=
  mk_Coordinator "n1" 2 "a1"
    (Some (mk_membership {["n1" := "a1"; "n2" := "a2"; "n3" := "a3"]} ∅ (Ring.New ["n1"; "n2"; "n3"] 1))) 64 twoOne.
Definition coded_m : Manifest := mk_Manifest 5 "" "" 0 ∅ ["n1"; "n4"; "n3"] [ec_ref] twoOne None None None [].
Definition coded_o : MetaObject := mk_Object "c" coded_m 1.
Abbreviation coded_w :=
  (mk_world {["a1" := ec_disk 0; "a2" := empty_fs; "a3" := ec_disk 2]} (Commit "k" "c" coded_m demo0).2 [] 0 0 : world demoE).
Abbreviation coded_run :=
  (@rebalanceObject demoE _ xor_codec "k" coded_c coded_o (mk_RebalanceStats 0 0 0 0 0 0 0) coded_w) (only parsing).

Lemma coded_consistent : shards_consistent [ec_ref].
Proof.
  split.
  - intros r i ->%list_elem_of_singleton. unfold shard_sum. cbn [c_Shards ec_ref].
    destruct (Z.to_nat i) as [|[|[|n]]]; simpl; lia.
  - intros r r' i i' ->%list_elem_of_singleton ->%list_elem_of_singleton Hi Hi' H. by rewrite (ShardID_inj ec_ref i i' Hi Hi' H).
Qed.

Lemma rebalance_copies_before_commit_witness :
  moved_to "k" heal_c stray_o stray_w stray_run.2 /\ moved_to "k" coded_c coded_o coded_w coded_run.2.
Proof.
  split.
  - assert (Hmv : rb_Moved stray_run.1.2 = 1) by (vm_compute; reflexivity).
    destruct stray_run as [[err st'] w'] eqn:H. cbn [fst snd] in *.
    apply (@rebalance_copies_before_commit demoE _ _ xor_codec "k" heal_c stray_o (mk_RebalanceStats 0 0 0 0 0 0 0) st' stray_w w' err).
    + split; [by repeat constructor; vm_compute|].
      intros r r' Hr Hr' _. apply list_elem_of_singleton in Hr, Hr'. subst. split; reflexivity.
    + reflexivity.
    + exact H.
    + rewrite Hmv. discriminate.
  - assert (Hmv : rb_Moved coded_run.1.2 = 1) by (vm_compute; reflexivity).
    destruct coded_run as [[err st'] w'] eqn:H. cbn [fst snd] in *.
    apply (@rebalance_copies_before_commit demoE _ _ xor_codec "k" coded_c coded_o (mk_RebalanceStats 0 0 0 0 0 0 0) st' coded_w w' err).
    + exact coded_consistent.
    + reflexivity.
    + exact H.
    + rewrite Hmv. discriminate.
Defined.
