(* ===== verification/Passes.v ===== *)
(** * Whole passes over the objects: [walk] of [internal/cluster/repair.go]

    Repair, scrubbing and rebalancing are the same walk with a different visit. Here is
    what the walk itself promises of any visit that leaves the set of keys alone: it
    ends, it visits every object once and in key order, from where the last walk
    stopped, and it keeps whatever the visit keeps. *)

From S2P Require Import Prelude GoStr Path Ring Ec Object Store Etcd Meta Node Cluster Collect Repair Rebalance.

(** ** The keys of the objects *)

Section object_keys.
Context {E : Type} `{!Etcd doc E} `{!EtcdLaws doc E} (prefix : string).

Definition object_keys (st : estate doc) : list string :=
  map (fun p => TrimPrefix p.1 (objects prefix)) (all_objects prefix st).

Lemma elem_of_all_objects st k x : (k, x) ∈ all_objects prefix st <->
  HasPrefix k (objects prefix) = true /\ es_kvs st !! k = Some x.
Proof.
  unfold all_objects. rewrite elem_of_sorted_range. simpl.
  rewrite <- (e_prefixEnd_law (objects prefix) k); [done | apply small_slash].
Qed.

Lemma elem_of_object_keys st j : j ∈ object_keys st <-> is_Some (es_kvs st !! key prefix j).
Proof.
  unfold object_keys. rewrite list_elem_of_fmap. split.
  - intros ([k x] & -> & [[t ->]%HasPrefix_spec Hx]%elem_of_all_objects). simpl. rewrite TrimPrefix_app. by exists x.
  - intros [x Hx]. exists (key prefix j, x). simpl. unfold key. rewrite TrimPrefix_app. split; [done|].
    apply elem_of_all_objects. split; [apply HasPrefix_app | done].
Qed.

Lemma object_keys_sorted st : StronglySorted (fun a b => a <s b) (object_keys st).
Proof.
  unfold object_keys. pose proof (sorted_range_strict st (objects prefix) (e_prefixEnd (objects prefix))) as Hs.
  fold (all_objects prefix st) in Hs.
  assert (Hin : Forall (fun p => HasPrefix p.1 (objects prefix) = true) (all_objects prefix st)).
  { apply Forall_forall. intros [k x] [Hp _]%elem_of_all_objects. done. }
  induction Hs as [|p l Hs IH HF]; [constructor|]. apply Forall_cons in Hin as [Hp Hin]. constructor; [auto|].
  rewrite Forall_forall in HF, Hin. apply Forall_forall. intros j (q & -> & Hq)%list_elem_of_fmap.
  specialize (HF q Hq). specialize (Hin q Hq). apply HasPrefix_spec in Hp as [a Ha], Hin as [b Hb].
  rewrite Ha, Hb in *. rewrite !TrimPrefix_app. by rewrite slt_app in HF.
Qed.

Lemma sorted_keys_unique (l k : list string) : StronglySorted (fun a b => a <s b) l -> StronglySorted (fun a b => a <s b) k ->
  (forall j, j ∈ l <-> j ∈ k) -> l = k.
Proof.
  intros Hl Hk Hlk. assert (Hnd : forall l, StronglySorted (fun a b => a <s b) l -> NoDup l).
  { intros l0. induction 1 as [|x l0 Hs IH HF]; constructor; [|done]. intros Hx. rewrite Forall_forall in HF.
    specialize (HF x Hx). by rewrite slt_irrefl in HF. }
  eapply (StronglySorted_unique_strong (fun a b => a <s b)); [|exact Hl|exact Hk|apply NoDup_Permutation; auto].
  intros a b _ _ Hab Hba. pose proof (slt_trans _ _ _ Hab Hba) as H. by rewrite slt_irrefl in H.
Qed.

Lemma object_keys_same st st' :
  (forall j, is_Some (es_kvs st' !! key prefix j) <-> is_Some (es_kvs st !! key prefix j)) ->
  object_keys st' = object_keys st.
Proof. intros H. apply sorted_keys_unique; [apply object_keys_sorted..|]. intros j. rewrite !elem_of_object_keys. apply H. Qed.

(** An object as a page has it: what its record was. *)
Definition as_read (st : estate doc) (o : MetaObject) : Prop :=
  exists x, es_kvs st !! key prefix (o_Key o) = Some x /\ as_manifest (kv_value x) = Ok (o_Manifest o) /\
    o_Revision o = kv_mod x.

(** A page is the first so many of the objects not before [from]. *)
Lemma ScanObjects_page from e objs e' : ScanObjects prefix "" from scanPage e = (Ok objs, e') ->
  e_state e' = e_state e /\
  map o_Key objs = takeZ scanPage (filter (fun k => from <=s k) (object_keys (e_state e))) /\
  Forall (as_read (e_state e)) objs.
Proof.
  unfold ScanObjects. intros (kvs & e1 & Hsc & H)%st_bind_Ok. apply scan_spec in Hsc as [Hs [?|Hk]]; [done| |done].
  injection Hk as Hk. injection H as Hl <-. split; [done|]. apply res_map_Ok in Hl.
  assert (Hin : Forall (fun p => HasPrefix p.1 (objects prefix) = true /\ es_kvs (e_state e) !! p.1 = Some p.2) kvs).
  { rewrite Hk, Forall_forall. intros [k x] Hp%elem_of_take_1. apply list_elem_of_filter in Hp as [_ Hp].
    by apply elem_of_all_objects in Hp. }
  split.
  - transitivity (map (fun p : string * kv doc => TrimPrefix p.1 (objects prefix)) kvs).
    + clear Hk Hin. induction Hl as [|p o ps os Hp Hl IH]; [done|]. simpl. rewrite IH. f_equal.
      by apply res_bind_Ok in Hp as (m & _ & [= <-]).
    + rewrite Hk. unfold object_keys, takeZ. rewrite <- firstn_map. f_equal.
      assert (Hall : Forall (fun p => HasPrefix p.1 (objects prefix) = true) (all_objects prefix (e_state e))).
      { apply Forall_forall. intros [k x] [Hp _]%elem_of_all_objects. done. }
      clear -Hall. induction Hall as [|p l Hp Hall IH]; [done|]. simpl. rewrite !filter_cons.
      assert (Hiff : scan_wants prefix "" from p.1 = true <-> from <=s TrimPrefix p.1 (objects prefix)).
      { apply HasPrefix_spec in Hp as [t ->]. rewrite TrimPrefix_app. unfold scan_wants, key.
        rewrite sapp_nil_r, HasPrefix_app, sle_app. done. }
      destruct (decide (scan_wants prefix "" from p.1 = true)); destruct (decide (from <=s _)); simpl; rewrite ?IH; tauto.
  - clear Hk. induction Hl as [|p o ps os Hp Hl IH]; [constructor|]. apply Forall_cons in Hin as [[Hpre Hx] Hin].
    constructor; [|auto]. apply res_bind_Ok in Hp as (m & Hm & [= <-]). apply HasPrefix_spec in Hpre as [t Ht].
    exists p.2. cbn [o_Key o_Manifest o_Revision]. rewrite Ht, TrimPrefix_app. unfold key. by rewrite <- Ht.
Qed.
End object_keys.

(** ** The walk *)

Section walk_facts.
Context {E : Type} `{!Etcd doc E} `{!EtcdLaws doc E} {St : Type} (prefix : string) (c : Coordinator) (task : string).
Abbreviation World := (world E).
Abbreviation keys_of w := (object_keys prefix (e_state (w_etcd w))).
Context (visit : MetaObject -> St -> World -> option error * St * World).

(** The same visit, keeping a list of the objects it was given. *)
Definition traced (o : MetaObject) (s : St * list MetaObject) (w : World) : option error * (St * list MetaObject) * World :=
  let '(err, st, w') := visit o s.1 w in (err, (st, s.2 ++ [o]), w').

Definition scan_from (cursor : string) : string := if String.eqb cursor "" then "" else After cursor.

(** What is left to visit after a cursor. *)
Definition left_of (cursor : string) (w : World) : list string := filter (fun k => scan_from cursor <=s k) (keys_of w).

Context (Htask : plain_elem task = true) (Hself : plain_elem (c_self c) = true).
Hypothesis Hkeys : forall o st w err st' w', 0 < o_Revision o -> visit o st w = (err, st', w') -> keys_of w' = keys_of w.

Lemma cursor_not_object_key j : key prefix j <> cursorKey prefix task (c_self c).
Proof. apply (encode_ne prefix (KObject j) (KCursor task (c_self c))); [done | by split | done]. Qed.

Lemma SaveCursor_effect k (w w' : World) r : on_meta (SaveCursor prefix task (c_self c) k) w = (r, w') ->
  w_stores w' = w_stores w /\ keys_of w' = keys_of w /\
  (is_ok r = true -> kv_value <$> es_kvs (e_state (w_etcd w')) !! cursorKey prefix task (c_self c) = Some (DText k)).
Proof.
  unfold on_meta. destruct (SaveCursor _ _ _ _ _) as [r1 e] eqn:H. intros [= <- <-]. split; [done|].
  unfold SaveCursor in H. meta_cases H; apply e_write_law in Hc; cbn [w_etcd set_etcd].
  - injection Hc as _ ->. split; [|intros _; simpl; by rewrite lookup_insert_eq].
    apply object_keys_same. intros j. simpl. rewrite lookup_insert_ne; [done|]. by intros H%eq_sym%cursor_not_object_key.
  - destruct Hc as [_ [->| ->]]; [done|]. split; [|done]. apply object_keys_same. intros j. simpl.
    rewrite lookup_insert_ne; [done|]. by intros H%eq_sym%cursor_not_object_key.
Qed.

Lemma visit_all_keys : forall objs st w st' w', Forall (fun o => 0 < o_Revision o) objs ->
  visit_all visit objs st w = (st', w') -> keys_of w' = keys_of w.
Proof.
  induction objs as [|o objs IH]; intros st w st' w' HF; cbn [visit_all]; [by intros [= _ <-]|].
  apply Forall_cons in HF as [Ho HF].
  destruct (visit o st w) as [[err st1] w1] eqn:Hv. intros ->%IH; [|done]. by eapply Hkeys.
Qed.

(** What etcd hands out has a revision. *)
Lemma as_read_revision (e : E) objs : Forall (as_read prefix (e_state e)) objs -> Forall (fun o => 0 < o_Revision o) objs.
Proof.
  intros H. eapply Forall_impl; [exact H|]. intros o (x & Hx & _ & ->). destruct (e_ok e) as [_ Hok]. apply Hok in Hx. lia.
Qed.

Lemma visit_all_traced : forall objs st tr w, visit_all traced objs (st, tr) w =
  let '(st', w') := visit_all visit objs st w in ((st', tr ++ objs), w').
Proof.
  induction objs as [|o objs IH]; intros st tr w; cbn [visit_all]; [by rewrite app_nil_r|].
  assert (traced o (st, tr) w = let '(err, st', w') := visit o st w in (err, (st', tr ++ [o]), w')) as -> by done.
  destruct (visit o st w) as [[err st1] w1]. rewrite IH.
  destruct (visit_all visit objs st1 w1). by rewrite <- app_assoc.
Qed.

(** Past the last key of a page is the rest. *)
Lemma left_step (l : list string) n q : StronglySorted (fun a b => a <s b) l -> last (takeZ n l) = Some q ->
  filter (fun k => scan_from q <=s k) l = dropZ n l \/ q = "".
Proof.
  intros Hs Hq. destruct (String.eqb_spec q "") as [->|Hne]; [by right|]. left. unfold scan_from.
  rewrite (proj2 (String.eqb_neq q "") Hne). rewrite <- (takeZ_dropZ n l) at 1. rewrite <- (takeZ_dropZ n l) in Hs.
  apply last_Some in Hq as [l' Hq]. rewrite Hq in *. apply StronglySorted_app in Hs as (Hlt & Hl & _).
  apply StronglySorted_app in Hl as (Hlt' & _ & _).
  rewrite filter_app, filter_none, filter_all; [done| |].
  - apply Forall_forall. intros k Hk. apply After_sle. apply Hlt; [apply elem_of_app; right; left | done].
  - apply Forall_forall. intros k [Hk| ->%list_elem_of_singleton]%elem_of_app H%After_sle.
    + pose proof (slt_trans _ _ _ H (Hlt' k q Hk ltac:(by left))) as Hx. by rewrite slt_irrefl in Hx.
    + by rewrite slt_irrefl in H.
Qed.

Lemma left_nonempty cursor w q : last (takeZ scanPage (left_of cursor w)) = Some q -> q ∈ keys_of w.
Proof.
  intros [l Hq]%last_Some. assert (Hin : q ∈ takeZ scanPage (left_of cursor w)) by (rewrite Hq; apply elem_of_app; right; left).
  apply elem_of_take_1, list_elem_of_filter in Hin as [_ Hin]. done.
Qed.

Lemma scan_from_le a b : a <> "" -> scan_from b <=s a -> forall k, scan_from a <=s k -> scan_from b <=s k.
Proof.
  intros Ha Hb k Hk. eapply sle_trans; [exact Hb|]. unfold scan_from in Hk.
  rewrite (proj2 (String.eqb_neq a "") Ha) in Hk. apply After_sle in Hk. apply sle_spec. by left.
Qed.

(** The page after the cursor, and what it leaves. *)
Lemma left_page cursor w w' q : "" ∉ keys_of w -> keys_of w' = keys_of w ->
  last (takeZ scanPage (left_of cursor w)) = Some q -> left_of q w' = dropZ scanPage (left_of cursor w).
Proof.
  intros Hne Hk Hq. pose proof (left_nonempty _ _ _ Hq) as Hin. assert (Hqn : q <> "") by congruence.
  assert (Hsub : left_of q w' = filter (fun k => scan_from q <=s k) (left_of cursor w)).
  { unfold left_of. rewrite Hk, list_filter_filter. apply list_filter_iff. intros k. split; [|tauto]. intros Hk'.
    split; [done|]. eapply scan_from_le; [exact Hqn| |done].
    apply last_Some in Hq as [l Hq]. assert (Hin' : q ∈ takeZ scanPage (left_of cursor w)) by (rewrite Hq; apply elem_of_app; right; left).
    apply elem_of_take_1, list_elem_of_filter in Hin' as [? _]. done. }
  rewrite Hsub. destruct (left_step (left_of cursor w) scanPage q) as [H|H]; [|done|done|done].
  apply StronglySorted_filter, object_keys_sorted.
Qed.

(** A walk that ends well has visited everything past the cursor, in order, and left the
    cursor at the beginning. *)
Lemma walk_loop_visits : forall fuel cursor st tr w st' tr' w', "" ∉ keys_of w ->
  walk_loop prefix c task traced fuel cursor (st, tr) w = Some (Ok tt, (st', tr'), w') ->
  map o_Key tr' = map o_Key tr ++ left_of cursor w /\ keys_of w' = keys_of w /\
  kv_value <$> es_kvs (e_state (w_etcd w')) !! cursorKey prefix task (c_self c) = Some (DText "").
Proof.
  induction fuel as [|fuel IH]; intros cursor st tr w st' tr' w' Hne; cbn [walk_loop]; [done|].
  fold (scan_from cursor). unfold on_meta at 1.
  destruct (ScanObjects _ _ _ _ _) as [[objs|err] e1] eqn:Hsc; [|done]. apply ScanObjects_page in Hsc as (Hs & Hpage & Hrd%as_read_revision).
  fold (left_of cursor w) in Hpage. assert (Hk1 : keys_of (set_etcd w e1) = keys_of w) by (simpl; by rewrite Hs).
  destruct objs as [|o os].
  - destruct (on_meta _ _) as [r w2] eqn:Hsv. intros [= -> <- <- <-]. apply SaveCursor_effect in Hsv as (_ & Hk & Hc).
    split; [|split; [congruence | by apply Hc]]. rewrite <- (takeZ_dropZ scanPage (left_of cursor w)), <- Hpage. simpl.
    destruct (left_of cursor w); [by rewrite app_nil_r|]. done.
  - rewrite visit_all_traced. destruct (visit_all visit _ _ _) as [st1 w2] eqn:Hv. apply visit_all_keys in Hv; [|done].
    destruct (last (o :: os)) as [q|] eqn:Hq; [|by apply last_None in Hq]. simpl default.
    destruct (on_meta _ w2) as [[[]|e] w3] eqn:Hsv; [|done]. apply SaveCursor_effect in Hsv as (_ & Hk3 & _).
    assert (Hk : keys_of w3 = keys_of w) by congruence. intros H. apply IH in H as (Htr & Hk' & Hc); [|by rewrite Hk].
    split; [|split; [congruence | done]]. rewrite Htr, map_app, <- app_assoc. f_equal.
    assert (Hlast : last (takeZ scanPage (left_of cursor w)) = Some (o_Key q)).
    { rewrite <- Hpage. change (map o_Key (o :: os)) with (o_Key <$> (o :: os)). rewrite fmap_last, Hq. done. }
    rewrite (left_page cursor w w3 (o_Key q)) by done.
    change (o :: os) with ([] ++ (o :: os)). rewrite app_nil_l, Hpage. apply takeZ_dropZ.
Qed.

(** A page takes at least one key off what is left. *)
Lemma walk_loop_ends : forall fuel cursor st w, "" ∉ keys_of w -> (length (left_of cursor w) < fuel)%nat ->
  is_Some (walk_loop prefix c task visit fuel cursor st w).
Proof.
  induction fuel as [|fuel IH]; intros cursor st w Hne Hf; [lia|]. cbn [walk_loop].
  fold (scan_from cursor). unfold on_meta at 1.
  destruct (ScanObjects _ _ _ _ _) as [[objs|err] e1] eqn:Hsc; [|eauto]. apply ScanObjects_page in Hsc as (Hs & Hpage & Hrd%as_read_revision).
  fold (left_of cursor w) in Hpage. assert (Hk1 : keys_of (set_etcd w e1) = keys_of w) by (simpl; by rewrite Hs).
  destruct objs as [|o os]; [destruct (on_meta _ _); eauto|].
  destruct (visit_all visit _ _ _) as [st1 w2] eqn:Hv. apply visit_all_keys in Hv; [|done].
  destruct (last (o :: os)) as [q|] eqn:Hq; [|by apply last_None in Hq]. simpl default.
  destruct (on_meta _ w2) as [[[]|e] w3] eqn:Hsv; [|eauto]. apply SaveCursor_effect in Hsv as (_ & Hk3 & _).
  assert (Hk : keys_of w3 = keys_of w) by congruence. apply IH; [by rewrite Hk|].
  assert (Hlast : last (takeZ scanPage (left_of cursor w)) = Some (o_Key q)).
  { rewrite <- Hpage. change (map o_Key (o :: os)) with (o_Key <$> (o :: os)). rewrite fmap_last, Hq. done. }
  rewrite (left_page cursor w w3 (o_Key q)) by done. unfold dropZ. rewrite length_drop.
  destruct (left_of cursor w) as [|x l] eqn:El; [by destruct (Z.to_nat scanPage)|]. simpl length in *.
  assert (0 < Z.to_nat scanPage)%nat by (unfold scanPage; lia). lia.
Qed.

(** What the reads, the cursor and every visit keep, the walk keeps. *)
Lemma walk_loop_invariant (Inv : World -> Prop) (Ok_ : World -> MetaObject -> Prop) :
  (forall w e, e_state e = e_state (w_etcd w) -> Inv w -> Inv (set_etcd w e)) ->
  (forall k w r w', on_meta (SaveCursor prefix task (c_self c) k) w = (r, w') -> Inv w -> Inv w') ->
  (forall w o, Inv w -> as_read prefix (e_state (w_etcd w)) o -> Ok_ w o) ->
  (forall o st w err st' w', Inv w -> Ok_ w o -> visit o st w = (err, st', w') ->
     Inv w' /\ forall o', Ok_ w o' -> Ok_ w' o') ->
  forall fuel cursor st w r st' w', Inv w -> walk_loop prefix c task visit fuel cursor st w = Some (r, st', w') -> Inv w'.
Proof.
  intros Hread Hsave Hok Hvis.
  assert (Hall : forall objs st w st' w', Inv w -> Forall (Ok_ w) objs -> visit_all visit objs st w = (st', w') -> Inv w').
  { induction objs as [|o objs IH]; intros st w st' w' Hw HF; cbn [visit_all]; [by intros [= _ <-]|].
    apply Forall_cons in HF as [Ho HF]. destruct (visit o st w) as [[err st1] w1] eqn:Hv.
    destruct (Hvis _ _ _ _ _ _ Hw Ho Hv) as [Hw1 Hmono]. apply IH; [done|]. eapply Forall_impl; [exact HF|]. auto. }
  induction fuel as [|fuel IH]; intros cursor st w r st' w' Hw; cbn [walk_loop]; [done|].
  unfold on_meta at 1. destruct (ScanObjects _ _ _ _ _) as [[objs|err] e1] eqn:Hsc.
  2: { intros [= _ _ <-]. apply Hread; [|done]. unfold ScanObjects in Hsc. unfold st_bind in Hsc.
       destruct (scan prefix "" _ scanPage (w_etcd w)) as [[kvs|err'] e2] eqn:Hsc'; apply scan_spec in Hsc' as [Hs _]; try done; by simplify_eq. }
  apply ScanObjects_page in Hsc as (Hs & _ & Hrd). pose proof (Hread w e1 Hs Hw) as Hw1.
  destruct objs as [|o os].
  - destruct (on_meta _ _) as [r1 w2] eqn:Hsv. intros [= _ _ <-]. by eapply Hsave.
  - destruct (visit_all visit _ _ _) as [st1 w2] eqn:Hv. apply Hall in Hv; [|done|].
    2: { eapply Forall_impl; [exact Hrd|]. intros o' Ho'. apply Hok; [done|]. simpl. by rewrite Hs. }
    destruct (on_meta _ w2) as [[[]|e] w3] eqn:Hsv; [apply IH; by eapply Hsave|]. intros [= _ _ <-]. by eapply Hsave.
Qed.

Definition cursor_of (w : World) : string :=
  match es_kvs (e_state (w_etcd w)) !! cursorKey prefix task (c_self c) with
  | Some x => doc_text (kv_value x)
  | None => ""
  end.

Lemma Cursor_spec (w w' : World) r : on_meta (Cursor prefix task (c_self c)) w = (r, w') ->
  (exists e, e_state e = e_state (w_etcd w) /\ w' = set_etcd w e) /\ forall k, r = Ok k -> k = cursor_of w.
Proof.
  unfold on_meta. destruct (Cursor _ _ _ _) as [r1 e] eqn:H. intros [= <- <-]. unfold Cursor in H. unfold cursor_of.
  meta_cases H; apply e_get_law in Hc as [Hs Hv]; (split; [by exists e|]); try done; intros k [= <-]; by subst.
Qed.

Lemma walk_ends (st : St) (w : World) fuel : "" ∉ keys_of w -> (length (keys_of w) < fuel)%nat ->
  is_Some (walk prefix c task visit fuel st w).
Proof.
  intros Hne Hf. unfold walk. destruct (on_meta _ w) as [[k|e] w1] eqn:Hc; [|eauto].
  apply Cursor_spec in Hc as [(e & He & ->) _]. assert (Hk : keys_of (set_etcd w e) = keys_of w) by (simpl; by rewrite He).
  apply walk_loop_ends; [by rewrite Hk|]. unfold left_of. rewrite Hk. eapply Nat.le_lt_trans; [apply length_filter | done].
Qed.

Lemma walk_visits (st st' : St) (tr : list MetaObject) (w w' : World) fuel : "" ∉ keys_of w ->
  walk prefix c task traced fuel (st, []) w = Some (Ok tt, (st', tr), w') ->
  map o_Key tr = left_of (cursor_of w) w /\ cursor_of w' = "" /\ keys_of w' = keys_of w.
Proof.
  intros Hne. unfold walk. destruct (on_meta _ w) as [[k|e] w1] eqn:Hc; [|done].
  apply Cursor_spec in Hc as [(e & He & ->) Hk]. rewrite <- (Hk k eq_refl).
  assert (Hkeys' : keys_of (set_etcd w e) = keys_of w) by (simpl; by rewrite He).
  intros H. apply walk_loop_visits in H as (Htr & Hk' & Hcur); [|by rewrite Hkeys'].
  split; [|split; [|congruence]].
  - rewrite Htr. simpl. unfold left_of. by rewrite Hkeys'.
  - unfold cursor_of. destruct (es_kvs _ !! _) as [x|]; [|done]. simpl in Hcur. injection Hcur as ->. done.
Qed.
End walk_facts.

(** ** The visits leave etcd to the walk *)

Create Rewrite HintDb etcd.

(** Follow a computation to the world it ends in. *)
Ltac etcd_follow :=
  repeat match goal with
  | |- context [match ?x with _ => _ end] =>
      let H := fresh "Hx" in destruct x eqn:H;
      lazymatch type of H with
      | _ = (_, _) => apply (f_equal (fun p => w_etcd p.2)) in H; cbn [snd] in H; autorewrite with etcd in H
      | _ => clear H
      end
  end; cbn [snd w_etcd set_store] in *; autorewrite with etcd; try congruence.

Section visits_etcd.
Context {E : Type} `{!Etcd doc E} {rs : ReedSolomon} (prefix : string) (c : Coordinator).
Implicit Types w : world E.

Lemma local_write_etcd addr id src crc size w : w_etcd (local_write addr id src crc size w).2 = w_etcd w.
Proof. destruct (local_write addr id src crc size w) as [err w'] eqn:H. by apply local_write_spec in H as (? & _). Qed.

Lemma PushChunk_etcd addr id crc size src w : w_etcd (PushChunk addr id crc size src w).2 = w_etcd w.
Proof.
  unfold PushChunk. simpl. destruct (rf_down _); [done|]. destruct (w_stores w !! addr); [|done].
  destruct (putChunk _ _ _ _ _). destruct (_ || _); [done|]. by destruct (negb _).
Qed.

Lemma FetchChunk_etcd addr id crc w : w_etcd (FetchChunk addr id crc w).2 = w_etcd w.
Proof. destruct (FetchChunk addr id crc w) as [r w'] eqn:H. by apply FetchChunk_world in H as [_ ?]. Qed.

Lemma local_read_etcd addr id crc w : w_etcd (local_read addr id crc w).2 = w_etcd w.
Proof. destruct (local_read addr id crc w) as [r w'] eqn:H. by apply local_read_world in H as [_ ?]. Qed.

Lemma local_has_etcd addr id w : w_etcd (local_has addr id w).2 = w_etcd w.
Proof. destruct (local_has addr id w) as [r w'] eqn:H. by apply local_has_spec in H as [[_ ?] _]. Qed.

Lemma fetch_etcd ref nodes w : w_etcd (fetch c ref nodes w).2 = w_etcd w.
Proof. destruct (fetch c ref nodes w) as [r w'] eqn:H. by apply fetch_world in H as [_ ?]. Qed.

Lemma gather_etcd ref nodes slots size from to i w : w_etcd (gather c ref nodes slots size from to i w).2 = w_etcd w.
Proof. destruct (gather c ref nodes slots size from to i w) as [[s e] w'] eqn:H. by apply gather_world in H as [_ ?]. Qed.
End visits_etcd.

#[export] Hint Rewrite @local_write_etcd @PushChunk_etcd @FetchChunk_etcd @local_read_etcd @local_has_etcd @fetch_etcd
  @gather_etcd : etcd.

Section stores_etcd.
Context {E : Type} `{!Etcd doc E} {rs : ReedSolomon} (prefix : string) (c : Coordinator).
Implicit Types w : world E.

Lemma write_to_etcd node ref src lv w : w_etcd (write_to c node ref src lv w).2 = w_etcd w.
Proof. unfold write_to. destruct (String.eqb _ _); by autorewrite with etcd. Qed.

Lemma storeShard_etcd o ref i sh lv w : w_etcd (storeShard c o ref i sh lv w).2 = w_etcd w.
Proof. unfold storeShard. destruct (String.eqb _ _); by autorewrite with etcd. Qed.

Lemma local_hasChunks_etcd addr ids w : w_etcd (local_hasChunks addr ids w).2 = w_etcd w.
Proof. destruct (local_hasChunks addr ids w) as [r w'] eqn:H. by apply local_hasChunks_spec in H as [[_ ?] _]. Qed.

Lemma PeerHasChunks_etcd addr ids w : w_etcd (PeerHasChunks addr ids w).2 = w_etcd w.
Proof. destruct (PeerHasChunks addr ids w) as [r w'] eqn:H. by apply PeerHasChunks_spec in H as [[_ ?] _]. Qed.

Lemma survey_etcd nodes ids lv acc w : w_etcd (survey_loop c nodes ids lv acc w).2 = w_etcd w.
Proof. destruct (survey_loop c nodes ids lv acc w) as [r w'] eqn:H. by apply survey_spec in H as [[_ ?] _]. Qed.
End stores_etcd.

#[export] Hint Rewrite @write_to_etcd @storeShard_etcd @local_hasChunks_etcd @PeerHasChunks_etcd @survey_etcd : etcd.

Section repair_etcd.
Context {E : Type} `{!Etcd doc E} {rs : ReedSolomon} (prefix : string) (c : Coordinator).
Implicit Types w : world E.

Lemma restore_etcd node ref nodes lv w : w_etcd (restore c node ref nodes lv w).2 = w_etcd w.
Proof. unfold restore. etcd_follow. Qed.
#[local] Hint Rewrite restore_etcd : etcd.

Lemma repair_copies_etcd ref all lv held : forall nodes errs st w,
  w_etcd (repair_copies c ref nodes all lv held errs st w).2 = w_etcd w.
Proof.
  induction nodes as [|n nodes IH]; intros errs st w; cbn [repair_copies]; [done|].
  destruct (mb_peers lv !! n); [|apply IH]. destruct (bool_decide _); [apply IH|].
  destruct (restore c n ref all lv w) as [[e|] w1] eqn:H; apply (f_equal (fun p => w_etcd p.2)) in H;
    autorewrite with etcd in H; rewrite IH; done.
Qed.

Lemma repair_chunks_etcd nodes lv held : forall refs errs st w,
  w_etcd (repair_chunks c refs nodes lv held errs st w).2 = w_etcd w.
Proof.
  induction refs as [|ref refs IH]; intros errs st w; cbn [repair_chunks]; [done|].
  destruct (repair_copies _ _ _ _ _ _ _ _ _) as [[e s] w1] eqn:H. apply (f_equal (fun p => w_etcd p.2)) in H.
  rewrite repair_copies_etcd in H. rewrite IH. done.
Qed.

Lemma place_shards_etcd to_ ref slots lv : forall missing w, w_etcd (place_shards c to_ ref missing slots lv w).2 = w_etcd w.
Proof.
  induction missing as [|i missing IH]; intros w; cbn [place_shards]; [done|].
  destruct (storeShard _ _ _ _ _ _ _) as [err w1] eqn:H. apply (f_equal (fun p => w_etcd p.2)) in H. autorewrite with etcd in H.
  specialize (IH w1). destruct (place_shards _ _ _ _ _ _ _) as [[es ok] w2]. cbn [snd] in *. destruct err; simpl; congruence.
Qed.
#[local] Hint Rewrite place_shards_etcd : etcd.

Lemma restoreShards_etcd ref from to_ missing scheme lv w : w_etcd (restoreShards c ref from to_ missing scheme lv w).2 = w_etcd w.
Proof.
  unfold restoreShards. destruct (gather _ _ _ _ _ _ _ _ _) as [[slots e] w1] eqn:H.
  apply (f_equal (fun p => w_etcd p.2)) in H. autorewrite with etcd in H. cbn [snd] in H.
  destruct (Reconstruct _ _ _) as [[x slots']|err]; [|done].
  pose proof (place_shards_etcd to_ ref slots' lv missing w1) as Hp. destruct (place_shards _ _ _ _ _ _ _) as [[es ok] w2].
  cbn [snd] in *. congruence.
Qed.

Lemma survey_shards_etcd refs lv : forall nodes i w, w_etcd (survey_shards c nodes i refs lv w).2 = w_etcd w.
Proof.
  induction nodes as [|n nodes IH]; intros i w; cbn [survey_shards]; [done|].
  assert (Hh : forall held w1, match mb_peers lv !! n with
      | None => (∅, w)
      | Some addr => match (if String.eqb n (c_self c) then local_hasChunks (c_addr c) (map (fun ref => ShardID ref i) refs) w
                            else PeerHasChunks addr (map (fun ref => ShardID ref i) refs) w) with
                     | (Ok have, w1) => (have, w1) | (Err _, w1) => (∅, w1) end
      end = (held, w1) -> w_etcd w1 = w_etcd w).
  { intros held w1. destruct (mb_peers lv !! n); [|by intros [= _ <-]].
    destruct (if String.eqb n (c_self c) then _ else _) as [r w2] eqn:H. apply (f_equal (fun p => w_etcd p.2)) in H.
    destruct (String.eqb n (c_self c)); autorewrite with etcd in H; destruct r; intros [= _ <-]; done. }
  destruct (match mb_peers lv !! n with Some _ => _ | None => _ end) as [held w1]. pose proof (Hh _ _ eq_refl) as H.
  specialize (IH (i + 1) w1). destruct (survey_shards _ _ _ _ _ _) as [rest w2]. cbn [snd] in *. congruence.
Qed.

Lemma repair_shards_etcd nodes held scheme lv : forall refs errs st w,
  w_etcd (repair_shards_loop c refs nodes held scheme lv errs st w).2 = w_etcd w.
Proof.
  induction refs as [|ref refs IH]; intros errs st w; cbn [repair_shards_loop]; [done|].
  destruct (bool_decide _); [apply IH|].
  destruct (restoreShards _ _ _ _ _ _ _ _) as [[e|] w1] eqn:H; apply (f_equal (fun p => w_etcd p.2)) in H;
    rewrite restoreShards_etcd in H; rewrite IH; done.
Qed.

Lemma repairObject_etcd o st w : w_etcd (repairObject c o st w).2 = w_etcd w.
Proof.
  unfold repairObject. destruct (negb _); [done|]. destruct (bool_decide _).
  - unfold repairShards. destruct (survey_shards _ _ _ _ _ _) as [held w1] eqn:H1.
    apply (f_equal (fun p => w_etcd p.2)) in H1. rewrite survey_shards_etcd in H1. cbn [snd] in H1.
    match goal with |- context [repair_shards_loop ?c ?a ?b ?d ?e ?f ?g ?h ?i] =>
      pose proof (repair_shards_etcd b d e f a g h i) as H2; destruct (repair_shards_loop c a b d e f g h i) as [[er s] w2] end.
    cbn [snd] in *. congruence.
  - unfold surveyNodes. destruct (survey_loop _ _ _ _ _ _) as [r w1] eqn:H1. apply (f_equal (fun p => w_etcd p.2)) in H1.
    autorewrite with etcd in H1. cbn [snd] in H1. destruct r as [held|e]; [|done].
    match goal with |- context [repair_chunks ?c ?a ?b ?d ?e ?f ?g ?h] =>
      pose proof (repair_chunks_etcd b d e a f g h) as H2; destruct (repair_chunks c a b d e f g h) as [[er s] w2] end.
    cbn [snd] in *. congruence.
Qed.
End repair_etcd.

#[export] Hint Rewrite @restore_etcd @restoreShards_etcd : etcd.

Section scrub_etcd.
Context {E : Type} `{!Etcd doc E} {rs : ReedSolomon} (prefix : string) (c : Coordinator).
Implicit Types w : world E.

Lemma verifyLocal_etcd ref w : w_etcd (verifyLocal c ref w).2 = w_etcd w.
Proof. unfold verifyLocal. etcd_follow. Qed.

Lemma verifyLocalShard_etcd ref i w : w_etcd (verifyLocalShard c ref i w).2 = w_etcd w.
Proof. unfold verifyLocalShard. etcd_follow. Qed.
#[local] Hint Rewrite verifyLocal_etcd verifyLocalShard_etcd : etcd.

Lemma rebuild_etcd ref lv : forall nodes errs w, w_etcd (rebuild_loop c ref nodes lv errs w).2 = w_etcd w.
Proof.
  induction nodes as [|n nodes IH]; intros errs w; cbn [rebuild_loop]; [done|]. destruct (_ || _); [apply IH|].
  destruct (FetchChunk _ _ _ _) as [[src|e] w1] eqn:H1; apply (f_equal (fun p => w_etcd p.2)) in H1; autorewrite with etcd in H1;
    cbn [snd] in H1; [|by rewrite IH].
  destruct (local_write _ _ _ _ _ _) as [[e|] w2] eqn:H2; apply (f_equal (fun p => w_etcd p.2)) in H2; autorewrite with etcd in H2;
    cbn [snd] in *; [rewrite IH|]; congruence.
Qed.

Lemma scrub_chunk_etcd ref nodes lv st w : w_etcd (scrub_chunk c ref nodes lv st w).2 = w_etcd w.
Proof.
  unfold scrub_chunk, rebuildFromPeers. destruct (local_has _ _ _) as [[[]|e] w1] eqn:H1;
    apply (f_equal (fun p => w_etcd p.2)) in H1; autorewrite with etcd in H1; cbn [snd] in *; try congruence.
  destruct (verifyLocal _ _ _) as [[e|] w2] eqn:H2; apply (f_equal (fun p => w_etcd p.2)) in H2; autorewrite with etcd in H2;
    cbn [snd] in *; try congruence.
  destruct (negb _); cbn [snd]; [congruence|]. pose proof (rebuild_etcd ref lv nodes [] w2) as H3.
  destruct (rebuild_loop _ _ _ _ _ _) as [[e'|] w3]; cbn [snd] in *; congruence.
Qed.

Lemma scrub_chunks_etcd nodes lv : forall refs errs st w, w_etcd (scrub_chunks c refs nodes lv errs st w).2 = w_etcd w.
Proof.
  induction refs as [|ref refs IH]; intros errs st w; cbn [scrub_chunks]; [done|].
  pose proof (scrub_chunk_etcd ref nodes lv st w) as H1. destruct (scrub_chunk _ _ _ _ _ _) as [[e s] w1]. rewrite IH. done.
Qed.

Lemma rotted_etcd ref : forall nodes i errs st w, w_etcd (rotted_shards c ref nodes i errs st w).2 = w_etcd w.
Proof.
  induction nodes as [|n nodes IH]; intros i errs st w; cbn [rotted_shards]; [done|]. destruct (negb _); [apply IH|].
  pose proof (verifyLocalShard_etcd ref i w) as H1. destruct (verifyLocalShard _ _ _ _) as [[[[] size] err] w1]; cbn [snd] in H1.
  2: { by rewrite IH. }
  destruct err as [e|]; [destruct (errors_Is _ _)|]; [|by rewrite IH..].
  match goal with |- context [rotted_shards ?a ?b ?d ?e ?f ?g ?h] =>
    pose proof (IH e f g h) as H2; destruct (rotted_shards a b d e f g h) as [[[x y] z] w2] end. cbn [snd] in *. congruence.
Qed.

Lemma scrub_shards_etcd m lv : forall refs errs st w, w_etcd (scrub_shards_loop c refs m lv errs st w).2 = w_etcd w.
Proof.
  induction refs as [|ref refs IH]; intros errs st w; cbn [scrub_shards_loop]; [done|].
  pose proof (rotted_etcd ref (m_Nodes m) 0 errs st w) as H1. destruct (rotted_shards _ _ _ _ _ _ _) as [[[x y] z] w1]. cbn [snd] in H1.
  destruct (bool_decide _); [by rewrite IH|].
  destruct (restoreShards _ _ _ _ _ _ _ _) as [[e|] w2] eqn:H2; apply (f_equal (fun p => w_etcd p.2)) in H2;
    autorewrite with etcd in H2; cbn [snd] in *; rewrite IH; congruence.
Qed.

Lemma scrubObject_etcd o st w : w_etcd (scrubObject c o st w).2 = w_etcd w.
Proof.
  unfold scrubObject, scrubShards. destruct (bool_decide _).
  - match goal with |- context [scrub_shards_loop ?c ?a ?b ?d ?e ?f ?g] =>
      pose proof (scrub_shards_etcd b d a e f g) as H2; destruct (scrub_shards_loop c a b d e f g) as [[er s] w2] end. exact H2.
  - match goal with |- context [scrub_chunks ?c ?a ?b ?d ?e ?f ?g] =>
      pose proof (scrub_chunks_etcd b d a e f g) as H2; destruct (scrub_chunks c a b d e f g) as [[er s] w2] end. exact H2.
Qed.
End scrub_etcd.

Section rebalance_etcd.
Context {E : Type} `{!Etcd doc E} `{!EtcdLaws doc E} {rs : ReedSolomon} (prefix : string) (c : Coordinator).
Implicit Types w : world E.

Lemma copy_to_etcd m ref lv : forall want copies moved errs w, w_etcd (copy_to c m ref want lv copies moved errs w).2 = w_etcd w.
Proof.
  induction want as [|n want IH]; intros copies moved errs w; cbn [copy_to]; [done|]. destruct (bool_decide _); [apply IH|].
  change (copyChunk c m ref n lv w) with (restore c n ref (m_Nodes m) lv w).
  destruct (restore _ _ _ _ _ _) as [[e|] w1] eqn:H; apply (f_equal (fun p => w_etcd p.2)) in H; autorewrite with etcd in H; by rewrite IH.
Qed.

Lemma copy_all_etcd m want lv : forall refs copies moved errs w, w_etcd (copy_all c m refs want lv copies moved errs w).2 = w_etcd w.
Proof.
  induction refs as [|ref refs IH]; intros copies moved errs w; cbn [copy_all]; [done|].
  pose proof (copy_to_etcd m ref lv want copies moved errs w) as H. destruct (copy_to _ _ _ _ _ _ _ _ _) as [[[k b] e] w1].
  by rewrite IH.
Qed.

Lemma move_all_etcd m want missing lv : forall refs copies moved errs w,
  w_etcd (move_all c m refs want missing lv copies moved errs w).2 = w_etcd w.
Proof.
  induction refs as [|ref refs IH]; intros copies moved errs w; cbn [move_all]; [done|].
  destruct (restoreShards _ _ _ _ _ _ _ _) as [[e|] w1] eqn:H; apply (f_equal (fun p => w_etcd p.2)) in H;
    autorewrite with etcd in H; by rewrite IH.
Qed.

Lemma copyToNewOwners_etcd m want lv w : w_etcd (copyToNewOwners c m want lv w).2 = w_etcd w.
Proof.
  unfold copyToNewOwners, moveShards. destruct (bool_decide (m_Coding m <> zeroScheme)).
  - destruct (bool_decide _); [done|].
    match goal with |- context [move_all ?c ?a ?b ?d ?e ?f ?g ?h ?i ?j] =>
      pose proof (move_all_etcd a d e f b g h i j) as H2; destruct (move_all c a b d e f g h i j) as [[[x y] z] w2] end. exact H2.
  - match goal with |- context [copy_all ?c ?a ?b ?d ?e ?f ?g ?h ?i] =>
      pose proof (copy_all_etcd a d e b f g h i) as H2; destruct (copy_all c a b d e f g h i) as [[[x y] z] w2] end. exact H2.
Qed.

(** A move replaces a manifest that is there; it makes no object and removes none. *)
Lemma rebalanceObject_keys o st w err st' w' : 0 < o_Revision o -> rebalanceObject prefix c o st w = (err, st', w') ->
  object_keys prefix (e_state (w_etcd w')) = object_keys prefix (e_state (w_etcd w)).
Proof.
  intros Hrev. unfold rebalanceObject. destruct (negb _); [by intros [= _ _ <-]|].
  destruct (zlen _ <? zlen _); [by intros [= _ _ <-]|]. destruct (bool_decide _); [by intros [= _ _ <-]|].
  pose proof (copyToNewOwners_etcd (o_Manifest o) (new_owners c o) (live c) w) as H1.
  destruct (copyToNewOwners _ _ _ _ _) as [[[k b] cerr] w1]. cbn [snd] in H1.
  destruct cerr as [e|]; [intros [= _ _ <-]; by rewrite H1|].
  unfold on_meta. destruct (CommitIfUnchanged _ _ _ _ _) as [r e2] eqn:Hc. apply CommitIfUnchanged_cases in Hc; [|done].
  assert (Hk : object_keys prefix (e_state e2) = object_keys prefix (e_state (w_etcd w))).
  { rewrite <- H1. assert (Hput : (exists x, es_kvs (e_state (w_etcd w1)) !! key prefix (o_Key o) = Some x /\ kv_mod x = o_Revision o) ->
      forall m, object_keys prefix (put (e_state (w_etcd w1)) (key prefix (o_Key o)) (DManifest m))
        = object_keys prefix (e_state (w_etcd w1))).
    { intros (x & Hx & _) m. apply object_keys_same. intros j. unfold put. simpl.
      destruct (decide (key prefix (o_Key o) = key prefix j)) as [<-|Hne]; [rewrite lookup_insert_eq, Hx; split; eauto|].
      by rewrite lookup_insert_ne. }
    destruct r; [destruct Hc as [Hx ->]; by apply Hput|]. destruct Hc as [->|[Hx ->]]; [done | by apply Hput]. }
  destruct r; [|destruct (errors_Is _ _)]; intros [= _ _ <-]; exact Hk.
Qed.
End rebalance_etcd.

(** ** The claims *)

Section pass_claims.
Context {E : Type} `{!Etcd doc E} `{!EtcdLaws doc E} {rs : ReedSolomon} {St : Type} (prefix : string) (c : Coordinator).
Abbreviation World := (world E).

(** Keeping the list does not change the walk. *)
Lemma walk_loop_traced task (visit : MetaObject -> St -> World -> option error * St * World) :
  forall fuel cursor st tr w r st' w', walk_loop prefix c task visit fuel cursor st w = Some (r, st', w') ->
  exists tr', walk_loop prefix c task (traced visit) fuel cursor (st, tr) w = Some (r, (st', tr'), w').
Proof.
  induction fuel as [|fuel IH]; intros cursor st tr w r st' w'; cbn [walk_loop]; [done|].
  destruct (on_meta _ w) as [[[|o os]|e] w1].
  - destruct (on_meta _ w1) as [r2 w2]. intros [= <- <- <-]. eauto.
  - rewrite visit_all_traced. destruct (visit_all visit _ _ _) as [st1 w2].
    destruct (on_meta _ w2) as [[[]|e] w3]; [apply IH|]. intros [= <- <- <-]. eauto.
  - intros [= <- <- <-]. eauto.
Qed.

(** C28: a background pass that ends without an etcd error has visited every object after
    the point the node's last pass of that task had reached, all of them when that pass
    had finished, each exactly once and in key order, and the next one starts from the
    beginning: nothing is passed over by paging, however many pages there are. *)
Theorem walk_visits_every_object (task : string) (visit : MetaObject -> St -> World -> option error * St * World)
    (fuel : nat) (st st' : St) (w w' : World) :
  plain_elem task = true -> plain_elem (c_self c) = true ->
  (forall o st w err st' w', 0 < o_Revision o -> visit o st w = (err, st', w') ->
     object_keys prefix (e_state (w_etcd w')) = object_keys prefix (e_state (w_etcd w))) ->
  "" ∉ object_keys prefix (e_state (w_etcd w)) ->
  walk prefix c task visit fuel st w = Some (Ok tt, st', w') ->
  exists tr, walk prefix c task (traced visit) fuel (st, []) w = Some (Ok tt, (st', tr), w') /\
    map o_Key tr = left_of prefix (cursor_of prefix c task w) w /\
    (cursor_of prefix c task w = "" -> map o_Key tr = object_keys prefix (e_state (w_etcd w))) /\
    cursor_of prefix c task w' = "".
Proof.
  intros Ht Hs Hv Hne Hw.
  assert (Htr : exists tr, walk prefix c task (traced visit) fuel (st, []) w = Some (Ok tt, (st', tr), w')).
  { unfold walk in *. destruct (on_meta _ w) as [[k|e] w1]; [|done]. by eapply walk_loop_traced. }
  destruct Htr as [tr Htr]. exists tr. split; [done|].
  apply (walk_visits prefix c task visit Ht Hs Hv) in Htr as (Hm & Hc & _); [|done].
  split; [done|]. split; [|done]. intros H0. rewrite Hm, H0. unfold left_of, scan_from. simpl.
  apply filter_all, Forall_forall. intros k _. by destruct k.
Qed.

(** C29: repair, scrubbing and rebalancing end. A pass over a cluster that nobody else is
    changing needs no more pages than there are objects, whatever fails on the way: the
    cursor moves past at least one of them each time. *)
Theorem passes_end (fuel : nat) (w : World) :
  plain_elem (c_self c) = true -> "" ∉ object_keys prefix (e_state (w_etcd w)) ->
  (length (object_keys prefix (e_state (w_etcd w))) < fuel)%nat ->
  is_Some (Repair prefix c fuel w) /\ is_Some (Scrub prefix c fuel w) /\ is_Some (Rebalance prefix c fuel w).
Proof.
  intros Hs Hne Hf. split_and!.
  - unfold Repair. destruct (walk_ends prefix c "repair" (repairObject c) eq_refl Hs) with (st := mk_Stats 0 0 0 0 0) (w := w) (fuel := fuel)
      as [[[[[]|e] st] w'] ->]; eauto.
    intros o st0 w0 err st1 w1 _ H. apply (f_equal (fun p => w_etcd p.2)) in H. rewrite repairObject_etcd in H. cbn [snd] in H. by rewrite H.
  - unfold Scrub. destruct (walk_ends prefix c "scrub" (scrubObject c) eq_refl Hs) with (st := mk_ScrubStats 0 0 0 0 0) (w := w) (fuel := fuel)
      as [[[[[]|e] st] w'] ->]; eauto.
    intros o st0 w0 err st1 w1 _ H. apply (f_equal (fun p => w_etcd p.2)) in H. rewrite scrubObject_etcd in H. cbn [snd] in H. by rewrite H.
  - unfold Rebalance. apply walk_ends; try done. intros o st0 w0 err st1 w1 Ho.
    destruct (rebalanceObject _ _ _ _ _) as [[[e|] st2] w2] eqn:H; intros [= _ _ <-]; by eapply rebalanceObject_keys.
Qed.
End pass_claims.

(** *** At concrete inputs *)

Definition pass_w : world demoE :=
  mk_world {["a1" := gc_fs; "a2" := empty_fs]} (Commit "k" "y" stray_m (Commit "k" "z" stray_m demo0).2).2 [] 0 0.

Lemma pass_keys : object_keys "k" (e_state (w_etcd pass_w)) = ["y"; "z"].
Proof. vm_compute. reflexivity. Qed.

Lemma pass_no_empty : "" ∉ object_keys "k" (e_state (w_etcd pass_w)).
Proof. rewrite pass_keys. set_solver. Qed.

Lemma walk_visits_every_object_witness : exists tr st' w',
  walk "k" heal_c "repair" (traced (@repairObject demoE xor_codec heal_c)) 3 (mk_Stats 0 0 0 0 0, []) pass_w = Some (Ok tt, (st', tr), w') /\
  map o_Key tr = ["y"; "z"].
Proof.
  destruct (walk "k" heal_c "repair" (@repairObject demoE xor_codec heal_c) 3 (mk_Stats 0 0 0 0 0) pass_w) as [[[[[]|e] st'] w']|] eqn:H;
    [|exfalso..].
  - destruct (walk_visits_every_object "k" heal_c "repair" (@repairObject demoE xor_codec heal_c) 3 (mk_Stats 0 0 0 0 0) st' pass_w w')
      as (tr & Htr & _ & Hall & _).
    + reflexivity.
    + reflexivity.
    + intros o st0 w0 err st1 w1 _ Hv. apply (f_equal (fun p => w_etcd p.2)) in Hv. rewrite repairObject_etcd in Hv. cbn [snd] in Hv. by rewrite Hv.
    + exact pass_no_empty.
    + exact H.
    + exists tr, st', w'. split; [exact Htr|]. rewrite Hall by (vm_compute; reflexivity). apply pass_keys.
  - assert (Hok : match walk "k" heal_c "repair" (@repairObject demoE xor_codec heal_c) 3 (mk_Stats 0 0 0 0 0) pass_w with
      | Some (Ok _, _, _) => true | _ => false end = true) by (vm_compute; reflexivity). by rewrite H in Hok.
  - assert (Hok : match walk "k" heal_c "repair" (@repairObject demoE xor_codec heal_c) 3 (mk_Stats 0 0 0 0 0) pass_w with
      | Some (Ok _, _, _) => true | _ => false end = true) by (vm_compute; reflexivity). by rewrite H in Hok.
Defined.

Lemma passes_end_witness : is_Some (@Rebalance demoE _ xor_codec "k" heal_c 3 pass_w).
Proof.
  apply (@passes_end demoE _ _ xor_codec "k" heal_c 3 pass_w).
  - reflexivity.
  - exact pass_no_empty.
  - rewrite pass_keys. simpl. lia.
Defined.
