(* ===== verification/Loops.v ===== *)
(** * The background loops: [RepairLoop], [ScrubLoop], [RebalanceLoop], [CollectLoop]

    Each node runs the four passes over and over, with a pause between two of them, until
    its context is done. A loop is given the rounds it goes through: what its
    surroundings decide in each. [pacer] is how a pass keeps to its byte rate. *)

From Stdlib Require Import SpecFloat.
From S2P Require Import Prelude GoStr Path Ring Ec Object Store Etcd Meta Node Cluster Members Multipart Collect Repair Rebalance Passes.

Definition DefaultRepairRate : Z := Z.shiftl 32 20.
Definition DefaultRepairInterval : Z := 30 * 10 ^ 9.
Definition DefaultRebalanceInterval : Z := 5 * 60 * 10 ^ 9.
Definition DefaultScrubInterval : Z := 24 * 3600 * 10 ^ 9.

(** ** Pacing *)

(** [float64] of an integer, and the conversion back, which drops the fraction. *)
Definition float64 (n : Z) : spec_float := binary_normalize 53 1024 n 0 false.

Definition float_int (x : spec_float) : option Z :=
  match x with
  | S754_zero _ => Some 0
  | S754_finite s m e =>
      let a := if 0 <=? e then Zpos m * 2 ^ e else Zpos m / 2 ^ (- e) in
      Some (if s then - a else a)
  | S754_infinity _ | S754_nan => None
  end.

Record pacer := mk_pacer { pa_rate : Z; pa_since : Z; pa_sent : Z }.

(** What a conversion gives that does not fit is the machine's choice. *)
Section pacing.
Variable unrepresentable : Z.

Definition to_int64 (x : spec_float) : Z :=
  match float_int x with
  | Some n => if (min_int64 <=? n) && (n <=? max_int64) then n else unrepresentable
  | None => unrepresentable
  end.

Definition owed (p : pacer) : Z :=
  to_int64 (SFmul 53 1024 (SFdiv 53 1024 (float64 (pa_sent p)) (float64 (pa_rate p))) (float64 (10 ^ 9))).

(** [wait] at time [now]: the pacer after it and how long it asks to sleep. *)
Definition pacer_wait (p : pacer) (n now : Z) : pacer * option Z :=
  if pa_rate p <=? 0 then (p, None)
  else
    let p' := mk_pacer (pa_rate p) (pa_since p) (wrap_int64 (pa_sent p + n)) in
    let delay := owed p' - (now - pa_since p) in
    (p', if 0 <? delay then Some delay else None).
End pacing.

(** ** The loops *)

Section loops.
Context {E : Type} `{!Etcd doc E} {rs : ReedSolomon} (prefix : string) (c : Coordinator).
Abbreviation World := (world E).

(** One round: whether the context is done when the pass returns (and, in [CollectLoop],
    when the uploads have been expired), which case ends the pause, whether it is done by
    then, and what the rest of the cluster has done meanwhile. *)
Record round := mk_round {
  ro_expired_done : bool;
  ro_done : bool;
  ro_later : bool;
  ro_taken : select_case;
  ro_meanwhile : World -> World
}.

(** What is logged. *)
Inductive log_line :=
  | PassFailed (e : error)
  | Repaired (st : Stats)
  | Scrubbed (st : ScrubStats)
  | Rebalanced (st : RebalanceStats)
  | Collected (st : CollectStats)
  | Expired (n : Z)
  | ExpiryFailed (e : error).

(** A loop still waiting for its next round, one that returned, and one given a round
    that cannot happen or a pass that did not end. *)
Inductive loop_state := Running (w : World) | Returned (w : World) | Stuck.

(** The shape the loops share: a pass, the context, the log, the pause. *)
Section until_done.
Variable pass : round -> World -> option (option (list log_line) * World).

Fixpoint until_done (rounds : list round) (w : World) : list log_line * loop_state :=
  match rounds with
  | [] => ([], Running w)
  | r :: rounds' =>
      match pass r w with
      | None => ([], Stuck)
      | Some (None, w1) => ([], Returned w1)
      | Some (Some logged, w1) =>
          match sleep (ro_later r) (ro_taken r) with
          | Some true => let '(l, s) := until_done rounds' (ro_meanwhile r w1) in (logged ++ l, s)
          | Some false => (logged, Returned (ro_meanwhile r w1))
          | None => (logged, Stuck)
          end
      end
  end.
End until_done.

Definition walk_fuel (w : World) : nat := S (length (object_keys prefix (e_state (w_etcd w)))).

Definition RepairLoop : list round -> World -> list log_line * loop_state :=
  until_done (fun r w =>
    match Repair prefix c (walk_fuel w) w with
    | None => None
    | Some (st, err, w1) =>
        if ro_done r then Some (None, w1)
        else Some (Some match err with
                        | Some e => [PassFailed e]
                        | None => if (0 <? st_Restored st) || (0 <? st_Unrepairable st) then [Repaired st] else []
                        end, w1)
    end).

Definition ScrubLoop : list round -> World -> list log_line * loop_state :=
  until_done (fun r w =>
    match Scrub prefix c (walk_fuel w) w with
    | None => None
    | Some (st, err, w1) =>
        if ro_done r then Some (None, w1)
        else Some (Some match err with Some e => [PassFailed e] | None => [Scrubbed st] end, w1)
    end).

Definition RebalanceLoop : list round -> World -> list log_line * loop_state :=
  until_done (fun r w =>
    match Rebalance prefix c (walk_fuel w) w with
    | None => None
    | Some (res_, st, w1) =>
        if ro_done r then Some (None, w1)
        else Some (Some match res_ with
                        | Err e => [PassFailed e]
                        | Ok _ => if (0 <? rb_Moved st) || (0 <? rb_Raced st) || (0 <? rb_Failed st) then [Rebalanced st] else []
                        end, w1)
    end).

(** [lsErr] and [fail] are what goes wrong on this node's disk during the sweep. *)
Definition CollectLoop (lsErr : string -> option error) (fail : string -> faults) (grace : Z)
    : list round -> World -> list log_line * loop_state :=
  until_done (fun r w =>
    match ClusterExpireUploads prefix w with
    | None => None
    | Some (n, w1) =>
        if ro_expired_done r then Some (None, w1)
        else
          let expired := match n with Err e => [ExpiryFailed e] | Ok n => if 0 <? n then [Expired n] else [] end in
          match Collect prefix c (fun _ e => e) id (S (S (size (es_kvs (e_state (w_etcd w1)))))) lsErr fail grace w1 with
          | None => None
          | Some (st, err, w2) =>
              if ro_done r then Some (None, w2)
              else Some (Some (expired ++ match err with
                                          | Some e => [PassFailed e]
                                          | None => if 0 <? cs_Collected st then [Collected st] else []
                                          end), w2)
          end
    end).
End loops.

(** Whoever sleeps as long as [wait] asks has taken at least as long as the bytes are owed. *)
Lemma pacer_wait_paces u p n now p' d t : pacer_wait u p n now = (p', d) -> 0 < pa_rate p -> now + default 0 d <= t ->
  owed u p' <= t - pa_since p'.
Proof.
  unfold pacer_wait. destruct (Z.leb_spec (pa_rate p) 0); [lia|]. intros [= <- <-] _. simpl.
  destruct (Z.ltb_spec 0 (owed u (mk_pacer (pa_rate p) (pa_since p) (wrap_int64 (pa_sent p + n))) - (now - pa_since p)));
    simpl; lia.
Qed.

(** A megabyte at 32 megabytes a second. *)
Example owed_example : owed 0 (mk_pacer DefaultRepairRate 0 (2 ^ 20)) = 31250000.
Proof. vm_compute. reflexivity. Qed.

(** ** Expiry ends *)

Section expiry.
Context {E : Type} `{!Etcd doc E} `{!EtcdLaws doc E} (prefix : string).

Definition no_new_keys (e e' : E) : Prop :=
  forall k, is_Some (es_kvs (e_state e') !! k) -> is_Some (es_kvs (e_state e) !! k).

Lemma no_new_state (e e' : E) : e_state e' = e_state e -> no_new_keys e e'.
Proof. intros H k. by rewrite H. Qed.

Lemma DeleteUpload_no_new id (e e' : E) r : DeleteUpload prefix id e = (r, e') -> no_new_keys e e'.
Proof.
  intros H. unfold DeleteUpload in H.
  assert (Hst : e_state e' = e_state e \/ e_state e' = (apply (e_state e) (OpDeleteRange (uploadPrefix prefix id) (e_prefixEnd (uploadPrefix prefix id)))).2).
  { meta_cases H; apply e_write_law in Hc; [right; by rewrite <- Hc | tauto]. }
  intros k [x Hx]. destruct Hst as [Hst|Hst]; rewrite Hst in Hx; [eauto|]. simpl in Hx.
  apply map_lookup_filter_Some in Hx as [Hx _]. eauto.
Qed.

Lemma expire_page_spec cutoff : forall kvs start n (e e' : E) r, expire_page prefix cutoff kvs start n e = (r, e') ->
  no_new_keys e e' /\ forall start' n', r = Ok (start', n') -> start' = default start (After ∘ fst <$> last kvs).
Proof.
  induction kvs as [|[k x] kvs IH]; intros start n e e' r; cbn [expire_page].
  { intros [= <- <-]. split; [by apply no_new_state|]. by intros ? ? [= <- _]. }
  assert (Hnext : forall n e1, no_new_keys e e1 -> expire_page prefix cutoff kvs (After k) n e1 = (r, e') ->
    no_new_keys e e' /\ forall start' n', r = Ok (start', n') -> start' = default start (After ∘ fst <$> last ((k, x) :: kvs))).
  { intros n1 e1 H1 [H2 Hs]%IH. split; [intros j Hj; auto|]. intros start' n' Hr. rewrite (Hs _ _ Hr).
    rewrite last_cons. by destruct (last kvs). }
  destruct (negb _); [apply Hnext; by apply no_new_state|]. destruct (as_upload _) as [u|err].
  2: { intros [= <- <-]. split; [by apply no_new_state | done]. }
  destruct (_ <? _); [apply Hnext; by apply no_new_state|]. unfold st_bind.
  destruct (DeleteUpload _ _ e) as [[[]|err] e1] eqn:Hd; apply DeleteUpload_no_new in Hd; [by apply Hnext|].
  intros [= <- <-]. split; [done | done].
Qed.

Lemma count_from_mono (e e' : E) lo : no_new_keys e e' -> (count_from (e_state e') lo <= count_from (e_state e) lo)%nat.
Proof.
  intros H. unfold count_from.
  assert (Hc : forall m : gmap string (kv doc),
    length (filter (fun p : string * kv doc => lo <=s p.1) (map_to_list m)) = size (filter (fun k => lo <=s k) (dom m))).
  { intros m. transitivity (length (fst <$> filter (fun p : string * kv doc => lo <=s p.1) (map_to_list m))); [by rewrite length_fmap|].
    rewrite <- (size_list_to_set (C := gset string) (fst <$> filter (fun p : string * kv doc => lo <=s p.1) (map_to_list m))).
    - f_equal. apply set_eq. intros k. rewrite elem_of_list_to_set, elem_of_filter, list_elem_of_fmap. split.
      + intros ([j x] & -> & [Hlo Hin]%list_elem_of_filter). split; [done|]. apply elem_of_map_to_list in Hin. by eapply elem_of_dom_2.
      + intros [Hlo [x Hx]%elem_of_dom]. exists (k, x). split; [done|]. apply list_elem_of_filter. split; [done|]. by apply elem_of_map_to_list.
    - apply NoDup_fmap_fst.
      + intros k x y [_ Hx]%list_elem_of_filter [_ Hy]%list_elem_of_filter. apply elem_of_map_to_list in Hx, Hy. congruence.
      + apply NoDup_filter, NoDup_map_to_list. }
  rewrite !Hc. apply subseteq_size. intros k [Hlo Hk]%elem_of_filter. apply elem_of_filter. split; [done|].
  apply elem_of_dom. apply H. by apply elem_of_dom.
Qed.

Lemma expire_loop_ends cutoff : forall fuel start n (e : E), (count_from (e_state e) start < fuel)%nat ->
  is_Some (expire_loop prefix fuel cutoff start n e).
Proof.
  induction fuel as [|fuel IH]; intros start n e Hf; [lia|]. cbn [expire_loop].
  destruct (sle _ start); [eauto|]. destruct (e_range _ _ _ e) as [[[kvs more]|err] e1] eqn:Hr; [|eauto].
  apply e_range_law in Hr as [Hs Hl]. destruct kvs as [|p kvs]; [eauto|].
  destruct (expire_page _ _ _ _ _ e1) as [[[start' n']|err] e2] eqn:Hp; [|eauto].
  apply expire_page_spec in Hp as [Hn Hst]. specialize (Hst _ _ eq_refl).
  destruct (last (p :: kvs)) as [q|] eqn:Hq; [|by apply last_None in Hq]. simpl in Hst. subst start'.
  apply IH. eapply Nat.le_lt_trans; [by apply (count_from_mono e1)|]. rewrite Hs.
  assert (Hin : q ∈ sorted_range (e_state e) start (e_prefixEnd (uploadsRoot prefix))).
  { apply last_Some in Hq as [l Hq]. unfold range_spec in Hl. simpl in Hl. injection Hl as Hl _.
    eapply elem_of_take_1. unfold takeZ in Hl. rewrite <- Hl, Hq. apply elem_of_app. right. left. }
  apply elem_of_sorted_range in Hin as [[Hlo _]%andb_true_iff Hx].
  eapply Nat.lt_le_trans; [by eapply count_from_after | lia].
Qed.

Lemma ExpireUploads_ends cutoff (e : E) : is_Some (ExpireUploads prefix cutoff e).
Proof. apply expire_loop_ends. pose proof (count_from_size (e_state e) (uploadsRoot prefix)). lia. Qed.
End expiry.

(** ** Only the context ends a loop *)

Section loop_facts.
Context {E : Type} `{!Etcd doc E} `{!EtcdLaws doc E} {rs : ReedSolomon} (prefix : string) (c : Coordinator).
Abbreviation World := (world E).

(** A round that can happen, and one the loop goes on after. *)
Definition possible (r : round (E := E)) : Prop := sleep (ro_later r) (ro_taken r) <> None.
Definition goes_on (r : round (E := E)) : bool :=
  negb (ro_done r) && match ro_taken r with TimerFires => true | ContextDone => false end.

Definition outcome (s : loop_state (E := E)) (alive : bool) : Prop :=
  if alive then exists w, s = Running w else exists w, s = Returned w.

Lemma until_done_outcome (pass : round -> World -> option (option (list log_line) * World)) (P : World -> Prop) (on : round -> bool) :
  (forall r w, P w -> exists out w', pass r w = Some (out, w') /\ P w' /\ (out = None -> on r = false) /\
     (is_Some out -> on r = match ro_taken r with TimerFires => true | ContextDone => false end)) ->
  forall rounds w, P w -> Forall (fun r => possible r /\ forall w, P w -> P (ro_meanwhile r w)) rounds ->
  outcome (until_done pass rounds w).2 (forallb on rounds).
Proof.
  intros Hpass. induction rounds as [|r rounds IH]; intros w HP HF; cbn [until_done forallb]; [by exists w|].
  apply Forall_cons in HF as [[Hpos Hm] HF]. destruct (Hpass r w HP) as (out & w1 & -> & HP1 & Hnone & Hsome).
  destruct out as [logged|]; [|rewrite (Hnone eq_refl); by exists w1]. specialize (Hsome ltac:(eauto)). unfold possible in Hpos.
  destruct (ro_taken r); simpl in *.
  - rewrite Hsome. specialize (IH (ro_meanwhile r w1) (Hm _ HP1) HF). by destruct (until_done _ _ _).
  - rewrite Hsome. destruct (ro_later r); [|done]. by eexists.
Qed.

Definition no_empty_key (w : World) : Prop := "" ∉ object_keys prefix (e_state (w_etcd w)).

Lemma walk_keys {St} task (visit : MetaObject -> St -> World -> option error * St * World) fuel st w r st' w' :
  plain_elem task = true -> plain_elem (c_self c) = true ->
  (forall o st w err st' w', 0 < o_Revision o -> visit o st w = (err, st', w') ->
     object_keys prefix (e_state (w_etcd w')) = object_keys prefix (e_state (w_etcd w))) ->
  walk prefix c task visit fuel st w = Some (r, st', w') -> no_empty_key w -> no_empty_key w'.
Proof.
  intros Ht Hs Hv Hw Hne. unfold walk in Hw. destruct (on_meta _ w) as [cr w1] eqn:Hc.
  apply Cursor_spec in Hc as [(e & He & ->) _]. assert (Hne1 : no_empty_key (set_etcd w e)) by (unfold no_empty_key; simpl; by rewrite He).
  destruct cr as [k|err]; [|by injection Hw as _ _ <-]. revert Hw.
  eapply (walk_loop_invariant prefix c task visit no_empty_key (fun _ o => 0 < o_Revision o)); [| | | |exact Hne1].
  - intros w0 e0 He0. unfold no_empty_key. simpl. by rewrite He0.
  - intros k0 w0 r0 w2 (_ & Hk & _)%SaveCursor_effect; [|done|done]. unfold no_empty_key. by rewrite Hk.
  - intros w0 o _ Ho. assert (HF : Forall (as_read prefix (e_state (w_etcd w0))) [o]) by (by constructor).
    apply as_read_revision, Forall_cons in HF as [? _]. done.
  - intros o st0 w0 err st1 w2 H0 Ho Hvis. split; [|done]. unfold no_empty_key. by rewrite (Hv _ _ _ _ _ _ Ho Hvis).
Qed.

Lemma repair_keys o st (w : World) err st' w' : 0 < o_Revision o -> repairObject c o st w = (err, st', w') ->
  object_keys prefix (e_state (w_etcd w')) = object_keys prefix (e_state (w_etcd w)).
Proof. intros _ H. apply (f_equal (fun p => w_etcd p.2)) in H. rewrite repairObject_etcd in H. cbn [snd] in H. by rewrite H. Qed.

Lemma scrub_keys o st (w : World) err st' w' : 0 < o_Revision o -> scrubObject c o st w = (err, st', w') ->
  object_keys prefix (e_state (w_etcd w')) = object_keys prefix (e_state (w_etcd w)).
Proof. intros _ H. apply (f_equal (fun p => w_etcd p.2)) in H. rewrite scrubObject_etcd in H. cbn [snd] in H. by rewrite H. Qed.

Lemma rebalance_keys o st (w : World) err st' w' : 0 < o_Revision o ->
  match rebalanceObject prefix c o st w with
  | (Some e, st', w') => (Some e, add_rebalance st' 0 0 0 0 0 0 1, w')
  | r => r
  end = (err, st', w') ->
  object_keys prefix (e_state (w_etcd w')) = object_keys prefix (e_state (w_etcd w)).
Proof.
  intros Ho. destruct (rebalanceObject _ _ _ _ _) as [[[e|] st2] w2] eqn:H; intros [= _ _ <-]; by eapply rebalanceObject_keys.
Qed.

(** What a pass that ended means for its round. *)
Lemma round_outcome (P : World -> Prop) r (logged : list log_line) (w1 : World) : P w1 ->
  exists out w', (if ro_done r then Some (None, w1) else Some (Some logged, w1)) = Some (out, w') /\ P w' /\
    (out = None -> goes_on r = false) /\
    (is_Some out -> goes_on r = match ro_taken r with TimerFires => true | ContextDone => false end).
Proof.
  intros H1. unfold goes_on. destruct (ro_done r); do 2 eexists; (split; [reflexivity|]); (split; [done|]); split; try done.
Qed.

(** C30: nothing but the end of its context stops a background loop. Whatever the passes report
    and however often they fail, repair, scrubbing, rebalancing and collection make one
    pass a round, every pass ends, and after any rounds at all each loop is waiting for the next, unless
    the context was done when a pass returned or during a pause: then, and only
    then, it has returned. *)
Theorem loops_run_until_done (rounds : list (round (E := E))) (w : World) (lsErr : string -> option error)
    (fail : string -> faults) (grace : Z) :
  plain_elem (c_self c) = true -> no_empty_key w ->
  Forall (fun r => possible r /\ forall w, no_empty_key w -> no_empty_key (ro_meanwhile r w)) rounds ->
  outcome (RepairLoop prefix c rounds w).2 (forallb goes_on rounds) /\
  outcome (ScrubLoop prefix c rounds w).2 (forallb goes_on rounds) /\
  outcome (RebalanceLoop prefix c rounds w).2 (forallb goes_on rounds) /\
  outcome (CollectLoop prefix c lsErr fail grace rounds w).2
    (forallb (fun r => negb (ro_expired_done r) && goes_on r) rounds).
Proof.
  intros Hs Hne HF. split_and!.
  - apply (until_done_outcome _ no_empty_key); [|done|done]. intros r w0 H0.
    destruct (walk_ends prefix c "repair" (repairObject c) eq_refl Hs repair_keys (mk_Stats 0 0 0 0 0) w0 (walk_fuel prefix w0) H0)
      as [[[res_ st] w1] Hw]; [unfold walk_fuel; lia|].
    pose proof (walk_keys "repair" _ _ _ _ _ _ _ eq_refl Hs repair_keys Hw H0) as H1. unfold Repair. rewrite Hw.
    destruct res_ as [[]|e]; by apply round_outcome.
  - apply (until_done_outcome _ no_empty_key); [|done|done]. intros r w0 H0.
    destruct (walk_ends prefix c "scrub" (scrubObject c) eq_refl Hs scrub_keys (mk_ScrubStats 0 0 0 0 0) w0 (walk_fuel prefix w0) H0)
      as [[[res_ st] w1] Hw]; [unfold walk_fuel; lia|].
    pose proof (walk_keys "scrub" _ _ _ _ _ _ _ eq_refl Hs scrub_keys Hw H0) as H1. unfold Scrub. rewrite Hw.
    destruct res_ as [[]|e]; by apply round_outcome.
  - apply (until_done_outcome _ no_empty_key); [|done|done]. intros r w0 H0.
    destruct (walk_ends prefix c "rebalance" _ eq_refl Hs rebalance_keys (mk_RebalanceStats 0 0 0 0 0 0 0) w0 (walk_fuel prefix w0) H0)
      as [[[res_ st] w1] Hw]; [unfold walk_fuel; lia|].
    pose proof (walk_keys "rebalance" _ _ _ _ _ _ _ eq_refl Hs rebalance_keys Hw H0) as H1. unfold Rebalance. rewrite Hw.
    by apply round_outcome.
  - apply (until_done_outcome _ (fun _ => True)); [|done|].
    2: { eapply Forall_impl; [exact HF|]. by intros r [? _]. }
    intros r w0 _. unfold ClusterExpireUploads.
    destruct (ExpireUploads_ends prefix (w_now w0 - UploadMaxAge) (w_etcd w0)) as [[n e1] ->]. simpl option_map. cbn iota beta.
    destruct (ro_expired_done r); [do 2 eexists; split; [reflexivity|]; split; [done|]; split; [done|]; by intros []|].
    destruct (Collect_returns prefix c id Hs (S (S (size (es_kvs (e_state e1))))) lsErr fail grace (set_etcd w0 e1)) as [[[st err] w2] Hc];
      [simpl; lia|]. cbn [fst snd w_etcd set_etcd] in *. rewrite Hc.
    by apply round_outcome.
Qed.
End loop_facts.

(** *** At concrete inputs: a round that goes on and one in which the context ends *)

Definition quiet_round : round (E := demoE) := mk_round false false false TimerFires id.
Definition last_round : round (E := demoE) := mk_round false false true ContextDone id.

Lemma loops_run_until_done_witness :
  (exists w, (@RepairLoop demoE _ xor_codec "k" heal_c [quiet_round; quiet_round] pass_w).2 = Running w) /\
  (exists w, (@RebalanceLoop demoE _ xor_codec "k" heal_c [quiet_round; last_round] pass_w).2 = Returned w).
Proof.
  destruct (@loops_run_until_done demoE _ _ xor_codec "k" heal_c [quiet_round; quiet_round] pass_w
    (fun _ => None) (fun _ => no_faults) 0 eq_refl pass_no_empty ltac:(repeat constructor; done)) as (H1 & _).
  destruct (@loops_run_until_done demoE _ _ xor_codec "k" heal_c [quiet_round; last_round] pass_w
    (fun _ => None) (fun _ => no_faults) 0 eq_refl pass_no_empty ltac:(repeat constructor; done)) as (_ & _ & H2 & _).
  exact (conj H1 H2).
Defined.
