(* ===== verification/System.v ===== *)
(** * The cluster over time

    What the coordinators and the nodes do, one step after another: a chunk of a request
    goes out to its owners, a manifest is read or committed, a pass reads a page of objects
    or visits one, a node collects, a node crashes, or dies in the middle of writing a file.
    The steps of any number of requests and passes of any coordinators come in any order.
    What ties them together is one invariant: each manifest in etcd, of an object or of a
    part, is borne out by the disks of as many of the nodes it names as the write quorum,
    and so is whatever a request has ready to commit. Each step is shown to keep it from
    what its own file proves, and the reachable worlds have it by induction on the steps.
    That whole requests and passes are made of such steps is proved at the end.

    The cluster replicates. A collection is one step, and may begin only when what other
    requests have not committed yet is protected: [Collect] has the overlap of a collection
    with everything else, and a run in which it loses a chunk. A crash spares the
    directories that have files in them: [Store] has the run in which one does not. *)

From S2P Require Import Prelude GoStr Strconv Path Hash Crc Ring Ec Object Store Etcd Meta Node Cluster Multipart Collect Repair Rebalance Passes.

(** ** How the records change *)

Section evolution.
Context {E : Type} `{!Etcd doc E} `{!EtcdLaws doc E}.

Definition manifest_at (st : estate doc) (k : string) (m : Manifest) : Prop :=
  exists x, es_kvs st !! k = Some x /\ kv_value x = DManifest m.

(** A record that is there afterwards was there before, or is newer than everything was,
    and if it is a manifest it is the one that [o] allows. *)
Definition adds (o : option (string * Manifest)) (e e' : E) : Prop :=
  es_rev (e_state e) <= es_rev (e_state e') /\
  forall k x, es_kvs (e_state e') !! k = Some x ->
    es_kvs (e_state e) !! k = Some x \/
    (es_rev (e_state e) < kv_mod x /\ forall m, kv_value x = DManifest m -> o = Some (k, m)).

Lemma adds_same o (e e' : E) : e_state e' = e_state e -> adds o e e'.
Proof. intros H. split; rewrite H; [done|]. by left. Qed.

Lemma adds_trans o (e1 e2 e3 : E) : adds o e1 e2 -> adds o e2 e3 -> adds o e1 e3.
Proof.
  intros [Hr1 H1] [Hr2 H2]. split; [lia|]. intros k x [Hx|[Hlt Ho]]%H2; [by apply H1|]. right. split; [lia | done].
Qed.

Lemma adds_weaken o (e e' : E) : adds None e e' -> adds o e e'.
Proof. intros [Hr H]. split; [done|]. intros k x [Hx|[Hlt Ho]]%H; [by left|]. right. split; [done|]. by intros m ?%Ho. Qed.

(** Removing records adds nothing. *)
Lemma adds_subset o (e e' : E) : es_rev (e_state e) <= es_rev (e_state e') ->
  es_kvs (e_state e') ⊆ es_kvs (e_state e) -> adds o e e'.
Proof. intros Hr Hs. split; [done|]. intros k x Hx. left. by eapply lookup_weaken. Qed.

(** The manifest an operation may put into etcd. *)
Definition op_adds (o : eop doc) : option (string * Manifest) :=
  match o with
  | OpPut k (DManifest m) | OpTxn _ k (DManifest m) => Some (k, m)
  | _ => None
  end.

Lemma apply_adds (st : estate doc) o : es_rev st <= es_rev (apply st o).2 /\
  forall k x, es_kvs (apply st o).2 !! k = Some x ->
    es_kvs st !! k = Some x \/ (es_rev st < kv_mod x /\ forall m, kv_value x = DManifest m -> op_adds o = Some (k, m)).
Proof.
  assert (Hput : forall k0 v k x, es_kvs (put st k0 v) !! k = Some x -> es_kvs st !! k = Some x \/
    (es_rev st < kv_mod x /\ k = k0 /\ kv_value x = v)).
  { intros k0 v k x Hx. unfold put in Hx. simpl in Hx. apply lookup_insert_Some in Hx as [[-> <-]|[_ Hx]]; [|by left].
    right. simpl. split; [lia | done]. }
  destruct o as [k0 v|k0|a b|ifs k0 v]; cbn [apply snd op_adds].
  - split; [simpl; lia|]. intros k x [?|(? & -> & Hv)]%Hput; [by left|]. right. split; [done|]. intros m Hm. by rewrite <- Hv, Hm.
  - destruct (es_kvs st !! k0) as [x0|]; [|split; [lia | by left]]. simpl. split; [lia|].
    intros j x [_ Hx]%lookup_delete_Some. by left.
  - simpl. split; [case_match; lia|]. intros k x [Hx _]%map_lookup_filter_Some. by left.
  - destruct (forallb _ _); cbn [snd]; [|split; [lia | by left]]. split; [simpl; lia|].
    intros k x [?|(? & -> & Hv)]%Hput; [by left|]. right. split; [done|]. intros m Hm. by rewrite <- Hv, Hm.
Qed.

Lemma write_adds o (e e' : E) r : e_write o e = (r, e') -> adds (op_adds o) e e'.
Proof.
  intros H%e_write_law. assert (Hs : e_state e' = e_state e \/ e_state e' = (apply (e_state e) o).2).
  { destruct r; [right; by rewrite <- H | tauto]. }
  unfold adds. destruct Hs as [->| ->]; [|apply apply_adds]. split; [done|]. by left.
Qed.

Lemma get_adds o k (e e' : E) r : e_get k e = (r, e') -> adds o e e'.
Proof. intros [H _]%e_get_law. by apply adds_same. Qed.
Lemma range_adds o a b l (e e' : E) r : e_range a b l e = (r, e') -> adds o e e'.
Proof. intros [H _]%e_range_law. by apply adds_same. Qed.
Lemma grant_adds o t (e e' : E) r : e_grant t e = (r, e') -> adds o e e'.
Proof. intros [H _]%e_grant_law. by apply adds_same. Qed.
Lemma keepAlive_adds o l (e e' : E) r : e_keepAlive l e = (r, e') -> adds o e e'.
Proof. intros [H _]%e_keepAlive_law. by apply adds_same. Qed.
End evolution.

(** Follow the calls of an operation of the metadata store backwards. *)
Ltac meta_adds :=
  repeat match goal with
  | |- adds _ ?e ?e => by apply adds_same
  | H : e_get _ ?a = (_, ?b) |- adds _ _ ?b => eapply adds_trans; [|exact (get_adds _ _ _ _ _ H)]; clear H
  | H : e_range _ _ _ ?a = (_, ?b) |- adds _ _ ?b => eapply adds_trans; [|exact (range_adds _ _ _ _ _ _ _ H)]; clear H
  | H : e_grant _ ?a = (_, ?b) |- adds _ _ ?b => eapply adds_trans; [|exact (grant_adds _ _ _ _ _ H)]; clear H
  | H : e_keepAlive _ ?a = (_, ?b) |- adds _ _ ?b => eapply adds_trans; [|exact (keepAlive_adds _ _ _ _ _ H)]; clear H
  | H : e_write ?o ?a = (_, ?b) |- adds _ _ ?b => apply write_adds in H; cbn [op_adds] in H; eapply adds_trans; [|exact H]; clear H
  end.
(** The same, of an operation given by its definition. *)
Ltac op_adds_by := let H := fresh in intros H; meta_cases H; meta_adds.

Section meta_ops.
Context {E : Type} `{!Etcd doc E} `{!EtcdLaws doc E} (prefix : string).
Implicit Types e : E.

Lemma MarkWriting_adds id node e r e' : MarkWriting prefix id node e = (r, e') -> adds None e e'.
Proof. unfold MarkWriting. op_adds_by. Qed.
Lemma DoneWriting_adds id e r e' : DoneWriting prefix id e = (r, e') -> adds None e e'.
Proof. unfold DoneWriting. op_adds_by. Qed.
Lemma SaveCursor_adds task node k e r e' : SaveCursor prefix task node k e = (r, e') -> adds None e e'.
Proof. unfold SaveCursor. op_adds_by. Qed.
Lemma Cursor_adds task node e r e' : Cursor prefix task node e = (r, e') -> adds None e e'.
Proof. unfold Cursor. op_adds_by. Qed.
Lemma CreateUpload_adds id u e r e' : CreateUpload prefix id u e = (r, e') -> adds None e e'.
Proof. unfold CreateUpload. op_adds_by. Qed.
Lemma FinishUpload_adds id d e r e' : FinishUpload prefix id d e = (r, e') -> adds None e e'.
Proof. unfold FinishUpload. op_adds_by. Qed.
Lemma GetCompletion_adds id e r e' : GetCompletion prefix id e = (r, e') -> adds None e e'.
Proof. unfold GetCompletion. op_adds_by. Qed.
Lemma DeleteUpload_adds id e r e' : DeleteUpload prefix id e = (r, e') -> adds None e e'.
Proof. unfold DeleteUpload. op_adds_by. Qed.
Lemma Delete_adds k e r e' : Delete prefix k e = (r, e') -> adds None e e'.
Proof. unfold Delete. op_adds_by. Qed.
Lemma Join_adds id addr ttl e r e' : Meta.Join prefix id addr ttl e = (r, e') -> adds None e e'.
Proof. unfold Meta.Join, register. op_adds_by. Qed.
Lemma Commit_adds k m e r e' : Commit prefix k m e = (r, e') -> adds (Some (key prefix k, json_manifest m)) e e'.
Proof. unfold Commit. op_adds_by. Qed.
Lemma CommitWhileWriting_adds k m id e r e' : CommitWhileWriting prefix k m id e = (r, e') -> adds (Some (key prefix k, json_manifest m)) e e'.
Proof. unfold CommitWhileWriting, whileWriting. op_adds_by. Qed.
Lemma CommitIfUnchanged_adds k m rev e r e' : CommitIfUnchanged prefix k m rev e = (r, e') -> adds (Some (key prefix k, json_manifest m)) e e'.
Proof. unfold CommitIfUnchanged. op_adds_by. Qed.
Lemma CommitPart_adds id n m e r e' : CommitPart prefix id n m e = (r, e') -> adds (Some (partKey prefix id n, json_manifest m)) e e'.
Proof. unfold CommitPart. op_adds_by. Qed.
Lemma GetUpload_adds id e r e' : GetUpload prefix id e = (r, e') -> adds None e e'.
Proof. intros [H _]%GetUpload_spec. by apply adds_same. Qed.
Lemma CommitPartWhileWriting_adds id n m wid e r e' : CommitPartWhileWriting prefix id n m wid e = (r, e') ->
  adds (Some (partKey prefix id n, json_manifest m)) e e'.
Proof.
  unfold CommitPartWhileWriting. intros H. meta_cases H;
    try (match goal with Hg : GetUpload _ _ _ = _ |- _ => apply GetUpload_adds, (adds_weaken (Some (partKey prefix id n, json_manifest m))) in Hg;
      eapply adds_trans; [|exact Hg] end); meta_adds.
Qed.
Lemma Parts_adds id e r e' : Parts prefix id e = (r, e') -> adds None e e'.
Proof. unfold Parts. op_adds_by. Qed.
End meta_ops.

(** ** What writing a chunk leaves *)

Section writes.
Context {E : Type} `{!Etcd doc E} `{!EtcdLaws doc E} {rs : ReedSolomon} (prefix : string) (c : Coordinator).
Context (Hrep : c_scheme c = zeroScheme).
Abbreviation World := (world E).

Lemma on_meta_inv {A} (op : E -> res A * E) (w w' : World) r : on_meta op w = (r, w') ->
  op (w_etcd w) = (r, w_etcd w') /\ w_stores w' = w_stores w /\ w_now w' = w_now w.
Proof. unfold on_meta. destruct (op (w_etcd w)) as [r1 e]. by intros [= <- <-]. Qed.

(** Chunks of other names stay where they are. *)
Definition keeps_others (id : string) (w w' : World) : Prop :=
  forall a x crc z, x <> id -> holds_chunk w a x crc z -> holds_chunk w' a x crc z.

Lemma keeps_others_stores id (w w' : World) : w_stores w' = w_stores w -> keeps_others id w w'.
Proof. intros H a x crc z _. unfold holds_chunk, all_files. by rewrite H. Qed.

Lemma commit_chunk_effect owners lv rnd i d σ out σ' :
  commit_chunk prefix c owners lv (chunk_ref rnd i d) d σ = (out, σ') ->
  adds None (w_etcd (ws_world σ)) (w_etcd (ws_world σ')) /\
  keeps_others (c_ID (chunk_ref rnd i d)) (ws_world σ) (ws_world σ') /\
  (forall ref, out = Ok ref -> ref = chunk_ref rnd i d /\ on_quorum c lv (ws_world σ') owners (c_quorum c) ref).
Proof.
  unfold commit_chunk. destruct (if _ && _ then on_meta _ _ else _) as [marked w1] eqn:Hm.
  assert (Hm1 : adds None (w_etcd (ws_world σ)) (w_etcd w1) /\ w_stores w1 = w_stores (ws_world σ)).
  { destruct (_ && _); [|injection Hm as _ <-; split; [by apply adds_same | done]].
    apply on_meta_inv in Hm as (Hm & Hs & _). split; [by apply MarkWriting_adds in Hm | done]. }
  destruct Hm1 as [Ha Hs]. destruct marked as [[]|e].
  2: { intros [= <- <-]. split; [done|]. split; [by apply keeps_others_stores | done]. }
  rewrite decide_True by done. destruct (replicate_chunk _ _ _ _ _ _) as [err w2] eqn:Hr.
  intros [= <- <-]. apply replicate_spec in Hr as (He & Hk & Hq); [|apply crc32c_range]. cbn [ws_world].
  split; [by rewrite He|]. split.
  - intros a x crc z Hx Hh. apply Hk; [done|]. by apply (keeps_others_stores (c_ID (chunk_ref rnd i d)) (ws_world σ)).
  - intros ref. destruct err; by intros [= <-].
Qed.
End writes.

(** ** The states of the cluster *)

(** The world, the chunk names written so far, the objects that passes have read and not yet
    visited, and what requests under way know to be stored: a chunk, and the nodes the
    manifest they will commit names for it. *)
Record sys (E : Type) := mk_sys {
  s_world : world E;
  s_used : gset string;
  s_read : list MetaObject;
  s_ready : list (list string * ChunkRef)
}.
Arguments mk_sys {_} _ _ _ _.
Arguments s_world {_} _.
Arguments s_used {_} _.
Arguments s_read {_} _.
Arguments s_ready {_} _.

Section invariant.
Context {E : Type} `{!Etcd doc E} `{!EtcdLaws doc E} {rs : ReedSolomon} (prefix : string).
(** The address of a node, and the least write quorum of any coordinator. *)
Context (A : string -> string) (q : Z).
Abbreviation World := (world E).

Definition held (w : World) (nodes : list string) (ref : ChunkRef) : Prop :=
  exists X : gset string, X ⊆ list_to_set nodes /\ q <= Z.of_nat (size X) /\
    forall n, n ∈ X -> holds_chunk w (A n) (c_ID ref) (c_CRC ref) (c_Size ref).

(** What collection looks at: the objects, and the parts of uploads. *)
Definition place (k : string) : Prop :=
  (exists j, k = key prefix j) \/ (HasPrefix k (uploadsRoot prefix) = true /\ Contains k "/parts/" = true).

(** [G] is every chunk a manifest has ever named. *)
Abbreviation naming := (string -> Z -> Z -> Prop).
Abbreviation names G r := (G (c_ID r) (c_CRC r) (c_Size r)).

Definition backed (G : naming) (w : World) (m : Manifest) : Prop :=
  m_Coding m = zeroScheme /\ forall r, r ∈ m_Chunks m -> names G r /\ held w (m_Nodes m) r.

(** A name stands for one chunk, and has been written. *)
Definition naming_ok (G : naming) (used : gset string) : Prop :=
  (forall id c z c' z', G id c z -> G id c' z' -> c = c' /\ z = z') /\
  (forall id c z, G id c z -> 0 <= c < 2 ^ 32) /\
  (forall id c z, G id c z -> id ∈ used /\ id <> "").

(** What is known of an object once read: if its record has the revision it had, the record
    is still the one that was read. *)
Definition read_ok (G : naming) (e : E) (o : MetaObject) : Prop :=
  m_Coding (o_Manifest o) = zeroScheme /\ (forall r, r ∈ m_Chunks (o_Manifest o) -> names G r) /\
  0 < o_Revision o <= es_rev (e_state e) /\
  forall x, es_kvs (e_state e) !! key prefix (o_Key o) = Some x -> kv_mod x = o_Revision o ->
    as_manifest (kv_value x) = Ok (o_Manifest o).

Record durable (G : naming) (s : sys E) : Prop := {
  d_names : naming_ok G (s_used s);
  d_etcd : forall k m, manifest_at (e_state (w_etcd (s_world s))) k m -> place k /\ backed G (s_world s) m;
  d_read : forall o, o ∈ s_read s -> read_ok G (w_etcd (s_world s)) o;
  d_ready : forall p, p ∈ s_ready s -> names G p.2 /\ held (s_world s) p.1 p.2
}.

(** What is to be kept: the chunks that manifests in etcd name, and those ready for one. *)
Definition known (s : sys E) (nodes : list string) (r : ChunkRef) : Prop :=
  (exists k m, manifest_at (e_state (w_etcd (s_world s))) k m /\ m_Nodes m = nodes /\ r ∈ m_Chunks m) \/
  (nodes, r) ∈ s_ready s.

(** Such a chunk is still on each of those nodes that had it. *)
Definition keeps_named (s : sys E) (w' : World) : Prop :=
  forall nodes r n, known s nodes r -> n ∈ nodes ->
    holds_chunk (s_world s) (A n) (c_ID r) (c_CRC r) (c_Size r) -> holds_chunk w' (A n) (c_ID r) (c_CRC r) (c_Size r).

Lemma known_held (G : naming) s nodes r : durable G s -> known s nodes r -> names G r /\ held (s_world s) nodes r.
Proof.
  intros Hd [(k & m & Hm & <- & Hr)|Hp]; [|by apply (d_ready _ _ Hd) in Hp].
  destruct (d_etcd _ _ Hd k m Hm) as [_ [_ Hb]]. auto.
Qed.

Lemma keeps_named_stores s (w' : World) : w_stores w' = w_stores (s_world s) -> keeps_named s w'.
Proof. intros H nodes r n _ _. unfold holds_chunk, all_files. by rewrite H. Qed.

Lemma held_mono (w w' : World) nodes r :
  (forall n, n ∈ nodes -> holds_chunk w (A n) (c_ID r) (c_CRC r) (c_Size r) -> holds_chunk w' (A n) (c_ID r) (c_CRC r) (c_Size r)) ->
  held w nodes r -> held w' nodes r.
Proof.
  intros H (X & Hs & Hq & Hh). exists X. split; [done|]. split; [done|]. intros n Hn. apply H; [|auto].
  apply Hs in Hn. by apply elem_of_list_to_set in Hn.
Qed.

(** What a step has to show. *)
Lemma durable_step (G G' : naming) o s w' used' :
  durable G s -> (forall id c z, G id c z -> G' id c z) -> naming_ok G' used' ->
  keeps_named s w' -> adds o (w_etcd (s_world s)) (w_etcd w') ->
  (forall k m, o = Some (k, m) -> place k /\ backed G' w' m) ->
  durable G' (mk_sys w' used' (s_read s) (s_ready s)).
Proof.
  intros Hd HG Hn' Hk [Hrev Ha] Ho.
  assert (Hkept : forall nodes r, known s nodes r -> names G' r /\ held w' nodes r).
  { intros nodes r Hr. destruct (known_held G s nodes r Hd Hr) as [Hg Hh]. split; [auto|].
    eapply held_mono; [|exact Hh]. intros n Hn. by apply (Hk nodes). }
  split; simpl; [done| | |].
  - intros k m (x & Hx & Hv). destruct (Ha k x Hx) as [Hx0|[_ Hnew]]; [|by apply Ho, Hnew].
    assert (Hm : manifest_at (e_state (w_etcd (s_world s))) k m) by (by exists x).
    destruct (d_etcd _ _ Hd k m Hm) as [Hp [Hc _]]. split; [done|]. split; [done|]. intros r Hr. apply Hkept. left. by exists k, m.
  - intros ob Hob. destruct (d_read _ _ Hd ob Hob) as (Hc & Hg & Hrv & Hx). split; [done|]. split; [auto|]. split; [lia|].
    intros x Hx' Hm. destruct (Ha _ x Hx') as [Hx0|[Hlt _]]; [auto | lia].
  - intros [nodes r] Hp. apply Hkept. by right.
Qed.

(** A step that writes no new chunk names. *)
Lemma durable_same (G : naming) o s w' : durable G s -> keeps_named s w' ->
  adds o (w_etcd (s_world s)) (w_etcd w') -> (forall k m, o = Some (k, m) -> place k /\ backed G w' m) ->
  durable G (mk_sys w' (s_used s) (s_read s) (s_ready s)).
Proof. intros Hd. apply (durable_step G G); [done | done |]. apply Hd. Qed.

Lemma durable_meta {T} (op : E -> res T * E) (G : naming) s r w' : durable G s ->
  (forall e r e', op e = (r, e') -> adds None e e') -> on_meta op (s_world s) = (r, w') ->
  durable G (mk_sys w' (s_used s) (s_read s) (s_ready s)).
Proof.
  intros Hd Hop (H & Hs & _)%on_meta_inv. eapply (durable_same G None); [done | by apply keeps_named_stores | by eapply Hop | done].
Qed.

(** Whatever reads as a manifest is borne out. *)
Lemma read_backed (G : naming) s k x m : durable G s -> es_kvs (e_state (w_etcd (s_world s))) !! k = Some x ->
  as_manifest (kv_value x) = Ok m -> backed G (s_world s) m.
Proof.
  intros Hd Hx Hm. destruct (kv_value x) as [m0|u|d|t] eqn:Hv; simpl in Hm; try done.
  - injection Hm as <-. destruct (d_etcd _ _ Hd k m0) as [_ Hb]; [by exists x | done].
  - injection Hm as <-. split; [done|]. intros r Hr. by apply elem_of_nil in Hr.
Qed.

Lemma backed_stores G (w w' : World) m : w_stores w' = w_stores w -> backed G w m -> backed G w' m.
Proof.
  intros Hs [Hc Hb]. split; [done|]. intros r Hr. destruct (Hb r Hr) as [Hg Hh]. split; [done|].
  eapply held_mono; [|exact Hh]. intros n _. unfold holds_chunk, all_files. by rewrite Hs.
Qed.

(** More is known to be stored. *)
Lemma durable_ready (G : naming) s l : durable G s -> (forall p, p ∈ l -> names G p.2 /\ held (s_world s) p.1 p.2) ->
  durable G (mk_sys (s_world s) (s_used s) (s_read s) l).
Proof. intros [Hn He Hr _] Hl. by split. Qed.

Lemma backed_alike G w m m' : m_Coding m' = m_Coding m -> m_Nodes m' = m_Nodes m -> m_Chunks m' = m_Chunks m ->
  backed G w m -> backed G w m'.
Proof. unfold backed. by intros -> -> ->. Qed.
End invariant.

(** ** A coordinator of the cluster *)

Section nodes.
Context {rs : ReedSolomon} (A : string -> string) (q : Z).

(** It replicates to at least [q] nodes before it acknowledges, and it reaches the nodes it
    places on where they are. *)
Definition node_ok (c : Coordinator) : Prop :=
  c_scheme c = zeroScheme /\ q <= c_quorum c /\ plain_elem (c_self c) = true /\ c_addr c = A (c_self c) /\
  exists nodes k, 1 <= k /\ mb_ring (live c) = Ring.New nodes k /\ forall n, n ∈ nodes -> place_addr c (live c) n = A n.

(** [SetMembers] with any set of members at their addresses gives one. *)
Lemma SetMembers_node_ok (c : Coordinator) (peers : gmap string string) :
  c_scheme c = zeroScheme -> q <= c_quorum c -> plain_elem (c_self c) = true -> c_addr c = A (c_self c) ->
  (forall n a, peers !! n = Some a -> a = A n) -> node_ok (SetMembers c peers).
Proof.
  intros Hs Hq Hp Ha Hpeers. split_and!; try done. exists (sorted_keys (<[c_self c := c_addr c]> peers)), DefaultVNodes.
  split; [done|]. split; [done|]. intros n Hn. unfold place_addr, SetMembers, live. cbn [c_self c_addr c_live mb_peers].
  destruct (String.eqb_spec n (c_self c)) as [->|Hne]; [done|].
  unfold sorted_keys in Hn. apply elem_of_sort_by in Hn. apply list_elem_of_fmap in Hn as ([n' a] & -> & Hin).
  apply elem_of_map_to_list in Hin. cbn [fst] in *. rewrite lookup_insert_ne in Hin by done. rewrite lookup_insert_ne, Hin by done.
  by apply Hpeers.
Qed.

Lemma node_ok_ring c : node_ok c -> coordinator_ok c.
Proof. intros (_ & _ & _ & _ & nodes & k & ? & ? & _). by exists nodes, k. Qed.

Lemma node_ok_owners c p n x : node_ok c -> 0 <= n -> x ∈ Owners (mb_ring (live c)) p n -> place_addr c (live c) x = A x.
Proof.
  intros (_ & _ & _ & _ & nodes & k & Hk & Hr & Hp) Hn Hx. rewrite Hr in Hx. apply Hp.
  destruct (Owners_facts nodes k p n Hk Hn) as (_ & Hin & _). auto.
Qed.
End nodes.

(** ** Client requests *)

Section requests.
Context {E : Type} `{!Etcd doc E} `{!EtcdLaws doc E} {rs : ReedSolomon} (prefix : string) (A : string -> string) (q : Z).
Context (c : Coordinator) (Hc : node_ok A q c).
Abbreviation World := (world E).
Abbreviation durable := (durable prefix A q).
Abbreviation backed := (backed A q).
Implicit Types (s : sys E) (G : string -> Z -> Z -> Prop).

Lemma scheme_ok : c_scheme c = zeroScheme.
Proof. apply Hc. Qed.

(** What is on a quorum of the owners is held. *)
Lemma on_quorum_held (w : World) nodes r : NoDup nodes -> (forall n, n ∈ nodes -> exists key, n ∈ write_owners c key) ->
  on_quorum c (live c) w nodes (c_quorum c) r -> held A q w nodes r.
Proof.
  intros Hnd Hown (acked & Hsub & Hq & Hh). exists (list_to_set acked). split; [|split].
  - intros n Hn%elem_of_list_to_set. apply elem_of_list_to_set. by eapply elem_of_sublist.
  - rewrite size_list_to_set by (by eapply sublist_NoDup). destruct Hc as (_ & Hqc & _). unfold zlen in Hq. lia.
  - intros n Hn%elem_of_list_to_set. destruct (Hown n) as [key Hk]; [by eapply elem_of_sublist|].
    rewrite <- (node_ok_owners A q c (PartitionFor key) (width c) n Hc); [auto| |done].
    unfold width. by rewrite decide_True by apply scheme_ok.
Qed.

(** Another chunk under a name not used before. *)
Lemma chunk_durable G s key rnd i d writing hashed r σ' : durable G s -> c_ID (chunk_ref rnd i d) ∉ s_used s ->
  plain_elem rnd = true ->
  commit_chunk prefix c (write_owners c key) (live c) (chunk_ref rnd i d) d (mk_wstate (s_world s) writing hashed) = (r, σ') ->
  exists G', durable G' (mk_sys (ws_world σ') ({[c_ID (chunk_ref rnd i d)]} ∪ s_used s) (s_read s)
    (match r with Ok ref => (write_owners c key, ref) :: s_ready s | Err _ => s_ready s end)).
Proof.
  intros Hd Hf Hrnd Hcc. apply (commit_chunk_effect prefix c scheme_ok) in Hcc as (Ha & Hk & Hq). cbn [ws_world] in *.
  set (new := chunk_ref rnd i d) in *. pose proof (d_names _ _ _ _ _ Hd) as (Hfun & Hrange & Hdrawn).
  assert (Hold : forall id cr z, G id cr z -> id <> c_ID new) by (intros id cr z [Hu _]%Hdrawn ->; done).
  pose (G' := fun id cr z => G id cr z \/ (id = c_ID new /\ cr = c_CRC new /\ z = c_Size new)). exists G'.
  assert (Hd' : durable G' (mk_sys (ws_world σ') ({[c_ID new]} ∪ s_used s) (s_read s) (s_ready s))).
  { apply (durable_step prefix A q G G' None); try done; [by left| |].
    - split_and!.
      + intros id c1 z1 c2 z2 [H1|(-> & -> & ->)] [H2|(Hid & -> & ->)]; [by eapply Hfun| | |done];
          [by apply Hold in H1 | by apply Hold in H2].
      + intros id cr z [H|(_ & -> & _)]; [by eapply Hrange | apply crc32c_range].
      + intros id cr z [[Hu Hne]%Hdrawn|(-> & _ & _)]; (split; [set_solver|]); [done|].
        apply plain_elem_spec in Hrnd as (Hne & _). simpl. by destruct rnd.
    - intros nodes r' n Hkn _. apply Hk. eapply Hold. by apply (known_held prefix A q G s nodes r' Hd). }
  destruct r as [ref|e]; [|done]. destruct (Hq ref eq_refl) as [-> Hon].
  apply (durable_ready prefix A q G' _ _ Hd'). intros p [->|Hp]%elem_of_cons; [|by apply (d_ready _ _ _ _ _ Hd')].
  split; [by right|]. apply on_quorum_held; [|intros n Hn; by exists key | done].
  apply write_owners_NoDup; [apply scheme_ok | by eapply node_ok_ring].
Qed.

Lemma key_place k : place prefix (key prefix k).
Proof. left. by exists k. Qed.

Lemma partKey_place id n : plain_elem id = true -> place prefix (partKey prefix id n).
Proof.
  intros Hid. right. unfold partKey, uploadPrefix, uploadsRoot. rewrite join1, join2 by done. split.
  - apply HasPrefix_spec. eexists. rewrite <- !sapp_assoc. reflexivity.
  - apply Contains_spec. exists (keyroot prefix +:+ "uploads/" +:+ id), (pad_dec 5 n). by rewrite <- !sapp_assoc.
Qed.
End requests.

Section manifests.
Context {E : Type} `{!Etcd doc E} `{!EtcdLaws doc E} {rs : ReedSolomon} (prefix : string) (A : string -> string) (q : Z).
Abbreviation World := (world E).
Abbreviation durable := (durable prefix A q).
Abbreviation backed := (backed A q).
Implicit Types (s : sys E) (G : string -> Z -> Z -> Prop).

(** A manifest that was read, and what it names. *)
Definition chunks_of (m : Manifest) : list (list string * ChunkRef) := map (fun r => (m_Nodes m, r)) (m_Chunks m).

Lemma chunks_of_spec m nodes r : (nodes, r) ∈ chunks_of m <-> nodes = m_Nodes m /\ r ∈ m_Chunks m.
Proof.
  unfold chunks_of. rewrite list_elem_of_fmap. split; [by intros (r' & [= -> ->] & Hr)|]. intros [-> Hr]. by exists r.
Qed.

Lemma backed_ready G s m : durable G s -> backed G (s_world s) m ->
  durable G (mk_sys (s_world s) (s_used s) (s_read s) (chunks_of m ++ s_ready s)).
Proof.
  intros Hd [_ Hb]. apply (durable_ready prefix A q); [done|]. intros [nodes r] [[-> Hr]%chunks_of_spec|Hp]%elem_of_app;
    [by apply Hb | by apply (d_ready _ _ _ _ _ Hd)].
Qed.

Lemma get_durable G s from m w' : durable G s -> on_meta (Get prefix from) (s_world s) = (Ok m, w') ->
  durable G (mk_sys w' (s_used s) (s_read s) (chunks_of m ++ s_ready s)).
Proof.
  intros Hd (Hg & Hs & _)%on_meta_inv. apply Get_spec in Hg as [Hst [Hm|?]]; [|done]. unfold lookup_obj in Hm.
  destruct (es_kvs _ !! key prefix from) as [x|] eqn:Hx; [|done]. apply (backed_ready G (mk_sys w' (s_used s) (s_read s) (s_ready s))).
  - apply (durable_same prefix A q G None); [done | by apply keeps_named_stores | by apply adds_same | done].
  - apply (backed_stores A q G (s_world s)); [done|]. by eapply read_backed.
Qed.

Lemma Parts_reads id (e e' : E) recorded : Parts prefix id e = (Ok recorded, e') -> forall n m, recorded !! n = Some m ->
  exists k x, es_kvs (e_state e) !! k = Some x /\ as_manifest (kv_value x) = Ok m.
Proof.
  intros (r & e1 & Hr & H)%st_bind_Ok n m Hm. apply e_range_law in Hr as [_ ->]. injection H as H _.
  apply res_bind_Ok in H as (l & Hl & [= <-]). apply res_map_Ok in Hl. unfold range_spec in Hl. simpl in Hl.
  assert (Hin : (n, m) ∈ l).
  { revert Hm. rewrite <- (reverse_involutive l). generalize (reverse l). clear. induction l as [|[i m0] l IH]; simpl; [by rewrite lookup_empty|].
    rewrite reverse_cons, foldl_app. simpl. intros [[<- <-]|[_ H]]%lookup_insert_Some; apply elem_of_app; [right; by left | left; auto]. }
  apply list_elem_of_lookup in Hin as [i Hi]. destruct (Forall2_lookup_r _ _ _ _ _ Hl Hi) as ([k x] & Hkx & Hdec).
  cbn [fst snd] in Hdec. destruct (Atoi _); [|done]. apply res_bind_Ok in Hdec as (m1 & Hm1 & [= _ <-]).
  apply list_elem_of_lookup_2, elem_of_sorted_range in Hkx as [_ Hx]. by exists k, x.
Qed.

Definition parts_chunks (recorded : gmap Z Manifest) : list (list string * ChunkRef) :=
  map_to_list recorded ≫= fun p => chunks_of p.2.

Lemma parts_durable G s id recorded w' : durable G s -> on_meta (Parts prefix id) (s_world s) = (Ok recorded, w') ->
  durable G (mk_sys w' (s_used s) (s_read s) (parts_chunks recorded ++ s_ready s)).
Proof.
  intros Hd (Hp & Hs & _)%on_meta_inv. pose proof (Parts_adds _ _ _ _ _ Hp) as Ha.
  assert (Hd' : durable G (mk_sys w' (s_used s) (s_read s) (s_ready s))).
  { apply (durable_same prefix A q G None); [done | by apply keeps_named_stores | done | done]. }
  apply (durable_ready prefix A q G _ _ Hd'). intros [nodes r] [Hr|Hr]%elem_of_app; [|by apply (d_ready _ _ _ _ _ Hd')].
  apply list_elem_of_bind in Hr as ([n m] & Hr & Hm). apply elem_of_map_to_list in Hm.
  apply chunks_of_spec in Hr as [-> Hr]. eapply Parts_reads in Hm as (k & x & Hx & Hm); [|exact Hp].
  apply (backed_stores A q G (s_world s) w'); [done | by eapply read_backed | done].
Qed.

(** Committing a manifest whose chunks are known to be where it says. *)
Definition ready (s : sys E) (m : Manifest) : Prop :=
  m_Coding m = zeroScheme /\ forall r, r ∈ m_Chunks m -> (m_Nodes m, r) ∈ s_ready s.

Lemma commit_durable {T} (op : E -> res T * E) k m G s r w' : durable G s -> ready s m -> place prefix k ->
  (forall e r e', op e = (r, e') -> adds (Some (k, json_manifest m)) e e') ->
  on_meta op (s_world s) = (r, w') -> durable G (mk_sys w' (s_used s) (s_read s) (s_ready s)).
Proof.
  intros Hd [Hcod Hr] Hp Hop (H & Hs & _)%on_meta_inv.
  apply (durable_same prefix A q G (Some (k, json_manifest m))); [done | by apply keeps_named_stores | by eapply Hop |].
  intros k' m' [= <- <-]. split; [done|]. apply (backed_stores A q G (s_world s)); [done|]. split; [done|].
  intros r' Hr'. by apply (d_ready _ _ _ _ _ Hd (m_Nodes m, r')), Hr.
Qed.

Lemma expire_page_adds cutoff : forall kvs start n (e e' : E) r, expire_page prefix cutoff kvs start n e = (r, e') -> adds None e e'.
Proof.
  induction kvs as [|[k x] kvs IH]; intros start n e e' r; cbn [expire_page]; [intros [= _ <-]; by apply adds_same|].
  destruct (negb _); [apply IH|]. destruct (as_upload _); [|intros [= _ <-]; by apply adds_same].
  destruct (_ <? _); [apply IH|]. unfold st_bind. destruct (DeleteUpload _ _ e) as [[u'|e0] e1] eqn:Hdel; apply DeleteUpload_adds in Hdel.
  - intros H%IH. by eapply adds_trans.
  - by intros [= _ <-].
Qed.

Lemma expire_loop_adds cutoff : forall fuel start n (e e' : E) r, expire_loop prefix fuel cutoff start n e = Some (r, e') -> adds None e e'.
Proof.
  induction fuel as [|fuel IH]; intros start n e e' r; cbn [expire_loop]; [done|].
  destruct (sle _ _); [intros [= _ <-]; by apply adds_same|].
  destruct (e_range _ _ _ e) as [[[[|kv kvs] more]|err] e1] eqn:Hr; apply (range_adds None) in Hr; [by intros [= _ <-]| |by intros [= _ <-]].
  destruct (expire_page _ _ _ _ _ e1) as [[[st' n']|err] e2] eqn:Hp; apply expire_page_adds in Hp.
  - intros H%IH. eapply adds_trans; [exact Hr|]. by eapply adds_trans.
  - intros [= _ <-]. by eapply adds_trans.
Qed.

Lemma ExpireUploads_durable G s r w' : durable G s -> ClusterExpireUploads prefix (s_world s) = Some (r, w') ->
  durable G (mk_sys w' (s_used s) (s_read s) (s_ready s)).
Proof.
  intros Hd. unfold ClusterExpireUploads, ExpireUploads. destruct (expire_loop _ _ _ _ _ _) as [[r1 e1]|] eqn:H; [|done].
  intros [= <- <-]. apply expire_loop_adds in H.
  by apply (durable_same prefix A q G None); [|apply keeps_named_stores| |].
Qed.
End manifests.

(** ** Visits of the background passes *)

Section visits.
Context {E : Type} `{!Etcd doc E} `{!EtcdLaws doc E} {rs : ReedSolomon} (prefix : string) (A : string -> string) (q : Z).
Context (c : Coordinator) (Hc : node_ok A q c).
Abbreviation World := (world E).
Abbreviation durable := (durable prefix A q).
Implicit Types (s : sys E) (G : string -> Z -> Z -> Prop) (o : MetaObject).

Lemma read_consistent G s o : durable G s -> o ∈ s_read s -> consistent (m_Chunks (o_Manifest o)).
Proof.
  intros [(Hfun & Hrange & _) _ Hr _] (_ & Hg & _)%Hr. split.
  - apply Forall_forall. intros r Hr'. by eapply Hrange, Hg.
  - intros r r' Hr1 Hr2 Hid. apply Hg in Hr1, Hr2. rewrite Hid in Hr1. by eapply Hfun.
Qed.

(** Writing the chunks of an object that was read disturbs no chunk that is named. *)
Lemma keeps_all_named G s o w' : durable G s -> o ∈ s_read s -> keeps_all (m_Chunks (o_Manifest o)) (s_world s) w' ->
  keeps_named A s w'.
Proof.
  intros Hd (_ & Hg & _)%(d_read _ _ _ _ _ Hd) Hk nodes r n Hkn _. apply Hk. intros r' Hr' Hid.
  destruct (d_names _ _ _ _ _ Hd) as (Hfun & _). destruct (known_held prefix A q G s nodes r Hd Hkn) as [Hn _]. apply Hg in Hr'. rewrite Hid in Hr'. by eapply Hfun.
Qed.

Lemma visit_durable G s o w' : durable G s -> o ∈ s_read s -> keeps_all (m_Chunks (o_Manifest o)) (s_world s) w' ->
  w_etcd w' = w_etcd (s_world s) -> durable G (mk_sys w' (s_used s) (s_read s) (s_ready s)).
Proof.
  intros Hd Ho Hk He. apply (durable_same prefix A q G None); [done | by eapply keeps_all_named | | done].
  apply adds_same. by rewrite He.
Qed.

Lemma repair_durable G s o st err st' w' : durable G s -> o ∈ s_read s ->
  repairObject c o st (s_world s) = (err, st', w') -> durable G (mk_sys w' (s_used s) (s_read s) (s_ready s)).
Proof.
  intros Hd Ho H. pose proof (f_equal (fun p => w_etcd p.2) H) as He. cbn beta in He. rewrite repairObject_etcd in He. cbn [snd] in He.
  eapply visit_durable; [done | exact Ho | | by symmetry]. destruct (responsible c (o_Key o)) eqn:Hresp.
  - apply repairObject_spec in H as (_ & Hk & _); [done | done | | by eapply read_consistent].
    by destruct (d_read _ _ _ _ _ Hd o Ho) as (? & _).
  - unfold repairObject in H. rewrite Hresp in H. injection H as _ _ <-. by intros a x y z _.
Qed.

(** Scrubbing writes nothing but what the manifest describes. *)
Lemma rebuild_keeps ref lv : forall nodes errs (w w' : World) err,
  rebuild_loop c ref nodes lv errs w = (err, w') -> keeps w w' (c_ID ref) (c_CRC ref) (c_Size ref).
Proof.
  induction nodes as [|n nodes IH]; intros errs w w' err; cbn [rebuild_loop]; [intros [= _ <-]; by apply keeps_refl|].
  destruct (_ || _); [apply IH|].
  destruct (FetchChunk _ _ _ _) as [[src|e] w1] eqn:Hf; apply FetchChunk_world in Hf.
  - destruct (local_write _ _ _ _ _ _) as [[e|] w2] eqn:Hw; apply local_write_spec in Hw as (_ & _ & Hk & _).
    + intros Hk'%IH. eapply keeps_untouched; [exact Hf|]. by eapply keeps_trans.
    + intros [= _ <-]. by eapply keeps_untouched.
  - intros Hk%IH. by eapply keeps_untouched.
Qed.

Lemma scrub_chunk_keeps ref nodes lv st (w w' : World) err st' : scrub_chunk c ref nodes lv st w = (err, st', w') ->
  keeps w w' (c_ID ref) (c_CRC ref) (c_Size ref).
Proof.
  unfold scrub_chunk. destruct (local_has _ _ _) as [[[]|e] w1] eqn:Hh; apply local_has_spec in Hh as [Hu _];
    pose proof (keeps_refl w w1 (c_ID ref) (c_CRC ref) (c_Size ref) (proj1 Hu)) as Hk1; [|by intros [= _ _ <-]..].
  destruct (verifyLocal c ref w1) as [[e|] w2] eqn:Hv; apply verifyLocal_intact in Hv as [Hu2 _];
    pose proof (keeps_trans _ _ _ _ _ _ Hk1 (keeps_refl w1 w2 (c_ID ref) (c_CRC ref) (c_Size ref) (proj1 Hu2))) as Hk2;
    [|by intros [= _ _ <-]].
  destruct (negb _); [by intros [= _ _ <-]|]. unfold rebuildFromPeers.
  destruct (rebuild_loop _ _ _ _ _ _) as [[e'|] w3] eqn:Hr; apply rebuild_keeps in Hr; intros [= _ _ <-]; by eapply keeps_trans.
Qed.

Lemma scrub_chunks_keeps all nodes lv : consistent all -> forall refs errs st (w w' : World) errs' st',
  (forall r, r ∈ refs -> r ∈ all) -> scrub_chunks c refs nodes lv errs st w = (errs', st', w') -> keeps_all all w w'.
Proof.
  intros [_ Hcons]. induction refs as [|ref refs IH]; intros errs st w w' errs' st' Hsub; cbn [scrub_chunks].
  { intros [= _ _ <-]. by intros a x y z _. }
  destruct (scrub_chunk _ _ _ _ _ _) as [[err st1] w1] eqn:Hs. apply scrub_chunk_keeps in Hs.
  intros Hk%IH; [|intros r Hr; apply Hsub; by right]. intros a x y z Hx Hh. apply Hk; [done|].
  apply Hs; [|done]. intros ->. apply Hx; [|done]. apply Hsub. left.
Qed.

Lemma scrub_durable G s o st err st' w' : durable G s -> o ∈ s_read s ->
  scrubObject c o st (s_world s) = (err, st', w') -> durable G (mk_sys w' (s_used s) (s_read s) (s_ready s)).
Proof.
  intros Hd Ho H. pose proof (f_equal (fun p => w_etcd p.2) H) as He. cbn beta in He. rewrite scrubObject_etcd in He. cbn [snd] in He.
  eapply visit_durable; [done | exact Ho | | by symmetry]. unfold scrubObject in H.
  destruct (d_read _ _ _ _ _ Hd o Ho) as (Hcod & _). rewrite bool_decide_false in H by tauto.
  destruct (scrub_chunks _ _ _ _ _ _ _) as [[errs st1] w1] eqn:Hs. injection H as _ _ <-.
  eapply scrub_chunks_keeps in Hs; [exact Hs | by eapply read_consistent | done].
Qed.

(** Trading nodes for at least as many new ones that have the chunk keeps the quorum. *)
Lemma held_traded (w : World) (nodes want : list string) r : NoDup want -> zlen nodes <= zlen want ->
  held A q w nodes r ->
  (forall n, n ∈ want -> n ∉ nodes -> holds_chunk w (A n) (c_ID r) (c_CRC r) (c_Size r)) -> held A q w want r.
Proof.
  intros Hnd Hlen (X & HX & Hq & Hh) Hnew. set (N := list_to_set nodes : gset string). set (W := list_to_set want : gset string).
  exists (W ∖ N ∪ W ∩ X). split; [set_solver|]. split.
  - assert (HW : Z.of_nat (size W) = zlen want) by (unfold W, zlen; by rewrite size_list_to_set).
    assert (HN : Z.of_nat (size N) <= zlen nodes).
    { unfold N, zlen. clear. induction nodes as [|n nodes IH]; [done|]. cbn [list_to_set length].
      pose proof (size_union_alt {[n]} (list_to_set nodes : gset string)). rewrite size_singleton in *.
      pose proof (subseteq_size (list_to_set nodes ∖ {[n]} : gset string) (list_to_set nodes) ltac:(set_solver)). lia. }
    rewrite size_union by set_solver.
    pose proof (size_difference_alt W N). pose proof (size_difference_alt N W). pose proof (size_difference_alt X W).
    assert (size (W ∩ N) = size (N ∩ W)) as Hsym by (f_equal; set_solver).
    assert (size (W ∩ X) = size (X ∩ W)) as Hsym' by (f_equal; set_solver).
    pose proof (subseteq_size (X ∖ W) (N ∖ W) ltac:(set_solver)).
    pose proof (subseteq_size (W ∩ N) W ltac:(set_solver)). pose proof (subseteq_size (N ∩ W) N ltac:(set_solver)).
    pose proof (subseteq_size (X ∩ W) X ltac:(set_solver)). lia.
  - intros n [[HnW HnN]%elem_of_difference|[_ HnX]%elem_of_intersection]%elem_of_union; [|auto].
    apply Hnew; [by apply elem_of_list_to_set in HnW|]. intros Hin. apply HnN. by apply elem_of_list_to_set.
Qed.

Lemma rebalance_durable G s o st err st' w' : durable G s -> o ∈ s_read s ->
  rebalanceObject prefix c o st (s_world s) = (err, st', w') -> durable G (mk_sys w' (s_used s) (s_read s) (s_ready s)).
Proof.
  intros Hd Ho H. destruct (d_read _ _ _ _ _ Hd o Ho) as (Hcod & Hg & Hrev & Hsame).
  apply rebalanceObject_spec in H as (Hk & Hres & _); [|unfold sums_consistent; rewrite decide_True by done; by eapply read_consistent|lia].
  unfold nothing_lost in Hk. rewrite decide_True in Hk by done.
  pose proof (keeps_all_named _ _ _ _ Hd Ho Hk) as Hkn.
  destruct Hres as [He|((x & Hx & Hm) & He & Hlen & Hnew)].
  { apply (durable_same prefix A q G None); [done | done | by apply adds_same | done]. }
  set (want := new_owners c o) in *. set (m' := with_nodes (o_Manifest o) want) in *.
  assert (Hb : backed A q G (s_world s) (o_Manifest o)) by (eapply read_backed; [done | exact Hx | by apply Hsame]).
  unfold new_owners_hold in Hnew. rewrite decide_True in Hnew by done.
  apply (durable_same prefix A q G (Some (key prefix (o_Key o), json_manifest m'))); [done | done | |].
  - pose proof (apply_adds (e_state (w_etcd (s_world s))) (OpPut (key prefix (o_Key o)) (DManifest (json_manifest m')))) as Ha.
    unfold adds. rewrite He. exact Ha.
  - intros k m [= <- <-]. split; [apply key_place|]. destruct Hb as [_ Hb]. split; [done|].
    intros r Hr. destruct (Hb r Hr) as [Hn Hh]. split; [done|].
    assert (Hred : redundancy (o_Manifest o) = Replicas) by (unfold redundancy; by rewrite Hcod).
    apply (held_traded w' (m_Nodes (o_Manifest o)) want).
    + unfold want, new_owners. rewrite Hred. destruct Hc as (_ & _ & _ & _ & nodes & kk & Hkk & -> & _).
      by apply Owners_facts.
    + done.
    + eapply held_mono; [|exact Hh]. intros n Hn' Hhold. apply Hk; [|done]. intros r' Hr' Hid.
      pose proof (d_names _ _ _ _ _ Hd) as (Hfun & _). eapply (Hfun (c_ID r)); [exact Hn|]. rewrite <- Hid. auto.
    + intros n Hn' Hnot. rewrite <- (node_ok_owners A q c (PartitionFor (o_Key o)) (redundancy (o_Manifest o)) n Hc).
      * auto.
      * by rewrite Hred.
      * exact Hn'.
Qed.
End visits.

(** ** Collection *)

Lemma remove_disk_all F fs n id Q : n <> id -> disk_all fs id Q -> disk_all (RemoveChunk F fs n).2 id Q.
Proof.
  intros Hne H o [Ho|[Hp _]]%remove_possible; [auto|]. destruct Hne. unfold chunkPath in Hp. congruence.
Qed.

Lemma remove_other F fs n id d : n <> id -> fs_entries (RemoveChunk F fs n).2 !! (d, id) = fs_entries fs !! (d, id).
Proof.
  intros Hne. unfold RemoveChunk. destruct (validateID n); [done|]. destruct (fs_entries fs !! chunkPath n); [|done].
  destruct (f_remove F); [done|]. cbn [snd fs_entries set_entries]. apply lookup_delete_ne. unfold chunkPath. congruence.
Qed.

(** A sweep takes away no version of a chunk it was told to keep, nor of a young one. *)
Lemma sweep_spares lsErr fail slice refd writing cutoff fs st out s' id Q :
  (HasPrefix id (String slice "") = true -> id ∈ refd \/ inFlight writing id = true) \/
  (forall d i, fs_entries fs !! (d, id) = Some i -> cutoff < in_mtime i) ->
  ScanChunks sw_fs lsErr (sweep_visit fail refd writing cutoff) (String slice "") (mk_sweep fs st 0 None) = (out, s') ->
  disk_all fs id Q -> disk_all (sw_fs s') id Q.
Proof.
  intros Hid Hsc Hall.
  cut (disk_all (sw_fs s') id Q /\ forall d, fs_entries (sw_fs s') !! (d, id) = fs_entries fs !! (d, id)); [tauto|].
  revert Hsc. apply (ScanChunks_ind sw_fs lsErr _ (String slice "") (fun s' =>
    disk_all (sw_fs s') id Q /\ forall d, fs_entries (sw_fs s') !! (d, id) = fs_entries fs !! (d, id))); [|done].
  intros d n i σ o σ' Hi Hp [Hd He] Hv. unfold sweep_visit in Hv. cbn [ci_ID ci_Modified ci_Size] in Hv.
  destruct (bool_decide_reflect (n ∈ refd)) as [|Hr]; [by injection Hv as _ <-|].
  destruct (inFlight writing n) eqn:Hw; [by injection Hv as _ <-|].
  destruct (Z.ltb_spec cutoff (in_mtime i)); [by injection Hv as _ <-|].
  assert (Hne : n <> id).
  { intros ->. destruct Hid as [Hid|Hid]; [destruct (Hid Hp); [done | congruence]|].
    rewrite He in Hi. apply Hid in Hi. lia. }
  assert (Hrm : disk_all (RemoveChunk (fail n) (sw_fs σ) n).2 id Q /\
    forall d, fs_entries (RemoveChunk (fail n) (sw_fs σ) n).2 !! (d, id) = fs_entries fs !! (d, id)).
  { split; [by apply remove_disk_all|]. intros d'. by rewrite remove_other. }
  destruct (RemoveChunk _ _ _) as [[e|] fs']; injection Hv as _ <-; exact Hrm.
Qed.

Section collection.
Context {E : Type} `{!Etcd doc E} `{!EtcdLaws doc E} {rs : ReedSolomon} (prefix : string) (A : string -> string) (q : Z).
Context (c : Coordinator) (Hc : node_ok A q c) (Ainj : forall n n', A n = A n' -> n = n').
Abbreviation World := (world E).
Abbreviation durable := (durable prefix A q).
Abbreviation quiet := (fun (_ : nat) (e : E) => e).
Implicit Types (s : sys E) (G : string -> Z -> Z -> Prop).

Lemma nextSlice_adds (e e' : E) r : nextSlice prefix c e = (r, e') -> adds None e e'.
Proof.
  unfold nextSlice, st_bind. destruct (Cursor _ _ _ e) as [[k|err] e1] eqn:H1; apply Cursor_adds in H1; [|by intros [= _ <-]].
  destruct (SaveCursor _ _ _ _ e1) as [[u|err] e2] eqn:H2; apply SaveCursor_adds in H2; intros [= _ <-]; by eapply adds_trans.
Qed.

Lemma keep_writes_adds members : forall writes ids (e e' : E) r, keep_writes prefix members writes ids e = (r, e') -> adds None e e'.
Proof.
  induction writes as [|[i n] writes IH]; intros ids e e' r; cbn [keep_writes]; [intros [= _ <-]; by apply adds_same|].
  destruct (_ || _); [apply IH|]. unfold st_bind. destruct (DoneWriting _ _ e) as [[u|err] e1] eqn:H1; apply DoneWriting_adds in H1.
  - intros H%IH. by eapply adds_trans.
  - by intros [= _ <-].
Qed.

Lemma ScanParts_adds from (e e' : E) r : ScanParts prefix from scanPage e = (r, e') -> adds None e e'.
Proof.
  unfold ScanParts. destruct (sle _ _); [intros [= _ <-]; by apply adds_same|]. unfold st_bind.
  destruct (e_range _ _ _ e) as [[l|err] e1] eqn:Hr; apply (range_adds None) in Hr; by intros [= _ <-].
Qed.

Lemma ScanObjects_state from (e e' : E) r : ScanObjects prefix "" from scanPage e = (r, e') -> e_state e' = e_state e.
Proof.
  unfold ScanObjects, st_bind. destruct (scan prefix "" from scanPage e) as [[l|err] e1] eqn:Hs;
    apply scan_spec in Hs as [Hs _]; try done; by intros [= _ <-].
Qed.

Lemma parts_loop_adds slice : forall fuel from n acc (e e' : E) r,
  parts_loop prefix c quiet fuel slice from n acc e = Some (r, e') -> adds None e e'.
Proof.
  induction fuel as [|fuel IH]; intros from n acc e e' r; cbn [parts_loop]; [done|].
  destruct (ScanParts _ _ _ e) as [[[|p ps]|err] e1] eqn:Hs; apply ScanParts_adds in Hs; [by intros [= _ <-]| |by intros [= _ <-]].
  intros H%IH. by eapply adds_trans.
Qed.

Lemma objects_loop_adds slice : forall fuel from n acc (e e' : E) r,
  objects_loop prefix c quiet fuel slice from n acc e = Some (r, e') -> adds None e e'.
Proof.
  induction fuel as [|fuel IH]; intros from n acc e e' r; cbn [objects_loop]; [done|].
  destruct (ScanObjects _ _ _ _ e) as [[[|p ps]|err] e1] eqn:Hs; apply ScanObjects_state, (adds_same None) in Hs;
    [by intros [= _ <-]| |by intros [= _ <-]].
  intros H%IH. by eapply adds_trans.
Qed.

Lemma referenced_adds slice fuel (e e' : E) r : referenced prefix c quiet fuel slice e = Some (r, e') -> adds None e e'.
Proof.
  unfold referenced. destruct (writesInFlight prefix c e) as [[ws|err] e1] eqn:Hw.
  - assert (H1 : adds None e e1).
    { apply st_bind_Ok in Hw as (wm & e0 & H0 & Hk%keep_writes_adds). apply Writing_spec in H0 as [H0 _].
      eapply adds_trans; [by apply adds_same | done]. }
    destruct (parts_loop _ _ _ _ _ _ _ _ _) as [[[[acc n]|err] e2]|] eqn:Hp; [apply parts_loop_adds in Hp|apply parts_loop_adds in Hp|done].
    2: { intros [= _ <-]. by eapply adds_trans. }
    destruct (objects_loop _ _ _ _ _ _ _ _ _) as [[[acc'|err] e3]|] eqn:Ho; [apply objects_loop_adds in Ho..|done];
      intros [= _ <-]; (eapply adds_trans; [exact H1|]; by eapply adds_trans).
  - intros [= _ <-]. unfold writesInFlight, st_bind in Hw. destruct (Writing prefix e) as [[wm|err'] e0] eqn:H0.
    + apply Writing_spec in H0 as [H0 _]. apply keep_writes_adds in Hw. eapply adds_trans; [by apply adds_same | done].
    + injection Hw as _ <-. unfold Writing, st_bind, st_ret in H0. destruct (e_range _ _ _ e) as [[l|?] e2] eqn:Hr; [done|].
      apply (range_adds None) in Hr. by injection H0 as _ <-.
Qed.

Lemma positions_nonempty nodes node : forall i, node ∈ nodes -> positions_from i nodes node <> [].
Proof.
  induction nodes as [|n nodes IH]; intros i Hin; [by apply elem_of_nil in Hin|]. cbn [positions_from].
  destruct (String.eqb_spec n node) as [|Hne]; [done|]. apply elem_of_cons in Hin as [->|Hin]; [done|]. by apply IH.
Qed.

(** A chunk of a manifest that names this node is one the manifest protects here. *)
Lemma reference_mine k m r : m_Coding m = zeroScheme -> c_self c ∈ m_Nodes m -> r ∈ m_Chunks m -> c_ID r <> "" ->
  c_ID r ∈ reference c ∅ k m (slice_of (c_ID r)).
Proof.
  intros Hcod Hself Hr Hne. unfold reference. rewrite decide_False.
  2: { intros [Hnil _]%app_eq_nil. by eapply positions_nonempty. }
  rewrite elem_of_union, elem_of_list_to_set. right. apply list_elem_of_In, in_flat_map. exists r.
  split; [by apply list_elem_of_In|]. unfold chunk_ids.
  assert (HasPrefix (c_ID r) (String (slice_of (c_ID r)) "") = true) as ->.
  { apply HasPrefix_spec. destruct (c_ID r) as [|b t]; [done|]. by exists t. }
  cbn [negb]. rewrite decide_True by done. by left.
Qed.

Lemma named_protected G s k m r : durable G s -> manifest_at (e_state (w_etcd (s_world s))) k m -> c_self c ∈ m_Nodes m ->
  r ∈ m_Chunks m ->
  exists pk ok, protected prefix c (c_ID r) (slice_of (c_ID r)) "" pk ok (e_state (w_etcd (s_world s))).
Proof.
  intros Hd Hm Hself Hin. destruct (d_etcd _ _ _ _ _ Hd k m Hm) as [Hpl [Hcod Hb]]. destruct (Hb r Hin) as [Hg _].
  assert (Hne : c_ID r <> "").
  { pose proof (d_names _ _ _ _ _ Hd) as (_ & _ & Hdrawn). by destruct (Hdrawn _ _ _ Hg). }
  destruct Hm as (x & Hx & Hv). destruct Hpl as [[ok ->]|[Hp1 Hp2]].
  - exists "", ok. right; right. exists x, m. rewrite Hv. split; [done|]. split; [done|]. by apply reference_mine.
  - exists k, "". right; left. split; [done|]. split; [done|]. exists x, m. rewrite Hv. split; [done|]. split; [done|].
    by apply reference_mine.
Qed.

(** What a request has stored or read and not committed yet, as far as it is here, is named
    by a part or an object, covered by the record of a write, or young. *)
Definition unharmed (grace : Z) (s : sys E) : Prop := forall nodes r, (nodes, r) ∈ s_ready s -> c_self c ∈ nodes ->
  (exists wid pk k, protected prefix c (c_ID r) (slice_of (c_ID r)) wid pk k (e_state (w_etcd (s_world s)))) \/
  (forall fs d i, w_stores (s_world s) !! c_addr c = Some fs -> fs_entries fs !! (d, c_ID r) = Some i ->
     w_now (s_world s) - grace < in_mtime i).

Lemma idle_unharmed grace s : s_ready s = [] -> unharmed grace s.
Proof. intros Hn nodes r Hr. rewrite Hn in Hr. by apply elem_of_nil in Hr. Qed.

Lemma known_spared G s grace nodes r : durable G s -> unharmed grace s -> known s nodes r -> c_self c ∈ nodes ->
  (exists wid pk k, protected prefix c (c_ID r) (slice_of (c_ID r)) wid pk k (e_state (w_etcd (s_world s)))) \/
  (forall fs d i, w_stores (s_world s) !! c_addr c = Some fs -> fs_entries fs !! (d, c_ID r) = Some i ->
     w_now (s_world s) - grace < in_mtime i).
Proof.
  intros Hd Hun [(k & m & Hm & <- & Hr)|Hr] Hself; [|by eapply Hun].
  left. destruct (named_protected G s k m r Hd Hm Hself Hr) as (pk & ok & Hp). by exists "", pk, ok.
Qed.

Lemma Collect_durable G s fuel lsErr fail grace st err w' : durable G s -> unharmed grace s ->
  Collect prefix c quiet id fuel lsErr fail grace (s_world s) = Some (st, err, w') ->
  durable G (mk_sys w' (s_used s) (s_read s) (s_ready s)).
Proof.
  intros Hd Hun H. cut (adds None (w_etcd (s_world s)) (w_etcd w') /\ keeps_named A s w').
  { intros [Ha Hk]. by apply (durable_same prefix A q G None). }
  revert H. unfold Collect. destruct (on_meta (nextSlice prefix c) (s_world s)) as [[slice|e] w1] eqn:Hn;
    apply on_meta_inv in Hn as (Hn & Hs1 & Hnow); pose proof (nextSlice_adds _ _ _ Hn) as Ha1.
  2: { intros [= _ _ <-]. split; [done | by apply keeps_named_stores]. }
  destruct (referenced _ _ _ _ _ _) as [[[[refd writing]|e] e2]|] eqn:Hr; [| |done]; pose proof (referenced_adds _ _ _ _ _ Hr) as Ha2.
  2: { intros [= _ _ <-]. split; [by eapply adds_trans | by apply keeps_named_stores]. }
  cbn [w_stores set_etcd id]. rewrite Hs1. destruct (w_stores (s_world s) !! c_addr c) as [fs|] eqn:Hfs.
  2: { intros [= _ _ <-]. split; [by eapply adds_trans | by apply keeps_named_stores]. }
  destruct (ScanChunks _ _ _ _ _) as [serr sw] eqn:Hsc. intros [= _ _ <-]. split; [by eapply adds_trans|].
  intros nodes r n Hkn Hn' (fs0 & Hfs0 & Hall).
  unfold holds_chunk, all_files. cbn [w_stores set_store set_etcd id]. rewrite Hs1.
  destruct (decide (A n = c_addr c)) as [Hself|Hne]; [|rewrite lookup_insert_ne by done; by exists fs0].
  rewrite Hself in *. rewrite lookup_insert_eq. exists (sw_fs sw). split; [done|]. rewrite Hfs in Hfs0. injection Hfs0 as <-.
  destruct Hc as (_ & _ & Hplain & Haddr & _). rewrite Haddr in Hself. apply Ainj in Hself. subst n.
  eapply (sweep_spares _ _ _ _ _ _ _ _ _ _ (c_ID r)); [|exact Hsc | exact Hall].
  destruct (known_spared G s grace nodes r Hd Hun Hkn Hn') as [(wid & pk & ok & Hprot)|Hyoung].
  - left. eapply nextSlice_protects in Hprot; [|done|exact Hn].
    intros Hpre%slice_of_prefix. rewrite Hpre in Hprot. eapply referenced_protects; [|exact Hprot|exact Hr]. split; [auto|]. split; auto.
  - right. rewrite Hnow. intros d i. by apply Hyoung.
Qed.
End collection.

(** ** The steps *)

Section system.
Context {E : Type} `{!Etcd doc E} `{!EtcdLaws doc E} {rs : ReedSolomon} (prefix : string) (A : string -> string) (q : Z).
Abbreviation World := (world E).
Abbreviation durable := (durable prefix A q).
Abbreviation node_ok := (node_ok A q).
Implicit Types s : sys E.

Definition with_world (s : sys E) (w : World) : sys E := mk_sys w (s_used s) (s_read s) (s_ready s).
Definition on_disk (s : sys E) (addr : string) (fs : FS) : sys E := with_world s (set_store (s_world s) addr fs).

(** The operations of the metadata store that put no manifest into it. *)
Inductive record_op : (E -> res unit * E) -> Prop :=
  | op_mark id node : record_op (MarkWriting prefix id node)
  | op_done id : record_op (DoneWriting prefix id)
  | op_delete k : record_op (Delete prefix k)
  | op_create id u : record_op (CreateUpload prefix id u)
  | op_finish id d : record_op (FinishUpload prefix id d)
  | op_drop id : record_op (DeleteUpload prefix id)
  | op_join id addr ttl : record_op (Meta.Join prefix id addr ttl)
  | op_cursor task node k : record_op (SaveCursor prefix task node k).

(** A chunk an object that was read names. *)
Definition named_by_read (s : sys E) (id : string) (crc size : Z) : Prop :=
  exists o r, o ∈ s_read s /\ r ∈ m_Chunks (o_Manifest o) /\ id = c_ID r /\ crc = c_CRC r /\ size = c_Size r.

Inductive step : sys E -> sys E -> Prop :=
  (** Time passes, faults change, leases expire and their records go. *)
  | step_env s w' :
      w_stores w' = w_stores (s_world s) -> es_rev (e_state (w_etcd (s_world s))) <= es_rev (e_state (w_etcd w')) ->
      es_kvs (e_state (w_etcd w')) ⊆ es_kvs (e_state (w_etcd (s_world s))) -> step s (with_world s w')
  (** A chunk of a body goes out to the owners of a key, under a name of its own. *)
  | step_chunk s c key rnd i d writing hashed r σ' : node_ok c -> plain_elem rnd = true ->
      c_ID (chunk_ref rnd i d) ∉ s_used s ->
      commit_chunk prefix c (write_owners c key) (live c) (chunk_ref rnd i d) d (mk_wstate (s_world s) writing hashed) = (r, σ') ->
      step s (mk_sys (ws_world σ') ({[c_ID (chunk_ref rnd i d)]} ∪ s_used s) (s_read s)
                (match r with Ok ref => (write_owners c key, ref) :: s_ready s | Err _ => s_ready s end))
  (** A request reads the manifest of an object, or those of the parts of an upload. *)
  | step_get s from m w' : on_meta (Get prefix from) (s_world s) = (Ok m, w') ->
      step s (mk_sys w' (s_used s) (s_read s) (chunks_of m ++ s_ready s))
  | step_parts s id recorded w' : on_meta (Parts prefix id) (s_world s) = (Ok recorded, w') ->
      step s (mk_sys w' (s_used s) (s_read s) (parts_chunks recorded ++ s_ready s))
  (** It commits a manifest of chunks it has stored or read, as an object or as a part. *)
  | step_commit s m k writing r w' : ready s m ->
      (if String.eqb writing "" then on_meta (Commit prefix k m) (s_world s)
       else on_meta (CommitWhileWriting prefix k m writing) (s_world s)) = (r, w') -> step s (with_world s w')
  | step_commit_part s m id n writing r w' : ready s m -> plain_elem id = true ->
      (if String.eqb writing "" then on_meta (CommitPart prefix id n m) (s_world s)
       else on_meta (CommitPartWhileWriting prefix id n m writing) (s_world s)) = (r, w') -> step s (with_world s w')
  (** It is over, or its coordinator is. *)
  | step_over s l : (forall p, p ∈ l -> p ∈ s_ready s) -> step s (mk_sys (s_world s) (s_used s) (s_read s) l)
  | step_record s op r w' : record_op op -> on_meta op (s_world s) = (r, w') -> step s (with_world s w')
  | step_expire s r w' : ClusterExpireUploads prefix (s_world s) = Some (r, w') -> step s (with_world s w')
  (** A pass reads objects, and visits what it has read. *)
  | step_scan s objs : Forall (as_read prefix (e_state (w_etcd (s_world s)))) objs ->
      step s (mk_sys (s_world s) (s_used s) (s_read s ++ objs) (s_ready s))
  | step_repair s c o st err st' w' : node_ok c -> o ∈ s_read s ->
      repairObject c o st (s_world s) = (err, st', w') -> step s (with_world s w')
  | step_scrub s c o st err st' w' : node_ok c -> o ∈ s_read s ->
      scrubObject c o st (s_world s) = (err, st', w') -> step s (with_world s w')
  | step_rebalance s c o st err st' w' : node_ok c -> o ∈ s_read s ->
      rebalanceObject prefix c o st (s_world s) = (err, st', w') -> step s (with_world s w')
  (** A node collects. *)
  | step_collect s c fuel lsErr fail grace st err w' : node_ok c -> unharmed prefix c grace s ->
      Collect prefix c (fun _ e => e) id fuel lsErr fail grace (s_world s) = Some (st, err, w') -> step s (with_world s w')
  (** A node stops at any state of writing a file: a new one, or one a pass restores. *)
  | step_stopped s addr fs F t now id body crc size err fs' tr fs1 : w_stores (s_world s) !! addr = Some fs ->
      id ∉ s_used s \/ named_by_read s id crc size ->
      WriteChunkVerified F t now fs id body crc size = (err, fs', tr) -> fs1 ∈ tr -> step s (on_disk s addr fs1)
  (** A node crashes, and the directories that have files come back. *)
  | step_crash s addr fs fs' : w_stores (s_world s) !! addr = Some fs -> crash fs fs' ->
      (forall p i, fs_entries fs !! p = Some i -> p.1 ∈ fs_dirs fs') -> step s (on_disk s addr fs').

Context (Ainj : forall n n', A n = A n' -> n = n').

(** What happens to one disk. *)
Lemma disk_durable G s addr fs fs' : durable G s -> w_stores (s_world s) !! addr = Some fs ->
  (forall nodes r, known s nodes r -> disk_holds fs (c_ID r) (c_CRC r) (c_Size r) ->
     disk_holds fs' (c_ID r) (c_CRC r) (c_Size r)) -> durable G (on_disk s addr fs').
Proof.
  intros Hd Hfs Hk. apply (durable_same prefix A q G None); [done | | by apply adds_same | done].
  intros nodes r n Hkn _ (fs0 & Hfs0 & Hh). unfold holds_chunk, all_files. cbn [w_stores set_store].
  destruct (decide (A n = addr)) as [<-|Hne]; [|rewrite lookup_insert_ne by done; by exists fs0].
  rewrite lookup_insert_eq. exists fs'. split; [done|]. rewrite Hfs in Hfs0. injection Hfs0 as <-. by eapply Hk.
Qed.

Lemma stopped_durable G s addr fs F t now id body crc size err fs' tr fs1 : durable G s ->
  w_stores (s_world s) !! addr = Some fs -> id ∉ s_used s \/ named_by_read s id crc size ->
  WriteChunkVerified F t now fs id body crc size = (err, fs', tr) -> fs1 ∈ tr -> durable G (on_disk s addr fs1).
Proof.
  intros Hd Hfs Hid Hw Hin. eapply disk_durable; [done | done |]. intros nodes r Hkn Hh.
  pose proof (d_names _ _ _ _ _ Hd) as (Hfun & _ & Hdrawn). destruct (known_held prefix A q G s nodes r Hd Hkn) as [Hg _].
  eapply verified_write_keeps_all; [exact Hw | by right | | exact Hh]. intros Heq. destruct Hid as [Hid|(o & r' & Ho & Hr' & -> & -> & ->)].
  - destruct Hid. rewrite <- Heq. by eapply Hdrawn.
  - destruct (d_read _ _ _ _ _ Hd o Ho) as (_ & Hg' & _). apply Hg' in Hr'. rewrite <- Heq in Hr'.
    by destruct (Hfun _ _ _ _ _ Hg Hr') as [-> ->].
Qed.

Lemma crash_durable G s addr fs fs' : durable G s -> w_stores (s_world s) !! addr = Some fs -> crash fs fs' ->
  (forall p i, fs_entries fs !! p = Some i -> p.1 ∈ fs_dirs fs') -> durable G (on_disk s addr fs').
Proof.
  intros Hd Hfs Hc Hdirs. eapply disk_durable; [done | done |]. intros nodes r Hkn Hh.
  eapply disk_holds_crash; [done | done |]. apply disk_holds_file in Hh as (i & Hi & _). by apply Hdirs in Hi.
Qed.

Lemma scan_durable G s objs : durable G s -> Forall (as_read prefix (e_state (w_etcd (s_world s)))) objs ->
  durable G (mk_sys (s_world s) (s_used s) (s_read s ++ objs) (s_ready s)).
Proof.
  intros Hd HF. pose proof Hd as [Hn He Hr Hrd]. split; simpl; [done | done | | done].
  intros o [Ho|Ho]%elem_of_app; [auto|]. rewrite Forall_forall in HF. destruct (HF o Ho) as (x & Hx & Hm & Hrev).
  destruct (read_backed prefix A q G s _ _ _ Hd Hx Hm) as [Hcod Hb]. split; [done|]. split; [intros r Hr'; by apply Hb|].
  destruct (e_ok (w_etcd (s_world s))) as [_ Hok]. apply Hok in Hx as Hx'. split; [lia|].
  intros y Hy _. by rewrite Hx in Hy; simplify_eq.
Qed.

Lemma record_op_adds op (e e' : E) r : record_op op -> op e = (r, e') -> adds None e e'.
Proof.
  destruct 1; [apply MarkWriting_adds | apply DoneWriting_adds | apply Delete_adds | apply CreateUpload_adds |
    apply FinishUpload_adds | apply DeleteUpload_adds | apply Join_adds | apply SaveCursor_adds].
Qed.

(** Every step keeps the invariant. *)
Lemma step_durable G s s' : durable G s -> step s s' -> exists G', durable G' s'.
Proof.
  intros Hd Hs. destruct Hs; try (by eapply chunk_durable); exists G.
  - apply (durable_same prefix A q G None); [done | by apply keeps_named_stores | by apply adds_subset | done].
  - by eapply get_durable.
  - by eapply parts_durable.
  - destruct (String.eqb writing "").
    + eapply (commit_durable prefix A q (Commit prefix k m)); [done | done | apply key_place | by intros ??? ?%Commit_adds | done].
    + eapply (commit_durable prefix A q (CommitWhileWriting prefix k m writing));
        [done | done | apply key_place | by intros ??? ?%CommitWhileWriting_adds | done].
  - destruct (String.eqb writing "").
    + eapply (commit_durable prefix A q (CommitPart prefix id n m)); [done | done | by apply partKey_place | by intros ??? ?%CommitPart_adds | done].
    + eapply (commit_durable prefix A q (CommitPartWhileWriting prefix id n m writing));
        [done | done | by apply partKey_place | by intros ??? ?%CommitPartWhileWriting_adds | done].
  - apply (durable_ready prefix A q); [done|]. intros p Hp. apply (d_ready _ _ _ _ _ Hd). auto.
  - eapply (durable_meta prefix A q); [exact Hd | intros e r0 e'; by apply record_op_adds | eassumption].
  - by eapply ExpireUploads_durable.
  - by apply scan_durable.
  - by eapply repair_durable.
  - by eapply scrub_durable.
  - by eapply rebalance_durable.
  - by eapply Collect_durable.
  - by eapply stopped_durable.
  - by eapply crash_durable.
Qed.

Lemma steps_durable G s s' : durable G s -> rtc step s s' -> exists G', durable G' s'.
Proof.
  intros Hd H. revert G Hd. induction H as [s|s s1 s' Hs _ IH]; intros G Hd; [eauto|].
  destruct (step_durable G s s1 Hd Hs) as [G1 Hd1]. by eapply IH.
Qed.

(** A cluster that has no objects yet. *)
Definition initial s : Prop := s_read s = [] /\ s_ready s = [] /\ forall k m, ~ manifest_at (e_state (w_etcd (s_world s))) k m.

Lemma initial_durable s : initial s -> durable (fun _ _ _ => False) s.
Proof.
  intros (Hr & Hp & He). split; [|by intros k m []%He| |].
  - split_and!; done.
  - rewrite Hr. intros o Ho. by apply elem_of_nil in Ho.
  - rewrite Hp. intros p Ho. by apply elem_of_nil in Ho.
Qed.
End system.

(** ** The claims *)

Section system_claims.
Context {E : Type} `{!Etcd doc E} `{!EtcdLaws doc E} {rs : ReedSolomon} (prefix : string) (A : string -> string) (q : Z).
Abbreviation World := (world E).
Abbreviation node_ok := (node_ok A q).
Abbreviation step := (step prefix A q).
Implicit Types s : sys E.

(** A walk is scans, visits and saved cursors, so whatever holds along the steps holds of a
    pass that others interrupt, and of one they do not. *)
Lemma walk_loop_steps {St : Type} c task (visit : MetaObject -> St -> World -> option error * St * World) :
  (forall o st err st' w' s, o ∈ s_read s -> visit o st (s_world s) = (err, st', w') -> step s (with_world s w')) ->
  forall fuel cursor st s r st' w', walk_loop prefix c task visit fuel cursor st (s_world s) = Some (r, st', w') ->
  exists read, rtc step s (mk_sys w' (s_used s) read (s_ready s)).
Proof.
  intros Hv. assert (Hall : forall objs st s st' w', (forall o, o ∈ objs -> o ∈ s_read s) ->
    visit_all visit objs st (s_world s) = (st', w') -> rtc step s (with_world s w')).
  { induction objs as [|o objs IH]; intros st s st' w' Hin; cbn [visit_all].
    - intros [= _ <-]. by destruct s.
    - destruct (visit o st (s_world s)) as [[err st1] w1] eqn:Ho. intros H. eapply rtc_l; [eapply Hv; [|exact Ho]; apply Hin; left|].
      apply (IH st1 (with_world s w1)) in H; [done|]. intros o' Ho'. apply Hin. by right. }
  induction fuel as [|fuel IH]; intros cursor st s r st' w'; cbn [walk_loop]; [done|].
  destruct (on_meta (ScanObjects prefix "" _ scanPage) (s_world s)) as [[objs|e] w1] eqn:Hsc; apply on_meta_inv in Hsc as (Hsc & Hs1 & _).
  2: { intros [= _ _ <-]. exists (s_read s). apply rtc_once. apply ScanObjects_state in Hsc. by apply step_env; rewrite ?Hsc. }
  pose proof Hsc as (Hs & _ & Hrd)%ScanObjects_page.
  assert (Hread : rtc step s (mk_sys w1 (s_used s) (s_read s ++ objs) (s_ready s))).
  { eapply rtc_l; [apply (step_scan _ _ _ s objs Hrd)|]. apply rtc_once.
    apply (step_env _ _ _ (mk_sys (s_world s) (s_used s) (s_read s ++ objs) (s_ready s)) w1); simpl; [done | rewrite Hs; done..]. }
  destruct objs as [|o os].
  - destruct (on_meta _ w1) as [r1 w2] eqn:Hsv. intros [= _ _ <-]. eexists. eapply rtc_r; [exact Hread|].
    by apply (step_record _ _ _ (mk_sys w1 (s_used s) (s_read s ++ []) (s_ready s)) _ r1 w2 (op_cursor prefix task (c_self c) "")).
  - destruct (visit_all visit _ _ w1) as [st1 w2] eqn:Hva. set (s1 := mk_sys w1 (s_used s) (s_read s ++ o :: os) (s_ready s)) in *.
    apply (Hall (o :: os) st s1) in Hva; [|intros o' Ho'; apply elem_of_app; by right].
    set (k := default cursor _). destruct (on_meta _ w2) as [r3 w3] eqn:Hsv.
    assert (Hto : rtc step s (with_world s1 w3)).
    { etrans; [exact Hread|]. eapply rtc_r; [exact Hva|]. exact (step_record _ _ _ (with_world s1 w2) _ r3 w3 (op_cursor prefix task (c_self c) k) Hsv). }
    destruct r3 as [[]|e]; [|intros [= _ _ <-]; by eexists].
    intros H. apply (IH k st1 (with_world s1 w3)) in H as [read H]. exists read. by etrans.
Qed.

Lemma walk_steps {St : Type} c task (visit : MetaObject -> St -> World -> option error * St * World) :
  (forall o st err st' w' s, o ∈ s_read s -> visit o st (s_world s) = (err, st', w') -> step s (with_world s w')) ->
  forall fuel st s r st' w', walk prefix c task visit fuel st (s_world s) = Some (r, st', w') ->
  exists read, rtc step s (mk_sys w' (s_used s) read (s_ready s)).
Proof.
  intros Hv fuel st s r st' w'. unfold walk. destruct (on_meta _ (s_world s)) as [[k|e] w1] eqn:Hc;
    apply Cursor_spec in Hc as [(e1 & He & ->) _].
  - intros H. apply (walk_loop_steps c task visit Hv fuel k st (with_world s (set_etcd (s_world s) e1))) in H as [read H].
    exists read. eapply rtc_l; [|exact H]. apply step_env; simpl; rewrite ?He; done.
  - intros [= _ _ <-]. exists (s_read s). apply rtc_once. apply (step_env _ _ _ s (set_etcd (s_world s) e1)); simpl; rewrite ?He; done.
Qed.

(** A run of repair, scrubbing or rebalancing is made of steps: pages read, objects
    visited and cursors saved. So the cluster may do anything between the page a pass
    reads and the visit it leads to, and what holds at every step holds when the pass is
    over, however it ends. *)
Theorem passes_are_steps (c : Coordinator) (fuel : nat) (s : sys E) (w' : World) :
  node_ok c ->
  (exists st err, Repair prefix c fuel (s_world s) = Some (st, err, w')) \/
  (exists st err, Scrub prefix c fuel (s_world s) = Some (st, err, w')) \/
  (exists st r, Rebalance prefix c fuel (s_world s) = Some (r, st, w')) ->
  exists read, rtc step s (mk_sys w' (s_used s) read (s_ready s)).
Proof.
  intros Hc [(st & err & H)|[(st & err & H)|(st & r & H)]].
  - unfold Repair in H. destruct (walk _ _ _ _ _ _ _) as [[[r st1] w1]|] eqn:Hw; [|done].
    assert (w1 = w') as -> by (destruct r; by simplify_eq). eapply walk_steps; [|exact Hw]. intros. by eapply step_repair.
  - unfold Scrub in H. destruct (walk _ _ _ _ _ _ _) as [[[r st1] w1]|] eqn:Hw; [|done].
    assert (w1 = w') as -> by (destruct r; by simplify_eq). eapply walk_steps; [|exact Hw]. intros. by eapply step_scrub.
  - unfold Rebalance in H. eapply walk_steps; [|exact H]. intros o st1 err1 st2 w2 s1 Ho Hv.
    cbn beta in Hv. destruct (rebalanceObject prefix c o st1 (s_world s1)) as [[[e|] st3] w3] eqn:Hr; injection Hv as _ _ <-; by eapply step_rebalance.
Qed.

(** ** Whole requests *)

Section requests.
Context (c : Coordinator) (Hc : node_ok c).

Lemma step_touched s w' : w_stores w' = w_stores (s_world s) -> e_state (w_etcd w') = e_state (w_etcd (s_world s)) ->
  step s (with_world s w').
Proof. intros Hs He. apply step_env; [done | by rewrite He..]. Qed.

Lemma stop_steps writing s : rtc step s (with_world s (stopWriting prefix writing (s_world s))).
Proof.
  unfold stopWriting. destruct (String.eqb _ _); [by destruct s|]. destruct (on_meta _ _) as [r w'] eqn:H.
  apply rtc_once. by apply (step_record _ _ _ s _ r w' (op_done prefix writing)).
Qed.

(** Some chunks of a body have gone out, under the names of one write. *)
Definition chunks_sent (rnd : string) (s0 : sys E) (i : Z) (σ : wstate) (l : list (list string * ChunkRef)) : Prop :=
  exists used, rtc step s0 (mk_sys (ws_world σ) used (s_read s0) (l ++ s_ready s0)) /\
    forall x, x ∈ used -> x ∈ s_used s0 \/ exists j d, 0 <= j < i /\ x = c_ID (chunk_ref rnd j d).

(** The names of a write that begins are new. *)
Definition fresh (rnd : string) (s : sys E) : Prop :=
  plain_elem rnd = true /\ forall x, x ∈ s_used s -> HasPrefix x rnd = false.

Lemma chunks_sent_next rnd s0 key i d σ l r σ' : fresh rnd s0 -> 0 <= i -> chunks_sent rnd s0 i σ l ->
  commit_chunk prefix c (write_owners c key) (live c) (chunk_ref rnd i d) d σ = (r, σ') ->
  chunks_sent rnd s0 (i + 1) σ' (match r with Ok ref => (write_owners c key, ref) :: l | Err _ => l end).
Proof.
  intros [Hrnd Hf] Hi (used & Hrtc & Hu) Hcc. exists ({[c_ID (chunk_ref rnd i d)]} ∪ used). split.
  - destruct σ as [w writing hashed]. cbn [ws_world] in Hrtc.
    assert (Hnew : c_ID (chunk_ref rnd i d) ∉ used).
    { intros [Hin%Hf|(j & d' & Hj & Hid)]%Hu; [simpl in Hin; by rewrite HasPrefix_app in Hin|]. apply chunk_ID_inj in Hid; lia. }
    pose proof (step_chunk _ _ _ (mk_sys w used (s_read s0) (l ++ s_ready s0)) c key rnd i d writing hashed r σ' Hc Hrnd Hnew Hcc) as Hs.
    eapply rtc_r; [exact Hrtc|]. destruct r; exact Hs.
  - intros x [->%elem_of_singleton|Hx]%elem_of_union; [right; exists i, d; split; [lia | done]|].
    destruct (Hu x Hx) as [?|(j & d' & Hj & ->)]; [by left|]. right. exists j, d'. split; [lia | done].
Qed.

Lemma chunks_sent_all rnd s0 key i l σ σ' acc : fresh rnd s0 -> 0 <= i ->
  committed rnd (commit_chunk prefix c (write_owners c key) (live c)) i l σ σ' -> chunks_sent rnd s0 i σ acc ->
  exists i' acc', chunks_sent rnd s0 i' σ' acc' /\ (forall p, p ∈ acc -> p ∈ acc') /\ forall r, r ∈ map fst l -> (write_owners c key, r) ∈ acc'.
Proof.
  intros Hf Hi H. revert acc Hi. induction H as [i σ|i ref d l σ σ1 σ2 Hcm _ IH]; intros acc Hi Hs.
  - exists i, acc. split; [done|]. split; [done|]. intros r Hr. by apply elem_of_nil in Hr.
  - apply (chunks_sent_next _ _ key i d σ acc (Ok ref) σ1 Hf Hi) in Hs; [|done].
    destruct (IH _ ltac:(lia) Hs) as (i' & acc' & Hs' & Hsub & Hl). exists i', acc'. split; [done|].
    split; [intros p Hp; apply Hsub; by right|]. simpl. intros r [->|Hr]%elem_of_cons; [|auto]. apply Hsub. by left.
Qed.

(** Where a request may leave the cluster: at the world it returns, having used the names
    of its write only. *)
Definition leads (rnd : string) (s : sys E) (w' : World) (l : list (list string * ChunkRef)) : Prop :=
  exists used, rtc step s (mk_sys w' used (s_read s) (l ++ s_ready s)) /\
    forall x, x ∈ used -> x ∈ s_used s \/ HasPrefix x rnd = true.

Lemma chunks_sent_leads rnd s i σ l : chunks_sent rnd s i σ l -> leads rnd s (ws_world σ) l.
Proof.
  intros (used & Hr & Hu). exists used. split; [done|]. intros x [?|(j & d & _ & ->)]%Hu; [by left|]. right. apply HasPrefix_app.
Qed.

Lemma leads_steps rnd s w1 w2 l : leads rnd s w1 l ->
  (forall s1, s_world s1 = w1 -> s_ready s1 = l ++ s_ready s -> rtc step s1 (with_world s1 w2)) -> leads rnd s w2 l.
Proof.
  intros (used & Hr & Hu) H. exists used. split; [|done]. etrans; [exact Hr|].
  exact (H (mk_sys w1 used (s_read s) (l ++ s_ready s)) eq_refl eq_refl).
Qed.

Lemma leads_over rnd s w1 l : leads rnd s w1 l -> leads rnd s w1 [].
Proof.
  intros (used & Hr & Hu). exists used. split; [|done]. eapply rtc_r; [exact Hr|].
  apply (step_over _ _ _ (mk_sys w1 used (s_read s) (l ++ s_ready s)) (s_ready s)). intros p Hp. apply elem_of_app. by right.
Qed.

Lemma leads_refl rnd s : leads rnd s (s_world s) [].
Proof. exists (s_used s). split; [by destruct s|]. by left. Qed.

Lemma leads_after rnd s w0 w1 l : step s (with_world s w0) -> leads rnd (with_world s w0) w1 l -> leads rnd s w1 l.
Proof. intros Hs (used & Hr & Hx). exists used. split; [by eapply rtc_l | done]. Qed.

Lemma leads_stop rnd s w1 writing l : leads rnd s w1 l -> leads rnd s (stopWriting prefix writing w1) [].
Proof. intros H. eapply leads_over, leads_steps; [exact H|]. intros s1 <- _. apply stop_steps. Qed.

Lemma write_leads key body expect rnd s r w' : fresh rnd s ->
  write prefix c key body expect rnd (s_world s) = (r, w') ->
  exists l, leads rnd s w' l /\ forall m writing, r = Ok (m, writing) ->
    m_Coding m = zeroScheme /\ forall ref, ref ∈ m_Chunks m -> (m_Nodes m, ref) ∈ l.
Proof.
  intros Hf. unfold write. fold (write_owners c key).
  assert (Hnone : forall e : error, exists l, leads rnd s (s_world s) l /\ forall m writing, Err e = Ok (m, writing : string) ->
    m_Coding m = zeroScheme /\ forall ref, ref ∈ m_Chunks m -> (m_Nodes m, ref) ∈ l) by (intros e; exists []; split; [apply leads_refl | done]).
  destruct (_ =? 0); [intros [= <- <-]; apply Hnone|]. destruct (_ && _); [intros [= <- <-]; apply Hnone|].
  destruct (_ && _); [intros [= <- <-]; apply Hnone|].
  destruct (Write _ _ _ _ _ _) as [[out σ]|] eqn:Hw; [|intros [= <- <-]; apply Hnone].
  assert (Hbegin : chunks_sent rnd s 0 (mk_wstate (s_world s) "" []) []) by (exists (s_used s); split; [by destruct s | by left]).
  destruct (Z.leb_spec (c_chunkSize c) 0) as [Hle|Hcs].
  { unfold Write in Hw. rewrite (proj2 (Z.leb_le _ _) Hle) in Hw. injection Hw as <- <-. intros [= <- <-]. apply Hnone. }
  rewrite Write_spec_eq in Hw by done. destruct out as [m0|e].
  - apply write_spec_committed in Hw as (l & Hl & _ & _ & ->); [|done]. intros [= <- <-].
    eapply chunks_sent_all in Hl as (i' & acc & Hs & _ & Hacc); [|done|lia|done]. exists acc.
    split; [by apply chunks_sent_leads in Hs|]. intros m writing [= <- <-]. split; [apply Hc | exact Hacc].
  - assert (HJ : exists i l, chunks_sent rnd s i σ l).
    { refine (write_spec_invariant rnd (c_chunkSize c) Hcs (commit_chunk prefix c (write_owners c key) (live c))
        (fun i σ => 0 <= i /\ exists l, chunks_sent rnd s i σ l) (fun σ => exists i l, chunks_sent rnd s i σ l) _ _ _ 0 _ _ _ _ _ _ _ Hw);
        [by intros i σ1 [_ ?]; exists i| |split; [lia | by eexists]].
      intros i d σ1 o σ2 [Hi [l Hs]] Hcm. apply (chunks_sent_next _ _ key i d σ1 l o σ2 Hf Hi Hs) in Hcm. split; [by eexists _, _|].
      intros _ _. split; [lia | by eexists]. }
    destruct HJ as (i & l & Hs%chunks_sent_leads). intros [= <- <-]. exists l. split; [|done].
    eapply leads_steps; [exact Hs|]. intros s1 <- _. apply stop_steps.
Qed.

Lemma ready_in s s1 l m : s_ready s1 = l ++ s_ready s -> m_Coding m = zeroScheme ->
  (forall ref, ref ∈ m_Chunks m -> (m_Nodes m, ref) ∈ l) -> ready s1 m.
Proof. intros Hr Hcod Hl. split; [done|]. rewrite Hr. intros r ?%Hl. apply elem_of_app. by left. Qed.

Lemma Put_steps key body opts rnd s r w' : fresh rnd s -> Put prefix c key body opts rnd (s_world s) = (r, w') ->
  leads rnd s w' [].
Proof.
  intros Hf. unfold Put. destruct (write _ _ _ _ _ _ _) as [[[m writing]|e] w1] eqn:Hw; apply write_leads in Hw as (l & Hl & Hm); try done.
  2: { intros [= _ <-]. by eapply leads_over. }
  destruct (Hm m writing eq_refl) as [Hcod Hch]. destruct (first_error _) as [e|].
  { intros [= _ <-]. by eapply leads_stop. }
  set (m' := described m _ _ _ _). destruct (if String.eqb writing "" then _ else _) as [r1 w2] eqn:Hcm.
  intros H. assert (w' = stopWriting prefix writing w2) as -> by (destruct r1; by simplify_eq).
  apply (leads_stop _ _ _ _ l), (leads_steps _ _ w1); [exact Hl|].
  intros s1 Hw1 Hr1. apply rtc_once. apply (step_commit _ _ _ s1 m' key writing r1 w2); [by eapply ready_in | by rewrite Hw1].
Qed.

Lemma get_upload_step id s r w' : on_meta (GetUpload prefix id) (s_world s) = (r, w') -> step s (with_world s w').
Proof. intros (H & Hs & _)%on_meta_inv. apply GetUpload_spec in H as [He _]. by apply step_touched. Qed.

Lemma UploadPart_steps id n body opts rnd s r w' : fresh rnd s -> plain_elem id = true ->
  UploadPart prefix c id n body opts rnd (s_world s) = (r, w') -> leads rnd s w' [].
Proof.
  intros Hf Hid. unfold UploadPart. destruct (_ || _); [intros [= _ <-]; apply leads_refl|].
  destruct (on_meta (GetUpload prefix id) (s_world s)) as [[u|e] w0] eqn:Hu; apply get_upload_step in Hu.
  2: { intros [= _ <-]. exists (s_used s). split; [by apply rtc_once | by left]. }
  assert (Hpre : forall w2 l, leads rnd (with_world s w0) w2 l -> leads rnd s w2 l) by (intros w2 l; by apply leads_after).
  destruct (write _ _ _ _ _ _ _) as [[[m writing]|e] w1] eqn:Hw; apply (write_leads _ _ _ _ (with_world s w0)) in Hw as (l & Hl%Hpre & Hm); try done.
  2: { intros [= _ <-]. by eapply leads_over. }
  destruct (Hm m writing eq_refl) as [Hcod Hch]. destruct (first_error _) as [e|].
  { intros [= _ <-]. by eapply leads_stop. }
  destruct (if String.eqb writing "" then _ else _) as [r1 w2] eqn:Hcm.
  intros H. assert (w' = stopWriting prefix writing w2) as -> by (destruct r1; by simplify_eq).
  apply (leads_stop _ _ _ _ l), (leads_steps _ _ w1); [exact Hl|].
  intros s1 Hw1 Hr1. apply rtc_once. apply (step_commit_part _ _ _ s1 m id n writing r1 w2); [by eapply ready_in | done | by rewrite Hw1].
Qed.
Lemma CopyPart_steps id n src off len opts rnd s r w' : fresh rnd s -> plain_elem id = true ->
  CopyPart prefix c id n src off len opts rnd (s_world s) = (r, w') -> leads rnd s w' [].
Proof.
  intros Hf Hid. unfold CopyPart. destruct (StreamRange _ _ _ _ _ _) as [[err out] w1] eqn:Hst.
  apply StreamRange_world in Hst as [Hs1 He1]. intros H. apply (leads_after rnd s w1).
  - apply step_touched; [done | by rewrite He1].
  - by apply (UploadPart_steps _ _ _ _ _ (with_world s w1)) in H.
Qed.

(** Nothing in etcd is erasure-coded. *)
Definition replicated (s : sys E) : Prop :=
  forall k x m, es_kvs (e_state (w_etcd (s_world s))) !! k = Some x -> as_manifest (kv_value x) = Ok m -> m_Coding m = zeroScheme.

Lemma Copy_steps from to opts s r w' : replicated s -> Copy prefix from to opts (s_world s) = (r, w') ->
  rtc step s (with_world s w').
Proof.
  intros Hrep. unfold Copy. destruct (on_meta (Get prefix from) (s_world s)) as [[m|e] w1] eqn:Hg.
  2: { intros [= _ <-]. apply rtc_once. apply on_meta_inv in Hg as (Hg & Hs & _). apply Get_spec in Hg as [He _]. by apply step_touched. }
  pose proof Hg as (Hget & _)%on_meta_inv. apply Get_spec in Hget as [_ [Hm|?]]; [|done]. unfold lookup_obj in Hm.
  destruct (es_kvs _ !! key prefix from) as [x|] eqn:Hx; [|done]. symmetry in Hm. pose proof (Hrep _ _ _ Hx Hm) as Hcod.
  set (m1 := described m _ _ _ _). destruct (on_meta (Commit prefix to m1) w1) as [r1 w2] eqn:Hcm.
  intros H. assert (w' = w2) as -> by (destruct r1; by simplify_eq).
  eapply rtc_l; [exact (step_get _ _ _ s from m w1 Hg)|]. set (s1 := mk_sys w1 _ _ _).
  eapply rtc_l; [apply (step_commit _ _ _ s1 m1 to "" r1 w2); [|exact Hcm]|].
  - split; [done|]. intros ref Hr. apply elem_of_app. left. by apply chunks_of_spec.
  - apply rtc_once. apply (step_over _ _ _ (with_world s1 w2) (s_ready s)). intros p Hp. apply elem_of_app. by right.
Qed.

(** The parts put together name what each of them does. *)
Lemma assemble_ready (recorded : gmap Z Manifest) (P := fun m => m_Coding m = zeroScheme /\
    forall r, r ∈ m_Chunks m -> (m_Nodes m, r) ∈ parts_chunks recorded) :
  (forall n m, recorded !! n = Some m -> m_Coding m = zeroScheme) ->
  forall parts prev final sums f sm,
  match prev with None => m_Chunks final = [] /\ parts <> [] | Some _ => P final end ->
  assemble recorded parts prev final sums = Ok (f, sm) -> P f.
Proof.
  intros Hrec. assert (HP : forall n m, recorded !! n = Some m -> P m).
  { intros n m Hm. split; [by eapply Hrec|]. intros r Hr. apply list_elem_of_bind. exists (n, m).
    split; [by apply chunks_of_spec | by apply elem_of_map_to_list]. }
  induction parts as [|p parts IH]; intros prev final sums f sm Hprev; cbn [assemble].
  { intros [= <- _]. destruct prev; [done | by destruct Hprev]. }
  intros ([f1 s1] & Hadd & H)%res_bind_Ok. cbn [fst snd] in H. eapply (IH (Some (cp_Number p))); [|exact H]. clear IH H.
  unfold add_part in Hadd. destruct (bool_decide (prev = Some _)); [done|].
  destruct (recorded !! cp_Number p) as [m|] eqn:Hm; [|done]. destruct (negb (String.eqb _ _) && _); [done|].
  destruct (negb (bool_decide (prev = None)) && _) eqn:Hsame; [done|]. destruct (hex_DecodeString _); [|done].
  apply res_bind_Ok in Hadd as (c1 & _ & (c2 & _ & (c3 & _ & [= <- _])%res_bind_Ok)%res_bind_Ok).
  destruct (HP _ _ Hm) as [Hcod Hb]. destruct prev as [n|].
  - rewrite bool_decide_false in Hsame |- * by done. cbn [negb andb] in Hsame. apply negb_false_iff, bool_decide_eq_true in Hsame as [Hnodes Hcode].
    destruct Hprev as [Hcod' Hb']. split; [done|]. cbn [m_Chunks m_Nodes]. intros r [Hr|Hr]%elem_of_app; [auto|].
    rewrite Hnodes. auto.
  - destruct Hprev as [Hnil _]. rewrite bool_decide_true by done. split; [done|]. cbn [m_Chunks m_Nodes]. by rewrite Hnil.
Qed.

Lemma completed_ready s id u recorded parts a b d now final (e' : E) : replicated s ->
  Parts prefix id (w_etcd (s_world s)) = (Ok recorded, e') -> completed u recorded parts a b d now = Ok final ->
  m_Coding final = zeroScheme /\ forall r, r ∈ m_Chunks final -> (m_Nodes final, r) ∈ parts_chunks recorded.
Proof.
  intros Hrep Hp. unfold completed. destruct parts as [|p parts]; [done|]. destruct (negb _); [done|].
  intros ([f sm] & Has & Hcm)%res_bind_Ok. cbn [fst snd] in Hcm. repeat (destruct (refutes _ _); [done|]). injection Hcm as <-.
  refine (assemble_ready recorded _ _ None _ _ _ _ _ Has); [|by split].
  intros n m Hm. eapply Parts_reads in Hm as (k & x & Hx & Hm); [|exact Hp]. by eapply Hrep.
Qed.

Lemma record_step s op r w' : record_op prefix op -> on_meta op (s_world s) = (r, w') -> rtc step s (with_world s w').
Proof. intros Hop H. apply rtc_once. by eapply step_record. Qed.

Lemma GetCompletion_state id (e e' : E) r : GetCompletion prefix id e = (r, e') -> e_state e' = e_state e.
Proof.
  unfold GetCompletion, st_bind. destruct (e_get _ e) as [[v|err] e1] eqn:Hg; apply e_get_law in Hg as [Hs _];
    [|by intros [= _ <-]]. unfold st_fail, st_ret. intros H. repeat case_match; by simplify_eq.
Qed.

Lemma CompleteUpload_steps id parts a b d s r w' : replicated s ->
  CompleteUpload prefix id parts a b d (s_world s) = (r, w') -> rtc step s (with_world s w').
Proof.
  intros Hrep. unfold CompleteUpload. destruct (on_meta (GetUpload prefix id) (s_world s)) as [[u|e] w1] eqn:Hu;
    pose proof Hu as (Hu1 & Hs1 & _)%on_meta_inv; apply GetUpload_spec in Hu1 as [Hst1 _]; apply get_upload_step in Hu.
  2: { destruct (errors_Is e MetaErrNotFound); [|intros [= _ <-]; by apply rtc_once].
       destruct (on_meta (GetCompletion prefix id) w1) as [rc w2] eqn:Hg. apply on_meta_inv in Hg as (Hg & Hs2 & _).
       intros H. assert (w' = w2) as -> by (destruct rc; by simplify_eq). eapply rtc_l; [exact Hu|]. apply rtc_once.
       apply (step_touched (with_world s w1)); [done|]. by apply GetCompletion_state in Hg. }
  destruct (on_meta (Parts prefix id) w1) as [[recorded|e] w2] eqn:Hp; pose proof Hp as (Hp1 & Hs2 & _)%on_meta_inv.
  2: { intros [= _ <-]. eapply rtc_l; [exact Hu|]. apply rtc_once. apply (step_touched (with_world s w1)); [done|]. by apply Parts_state in Hp1. }
  assert (Hread : rtc step s (mk_sys w2 (s_used s) (s_read s) (parts_chunks recorded ++ s_ready s))).
  { eapply rtc_l; [exact Hu|]. apply rtc_once. exact (step_parts _ _ _ (with_world s w1) id recorded w2 Hp). }
  set (s2 := mk_sys w2 _ _ _) in Hread. assert (Hover : forall w3, rtc step s2 (with_world s2 w3) -> rtc step s (with_world s w3)).
  { intros w3 H3. etrans; [exact Hread|]. eapply rtc_r; [exact H3|]. apply (step_over _ _ _ (with_world s2 w3) (s_ready s)).
    intros p Hin. apply elem_of_app. by right. }
  destruct (completed _ _ _ _ _ _ _) as [final|e] eqn:Hcm; [|intros [= _ <-]; by apply Hover].
  eapply (completed_ready (with_world s w1)) in Hcm as [Hcod Hch]; [|by intros k x m; simpl; rewrite Hst1; apply Hrep|exact Hp1].
  destruct (on_meta (Commit prefix (u_Key u) final) w2) as [r3 w3] eqn:H3.
  assert (Hc3 : step s2 (with_world s2 w3)).
  { apply (step_commit _ _ _ s2 final (u_Key u) "" r3 w3); [|exact H3]. by apply (ready_in s s2 (parts_chunks recorded)). }
  destruct r3 as [[]|e]; [|intros [= _ <-]; apply Hover; by apply rtc_once].
  destruct (on_meta (FinishUpload _ _ _) w3) as [r4 w4] eqn:H4. destruct (on_meta (DeleteUpload _ _) w4) as [r5 w5] eqn:H5.
  intros [= _ <-]. apply Hover. eapply rtc_l; [exact Hc3|].
  etrans; [exact (record_step (with_world s2 w3) _ _ _ (op_finish prefix _ _) H4)|].
  exact (record_step (with_world s2 w4) _ _ _ (op_drop prefix _) H5).
Qed.

Lemma AbortUpload_steps id s r w' : AbortUpload prefix id (s_world s) = (r, w') -> rtc step s (with_world s w').
Proof.
  unfold AbortUpload. destruct (on_meta (GetUpload prefix id) (s_world s)) as [[u|e] w1] eqn:Hu; apply get_upload_step in Hu.
  - intros H. eapply rtc_l; [exact Hu|]. exact (record_step (with_world s w1) _ _ _ (op_drop prefix _) H).
  - intros [= _ <-]. by apply rtc_once.
Qed.
End requests.

(** A client request is made of steps as well: whatever [Put], [UploadPart], [CopyPart],
    [Copy], [CompleteUpload] and [AbortUpload] do, however they end, a run of steps does,
    so that other requests, visits and crashes may come between any two of them. *)
Theorem requests_are_steps (c : Coordinator) (rnd : string) (s : sys E) (w' : World) :
  node_ok c -> fresh rnd s -> replicated s ->
  (exists k body opts r, Put prefix c k body opts rnd (s_world s) = (r, w')) \/
  (exists id n body opts r, plain_elem id = true /\ UploadPart prefix c id n body opts rnd (s_world s) = (r, w')) \/
  (exists id n src off len opts r, plain_elem id = true /\ CopyPart prefix c id n src off len opts rnd (s_world s) = (r, w')) \/
  (exists from to opts r, Copy prefix from to opts (s_world s) = (r, w')) \/
  (exists id parts crc32c crc64nvme crc32 r, CompleteUpload prefix id parts crc32c crc64nvme crc32 (s_world s) = (r, w')) \/
  (exists id r, AbortUpload prefix id (s_world s) = (r, w')) ->
  exists used, rtc step s (mk_sys w' used (s_read s) (s_ready s)).
Proof.
  intros Hc Hf Hrep [(k & body & opts & r & H)|[(id & n & body & opts & r & Hid & H)|[(id & n & src & off & len & opts & r & Hid & H)|
    [(from & to & opts & r & H)|[(id & parts & a & b & d & r & H)|(id & r & H)]]]]].
  - apply Put_steps in H as (used & H & _); [by exists used | done | done].
  - apply UploadPart_steps in H as (used & H & _); [by exists used | done..].
  - apply CopyPart_steps in H as (used & H & _); [by exists used | done..].
  - exists (s_used s). by eapply Copy_steps.
  - exists (s_used s). by eapply CompleteUpload_steps.
  - exists (s_used s). by eapply AbortUpload_steps.
Qed.

(** C1: what a replicating cluster has acknowledged outlives the loss of any W - 1 nodes, in
    every state its steps reach from an empty one. The steps, of any coordinators, whose
    views of the members may differ and change, come in any order: a chunk goes out to its
    owners, a manifest is read, a manifest of chunks stored or read is committed, a record
    goes, a pass reads a page of objects or visits an object it read at any time before; a
    node stops at any state of writing a file, and crashes, losing what may be lost except
    a directory that has files. Any call may fail or lose its reply, and leases expire. A
    collection is one step that nothing interrupts, and begins when what requests have
    stored or read but not committed is, on the node that collects, named by an object or
    a part, covered by the record of a write, or younger than the grace period. In such a
    state every chunk of every manifest in etcd, of an object or of a part, whatever nodes
    are lost, is on the disks of enough others the manifest names to make up a quorum with
    the lost ones, each a synced file with the manifest's checksum and length that a crash
    does not take; and no two manifests use one chunk name for different data. *)
Theorem acknowledged_survives (s0 s : sys E) (k : string) (m : Manifest) (r : ChunkRef) (lost : gset string) :
  (forall n n', A n = A n' -> n = n') -> initial s0 -> rtc step s0 s ->
  manifest_at (e_state (w_etcd (s_world s))) k m -> r ∈ m_Chunks m ->
  (exists X : gset string, X ⊆ list_to_set (m_Nodes m) ∖ lost /\ q - Z.of_nat (size lost) <= Z.of_nat (size X) /\
     forall n, n ∈ X -> holds_chunk (s_world s) (A n) (c_ID r) (c_CRC r) (c_Size r)) /\
  (forall k' m' r', manifest_at (e_state (w_etcd (s_world s))) k' m' -> r' ∈ m_Chunks m' -> c_ID r' = c_ID r ->
     c_CRC r' = c_CRC r /\ c_Size r' = c_Size r).
Proof.
  intros Hinj Hi Hr Hm Hin. destruct (steps_durable prefix A q Hinj _ _ _ (initial_durable prefix A q _ Hi) Hr) as [G Hd].
  destruct (d_etcd _ _ _ _ _ Hd k m Hm) as [_ [_ Hb]]. destruct (Hb r Hin) as [Hg (X & HX & Hq & Hh)]. split.
  - exists (X ∖ lost). split; [set_solver|]. split; [|intros n [Hn _]%elem_of_difference; auto].
    pose proof (size_difference_alt X lost). pose proof (subseteq_size (X ∩ lost) lost ltac:(set_solver)). lia.
  - intros k' m' r' Hm' Hin' Hid. destruct (d_etcd _ _ _ _ _ Hd k' m' Hm') as [_ [_ Hb']]. destruct (Hb' r' Hin') as [Hg' _].
    destruct (d_names _ _ _ _ _ Hd) as (Hfun & _). rewrite Hid in Hg'. by eapply Hfun.
Qed.
End system_claims.

(** ** At a concrete input: two nodes, one object *)

#[local] Existing Instance xor_codec.

Definition duo_addr (n : string) : string := "a" +:+ n.
Definition duo_c : Coordinator :=
  mk_Coordinator "1" 2 "a1"
    (Some (mk_membership {["1" := "a1"; "2" := "a2"]} ∅ (Ring.New ["1"; "2"] 1))) 4 zeroScheme.
Definition duo_text : string := "ABCDEFGHIJKLMNOPQRSTUVWXYZ".
Definition duo_opts : PutOptions := mk_PutOptions "" "" 4 ∅ "" None None None None None None.
Definition duo_s0 : sys demoE := mk_sys (mk_world {["a1" := empty_fs; "a2" := empty_fs]} demo0 [] 0 0) ∅ [] [].
Abbreviation duo_put := (@Put demoE _ xor_codec "k" duo_c "b/k" (demo_source "data") duo_opts duo_text (s_world duo_s0)).
Definition duo_w1 : world demoE := duo_put.2.
(** Node 1 crashes: what was in memory only is gone. *)
Definition settled (fs : FS) : FS := mk_FS ∅ (fs_dirs fs) (fs_dirs fs) (fs_entries fs) (fs_entries fs) [].
Definition duo_fs : FS := default empty_fs (w_stores duo_w1 !! "a1").
Definition duo_w2 : world demoE := set_store duo_w1 "a1" (settled duo_fs).
Abbreviation duo_gc :=
  (@Collect demoE _ "k" duo_c (fun _ e => e) id 5 (fun _ => None) (fun _ => no_faults) DefaultCollectGrace duo_w2) (only parsing).
Definition duo_w3 : world demoE := match duo_gc with Some (_, _, w) => w | None => duo_w2 end.
Definition duo_m : Manifest := match lookup_obj "k" (w_etcd duo_w3) "b/k" with Ok m => m | Err _ => zeroManifest end.

Lemma duo_node : node_ok duo_addr 2 duo_c.
Proof.
  split; [done|]. split; [simpl; lia|]. split; [reflexivity|]. split; [done|]. exists ["1"; "2"], 1. split; [lia|].
  split; [done|]. intros n Hn. apply elem_of_cons in Hn as [->|Hn%list_elem_of_singleton]; [reflexivity|]. subst n.
  vm_compute. reflexivity.
Qed.

Lemma duo_inj n n' : duo_addr n = duo_addr n' -> n = n'.
Proof. apply sapp_inj_l. Qed.

Lemma duo_initial : initial (E := demoE) duo_s0.
Proof. split; [done|]. split; [done|]. intros k m (x & Hx & _). simpl in Hx. by rewrite lookup_empty in Hx. Qed.

Lemma settled_crash fs : fs_dirs_durable fs ⊆ fs_dirs fs -> map_Forall (fun p _ => p.1 ∈ fs_dirs fs) (fs_entries fs) ->
  crash fs (settled fs).
Proof.
  intros Hd He. apply crash_to; try done; cbn [settled fs_entries fs_dirs].
  - intros p i Hp. split; [exact (He p i Hp)|]. rewrite <- Hp. apply possible_now.
  - intros p Hp. rewrite <- Hp. apply possible_now.
Qed.

(** The put, the crash and a collection are a run of the cluster. *)
Lemma duo_run : exists used, rtc (step "k" duo_addr 2) duo_s0 (mk_sys duo_w3 used [] []).
Proof.
  destruct (Put_steps (rs := xor_codec) "k" duo_addr 2 duo_c duo_node "b/k" (demo_source "data") duo_opts duo_text duo_s0 duo_put.1 duo_w1)
    as (used & Hput & _).
  { split; [reflexivity|]. intros x Hx. by apply elem_of_empty in Hx. }
  { apply surjective_pairing. }
  exists used. eapply rtc_r; [eapply rtc_r; [exact Hput|]|].
  - apply (step_crash "k" duo_addr 2 (mk_sys duo_w1 used [] []) "a1" duo_fs (settled duo_fs)).
    + vm_compute. reflexivity.
    + apply settled_crash; apply (bool_decide_unpack _); vm_compute; exact I.
    + apply (bool_decide_unpack (map_Forall (fun p (_ : inode) => p.1 ∈ fs_dirs (settled duo_fs)) (fs_entries duo_fs))). vm_compute. exact I.
  - assert (Hok : bool_decide (is_Some duo_gc) = true) by (vm_compute; reflexivity).
    unfold duo_w3. destruct duo_gc as [[[st err] w']|] eqn:H; [|discriminate Hok].
    refine (step_collect "k" duo_addr 2 (mk_sys duo_w2 used [] []) duo_c 5 _ _ _ st err w' duo_node _ H).
    apply idle_unharmed. reflexivity.
Qed.

(** After the put, the crash and the collection the object is there, and with one node lost
    its chunk is on the other. *)
Lemma acknowledged_survives_witness : exists n, n ∈ m_Nodes duo_m /\ n <> "1" /\ m_Chunks duo_m <> [] /\
  forall r, r ∈ m_Chunks duo_m -> exists n, n <> "1" /\
    holds_chunk duo_w3 (duo_addr n) (c_ID r) (c_CRC r) (c_Size r).
Proof.
  assert (Hm : manifest_at (e_state (w_etcd duo_w3)) (key "k" "b/k") duo_m).
  { assert (Hl : match es_kvs (e_state (w_etcd duo_w3)) !! key "k" "b/k" with
                 | Some x => bool_decide (kv_value x = DManifest duo_m) | None => false end = true) by (vm_compute; reflexivity).
    unfold manifest_at. destruct (es_kvs (e_state (w_etcd duo_w3)) !! key "k" "b/k") as [x|]; [|discriminate Hl].
    exists x. split; [reflexivity|]. by apply bool_decide_eq_true in Hl. }
  exists "2". split; [apply (bool_decide_unpack _); vm_compute; exact I|]. split; [discriminate|].
  split; [vm_compute; discriminate|]. intros r Hr.
  destruct duo_run as [used Hrun]. destruct (acknowledged_survives (E := demoE) (rs := xor_codec) "k" duo_addr 2 duo_s0
    (mk_sys duo_w3 used [] []) (key "k" "b/k") duo_m r {["1"]}) as [(X & HX & Hsz & Hh) _].
  - exact duo_inj.
  - exact duo_initial.
  - exact Hrun.
  - exact Hm.
  - exact Hr.
  - rewrite size_singleton in Hsz. destruct (size_pos_elem_of X) as [n Hn]; [lia|]. exists n. split; [|by apply Hh].
    intros ->. apply HX, elem_of_difference in Hn as [_ Hn]. apply Hn, elem_of_singleton. reflexivity.
Defined.

Lemma passes_are_steps_witness : exists w' read, Repair (rs := xor_codec) "k" duo_c 5 duo_w1 <> None /\
  rtc (step "k" duo_addr 2) (mk_sys duo_w1 {[duo_text]} [] []) (mk_sys w' {[duo_text]} read []).
Proof.
  assert (Hok : bool_decide (is_Some (Repair (rs := xor_codec) "k" duo_c 5 duo_w1)) = true) by (vm_compute; reflexivity).
  destruct (Repair (rs := xor_codec) "k" duo_c 5 duo_w1) as [[[st err] w']|] eqn:H; [|discriminate Hok].
  destruct (passes_are_steps (E := demoE) (rs := xor_codec) "k" duo_addr 2 duo_c 5 (mk_sys duo_w1 {[duo_text]} [] []) w') as [read Hr].
  - exact duo_node.
  - left. exists st, err. exact H.
  - exists w', read. split; [discriminate | exact Hr].
Defined.

Lemma requests_are_steps_witness : exists w' used, w' = duo_w1 /\ rtc (step "k" duo_addr 2) duo_s0 (mk_sys w' used [] []).
Proof.
  exists duo_w1. destruct (requests_are_steps (E := demoE) (rs := xor_codec) "k" duo_addr 2 duo_c duo_text duo_s0 duo_w1) as [used Hr].
  - exact duo_node.
  - split; [reflexivity|]. intros x Hx. by apply elem_of_empty in Hx.
  - intros k x m Hx. simpl in Hx. by rewrite lookup_empty in Hx.
  - left. exists "b/k", (demo_source "data"), duo_opts, duo_put.1. apply surjective_pairing.
  - exists used. split; [reflexivity | exact Hr].
Defined.
