(* ===== verification/S3.v ===== *)
(** * The S3 front end: what it reads from a request and how it answers

    The error codes of [internal/s3/errors.go] and the functions of [internal/s3/s3.go],
    [upload.go] and [list.go] that turn headers and queries into what the
    coordinator is asked: checksums, digests, metadata, conditions, ranges, parts and
    copy sources. *)

From S2P Require Import Prelude GoStr Strconv Path Hash Text Time Crc Ec Object Sigv4 Chunked Store Etcd Meta Node Cluster Multipart Listing.

(** ** Errors *)

Record apiError := mk_apiError { ae_code : string; ae_status : Z; ae_message : string }.

#[global] Instance apiError_eq_dec : EqDecision apiError.
Proof. solve_decision. Defined.

Definition StatusNoContent : Z := 204.
Definition StatusPartialContent : Z := 206.
Definition StatusNotModified : Z := 304.
Definition StatusForbidden : Z := 403.
Definition StatusConflict : Z := 409.
Definition StatusPreconditionFailed : Z := 412.
Definition StatusRequestedRangeNotSatisfiable : Z := 416.
Definition StatusNotImplemented : Z := 501.

Definition errNoSuchKey := mk_apiError "NoSuchKey" StatusNotFound "The specified key does not exist.".
Definition errInvalidRange := mk_apiError "InvalidRange" StatusRequestedRangeNotSatisfiable
  "The requested range is not satisfiable.".
Definition errInvalidPartNumber := mk_apiError "InvalidPartNumber" StatusRequestedRangeNotSatisfiable
  "The requested part number is not satisfiable.".
Definition errBadPartNumber := mk_apiError "InvalidArgument" StatusBadRequest
  "partNumber must be an integer between 1 and 10000.".
Definition errMalformedRange := mk_apiError "InvalidArgument" StatusBadRequest
  "The copy source range is not a byte range this server can read.".
Definition errMissingLength := mk_apiError "MissingContentLength" StatusLengthRequired
  "An object write must declare its length.".
Definition errSlowDown := mk_apiError "SlowDown" StatusServiceUnavailable
  "Not enough nodes accepted the write to acknowledge it. Retry.".
Definition errInternal := mk_apiError "InternalError" StatusInternalServerError
  "The request could not be completed.".
Definition errAccessDenied := mk_apiError "AccessDenied" StatusForbidden "Access denied.".
Definition errInvalidKey := mk_apiError "InvalidAccessKeyId" StatusForbidden
  "The access key id does not exist in our records.".
Definition errBadSignature := mk_apiError "SignatureDoesNotMatch" StatusForbidden
  "The request signature does not match the signature this server computed.".
Definition errSkew := mk_apiError "RequestTimeTooSkewed" StatusForbidden
  "The difference between the request time and the server's time is too large.".
Definition errMalformedAuth := mk_apiError "AuthorizationHeaderMalformed" StatusBadRequest
  "The authorization header is malformed.".
Definition errMissingSecurityHeader := mk_apiError "MissingSecurityHeader" StatusBadRequest
  "Your request was missing a required header.".
Definition errBadDigest := mk_apiError "XAmzContentSHA256Mismatch" StatusBadRequest
  "The body does not match the checksum the request declared.".
Definition errBadContentMD5 := mk_apiError "BadDigest" StatusBadRequest
  "the Content-MD5 you specified did not match what was received".
Definition errInvalidDigest := mk_apiError "InvalidDigest" StatusBadRequest
  "the Content-MD5 you specified is not a base64-encoded 128-bit digest".
Definition errMalformedChecksum := mk_apiError "BadDigest" StatusBadRequest
  "the checksum you specified is not valid".
Definition errMetadataTooLarge := mk_apiError "MetadataTooLarge" StatusBadRequest
  "the metadata headers exceed the maximum allowed size".
Definition errInvalidDirective := mk_apiError "InvalidArgument" StatusBadRequest
  "x-amz-metadata-directive must be COPY or REPLACE".
Definition errPreconditionFailed := mk_apiError "PreconditionFailed" StatusPreconditionFailed
  "at least one of the preconditions you specified did not hold".
Definition errNotImplemented := mk_apiError "NotImplemented" StatusNotImplemented
  "This server does not implement that operation.".
Definition errEncryptionNotImplemented := mk_apiError "NotImplemented" StatusNotImplemented
  "This server does not encrypt objects, and will not pretend to have encrypted one.".
Definition errChecksumNotImplemented := mk_apiError "NotImplemented" StatusNotImplemented
  "This server verifies CRC32, CRC32C and CRC64NVME on a PUT or multipart upload that names them, and will not accept a checksum it would drop".
Definition errTaggingNotImplemented := mk_apiError "NotImplemented" StatusNotImplemented
  "This server does not store object tags, and will not accept tags it would drop.".
Definition errBucketNotEmpty := mk_apiError "BucketNotEmpty" StatusConflict "The bucket still holds objects.".
Definition errInvalidCopySource := mk_apiError "InvalidArgument" StatusBadRequest
  "The copy source must name a bucket and a key, and must not name a version.".
Definition errCopyOntoItself := mk_apiError "InvalidRequest" StatusBadRequest
  "A copy onto the object itself would change nothing: there is no metadata here to rewrite.".
Definition errMalformedXML := mk_apiError "MalformedXML" StatusBadRequest
  "The request body is not XML this server can read.".

Definition authError (err : error) : apiError :=
  if errors_Is err ErrMissingSignature then errAccessDenied
  else if errors_Is err ErrMissingDate then errMissingSecurityHeader
  else if errors_Is err ErrUnknownKey then errInvalidKey
  else if errors_Is err ErrMismatch then errBadSignature
  else if errors_Is err ErrSkew then errSkew
  else if errors_Is err ErrPayload then errBadDigest
  else errMalformedAuth.

Definition storeError (err : error) : apiError :=
  if errors_Is err MetaErrNotFound then errNoSuchKey
  else if errors_Is err ErrBadDigest then errBadContentMD5
  else if errors_Is err ErrQuorum then errSlowDown
  else if errors_Is err ErrNotWriting then errSlowDown
  else if errors_Is err ErrPayload || errors_Is err ErrMismatch then errBadDigest
  else if errors_Is err ErrChecksumMismatch then
    mk_apiError "BadDigest" StatusBadRequest "The bytes received did not match their checksum."
  else errInternal.

Definition uploadError (err : error) : apiError :=
  if errors_Is err MetaErrNotFound then
    mk_apiError "NoSuchUpload" StatusNotFound "The upload id does not exist. It may have been completed or aborted."
  else if errors_Is err ErrNoSuchPart then
    mk_apiError "InvalidPart" StatusBadRequest "A part named by the completion does not exist."
  else if errors_Is err ErrPartOrder then
    mk_apiError "InvalidPartOrder" StatusBadRequest
      "Parts must be listed in ascending part-number order, each at most once."
  else if errors_Is err ErrPartMismatch then
    mk_apiError "InvalidPart" StatusBadRequest "A part's etag does not match the part this server stored."
  else storeError err.

(** ** Checksums *)

Definition encodeCRC32C (sum : Z) : string := EncodeToString (be_bytes 4 sum).
Definition encodeCRC32 (sum : Z) : string := encodeCRC32C sum.
Definition encodeCRC64NVME (sum : Z) : string := EncodeToString (be_bytes 8 sum).

(** The body the three decoders share, for a digest of [n] bytes. *)
Definition decode_sum (n : Z) (raw : string) : option Z :=
  match DecodeString raw with Some b => if zlen b =? n then Some (be_word b) else None | None => None end.

Definition decodeCRC32C (raw : string) : option Z := decode_sum 4 raw.
Definition decodeCRC32 (raw : string) : option Z := decode_sum 4 raw.
Definition decodeCRC64NVME (raw : string) : option Z := decode_sum 8 raw.

(** A checksum a header declares: nothing, a number, or an error. *)
Definition declared (decode : string -> option Z) (raw : string) : res (option Z) :=
  if String.eqb raw "" then Ok None
  else match decode raw with Some s => Ok (Some s) | None => Err errors_New end.

Definition declaredCRC32 (h : Values) : res (option Z) := declared decodeCRC32 (header_Get h "X-Amz-Checksum-Crc32").
Definition declaredCRC32C (h : Values) : res (option Z) := declared decodeCRC32C (header_Get h "X-Amz-Checksum-Crc32c").
Definition declaredCRC64NVME (h : Values) : res (option Z) := declared decodeCRC64NVME (header_Get h "X-Amz-Checksum-Crc64nvme").

(** A checksum the trailers declare, which was announced and so has to be there. *)
Definition declared_trailing (decode : string -> option Z) (raw : string) : res (option Z) :=
  if String.eqb raw "" then Err [ErrBadDigest]
  else match decode raw with Some s => Ok (Some s) | None => Err [ErrBadDigest] end.

Definition declaredTrailingCRC32 (t : Values) : res (option Z) := declared_trailing decodeCRC32 (header_Get t "X-Amz-Checksum-Crc32").
Definition declaredTrailingCRC32C (t : Values) : res (option Z) := declared_trailing decodeCRC32C (header_Get t "X-Amz-Checksum-Crc32c").
Definition declaredTrailingCRC64NVME (t : Values) : res (option Z) :=
  declared_trailing decodeCRC64NVME (header_Get t "X-Amz-Checksum-Crc64nvme").

Definition announcedTrailers (h : Values) : list string :=
  filter (fun n => n <> "") (map TrimSpace (flat_map (splitc ",") (header_Values h "X-Amz-Trailer"))).

(** The loop of [checksumHeaders] over the announced trailers: which of the three sums
    are among them, or [None] at one that is none of them. *)
Fixpoint announced_sums (names : list string) (acc : bool * bool * bool) : option (bool * bool * bool) :=
  match names with
  | [] => Some acc
  | n :: names' =>
      let '(ieee, c, nvme) := acc in
      if EqualFold n "x-amz-checksum-crc32" then announced_sums names' (true, c, nvme)
      else if EqualFold n "x-amz-checksum-crc32c" then announced_sums names' (ieee, true, nvme)
      else if EqualFold n "x-amz-checksum-crc64nvme" then announced_sums names' (ieee, c, true)
      else None
  end.

Definition has_header (h : Values) (name : string) : bool := negb (String.eqb (header_Get h name) "").

Definition named_algo (algo name : string) : string * bool :=
  if String.eqb algo "" then (name, false) else if negb (EqualFold algo name) then ("", true) else (algo, false).

(** [checksumHeaders]: the algorithm, and whether there is something to refuse. *)
Definition checksumHeaders (h : Values) : string * bool :=
  let type := header_Get h "X-Amz-Checksum-Type" in
  if negb (String.eqb type "") && negb (EqualFold type "FULL_OBJECT") then ("", true)
  else if has_header h "X-Amz-Checksum-Sha1" || has_header h "X-Amz-Checksum-Sha256" then ("", true)
  else match announced_sums (announcedTrailers h) (false, false, false) with
  | None => ("", true)
  | Some (ieee, c, nvme) =>
      let ieee := ieee || has_header h "X-Amz-Checksum-Crc32" in
      let c := c || has_header h "X-Amz-Checksum-Crc32c" in
      let nvme := nvme || has_header h "X-Amz-Checksum-Crc64nvme" in
      if 1 <? Z.b2z ieee + Z.b2z c + Z.b2z nvme then ("", true)
      else
        let algo := cmp_Or (header_Get h "X-Amz-Checksum-Algorithm") (header_Get h "X-Amz-Sdk-Checksum-Algorithm") in
        if ieee then named_algo algo "CRC32"
        else if c then named_algo algo "CRC32C"
        else if nvme then named_algo algo "CRC64NVME"
        else (algo, false)
  end.

Definition canonicalChecksumAlgo (h : Values) : string :=
  let '(algo, extras) := checksumHeaders h in
  if extras then ""
  else if EqualFold algo "CRC32" then "CRC32"
  else if EqualFold algo "CRC32C" then "CRC32C"
  else if EqualFold algo "CRC64NVME" then "CRC64NVME" else "".

Definition requested (name : string) (h : Values) : bool :=
  let '(algo, extras) := checksumHeaders h in negb extras && EqualFold algo name.
Definition requestedCRC32 : Values -> bool := requested "CRC32".
Definition requestedCRC32C : Values -> bool := requested "CRC32C".
Definition requestedCRC64NVME : Values -> bool := requested "CRC64NVME".

Definition checksumModeEnabled (h : Values) : bool := EqualFold (header_Get h "X-Amz-Checksum-Mode") "ENABLED".

(** [attachTrailingChecksums], on what the trailers hold once the body has been read. *)
Definition attachTrailingChecksums (o : PutOptions) (r : Request) : PutOptions :=
  foldl (fun o name =>
    let t := rq_Trailers r in
    if EqualFold name "x-amz-checksum-crc32" then
      mk_PutOptions (po_ContentType o) (po_ETag o) (po_Size o) (po_Meta o) (po_MD5 o) (po_CRC32C o) (po_TrailingCRC32C o)
        (po_CRC32 o) (Some (declaredTrailingCRC32 t)) (po_CRC64NVME o) (po_TrailingCRC64NVME o)
    else if EqualFold name "x-amz-checksum-crc32c" then
      mk_PutOptions (po_ContentType o) (po_ETag o) (po_Size o) (po_Meta o) (po_MD5 o) (po_CRC32C o)
        (Some (declaredTrailingCRC32C t)) (po_CRC32 o) (po_TrailingCRC32 o) (po_CRC64NVME o) (po_TrailingCRC64NVME o)
    else if EqualFold name "x-amz-checksum-crc64nvme" then
      mk_PutOptions (po_ContentType o) (po_ETag o) (po_Size o) (po_Meta o) (po_MD5 o) (po_CRC32C o) (po_TrailingCRC32C o)
        (po_CRC32 o) (po_TrailingCRC32 o) (po_CRC64NVME o) (Some (declaredTrailingCRC64NVME t))
    else o) o (announcedTrailers (rq_Header r)).

(** ** What a request may carry *)

(** [knownObjectQuery] *)
Definition knownObjectQuery (method name value : string) : bool :=
  if String.eqb name "x-id" then true
  else if String.eqb name "uploadId" then true
  else if String.eqb name "partNumber" then String.eqb method "PUT" || String.eqb method "GET" || String.eqb method "HEAD"
  else if String.eqb name "uploads" then String.eqb method "POST"
  else if String.eqb name "max-parts" || String.eqb name "part-number-marker" then String.eqb method "GET"
  else if String.eqb name "tagging" then String.eqb method "GET"
  else if String.eqb name "versionId" then String.eqb value "null"
  else false.

Definition header_names (h : Values) : list string := map fst (map_to_list h).

Definition encryptionRequested (h : Values) : bool :=
  existsb (fun name => HasPrefix name "X-Amz-Server-Side-Encryption" ||
                       HasPrefix name "X-Amz-Copy-Source-Server-Side-Encryption") (header_names h).

Definition taggingRequested (h : Values) : bool := has_header h "X-Amz-Tagging".

Definition writesObjectBytes (r : Request) : bool :=
  (String.eqb (rq_Method r) "PUT" && negb (String.eqb (rq_key r) "")) ||
  (String.eqb (rq_Method r) "POST" && negb (String.eqb (rq_key r) "") &&
   (query_Has (rq_Query r) "uploads" || negb (String.eqb (query_Get (rq_Query r) "uploadId") ""))).

Definition checksumRefused (r : Request) : bool :=
  if negb (writesObjectBytes r) then false
  else
    let '(algo, extras) := checksumHeaders (rq_Header r) in
    if extras then true
    else if String.eqb algo "" then false
    else if negb (EqualFold algo "CRC32") && negb (EqualFold algo "CRC32C") && negb (EqualFold algo "CRC64NVME") then true
    else has_header (rq_Header r) "X-Amz-Copy-Source" && String.eqb (query_Get (rq_Query r) "uploadId") "".

Definition httpChunked (r : Request) : bool := existsb (fun te => EqualFold te "chunked") (rq_TransferEncoding r).

(** [objectKey], [None] where the code returns [false]. *)
Definition objectKey (r : Request) : option string :=
  if String.eqb (rq_bucket r) "" || String.eqb (rq_key r) "" || Contains (rq_bucket r) "/" then None
  else Some (rq_bucket r +:+ "/" +:+ rq_key r).

(** ** Copy sources *)

Definition copySource (source : string) : option string :=
  match IndexByte source "?" with
  | Some _ => None
  | None =>
      match PathUnescape (TrimPrefix source "/") with
      | None => None
      | Some decoded =>
          match Cut decoded "/" with
          | None => None
          | Some (bucket, key) =>
              if String.eqb bucket "" || String.eqb key "" then None else Some (bucket +:+ "/" +:+ key)
          end
      end
  end.

(** ** Conditions *)

Definition quoted (s : string) : string := String quote (s +:+ String quote "").

Definition etag (m : Manifest) : string := quoted (m_ETag m).

Definition validators (h : Values) (m : Manifest) : Values :=
  header_Set (header_Set h "ETag" (etag m)) "Last-Modified" (Format TimeFormat (m_Modified m)).

(** The list of entity tags holds this one, or any. *)
Definition matchesTag (header tag : string) : bool :=
  existsb (fun c => let c := TrimSpace c in String.eqb c "*" || String.eqb c tag) (splitc "," header).

Definition modified (m : Manifest) : Z := TruncateSecond (m_Modified m).

Section conditions.
Context (local : string -> Z -> option Z).

Definition httpDate (header : string) : option Z := if String.eqb header "" then None else ParseTime local header.

(** [precondition]: the status, and whether the read may go on. *)
Definition precondition (h : Values) (m : Manifest) : Z * bool :=
  let tag := etag m in
  let want := header_Get h "If-Match" in
  let failed :=
    if negb (String.eqb want "") then negb (matchesTag want tag)
    else match httpDate (header_Get h "If-Unmodified-Since") with Some since => since <? modified m | None => false end in
  if failed then (StatusPreconditionFailed, false)
  else
    let want := header_Get h "If-None-Match" in
    let current :=
      if negb (String.eqb want "") then matchesTag want tag
      else match httpDate (header_Get h "If-Modified-Since") with Some since => negb (since <? modified m) | None => false end in
    if current then (StatusNotModified, false) else (StatusOK, true).
End conditions.

Definition copyConditions (h : Values) : Values :=
  foldl (fun acc name =>
    let value := header_Get h ("X-Amz-Copy-Source-" +:+ name) in
    if String.eqb value "" then acc else header_Set acc name value)
    ∅ ["If-Match"; "If-None-Match"; "If-Modified-Since"; "If-Unmodified-Since"].

(** ** Metadata *)

Definition passthrough : list string :=
  ["Cache-Control"; "Content-Disposition"; "Content-Encoding"; "Content-Language"; "Expires"].

Definition MaxMeta : Z := Z.shiftl 2 10.

Definition withoutAWSChunked (encoding : string) : string :=
  Text.Join (filter (fun part => part <> "" /\ EqualFold part "aws-chunked" = false) (map TrimSpace (splitc "," encoding))) ", ".

(** [keep], on what has been stored and its size. *)
Definition keep (acc : gmap string string * Z) (name value : string) : gmap string string * Z :=
  (<[name := value]> acc.1, acc.2 + Z.of_nat (slen name) + Z.of_nat (slen value)).

Definition keep_meta (acc : gmap string string * Z) (nv : string * list string) : gmap string string * Z :=
  match nv.2 with
  | v :: _ => if HasPrefix nv.1 "X-Amz-Meta-" then keep acc (ToLower nv.1) v else acc
  | [] => acc
  end.

Definition keep_passthrough (h : Values) (acc : gmap string string * Z) (name : string) : gmap string string * Z :=
  let value := header_Get h name in
  if String.eqb value "" then acc
  else if String.eqb name "Content-Encoding" then
    let value := withoutAWSChunked value in if String.eqb value "" then acc else keep acc name value
  else keep acc name value.

Definition storedMeta (h : Values) : res (gmap string string) :=
  let '(stored, size) := foldl (keep_passthrough h) (foldl keep_meta (∅, 0) (map_to_list h)) passthrough in
  if MaxMeta <? size then Err errors_New else Ok stored.

(** ** Digests *)

Definition contentMD5 (values : list string) : res string :=
  match values with
  | [] => Ok ""
  | header :: _ =>
      match DecodeString header with
      | None => Err errors_New
      | Some sum => if negb (zlen sum =? 16) then Err errors_New else Ok (hex_EncodeToString sum)
      end
  end.

(** ** Windows *)

Record window := mk_window { wn_off : Z; wn_size : Z; wn_part : option Part; wn_multipart : bool; wn_ok : bool }.

Fixpoint part_window (parts : list Part) (off n : Z) : window :=
  match parts with
  | [] => mk_window 0 0 None true false
  | p :: parts' => if p_Number p =? n then mk_window off (p_Size p) (Some p) true true
                   else part_window parts' (wrap_int64 (off + p_Size p)) n
  end.

Definition partWindow (m : Manifest) (n : Z) : window :=
  match m_Parts m with
  | [] => mk_window 0 (m_Size m) None false (n =? 1)
  | parts => part_window parts 0 n
  end.

Definition parseRange (header : string) (size : Z) : res (Z * Z) :=
  match CutPrefix header "bytes=" with
  | None => Ok (0, size)
  | Some spec =>
      if Contains spec "," then Ok (0, size)
      else match Cut spec "-" with
      | None => Err errors_New
      | Some (first, last) =>
          if String.eqb first "" then
            match ParseInt last 10 with
            | Some n => if n <=? 0 then Err errors_New else Ok (Z.max (wrap_int64 (size - n)) 0, Z.min n size)
            | None => Err errors_New
            end
          else if String.eqb last "" then
            match ParseInt first 10 with
            | Some off => if (off <? 0) || (size <=? off) then Err errors_New else Ok (off, wrap_int64 (size - off))
            | None => Err errors_New
            end
          else
            match ParseInt first 10, ParseInt last 10 with
            | Some off, Some end_ =>
                if (off <? 0) || (end_ <? off) || (size <=? off) then Err errors_New
                else Ok (off, wrap_int64 (Z.min (wrap_int64 (end_ + 1)) size - off))
            | _, _ => Err errors_New
            end
      end
  end.

Definition parseCopyRange (header : string) (size : Z) : res (Z * Z) :=
  if String.eqb header "" then Ok (0, size)
  else match CutPrefix header "bytes=" with
  | None => Err [errRangeSyntax]
  | Some spec =>
      match Cut spec "-" with
      | None => Err [errRangeSyntax]
      | Some (first, last) =>
          match ParseInt first 10, ParseInt last 10 with
          | Some start, Some end_ =>
              if (start <? 0) || (end_ <? start) then Err [errRangeSyntax]
              else if size <=? end_ then Err errors_New
              else Ok (start, wrap_int64 (wrap_int64 (end_ - start) + 1))
          | _, _ => Err [errRangeSyntax]
          end
      end
  end.

(** A page size or marker, within its bound. *)
Definition boundedInt (value : string) (fallback : Z) : Z :=
  match Atoi value with
  | Some n => if (n <? 0) || ((0 <? fallback) && (fallback <? n)) then fallback else n
  | None => fallback
  end.

(** ** Keys in listings *)

Definition list_unreserved : string := "ABCDEFGHIJKLMNOPQRSTUVWXYZabcdefghijklmnopqrstuvwxyz0123456789-_.~/".
Definition escapeKey (s : string) : string := percent_encode list_unreserved s.

Definition scoped (bucket key : string) : string := if String.eqb key "" then "" else bucket +:+ "/" +:+ key.
Definition unscoped (bucket key : string) : string := TrimPrefix key (bucket +:+ "/").

Definition encodeToken (key : string) : string := EncodeToString (to_bytes key).
Definition decodeToken (token : string) : res string :=
  if String.eqb token "" then Ok ""
  else match DecodeString token with Some key => Ok (of_bytes key) | None => Err errors_New end.

Definition lastReported (bucket : string) (page : ListPage) : string :=
  let last_ := match last (lp_Objects page) with Some o => unscoped bucket (en_Key o) | None => "" end in
  match last (lp_Prefixes page) with
  | Some p => let p := unscoped bucket p in if slt last_ p then p else last_
  | None => last_
  end.


(** ** Ranges select bytes *)

(** The three forms of a range, the header a client writes, and the bytes it asks for. *)
Inductive byte_range := FromTo (first last : Z) | From (first : Z) | Last (n : Z).

Definition range_ok (g : byte_range) : Prop :=
  match g with
  | FromTo f l => 0 <= f <= l /\ l < max_int64
  | From f => 0 <= f <= max_int64
  | Last n => 0 <= n <= max_int64
  end.

Definition range_text (g : byte_range) : string :=
  match g with
  | FromTo f l => "bytes=" +:+ Itoa f +:+ "-" +:+ Itoa l
  | From f => "bytes=" +:+ Itoa f +:+ "-"
  | Last n => "bytes=-" +:+ Itoa n
  end.

Definition range_bytes (g : byte_range) (data : bytes) : bytes :=
  match g with
  | FromTo f l => takeZ (l + 1 - f) (dropZ f data)
  | From f => dropZ f data
  | Last n => dropZ (zlen data - n) data
  end.

Lemma Itoa_no c n : 0 <= n -> digit_like c = false -> has_byte c (Itoa n) = false.
Proof.
  intros Hn Hc. unfold Itoa. rewrite (proj2 (Z.ltb_ge _ _)) by lia.
  eapply digit_like_no; [done|]. apply format_uint_like. lia.
Qed.

Lemma Itoa_ne n : 0 <= n -> String.eqb (Itoa n) "" = false.
Proof.
  intros Hn. apply String.eqb_neq. unfold Itoa. rewrite (proj2 (Z.ltb_ge _ _)) by lia.
  apply format_go_nonempty. lia.
Qed.

Lemma Contains_no c s : has_byte c s = false -> Contains s (String c "") = false.
Proof.
  intros H. destruct (Contains s (String c "")) eqn:E; [|done]. apply Contains_spec in E as (a & b & ->).
  rewrite !has_byte_app in H. cbn in H. rewrite Ascii.eqb_refl in H. by rewrite orb_true_r in H.
Qed.

Lemma parseRange_FromTo f l size : 0 <= f -> 0 <= l ->
  parseRange ("bytes=" +:+ Itoa f +:+ "-" +:+ Itoa l) size =
  match ParseInt (Itoa f) 10, ParseInt (Itoa l) 10 with
  | Some off, Some end_ =>
      if (off <? 0) || (end_ <? off) || (size <=? off) then Err errors_New
      else Ok (off, wrap_int64 (Z.min (wrap_int64 (end_ + 1)) size - off))
  | _, _ => Err errors_New
  end.
Proof.
  intros Hf Hl. unfold parseRange. rewrite (proj2 (CutPrefix_Some _ "bytes=" (Itoa f +:+ "-" +:+ Itoa l)) eq_refl).
  rewrite Contains_no by (rewrite !has_byte_app, !Itoa_no by done; done).
  change ("-" +:+ Itoa l) with (String "-" (Itoa l)). rewrite Cut_byte by (by apply Itoa_no).
  by rewrite !Itoa_ne.
Qed.

Lemma parseRange_From f size : 0 <= f ->
  parseRange ("bytes=" +:+ Itoa f +:+ "-") size =
  match ParseInt (Itoa f) 10 with
  | Some off => if (off <? 0) || (size <=? off) then Err errors_New else Ok (off, wrap_int64 (size - off))
  | None => Err errors_New
  end.
Proof.
  intros Hf. unfold parseRange. rewrite (proj2 (CutPrefix_Some _ "bytes=" (Itoa f +:+ "-")) eq_refl).
  rewrite Contains_no by (rewrite !has_byte_app, !Itoa_no by done; done).
  rewrite Cut_byte by (by apply Itoa_no). by rewrite Itoa_ne.
Qed.

Lemma parseRange_Last n size : 0 <= n ->
  parseRange ("bytes=-" +:+ Itoa n) size =
  match ParseInt (Itoa n) 10 with
  | Some n => if n <=? 0 then Err errors_New else Ok (Z.max (wrap_int64 (size - n)) 0, Z.min n size)
  | None => Err errors_New
  end.
Proof.
  intros Hn. unfold parseRange. change ("bytes=-" +:+ Itoa n) with ("bytes=" +:+ ("-" +:+ Itoa n)).
  rewrite (proj2 (CutPrefix_Some _ "bytes=" ("-" +:+ Itoa n)) eq_refl).
  rewrite Contains_no by (rewrite !has_byte_app, Itoa_no by done; done).
  change ("-" +:+ Itoa n) with ("" +:+ String "-" (Itoa n)). rewrite Cut_byte by done. done.
Qed.

(** A range header gets exactly the bytes it names. For each of the three forms, what
    [parseRange] picks out of an object is what the form means, cut off at the object's
    end; the header is refused exactly when it names no byte, but for a suffix of an
    empty object, which is the empty object. *)
Theorem parseRange_selects (g : byte_range) (data : bytes) :
  range_ok g -> zlen data <= max_int64 ->
  match parseRange (range_text g) (zlen data) with
  | Ok (off, len) => takeZ len (dropZ off data) = range_bytes g data /\ zlen (range_bytes g data) = len /\
                     (range_bytes g data = [] -> data = [])
  | Err _ => range_bytes g data = []
  end.
Proof.
  intros Hg Hd. pose proof (zlen_nonneg data).
  destruct g as [f l | f | n]; cbn [range_ok range_text range_bytes] in *; unfold max_int64 in *.
  - rewrite parseRange_FromTo, !ParseInt_Itoa by lia. rewrite (proj2 (Z.ltb_ge f 0)), (proj2 (Z.ltb_ge l f)) by lia. cbn [orb].
    destruct (Z.leb_spec (zlen data) f); [rewrite dropZ_all by lia; unfold takeZ; apply take_nil|].
    rewrite !(wrap_int64_id (_ + 1)), wrap_int64_id by (unfold is_int64, min_int64, max_int64; lia).
    assert (Hdz : zlen (dropZ f data) = zlen data - f) by (rewrite zlen_dropZ; lia).
    assert (Hlen : zlen (takeZ (l + 1 - f) (dropZ f data)) = Z.min (l + 1) (zlen data) - f) by (rewrite zlen_takeZ; lia).
    split_and!; [|done|intros Hn; rewrite Hn, zlen_nil in Hlen; lia].
    destruct (Z.min_spec (l + 1) (zlen data)) as [[? ->]|[? ->]]; [done|]. by rewrite !takeZ_all by lia.
  - rewrite parseRange_From, ParseInt_Itoa by lia. rewrite (proj2 (Z.ltb_ge f 0)) by lia. cbn [orb].
    destruct (Z.leb_spec (zlen data) f); [by rewrite dropZ_all by lia|].
    rewrite wrap_int64_id by (unfold is_int64, min_int64, max_int64; lia).
    assert (Hdz : zlen (dropZ f data) = zlen data - f) by (rewrite zlen_dropZ; lia).
    split_and!; [by rewrite takeZ_all by lia | done | intros Hn; rewrite Hn, zlen_nil in Hdz; lia].
  - rewrite parseRange_Last, ParseInt_Itoa by lia. destruct (Z.leb_spec n 0); [by rewrite dropZ_all by lia|].
    rewrite wrap_int64_id by (unfold is_int64, min_int64, max_int64; lia).
    assert (Hz : dropZ (zlen data - n) data = dropZ (Z.max (zlen data - n) 0) data)
      by (unfold dropZ; f_equal; lia).
    rewrite Hz. assert (Hdz : zlen (dropZ (Z.max (zlen data - n) 0) data) = Z.min n (zlen data)) by (rewrite zlen_dropZ; lia).
    split_and!; [by rewrite takeZ_all by lia | done | intros Hn; rewrite Hn, zlen_nil in Hdz; apply zlen_zero_nil; lia].
Qed.

Lemma parseRange_window (header : string) (size off len : Z) :
  0 <= size <= max_int64 -> parseRange header size = Ok (off, len) ->
  (0 <= off /\ 0 <= len /\ off + len <= size) \/
  (exists first last, header = "bytes=" +:+ first +:+ "-" +:+ last /\ ParseInt last 10 = Some max_int64 /\
     0 <= off < size /\ len = if off =? 0 then min_int64 else 2 ^ 63 - off).
Proof.
  intros Hs. unfold parseRange. destruct (CutPrefix header "bytes=") as [spec|] eqn:Hc; [|intros [= <- <-]; lia].
  apply CutPrefix_Some in Hc as ->. destruct (Contains spec ","); [intros [= <- <-]; lia|].
  destruct (Cut spec "-") as [[first last]|] eqn:Hcut; [|done]. apply Cut_Some in Hcut as ->.
  unfold max_int64, min_int64 in *. destruct (String.eqb first "").
  { destruct (ParseInt last 10) as [n|] eqn:Hn; [|done]. apply ParseInt_range in Hn; [|done].
    destruct (Z.leb_spec n 0); [done|]. intros [= <- <-]. unfold is_int64, min_int64, max_int64 in *.
    rewrite wrap_int64_id by (unfold is_int64, min_int64, max_int64; lia). left. lia. }
  destruct (String.eqb last "").
  { destruct (ParseInt first 10) as [n|] eqn:Hn; [|done]. destruct (_ || _) eqn:Hb; [done|]. intros [= <- <-]. bool_facts.
    rewrite wrap_int64_id by (unfold is_int64, min_int64, max_int64; lia). left. lia. }
  destruct (ParseInt first 10) as [a|]; [|done]. destruct (ParseInt last 10) as [b|] eqn:Hb; [|done].
  pose proof (ParseInt_range _ 10 _ ltac:(done) Hb) as Hr. destruct (_ || _) eqn:Hg; [done|]. intros [= <- <-]. bool_facts.
  unfold is_int64, min_int64, max_int64 in Hr. destruct (Z.eq_dec b (2 ^ 63 - 1)) as [->|Hne].
  - right. exists first, last. split_and!; [done..|]. change (wrap_int64 (2 ^ 63 - 1 + 1)) with (- 2 ^ 63).
    rewrite Z.min_l by lia. unfold wrap_int64, wrap_int. destruct (Z.eqb_spec a 0) as [->|]; [done|].
    replace (- 2 ^ 63 - a + 2 ^ (64 - 1)) with (2 ^ 64 - a + -1 * 2 ^ 64) by lia.
    rewrite Z.mod_add, Z.mod_small by lia. lia.
  - left. rewrite (wrap_int64_id (b + 1)) by (unfold is_int64, min_int64, max_int64; lia).
    rewrite wrap_int64_id by (unfold is_int64, min_int64, max_int64; lia). lia.
Qed.

(** C39: a window [parseRange] returns is inside the object, whatever the header says, with one
    exception: when the header names the largest 64-bit number as the last byte, one more
    than it wraps around, and the length is negative or reaches past the object. *)
Theorem parseRange_bounds (header : string) (size off len : Z) :
  0 <= size <= max_int64 -> parseRange header size = Ok (off, len) ->
  (0 <= off /\ 0 <= len /\ off + len <= size) \/
  (exists first last, header = "bytes=" +:+ first +:+ "-" +:+ last /\ ParseInt last 10 = Some max_int64 /\
     0 <= off < size /\ len = if off =? 0 then min_int64 else 2 ^ 63 - off).
Proof. apply parseRange_window. Qed.

(** A copy range is checked exactly: what [parseCopyRange] accepts lies inside the source,
    and a range that a client writes is accepted if and only if it does. *)
Theorem parseCopyRange_exact (size : Z) : 0 <= size <= max_int64 ->
  (forall header off len, parseCopyRange header size = Ok (off, len) -> 0 <= off /\ 0 <= len /\ off + len <= size) /\
  (forall first last, 0 <= first <= max_int64 -> 0 <= last <= max_int64 ->
     parseCopyRange ("bytes=" +:+ Itoa first +:+ "-" +:+ Itoa last) size =
     if last <? first then Err [errRangeSyntax] else if last <? size then Ok (first, last - first + 1) else Err errors_New).
Proof.
  intros Hs. unfold max_int64 in *. split.
  - intros header off len. unfold parseCopyRange. destruct (String.eqb header ""); [intros [= <- <-]; lia|].
    destruct (CutPrefix _ _) as [spec|]; [|done]. destruct (Cut spec "-") as [[a b]|]; [|done].
    destruct (ParseInt a 10) as [f|]; [|done]. destruct (ParseInt b 10) as [l|]; [|done].
    destruct (_ || _) eqn:Hb; [done|]. destruct (Z.leb_spec size l); [done|]. intros [= <- <-]. bool_facts.
    rewrite !wrap_int64_id; unfold is_int64, min_int64, max_int64; try lia.
    rewrite wrap_int64_id; unfold is_int64, min_int64, max_int64; lia.
  - intros f l Hf Hl. unfold parseCopyRange.
    rewrite (proj2 (CutPrefix_Some _ "bytes=" (Itoa f +:+ "-" +:+ Itoa l)) eq_refl). cbn [String.append String.eqb].
    change ("-" +:+ Itoa l) with (String "-" (Itoa l)). rewrite Cut_byte by (apply Itoa_no; [lia | done]).
    rewrite !ParseInt_Itoa by lia. rewrite (proj2 (Z.ltb_ge f 0)) by lia. cbn [orb].
    destruct (Z.ltb_spec l f); [done|]. destruct (Z.leb_spec size l), (Z.ltb_spec l size); try lia; [done|].
    rewrite !(wrap_int64_id (l - f)); unfold is_int64, min_int64, max_int64; try lia.
    rewrite wrap_int64_id; [done|]. unfold is_int64, min_int64, max_int64; lia.
Qed.

(** ** What is handed out reads back *)

Lemma decode_sum_encode n sum : 0 <= sum < 256 ^ Z.of_nat n ->
  decode_sum (Z.of_nat n) (EncodeToString (be_bytes n sum)) = Some sum.
Proof.
  intros Hs. unfold decode_sum. rewrite DecodeString_Encode. unfold zlen.
  by rewrite length_be_bytes, Z.eqb_refl, be_word_bytes.
Qed.

Lemma decodeToken_encode key : decodeToken (encodeToken key) = Ok key.
Proof.
  unfold decodeToken, encodeToken. rewrite DecodeString_Encode, of_to_bytes.
  destruct (String.eqb_spec (EncodeToString (to_bytes key)) "") as [E0|]; [|done].
  pose proof (DecodeString_Encode (to_bytes key)) as H. rewrite E0 in H. injection H as H. by destruct key.
Qed.

(** What the server hands to a client it can read back: the checksums it computes for
    any bytes, as the headers that declare them, any key as the continuation token for it,
    and any key as listings that asked for URL encoding spell it. *)
Theorem texts_read_back (data : bytes) (key : string) :
  decodeCRC32 (encodeCRC32 (crc32ieee data)) = Some (crc32ieee data) /\
  decodeCRC32C (encodeCRC32C (crc32c data)) = Some (crc32c data) /\
  decodeCRC64NVME (encodeCRC64NVME (CRC64NVME data)) = Some (CRC64NVME data) /\
  decodeToken (encodeToken key) = Ok key /\ PathUnescape (escapeKey key) = Some key.
Proof.
  split_and!.
  - apply (decode_sum_encode 4), (Checksum_width 32 IEEE); [done | apply IEEE_width].
  - apply (decode_sum_encode 4), (Checksum_width 32 Castagnoli); [done | apply Castagnoli_width].
  - apply (decode_sum_encode 8), (Checksum_width 64 nvmePoly); [done | apply nvmePoly_width].
  - apply decodeToken_encode.
  - by apply PathUnescape_encode.
Qed.

(** ** Conditional requests *)

(** What a list of entity tags may have: any tag, a strong one, a weak one. *)
Inductive entity_tag := AnyTag | Strong (t : string) | Weak (t : string).

Definition tag_text (t : entity_tag) : string :=
  match t with AnyTag => "*" | Strong t => quoted t | Weak t => "W/" +:+ quoted t end.
Definition tag_ok (t : entity_tag) : Prop :=
  match t with AnyTag => True | Strong t | Weak t => all_bytes graphic t = true /\ has_byte "," t = false end.

Definition tags_text (ts : list entity_tag) : string := Text.Join (map tag_text ts) ", ".

(** The header has the list, or is not there. *)
Definition tags_in (text : string) (ts : option (list entity_tag)) : Prop :=
  match ts with Some ts => text = tags_text ts /\ ts <> [] /\ Forall tag_ok ts | None => text = "" end.

(** The header has the date as clients are to write it, or no date at all. *)
Definition date_in (local : string -> Z -> option Z) (text : string) (t : option Z) : Prop :=
  match t with
  | Some t => text = Format TimeFormat t /\ years_ok t
  | None => text = "" \/ ParseTime local text = None
  end.

(** The four headers, with the values they are given. *)
Definition conditions_in (local : string -> Z -> option Z) (h : Values) (im inm : option (list entity_tag)) (ius ims : option Z) : Prop :=
  tags_in (header_Get h "If-Match") im /\ tags_in (header_Get h "If-None-Match") inm /\
  date_in local (header_Get h "If-Unmodified-Since") ius /\ date_in local (header_Get h "If-Modified-Since") ims.

(** The strong comparison: a weak tag is the same as no tag. *)
Definition matches (ts : list entity_tag) (etag : string) : bool :=
  existsb (fun u => match u with AnyTag => true | Strong t => String.eqb t etag | Weak _ => false end) ts.

(** A condition on entity tags or, without one, on a date, in the order of RFC 9110. *)
Definition rfc_condition (im inm : option (list entity_tag)) (ius ims : option Z) (m : Manifest) : Z * bool :=
  let fails := match im with
               | Some ts => negb (matches ts (m_ETag m))
               | None => match ius with Some t => TruncateSecond t <? TruncateSecond (m_Modified m) | None => false end
               end in
  let fresh := match inm with
               | Some ts => matches ts (m_ETag m)
               | None => match ims with Some t => TruncateSecond (m_Modified m) <=? TruncateSecond t | None => false end
               end in
  if fails then (StatusPreconditionFailed, false) else if fresh then (StatusNotModified, false) else (StatusOK, true).

Lemma quoted_inj a b : quoted a = quoted b -> a = b.
Proof.
  unfold quoted. intros [= H]. apply to_bytes_inj. apply (f_equal to_bytes) in H. rewrite !to_bytes_app in H.
  by apply app_inv_tail in H.
Qed.

Lemma tag_text_graphic t : tag_ok t -> all_bytes graphic (tag_text t) = true /\ has_byte "," (tag_text t) = false.
Proof.
  destruct t as [|t|t]; [done|..]; intros [Hg Hc]; unfold tag_text, quoted; cbn [all_bytes has_byte String.append];
    by rewrite all_bytes_app, has_byte_app, Hg, Hc.
Qed.

Lemma Join_comma_space x l : Text.Join (x :: l) ", " = Text.Join (x :: map (fun y => " " +:+ y) l) ",".
Proof.
  revert x. induction l as [|y l IH]; intros x; [done|]. cbn [map]. rewrite !Join_cons, IH. f_equal.
  change ("," +:+ ?s) with (String "," s). change (", " +:+ ?s) with (String "," (" " +:+ s)). f_equal.
  by destruct (map _ l).
Qed.

(** Which of the texts match. *)
Lemma tag_text_matches u t : (String.eqb (tag_text u) "*" || String.eqb (tag_text u) (quoted t)) = matches [u] t.
Proof.
  unfold matches. cbn [existsb]. rewrite orb_false_r. destruct u as [|u|u]; [done| |done].
  destruct (String.eqb_spec (tag_text (Strong u)) "*") as [E|_]; [by destruct u|]. cbn [orb tag_text].
  destruct (String.eqb_spec (quoted u) (quoted t)) as [->%quoted_inj|Hn]; [by rewrite String.eqb_refl|].
  symmetry. apply String.eqb_neq. congruence.
Qed.

Lemma matches_cons u ts t : matches (u :: ts) t = matches [u] t || matches ts t.
Proof. unfold matches. cbn [existsb]. by rewrite orb_false_r. Qed.

(** The list comes apart into the tags again. *)
Lemma matchesTag_text ts t : ts <> [] -> Forall tag_ok ts -> matchesTag (tags_text ts) (quoted t) = matches ts t.
Proof.
  intros Hne Hok. unfold matchesTag, tags_text. destruct ts as [|u ts]; [done|]. cbn [map]. rewrite Join_comma_space.
  inversion Hok as [|?? Hu Hts]; subst. rewrite splitc_Join; [|done|].
  2: { constructor; [by apply tag_text_graphic|]. apply Forall_map, Forall_map. eapply Forall_impl; [exact Hts|].
       intros v Hv. cbn. by apply tag_text_graphic. }
  assert (Hone : forall v pre, tag_ok v -> pre = "" \/ pre = " " -> TrimSpace (pre +:+ tag_text v) = tag_text v).
  { intros v pre Hv Hp. apply tag_text_graphic in Hv as [Hg _].
    destruct Hp as [-> | ->]; [by apply TrimSpace_graphic | by apply TrimSpace_space]. }
  cbn [existsb]. cbv zeta. pose proof (Hone u "" Hu (or_introl eq_refl)) as H0. change ("" +:+ tag_text u) with (tag_text u) in H0.
  rewrite H0, tag_text_matches, (matches_cons u ts). f_equal.
  clear -Hone Hts. induction ts as [|v ts IH]; [done|]. inversion Hts; subst. cbn [map existsb].
  rewrite IH, (Hone v " "), tag_text_matches, (matches_cons v ts) by auto. done.
Qed.

Lemma tags_text_ne ts : ts <> [] -> String.eqb (tags_text ts) "" = false.
Proof. intros Hne. destruct ts as [|t [|u ts]]; [done| |]; by destruct t. Qed.

Lemma httpDate_text local text t : date_in local text t -> httpDate local text = option_map TruncateSecond t.
Proof.
  destruct t as [t|]; unfold httpDate; cbn [date_in option_map].
  - intros [-> Ht]. pose proof (Parse_Format_http local t Ht) as Hp.
    destruct (String.eqb_spec (Format TimeFormat t) "") as [E|]; [by rewrite E in Hp | done].
  - intros [->|H]; [done|]. by destruct (String.eqb _ _).
Qed.

(** C38: the conditions of a request are evaluated in the order of RFC 9110. Let each of the two
    tag headers be absent or a list of [*], strong tags and weak tags without spaces and
    commas, and each of the two date headers a date in the format clients are to write or
    text that is no date. [If-Match] wins over [If-Unmodified-Since] and [If-None-Match]
    over [If-Modified-Since], the first pair is judged first and refuses, the second says
    the client's copy is still good, text that is no date counts as absent, and dates count
    in whole seconds. Both lists are compared strongly: [*] matches anything and a weak tag
    nothing, where the RFC would have weak tags match in [If-None-Match]. *)
Theorem precondition_evaluates (local : string -> Z -> option Z) (h : Values) (m : Manifest)
    (im inm : option (list entity_tag)) (ius ims : option Z) :
  conditions_in local h im inm ius ims -> precondition local h m = rfc_condition im inm ius ims m.
Proof.
  intros (Him & Hinm & Hu%httpDate_text & Hs%httpDate_text). unfold precondition, rfc_condition. rewrite Hu, Hs.
  fold (modified m). unfold etag.
  destruct im as [ts|], inm as [us|]; cbn [tags_in] in *; destruct_and?; subst;
    repeat match goal with H : header_Get _ _ = _ |- _ => rewrite H; clear H end;
    rewrite ?tags_text_ne, ?matchesTag_text by done; cbn [negb String.eqb];
    destruct ius, ims; cbn [option_map]; rewrite ?Z.leb_antisym; done.
Qed.

(** ** The claims at concrete inputs *)

Lemma parseRange_selects_witness : takeZ 2 (dropZ 1 (to_bytes "kavo")) = to_bytes "av".
Proof. exact (proj1 (parseRange_selects (FromTo 1 2) (to_bytes "kavo") ltac:(done) ltac:(done))). Defined.

Lemma parseRange_bounds_witness : exists first last, "bytes=1-9223372036854775807" = "bytes=" +:+ first +:+ "-" +:+ last.
Proof.
  destruct (parseRange_bounds "bytes=1-9223372036854775807" 5 1 (2 ^ 63 - 1) ltac:(done) ltac:(vm_compute; reflexivity))
    as [(_ & _ & H)|(f & l & H & _)]; [exfalso; lia | by exists f, l].
Defined.

Lemma parseCopyRange_exact_witness : parseCopyRange "bytes=1-3" 5 = Ok (1, 3).
Proof. exact (proj2 (parseCopyRange_exact 5 ltac:(done)) 1 3 ltac:(done) ltac:(done)). Defined.

Definition demo_manifest : Manifest :=
  mk_Manifest 4 "abc" "text/plain" (1369353600 * 10 ^ 9) ∅ ["n1"] [] zeroScheme None None None [].

Definition demo_tags : list entity_tag := [Weak "x"; Strong "abc"].
Definition demo_conditions : Values :=
  header_Set (header_Set (header_Set ∅ "If-None-Match" (tags_text demo_tags)) "If-Unmodified-Since"
    (Format TimeFormat (1369353600 * 10 ^ 9))) "If-Modified-Since" "yesterday".

(** A client that has the object, and the date it was last changed at. *)
Lemma precondition_evaluates_witness : precondition (fun _ _ => None) demo_conditions demo_manifest = (StatusNotModified, false).
Proof.
  apply (precondition_evaluates (fun _ _ => None) demo_conditions demo_manifest
    None (Some demo_tags) (Some (1369353600 * 10 ^ 9)) None).
  split; [reflexivity|]. split; [split; [reflexivity | split; [discriminate | repeat constructor]]|].
  split; [split; [reflexivity | vm_compute; split; [discriminate | reflexivity]]|]. right. vm_compute. reflexivity.
Defined.
