(* ===== verification/Reply.v ===== *)
(** * Answers: documents and responses of [internal/s3]

    A response is a status, the headers and a body. The XML documents are values of the
    types the code marshals; [encoding/xml] is a parameter ([ev_marshal],
    [ev_complete], [ev_delete]) that turns them into text and back. *)

From S2P Require Import Prelude GoStr Strconv Path Hash Text Time Crc Ec Object Sigv4 Chunked Store Etcd Meta Node Cluster Multipart Listing S3.

(** ** Documents *)

Record errorResponse := mk_errorResponse { er_Code : string; er_Message : string; er_Resource : string }.

Record initiateResult := mk_initiateResult {
  ir_Bucket : string; ir_Key : string; ir_UploadID : string; ir_ChecksumAlgorithm : string; ir_ChecksumType : string
}.

Record completeResult := mk_completeResult {
  cr_Location : string; cr_Bucket : string; cr_Key : string; cr_ETag : string;
  cr_CRC32C : string; cr_CRC32 : string; cr_CRC64NVME : string;
  cr_ChecksumAlgorithm : string; cr_ChecksumType : string
}.

Record partEntry := mk_partEntry { pe_Number : Z; pe_Modified : string; pe_ETag : string; pe_Size : Z }.

Record listPartsResult := mk_listPartsResult {
  lpr_Bucket : string; lpr_Key : string; lpr_UploadID : string; lpr_Marker : Z; lpr_Next : Z; lpr_Max : Z;
  lpr_IsTruncated : bool; lpr_Parts : list partEntry
}.

Record uploadEntry := mk_uploadEntry { ue_Key : string; ue_UploadID : string; ue_Initiated : string }.

Record listUploadsResult := mk_listUploadsResult {
  lur_Bucket : string; lur_Prefix : string; lur_KeyMarker : string; lur_UploadIDMarker : string;
  lur_NextKeyMarker : string; lur_NextUploadIDMarker : string; lur_Max : Z; lur_IsTruncated : bool;
  lur_Uploads : list uploadEntry
}.

Record copyPartResult := mk_copyPartResult {
  cpr_ETag : string; cpr_LastModified : string; cpr_CRC32C : string; cpr_CRC32 : string; cpr_CRC64NVME : string
}.

Record copyResult := mk_copyResult { cor_ETag : string; cor_LastModified : string }.

Record bucketOwner := mk_bucketOwner { bo_ID : string; bo_DisplayName : string }.

Record listEntry := mk_listEntry {
  le_Key : string; le_LastModified : string; le_ETag : string; le_Size : Z; le_StorageClass : string;
  le_Owner : option bucketOwner
}.

Record listResult := mk_listResult {
  lo_Name : string; lo_Prefix : string; lo_Delimiter : string; lo_MaxKeys : Z; lo_KeyCount : Z; lo_IsTruncated : bool;
  lo_ContinuationToken : option string; lo_NextContinuationToken : string; lo_StartAfter : string; lo_EncodingType : string;
  lo_Contents : list listEntry; lo_CommonPrefixes : list string
}.

Record versionEntry := mk_versionEntry {
  ve_Key : string; ve_VersionID : string; ve_IsLatest : bool; ve_LastModified : string; ve_ETag : string; ve_Size : Z;
  ve_StorageClass : string
}.

Record listVersionsResult := mk_listVersionsResult {
  lv_Name : string; lv_Prefix : string; lv_KeyMarker : string; lv_VersionIDMarker : string; lv_NextKeyMarker : string;
  lv_NextVersionIDMarker : string; lv_Delimiter : string; lv_MaxKeys : Z; lv_IsTruncated : bool; lv_EncodingType : string;
  lv_Versions : list versionEntry; lv_CommonPrefixes : list string
}.

Record bucketEntry := mk_bucketEntry { be_Name : string; be_CreationDate : string }.

Record listAllBucketsResult := mk_listAllBucketsResult { lab_Owner : bucketOwner; lab_Buckets : list bucketEntry }.

Record deleteError := mk_deleteError { de_Key : string; de_Code : string; de_Message : string }.

Record deleteResult := mk_deleteResult { dr_Deleted : list string; dr_Errors : list deleteError }.

Inductive Doc :=
  | DError (d : errorResponse) | DInitiate (d : initiateResult) | DComplete (d : completeResult)
  | DListParts (d : listPartsResult) | DListUploads (d : listUploadsResult) | DCopyPart (d : copyPartResult)
  | DCopy (d : copyResult) | DTagging | DList (d : listResult) | DVersions (d : listVersionsResult)
  | DBuckets (d : listAllBucketsResult) | DDelete (d : deleteResult) | DLocation.

(** ** Responses *)

Inductive body := NoBody | XML (d : Doc) | PlainText (s : string) | Stream (b : bytes).

Record Response := mk_Response { rs_Status : Z; rs_Header : Values; rs_Body : body }.

(** A handler answers or panics, or the router sends the client elsewhere. [Unfinished] is
    a loop that had not ended when its fuel did. *)
Inductive reply := Answered (r : Response) | Panicked | Redirected (path : string) | Unfinished.

(** What a handler takes from outside the request and the cluster: the one key pair, this
    machine's zone, [encoding/xml], how the body is read, what [rand.Text] returns,
    how much the client takes of a response before it is gone, and the fuel of the one
    loop that pages through everything. *)
Record Env := mk_Env {
  ev_creds : Credentials;
  ev_local : string -> Z -> option Z;
  ev_marshal : Doc -> option string;
  ev_complete : bytes -> option (list CompletedPart);
  ev_delete : bytes -> option (bool * list string);
  ev_reads : nat -> Z * choice;
  ev_rnd : string;
  ev_room : option nat;
  ev_fuel : nat
}.

(** The length of [xml.Header]. *)
Definition xml_header_len : Z := 39.

(** [r.URL.Path] *)
Definition url_Path (r : Request) : string := default (rq_EscapedPath r) (PathUnescape (rq_EscapedPath r)).

Definition is_head (r : Request) : bool := String.eqb (rq_Method r) "HEAD".

(** [fail], with the headers set so far. *)
Definition fail (ev : Env) (r : Request) (h : Values) (e : apiError) : reply :=
  let doc := DError (mk_errorResponse (ae_code e) (ae_message e) (url_Path r)) in
  match ev_marshal ev doc with
  | None => Answered (mk_Response (ae_status e)
      (header_Set (header_Set (delete "Content-Length" h) "Content-Type" "text/plain; charset=utf-8") "X-Content-Type-Options" "nosniff")
      (PlainText (ae_code e +:+ newline)))
  | Some text =>
      let h := header_Set h "Content-Type" "application/xml" in
      let h := header_Set h "Content-Length" (Itoa (Z.of_nat (slen text) + xml_header_len)) in
      Answered (mk_Response (ae_status e) h (if is_head r then NoBody else XML doc))
  end.

(** [writeXML] *)
Definition writeXML (ev : Env) (r : Request) (h : Values) (doc : Doc) : reply :=
  match ev_marshal ev doc with
  | None => fail ev r h errInternal
  | Some text =>
      let h := header_Set h "Content-Type" "application/xml" in
      let h := header_Set h "Content-Length" (Itoa (Z.of_nat (slen text) + xml_header_len)) in
      Answered (mk_Response StatusOK h (XML doc))
  end.

(** [io.ReadAll(io.LimitReader(body, n))] *)
Definition readAllLimited (b : reader) (n : Z) : res bytes :=
  if zlen (rd_data b) <? n then match rd_end b with None => Ok (rd_data b) | Some e => Err e end
  else Ok (takeZ n (rd_data b)).

Definition sum_text (encode : Z -> string) (show : bool) (sum : option Z) : string :=
  match sum with Some s => if show then encode s else "" | None => "" end.

(** Set a checksum header when there is a checksum to report and the request asked. *)
Definition set_sum (h : Values) (name : string) (encode : Z -> string) (show : bool) (sum : option Z) : Values :=
  match sum with Some s => if show then header_Set h name (encode s) else h | None => h end.

Definition is_some {A} (o : option A) : bool := match o with Some _ => true | None => false end.

(** The three checksums a request declares in its headers, or none of them when one
    cannot be read. *)
Record declared_sums := mk_sums { ds_crc32c : option Z; ds_crc32 : option Z; ds_crc64nvme : option Z }.

Definition declaredSums (h : Values) : res declared_sums :=
  c ← declaredCRC32C h; i ← declaredCRC32 h; n ← declaredCRC64NVME h; Ok (mk_sums c i n).

(** The checksum headers a write answers with. *)
Definition answer_sums (h req : Values) (d : declared_sums) (m : Manifest) : Values :=
  let h := set_sum h "X-Amz-Checksum-Crc32c" encodeCRC32C (is_some (ds_crc32c d) || requestedCRC32C req) (m_CRC32C m) in
  let h := set_sum h "X-Amz-Checksum-Crc32" encodeCRC32 (is_some (ds_crc32 d) || requestedCRC32 req) (m_CRC32 m) in
  set_sum h "X-Amz-Checksum-Crc64nvme" encodeCRC64NVME (is_some (ds_crc64nvme d) || requestedCRC64NVME req) (m_CRC64NVME m).

(** ** What was answered *)

Lemma writeXML_Answered ev r h doc st hd d : writeXML ev r h doc = Answered (mk_Response st hd (XML d)) ->
  (exists e, d = DError e) \/ d = doc.
Proof.
  unfold writeXML, fail. destruct (ev_marshal ev doc); [intros [= <- <- <-]; by right|].
  destruct (ev_marshal ev _); [|done]. destruct (is_head r); [done|]. intros [= <- <- <-]. left. eauto.
Qed.

Lemma fail_Answered ev r h e st hd d : fail ev r h e = Answered (mk_Response st hd (XML d)) -> exists x, d = DError x.
Proof. unfold fail. destruct (ev_marshal ev _); [|done]. destruct (is_head r); [done|]. intros [= <- <- <-]. eauto. Qed.

(** ** Well-formed answers *)

Definition maxPartsLimit : Z := 1000.

(** An error's status, and the statuses of success. *)
Definition error_status (s : Z) : bool := (400 <=? s) && (s <=? 599).
Definition success_status (s : Z) : bool :=
  (s =? StatusOK) || (s =? StatusNoContent) || (s =? StatusPartialContent) || (s =? StatusNotModified).

(** Error documents and text come with an error's status, any other document with 200, an
    object's bytes with 200 or 206 and never to HEAD, and 204 and 304 have no body. *)
Definition response_ok (r : Request) (p : Response) : bool :=
  (error_status (rs_Status p) || success_status (rs_Status p)) &&
  match rs_Body p with
  | NoBody => true
  | XML (DError _) | PlainText _ => error_status (rs_Status p)
  | XML _ => rs_Status p =? StatusOK
  | Stream _ => ((rs_Status p =? StatusOK) || (rs_Status p =? StatusPartialContent)) && negb (is_head r)
  end.

(** A request for the parts of an upload in pages of none. *)
Definition lists_no_parts (r : Request) : bool :=
  negb (String.eqb (query_Get (rq_Query r) "uploadId") "") && (boundedInt (query_Get (rq_Query r) "max-parts") maxPartsLimit =? 0).

(** What a handler may do: answer in good form, or panic on such a request. *)
Definition reply_ok (r : Request) (p : reply) : bool :=
  match p with Answered p => response_ok r p | Panicked => lists_no_parts r | Redirected _ | Unfinished => false end.

(** An answer that refuses. *)
Definition refuses (p : reply) : bool :=
  match p with Answered p => error_status (rs_Status p) | Redirected _ => true | _ => false end.

Definition not_error (d : Doc) : bool := match d with DError _ => false | _ => true end.

Lemma fail_refuses ev r h e : error_status (ae_status e) = true -> refuses (fail ev r h e) = true.
Proof. intros He. unfold fail. by destruct (ev_marshal _ _). Qed.

Lemma fail_ok ev r h e : error_status (ae_status e) = true -> reply_ok r (fail ev r h e) = true.
Proof.
  intros He. unfold fail. destruct (ev_marshal _ _); unfold reply_ok, response_ok; cbn [rs_Status rs_Body]; rewrite He;
    by destruct (is_head r).
Qed.

Lemma writeXML_ok ev r h d : not_error d = true -> reply_ok r (writeXML ev r h d) = true.
Proof. intros Hd. unfold writeXML. destruct (ev_marshal _ _); [by destruct d | by apply fail_ok]. Qed.

Lemma authError_status e : error_status (ae_status (authError e)) = true.
Proof. unfold authError. by repeat case_match. Qed.

Lemma storeError_status e : error_status (ae_status (storeError e)) = true.
Proof. unfold storeError. by repeat case_match. Qed.

Lemma uploadError_status e : error_status (ae_status (uploadError e)) = true.
Proof. unfold uploadError. repeat case_match; try done. apply storeError_status. Qed.

Create HintDb s3.
#[export] Hint Resolve fail_ok writeXML_ok fail_refuses authError_status storeError_status uploadError_status : s3.
