(* ===== verification/S3Upload.v ===== *)
(** * Multipart uploads over S3: [internal/s3/upload.go]

    The handlers of a multipart upload, on top of the coordinator's operations. *)

From S2P Require Import Prelude GoStr Strconv Path Hash Text Time Crc Ring Ec Object Sigv4 Chunked Store Etcd Meta Node Cluster Multipart Listing S3 Reply.

Definition maxCompleteRequest : Z := Z.shiftl 4 20.
Definition maxUploadsLimit : Z := 1000.

Definition errPartNotInteger := mk_apiError "InvalidArgument" StatusBadRequest "partNumber must be an integer.".

(** The loop of [listParts] over the parts in order: the entries, whether there are
    more, and where the next page starts. It panics where it looks for the last entry of
    an empty page. *)
Fixpoint list_parts (marker max : Z) (parts : list ClusterPart) (acc : list partEntry)
    : option (list partEntry * bool * Z) :=
  match parts with
  | [] => Some (acc, false, 0)
  | p :: parts' =>
      if pt_Number p <=? marker then list_parts marker max parts' acc
      else if zlen acc =? max then
        match last acc with Some e => Some (acc, true, pe_Number e) | None => None end
      else list_parts marker max parts'
             (acc ++ [mk_partEntry (pt_Number p) (Format RFC3339 (pt_Modified p)) (quoted (pt_ETag p)) (pt_Size p)])
  end.

Section upload.
Context {E : Type} `{!Etcd doc E} {rs : ReedSolomon} (prefix : string) (c : Coordinator) (ev : Env).
Abbreviation World := (world E).

Definition createUpload (r : Request) (key : string) (w : World) : reply * World :=
  match storedMeta (rq_Header r) with
  | Err _ => (fail ev r ∅ errMetadataTooLarge, w)
  | Ok stored =>
      match ClusterCreateUpload prefix key (header_Get (rq_Header r) "Content-Type") stored (ev_rnd ev) w with
      | (Err e, w1) => (fail ev r ∅ (storeError e), w1)
      | (Ok id, w1) =>
          let algo := canonicalChecksumAlgo (rq_Header r) in
          let type := if String.eqb algo "" then "" else "FULL_OBJECT" in
          let h := if String.eqb algo "" then ∅
                   else header_Set (header_Set ∅ "x-amz-checksum-algorithm" algo) "x-amz-checksum-type" "FULL_OBJECT" in
          (writeXML ev r h (DInitiate (mk_initiateResult (rq_bucket r) (rq_key r) id algo type)), w1)
      end
  end.

Definition listParts (r : Request) (key id : string) (w : World) : reply * World :=
  let q := rq_Query r in
  let max := boundedInt (query_Get q "max-parts") maxPartsLimit in
  let marker := boundedInt (query_Get q "part-number-marker") 0 in
  match ClusterParts prefix id w with
  | (Err e, w1) => (fail ev r ∅ (uploadError e), w1)
  | (Ok parts, w1) =>
      match list_parts marker max parts [] with
      | None => (Panicked, w1)
      | Some (entries, truncated, next) =>
          (writeXML ev r ∅ (DListParts (mk_listPartsResult (rq_bucket r) key id marker next max truncated entries)), w1)
      end
  end.

Definition listUploads (r : Request) (w : World) : reply * World :=
  let bucket := rq_bucket r in
  let q := rq_Query r in
  let max := boundedInt (query_Get q "max-uploads") maxUploadsLimit in
  let after := query_Get q "upload-id-marker" in
  let pre := if String.eqb (query_Get q "prefix") "" then bucket +:+ "/" else path_Join [bucket; query_Get q "prefix"] in
  match ClusterUploads prefix pre after max w with
  | (Err e, w1) => (fail ev r ∅ (storeError e), w1)
  | (Ok (uploads, more), w1) =>
      let entries := map (fun u => mk_uploadEntry (TrimPrefix (u_Key (ur_Upload u)) (bucket +:+ "/")) (ur_ID u)
                                     (Format RFC3339 (u_Created (ur_Upload u)))) uploads in
      let '(nk, ni) := match last entries with
                       | Some e => if (more : bool) then (ue_Key e, ue_UploadID e) else ("", "")
                       | None => ("", "")
                       end in
      (writeXML ev r ∅ (DListUploads (mk_listUploadsResult bucket (query_Get q "prefix") (query_Get q "key-marker") after
                                        nk ni max more entries)), w1)
  end.

Definition copyPart (r : Request) (id : string) (number : Z) (source : string) (w : World) : reply * World :=
  match copySource source with
  | None => (fail ev r ∅ errInvalidCopySource, w)
  | Some from =>
      match Resolve prefix from w with
      | (Err e, w1) => (fail ev r ∅ (storeError e), w1)
      | (Ok src, w1) =>
          let conditions := copyConditions (rq_Header r) in
          if negb (bool_decide (conditions = ∅)) && negb (precondition (ev_local ev) conditions src).2
          then (fail ev r ∅ errPreconditionFailed, w1)
          else match parseCopyRange (header_Get (rq_Header r) "X-Amz-Copy-Source-Range") (m_Size src) with
          | Err e => (fail ev r ∅ (if errors_Is e errRangeSyntax then errMalformedRange else errInvalidRange), w1)
          | Ok (off, length_) =>
              match declaredSums (rq_Header r) with
              | Err _ => (fail ev r ∅ errMalformedChecksum, w1)
              | Ok d =>
                  match CopyPart prefix c id number src off length_
                          (mk_PutOptions "" "" 0 ∅ "" (ds_crc32c d) None (ds_crc32 d) None (ds_crc64nvme d) None) (ev_rnd ev) w1 with
                  | (Err e, w2) => (fail ev r ∅ (uploadError e), w2)
                  | (Ok m, w2) =>
                      let h := rq_Header r in
                      (writeXML ev r ∅ (DCopyPart (mk_copyPartResult (etag m) (Format RFC3339 (w_now w2))
                         (sum_text encodeCRC32C (is_some (ds_crc32c d) || requestedCRC32C h) (m_CRC32C m))
                         (sum_text encodeCRC32 (is_some (ds_crc32 d) || requestedCRC32 h) (m_CRC32 m))
                         (sum_text encodeCRC64NVME (is_some (ds_crc64nvme d) || requestedCRC64NVME h) (m_CRC64NVME m)))), w2)
                  end
              end
          end
      end
  end.

Definition uploadPart (r : Request) (id : string) (w : World) : reply * World :=
  match Atoi (query_Get (rq_Query r) "partNumber") with
  | None => (fail ev r ∅ errPartNotInteger, w)
  | Some number =>
      let source := header_Get (rq_Header r) "X-Amz-Copy-Source" in
      if negb (String.eqb source "") then copyPart r id number source w
      else if (rq_ContentLength r <? 0) && negb (httpChunked r) then (fail ev r ∅ errMissingLength, w)
      else match declaredSums (rq_Header r) with
      | Err _ => (fail ev r ∅ errMalformedChecksum, w)
      | Ok d =>
          let opts := attachTrailingChecksums
                        (mk_PutOptions "" "" (rq_ContentLength r) ∅ "" (ds_crc32c d) None (ds_crc32 d) None (ds_crc64nvme d) None) r in
          match UploadPart prefix c id number (rq_Body r) opts (ev_rnd ev) w with
          | (Err e, w1) => (fail ev r ∅ (uploadError e), w1)
          | (Ok m, w1) =>
              (Answered (mk_Response StatusOK (answer_sums (header_Set ∅ "ETag" (etag m)) (rq_Header r) d m) NoBody), w1)
          end
      end
  end.

(** The document a completion answers with; the last of the checksums it reports names
    the algorithm. *)
Definition complete_doc (r : Request) (key : string) (d : declared_sums) (m : Manifest) : completeResult :=
  let h := rq_Header r in
  let c := sum_text encodeCRC32C (is_some (ds_crc32c d) || requestedCRC32C h) (m_CRC32C m) in
  let i := sum_text encodeCRC32 (is_some (ds_crc32 d) || requestedCRC32 h) (m_CRC32 m) in
  let n := sum_text encodeCRC64NVME (is_some (ds_crc64nvme d) || requestedCRC64NVME h) (m_CRC64NVME m) in
  let algo := if negb (String.eqb n "") then "CRC64NVME" else if negb (String.eqb i "") then "CRC32"
              else if negb (String.eqb c "") then "CRC32C" else "" in
  mk_completeResult ("/" +:+ key) (rq_bucket r) (rq_key r) (etag m) c i n algo (if String.eqb algo "" then "" else "FULL_OBJECT").

Definition completeUpload (r : Request) (key id : string) (w : World) : reply * World :=
  match readAllLimited (rq_Body r) maxCompleteRequest with
  | Err _ => (fail ev r ∅ errMalformedXML, w)
  | Ok text =>
      match ev_complete ev text with
      | None => (fail ev r ∅ errMalformedXML, w)
      | Some parts =>
          match declaredSums (rq_Header r) with
          | Err _ => (fail ev r ∅ errMalformedChecksum, w)
          | Ok d =>
              match CompleteUpload prefix id parts (ds_crc32c d) (ds_crc64nvme d) (ds_crc32 d) w with
              | (Err e, w1) => (fail ev r ∅ (uploadError e), w1)
              | (Ok m, w1) => (writeXML ev r ∅ (DComplete (complete_doc r key d m)), w1)
              end
          end
      end
  end.

Definition abortUpload (r : Request) (id : string) (w : World) : reply * World :=
  match AbortUpload prefix id w with
  | (Err e, w1) => (fail ev r ∅ (uploadError e), w1)
  | (Ok _, w1) => (Answered (mk_Response StatusNoContent ∅ NoBody), w1)
  end.
End upload.

(** ** Pages of parts *)

Definition part_doc (p : ClusterPart) : partEntry :=
  mk_partEntry (pt_Number p) (Format RFC3339 (pt_Modified p)) (quoted (pt_ETag p)) (pt_Size p).

Abbreviation ascending := (StronglySorted (fun a b => pt_Number a < pt_Number b)).

Lemma insert_part_In p l q : q ∈ insert_part p l <-> q = p \/ q ∈ l.
Proof.
  induction l as [|x l IH]; cbn [insert_part]; [set_solver|]. destruct (_ <=? _); set_solver.
Qed.

Lemma insert_part_ascending p l : ascending l -> Forall (fun q => pt_Number q <> pt_Number p) l -> ascending (insert_part p l).
Proof.
  induction 1 as [|q l Hl IH Hq]; cbn [insert_part]; [by repeat constructor|]. intros [Hn Hr]%Forall_cons.
  destruct (Z.leb_spec (pt_Number p) (pt_Number q)).
  - constructor; [by constructor|]. constructor; [lia|]. eapply Forall_impl; [exact Hq|]. simpl. lia.
  - constructor; [by apply IH|]. apply Forall_forall. intros x [-> |Hx]%insert_part_In; [lia|].
    rewrite Forall_forall in Hq. by apply Hq.
Qed.

(** The parts of an upload come in ascending order, each number once. *)
Lemma ClusterParts_ascending {E : Type} `{!Etcd doc E} prefix id (w w' : world E) parts :
  ClusterParts prefix id w = (Ok parts, w') -> ascending parts.
Proof.
  unfold ClusterParts. destruct (on_meta _ w) as [[u|e] w1]; [|done]. destruct (on_meta _ w1) as [[stored|e] w2]; [|done].
  intros [= <- _]. pose proof (NoDup_fst_map_to_list stored) as Hnd. revert Hnd. generalize (map_to_list stored).
  assert (Hin : forall l x, x ∈ foldr (fun p l => insert_part (mk_ClusterPart p.1 (m_ETag p.2) (m_Size p.2) (m_Modified p.2)) l) [] l ->
    pt_Number x ∈ l.*1).
  { induction l as [|[n m] l IH]; intros x; [by intros ?%elem_of_nil|]. cbn [foldr fst snd]. intros [-> |Hx]%insert_part_In.
    - left.
    - right. by apply IH. }
  induction l as [|[n m] l IH]; intros Hnd; [constructor|]. inversion Hnd as [|?? Hn Hl]; subst. cbn [foldr fst snd].
  apply insert_part_ascending; [by apply IH|]. apply Forall_forall. intros x Hx Heq. apply Hin in Hx.
  cbn in Heq. rewrite Heq in Hx. by apply Hn.
Qed.

(** The parts past a marker. *)
Definition past (marker : Z) (parts : list ClusterPart) : list ClusterPart := filter (fun p => marker < pt_Number p) parts.

Lemma list_parts_spec marker max parts acc : 0 < max -> zlen acc <= max ->
  (acc = [] \/ exists p, last acc = Some (part_doc p)) ->
  list_parts marker max parts acc =
  let shown := acc ++ map part_doc (takeZ (max - zlen acc) (past marker parts)) in
  let more := max - zlen acc <? zlen (past marker parts) in
  Some (shown, more, if more then match last shown with Some e => pe_Number e | None => 0 end else 0).
Proof.
  intros Hmax. revert acc. unfold past. induction parts as [|p parts IH]; intros acc Hacc Hlast.
  - cbn [list_parts]. rewrite filter_nil. unfold takeZ. rewrite take_nil. cbn [map]. rewrite app_nil_r.
    change (zlen (@nil ClusterPart)) with 0. rewrite (proj2 (Z.ltb_ge (max - zlen acc) 0)) by lia. done.
  - cbn [list_parts]. rewrite filter_cons. destruct (Z.leb_spec (pt_Number p) marker); [rewrite decide_False by lia; by apply IH|].
    rewrite decide_True by done. rewrite zlen_cons. pose proof (zlen_nonneg (filter (fun p => marker < pt_Number p) parts)).
    destruct (Z.eqb_spec (zlen acc) max) as [Hfull|Hroom].
    + rewrite Hfull, Z.sub_diag, takeZ_0, app_nil_r, (proj2 (Z.ltb_lt _ _)) by lia. cbv zeta.
      destruct Hlast as [-> | [q ->]]; [rewrite zlen_nil in Hfull; lia | done].
    + rewrite IH; [|rewrite zlen_app, zlen_cons, zlen_nil; lia|right; exists p; by rewrite last_snoc].
      assert (Hz : zlen (acc ++ [part_doc p]) = zlen acc + 1) by (rewrite zlen_app, zlen_cons, zlen_nil; lia).
      fold (part_doc p). rewrite Hz. cbv zeta.
      assert (Ht : takeZ (max - zlen acc) (p :: filter (fun p => marker < pt_Number p) parts) =
                   p :: takeZ (max - (zlen acc + 1)) (filter (fun p => marker < pt_Number p) parts)).
      { unfold takeZ. replace (Z.to_nat (max - zlen acc)) with (S (Z.to_nat (max - (zlen acc + 1)))) by lia. done. }
      rewrite Ht. cbn [map]. rewrite <- app_assoc. cbn [app].
      replace (max - (zlen acc + 1) <? zlen (filter (fun p => marker < pt_Number p) parts))
        with (max - zlen acc <? 1 + zlen (filter (fun p => marker < pt_Number p) parts)); [done|].
      apply eq_iff_eq_true. rewrite !Z.ltb_lt. lia.
Qed.

Lemma past_ascending marker parts : ascending parts -> ascending (past marker parts).
Proof.
  induction 1 as [|p l Hl IH Hp]; [constructor|]. unfold past. rewrite filter_cons. case_decide; [|done].
  constructor; [done | by apply Forall_filter_keep].
Qed.

(** Past the last part that was shown come exactly the parts that were not. *)
Lemma past_last marker max parts p : ascending parts -> last (takeZ max (past marker parts)) = Some p ->
  past (pt_Number p) parts = dropZ max (past marker parts).
Proof.
  intros Hs Hl. pose proof (past_ascending marker parts Hs) as Hp.
  apply last_Some in Hl as [front Hl]. pose proof (takeZ_dropZ max (past marker parts)) as Hsplit. rewrite Hl in Hsplit.
  assert (Hm : marker < pt_Number p).
  { assert (p ∈ past marker parts) as Hin by (rewrite <- Hsplit; set_solver). by apply list_elem_of_filter in Hin as [? _]. }
  assert (Hpast : past (pt_Number p) parts = past (pt_Number p) (past marker parts)).
  { unfold past. rewrite list_filter_filter. apply list_filter_iff. intros x. lia. }
  rewrite Hpast. clear Hpast Hl. revert Hp Hsplit. generalize (past marker parts) (dropZ max (past marker parts)).
  intros L D Hp <-. unfold past. rewrite filter_app.
  apply StronglySorted_app in Hp as (Hlt & Hf & _).
  rewrite filter_none.
  2: { apply Forall_app. apply StronglySorted_app in Hf as (Hf & _ & _). split; [|repeat constructor; lia].
       apply Forall_forall. intros x Hx. specialize (Hf x p Hx ltac:(set_solver)). lia. }
  rewrite filter_all; [done|]. apply Forall_forall. intros x Hx. apply Hlt; set_solver.
Qed.

Lemma list_parts_zero marker parts : past marker parts <> [] -> list_parts marker 0 parts [] = None.
Proof.
  unfold past. induction parts as [|p ps IH]; [done|]. rewrite filter_cons. cbn [list_parts].
  destruct (Z.leb_spec (pt_Number p) marker); [rewrite decide_False by lia; auto | done].
Qed.

Section pages.
Context {E : Type} `{!Etcd doc E} {rs : ReedSolomon} (prefix : string) (ev : Env).
Abbreviation World := (world E).

(** The parts of an upload are listed in exact pages. With a positive page size a page is
    the next parts past the marker, in ascending order and each once; it says there are
    more if and only if there are, and the marker it then names leaves exactly the rest.
    With a page size of zero the handler panics as soon as there is a part to list. *)
Theorem listParts_pages (r : Request) (key id : string) (w w' : World) (parts : list ClusterPart) :
  ClusterParts prefix id w = (Ok parts, w') ->
  let max := boundedInt (query_Get (rq_Query r) "max-parts") maxPartsLimit in
  let marker := boundedInt (query_Get (rq_Query r) "part-number-marker") 0 in
  let rest := past marker parts in
  (0 < max -> exists next, (max < zlen rest -> past next parts = dropZ max rest) /\
     listParts prefix ev r key id w =
     (writeXML ev r ∅ (DListParts (mk_listPartsResult (rq_bucket r) key id marker next max (max <? zlen rest)
        (map part_doc (takeZ max rest)))), w')) /\
  (max = 0 -> rest <> [] -> listParts prefix ev r key id w = (Panicked, w')).
Proof.
  intros HP max marker rest. unfold listParts. fold max marker. rewrite HP. split.
  - intros Hmax. rewrite list_parts_spec by (auto || (change (zlen (@nil partEntry)) with 0; lia)). fold rest. cbv zeta.
    change (zlen (@nil partEntry)) with 0. rewrite Z.sub_0_r. cbn [app].
    eexists. split; [|done]. intros Hm. rewrite (proj2 (Z.ltb_lt _ _) Hm), fmap_last.
    destruct (last (takeZ max rest)) as [p|] eqn:Hl.
    + cbn. eapply past_last; [by eapply ClusterParts_ascending | done].
    + apply last_None in Hl. apply (f_equal zlen) in Hl. rewrite zlen_takeZ, zlen_nil in Hl; lia.
  - intros -> Hne. by rewrite list_parts_zero.
Qed.
End pages.

(** ** An upload id that is not one *)

Section escape.
Context {E : Type} `{!Etcd doc E} `{!EtcdLaws doc E} (prefix : string) (ev : Env).

(** The id is joined into a path, and [path.Join] resolves the dots. *)
Lemma uploadPrefix_escapes b : plain_elem b = true -> uploadPrefix prefix ("../objects/" +:+ b) = key prefix (b +:+ "/").
Proof.
  intros Hb. unfold uploadPrefix, key, objects.
  change ("../objects/" +:+ b) with ("../" +:+ ("objects/" +:+ b)). rewrite path_Join_up, (join1 prefix "objects") by done.
  assert (path_Join [prefix; "objects/" +:+ b] = path_Join [prefix; "objects"; b]) as ->.
  { unfold path_Join. rewrite !(filter_cons _ prefix).
    rewrite (filter_all _ ["objects/" +:+ b]), (filter_all _ ["objects"; b])
      by (repeat constructor; try done; by apply plain_elem_spec in Hb as (? & _)).
    by destruct (decide _). }
  rewrite join2 by done. by rewrite <- !sapp_assoc.
Qed.

Lemma uploadError_refuses r e h : fail ev r ∅ (uploadError e) <> Answered (mk_Response StatusNoContent h NoBody).
Proof.
  assert (Hs : ae_status (uploadError e) <> StatusNoContent) by (unfold uploadError, storeError; repeat case_match; done).
  unfold fail. destruct (ev_marshal ev _); congruence.
Qed.

(** C22: aborting an upload can delete a bucket's objects. The upload id of a request is not
    checked: with the id [../objects/b] the record looked up is the object [upload] of the
    bucket [b], any manifest reads as an upload, and what is then deleted is everything
    under the bucket's prefix. When the answer is 204, no object of the bucket is left. *)
Theorem abortUpload_escapes (r : Request) (b : string) (w w' : world E) (h : Values) :
  plain_elem b = true ->
  abortUpload prefix ev r ("../objects/" +:+ b) w = (Answered (mk_Response StatusNoContent h NoBody), w') ->
  is_Some (es_kvs (e_state (w_etcd w)) !! key prefix (b +:+ "/upload")) /\
  forall k, lookup_obj prefix (w_etcd w') (b +:+ "/" +:+ k) = Err [MetaErrNotFound].
Proof.
  intros Hb. unfold abortUpload, AbortUpload, on_meta.
  destruct (GetUpload prefix _ (w_etcd w)) as [[u|e] e1] eqn:Hu; [|by intros [= []%uploadError_refuses _]].
  apply GetUpload_spec in Hu as [Hs Hu]. unfold uploadKey in Hu. rewrite uploadPrefix_escapes in Hu by done.
  cbn [w_etcd set_etcd]. destruct (DeleteUpload _ _ e1) as [[[]|e] e2] eqn:Hd; [|by intros [= []%uploadError_refuses _]].
  intros [= _ <-]. split.
  - assert (Hk : key prefix (b +:+ "/upload") = key prefix (b +:+ "/") +:+ "upload") by (unfold key; by rewrite <- !sapp_assoc).
    rewrite Hk. destruct (es_kvs _ !! _); [eauto | by destruct Hu].
  - intros k. cbn [w_etcd set_etcd]. unfold DeleteUpload in Hd. rewrite uploadPrefix_escapes in Hd by done. meta_cases Hd.
    apply e_write_law in Hc. simpl in Hc. injection Hc as _ Hst. unfold lookup_obj. rewrite Hst. simpl.
    rewrite (proj2 (map_lookup_filter_None _ _ _)); [done|]. right. intros x _. simpl.
    apply not_false_iff_true, e_prefixEnd_law.
    + unfold key. rewrite sapp_assoc. apply small_slash.
    + apply HasPrefix_spec. exists k. unfold key. by rewrite <- !sapp_assoc.
Qed.
End escape.

(** ** At concrete inputs *)

Definition demo_request (method path bucket key : string) (q h : Values) (body : string) : Request :=
  mk_Request method "localhost" path q h (Z.of_nat (slen body)) [] (mk_reader (to_bytes body) None) bucket key ∅.

Definition demo_ev : Env :=
  mk_Env (mk_Credentials "kavo" "kavosecret") (fun _ _ => None) (fun _ => Some "<xml/>") (fun _ => None) (fun _ => None)
    demo_reads "P" None 10.

(** An upload that has one part, listed in pages of none. *)
Lemma listParts_pages_witness : exists w',
  listParts "/kavo" demo_ev (demo_request "GET" "/b/k" "b" "k" {["uploadId" := ["U"]; "max-parts" := ["0"]]} ∅ "") "b/k" "U"
    (demo_part 1 "hello" "P" demo_upload_w).2 = (Panicked, w').
Proof.
  assert (Hb : match (@ClusterParts demoE _ "/kavo" "U" (demo_part 1 "hello" "P" demo_upload_w).2).1 with
               | Ok (p :: _) => pt_Number p =? 1 | _ => false end = true) by (vm_compute; reflexivity).
  destruct (@ClusterParts demoE _ "/kavo" "U" (demo_part 1 "hello" "P" demo_upload_w).2) as [[[|p parts]|e] w'] eqn:H;
    [discriminate Hb| |discriminate Hb].
  exists w'. apply (listParts_pages "/kavo" demo_ev _ "b/k" "U" _ w' (p :: parts) H); [reflexivity|].
  apply Z.eqb_eq in Hb. cbn in Hb. unfold past. rewrite filter_cons, Hb. discriminate.
Defined.

Definition escape_w : world demoE :=
  mk_world ∅ (Commit "/kavo" "b/x" demo_m (Commit "/kavo" "b/upload" demo_m (Commit "/kavo" "c/x" demo_m demo0).2).2).2 [] 0 0.
Definition escape_r : Request := demo_request "DELETE" "/a/k" "a" "k" {["uploadId" := ["../objects/b"]]} ∅ "".

Lemma abortUpload_escapes_witness : exists w',
  abortUpload "/kavo" demo_ev escape_r "../objects/b" escape_w = (Answered (mk_Response StatusNoContent ∅ NoBody), w') /\
  lookup_obj "/kavo" (w_etcd escape_w) "b/x" = Ok demo_m /\
  lookup_obj "/kavo" (w_etcd w') "b/x" = Err [MetaErrNotFound] /\ lookup_obj "/kavo" (w_etcd w') "c/x" = Ok demo_m.
Proof.
  exists (abortUpload "/kavo" demo_ev escape_r "../objects/b" escape_w).2.
  assert (H : abortUpload "/kavo" demo_ev escape_r "../objects/b" escape_w =
    (Answered (mk_Response StatusNoContent ∅ NoBody), (abortUpload "/kavo" demo_ev escape_r "../objects/b" escape_w).2))
    by (vm_compute; reflexivity).
  split; [exact H|]. split; [vm_compute; reflexivity|].
  split; [|vm_compute; reflexivity].
  apply (abortUpload_escapes "/kavo" demo_ev escape_r "b" escape_w _ ∅ eq_refl H).
Defined.
