(* ===== verification/S3Bucket.v ===== *)
(** * Buckets and listings over S3: [internal/s3/bucket.go] and [internal/s3/list.go]

    A bucket is the first component of a key, so every operation on one is a listing. *)

From S2P Require Import Prelude GoStr Strconv Path Hash Text Time Crc Ring Ec Object Sigv4 Chunked Store Etcd Meta Node Cluster Multipart Listing S3 Reply S3Upload.

Definition maxKeysLimit : Z := 1000.
Definition maxDeleteKeys : Z := 1000.
Definition maxDeleteRequest : Z := Z.shiftl 2 20.

Definition errMaxKeys := mk_apiError "InvalidArgument" StatusBadRequest "max-keys must be a non-negative integer.".
Definition errBadToken := mk_apiError "InvalidArgument" StatusBadRequest
  "The continuation token is not one this server issued.".
Definition errUnordered := mk_apiError "InvalidArgument" StatusBadRequest
  "allow-unordered may not be combined with delimiter.".
Definition errTooManyKeys := mk_apiError "MalformedXML" StatusBadRequest "A bulk delete may name at most 1000 keys.".

(** [maxKeysOf], [None] where it answers the request itself. *)
Definition maxKeysOf (q : Values) : option Z :=
  let raw := query_Get q "max-keys" in
  if String.eqb raw "" then Some maxKeysLimit
  else match Atoi raw with
       | Some n => if n <? 0 then None else Some (Z.min n maxKeysLimit)
       | None => None
       end.

(** [bucketOnly] *)
Definition bucketOnly (r : Request) : option string :=
  let bucket := rq_bucket r in
  if String.eqb bucket "" || Contains bucket "/" then None
  else if existsb (fun name => negb (String.eqb name "x-id")) (header_names (rq_Query r)) then None
  else Some bucket.

(** Where a version listing resumes after the marker a client sends back. *)
Definition version_from (q : Values) : string :=
  let marker := query_Get q "key-marker" in
  if String.eqb marker "" then ""
  else
    let marker := if String.eqb (query_Get q "encoding-type") "url" then default marker (PathUnescape marker) else marker in
    let delimiter := query_Get q "delimiter" in
    if negb (String.eqb delimiter "") && negb (String.eqb marker (query_Get q "prefix")) && HasSuffix marker delimiter
    then PastPrefix marker else After marker.

Definition key_encoder (q : Values) : string -> string :=
  if String.eqb (query_Get q "encoding-type") "url" then escapeKey else fun s => s.

Section bucket.
Context {E : Type} `{!Etcd doc E} {rs : ReedSolomon} (prefix : string) (c : Coordinator) (ev : Env).
Abbreviation World := (world E).

(** [cluster.List], which always ends. *)
Definition ClusterList (req : ListRequest) (w : World) : res ListPage * World :=
  match List prefix req (w_etcd w) with
  | Some (r, e) => (r, set_etcd w e)
  | None => (Err errors_New, w)
  end.

Definition entry_doc (encode : string -> string) (bucket : string) (owner : option bucketOwner) (o : Entry) : listEntry :=
  mk_listEntry (encode (unscoped bucket (en_Key o))) (Format_millis (en_Modified o)) (quoted (en_ETag o)) (en_Size o)
    "STANDARD" owner.

(** The request for one page that both listings make. *)
Definition page_request (r : Request) (from : string) (maxKeys : Z) : ListRequest :=
  mk_ListRequest (rq_bucket r +:+ "/" +:+ query_Get (rq_Query r) "prefix") (query_Get (rq_Query r) "delimiter")
    (scoped (rq_bucket r) from) maxKeys.

Definition list_doc (r : Request) (maxKeys : Z) (page : ListPage) : listResult :=
  let q := rq_Query r in
  let bucket := rq_bucket r in
  let encode := key_encoder q in
  let owner := if String.eqb (query_Get q "fetch-owner") "true"
               then Some (mk_bucketOwner (AccessKey (ev_creds ev)) (AccessKey (ev_creds ev))) else None in
  let contents := map (entry_doc encode bucket owner) (lp_Objects page) in
  let prefixes := map (fun p => encode (unscoped bucket p)) (lp_Prefixes page) in
  let more := negb (String.eqb (lp_Next page) "") in
  mk_listResult bucket (encode (query_Get q "prefix")) (encode (query_Get q "delimiter")) maxKeys
    (zlen contents + zlen prefixes) more
    (if query_Has q "continuation-token" then Some (query_Get q "continuation-token") else None)
    (if more then encodeToken (unscoped bucket (lp_Next page)) else "")
    (encode (query_Get q "start-after")) (query_Get q "encoding-type") contents prefixes.

Definition version_doc (encode : string -> string) (bucket : string) (o : Entry) : versionEntry :=
  mk_versionEntry (encode (unscoped bucket (en_Key o))) "null" true (Format_millis (en_Modified o)) (quoted (en_ETag o))
    (en_Size o) "STANDARD".

Definition versions_doc (r : Request) (maxKeys : Z) (page : ListPage) : listVersionsResult :=
  let q := rq_Query r in
  let bucket := rq_bucket r in
  let encode := key_encoder q in
  let more := negb (String.eqb (lp_Next page) "") in
  mk_listVersionsResult bucket (encode (query_Get q "prefix")) (encode (query_Get q "key-marker"))
    (query_Get q "version-id-marker") (if more then encode (lastReported bucket page) else "") (if more then "null" else "")
    (encode (query_Get q "delimiter")) maxKeys more (query_Get q "encoding-type")
    (map (version_doc encode bucket) (lp_Objects page)) (map (fun p => encode (unscoped bucket p)) (lp_Prefixes page)).

(** A page of the bucket, empty without asking when none was wanted. *)
Definition bucket_page (r : Request) (from : string) (maxKeys : Z) (w : World) : res ListPage * World :=
  if 0 <? maxKeys then ClusterList (page_request r from maxKeys) w else (Ok zeroPage, w).

Definition listVersions (r : Request) (w : World) : reply * World :=
  let q := rq_Query r in
  match maxKeysOf q with
  | None => (fail ev r ∅ errMaxKeys, w)
  | Some maxKeys =>
      match bucket_page r (version_from q) maxKeys w with
      | (Err e, w1) => (fail ev r ∅ (storeError e), w1)
      | (Ok page, w1) => (writeXML ev r ∅ (DVersions (versions_doc r maxKeys page)), w1)
      end
  end.

Definition bucketLocation (r : Request) (w : World) : reply * World := (writeXML ev r ∅ DLocation, w).

(** Where a page of objects starts: at the token's position, or past the key to start after. *)
Definition list_from (q : Values) : res string :=
  from ← decodeToken (query_Get q "continuation-token");
  Ok (if String.eqb from "" && negb (String.eqb (query_Get q "start-after") "") then After (query_Get q "start-after") else from).

Definition listObjects (r : Request) (w : World) : reply * World :=
  let q := rq_Query r in
  if query_Has q "uploads" then listUploads prefix ev r w
  else if query_Has q "versions" then listVersions r w
  else if query_Has q "location" then bucketLocation r w
  else if negb (String.eqb (query_Get q "list-type") "2") && String.eqb (query_Get q "allow-unordered") "true" &&
          negb (String.eqb (query_Get q "delimiter") "")
  then (fail ev r ∅ errUnordered, w)
  else if negb (String.eqb (query_Get q "list-type") "2") then (fail ev r ∅ errNotImplemented, w)
  else match maxKeysOf q with
  | None => (fail ev r ∅ errMaxKeys, w)
  | Some maxKeys =>
      match list_from q with
      | Err _ => (fail ev r ∅ errBadToken, w)
      | Ok from =>
          match bucket_page r from maxKeys w with
          | (Err e, w1) => (fail ev r ∅ (storeError e), w1)
          | (Ok page, w1) => (writeXML ev r ∅ (DList (list_doc r maxKeys page)), w1)
          end
      end
  end.

(** The loop of [listBuckets] over the pages: the names, [None] when the fuel runs out. *)
Fixpoint bucket_pages (fuel : nat) (from : string) (acc : list bucketEntry) (w : World)
    : option (res (list bucketEntry)) * World :=
  match fuel with
  | O => (None, w)
  | S fuel' =>
      match ClusterList (mk_ListRequest "" "/" from maxKeysLimit) w with
      | (Err e, w1) => (Some (Err e), w1)
      | (Ok page, w1) =>
          let acc' := acc ++ map (fun p => mk_bucketEntry (TrimSuffix p "/") (Format_millis 0)) (lp_Prefixes page) in
          if String.eqb (lp_Next page) "" then (Some (Ok acc'), w1) else bucket_pages fuel' (lp_Next page) acc' w1
      end
  end.

Definition listBuckets (r : Request) (w : World) : reply * World :=
  match bucket_pages (ev_fuel ev) "" [] w with
  | (None, w1) => (Unfinished, w1)
  | (Some (Err e), w1) => (fail ev r ∅ (storeError e), w1)
  | (Some (Ok buckets), w1) =>
      (writeXML ev r ∅ (DBuckets (mk_listAllBucketsResult
         (mk_bucketOwner (AccessKey (ev_creds ev)) (AccessKey (ev_creds ev))) buckets)), w1)
  end.

Definition headBucket (r : Request) (w : World) : reply * World := (Answered (mk_Response StatusOK ∅ NoBody), w).

Definition createBucket (r : Request) (w : World) : reply * World :=
  match bucketOnly r with
  | None => (fail ev r ∅ errNotImplemented, w)
  | Some bucket => (Answered (mk_Response StatusOK (header_Set ∅ "Location" ("/" +:+ bucket)) NoBody), w)
  end.

(** The loop of [deleteObjects] over the keys. *)
Fixpoint delete_keys (bucket : string) (quiet : bool) (keys : list string) (acc : deleteResult) (w : World)
    : deleteResult * World :=
  match keys with
  | [] => (acc, w)
  | k :: keys' =>
      if String.eqb k "" then
        delete_keys bucket quiet keys'
          (mk_deleteResult (dr_Deleted acc)
             (dr_Errors acc ++ [mk_deleteError "" "InvalidArgument" "A delete entry must name a key."])) w
      else match ClusterDelete prefix (bucket +:+ "/" +:+ k) w with
           | (Err e, w1) =>
               let a := storeError e in
               delete_keys bucket quiet keys'
                 (mk_deleteResult (dr_Deleted acc) (dr_Errors acc ++ [mk_deleteError k (ae_code a) (ae_message a)])) w1
           | (Ok _, w1) =>
               delete_keys bucket quiet keys'
                 (if quiet then acc else mk_deleteResult (dr_Deleted acc ++ [k]) (dr_Errors acc)) w1
           end
  end.

Definition deleteObjects (r : Request) (w : World) : reply * World :=
  match readAllLimited (rq_Body r) maxDeleteRequest with
  | Err _ => (fail ev r ∅ errMalformedXML, w)
  | Ok text =>
      match ev_delete ev text with
      | None => (fail ev r ∅ errMalformedXML, w)
      | Some (quiet, keys) =>
          if maxDeleteKeys <? zlen keys then (fail ev r ∅ errTooManyKeys, w)
          else let '(result, w1) := delete_keys (rq_bucket r) quiet keys (mk_deleteResult [] []) w in
               (writeXML ev r ∅ (DDelete result), w1)
      end
  end.

Definition postBucket (r : Request) (w : World) : reply * World :=
  if negb (query_Has (rq_Query r) "delete") then (fail ev r ∅ errNotImplemented, w) else deleteObjects r w.

Definition deleteBucket (r : Request) (w : World) : reply * World :=
  match bucketOnly r with
  | None => (fail ev r ∅ errNotImplemented, w)
  | Some bucket =>
      match ClusterList (mk_ListRequest (bucket +:+ "/") "" "" 1) w with
      | (Err e, w1) => (fail ev r ∅ (storeError e), w1)
      | (Ok page, w1) =>
          if 0 <? zlen (lp_Objects page) then (fail ev r ∅ errBucketNotEmpty, w1)
          else (Answered (mk_Response StatusNoContent ∅ NoBody), w1)
      end
  end.
End bucket.

(** ** Following the pages of a bucket *)

Lemma scoped_unscoped bucket t : t <> "" -> scoped bucket (unscoped bucket (bucket +:+ "/" +:+ t)) = bucket +:+ "/" +:+ t.
Proof.
  intros Ht. unfold unscoped. rewrite sapp_assoc, TrimPrefix_app. unfold scoped.
  destruct (String.eqb_spec t ""); [done|]. by rewrite sapp_assoc.
Qed.

(** A page of a bucket goes on inside the bucket. *)
Lemma resume_scoped req bucket pre f : lr_Prefix req = bucket +:+ "/" +:+ pre -> plain_delim (lr_Delimiter req) ->
  resume_at req f -> exists t, t <> "" /\ f = bucket +:+ "/" +:+ t.
Proof.
  intros Hp Hd [(k & [r ->]%HasPrefix_spec & ->)|(g & (key & Hk & Hg) & ->)].
  - rewrite Hp. exists ((pre +:+ r) +:+ String zero ""). split; [by intros [_ ?]%sapp_nil_inv|].
    unfold After. by rewrite !sapp_assoc.
  - pose proof (groupOf_spec _ _ _ _ Hk Hg) as (Hne & (a & ->) & _).
    destruct Hd as [?|(d & c & -> & Hc)]; [done|]. pose proof (byteZ_range c).
    rewrite sapp_assoc, past_prefix_snoc by lia. rewrite Hp.
    exists ((pre +:+ a +:+ d) +:+ utf8_of_byte (byteZ c + 1)). split.
    + intros [_ H']%sapp_nil_inv. unfold utf8_of_byte in H'. destruct (_ <? _); done.
    + by rewrite !sapp_assoc.
Qed.

Section follow.
Context {E : Type} `{!Etcd doc E, !EtcdLaws doc E} {rs : ReedSolomon} (prefix : string) (ev : Env).
Abbreviation World := (world E).

(** A listing that is answered with a page. *)
Definition lists (r : Request) (w : World) (d : listResult) (w' : World) : Prop :=
  exists h, listObjects prefix ev r w = (Answered (mk_Response StatusOK h (XML (DList d))), w').

(** The same request, with the token of the page before. *)
Definition with_token (r : Request) (token : string) : Request :=
  mk_Request (rq_Method r) (rq_Host r) (rq_EscapedPath r) (<["continuation-token" := [token]]> (rq_Query r)) (rq_Header r)
    (rq_ContentLength r) (rq_TransferEncoding r) (rq_Body r) (rq_bucket r) (rq_key r) (rq_Trailers r).

(** A client that follows the tokens to the end. *)
Inductive follows : Request -> World -> list listResult -> World -> Prop :=
  | follows_last r w d w' : lists r w d w' -> lo_IsTruncated d = false -> follows r w [d] w'
  | follows_more r w d w1 ds w' : lists r w d w1 -> lo_IsTruncated d = true ->
      follows (with_token r (lo_NextContinuationToken d)) w1 ds w' -> follows r w (d :: ds) w'.

(** The listing a request is about. *)
Definition asked (w : World) (r : Request) (from : string) : list item :=
  whole_listing prefix (e_state (w_etcd w)) (page_request r from 1) (scoped (rq_bucket r) from).

Definition owner_doc (r : Request) : option bucketOwner :=
  if String.eqb (query_Get (rq_Query r) "fetch-owner") "true"
  then Some (mk_bucketOwner (AccessKey (ev_creds ev)) (AccessKey (ev_creds ev))) else None.

Definition object_docs (r : Request) (l : list item) : list listEntry :=
  map (entry_doc (key_encoder (rq_Query r)) (rq_bucket r) (owner_doc r)) (omap the_object l).
Definition prefix_docs (r : Request) (l : list item) : list string :=
  map (fun p => key_encoder (rq_Query r) (unscoped (rq_bucket r) p)) (omap the_prefix l).

(** What a page that was answered came from. *)
Lemma lists_page r w d w' : lists r w d w' -> exists maxKeys from page,
  maxKeysOf (rq_Query r) = Some maxKeys /\ list_from (rq_Query r) = Ok from /\
  bucket_page prefix r from maxKeys w = (Ok page, w') /\ d = list_doc ev r maxKeys page.
Proof.
  intros [h H]. unfold listObjects in H.
  assert (Hf : forall e, (fail ev r ∅ e, w) = (Answered (mk_Response StatusOK h (XML (DList d))), w') -> False)
    by (intros e [= [x Hx]%fail_Answered _]; done).
  destruct (query_Has _ "uploads").
  { exfalso. unfold listUploads in H. destruct (ClusterUploads _ _ _ _ _) as [[[us more]|e] w1].
    - destruct (match last _ with Some _ => _ | None => _ end) as [nk ni]. injection H as H _.
      apply writeXML_Answered in H as [[x Hx]|Hx]; done.
    - injection H as H _. by apply fail_Answered in H as [x Hx]. }
  destruct (query_Has _ "versions").
  { exfalso. unfold listVersions in H. destruct (maxKeysOf _); [|by apply Hf in H].
    destruct (bucket_page _ _ _ _ _) as [[p|e] w1]; injection H as H _;
      [apply writeXML_Answered in H as [[x Hx]|Hx]; done | by apply fail_Answered in H as [x Hx]]. }
  destruct (query_Has _ "location").
  { exfalso. injection H as H _. apply writeXML_Answered in H as [[x Hx]|Hx]; done. }
  destruct (_ && _ && _); [by apply Hf in H|]. destruct (negb _); [by apply Hf in H|].
  destruct (maxKeysOf _) as [maxKeys|]; [|by apply Hf in H]. destruct (list_from _) as [from|]; [|by apply Hf in H].
  destruct (bucket_page _ _ _ _ _) as [[page|e] w1] eqn:Hp; injection H as H <-.
  - exists maxKeys, from, page. apply writeXML_Answered in H as [[x Hx]|Hx]; [done|]. by injection Hx as ->.
  - by apply fail_Answered in H as [x Hx].
Qed.

Lemma maxKeysOf_range q n : maxKeysOf q = Some n -> 0 <= n <= maxKeysLimit.
Proof.
  unfold maxKeysOf. destruct (String.eqb _ _); [intros [= <-]; done|]. destruct (Atoi _) as [k|]; [|done].
  destruct (Z.ltb_spec k 0); [done|]. intros [= <-]. unfold maxKeysLimit. lia.
Qed.

(** One page against the listing, and where its token leads. *)
Lemma bucket_page_spec r from n (w w' : World) page :
  plain_delim (query_Get (rq_Query r) "delimiter") -> 0 < n <= maxKeysLimit ->
  bucket_page prefix r from n w = (Ok page, w') ->
  e_state (w_etcd w') = e_state (w_etcd w) /\ shows page (takeZ n (asked w r from)) /\
  (lp_Next page = "" <-> zlen (asked w r from) <= n) /\
  (lp_Next page <> "" -> exists t, t <> "" /\ unscoped (rq_bucket r) (lp_Next page) = t /\ asked w r t = dropZ n (asked w r from)).
Proof.
  intros Hd Hn. unfold bucket_page. rewrite (proj2 (Z.ltb_lt 0 n)) by lia. unfold ClusterList.
  destruct (List _ _ _) as [[rp e1]|] eqn:HL; [|done]. intros [= -> <-].
  assert (Hlim : 0 < lr_Limit (page_request r from n) < max_int64) by (cbn; unfold maxKeysLimit, max_int64 in *; lia).
  pose proof (List_resume prefix (page_request r from n) _ _ _ Hlim HL) as Hres.
  apply List_page_spec in HL as (He & Hsh & Hiff & Hrest); [|done|done].
  unfold asked in *. cbn [w_etcd set_etcd]. split; [done|]. split; [exact Hsh|]. split; [exact Hiff|].
  intros Hne. destruct Hres as [?|Hres]; [done|].
  eapply (resume_scoped _ (rq_bucket r) (query_Get (rq_Query r) "prefix")) in Hres as (t & Ht & Hnext); [|done|done].
  exists t. split; [done|]. split; [rewrite Hnext; unfold unscoped; by rewrite sapp_assoc, TrimPrefix_app|].
  assert (scoped (rq_bucket r) t = lp_Next page) as ->; [|exact (Hrest Hne)].
  rewrite Hnext, <- (scoped_unscoped _ t Ht). f_equal. unfold unscoped. by rewrite sapp_assoc, TrimPrefix_app.
Qed.

Lemma query_Get_token r token name : name <> "continuation-token" ->
  query_Get (rq_Query (with_token r token)) name = query_Get (rq_Query r) name.
Proof. intros Hn. unfold query_Get. cbn [rq_Query with_token]. by rewrite lookup_insert_ne. Qed.

Lemma list_from_token r t : t <> "" -> list_from (rq_Query (with_token r (encodeToken t))) = Ok t.
Proof.
  intros Ht. unfold list_from.
  assert (query_Get (rq_Query (with_token r (encodeToken t))) "continuation-token" = encodeToken t) as ->
    by (unfold query_Get; cbn [rq_Query with_token]; by rewrite lookup_insert_eq).
  rewrite decodeToken_encode. cbn [mbind res_bind]. by destruct (String.eqb_spec t "").
Qed.

Lemma docs_split r n l :
  object_docs r (takeZ n l) ++ object_docs r (dropZ n l) = object_docs r l /\
  prefix_docs r (takeZ n l) ++ prefix_docs r (dropZ n l) = prefix_docs r l.
Proof.
  unfold object_docs, prefix_docs. rewrite <- !map_app, <- !omap_app. by rewrite takeZ_dropZ.
Qed.

Lemma with_token_same r token : maxKeysOf (rq_Query (with_token r token)) = maxKeysOf (rq_Query r) /\
  (forall w from, asked w (with_token r token) from = asked w r from) /\
  (forall l, object_docs (with_token r token) l = object_docs r l) /\
  (forall l, prefix_docs (with_token r token) l = prefix_docs r l).
Proof.
  unfold maxKeysOf, asked, page_request, object_docs, prefix_docs, owner_doc, key_encoder.
  rewrite !query_Get_token by done. done.
Qed.

(** C13: following the continuation tokens lists a bucket exactly. A client that asks for a
    bucket's objects, with any prefix, starting point, page size and encoding and any
    delimiter that ends below 0x7f, and asks again with each token it is given,
    sees the whole listing of the committed objects when it reaches the last page:
    every object and every collapsed prefix once, in key order, none lost between
    pages; and all pages but the last are full, so it does reach it. *)
Theorem listObjects_follows (r : Request) (from : string) (n : Z) (w w' : World) (ds : list listResult) :
  plain_delim (query_Get (rq_Query r) "delimiter") -> maxKeysOf (rq_Query r) = Some n -> 0 < n ->
  list_from (rq_Query r) = Ok from -> follows r w ds w' ->
  concat (map lo_Contents ds) = object_docs r (asked w r from) /\
  concat (map lo_CommonPrefixes ds) = prefix_docs r (asked w r from) /\
  (zlen ds - 1) * n <= zlen (asked w r from) /\ e_state (w_etcd w') = e_state (w_etcd w).
Proof.
  intros Hd Hmax Hn Hfrom H. revert from Hd Hmax Hfrom.
  induction H as [r w d w' Hl Ht | r w d w1 ds w' Hl Ht _ IH]; intros from Hd Hmax Hfrom;
    apply lists_page in Hl as (n' & from' & page & Hn' & Hf' & Hp & ->);
    rewrite Hmax in Hn'; injection Hn' as <-; rewrite Hfrom in Hf'; injection Hf' as <-;
    pose proof (maxKeysOf_range _ _ Hmax) as Hr;
    apply bucket_page_spec in Hp as (Hst & [Ho Hpr] & Hiff & Hrest); try done; try lia;
    cbn [list_doc lo_IsTruncated] in Ht; destruct (String.eqb_spec (lp_Next page) "") as [Hnx|Hnx]; try discriminate Ht.
  - cbn [map concat list_doc lo_Contents lo_CommonPrefixes]. rewrite !app_nil_r, Ho, Hpr.
    rewrite takeZ_all by (by apply Hiff). split; [done|]. split; [done|]. split; [|done].
    change (zlen [list_doc ev r n page]) with 1. pose proof (zlen_nonneg (asked w r from)). lia.
  - destruct (Hrest Hnx) as (t & Hne & Hun & Hask). cbn [list_doc lo_NextContinuationToken] in IH.
    rewrite (proj2 (String.eqb_neq _ _) Hnx) in IH. cbn [negb] in IH. rewrite Hun in IH.
    destruct (with_token_same r (encodeToken t)) as (Hm & Ha & Hod & Hpd). rewrite Hm in IH.
    specialize (IH t). rewrite query_Get_token, list_from_token in IH by done.
    destruct (IH Hd Hmax eq_refl) as (HC & HP & Hz & He). rewrite Ha in HC, HP, Hz. rewrite Hod in HC. rewrite Hpd in HP.
    assert (Hsame : asked w1 r t = asked w r t) by (unfold asked; by rewrite Hst). rewrite Hsame, Hask in HC, HP, Hz.
    cbn [map concat list_doc lo_Contents lo_CommonPrefixes]. rewrite HC, HP, Ho, Hpr.
    destruct (docs_split r n (asked w r from)) as [H1 H2]. split; [exact H1|]. split; [exact H2|]. split; [|congruence].
    assert (Hlong : n < zlen (asked w r from)) by (destruct (Z.le_gt_cases (zlen (asked w r from)) n); [tauto | lia]).
    rewrite zlen_dropZ in Hz by lia. rewrite zlen_cons. lia.
Qed.
End follow.

(** ** Buckets are the first components of keys *)

Section buckets.
Context {E : Type} `{!Etcd doc E, !EtcdLaws doc E} {rs : ReedSolomon} (prefix : string) (ev : Env).
Abbreviation World := (world E).

(** A committed object. *)
Definition committed (w : World) (key : string) : Prop := is_Some (es_kvs (e_state (w_etcd w)) !! Meta.key prefix key).

Definition same_state (w w' : World) : Prop := e_state (w_etcd w') = e_state (w_etcd w).

Lemma slash_plain : plain_delim "/".
Proof. right. by exists "", "/"%char. Qed.

(** Every bucket, in one listing. *)
Definition all_buckets (w : World) (from : string) : list item :=
  whole_listing prefix (e_state (w_etcd w)) (mk_ListRequest "" "/" "" maxKeysLimit) from.

Definition bucket_doc (p : string) : bucketEntry := mk_bucketEntry (TrimSuffix p "/") (Format_millis 0).

Lemma ClusterList_state req (w w' : World) r : 0 < lr_Limit req < max_int64 ->
  ClusterList prefix req w = (r, w') -> same_state w w'.
Proof.
  intros Hlim. unfold ClusterList, same_state. destruct (List _ _ _) as [[x e]|] eqn:HL; intros [= _ <-]; [|done].
  by apply List_state in HL.
Qed.

Lemma bucket_pages_spec fuel : forall from acc (w : World), zlen (all_buckets w from) < Z.of_nat fuel ->
  let '(r, w') := bucket_pages prefix fuel from acc w in
  same_state w w' /\
  match r with
  | None => False
  | Some (Err _) => True
  | Some (Ok l) => l = acc ++ map bucket_doc (omap the_prefix (all_buckets w from))
  end.
Proof.
  induction fuel as [|fuel IH]; intros from acc w Hf; [pose proof (zlen_nonneg (all_buckets w from)); lia|].
  cbn [bucket_pages]. destruct (ClusterList _ _ w) as [[page|e] w1] eqn:HL.
  2: { split; [|done]. by eapply ClusterList_state in HL. }
  assert (Hst : same_state w w1) by (by eapply ClusterList_state in HL). unfold ClusterList in HL.
  destruct (List _ _ _) as [[x e]|] eqn:HL'; [|done]. injection HL as -> <-.
  apply List_page_spec in HL' as (He & [_ Hp] & Hiff & Hrest); [|apply slash_plain|done].
  cbn [lr_Limit lr_From] in Hp, Hiff, Hrest.
  assert (Hall : forall f, whole_listing prefix (e_state (w_etcd w)) (mk_ListRequest "" "/" from maxKeysLimit) f = all_buckets w f)
    by reflexivity.
  rewrite Hall in Hp, Hiff, Hrest. rewrite Hall in Hrest.
  rewrite Hp. destruct (String.eqb_spec (lp_Next page) "") as [Hn|Hn].
  - split; [done|]. by rewrite takeZ_all by (by apply Hiff).
  - assert (Hlong : maxKeysLimit < zlen (all_buckets w from))
      by (destruct (Z.le_gt_cases (zlen (all_buckets w from)) maxKeysLimit); [tauto | lia]).
    assert (Hsame : all_buckets (set_etcd w e) (lp_Next page) = dropZ maxKeysLimit (all_buckets w from)).
    { unfold all_buckets at 1. rewrite Hst. apply Hrest. done. }
    specialize (IH (lp_Next page) (acc ++ map bucket_doc (omap the_prefix (takeZ maxKeysLimit (all_buckets w from)))) (set_etcd w e)).
    rewrite Hsame, zlen_dropZ in IH by done. specialize (IH ltac:(unfold maxKeysLimit in *; lia)). fold bucket_doc.
    destruct (bucket_pages _ _ _ _ _) as [r w']. destruct IH as [IH1 IH2]. split; [unfold same_state in *; congruence|].
    destruct r as [[l|]|]; [|done|done]. rewrite IH2, <- app_assoc, <- map_app, <- omap_app. by rewrite takeZ_dropZ.
Qed.

Lemma first_byte c s : has_byte c s = false \/ exists a b, s = a +:+ String c b /\ has_byte c a = false.
Proof.
  induction s as [|x s IH]; [by left|]. cbn [has_byte]. destruct (Ascii.eqb_spec x c) as [-> |Hne].
  - right. by exists "", s.
  - destruct IH as [IH|(a & b & -> & Ha)]; [by left|]. right. exists (String x a), b. split; [done|].
    cbn [has_byte]. apply Ascii.eqb_neq in Hne. by rewrite Hne, Ha.
Qed.

Lemma TrimSuffix_app a p : TrimSuffix (a +:+ p) p = a.
Proof.
  unfold TrimSuffix. rewrite HasSuffix_app, slen_app, Nat.add_sub. apply stake_app.
Qed.

Lemma bucket_of k g : groupOf k "" "/" = Some g <-> exists b r, k = b +:+ "/" +:+ r /\ g = b +:+ "/" /\ has_byte "/" b = false.
Proof.
  unfold groupOf. cbn [String.eqb]. change (TrimPrefix k "") with (sdrop 0 k).
  assert (sdrop 0 k = k) as -> by (by destruct k). split.
  - destruct (first_byte "/" k) as [Hn|(a & b & -> & Ha)].
    + assert (Hi : Cut k "/" = None) by (by apply Cut_byte_None). unfold Cut in Hi. by destruct (Index k "/").
    + rewrite Index_byte by done. intros [= <-]. exists a, b. split; [done|]. split; [|done]. cbn [String.append slen].
      change (String "/" b) with ("/" +:+ b). rewrite sapp_assoc. change 1%nat with (slen "/") at 1.
      rewrite <- slen_app. apply stake_app.
  - intros (b & r & -> & -> & Hb). change ("/" +:+ r) with (String "/" r). rewrite Index_byte by done. f_equal.
    change ("" +:+ ?x) with x. change (String "/" r) with ("/" +:+ r). rewrite sapp_assoc, <- slen_app. apply stake_app.
Qed.

Lemma all_buckets_names (w : World) : exists names, map bucket_doc (omap the_prefix (all_buckets w "")) =
    map (fun b => mk_bucketEntry b (Format_millis 0)) names /\ NoDup names /\
  forall b, b ∈ names <-> has_byte "/" b = false /\ exists k, committed w (b +:+ "/" +:+ k).
Proof.
  unfold all_buckets, whole_listing, listing. cbn [lr_Prefix lr_Delimiter].
  rewrite since_all by (apply Forall_forall; intros x _; by destruct (en_Key x)).
  set (S := entries prefix _ ""). destruct (entries_facts prefix (e_state (w_etcd w)) "") as [Hasc Hpre]. fold S in Hasc, Hpre.
  set (gs := omap the_prefix (collapse "" "/" None S)).
  pose proof (collapse_NoDup (mk_ListRequest "" "/" "" 1) slash_plain (length S) S ltac:(lia) Hasc Hpre) as Hnd.
  cbn [lr_Prefix lr_Delimiter] in Hnd. fold gs in Hnd.
  assert (Hgs : forall g, g ∈ gs <-> exists o, o ∈ S /\ groupOf (en_Key o) "" "/" = Some g).
  { intros g. pose proof (collapse_groups (mk_ListRequest "" "/" "" 1) None S g) as Hc. cbn [lr_Prefix lr_Delimiter] in Hc.
    fold gs in Hc. split; [intros H | intros H]; [destruct (proj1 Hc (or_introl H)) | destruct (proj2 Hc (or_introl H))]; done. }
  assert (Hbs : Forall (fun g => exists b, g = b +:+ "/") gs).
  { apply Forall_forall. intros g (o & _ & (b & r & _ & -> & _)%bucket_of)%Hgs. by exists b. }
  exists (map (fun g => TrimSuffix g "/") gs). split; [by rewrite map_map|]. split.
  - clear Hgs. induction gs as [|g gs IH]; [constructor|]. apply NoDup_cons in Hnd as [Hg Hnd].
    apply Forall_cons in Hbs as [[b ->] Hbs]. cbn [map]. constructor; [|by apply IH].
    intros (g' & He & Hin)%list_elem_of_fmap. rewrite Forall_forall in Hbs. destruct (Hbs g' Hin) as [b' ->].
    rewrite !TrimSuffix_app in He. by subst b'.
  - intros b. rewrite list_elem_of_fmap. split.
    + intros (g & -> & (o & Ho & (b' & r & Hk & -> & Hb)%bucket_of)%Hgs). rewrite TrimSuffix_app. split; [done|].
      exists r. unfold committed. rewrite <- Hk. by eapply (entries_In prefix _ ""); exists o.
    + intros [Hb [k Hk]]. exists (b +:+ "/"). split; [by rewrite TrimSuffix_app|]. apply Hgs.
      destruct (proj2 (entries_In prefix (e_state (w_etcd w)) "" (b +:+ "/" +:+ k)) (conj eq_refl Hk)) as (o & Ho & He).
      exists o. split; [done|]. apply bucket_of. by exists b, k.
Qed.

(** The buckets that are listed are the ones there are. However many pages it takes, with
    fuel for one more than there are entries the loop ends, and unless etcd
    fails the answer names, each once, exactly the first components of the committed keys;
    nothing changes. *)
Theorem listBuckets_exact (r : Request) (w : World) :
  zlen (all_buckets w "") < Z.of_nat (ev_fuel ev) ->
  exists rep w', listBuckets prefix ev r w = (rep, w') /\ same_state w w' /\
  ((exists e, rep = fail ev r ∅ (storeError e)) \/
   exists names, rep = writeXML ev r ∅ (DBuckets (mk_listAllBucketsResult
       (mk_bucketOwner (AccessKey (ev_creds ev)) (AccessKey (ev_creds ev)))
       (map (fun b => mk_bucketEntry b (Format_millis 0)) names))) /\
     NoDup names /\ forall b, b ∈ names <-> has_byte "/" b = false /\ exists k, committed w (b +:+ "/" +:+ k)).
Proof.
  intros Hf. unfold listBuckets. pose proof (bucket_pages_spec (ev_fuel ev) "" [] w Hf) as H.
  destruct (bucket_pages _ _ _ _ _) as [[[l|e]|] w'] eqn:Hp; destruct H as [Hs Hr]; [| |done].
  - destruct (all_buckets_names w) as (names & Hn & Hnd & Hmem). do 2 eexists. split; [done|]. split; [done|]. right.
    exists names. rewrite Hr. cbn [app]. by rewrite Hn.
  - do 2 eexists. split; [done|]. split; [done|]. left. by exists e.
Qed.

(** A bucket is only said to be deleted when it holds nothing: the answer is 204 if and only
    if, at that moment, no object is committed under it, a bucket with objects is refused
    as not empty, and nothing changes. *)
Theorem deleteBucket_empty_only (r : Request) (w : World) (bucket : string) :
  bucketOnly r = Some bucket ->
  exists rep w', deleteBucket prefix ev r w = (rep, w') /\ same_state w w' /\
  ((exists e, rep = fail ev r ∅ (storeError e)) \/
   (rep = Answered (mk_Response StatusNoContent ∅ NoBody) /\ forall k, ~ committed w (bucket +:+ "/" +:+ k)) \/
   (rep = fail ev r ∅ errBucketNotEmpty /\ exists k, committed w (bucket +:+ "/" +:+ k))).
Proof.
  intros Hb. unfold deleteBucket. rewrite Hb. destruct (ClusterList _ _ w) as [[page|e] w1] eqn:HL;
    (assert (Hst : same_state w w1) by (by eapply ClusterList_state in HL)).
  2: { do 2 eexists. split; [done|]. split; [done|]. left. by exists e. }
  assert (HC : (0 <? zlen (lp_Objects page)) = bool_decide (entries prefix (e_state (w_etcd w)) (bucket +:+ "/") <> [])).
  { unfold ClusterList in HL. destruct (List _ _ _) as [[x e]|] eqn:HL'; [|done]. injection HL as -> _.
    apply List_page_spec in HL' as (_ & [Ho _] & _); [|by left|done]. rewrite Ho.
    unfold whole_listing, listing. cbn [lr_Prefix lr_Delimiter lr_From lr_Limit].
    rewrite since_all by (apply Forall_forall; intros x _; by destruct (en_Key x)).
    destruct (entries prefix _ _) as [|o l]; [done|]. rewrite bool_decide_true by done. cbn [collapse].
    unfold groupOf. cbn [String.eqb]. done. }
  rewrite HC. destruct (bool_decide_reflect (entries prefix (e_state (w_etcd w)) (bucket +:+ "/") <> [])) as [Hne|Hemp];
    do 2 eexists; (split; [done|]); (split; [done|]); right.
  - right. split; [done|]. destruct (entries prefix _ _) as [|o l] eqn:He; [done|].
    destruct (proj1 (entries_In prefix (e_state (w_etcd w)) (bucket +:+ "/") (en_Key o))) as [[k Hk]%HasPrefix_spec Hc].
    { exists o. rewrite He. split; [left | done]. }
    exists k. unfold committed. rewrite sapp_assoc, <- Hk. done.
  - left. split; [done|]. intros k Hk. apply Hemp. intros He.
    destruct (proj2 (entries_In prefix (e_state (w_etcd w)) (bucket +:+ "/") (bucket +:+ "/" +:+ k))) as (o & Ho & _).
    { split; [rewrite sapp_assoc; apply HasPrefix_app | done]. }
    rewrite He in Ho. by apply elem_of_nil in Ho.
Qed.
End buckets.

(** ** At concrete inputs *)

Definition demo_listing_w : world demoE := set_etcd (demo_w []) demo_bucket.

Definition demo_list : Request :=
  demo_request "GET" "/b" "b" "" {["list-type" := ["2"]; "delimiter" := ["/"]; "max-keys" := ["2"]]} ∅ "".

(** The page a listing answers with. *)
Definition page_of (r : Request) (w : world demoE) : listResult :=
  match listObjects "/kavo" demo_ev r w with
  | (Answered (mk_Response _ _ (XML (DList d))), _) => d
  | _ => mk_listResult "" "" "" 0 0 false None "" "" "" [] []
  end.

Definition demo_page1 : listResult := page_of demo_list demo_listing_w.
Definition demo_list2 : Request := with_token demo_list (lo_NextContinuationToken demo_page1).
Definition demo_w2 : world demoE := (listObjects "/kavo" demo_ev demo_list demo_listing_w).2.
Definition demo_page2 : listResult := page_of demo_list2 demo_w2.

Example demo_pages :
  map le_Key (lo_Contents demo_page1) = ["a"] /\ lo_CommonPrefixes demo_page1 = ["p/"] /\
  map le_Key (lo_Contents demo_page2) = ["q"] /\ lo_IsTruncated demo_page2 = false.
Proof. vm_compute. repeat split. Qed.

Definition is_page (rep : reply) : bool :=
  match rep with Answered (mk_Response st _ (XML (DList _))) => st =? StatusOK | _ => false end.

Lemma page_lists r w : is_page (listObjects "/kavo" demo_ev r w).1 = true ->
  lists "/kavo" demo_ev r w (page_of r w) (listObjects "/kavo" demo_ev r w).2.
Proof.
  unfold lists, page_of. destruct (listObjects "/kavo" demo_ev r w) as [[[st h [ | [] | | ]] | | |] w']; try done.
  cbn. intros ->%Z.eqb_eq. by exists h.
Qed.

Lemma demo_follows : exists w', follows "/kavo" demo_ev demo_list demo_listing_w [demo_page1; demo_page2] w'.
Proof.
  eexists. eapply follows_more; [apply page_lists|..]; [vm_compute; reflexivity | vm_compute; reflexivity|].
  apply follows_last; [apply page_lists|]; vm_compute; reflexivity.
Qed.

Lemma listObjects_follows_witness : exists ds w', follows "/kavo" demo_ev demo_list demo_listing_w ds w' /\
  concat (map lo_Contents ds) = object_docs demo_ev demo_list (asked "/kavo" demo_listing_w demo_list "").
Proof.
  destruct demo_follows as [w' H]. exists [demo_page1; demo_page2], w'. split; [exact H|].
  apply (listObjects_follows "/kavo" demo_ev demo_list "" 2 demo_listing_w w' [demo_page1; demo_page2]).
  - exact slash_plain.
  - reflexivity.
  - reflexivity.
  - reflexivity.
  - exact H.
Defined.

Lemma listBuckets_exact_witness : exists rep w', listBuckets "/kavo" demo_ev demo_list demo_listing_w = (rep, w') /\
  same_state demo_listing_w w'.
Proof.
  destruct (listBuckets_exact "/kavo" demo_ev demo_list demo_listing_w) as (rep & w' & H & Hs & _).
  - vm_compute. reflexivity.
  - exists rep, w'. split; [exact H | exact Hs].
Defined.

Definition demo_delete : Request := demo_request "DELETE" "/b" "b" "" ∅ ∅ "".

Lemma deleteBucket_empty_only_witness : exists rep w', deleteBucket "/kavo" demo_ev demo_delete demo_listing_w = (rep, w') /\
  same_state demo_listing_w w'.
Proof.
  destruct (deleteBucket_empty_only "/kavo" demo_ev demo_delete demo_listing_w "b") as (rep & w' & H & Hs & _).
  - reflexivity.
  - exists rep, w'. split; [exact H | exact Hs].
Defined.

(** A delimiter that begins inside the prefix. The object [ab] is listed on a page of its own,
    and its key, sent back as the marker, is taken for a group that was reported: what is
    below it is never listed. *)
Definition demo_versions (marker : string) : Request :=
  demo_request "GET" "/b" "b" "" {["versions" := [""]; "prefix" := ["a"]; "delimiter" := ["ab"]; "max-keys" := ["1"];
                                    "key-marker" := [marker]]} ∅ "".

Definition versions_of (r : Request) (w : world demoE) : option (list string * list string * bool * string) :=
  match (listVersions "/kavo" demo_ev r w).1 with
  | Answered (mk_Response _ _ (XML (DVersions d))) =>
      Some (map ve_Key (lv_Versions d), lv_CommonPrefixes d, lv_IsTruncated d, lv_NextKeyMarker d)
  | _ => None
  end.

Example listVersions_skips :
  let w := set_etcd (demo_w []) (commit_all ["b/ab"; "b/abc"]) in
  versions_of (demo_versions "") w = Some (["ab"], [], true, "ab") /\ versions_of (demo_versions "ab") w = Some ([], [], false, "").
Proof. split; vm_compute; reflexivity. Qed.

(** The prefix of a listing of uploads is cleaned as a path: it loses its last slash, and can
    climb out of the bucket. *)
Example listUploads_prefix : path_Join ["b"; "dir/"] = "b/dir" /\ path_Join ["b"; "../c"] = "c".
Proof. split; vm_compute; reflexivity. Qed.
