(* ===== verification/S3Object.v ===== *)
(** * Objects over S3, and the router: [internal/s3/s3.go]

    The handlers of an object's own path, the checks every request passes first, and
    which handler a request reaches. *)

From S2P Require Import Prelude GoStr Strconv Path Hash Text Time Crc Ring Ec Object Sigv4 Chunked Auth Store Etcd Meta Node Cluster Multipart Listing S3 Reply S3Upload S3Bucket.

(** The headers a read answers with. *)
Definition part_sums (h : Values) (p : Part) : Values :=
  let h := set_sum h "X-Amz-Checksum-Crc32c" encodeCRC32C true (p_CRC32C p) in
  let h := set_sum h "X-Amz-Checksum-Crc32" encodeCRC32 true (p_CRC32 p) in
  let h := set_sum h "X-Amz-Checksum-Crc64nvme" encodeCRC64NVME true (p_CRC64NVME p) in
  if is_some (p_CRC32C p) || is_some (p_CRC32 p) || is_some (p_CRC64NVME p)
  then header_Set h "x-amz-checksum-type" "FULL_OBJECT" else h.

Definition object_sums (h : Values) (m : Manifest) : Values :=
  let h := set_sum h "X-Amz-Checksum-Crc32c" encodeCRC32C true (m_CRC32C m) in
  let h := set_sum h "X-Amz-Checksum-Crc32" encodeCRC32 true (m_CRC32 m) in
  let h := set_sum h "X-Amz-Checksum-Crc64nvme" encodeCRC64NVME true (m_CRC64NVME m) in
  header_Set h "x-amz-checksum-type" "FULL_OBJECT".

(** The part of the object a read is about: all of it, or one part, and how many parts. *)
Record selection := mk_selection { sl_off : Z; sl_len : Z; sl_part : option Part; sl_count : Z }.

Definition select (r : Request) (m : Manifest) : selection + apiError :=
  if query_Has (rq_Query r) "partNumber" then
    match Atoi (query_Get (rq_Query r) "partNumber") with
    | None => inr errBadPartNumber
    | Some n =>
        if (n <? 1) || (MaxParts <? n) then inr errBadPartNumber
        else let wn := partWindow m n in
             if negb (wn_ok wn) then inr errInvalidPartNumber
             else inl (mk_selection (wn_off wn) (wn_size wn) (wn_part wn) (if wn_multipart wn then zlen (m_Parts m) else 0))
    end
  else inl (mk_selection 0 (m_Size m) None 0).

Definition content_range (off length_ size : Z) : string :=
  "bytes " +:+ Itoa off +:+ "-" +:+ Itoa (off + length_ - 1) +:+ "/" +:+ Itoa size.

(** The status and headers of a read of [length_] bytes at [off]. *)
Definition read_headers (r : Request) (m : Manifest) (sl : selection) (off length_ : Z) : Z * Values :=
  let h := validators ∅ m in
  let h := foldl (fun h nv => <[nv.1 := [nv.2]]> h) h (map_to_list (m_Meta m)) in
  let h := header_Set h "Accept-Ranges" "bytes" in
  let h := header_Set h "Content-Length" (Itoa length_) in
  let h := if String.eqb (m_ContentType m) "" then h else header_Set h "Content-Type" (m_ContentType m) in
  let h := match sl_part sl with
           | Some p => if length_ =? sl_len sl then part_sums h p
                       else if checksumModeEnabled (rq_Header r) && (length_ =? m_Size m) then object_sums h m else h
           | None => if checksumModeEnabled (rq_Header r) && (length_ =? m_Size m) then object_sums h m else h
           end in
  let h := if 0 <? sl_count sl then header_Set h "X-Amz-Mp-Parts-Count" (Itoa (sl_count sl)) else h in
  if length_ =? m_Size m then (StatusOK, h)
  else (StatusPartialContent, header_Set h "Content-Range" (content_range off length_ (m_Size m))).

Section object.
Context {E : Type} `{!Etcd doc E} {rs : ReedSolomon} (prefix : string) (c : Coordinator) (ev : Env).
Abbreviation World := (world E).

Definition copyObject (r : Request) (key source : string) (w : World) : reply * World :=
  match copySource source with
  | None => (fail ev r ∅ errInvalidCopySource, w)
  | Some from =>
      let directive := header_Get (rq_Header r) "X-Amz-Metadata-Directive" in
      let replace := EqualFold directive "REPLACE" in
      if negb (String.eqb directive "") && negb replace && negb (EqualFold directive "COPY")
      then (fail ev r ∅ errInvalidDirective, w)
      else if String.eqb from key && negb replace then (fail ev r ∅ errCopyOntoItself, w)
      else match storedMeta (rq_Header r) with
      | Err _ => (fail ev r ∅ errMetadataTooLarge, w)
      | Ok stored =>
          let conditions := copyConditions (rq_Header r) in
          let '(refused, w1) :=
            if bool_decide (conditions = ∅) then (None, w)
            else match Resolve prefix from w with
                 | (Err e, w1) => (Some (storeError e), w1)
                 | (Ok src, w1) =>
                     (if (precondition (ev_local ev) conditions src).2 then None else Some errPreconditionFailed, w1)
                 end in
          match refused with
          | Some e => (fail ev r ∅ e, w1)
          | None =>
              match Copy prefix from key (mk_CopyOptions replace (header_Get (rq_Header r) "Content-Type") stored) w1 with
              | (Err e, w2) => (fail ev r ∅ (storeError e), w2)
              | (Ok m, w2) => (writeXML ev r ∅ (DCopy (mk_copyResult (etag m) (Format RFC3339 (m_Modified m)))), w2)
              end
          end
      end
  end.

(** The second half of [putObject], once it is known to be a write of an object. *)
Definition put_body (r : Request) (key : string) (w : World) : reply * World :=
  if (rq_ContentLength r <? 0) && negb (httpChunked r) then (fail ev r ∅ errMissingLength, w)
  else match contentMD5 (header_Values (rq_Header r) "Content-MD5") with
  | Err _ => (fail ev r ∅ errInvalidDigest, w)
  | Ok digest =>
      match declaredSums (rq_Header r) with
      | Err _ => (fail ev r ∅ errMalformedChecksum, w)
      | Ok d =>
          match storedMeta (rq_Header r) with
          | Err _ => (fail ev r ∅ errMetadataTooLarge, w)
          | Ok stored =>
              let opts := attachTrailingChecksums
                (mk_PutOptions (header_Get (rq_Header r) "Content-Type") "" (rq_ContentLength r) stored digest
                   (ds_crc32c d) None (ds_crc32 d) None (ds_crc64nvme d) None) r in
              match Put prefix c key (rq_Body r) opts (ev_rnd ev) w with
              | (Err e, w1) => (fail ev r ∅ (storeError e), w1)
              | (Ok m, w1) =>
                  (Answered (mk_Response StatusOK (answer_sums (header_Set ∅ "ETag" (etag m)) (rq_Header r) d m) NoBody), w1)
              end
          end
      end
  end.

Definition putObject (r : Request) (w : World) : reply * World :=
  match objectKey r with
  | None => (fail ev r ∅ errNotImplemented, w)
  | Some key =>
      let id := query_Get (rq_Query r) "uploadId" in
      let source := header_Get (rq_Header r) "X-Amz-Copy-Source" in
      if negb (String.eqb id "") then uploadPart prefix c ev r id w
      else if negb (String.eqb source "") then copyObject r key source w
      else put_body r key w
  end.

Definition objectTagging (r : Request) (key : string) (w : World) : reply * World :=
  match Resolve prefix key w with
  | (Err e, w1) => (fail ev r ∅ (storeError e), w1)
  | (Ok _, w1) => (writeXML ev r ∅ DTagging, w1)
  end.

(** The part of [getObject] that reads the object. The response has begun by the time the
    bytes are fetched, so an error only cuts it short. *)
Definition read_object (r : Request) (key : string) (w : World) : reply * World :=
  match Resolve prefix key w with
  | (Err e, w1) => (fail ev r ∅ (storeError e), w1)
  | (Ok m, w1) =>
      let '(status, ok) := precondition (ev_local ev) (rq_Header r) m in
      if negb ok then
        if status =? StatusNotModified then (Answered (mk_Response StatusNotModified (validators ∅ m) NoBody), w1)
        else (fail ev r ∅ errPreconditionFailed, w1)
      else match select r m with
      | inr e => (fail ev r ∅ e, w1)
      | inl sl =>
          match parseRange (header_Get (rq_Header r) "Range") (sl_len sl) with
          | Err _ => (fail ev r (header_Set ∅ "Content-Range" ("bytes */" +:+ Itoa (sl_len sl))) errInvalidRange, w1)
          | Ok (rel, length_) =>
              let off := wrap_int64 (sl_off sl + rel) in
              let '(status, h) := read_headers r m sl off length_ in
              if is_head r then (Answered (mk_Response status h NoBody), w1)
              else let '(_, out, w2) := StreamRange c m (mk_writer [] (ev_room ev)) off length_ w1 in
                   (Answered (mk_Response status h (Stream (wr_out out))), w2)
          end
      end
  end.

Definition getObject (r : Request) (w : World) : reply * World :=
  match objectKey r with
  | None => if is_head r then headBucket r w else listObjects prefix ev r w
  | Some key =>
      if query_Has (rq_Query r) "tagging" then objectTagging r key w
      else let id := query_Get (rq_Query r) "uploadId" in
           if negb (String.eqb id "") then listParts prefix ev r key id w
           else read_object r key w
  end.

Definition deleteObject (r : Request) (w : World) : reply * World :=
  match objectKey r with
  | None => deleteBucket prefix ev r w
  | Some key =>
      let id := query_Get (rq_Query r) "uploadId" in
      if negb (String.eqb id "") then abortUpload prefix ev r id w
      else match ClusterDelete prefix key w with
           | (Err e, w1) => (fail ev r ∅ (storeError e), w1)
           | (Ok _, w1) => (Answered (mk_Response StatusNoContent ∅ NoBody), w1)
           end
  end.

(** [postObject] of [internal/s3/upload.go] *)
Definition postObject (r : Request) (w : World) : reply * World :=
  match objectKey r with
  | None => postBucket prefix ev r w
  | Some key =>
      if query_Has (rq_Query r) "uploads" then createUpload prefix ev r key w
      else let id := query_Get (rq_Query r) "uploadId" in
           if negb (String.eqb id "") then completeUpload prefix ev r key id w
           else (fail ev r ∅ errNotImplemented, w)
  end.

Definition unsupported (r : Request) (w : World) : reply * World := (fail ev r ∅ errNotImplemented, w).

(** ** The checks before every handler *)

(** [authed]. The order of the query's names does not matter to the answer. *)
Definition authed (next : Request -> World -> reply * World) (r : Request) (w : World) : reply * World :=
  match Auth.Verify (ev_local ev) (ev_reads ev) r (ev_creds ev) (w_now w) with
  | Err e => (fail ev r ∅ (authError e), w)
  | Ok r' =>
      if encryptionRequested (rq_Header r') then (fail ev r' ∅ errEncryptionNotImplemented, w)
      else if taggingRequested (rq_Header r') then (fail ev r' ∅ errTaggingNotImplemented, w)
      else if checksumRefused r' then (fail ev r' ∅ errChecksumNotImplemented, w)
      else if negb (String.eqb (rq_key r') "") &&
              negb (forallb (fun name => knownObjectQuery (rq_Method r') name (query_Get (rq_Query r') name))
                      (header_names (rq_Query r')))
      then (fail ev r' ∅ errNotImplemented, w)
      else next r' w
  end.

(** ** The router *)

(** [cleanPath] of [net/http]: [path.Clean] that keeps a trailing slash. *)
Definition cleanPath (p : string) : string :=
  if String.eqb p "" then "/"
  else
    let p := if HasPrefix p "/" then p else "/" +:+ p in
    let np := path_Clean p in
    if HasSuffix p "/" && negb (String.eqb np "/") then np +:+ "/" else np.

(** What the patterns of [New] take from a path: nothing, a bucket, or a bucket and a key. *)
Inductive matched := MRoot | MBucket (bucket : string) | MObject (bucket key : string).

Definition path_value (s : string) : string := default s (PathUnescape s).

Definition match_path (p : string) : matched :=
  match splitc "/" p with
  | [_; seg] => if String.eqb seg "" then MRoot else MBucket (path_value seg)
  | _ :: seg :: rest => MObject (path_value seg) (path_value (join_slash rest))
  | _ => MRoot
  end.

Definition with_path_values (r : Request) (bucket key : string) : Request :=
  mk_Request (rq_Method r) (rq_Host r) (rq_EscapedPath r) (rq_Query r) (rq_Header r) (rq_ContentLength r)
    (rq_TransferEncoding r) (rq_Body r) bucket key (rq_Trailers r).

(** The handler a method and a path are registered for. A pattern for GET also takes HEAD
    where HEAD has none of its own, and what no pattern takes is unsupported. *)
Definition route (method : string) (m : matched) : Request -> World -> reply * World :=
  match m with
  | MObject _ _ =>
      if String.eqb method "PUT" then putObject
      else if String.eqb method "GET" || String.eqb method "HEAD" then getObject
      else if String.eqb method "DELETE" then deleteObject
      else if String.eqb method "POST" then postObject
      else unsupported
  | MBucket _ =>
      if String.eqb method "HEAD" then headBucket
      else if String.eqb method "GET" then listObjects prefix ev
      else if String.eqb method "PUT" then createBucket ev
      else if String.eqb method "DELETE" then deleteBucket prefix ev
      else if String.eqb method "POST" then postBucket prefix ev
      else unsupported
  | MRoot => if String.eqb method "GET" || String.eqb method "HEAD" then listBuckets prefix ev else unsupported
  end.

(** Where the mux sends a request instead of routing it: a path that is not clean to the
    clean one, except that the path of CONNECT is left as it is, and an empty one of it gets
    the slash that the pattern for everything ends in. *)
Definition redirect (method p : string) : option string :=
  if String.eqb method "CONNECT" then if String.eqb p "" then Some (cleanPath p +:+ "/") else None
  else if String.eqb (cleanPath p) p then None else Some (cleanPath p).

(** [New]'s handler: the mux redirects, or it routes. *)
Definition ServeHTTP (r : Request) (w : World) : reply * World :=
  match redirect (rq_Method r) (rq_EscapedPath r) with
  | Some p => (Redirected p, w)
  | None =>
    let m := match_path (rq_EscapedPath r) in
    let '(bucket, key) := match m with
                          | MObject b k => if existsb (String.eqb (rq_Method r)) ["PUT"; "GET"; "HEAD"; "DELETE"; "POST"]
                                           then (b, k) else ("", "")
                          | MBucket b => if existsb (String.eqb (rq_Method r)) ["PUT"; "GET"; "HEAD"; "DELETE"; "POST"]
                                         then (b, "") else ("", "")
                          | MRoot => ("", "")
                          end in
    authed (route (rq_Method r) m) (with_path_values r bucket key) w
  end.
End object.

(** ** Every answer is well formed *)

(** Take a handler apart, call by call, until what it answers is in sight. *)
Ltac handler :=
  repeat match goal with |- context [match ?x with _ => _ end] => destruct x end; cbn [fst]; eauto with s3.

Section answers.
Context {E : Type} `{!Etcd doc E} `{!EtcdLaws doc E} {rs : ReedSolomon} (prefix : string) (c : Coordinator) (ev : Env).
Abbreviation World := (world E).

Lemma copyObject_ok r key source (w : World) : reply_ok r (copyObject prefix ev r key source w).1 = true.
Proof.
  unfold copyObject. destruct (copySource source) as [from|]; [|handler]. destruct (_ && _ && _); [handler|].
  destruct (_ && _); [handler|]. destruct (storedMeta _) as [stored|]; [|handler].
  assert (Href : forall rw : option apiError * World,
    (if bool_decide (copyConditions (rq_Header r) = ∅) then (None, w)
     else match Resolve prefix from w with
          | (Err e, w1) => (Some (storeError e), w1)
          | (Ok src, w1) => (if (precondition (ev_local ev) (copyConditions (rq_Header r)) src).2 then None else Some errPreconditionFailed, w1)
          end) = rw -> match rw.1 with Some e => error_status (ae_status e) = true | None => True end).
  { intros rw <-. destruct (bool_decide _); [done|]. destruct (Resolve prefix from w) as [[src|e] w1]; cbn [fst]; [|eauto with s3].
    by destruct (precondition _ _ _).2. }
  destruct (if bool_decide _ then _ else _) as [refused w1]. specialize (Href _ eq_refl). cbn [fst] in Href.
  destruct refused as [e|]; [eauto with s3 | handler].
Qed.

Lemma uploadPart_ok r id (w : World) : reply_ok r (uploadPart prefix c ev r id w).1 = true.
Proof. unfold uploadPart, copyPart. handler. Qed.

Lemma putObject_ok r (w : World) : reply_ok r (putObject prefix c ev r w).1 = true.
Proof.
  unfold putObject. destruct (objectKey r); [|handler]. destruct (negb _); [apply uploadPart_ok|].
  destruct (negb _); [apply copyObject_ok|]. unfold put_body. handler.
Qed.

Lemma listObjects_ok r (w : World) : reply_ok r (listObjects prefix ev r w).1 = true.
Proof. unfold listObjects, listUploads, listVersions, bucketLocation. handler. Qed.

Lemma select_error r m e : select r m = inr e -> error_status (ae_status e) = true.
Proof. unfold select. intros H. repeat case_match; by simplify_eq. Qed.

Lemma read_object_ok r key (w : World) : reply_ok r (read_object prefix c ev r key w).1 = true.
Proof.
  unfold read_object. destruct (Resolve prefix key w) as [[m|e] w1]; [|handler].
  destruct (precondition _ _ _) as [st ok]. destruct (negb ok); [destruct (st =? _); handler|].
  destruct (select r m) as [sl|e] eqn:Hs; [|apply fail_ok; by eapply select_error].
  destruct (parseRange _ _) as [[rel len]|e]; [|handler].
  unfold read_headers. set (h := if 0 <? sl_count sl then _ else _). destruct (len =? m_Size m); cbv beta zeta iota;
    destruct (is_head r) eqn:Hh; try done; destruct (StreamRange _ _ _ _ _ _) as [[err out] w2];
    unfold reply_ok, response_ok; cbn [fst rs_Body rs_Status]; by rewrite Hh.
Qed.

(** A page of parts fails only where none are wanted. *)
Lemma list_parts_None marker max : forall parts acc, list_parts marker max parts acc = None -> max = 0.
Proof.
  induction parts as [|p parts IH]; intros acc; cbn [list_parts]; [done|]. destruct (_ <=? _); [apply IH|].
  destruct (Z.eqb_spec (zlen acc) max) as [Hz|]; [|apply IH]. destruct (last acc) eqn:Hl; [done|].
  apply last_None in Hl. by subst acc.
Qed.

Lemma listParts_ok r key (w : World) : query_Get (rq_Query r) "uploadId" <> "" ->
  reply_ok r (listParts prefix ev r key (query_Get (rq_Query r) "uploadId") w).1 = true.
Proof.
  intros Hid. unfold listParts. destruct (ClusterParts _ _ w) as [[parts|e] w1]; [|handler].
  destruct (list_parts _ _ _ _) as [[[entries truncated] next]|] eqn:Hl; [handler|]. apply list_parts_None in Hl.
  cbn [fst reply_ok]. unfold lists_no_parts. rewrite (proj2 (String.eqb_neq _ _) Hid), Hl. done.
Qed.

Lemma getObject_ok r (w : World) : reply_ok r (getObject prefix c ev r w).1 = true.
Proof.
  unfold getObject. destruct (objectKey r); [|destruct (is_head r); [done | apply listObjects_ok]].
  destruct (query_Has _ _); [unfold objectTagging; handler|].
  destruct (String.eqb_spec (query_Get (rq_Query r) "uploadId") ""); cbn [negb]; [apply read_object_ok | by apply listParts_ok].
Qed.

Lemma deleteBucket_ok r (w : World) : reply_ok r (deleteBucket prefix ev r w).1 = true.
Proof. unfold deleteBucket. handler. Qed.

Lemma deleteObject_ok r (w : World) : reply_ok r (deleteObject prefix ev r w).1 = true.
Proof. unfold deleteObject, abortUpload. destruct (objectKey r); [handler | apply deleteBucket_ok]. Qed.

Lemma postBucket_ok r (w : World) : reply_ok r (postBucket prefix ev r w).1 = true.
Proof. unfold postBucket, deleteObjects. handler. Qed.

Lemma postObject_ok r (w : World) : reply_ok r (postObject prefix ev r w).1 = true.
Proof.
  unfold postObject, createUpload, completeUpload. destruct (objectKey r); [handler | apply postBucket_ok].
Qed.

(** The fuel is enough for the buckets there are. *)
Definition fuel_enough (w : World) : Prop := zlen (all_buckets prefix w "") < Z.of_nat (ev_fuel ev).

Lemma listBuckets_ok r (w : World) : fuel_enough w -> reply_ok r (listBuckets prefix ev r w).1 = true.
Proof.
  intros Hf. unfold listBuckets. pose proof (bucket_pages_spec prefix (ev_fuel ev) "" [] w Hf) as H.
  destruct (bucket_pages _ _ _ _ _) as [[[l|e]|] w1]; [handler.. |]. by destruct H.
Qed.

Lemma route_ok method m r (w : World) : fuel_enough w -> reply_ok r (route prefix c ev method m r w).1 = true.
Proof.
  intros Hf. destruct m; cbn [route]; repeat case_match;
    auto using putObject_ok, getObject_ok, deleteObject_ok, postObject_ok, listObjects_ok, deleteBucket_ok, postBucket_ok, listBuckets_ok;
    unfold unsupported, createBucket, headBucket; handler.
Qed.

Lemma reply_ok_alike r r' p : rq_Method r' = rq_Method r -> rq_Query r' = rq_Query r -> reply_ok r' p = reply_ok r p.
Proof. intros Hm Hq. unfold reply_ok, lists_no_parts, response_ok, is_head. by rewrite Hm, Hq. Qed.

Lemma Verify_alike r r' now : Auth.Verify (ev_local ev) (ev_reads ev) r (ev_creds ev) now = Ok r' ->
  rq_Method r' = rq_Method r /\ rq_Query r' = rq_Query r.
Proof. intros H. by apply Verify_inv in H as (? & ? & ? & _ & _ & _ & _ & _ & _ & _ & _ & _ & b & t & sz & ->). Qed.

Lemma authed_ok next r (w : World) : (forall r', reply_ok r' (next r' w).1 = true) ->
  reply_ok r (authed ev next r w).1 = true.
Proof.
  intros Hn. unfold authed. destruct (Auth.Verify _ _ _ _ _) as [r'|e] eqn:Hv; [|eauto with s3].
  apply Verify_alike in Hv as [Hm Hq]. rewrite <- (reply_ok_alike r r') by done.
  repeat (case_match; [cbn [fst]; eauto with s3|]). apply Hn.
Qed.

(** C37: what a request may be met with. With fuel for the buckets there are, whatever the
    request, the cluster and its failures: a request is redirected exactly when the mux
    says so, its path not being clean (CONNECT apart), and then nothing happens; otherwise
    it is answered, in good form, or the handler panics, which it may only when the request
    names an upload and wants its parts in pages of none. In good form: the status is one
    of success or of an error; an error document or text comes with an error's status and
    with nothing else; every other document comes with 200, an object's bytes with 200 or
    206 and never in answer to HEAD, and 204 and 304 have no body. *)
Theorem ServeHTTP_wellformed (r : Request) (w : World) : fuel_enough w ->
  match redirect (rq_Method r) (rq_EscapedPath r) with
  | Some p => ServeHTTP prefix c ev r w = (Redirected p, w)
  | None =>
      match (ServeHTTP prefix c ev r w).1 with
      | Answered p => response_ok r p = true
      | Panicked => query_Get (rq_Query r) "uploadId" <> "" /\ boundedInt (query_Get (rq_Query r) "max-parts") maxPartsLimit = 0
      | Redirected _ | Unfinished => False
      end
  end.
Proof.
  intros Hf. unfold ServeHTTP. destruct (redirect _ _); [done|].
  destruct (match match_path _ with MRoot => _ | _ => _ end) as [b k].
  assert (Hok : reply_ok r (authed ev (route prefix c ev (rq_Method r) (match_path (rq_EscapedPath r))) (with_path_values r b k) w).1 = true).
  { rewrite <- (reply_ok_alike r (with_path_values r b k)) by done. apply authed_ok. intros. by apply route_ok. }
  destruct (authed _ _ _ _) as [[p| |q|] w']; try done. cbn [fst reply_ok] in *. unfold lists_no_parts in Hok.
  apply andb_true_iff in Hok as [Hid Hz]. apply negb_true_iff, String.eqb_neq in Hid. apply Z.eqb_eq in Hz. done.
Qed.

(** What a request names in its path does not enter its canonical form twice. *)
Lemma canonicalRequest_path r b k names payload :
  canonicalRequest (with_path_values r b k) names payload = canonicalRequest r names payload.
Proof.
  unfold canonicalRequest. assert (canonical_headers (with_path_values r b k) names = canonical_headers r names) as ->; [|done].
  induction names as [|n names IH]; [done|]. cbn [canonical_headers]. rewrite IH. reflexivity.
Qed.

(** What a request that passed carries: the mark of the one who knows the secret. *)
Definition authentic (r : Request) (now : Z) : Prop :=
  exists auth signedAt canonical,
    parseAuthorization (header_Get (rq_Header r) "Authorization") = Ok auth /\
    au_accessKey auth = AccessKey (ev_creds ev) /\ "host" ∈ au_signedHeaders auth /\
    requestTime (ev_local ev) r = Ok signedAt /\ Z.abs (now - signedAt) <= MaxSkew /\
    canonicalRequest r (au_signedHeaders auth) (header_Get (rq_Header r) "x-amz-content-sha256") = Ok canonical /\
    au_signature auth = signature_of (ev_creds ev) auth signedAt canonical.

(** C5: nothing happens without a signature. A request that changed anything, on any
    disk or in etcd, or was answered with anything but a redirect or an error, carried a
    signature of its own canonical form under the server's secret, no more than fifteen
    minutes old; this holds for every method and path. *)
Theorem ServeHTTP_authenticates (r : Request) (w w' : World) (p : reply) :
  ServeHTTP prefix c ev r w = (p, w') -> (w' = w /\ refuses p = true) \/ authentic r (w_now w).
Proof.
  unfold ServeHTTP. destruct (redirect _ _); [intros [= <- <-]; by left|].
  destruct (match match_path _ with MRoot => _ | _ => _ end) as [b k].
  unfold authed. destruct (Auth.Verify _ _ _ _ _) as [r'|e] eqn:Hv.
  - intros _. right. apply Verify_inv in Hv as (a & t & cn & H1 & H2 & _ & H3 & H4 & H5 & _ & H6 & H7 & _).
    rewrite canonicalRequest_path in H6. exists a, t, cn. exact (conj H1 (conj H2 (conj H3 (conj H4 (conj H5 (conj H6 H7)))))).
  - intros [= <- <-]. left. split; [done|]. eauto with s3.
Qed.
End answers.

(** ** An acknowledged PUT *)

Section puts.
Context {E : Type} `{!Etcd doc E} `{!EtcdLaws doc E} {rs : ReedSolomon} (prefix : string) (c : Coordinator) (ev : Env).
Context (Hscheme : c_scheme c = zeroScheme) (Hc : coordinator_ok c) (Hrnd : plain_elem (ev_rnd ev) = true).
Abbreviation World := (world E).

Lemma fail_status r h e p : error_status (ae_status e) = true -> fail ev r h e = Answered p -> rs_Status p <> StatusOK.
Proof.
  intros He H Hs. pose proof (fail_refuses ev r h e He) as Hr. rewrite H in Hr. cbn in Hr. by rewrite Hs in Hr.
Qed.

Lemma set_sum_other h name encode show sum other : CanonicalHeaderKey name <> CanonicalHeaderKey other ->
  header_Get (set_sum h name encode show sum) other = header_Get h other.
Proof. intros Hn. unfold set_sum. destruct sum, show; try done. by rewrite header_Get_Set_ne. Qed.

(** What [attachTrailingChecksums] leaves alone. *)
Lemma attach_keeps o r : po_ETag (attachTrailingChecksums o r) = po_ETag o /\
  po_Meta (attachTrailingChecksums o r) = po_Meta o /\ po_ContentType (attachTrailingChecksums o r) = po_ContentType o.
Proof.
  unfold attachTrailingChecksums. generalize (announcedTrailers (rq_Header r)). intros l. revert o.
  induction l as [|n l IH]; intros o; [done|]. cbn [foldl].
  repeat case_match; match goal with |- po_ETag (foldl _ ?o' _) = _ /\ _ => exact (IH o') end.
Qed.

(** The object that a PUT of [r]'s body under [key] leaves behind. *)
Definition put_stores (r : Request) (key : string) (w w' : World) (p : Response) : Prop :=
  exists m, object_set prefix w w' key m /\ stored c w' (write_owners c key) (rd_data (rq_Body r)) m /\
    storedMeta (rq_Header r) = Ok (m_Meta m) /\ m_ContentType m = header_Get (rq_Header r) "Content-Type" /\
    m_ETag m = hex_EncodeToString (md5 (rd_data (rq_Body r))) /\ header_Get (rs_Header p) "ETag" = quoted (m_ETag m).

Lemma put_body_stores r key (w w' : World) p : put_body prefix c ev r key w = (Answered p, w') -> rs_Status p = StatusOK ->
  put_stores r key w w' p.
Proof.
  intros H Hok. unfold put_body in H.
  assert (Hf : forall h e w0, error_status (ae_status e) = true -> (fail ev r h e, w0) = (Answered p, w') -> False)
    by (intros h e w0 He [= Hp _]; by eapply fail_status).
  destruct (_ && _); [by apply Hf in H|]. destruct (contentMD5 _) as [digest|]; [|by apply Hf in H].
  destruct (declaredSums _) as [d|]; [|by apply Hf in H]. destruct (storedMeta (rq_Header r)) as [meta|] eqn:Hm; [|by apply Hf in H].
  destruct (Put _ _ _ _ _ _ _) as [[m|e] w1] eqn:Hput; [|by apply Hf in H; eauto with s3].
  injection H as <- <-. exists m. cbn [rs_Header].
  pose proof (Put_described prefix c Hscheme _ _ _ _ _ _ _ Hrnd Hput) as (He & Hct & Hmt).
  destruct (attach_keeps (mk_PutOptions (header_Get (rq_Header r) "Content-Type") "" (rq_ContentLength r) meta digest
                   (ds_crc32c d) None (ds_crc32 d) None (ds_crc64nvme d) None) r) as (Ha & Hb & Hd).
  rewrite Ha in He. rewrite Hd in Hct. rewrite Hb in Hmt.
  apply Put_cases in Hput as (Hset & Hst & _); [|done..]. split; [done|]. split; [done|]. split; [by rewrite Hmt|].
  split; [done|]. split; [done|]. unfold answer_sums. rewrite !set_sum_other by done. by rewrite header_Get_Set.
Qed.

(** C4: a PUT that is answered with 200 is stored. The request was verified; the bytes that came
    out of its body, unframed and checked as its signature says, are the committed object
    under bucket and key, each of its chunks synced on W different owners of the key; its metadata
    and content type are those of the request's headers, the ETag that was answered is
    the MD5 of the bytes, and no other object changed. *)
Theorem ServeHTTP_put_durable (r : Request) (bucket key : string) (w w' : World) (p : Response) :
  rq_Method r = "PUT" -> match_path (rq_EscapedPath r) = MObject bucket key ->
  query_Get (rq_Query r) "uploadId" = "" -> header_Get (rq_Header r) "X-Amz-Copy-Source" = "" ->
  ServeHTTP prefix c ev r w = (Answered p, w') -> rs_Status p = StatusOK ->
  exists r', Auth.Verify (ev_local ev) (ev_reads ev) (with_path_values r bucket key) (ev_creds ev) (w_now w) = Ok r' /\
    NoDup (write_owners c (bucket +:+ "/" +:+ key)) /\ put_stores r' (bucket +:+ "/" +:+ key) w w' p.
Proof.
  intros Hm Hp Hid Hsrc H Hok. unfold ServeHTTP in H. destruct (redirect _ _); [done|].
  rewrite Hp, Hm in H. cbn [existsb String.eqb Ascii.eqb Bool.eqb orb] in H. unfold authed in H.
  assert (Hf : forall r h e w0, error_status (ae_status e) = true -> (fail ev r h e, w0) = (Answered p, w') -> False)
    by (intros r0 h e w0 He [= Hq _]; by eapply fail_status).
  destruct (Auth.Verify _ _ _ _ _) as [r'|e] eqn:Hv; [|by apply Hf in H; eauto with s3]. exists r'. split; [done|].
  apply Verify_inv in Hv as (_ & _ & _ & _ & _ & _ & _ & _ & _ & _ & _ & _ & b & t & sz & Hr').
  repeat (case_match; [by apply Hf in H|]). change (putObject prefix c ev r' w = (Answered p, w')) in H. unfold putObject in H.
  destruct (objectKey r') as [k|] eqn:Hk; [|by apply Hf in H].
  assert (k = bucket +:+ "/" +:+ key) as ->.
  { rewrite Hr' in Hk. unfold objectKey in Hk. cbn in Hk. destruct (_ || _); [done|]. by injection Hk as <-. }
  assert (query_Get (rq_Query r') "uploadId" = "" /\ header_Get (rq_Header r') "X-Amz-Copy-Source" = "") as [Hq Hs]
    by (rewrite Hr'; done).
  rewrite Hq, Hs in H. cbn [String.eqb negb] in H. split; [by apply write_owners_NoDup | by eapply put_body_stores].
Qed.
End puts.

(** ** What a GET sends *)

Fixpoint part_sizes (ps : list Part) : Z := match ps with [] => 0 | p :: ps' => p_Size p + part_sizes ps' end.

(** A manifest as writes and completions make them: its chunks make up its size, and so do
    its parts if it has any. *)
Definition manifest_ok (m : Manifest) : Prop :=
  Forall (fun k => 0 <= c_Size k) (m_Chunks m) /\ sizes (m_Chunks m) = m_Size m /\ m_Size m <= max_int64 /\ 0 <= m_Size m /\
  Forall (fun p => 0 <= p_Size p) (m_Parts m) /\ (m_Parts m <> [] -> part_sizes (m_Parts m) = m_Size m).

Lemma part_sizes_nonneg ps : Forall (fun p => 0 <= p_Size p) ps -> 0 <= part_sizes ps.
Proof. induction 1; cbn; lia. Qed.

Lemma part_window_in ps : Forall (fun p => 0 <= p_Size p) ps -> forall off n, 0 <= off -> off + part_sizes ps <= max_int64 ->
  wn_ok (part_window ps off n) = true ->
  off <= wn_off (part_window ps off n) /\ 0 <= wn_size (part_window ps off n) /\
  wn_off (part_window ps off n) + wn_size (part_window ps off n) <= off + part_sizes ps.
Proof.
  induction 1 as [|p ps Hp Hps IH]; intros off n Hoff Hsum; cbn [part_window part_sizes] in *; [done|].
  pose proof (part_sizes_nonneg ps Hps). destruct (p_Number p =? n); cbn; [lia|].
  rewrite wrap_int64_id by (unfold is_int64, min_int64, max_int64 in *; lia). intros Hok.
  specialize (IH (off + p_Size p) n ltac:(lia) ltac:(lia) Hok). lia.
Qed.

(** What is selected lies inside the object. *)
Lemma select_in r m sl : manifest_ok m -> select r m = inl sl ->
  0 <= sl_off sl /\ 0 <= sl_len sl /\ sl_off sl + sl_len sl <= m_Size m.
Proof.
  intros (_ & _ & Hmax & H0 & Hps & Hsum). unfold select. destruct (query_Has _ _); [|intros [= <-]; cbn; lia].
  destruct (Atoi _) as [n|]; [|done]. destruct (_ || _); [done|]. destruct (wn_ok (partWindow m n)) eqn:Hok; [|done].
  cbn [negb]. intros [= <-]. cbn [sl_off sl_len]. unfold partWindow in *. destruct (m_Parts m) as [|p ps]; [cbn in *; lia|].
  specialize (Hsum ltac:(done)). apply (part_window_in (p :: ps) Hps 0 n) in Hok; lia.
Qed.

Ltac header_lookup := repeat (rewrite header_Get_Set_ne by done); rewrite ?header_Get_Set.

Lemma read_headers_spec r m sl off len :
  header_Get (read_headers r m sl off len).2 "Content-Length" = Itoa len /\
  ((read_headers r m sl off len).1 = StatusOK /\ len = m_Size m \/
   (read_headers r m sl off len).1 = StatusPartialContent /\ len <> m_Size m /\
   header_Get (read_headers r m sl off len).2 "Content-Range" = content_range off len (m_Size m)).
Proof.
  unfold read_headers. set (h0 := header_Set (header_Set _ "Accept-Ranges" _) "Content-Length" (Itoa len)).
  assert (H0 : header_Get h0 "Content-Length" = Itoa len) by (unfold h0; apply header_Get_Set). clearbody h0.
  set (h1 := if String.eqb (m_ContentType m) "" then _ else _).
  assert (H1 : header_Get h1 "Content-Length" = Itoa len) by (unfold h1; destruct (String.eqb _ _); header_lookup; done). clearbody h1.
  set (h2 := match sl_part sl with Some _ => _ | None => _ end).
  assert (H2 : header_Get h2 "Content-Length" = Itoa len).
  { unfold h2, part_sums, object_sums. repeat case_match; header_lookup; rewrite ?set_sum_other by done; done. }
  clearbody h2. set (h3 := if 0 <? sl_count sl then _ else _).
  assert (H3 : header_Get h3 "Content-Length" = Itoa len) by (unfold h3; destruct (0 <? _); header_lookup; done). clearbody h3.
  destruct (Z.eqb_spec len (m_Size m)); cbn [fst snd]; [auto|]. header_lookup. auto.
Qed.

Section gets.
Context {E : Type} `{!Etcd doc E} {rs : ReedSolomon} (prefix : string) (c : Coordinator) (ev : Env).
Abbreviation World := (world E).

(** The bytes of a window, out of data with the checksums the manifest has. *)
Definition vouched (m : Manifest) (off len : Z) (b : bytes) : Prop :=
  exists ds, Forall2 (fun p d => crc32c d = c_CRC p.1.1 /\ p.1.2 + p.2 <= zlen d) (windows off (off + len) 0 (m_Chunks m)) ds /\
    b = concat (map window_bytes (zip (windows off (off + len) 0 (m_Chunks m)) ds)).

Lemma StreamRange_short m off len (w w' : World) err out : manifest_ok m -> 0 <= off -> 0 <= len -> off + len <= m_Size m ->
  StreamRange c m (mk_writer [] (ev_room ev)) off len w = (err, out, w') ->
  zlen (wr_out out) <= len /\ (0 < len -> zlen (wr_out out) = len -> vouched m off len (wr_out out)).
Proof.
  intros (HF & Hs & Hmax & H0 & _) Hoff Hlen Hin H. destruct (Z.eq_dec len 0) as [->|Hne].
  { apply (range_empty one_read (chunk c m) m (fun d => app_nil_r d) HF ltac:(lia)) in H as ->; [|lia..]. cbn. split; [done | lia]. }
  pose proof (range_whole_or_short one_read (chunk c m) m (fun d => app_nil_r d) HF ltac:(lia) _ out off len w w' err Hoff ltac:(lia)
    (conj Hin Hmax) H) as Hl.
  cbn [wr_out] in Hl. change (zlen (@nil byte)) with 0 in Hl. destruct err as [e|]; [lia|]. destruct Hl as [Hl _]. split; [lia|]. intros _ _.
  apply StreamRange_sources in H as (ds & Hds & Hout); try done; try lia. by exists ds.
Qed.

(** C10: a GET of an object sends what it says. Take a manifest whose chunks, and parts if it
    has any, make up its size. For any [partNumber], any conditions and any [Range] but one
    whose last byte is the largest 64-bit number, if the answer carries bytes they are of a
    window inside the object; [Content-Length] is the window's length, the status is 200
    when the window is the whole object and otherwise 206 with the window in
    [Content-Range]; never more bytes are sent than announced, none for an empty window, and
    when as many are, every one of them came from chunks with the manifest's checksums. *)
Theorem read_object_sends (r : Request) (key : string) (w w1 w' : World) (m : Manifest) (p : Response) (b : bytes) :
  Resolve prefix key w = (Ok m, w1) -> manifest_ok m ->
  (forall first last, header_Get (rq_Header r) "Range" = "bytes=" +:+ first +:+ "-" +:+ last -> ParseInt last 10 <> Some max_int64) ->
  read_object prefix c ev r key w = (Answered p, w') -> rs_Body p = Stream b ->
  exists off len, 0 <= off /\ 0 <= len /\ off + len <= m_Size m /\
    header_Get (rs_Header p) "Content-Length" = Itoa len /\
    (rs_Status p = StatusOK /\ len = m_Size m \/
     rs_Status p = StatusPartialContent /\ len <> m_Size m /\
     header_Get (rs_Header p) "Content-Range" = content_range off len (m_Size m)) /\
    zlen b <= len /\ (0 < len -> zlen b = len -> vouched m off len b).
Proof.
  intros Hr Hm Hrange H Hb. unfold read_object in H. rewrite Hr in H.
  assert (Hf : forall h e w0, (fail ev r h e, w0) = (Answered p, w') -> False).
  { intros h e w0 [= Hp _]. unfold fail in Hp. destruct (ev_marshal _ _); injection Hp as <-; [|done].
    cbn in Hb. by destruct (is_head r). }
  destruct (precondition _ _ _) as [st ok]. destruct (negb ok).
  { destruct (st =? _); [by injection H as <- _ | by apply Hf in H]. }
  destruct (select r m) as [sl|e] eqn:Hsel; [|by apply Hf in H]. apply (select_in r m sl Hm) in Hsel as (Ho & Hl & Hin).
  destruct (parseRange _ _) as [[rel len]|e] eqn:Hpr; [|by apply Hf in H].
  assert (Hmax : m_Size m <= max_int64) by apply Hm.
  apply parseRange_window in Hpr as [(Hrel & Hlen & Hle)|(first & last & Hh & Hlast & _)];
    [|by specialize (Hrange first last Hh)|lia].
  rewrite wrap_int64_id in H by (unfold is_int64, min_int64, max_int64 in *; lia).
  pose proof (read_headers_spec r m sl (sl_off sl + rel) len) as [Hcl Hst].
  destruct (read_headers r m sl (sl_off sl + rel) len) as [status h] eqn:Hrh. cbn [fst snd] in Hcl, Hst.
  destruct (is_head r); [by injection H as <- _|].
  destruct (StreamRange _ _ _ _ _ _) as [[err out] w2] eqn:Hsr. injection H as <- _. cbn in Hb. injection Hb as <-.
  exists (sl_off sl + rel), len. cbn [rs_Header rs_Status]. split; [lia|]. split; [lia|]. split; [lia|]. split; [done|]. split; [done|].
  eapply StreamRange_short; try done; lia.
Qed.
End gets.

(** ** Reads change nothing *)

Section reads.
Context {E : Type} `{!Etcd doc E} `{!EtcdLaws doc E} {rs : ReedSolomon} (prefix : string) (c : Coordinator) (ev : Env).
Abbreviation World := (world E).

(** No file and no record has changed. *)
Definition unchanged (w w' : World) : Prop := w_stores w' = w_stores w /\ same_state w w'.

#[local] Instance unchanged_preorder : PreOrder unchanged.
Proof. split; [done | intros ??? [? ?] [? ?]; unfold unchanged, same_state in *; split; congruence]. Qed.

Lemma on_meta_unchanged {A} (op : E -> res A * E) (w w' : World) r :
  (forall e r e', op e = (r, e') -> e_state e' = e_state e) -> on_meta op w = (r, w') -> unchanged w w'.
Proof.
  intros Hop. unfold on_meta. destruct (op (w_etcd w)) as [r0 e] eqn:He. intros [= _ <-]. split; [done|]. by apply Hop in He.
Qed.

Lemma Resolve_unchanged key (w w' : World) r : Resolve prefix key w = (r, w') -> unchanged w w'.
Proof. apply on_meta_unchanged. intros e x e' H. by apply Get_spec in H as [? _]. Qed.

Lemma ClusterUploads_unchanged pre after limit (w w' : World) r : ClusterUploads prefix pre after limit w = (r, w') -> unchanged w w'.
Proof.
  apply on_meta_unchanged. intros e x e'. unfold Uploads, st_bind, st_ret.
  destruct (sle _ _); [by intros [= _ <-]|]. destruct (e_range _ _ _ e) as [[y|err] e1] eqn:Hr; intros [= _ <-]; by apply e_range_law in Hr as [? _].
Qed.

Lemma ClusterParts_unchanged id (w w' : World) r : ClusterParts prefix id w = (r, w') -> unchanged w w'.
Proof.
  unfold ClusterParts. destruct (on_meta (GetUpload prefix id) w) as [[u|e] w1] eqn:H1;
    (apply on_meta_unchanged in H1; [|by intros e0 x e0' [? _]%GetUpload_spec]); [|by intros [= _ <-]].
  destruct (on_meta (Parts prefix id) w1) as [x w2] eqn:H2. apply on_meta_unchanged in H2; [|intros e0 y e0'; apply Parts_state].
  destruct x; intros [= _ <-]; by etransitivity.
Qed.

Lemma ClusterList_unchanged req (w w' : World) r : lr_Limit req < max_int64 -> ClusterList prefix req w = (r, w') -> unchanged w w'.
Proof.
  intros Hlim. unfold ClusterList. destruct (List prefix req (w_etcd w)) as [[x e]|] eqn:HL; intros [= _ <-]; [|done].
  split; [done|]. destruct (Z.leb_spec (lr_Limit req) 0) as [Hz|Hz]; [|by apply List_state in HL].
  unfold List in HL. apply Z.leb_le in Hz. rewrite Hz in HL. by injection HL as _ <-.
Qed.

Lemma bucket_page_unchanged r from n (w w' : World) x : maxKeysOf (rq_Query r) = Some n ->
  bucket_page prefix r from n w = (x, w') -> unchanged w w'.
Proof.
  intros Hn%maxKeysOf_range. unfold bucket_page. destruct (0 <? n); [|by intros [= _ <-]].
  apply ClusterList_unchanged. cbn. unfold maxKeysLimit, max_int64 in *. lia.
Qed.

Lemma listObjects_unchanged r (w : World) : unchanged w (listObjects prefix ev r w).2.
Proof.
  unfold listObjects, listUploads, listVersions, bucketLocation. destruct (query_Has _ "uploads").
  { destruct (ClusterUploads _ _ _ _ _) as [[[us more]|e] w1] eqn:H; apply ClusterUploads_unchanged in H; [|done].
    by destruct (match last _ with Some _ => _ | None => _ end). }
  destruct (query_Has _ "versions").
  { destruct (maxKeysOf _) as [n|] eqn:Hn; [|done].
    destruct (bucket_page _ _ _ _ _) as [[p|e] w1] eqn:H; by apply bucket_page_unchanged in H. }
  destruct (query_Has _ "location"); [done|]. destruct (_ && _ && _); [done|]. destruct (negb _); [done|].
  destruct (maxKeysOf _) as [n|] eqn:Hn; [|done]. destruct (list_from _); [|done].
  destruct (bucket_page _ _ _ _ _) as [[p|e] w1] eqn:H; by apply bucket_page_unchanged in H.
Qed.

Lemma read_object_unchanged r key (w : World) : unchanged w (read_object prefix c ev r key w).2.
Proof.
  unfold read_object. destruct (Resolve prefix key w) as [[m|e] w1] eqn:Hr; apply Resolve_unchanged in Hr; [|done].
  destruct (precondition _ _ _) as [st ok]. destruct (negb ok); [by destruct (st =? _)|].
  destruct (select r m); [|done]. destruct (parseRange _ _) as [[rel len]|]; [|done].
  destruct (read_headers _ _ _ _ _). destruct (is_head r); [done|].
  destruct (StreamRange _ _ _ _ _ _) as [[err out] w2] eqn:Hs. apply StreamRange_world in Hs as [Hst He]. cbn [snd].
  etransitivity; [exact Hr|]. split; [done|]. unfold same_state. by rewrite He.
Qed.

Lemma getObject_unchanged r (w : World) : unchanged w (getObject prefix c ev r w).2.
Proof.
  unfold getObject. destruct (objectKey r) as [key|]; [|destruct (is_head r); [done | apply listObjects_unchanged]].
  destruct (query_Has _ _).
  { unfold objectTagging. destruct (Resolve prefix key w) as [[m|e] w1] eqn:Hr; by apply Resolve_unchanged in Hr. }
  destruct (negb _); [|apply read_object_unchanged]. unfold listParts.
  destruct (ClusterParts _ _ _) as [[ps|e] w1] eqn:Hp; apply ClusterParts_unchanged in Hp; [|done].
  by destruct (list_parts _ _ _ _) as [[[? ?] ?]|].
Qed.

Lemma listBuckets_unchanged r (w : World) : unchanged w (listBuckets prefix ev r w).2.
Proof.
  assert (Hp : forall fuel from acc (w w' : World) x, bucket_pages prefix fuel from acc w = (x, w') -> unchanged w w').
  { induction fuel as [|fuel IH]; intros from acc w0 w' x; cbn [bucket_pages]; [by intros [= _ <-]|].
    destruct (ClusterList _ _ w0) as [[p|e] w1] eqn:HL; (apply ClusterList_unchanged in HL; [|done]); [|by intros [= _ <-]].
    destruct (String.eqb _ _); [by intros [= _ <-]|]. intros H%IH. by etransitivity. }
  unfold listBuckets. destruct (bucket_pages _ _ _ _ _) as [[[l|e]|] w1] eqn:H; by apply Hp in H.
Qed.

(** Reads change nothing. A GET or HEAD of any path, whatever it asks for and however it
    ends, leaves every file on every disk and every record in etcd as it was. *)
Theorem ServeHTTP_reads_only (r : Request) (w : World) : rq_Method r = "GET" \/ rq_Method r = "HEAD" ->
  unchanged w (ServeHTTP prefix c ev r w).2.
Proof.
  intros Hm. unfold ServeHTTP. destruct (redirect _ _); [done|]. destruct (match match_path _ with MRoot => _ | _ => _ end) as [b k].
  unfold authed. destruct (Auth.Verify _ _ _ _ _) as [r'|e]; [|done]. repeat (case_match; [done|]).
  destruct (match_path _); cbn [route]; destruct Hm as [-> | ->]; cbn [String.eqb Ascii.eqb Bool.eqb orb];
    auto using getObject_unchanged, listObjects_unchanged, listBuckets_unchanged; done.
Qed.
End reads.

(** ** At concrete inputs *)

Definition demo_at (t : Z) : world demoE := mk_world {["a1" := empty_fs; "a2" := empty_fs]} demo0 [] 0 t.

(** A PUT whose body is framed in chunks and stops two bytes into the first of five. *)
Definition demo_stream (auth : string) : Request :=
  mk_Request "PUT" "localhost" "/b/k" ∅
    (<["Authorization" := [auth]]> {["X-Amz-Date" := ["20130524T000000Z"]; "X-Amz-Content-Sha256" := [unsignedTrl];
                                      "X-Amz-Decoded-Content-Length" := ["5"]]})
    5 [] (mk_reader (to_bytes "5" ++ crlf ++ to_bytes "he") None) "b" "k" ∅.

Definition demo_stream_canonical : string :=
  Eval vm_compute in match canonicalRequest (demo_stream "") demo_names unsignedTrl with Ok c => c | Err _ => "" end.

Definition demo_stream_auth : authorization :=
  demo_auth (signature_of demo_creds (demo_auth "") demo_time demo_stream_canonical).

(** What its handler reads: the two bytes, and an error. *)
Definition demo_cut_body : reader := (chunked_body demo_reads (rq_Body (demo_stream "")) None).1.

Example demo_cut_end : rd_data demo_cut_body = to_bytes "he" /\ rd_end demo_cut_body = Some [ErrPayload; EOF].
Proof. vm_compute. split; reflexivity. Qed.

(** What [authed] lets through to a write of an object. *)
Definition passes (r : Request) : bool :=
  negb (encryptionRequested (rq_Header r) || taggingRequested (rq_Header r) || checksumRefused r) &&
  forallb (fun name => knownObjectQuery (rq_Method r) name (query_Get (rq_Query r) name)) (header_names (rq_Query r)) &&
  String.eqb (query_Get (rq_Query r) "uploadId") "" && String.eqb (header_Get (rq_Header r) "X-Amz-Copy-Source") "" &&
  bool_decide (objectKey r = Some "b/k").

Lemma demo_serves r r' (w : world demoE) : rq_Method r = "PUT" -> rq_EscapedPath r = "/b/k" ->
  Auth.Verify (ev_local demo_ev) (ev_reads demo_ev) (with_path_values r "b" "k") (ev_creds demo_ev) (w_now w) = Ok r' ->
  passes r' = true ->
  @ServeHTTP demoE _ xor_codec "/kavo" demo_c demo_ev r w = @put_body demoE _ xor_codec "/kavo" demo_c demo_ev r' "b/k" w.
Proof.
  intros Hm Hp Hv Hpass. unfold ServeHTTP. rewrite Hp, Hm. change (redirect "PUT" "/b/k") with (@None string). cbv iota.
  change (match_path "/b/k") with (MObject "b" "k"). cbn [String.eqb Ascii.eqb Bool.eqb negb existsb orb].
  unfold authed. rewrite Hv. unfold passes in Hpass.
  apply andb_true_iff in Hpass as [Hpass Hk]. apply bool_decide_eq_true in Hk.
  apply andb_true_iff in Hpass as [Hpass Hs]. apply andb_true_iff in Hpass as [Hpass Hid]. apply andb_true_iff in Hpass as [He Hq].
  apply negb_true_iff, orb_false_iff in He as [He Hc]. apply orb_false_iff in He as [He Ht].
  rewrite He, Ht, Hc, Hq, andb_false_r. change (@putObject demoE _ xor_codec "/kavo" demo_c demo_ev r' w =
    @put_body demoE _ xor_codec "/kavo" demo_c demo_ev r' "b/k" w).
  unfold putObject. by rewrite Hk, Hid, Hs.
Qed.

Lemma demo_put_verified :
  Auth.Verify (ev_local demo_ev) (ev_reads demo_ev) (with_path_values demo_signed "b" "k") (ev_creds demo_ev) demo_time
  = Ok (with_body demo_signed (mk_reader (to_bytes "hi") None) ∅ 2).
Proof. exact demo_verified. Qed.

(** Nothing below depends on what the signature is. *)
Lemma demo_put_answer auth :
  passes (with_body (Auth.demo_put auth) (mk_reader (to_bytes "hi") None) ∅ 2) = true /\
  match @put_body demoE _ xor_codec "/kavo" demo_c demo_ev (with_body (Auth.demo_put auth) (mk_reader (to_bytes "hi") None) ∅ 2)
          "b/k" (demo_at demo_time) with
  | (Answered p, _) => rs_Status p =? StatusOK
  | _ => false
  end = true.
Proof. split; vm_compute; reflexivity. Qed.

Lemma ServeHTTP_put_durable_witness : exists p w',
  @ServeHTTP demoE _ xor_codec "/kavo" demo_c demo_ev demo_signed (demo_at demo_time) = (Answered p, w') /\
  exists r', put_stores "/kavo" demo_c r' "b/k" (demo_at demo_time) w' p.
Proof.
  destruct (demo_put_answer (auth_header (demo_auth demo_signature))) as [Hp Ha]. fold demo_signed in Hp, Ha.
  pose proof (demo_serves demo_signed _ (demo_at demo_time) eq_refl eq_refl demo_put_verified Hp) as Hs.
  destruct (put_body _ _ _ _ _ _) as [[p| | |] w'] eqn:Hb; try discriminate Ha. exists p, w'. split; [exact Hs|].
  destruct (@ServeHTTP_put_durable demoE _ _ xor_codec "/kavo" demo_c demo_ev eq_refl demo_c_ok eq_refl demo_signed "b" "k"
    (demo_at demo_time) w' p eq_refl eq_refl eq_refl eq_refl Hs (proj1 (Z.eqb_eq _ _) Ha)) as (r' & _ & _ & H).
  exists r'. exact H.
Defined.

Lemma ServeHTTP_authenticates_witness : exists p w',
  @ServeHTTP demoE _ xor_codec "/kavo" demo_c demo_ev demo_signed (demo_at demo_time) = (p, w') /\
  ((w' = demo_at demo_time /\ refuses p = true) \/ authentic demo_ev demo_signed demo_time).
Proof.
  destruct (@ServeHTTP demoE _ xor_codec "/kavo" demo_c demo_ev demo_signed (demo_at demo_time)) as [p w'] eqn:H.
  exists p, w'. split; [reflexivity|].
  exact (@ServeHTTP_authenticates demoE _ xor_codec "/kavo" demo_c demo_ev demo_signed (demo_at demo_time) w' p H).
Defined.

Definition demo_stream_signed : Request := demo_stream (auth_header demo_stream_auth).

Lemma demo_stream_canonical_ok auth : canonicalRequest (demo_stream auth) demo_names unsignedTrl = Ok demo_stream_canonical.
Proof. reflexivity. Qed.

#[local] Strategy 1000 [sign signingKey sha256hex stringToSign hmacSHA256 sha256].

Lemma demo_stream_verified :
  Auth.Verify (ev_local demo_ev) (ev_reads demo_ev) (with_path_values demo_stream_signed "b" "k") (ev_creds demo_ev) demo_time
  = Ok (with_body demo_stream_signed demo_cut_body ∅ 5).
Proof.
  apply (Verify_signed_body (ev_local demo_ev) (ev_reads demo_ev) demo_stream_signed (ev_creds demo_ev) demo_stream_auth
    demo_time demo_time demo_stream_canonical demo_cut_body ∅ 5 (demo_auth_ok _ _ _) demo_years_ok eq_refl eq_refl eq_refl eq_refl
    demo_recent eq_refl eq_refl (demo_stream_canonical_ok _) eq_refl).
  unfold verifiedBody. change (payload_of demo_stream_signed) with unsignedTrl. generalize (key_of (ev_creds demo_ev) demo_stream_auth).
  intros k. vm_compute. reflexivity.
Qed.

Lemma demo_stream_answer auth :
  passes (with_body (demo_stream auth) demo_cut_body ∅ 5) = true /\
  match @put_body demoE _ xor_codec "/kavo" demo_c demo_ev (with_body (demo_stream auth) demo_cut_body ∅ 5) "b/k" (demo_at demo_time) with
  | (Answered p, w') => (rs_Status p =? StatusOK) && match kv_value <$> es_kvs (e_state (w_etcd w')) !! key "/kavo" "b/k" with
                                                    | Some (DManifest m) => m_Size m =? 2
                                                    | _ => false
                                                    end
  | _ => false
  end = true.
Proof. split; vm_compute; reflexivity. Qed.

(** C36: an upload that was cut short is acknowledged. A client signs the PUT of a streamed body
    of five bytes and its connection ends two bytes into the first chunk. The reader of
    the chunks reports that the body ended early, and the reader of the object takes the
    end of file inside that report for the end of the object: the answer is 200, and
    what is committed under the key is the two bytes. *)
Theorem truncated_upload_acknowledged : exists auth p w' m,
  rd_data (rq_Body (demo_stream auth)) = to_bytes "5" ++ crlf ++ to_bytes "he" /\
  header_Get (rq_Header (demo_stream auth)) "x-amz-decoded-content-length" = "5" /\
  @ServeHTTP demoE _ xor_codec "/kavo" demo_c demo_ev (demo_stream auth) (demo_at demo_time) = (Answered p, w') /\
  rs_Status p = StatusOK /\
  kv_value <$> es_kvs (e_state (w_etcd w')) !! key "/kavo" "b/k" = Some (DManifest m) /\ m_Size m = 2.
Proof.
  exists (auth_header demo_stream_auth). destruct (demo_stream_answer (auth_header demo_stream_auth)) as [Hp Ha].
  fold demo_stream_signed in Hp, Ha |- *.
  pose proof (demo_serves demo_stream_signed _ (demo_at demo_time) eq_refl eq_refl demo_stream_verified Hp) as Hs.
  destruct (put_body _ _ _ _ _ _) as [[p| | |] w']; try discriminate Ha. apply andb_true_iff in Ha as [H1 H2].
  destruct (kv_value <$> es_kvs (e_state (w_etcd w')) !! key "/kavo" "b/k") as [[m| | |]|] eqn:Hm; try discriminate H2.
  exists p, w', m. apply Z.eqb_eq in H1, H2. split_and!; [reflexivity | reflexivity | exact Hs | exact H1 | exact Hm | exact H2].
Qed.

(** Three bytes from the middle of an object of two chunks. *)
Definition demo_range : Request := demo_request "GET" "/b/k" "b" "k" ∅ {["Range" := ["bytes=1-3"]]} "".
Abbreviation demo_stored :=
  (@Put demoE _ xor_codec "/kavo" demo_c "b/k" (mk_reader (to_bytes "hello") None) demo_opts "P" (demo_w [])).2 (only parsing).

Definition manifest_okb (m : Manifest) : bool :=
  forallb (fun k => 0 <=? c_Size k) (m_Chunks m) && (sizes (m_Chunks m) =? m_Size m) && (m_Size m <=? max_int64) && (0 <=? m_Size m) &&
  match m_Parts m with [] => true | _ => false end.

Lemma manifest_okb_ok m : manifest_okb m = true -> manifest_ok m.
Proof.
  unfold manifest_okb, manifest_ok. destruct (m_Parts m); [|by rewrite andb_false_r]. rewrite !andb_true_iff.
  intros ((((H1 & H2) & H3) & H4) & _). apply Z.eqb_eq in H2. apply Z.leb_le in H3, H4. split_and!; try done.
  apply Forall_forall. intros k Hk. rewrite forallb_forall in H1. by apply Z.leb_le, H1, list_elem_of_In.
Qed.

Lemma demo_last_byte first last : "bytes=1-3" = "bytes=" +:+ first +:+ "-" +:+ last -> ParseInt last 10 <> Some max_int64.
Proof.
  intros H. apply (sapp_inj_l "bytes=" "1-3") in H.
  destruct first as [|a [|b [|d first]]]; [discriminate H| |discriminate H|].
  - injection H as _ <-. intros H'. discriminate H'.
  - injection H as _ _ _ H. by destruct first.
Qed.

Lemma read_object_sends_witness : exists p w' off len,
  @read_object demoE _ xor_codec "/kavo" demo_c demo_ev demo_range "b/k" demo_stored = (Answered p, w') /\
  header_Get (rs_Header p) "Content-Length" = Itoa len /\ 0 <= off.
Proof.
  assert (Hm : match (@Resolve demoE _ "/kavo" "b/k" demo_stored).1 with Ok m => manifest_okb m | Err _ => false end = true)
    by (vm_compute; reflexivity).
  assert (Hb : match (@read_object demoE _ xor_codec "/kavo" demo_c demo_ev demo_range "b/k" demo_stored).1 with
               | Answered p => match rs_Body p with Stream b => bool_decide (b = to_bytes "ell") | _ => false end
               | _ => false end = true) by (vm_compute; reflexivity).
  destruct (@Resolve demoE _ "/kavo" "b/k" demo_stored) as [[m|e] w1] eqn:Hr; [|discriminate Hm].
  destruct (@read_object demoE _ xor_codec "/kavo" demo_c demo_ev demo_range "b/k" demo_stored) as [[p| | |] w'] eqn:Ho;
    try discriminate Hb.
  cbn [fst] in Hm, Hb. destruct (rs_Body p) as [|d|t|b] eqn:Hp; try discriminate Hb.
  destruct (@read_object_sends demoE _ xor_codec "/kavo" demo_c demo_ev demo_range "b/k" demo_stored w1 w' m p b Hr (manifest_okb_ok m Hm)
    demo_last_byte Ho Hp) as (off & len & H1 & _ & _ & H2 & _).
  exists p, w', off, len. split; [reflexivity|]. split; [exact H2 | exact H1].
Defined.

Lemma ServeHTTP_reads_only_witness :
  unchanged (demo_at demo_time) (@ServeHTTP demoE _ xor_codec "/kavo" demo_c demo_ev demo_range (demo_at demo_time)).2.
Proof. apply (@ServeHTTP_reads_only demoE _ _ xor_codec "/kavo" demo_c demo_ev demo_range (demo_at demo_time)). left. reflexivity. Defined.

(** A path with a doubled slash is redirected; an unsigned request is answered. *)
Definition demo_unclean : Request := demo_request "GET" "//b/k" "" "" ∅ ∅ "".
Definition demo_unsigned : Request := demo_request "GET" "/b/k" "" "" ∅ ∅ "".

Lemma ServeHTTP_wellformed_witness :
  @ServeHTTP demoE _ xor_codec "/kavo" demo_c demo_ev demo_unclean (demo_at demo_time) = (Redirected "/b/k", demo_at demo_time) /\
  exists p, (@ServeHTTP demoE _ xor_codec "/kavo" demo_c demo_ev demo_unsigned (demo_at demo_time)).1 = Answered p /\
    response_ok demo_unsigned p = true.
Proof.
  assert (Hf : fuel_enough "/kavo" demo_ev (demo_at demo_time)) by (vm_compute; reflexivity). split.
  - exact (@ServeHTTP_wellformed demoE _ _ xor_codec "/kavo" demo_c demo_ev demo_unclean (demo_at demo_time) Hf).
  - pose proof (@ServeHTTP_wellformed demoE _ _ xor_codec "/kavo" demo_c demo_ev demo_unsigned (demo_at demo_time) Hf) as H.
    change (redirect (rq_Method demo_unsigned) (rq_EscapedPath demo_unsigned)) with (@None string) in H. cbv iota in H.
    destruct (@ServeHTTP demoE _ xor_codec "/kavo" demo_c demo_ev demo_unsigned (demo_at demo_time)).1 as [p| |q|].
    + exists p. split; [reflexivity | exact H].
    + destruct H as [H _]. destruct H. reflexivity.
    + destruct H.
    + destruct H.
Defined.
