(* ===== verification/Kavod.v ===== *)
(** * One node: [cmd/kavod/main.go] and the routes of [internal/api/api.go]

    [main] puts a node together from its flags: it refuses a configuration that could
    not work before it tells the cluster about itself, joins, waits for the membership,
    and only then serves. [New] of [internal/api] says which handler a request from
    another node reaches. Of Go's standard library this uses [net.SplitHostPort],
    [fmt.Sscanf] with the format of [parseScheme], and the patterns of [http.ServeMux]. *)

From S2P Require Import Prelude GoStr Strconv Path Text Ring Ec Object Sigv4 Chunked Store Etcd Meta Node Cluster Members Collect Loops S3 S3Object.

(** ** [net.SplitHostPort] *)

Fixpoint last_index (c : byte) (s : string) : option nat :=
  match s with
  | EmptyString => None
  | String d s' => match last_index c s' with
                   | Some n => Some (S n)
                   | None => if Ascii.eqb d c then Some O else None
                   end
  end.

(** The port starts after the last colon; a host with colons is in brackets. *)
Definition SplitHostPort (hostport : string) : res (string * string) :=
  match last_index ":" hostport with
  | None => Err errors_New
  | Some i =>
      let split host j k :=
        if Contains (sdrop j hostport) "[" then Err errors_New
        else if Contains (sdrop k hostport) "]" then Err errors_New
        else Ok (host, sdrop (S i) hostport) in
      if HasPrefix hostport "[" then
        match IndexByte hostport "]" with
        | None => Err errors_New
        | Some e => if Nat.eqb (S e) i then split (stake (e - 1) (sdrop 1 hostport)) 1%nat (S e) else Err errors_New
        end
      else
        let host := stake i hostport in
        if Contains host ":" then Err errors_New else split host 0%nat 0%nat
  end.

(** ** [fmt.Sscanf(s, "%d+%d", ...)] *)

(** The spaces [fmt] knows beside those of ASCII, as they are encoded. *)
Definition wide_spaces : list string :=
  map of_bytes (map (map byte_of)
    ([[194; 133]; [194; 160]; [225; 154; 128]] ++ map (fun i => [226; 128; 128 + Z.of_nat i]) (seq 0 11) ++
     [[226; 128; 168]; [226; 128; 169]; [226; 128; 175]; [226; 129; 159]; [227; 128; 128]])).

(** How many bytes of space [s] starts with. *)
Definition space_len (s : string) : nat :=
  match s with
  | EmptyString => 0
  | String c _ =>
      let n := byteZ c in
      if (n =? 32) || ((9 <=? n) && (n <=? 13)) then 1
      else match list_find (fun w => HasPrefix s w = true) wide_spaces with
           | Some (_, w) => slen w
           | None => 0
           end
  end.

(** [SkipSpace]: a newline ends the input, which is an error here. *)
Fixpoint skip_space (fuel : nat) (s : string) : option string :=
  match fuel with
  | O => None
  | S fuel' =>
      if HasPrefix s (String (byte_of 10) "") then None
      else match space_len s with
           | O => Some s
           | n => skip_space fuel' (sdrop n s)
           end
  end.

Definition is_dec (c : byte) : bool := (48 <=? byteZ c) && (byteZ c <=? 57).

Fixpoint span_digits (s : string) : string * string :=
  match s with
  | String c s' => if is_dec c then let '(a, b) := span_digits s' in (String c a, b) else ("", s)
  | EmptyString => ("", "")
  end.

(** [%d] into an [int]: space, a sign, digits. What follows is left. *)
Definition scan_int (s : string) : option (Z * string) :=
  match skip_space (S (slen s)) s with
  | None => None
  | Some s1 =>
      let '(sign, s2) := match s1 with
                         | String c s' => if Ascii.eqb c "+" || Ascii.eqb c "-" then (String c "", s') else ("", s1)
                         | EmptyString => ("", s1)
                         end in
      let '(digits, rest) := span_digits s2 in
      if String.eqb digits "" then None
      else match ParseInt (sign +:+ digits) 10 with Some n => Some (n, rest) | None => None end
  end.

(** [parseScheme]. The format is at its end after the second number, so what is left of
    the input is not looked at. *)
Definition parseScheme (s : string) : res Scheme :=
  if String.eqb s "" then Ok zeroScheme
  else
    match scan_int s with
    | Some (d, String c s1) =>
        if Ascii.eqb c "+" then
          match scan_int s1 with Some (p, _) => Ok (mk_Scheme d p) | None => Err errors_New end
        else Err errors_New
    | _ => Err errors_New
    end.

Example parse_6_3 : parseScheme "6+3" = Ok (mk_Scheme 6 3).
Proof. reflexivity. Qed.
Example parse_spaced : parseScheme " 6+ 3" = Ok (mk_Scheme 6 3).
Proof. reflexivity. Qed.
Example parse_space_before_plus : parseScheme "6 +3" = Err errors_New.
Proof. reflexivity. Qed.
Example split_v6 : SplitHostPort "[::1]:80" = Ok ("::1", "80").
Proof. reflexivity. Qed.
Example split_bind : SplitHostPort ":8080" = Ok ("", "8080").
Proof. reflexivity. Qed.

(** ** The internal API *)

(** Where a node reaches a chunk on another ([chunkURL] of [internal/peer]). *)
Definition chunkPathURL (id : string) : string := "/peer/chunks/" +:+ id.
Definition chunkURL (addr id : string) : string := "http://" +:+ addr +:+ chunkPathURL id.

(** The handlers of [New], and what the mux answers by itself. *)
Inductive api_route :=
  | RPutObject (key : string)
  | RGetObject (key : string)
  | RPutChunk (id : string)
  | RGetChunk (id : string)
  | RHeadChunk (id : string)
  | RCheckChunks
  | RMembers
  | RRedirect (path : string)
  | RMethodNotAllowed
  | RNotFound.

(** The patterns of [New]. Segments are compared unescaped, a pattern for GET also takes
    HEAD where HEAD has none of its own, a path that is not clean is redirected, except of
    CONNECT, and so is [/objects] for the methods [/objects/] takes. *)
Definition api_New (method p : string) : api_route :=
  let q := if String.eqb method "CONNECT" then p else cleanPath p in
  if negb (String.eqb q p) then RRedirect q
  else
    let isM m := String.eqb method m in
    match splitc "/" q with
    | _ :: s1 :: rest =>
        let first := path_value s1 in
        if String.eqb first "objects" then
          if negb (isM "PUT" || isM "GET" || isM "HEAD") then RMethodNotAllowed
          else match rest with
               | [] => RRedirect (q +:+ "/")
               | _ => let key := path_value (join_slash rest) in if isM "PUT" then RPutObject key else RGetObject key
               end
        else match rest with
        | [s2; s3] =>
            if String.eqb first "peer" && String.eqb (path_value s2) "chunks" && negb (String.eqb s3 "") then
              let id := path_value s3 in
              if isM "PUT" then RPutChunk id
              else if isM "GET" then RGetChunk id
              else if isM "HEAD" then RHeadChunk id
              else if isM "POST" && String.eqb id "check" then RCheckChunks
              else RMethodNotAllowed
            else RNotFound
        | [s2] =>
            if String.eqb first "cluster" && String.eqb (path_value s2) "members" then
              if isM "GET" || isM "HEAD" then RMembers else RMethodNotAllowed
            else RNotFound
        | _ => RNotFound
        end
    | _ => RNotFound
    end.

(** [members]: the view of the cluster, as the document it is encoded to. *)
Definition api_members (c : Coordinator) : gmap string string := Members c.

Example route_check : api_New "POST" "/peer/chunks/check" = RCheckChunks.
Proof. reflexivity. Qed.
Example route_object : api_New "PUT" "/objects/a/b" = RPutObject "a/b".
Proof. reflexivity. Qed.

(** ** Start-up *)

(** The flags, in the order of [main]; durations are nanoseconds. *)
Record flags := mk_flags {
  fl_id : string;
  fl_addr : string;
  fl_s3Addr : string;
  fl_accessKey : string;
  fl_secretKey : string;
  fl_advertise : string;
  fl_dataDir : string;
  fl_chunkSize : Z;
  fl_quorum : Z;
  fl_etcd : string;
  fl_prefix : string;
  fl_leaseTTL : Z;
  fl_repairRate : Z;
  fl_repairInterval : Z;
  fl_rebalanceInterval : Z;
  fl_scrubInterval : Z;
  fl_collectInterval : Z;
  fl_collectGrace : Z;
  fl_erasure : string
}.

Definition DefaultEndpoint : string := "127.0.0.1:2379".

(** [EndpointFromEnv]; [env] is the value of [KAVO_ETCD]. *)
Definition EndpointFromEnv (env : string) : string := cmp_Or env DefaultEndpoint.

Definition default_flags (env : string) : flags :=
  mk_flags "n1" ":8080" ":9000" "kavo" "kavosecret" "" "./data" DefaultChunkSize DefaultWriteQuorum (EndpointFromEnv env)
    "/kavo" DefaultLeaseTTL DefaultRepairRate DefaultRepairInterval DefaultRebalanceInterval DefaultScrubInterval
    DefaultCollectInterval DefaultCollectGrace "".

(** What ends the process, in the order it is checked. *)
Inductive fatal :=
  | NoHost (self : string)
  | StoreUnopened (e : error)
  | MetaUnopened (e : error)
  | BadScheme (e : error)
  | SchemeRefused (e : error)
  | QuorumRefused (e : error)
  | JoinFailed (e : error)
  | NoMembership (within_ : Z).

(** What runs beside the listeners, and the listeners. *)
Inductive goroutine :=
  | GoMembers
  | GoRepairLoop (rate interval : Z)
  | GoScrubLoop (rate interval : Z)
  | GoRebalanceLoop (rate interval : Z)
  | GoCollectLoop (grace interval : Z)
  | GoInternalAPI (addr : string).

Record serving := mk_serving {
  sv_coordinator : Coordinator;
  sv_store : FS;
  sv_goroutines : list goroutine;
  sv_s3Addr : string;
  sv_creds : Credentials
}.

Section main.
Context {E : Type} `{!Etcd doc E}.

(** The wait for the first membership: the events of the watch up to the first copy that
    is handed over, or to the moment the timer fires. A closed channel yields no members. *)
Fixpoint await (prefix : string) (evs : list watch_event) (s : vstate (E := E)) : option (option (gmap string string) * vstate) :=
  match v_consumer s, v_pc s with
  | CSet peers, _ => Some (Some peers, s)
  | _, WClosed => Some (Some ∅, s)
  | _, _ => match evs with
            | [] => Some (None, s)
            | ev :: evs' => match watch_next prefix s ev with Some s' => await prefix evs' s' | None => None end
            end
  end.

(** [main]. [dial] is what [clientv3.New] answers, [F] and [fs] the disk [store.Open] finds,
    [evs] what happens while it waits for the membership. *)
Definition main (f : flags) (dial : list string -> res unit) (F : faults) (fs : FS) (evs : list watch_event) (e : E)
    : option ((fatal + serving) * E) :=
  let self := cmp_Or (fl_advertise f) (fl_addr f) in
  match SplitHostPort self with
  | Err _ => Some (inl (NoHost self), e)
  | Ok (host, _) =>
      if String.eqb host "" then Some (inl (NoHost self), e)
      else
  match Store.Open F fs with
  | Err err => Some (inl (StoreUnopened err), e)
  | Ok s =>
  match dial (splitc "," (fl_etcd f)) with
  | Err err => Some (inl (MetaUnopened err), e)
  | Ok _ =>
  let c := NewCoordinator (fl_id f) self (fl_chunkSize f) in
  match parseScheme (fl_erasure f) with
  | Err err => Some (inl (BadScheme err), e)
  | Ok scheme =>
  match EncodeWith c scheme with
  | Err err => Some (inl (SchemeRefused err), e)
  | Ok c1 =>
  match AcknowledgeAt c1 (fl_quorum f) with
  | Err err => Some (inl (QuorumRefused err), e)
  | Ok c2 =>
  match Meta.Join (fl_prefix f) (fl_id f) self (fl_leaseTTL f) e with
  | (Err err, e1) => Some (inl (JoinFailed err), e1)
  | (Ok _, e1) =>
  match await (fl_prefix f) evs (watch_begin c2 e1) with
  | None => None
  | Some (None, v) => Some (inl (NoMembership (fl_leaseTTL f + 5 * 10 ^ 9)), v_etcd v)
  | Some (Some peers, v) =>
      Some (inr (mk_serving (SetMembers c2 peers) s
        [GoMembers; GoRepairLoop (fl_repairRate f) (fl_repairInterval f); GoScrubLoop (fl_repairRate f) (fl_scrubInterval f);
         GoRebalanceLoop (fl_repairRate f) (fl_rebalanceInterval f); GoCollectLoop (fl_collectGrace f) (fl_collectInterval f);
         GoInternalAPI (fl_addr f)]
        (fl_s3Addr f) (mk_Credentials (fl_accessKey f) (fl_secretKey f))), v_etcd v)
  end end end end end end end end.
End main.

(** ** What start-up guarantees *)

Section main_facts.
Context {E : Type} `{!Etcd doc E} `{!EtcdLaws doc E}.
Implicit Types e : E.

Definition cancels (ev : watch_event) : bool := match ev with EnvCancel => true | _ => false end.

(** The membership etcd had at some moment of a run. *)
Definition had (prefix : string) (s0 : vstate (E := E)) (evs : list watch_event) (m : gmap string string) : Prop :=
  exists evs1 v, evs1 `prefix_of` evs /\ run (watch_next prefix) evs1 s0 = Some v /\ m = membership_of prefix (e_state (v_etcd v)).

Lemma had_more prefix s0 evs evs' m : had prefix s0 evs m -> had prefix s0 (evs ++ evs') m.
Proof. intros (evs1 & v & Hp & H). exists evs1, v. split; [by apply prefix_app_r | done]. Qed.

(** Before the first copy: the context lives, nobody has received, and a copy on offer is
    the membership of some moment of the wait so far. *)
Definition waiting (prefix : string) (s0 : vstate (E := E)) (before : list watch_event) (s : vstate (E := E)) : Prop :=
  v_done s = false /\ v_consumer s = CReceive /\ (v_pc s <> WWait /\ v_pc s <> WClosed) /\
  forall m, v_pc s = WSend m -> had prefix s0 before m.

Lemma await_real prefix (s0 : vstate (E := E)) : forall evs before s peers v,
  forallb (fun ev => negb (cancels ev)) evs = true ->
  run (watch_next prefix) before s0 = Some s -> waiting prefix s0 before s ->
  await prefix evs s = Some (Some peers, v) -> had prefix s0 (before ++ evs) peers.
Proof.
  induction evs as [|ev evs IH]; intros before s peers v Hnc Hrun (Hd & Hc & [Hw Hcl] & Hs); cbn [await]; rewrite Hc.
  { by destruct (v_pc s). }
  cbn [forallb] in Hnc. apply andb_prop in Hnc as [Hev Hnc]. intros H.
  assert (Hn : exists s', watch_next prefix s ev = Some s' /\ await prefix evs s' = Some (Some peers, v)).
  { destruct (v_pc s); try done; (destruct (watch_next prefix s ev) as [s'|]; [by exists s' | done]). }
  clear H. destruct Hn as (s' & Hn & Ha).
  assert (Hrun' : run (watch_next prefix) (before ++ [ev]) s0 = Some s') by (rewrite run_app, Hrun; simpl; by rewrite Hn).
  assert (Hstep : waiting prefix s0 (before ++ [ev]) s' \/ exists m, v_pc s = WSend m /\ v_consumer s' = CSet m).
  { unfold waiting. destruct ev as [|taken| | |n| | | |o| |]; simpl in Hn; try done.
    - destruct (v_pc s) eqn:Hpc; try done; [injection Hn as <-; left; simpl; rewrite Hd, Hc; split_and!; done|].
      destruct (Meta.Members prefix (v_etcd s)) as [[m|err] e1] eqn:Hm; injection Hn as <-; left; simpl; rewrite ?Hd, ?Hc; split_and!; try done.
      intros m' [= <-]. apply Members_lists in Hm as [_ ->]. exists before, s. split; [by apply prefix_app_r | done].
    - destruct (v_pc s) eqn:Hpc; try done. destruct taken; simpl in Hn; [|by rewrite Hd in Hn]. injection Hn as <-. left. simpl. rewrite Hd, Hc. split_and!; done.
    - destruct (v_pc s) as [| | |m| |] eqn:Hpc; try done. rewrite Hc in Hn. injection Hn as <-. right. by exists m.
    - rewrite Hc in Hn. by destruct (v_pc s).
    - by destruct (v_pc s).
    - by destruct (v_pc s).
    - rewrite Hd in Hn. by destruct (v_pc s).
    - by destruct (v_pc s).
    - injection Hn as <-. left. simpl. split_and!; try done; intros m Hm; by apply had_more, Hs.
    - injection Hn as <-. left. simpl. split_and!; try done; intros m Hm; by apply had_more, Hs. }
  destruct Hstep as [Hw'|(m & Hpc & Hset)].
  - rewrite cons_middle, app_assoc. by eapply IH.
  - apply had_more, Hs. destruct evs; cbn [await] in Ha; rewrite Hset in Ha; by injection Ha as <- _.
Qed.

(** C31: a node serves only once it can be a member of a working cluster. If [main] gets as
    far as serving, the address it advertises has a host, its erasure code is none or a
    valid one and its quorum is between 1 and the number of replicas, it has joined, and
    its coordinator places on the ring of the membership that etcd had at some moment of
    this very wait, after the join and before it serves, itself added. If it gives up over
    its configuration or its disk, etcd is as it was, so the cluster has never heard of it.
    (Nobody cancels the context while it waits.) *)
Theorem main_serves_when_ready (f : flags) (dial : list string -> res unit) (F : faults) (fs : FS)
    (evs : list watch_event) (e e' : E) (out : fatal + serving) :
  forallb (fun ev => negb (cancels ev)) evs = true ->
  main f dial F fs evs e = Some (out, e') ->
  let self := cmp_Or (fl_advertise f) (fl_addr f) in
  match out with
  | inl (JoinFailed _) | inl (NoMembership _) => True
  | inl _ => e' = e
  | inr sv =>
      let c := sv_coordinator sv in
      (exists host port, SplitHostPort self = Ok (host, port) /\ host <> "") /\
      c_self c = fl_id f /\ c_addr c = self /\ c_chunkSize c = fl_chunkSize f /\
      c_quorum c = fl_quorum f /\ 1 <= c_quorum c <= Replicas /\
      parseScheme (fl_erasure f) = Ok (c_scheme c) /\ (c_scheme c = zeroScheme \/ Valid (c_scheme c) = true) /\
      ring_current c /\
      exists e1 c2 m, Meta.Join (fl_prefix f) (fl_id f) self (fl_leaseTTL f) e = (Ok tt, e1) /\
        had (fl_prefix f) (watch_begin c2 e1) evs m /\ c = SetMembers c2 m /\ Members c = <[fl_id f := self]> m
  end.
Proof.
  intros Hnc. unfold main. set (self := cmp_Or _ _).
  destruct (SplitHostPort self) as [[host port]|] eqn:Hsp; [|by intros [= <- <-]].
  destruct (String.eqb_spec host "") as [|Hh]; [by intros [= <- <-]|].
  destruct (Store.Open F fs) as [st|]; [|by intros [= <- <-]]. destruct (dial _); [|by intros [= <- <-]].
  destruct (parseScheme _) as [scheme|] eqn:Hps; [|by intros [= <- <-]].
  destruct (EncodeWith _ _) as [c1|] eqn:Hen; [|by intros [= <- <-]].
  destruct (AcknowledgeAt _ _) as [c2|] eqn:Hack; [|by intros [= <- <-]].
  unfold EncodeWith in Hen. destruct (_ && _) eqn:Hv in Hen; [done|]. injection Hen as <-.
  unfold AcknowledgeAt in Hack. destruct (_ || _) eqn:Hq in Hack; [done|]. injection Hack as <-.
  destruct (Meta.Join _ _ _ _ e) as [[[]|] e1] eqn:Hj; [|by intros [= <- <-]].
  destruct (await _ _ _) as [[[peers|] v]|] eqn:Ha; [| |done]; intros [= <- <-]; [|done]. simpl.
  split; [eauto|]. do 4 (split; [done|]). apply orb_false_iff in Hq as [Hq1 Hq2].
  split; [lia|]. split; [done|]. split.
  { apply andb_false_iff in Hv as [Hv|Hv]; [left; by apply bool_decide_eq_false, dec_stable in Hv | right; by apply negb_false_iff]. }
  split; [apply SetMembers_ring|].
  eapply (await_real _ _ evs []) in Ha; [|done|reflexivity|split_and!; done].
  do 3 eexists. split; [reflexivity|]. split; [exact Ha|]. split; [reflexivity|]. apply SetMembers_view.
Qed.
End main_facts.

(** A node on a fresh cluster, given an address to advertise. *)
Definition demo_flags : flags :=
  mk_flags "a" ":8080" ":9000" "kavo" "kavosecret" "10.0.0.1:8080" "./data" DefaultChunkSize 2 DefaultEndpoint
    "/kavo" DefaultLeaseTTL DefaultRepairRate DefaultRepairInterval DefaultRebalanceInterval DefaultScrubInterval
    DefaultCollectInterval DefaultCollectGrace "".
Abbreviation demo_main := (main demo_flags (fun _ => Ok tt) no_faults empty_fs [WatchStep; WatchStep; WatchSent] fresh_etcd).

Lemma main_serves_when_ready_witness : exists sv e', demo_main = Some (inr sv, e') /\ c_quorum (sv_coordinator sv) = 2 /\
  ring_current (sv_coordinator sv) /\ exists c2 e1 m, had "/kavo" (watch_begin c2 e1) [WatchStep; WatchStep; WatchSent] m /\
    Members (sv_coordinator sv) = <["a" := "10.0.0.1:8080"]> m.
Proof.
  assert (Hok : match demo_main with Some (inr _, _) => true | _ => false end = true) by (lazy; reflexivity).
  destruct demo_main as [[[why|sv] e']|] eqn:H; [discriminate Hok| |discriminate Hok].
  exists sv, e'. split; [reflexivity|].
  destruct (main_serves_when_ready demo_flags (fun _ => Ok tt) no_faults empty_fs [WatchStep; WatchStep; WatchSent] fresh_etcd e' (inr sv)
    eq_refl H) as (_ & _ & _ & _ & Hq & _ & _ & _ & Hr & e1 & c2 & m & _ & Hm & _ & Hv).
  split; [exact Hq|]. split; [exact Hr|]. exists c2, e1, m. split; [exact Hm | exact Hv].
Defined.

(** ** What the erasure code flag accepts *)

Lemma format_go_dec fuel : forall n acc, all_bytes is_dec acc = true -> all_bytes is_dec (format_go fuel 10 n acc) = true.
Proof.
  assert (Hd : forall n acc, all_bytes is_dec acc = true -> all_bytes is_dec (String (digit_char (n mod 10)) acc) = true).
  { intros n acc Ha. cbn [all_bytes]. rewrite Ha, andb_true_r. pose proof (Z.mod_pos_bound n 10 ltac:(lia)).
    unfold is_dec, digit_char. rewrite (proj2 (Z.ltb_lt _ _)) by lia. rewrite byteZ_of by lia. zbool. }
  induction fuel as [|fuel IH]; intros n acc Ha; cbn [format_go]; [done|]. destruct (_ <? _); [by apply Hd | by apply IH, Hd].
Qed.

Lemma Itoa_dec n : 0 <= n -> all_bytes is_dec (Itoa n) = true.
Proof. intros Hn. unfold Itoa. rewrite (proj2 (Z.ltb_ge _ _)) by lia. by apply format_go_dec. Qed.

(** The digits stop where something else begins. *)
Definition starts_dec (t : string) : bool := match t with String c _ => is_dec c | EmptyString => false end.

Lemma span_digits_app a t : all_bytes is_dec a = true -> starts_dec t = false -> span_digits (a +:+ t) = (a, t).
Proof.
  intros Ha Ht. induction a as [|c a IH]; simpl.
  - destruct t as [|c t]; [done|]. simpl in *. by rewrite Ht.
  - simpl in Ha. apply andb_prop in Ha as [Hc Ha]. rewrite Hc, IH by done. done.
Qed.

Lemma dec_not_special c : is_dec c = true -> space_len (String c "") = 0%nat /\ Ascii.eqb c "+" = false /\ Ascii.eqb c "-" = false /\
  byteZ c <> 10.
Proof.
  unfold is_dec. intros [H1 H2]%andb_prop. assert (H : 48 <= byteZ c <= 57) by lia. clear H1 H2.
  destruct c as [[] [] [] [] [] [] [] []]; try (exfalso; revert H; vm_compute; intros [? ?]; congruence); vm_compute; done.
Qed.

Lemma dec_space c s : is_dec c = true -> space_len (String c s) = 0%nat.
Proof.
  unfold is_dec. intros [H1 H2]%andb_prop. assert (H : 48 <= byteZ c <= 57) by lia. unfold space_len.
  rewrite (proj2 (Z.eqb_neq _ _)), (proj2 (Z.leb_gt (byteZ c) 13)), andb_false_r by lia. simpl orb. cbn iota.
  assert (Hf : list_find (fun w => HasPrefix (String c s) w = true) wide_spaces = None); [|by rewrite Hf].
  apply list_find_None. assert (Hfirst : Forall (fun w => exists d u, w = String d u /\ 194 <= byteZ d) wide_spaces).
  { repeat constructor; eexists _, _; (split; [reflexivity|]); vm_compute; discriminate. }
  eapply Forall_impl; [exact Hfirst|]. intros w (d & u & -> & Hd). cbn [HasPrefix]. destruct (Ascii.eqb_spec d c); [subst; lia | done].
Qed.

Lemma scan_int_Itoa n t : 0 <= n < 2 ^ 63 -> starts_dec t = false -> scan_int (Itoa n +:+ t) = Some (n, t).
Proof.
  intros Hn Ht. pose proof (Itoa_dec n ltac:(lia)) as Hd. pose proof (Itoa_ne n ltac:(lia)) as Hne. pose proof (ParseInt_Itoa n Hn) as Hp.
  unfold scan_int. assert (Hskip : skip_space (S (slen (Itoa n +:+ t))) (Itoa n +:+ t) = Some (Itoa n +:+ t)).
  { destruct (Itoa n) as [|c a]; [done|]. cbn [all_bytes] in Hd. apply andb_prop in Hd as [Hc _]. cbn [String.append skip_space].
    destruct (dec_not_special c Hc) as (_ & _ & _ & H10). rewrite dec_space by done.
    cbn [HasPrefix]. destruct (Ascii.eqb_spec (byte_of 10) c) as [<-|]; [|done]. by rewrite byteZ_of in H10 by lia. }
  rewrite Hskip.
  assert (Hsign : match Itoa n +:+ t with
    | String c s' => if Ascii.eqb c "+" || Ascii.eqb c "-" then (String c "", s') else ("", Itoa n +:+ t)
    | EmptyString => ("", Itoa n +:+ t) end = ("", Itoa n +:+ t)).
  { destruct (Itoa n) as [|c a] eqn:E; [done|]. cbn [all_bytes] in Hd. apply andb_prop in Hd as [Hc _]. cbn [String.append].
    destruct (dec_not_special c Hc) as (_ & -> & -> & _). done. }
  rewrite Hsign, span_digits_app by done. rewrite Hne. change ("" +:+ Itoa n) with (Itoa n). by rewrite Hp.
Qed.

(** [parseScheme] reads back what [Scheme.String] prints, and the empty string as replication. But it does not
    refuse everything else, as its error message says: after the second number it stops
    looking, so any text that does not go on with a digit may follow, and "6+3.5" and
    "6+3+1" are the code 6+3. *)
Theorem parseScheme_reads (s : Scheme) (t : string) :
  0 <= Data s < 2 ^ 63 -> 0 <= Parity s < 2 ^ 63 -> starts_dec t = false ->
  parseScheme (Scheme_String s) = Ok s /\ parseScheme (Scheme_String s +:+ t) = Ok s /\ parseScheme "" = Ok zeroScheme.
Proof.
  intros Hd Hp Ht. assert (H : forall t, starts_dec t = false -> parseScheme (Scheme_String s +:+ t) = Ok s).
  { clear t Ht. intros t Ht. unfold parseScheme, Scheme_String. rewrite <- !sapp_assoc.
    assert (Hne : String.eqb (Itoa (Data s) +:+ ("+" +:+ (Itoa (Parity s) +:+ t))) "" = false).
    { pose proof (Itoa_ne (Data s) ltac:(lia)). by destruct (Itoa (Data s)). }
    rewrite Hne, scan_int_Itoa by done. cbn [String.append]. rewrite Ascii.eqb_refl, scan_int_Itoa by done. by destruct s. }
  split; [|split; [by apply H | done]]. specialize (H "" eq_refl). by rewrite sapp_nil_r in H.
Qed.

Lemma parseScheme_reads_witness : parseScheme "6+3" = Ok (mk_Scheme 6 3) /\ parseScheme "6+3.5" = Ok (mk_Scheme 6 3).
Proof. destruct (parseScheme_reads (mk_Scheme 6 3) ".5") as (H1 & H2 & _); [simpl; lia | simpl; lia | reflexivity | exact (conj H1 H2)]. Defined.

(** ** Calls between nodes reach the handlers they are meant for *)

Lemma path_value_plain s : has_byte "%" s = false -> path_value s = s.
Proof.
  intros H. unfold path_value. assert (Hu : PathUnescape s = Some s); [|by rewrite Hu].
  induction s as [|c s IH]; [done|]. cbn [has_byte] in H. apply orb_false_iff in H as [Hc Hs].
  cbn [PathUnescape]. rewrite Hc. by rewrite IH.
Qed.

Lemma unsafe_slash s : contains_unsafe s = false -> has_slash s = false.
Proof.
  induction s as [|c s IH]; [done|]. cbn [contains_unsafe has_slash]. intros [H Hs]%orb_false_iff.
  apply bool_decide_eq_false in H. rewrite IH by done. destruct (Ascii.eqb_spec c "/"); [tauto | done].
Qed.

Lemma valid_plain id : validateID id = None -> plain_elem id = true.
Proof.
  unfold validateID. destruct (_ || _) eqn:H; [done|]. intros _. apply orb_false_iff in H as [Hl Hu].
  apply bool_decide_eq_false in Hl. apply plain_elem_spec. pose proof (unsafe_slash _ Hu).
  split; [by intros ->; apply Hl; vm_compute; lia|]. split; [by intros ->; apply Hl; vm_compute; lia|].
  split; [|done]. by intros ->.
Qed.

Lemma last_slash id : id <> "" -> has_slash id = false -> forall p, HasSuffix (p +:+ "/" +:+ id) "/" = false.
Proof.
  intros Hne Hs p. destruct (HasSuffix _ "/") eqn:H; [|done]. apply HasSuffix_spec in H as [t Ht]. exfalso.
  assert (Hlast : forall s u, has_slash s = false -> s <> "" -> p +:+ "/" +:+ s <> u +:+ "/").
  { clear. intros s u Hs Hne H. apply (f_equal (fun x => rev (splitc "/" x))) in H.
    change ("/" +:+ s) with (String "/" s) in H.
    rewrite !splitc_sep, !rev_app_distr, splitc_single in H by done. cbn in H. by injection H. }
  by apply (Hlast id t Hs Hne).
Qed.

Lemma cleanPath_chunk id : plain_elem id = true -> cleanPath (chunkPathURL id) = chunkPathURL id.
Proof.
  intros Hid. pose proof Hid as (Hne & _ & _ & Hs)%plain_elem_spec. unfold cleanPath.
  change (String.eqb (chunkPathURL id) "") with false. cbn iota. change (HasPrefix (chunkPathURL id) "/") with true. cbn iota.
  assert (Hc : path_Clean (chunkPathURL id) = chunkPathURL id).
  { unfold path_Clean. change (String.eqb (chunkPathURL id) "") with false. change (HasPrefix (chunkPathURL id) "/") with true. cbn iota.
    unfold clean_elems. change (HasPrefix (chunkPathURL id) "/") with true.
    assert (Hsp : splitc "/" (chunkPathURL id) = "" :: ["peer"; "chunks"; id]).
    { change (chunkPathURL id) with ("/peer/chunks" +:+ String "/" id). rewrite splitc_sep, (splitc_single id Hs). reflexivity. }
    rewrite Hsp. change (foldl (clean_step true) [] ("" :: ["peer"; "chunks"; id]))
      with (foldl (clean_step true) [] ["peer"; "chunks"; id]).
    rewrite foldl_clean_plain by (by repeat constructor). rewrite app_nil_r, rev_involutive. reflexivity. }
  rewrite Hc. change (chunkPathURL id) with ("/peer/chunks" +:+ "/" +:+ id). rewrite last_slash by done. done.
Qed.

(** Every id the store accepts is routed, whole, to the handler of the call. *)
Lemma peer_calls_routed id : validateID id = None -> has_byte "%" id = false ->
  api_New "PUT" (chunkPathURL id) = RPutChunk id /\ api_New "GET" (chunkPathURL id) = RGetChunk id /\
  api_New "HEAD" (chunkPathURL id) = RHeadChunk id.
Proof.
  intros Hv Hp. pose proof (valid_plain id Hv) as Hid. pose proof Hid as (Hne & _ & _ & Hs)%plain_elem_spec.
  unfold api_New. cbn [String.eqb Ascii.eqb Bool.eqb]. rewrite (cleanPath_chunk id Hid), String.eqb_refl. cbn [negb].
  assert (Hsp : splitc "/" (chunkPathURL id) = "" :: ["peer"; "chunks"; id]).
  { change (chunkPathURL id) with ("/peer/chunks" +:+ String "/" id). rewrite splitc_sep, (splitc_single id Hs). reflexivity. }
  rewrite Hsp, (path_value_plain id Hp), (proj2 (String.eqb_neq id "") Hne). split_and!; reflexivity.
Qed.
